(* ===== verification/_CoqProject ===== *)
-Q . S2P
Prelude.v
RustStr.v
BTree.v
Reliable.v
Link.v
Wire.v
Descriptor.v
Json.v
JsonDoc.v
F64.v
Value.v
LobbyFilter.v
App.v
Playfab.v
Party.v
Broker.v
Http.v
LanCfg.v
Server.v
Serve.v
Pe.v
Comp.v
LogFile.v
Mesh.v
Outbox.v
Peers.v
Inbound.v
PartyApi.v
Wiring.v
MeshInv.v
MeshKeeps.v
MeshRun.v
MeshProps.v
MeshDelivery.v
MpState.v
MpJson.v
MpLayout.v
MpRecords.v
MpWorker.v
MpApi.v
MpInv.v
MpKeeps.v
MpRun.v
MpProps.v
LobbyWire.v
SteamAbi.v
SteamHttp.v
SteamInv.v
SteamRun.v
SteamProps.v
SteamHook.v
SteamHookProps.v
Probe.v
ProbeGame.v
ProbeAsync.v
ProbeSafe.v
PayloadLog.v
ProbeEmit.v
ProbeProps.v
