(* ===== verification/Prelude.v ===== *)
(** * Verification of the GBFR LAN server and shims

    The repository lets a game that needs PlayFab play over a local network.  A
    broker ([src/lan-server]) answers the PlayFab and party HTTP calls; shims
    loaded into the game replace the vendor libraries: the Party shim
    ([src/party-shim]) carries the game's messages between the players over
    UDP, the multiplayer shim ([src/playfab-mp-shim]) the lobbies, the Steam
    HTTP shim ([src/steam-http-shim]) redirects web requests.  [src/common] has
    the JSON reader, the HTTP client and the configuration they share.

    ** The parts, and where they are modelled

    - Shared: [Prelude] (integers with their width, windows of byte lists, the
      tactics), [RustStr] (strings as bytes: UTF-8, trimming, splitting, number
      text), [BTree] (ordered maps), [F64] (binary64), [Value] (serde_json
      values), [Comp] (computations over a state, their weakest preconditions
      and what keeps an invariant).  Nothing in them is about the repository.
    - [common/json.rs]: [Json]; [JsonDoc] says what it reads out of a document.
      [common/http.rs]: [Http].  [common/lan_cfg.rs], with its search for the ini
      file, and the arguments of the broker: [LanCfg].
    - [party-shim/src/reliable.rs]: [Reliable], one sender and one receiver;
      [Link] puts the two on a network that loses, duplicates and reorders.
    - [party-shim/src/wire.rs]: [Wire].  The descriptors of
      [party-shim/src/lib.rs]: [Descriptor].
    - The rest of [party-shim/src/lib.rs], messaging: [Mesh] (the boxes, the queue
      of state changes, the computations), [Outbox] (sending and timers), [Peers]
      (the broker thread and the remote set), [Inbound] (receiving), [PartyApi]
      (the exports).  [MeshInv] and [MeshKeeps] prove the invariant operation by
      operation, [MeshRun] composes exports, worker threads and network into a
      step relation, [MeshProps] and [MeshDelivery] state what follows.
    - The rest of [party-shim/src/lib.rs], diagnosis: [Probe] (guarded reads of the
      game's memory, throttled lines), [ProbeGame] and [ProbeAsync] (the probes of
      sessions, quests, members, tasks and the sampler), [PayloadLog] (the message
      log).  [ProbeSafe] and [ProbeProps] prove which reads are safe, [ProbeEmit]
      when lines appear.
    - [playfab-mp-shim/src/lib.rs]: [MpState] (lobbies, jobs, the queue of state
      changes), [MpJson] (the texts exchanged with the broker), [MpLayout] (the
      records of the state changes, byte by byte), [MpWorker] (the refreshes, the
      announcements and the broker worker), [MpApi] (the exports).  [MpInv] and
      [MpKeeps] prove the invariant operation by operation, [MpRun] composes
      exports and worker turns into a step relation, [MpProps] states what
      follows; [MpRecords] proves that the records say what was queued.
    - [lan-server/src/lobby_filter.rs]: [LobbyFilter].
    - [lan-server/src/main.rs]: [App] (state and helpers), [Playfab] (the lobby
      routes), [Party] (the peer registry), [Broker] (the dispatcher and its
      critical sections), [Server] (connections: requests, responses,
      WebSockets), [Serve] (the two accept loops, their budgets and the threads
      of their connections).
    - [steam-http-shim/src/pe.rs]: [Pe].  [abi.rs]: [SteamAbi].  [lib.rs]:
      [SteamHttp] (requests, WinHTTP, callbacks), [SteamHook] (how the hooks are
      installed).  [SteamInv] and [SteamRun] prove the invariant and compose the
      calls, [SteamProps] and [SteamHookProps] state what follows.
    - The log files of the four programs, their limits and the queue probe of the
      multiplayer shim: [LogFile].
    - Between the programs: [Wiring] takes a reply of the broker through its
      response, the HTTP client and the JSON reader into the Party shim,
      [LobbyWire] into the multiplayer shim.

    ** How state and effects are modelled

    The broker's state is one record, [App.App]; a [&mut App] argument is an
    [App] in and an [App] out, and clock readings are arguments.  [dispatch]
    takes the broker's lock up to four times: [Broker.section] is one critical
    section and [Broker.exec] runs any number of connections under a schedule.

    The Party shim shares boxes between the game and two threads by raw
    pointers.  They live in a heap of [Mesh.World]; a computation
    [World -> option (A * World)] has no result where the code would follow a
    null or dangling pointer, so that "the computation returns" is memory
    safety.  Every export and every turn of a thread runs under one mutex and
    is one step of [MeshRun.mesh_step]; the steps interleave freely.  The
    clocks, the sockets, the broker's answers and the game's member list are
    the class [Mesh.Env], functions of the number of readings made so far:
    two readings need not agree.

    The lobby shim is modelled the same way over [MpState.MpWorld].  Its worker
    makes its requests without the lock and applies the answers under it, so a
    step is a call of the title, the requests of one job or of one poll, or one
    critical section ([MpWorker.worker_turn]).  The world carries the log of
    every state change ever queued; [MpInv.change_ok] says what each change
    means against the changes before it, and the right to complete a create or
    a join is a token that is spent once.  A state change is a value there; in
    [MpLayout] it is a record written into a memory of blocks by an allocator
    that may return null.

    A call of the Steam shim is a computation over [SteamHttp.World].  Sending a
    request is two critical sections with the exchange between them, so that
    other calls may come first.  The title's callbacks run inside the dispatch;
    they may call the shim but not [RunCallbacks] again, and no callback object
    is freed while it is dispatched.  The bodies exchanged are finite.  For the
    hooks the loader, [VirtualProtect] and [VirtualAlloc] answer as functions of
    time, and the words of interfaces and the import images do not overlap.

    The probes read a memory that may change between two reads, while the set of
    mapped addresses is fixed; [log_line] keeps the texts.  A log file is a
    number on a disk whose opens and writes may fail and whose log somebody may
    delete ([LogFile.LogEnv]).

    Libraries the sources call are classes with the laws the code relies on:
    serde_json's printer and parser, SHA-1, base64 and ChaCha20-Poly1305, the
    order in which a [HashMap] is visited, the allocator.  Each class has a
    concrete instance ([simple_serde], [simple_order], [simple_crypto],
    [printing_serde], [bump_allocator], [demo_env] for the Party shim,
    [mp_demo_env] for the lobby shim) so that the witnesses evaluate.

    Loops that are not structural have fuel: the length of the text (scanners),
    the length of the queue (pumps, drains), the socket's budget, 17 levels for
    the walk over the member tree.  For each one a lemma shows the fuel passed is
    enough ([Json.json_scan_total], [LobbyFilter.parse_filter_loop_fuel],
    [MeshProps.pump_drains], [Server.pump_loop_fuel]) or the loop is bounded in
    the source itself.  The lobby worker runs for ever; [MpProps.worker_drains]
    bounds the turns it needs for the work it has.

    ** What the theorems show

    - Reliable delivery ([Link]): messages sent guaranteed and in sequence are
      delivered exactly once and in order; nothing is lost without being
      reported; the link refines a FIFO channel; the head of the line gets
      through.
    - The Party shim ([MeshProps], [MeshDelivery]): no reachable call follows a
      bad pointer; the game learns of a peer before it gets a message from it;
      the ledger, the batches and the outbox account for everything; a hold
      ends after its timeout; a datagram that arrives reaches the game's queue.
    - The probes ([ProbeProps], [ProbeEmit]): the guarded ones never read an
      address that is not mapped; lines appear when the reading changes.
    - The lobby shim ([MpProps]): no run follows a bad pointer or panics; a join
      is announced before it is completed and is completed once; the title's
      roster is the shim's; updates report exactly the difference and a refresh
      merges exactly as it should; every state change is handed over once and in
      order; the worker gets to the end of its work.  [MpRecords]: the title
      reads out of the records exactly the changes queued, and a failed
      allocation can only leave things out.
    - The Steam shim ([SteamProps], [SteamHookProps]): no run uses a freed or
      unknown object; results, tickets and responses are delivered once and as
      they came; the traffic goes to the broker; loading installs every hook the
      modules allow.
    - The broker ([Serve], [Broker], [Playfab], [Party]): interleaved connections
      are handled as if one at a time and within the budgets; requests are
      linearizable; the state invariant holds; what each route does on every
      branch, errors included; a member that keeps polling is not expired.
    - Between the programs ([JsonDoc], [Wiring], [LobbyWire]): what the JSON reader
      finds in a document is what the document says; the peers and the lobby the
      broker answers arrive in the shims, in whatever order the fields are
      printed.
    - Formats: round trips of packets, descriptors, requests, responses,
      WebSocket frames, JSON strings, lobby filters and the ini file; a filter
      that cannot be parsed matches nothing.
    - Import table patching ([Pe]): no access outside the image once the header
      is accepted, whatever the memory holds from one read to the next.
    - The logs ([LogFile]): every line of a run is in its file, in order; a
      deleted log comes back; the tables of the limits are bounded.

    Some theorems that are not properties pin down behaviour that looks
    unintended; the manifest's findings list them.

    ** Not modelled

    The texts of the Party shim's remaining debug lines (the ledger, the idle
    report, stacks); failed [accept]s and thread spawns and the console banner of
    the broker; the races of the lobby exports with their worker on a
    lobby that is not locked; the counters that feed only the queue probe; what
    an allocation failure does outside the records of the state changes;
    poisoned locks; the branches compiled out by [PARTY_RELIABLE = true]; build
    scripts and installers. *)

From Stdlib Require Export ZArith Lia Sorting.Sorted.
From Stdlib Require Export Strings.Byte.
From stdpp Require Export base numbers option strings gmap fin_maps list.

#[global] Open Scope Z_scope.

(** ** Machine-width integers

    A [u32] (or [u16], [u64], ...) value of the source is a [Z] in range; the
    wrapping, saturating and reinterpreting operations are written out. *)

Declare Scope rust_scope.
Delimit Scope rust_scope with rust.

Definition U8 : Z := 256.
Definition U16 : Z := 65536.
Definition I32 : Z := 2147483648.
Definition U32 : Z := 4294967296.
Definition I64 : Z := 9223372036854775808.
Definition U64 : Z := 18446744073709551616.

Definition is_u8 (z : Z) : Prop := 0 <= z < U8.
Definition is_u16 (z : Z) : Prop := 0 <= z < U16.
Definition is_u32 (z : Z) : Prop := 0 <= z < U32.
Definition is_u64 (z : Z) : Prop := 0 <= z < U64.

(** [u32::wrapping_add], [u32::wrapping_sub] and [as i32]. *)
Definition wrapping_add32 (a b : Z) : Z := (a + b) mod U32.
Definition wrapping_sub32 (a b : Z) : Z := (a - b) mod U32.
Definition as_i32 (a : Z) : Z := if a <? I32 then a else a - U32.

(** [u64::saturating_add], [saturating_sub], [saturating_mul]. *)
Definition saturating_add64 (a b : Z) : Z := Z.min (a + b) (U64 - 1).
Definition saturating_sub (a b : Z) : Z := Z.max 0 (a - b).
Definition saturating_mul64 (a b : Z) : Z := Z.min (a * b) (U64 - 1).

(** [Ord::clamp]. *)
Definition clamp (n lo hi : Z) : Z := if n <? lo then lo else if hi <? n then hi else n.

Infix "+w" := wrapping_add32 (at level 50, left associativity) : rust_scope.
Infix "-w" := wrapping_sub32 (at level 50, left associativity) : rust_scope.

(** ** Tactics of the development *)

(** [ulia]: linear arithmetic with the width constants and the wrapping
    operations unfolded, [mod] and [/] by constants included. *)
Ltac unfold_widths :=
  unfold is_u8, is_u16, is_u32, is_u64, wrapping_add32, wrapping_sub32, as_i32,
    saturating_add64, saturating_sub, saturating_mul64, clamp,
    U8, U16, I32, U32, I64, U64 in *.
Ltac ulia := unfold_widths; Z.to_euclidean_division_equations; lia.

(** [case_bool b]: split on a boolean test, turning [Z] and [nat] tests into
    propositions. *)
Ltac bool_props :=
  repeat match goal with
  | H : (_ <? _)%Z = true |- _ => apply Z.ltb_lt in H
  | H : (_ <? _)%Z = false |- _ => apply Z.ltb_ge in H
  | H : (_ <=? _)%Z = true |- _ => apply Z.leb_le in H
  | H : (_ <=? _)%Z = false |- _ => apply Z.leb_gt in H
  | H : (_ =? _)%Z = true |- _ => apply Z.eqb_eq in H
  | H : (_ =? _)%Z = false |- _ => apply Z.eqb_neq in H
  | H : (_ <? _)%nat = true |- _ => apply Nat.ltb_lt in H
  | H : (_ <? _)%nat = false |- _ => apply Nat.ltb_ge in H
  | H : (_ <=? _)%nat = true |- _ => apply Nat.leb_le in H
  | H : (_ <=? _)%nat = false |- _ => apply Nat.leb_gt in H
  | H : (_ =? _)%nat = true |- _ => apply Nat.eqb_eq in H
  | H : (_ =? _)%nat = false |- _ => apply Nat.eqb_neq in H
  | H : negb _ = true |- _ => apply negb_true_iff in H
  | H : negb _ = false |- _ => apply negb_false_iff in H
  | H : _ && _ = true |- _ => apply andb_true_iff in H as [? ?]
  | H : _ || _ = false |- _ => apply orb_false_iff in H as [? ?]
  end.

(** [case_if]: split on the scrutinee of some [if] of the goal. *)
Ltac case_if :=
  match goal with
  | |- context [if ?b then _ else _] =>
      match type of b with bool => destruct b eqn:?; bool_props end
  end.

(** [case_if_in H]: the same for a hypothesis. *)
Ltac case_if_in H :=
  match type of H with
  | context [if ?b then _ else _] =>
      match type of b with bool => destruct b eqn:?; bool_props end
  end.

(** [app_norm]: concatenations associated to the right, conses pulled out. *)
Ltac app_norm := repeat first [rewrite <- app_assoc | progress cbn [app]].

(** ** Lists *)

(** [Iterator::find_map]. *)
Fixpoint find_map {A B} (f : A → option B) (l : list A) : option B :=
  match l with
  | [] => None
  | x :: l' => match f x with Some y => Some y | None => find_map f l' end
  end.

(** [Iterator::position]. *)
Fixpoint position {A} (p : A → bool) (l : list A) : option nat :=
  match l with
  | [] => None
  | x :: l' => if p x then Some 0%nat else S <$> position p l'
  end.

(** [iter_mut().find(p)] followed by an update of the element found. *)
Fixpoint update_first {A} (p : A → bool) (f : A → A) (l : list A) : list A :=
  match l with
  | [] => []
  | x :: l' => if p x then f x :: l' else x :: update_first p f l'
  end.

Lemma position_Some {A} (p : A → bool) l i :
  position p l = Some i →
  ∃ x, l !! i = Some x ∧ p x = true ∧ Forall (λ y, p y = false) (take i l).
Proof.
  revert i. induction l as [|y l IH]; intros i; simpl; [done|].
  destruct (p y) eqn:Hy.
  - intros [= <-]. exists y. simpl. eauto using Forall_nil_2.
  - destruct (position p l) as [j|] eqn:Hj; simpl; [|done].
    intros [= <-]. destruct (IH _ eq_refl) as (x & ? & ? & ?).
    exists x. simpl. auto.
Qed.

Lemma position_None {A} (p : A → bool) l :
  position p l = None ↔ Forall (λ y, p y = false) l.
Proof.
  induction l as [|y l IH]; simpl; [split; auto|].
  destruct (p y) eqn:Hy.
  - split; [done|]. inversion 1; congruence.
  - destruct (position p l); simpl.
    + split; [done|]. inversion 1; subst. by apply IH in H3.
    + split; [|done]. intros _. constructor; [done|]. by apply IH.
Qed.

Lemma length_update_first {A} (p : A → bool) f l :
  length (update_first p f l) = length l.
Proof. induction l; simpl; [done|]. case_if; simpl; congruence. Qed.

Lemma find_map_Some {A B} (f : A → option B) l y :
  find_map f l = Some y → ∃ x, x ∈ l ∧ f x = Some y.
Proof.
  induction l as [|x l IH]; simpl; [done|]. destruct (f x) eqn:Hx.
  - intros [= ->]. exists x. split; [left|done].
  - intros (z & ? & ?)%IH. exists z. split; [by right|done].
Qed.

Lemma length_filter_le {A} (P : A → Prop) `{∀ x, Decision (P x)} l :
  (length (filter P l) ≤ length l)%nat.
Proof. induction l as [|x l IH]; simpl; [done|]. rewrite filter_cons. case_decide; simpl; lia. Qed.

(** Rule induction for invariants of a step relation. *)
Lemma rtc_invariant {A} (R : relation A) (P : A → Prop) :
  (∀ x y, R x y → P x → P y) → ∀ x y, rtc R x y → P x → P y.
Proof. intros Hstep x y Hr. induction Hr; eauto. Qed.

Lemma filter_all {A} (P : A → Prop) `{∀ x, Decision (P x)} l : Forall P l → filter P l = l.
Proof. induction 1; [done|]. rewrite filter_cons, decide_True by done. by f_equal. Qed.

Lemma filter_none {A} (P : A → Prop) `{∀ x, Decision (P x)} l :
  Forall (λ x, ¬ P x) l → filter P l = [].
Proof. induction 1; [done|]. by rewrite filter_cons, decide_False. Qed.

(** ** Results *)

(** [Result<A, E>]. *)
Inductive result (A E : Type) : Type :=
  | Ok (a : A)
  | Err (e : E).
Arguments Ok {A E} _.
Arguments Err {A E} _.

Definition result_ok {A E} (r : result A E) : option A :=
  match r with Ok a => Some a | Err _ => None end.

(** ** Fixed layouts *)

(** [&buf[off..off + n]], shorter where the buffer ends; [slice_get] is [buf.get(a..b)]. *)
Definition slice {A} (off n : nat) (buf : list A) : list A := take n (drop off buf).
Definition slice_get {A} (a b : nat) (buf : list A) : option (list A) :=
  if (a <=? b)%nat && (b <=? length buf)%nat then Some (slice a (b - a) buf) else None.
(** [buf[off..off + src.len()].copy_from_slice(src)], for a range inside the buffer. *)
Definition write_at {A} (off : nat) (src buf : list A) : list A :=
  take off buf ++ src ++ drop (off + length src) buf.

Section layouts.
Context {A : Type}.
Implicit Types (buf src : list A).

Lemma length_write_at off src buf :
  (off + length src ≤ length buf)%nat → length (write_at off src buf) = length buf.
Proof. intros. unfold write_at. rewrite !length_app, length_take, length_drop. lia. Qed.

Lemma length_slice off n buf : (off + n ≤ length buf)%nat → length (slice off n buf) = n.
Proof. intros. unfold slice. rewrite length_take, length_drop. lia. Qed.

Lemma slice_write_same off n src buf :
  n = length src → (off + n ≤ length buf)%nat → slice off n (write_at off src buf) = src.
Proof.
  intros -> Hb. unfold slice, write_at. rewrite drop_app_ge by (rewrite length_take; lia).
  rewrite length_take, Nat.min_l, Nat.sub_diag, drop_0 by lia. by rewrite take_app_length.
Qed.

Lemma slice_write_other a n off src buf :
  (off + length src ≤ length buf)%nat → (a + n ≤ off ∨ off + length src ≤ a)%nat →
  slice a n (write_at off src buf) = slice a n buf.
Proof.
  intros Hb Ho. unfold slice, write_at. destruct Ho as [Ho|Ho].
  - rewrite drop_app_le by (rewrite length_take; lia).
    rewrite take_app_le by (rewrite length_drop, length_take; lia).
    rewrite skipn_firstn_comm, take_take. f_equal. lia.
  - rewrite app_assoc, drop_app_ge by (rewrite length_app, length_take; lia).
    rewrite drop_drop, length_app, length_take, Nat.min_l by lia. do 2 f_equal. lia.
Qed.

Lemma slice_slice a n b m buf : (b + m ≤ n)%nat → slice b m (slice a n buf) = slice (a + b) m buf.
Proof.
  intros. unfold slice. rewrite skipn_firstn_comm, take_take, drop_drop. f_equal. lia.
Qed.

Lemma slice_take a n k buf : (a + n ≤ k)%nat → slice a n (take k buf) = slice a n buf.
Proof. intros. unfold slice. rewrite skipn_firstn_comm, take_take. f_equal. lia. Qed.

Lemma slice_app a n m buf : slice a (n + m) buf = slice a n buf ++ slice (a + n) m buf.
Proof.
  unfold slice. rewrite <- drop_drop. generalize (drop a buf). intros l.
  revert l. induction n as [|n IH]; intros [|x l]; simpl; rewrite ?take_nil; [done..|].
  f_equal. apply IH.
Qed.

Lemma take_length_min n buf : take (length buf `min` n) buf = take n buf.
Proof.
  destruct (decide (n ≤ length buf)%nat); [by rewrite Nat.min_r|].
  rewrite Nat.min_l, firstn_all, take_ge by lia. done.
Qed.

Lemma slice_replicate a n k (x : A) : (a + n ≤ k)%nat → slice a n (replicate k x) = replicate n x.
Proof. intros. unfold slice. rewrite drop_replicate, take_replicate. f_equal. lia. Qed.

Lemma slice_all buf : slice 0 (length buf) buf = buf.
Proof. unfold slice. by rewrite drop_0, firstn_all. Qed.
End layouts.

(** ** Sorting *)

(** [slice.sort_by(cmp)] for a total order: stable insertion. *)
Fixpoint insert_by {A} (cmp : A → A → comparison) (x : A) (l : list A) : list A :=
  match l with
  | [] => [x]
  | y :: l' => match cmp x y with Gt => y :: insert_by cmp x l' | _ => x :: l end
  end.
Fixpoint sort_by {A} (cmp : A → A → comparison) (l : list A) : list A :=
  match l with [] => [] | x :: l => insert_by cmp x (sort_by cmp l) end.

Lemma insert_by_perm {A} cmp (x : A) l : insert_by cmp x l ≡ₚ x :: l.
Proof.
  induction l as [|y l IH]; simpl; [done|]. destruct (cmp x y); [done..|].
  rewrite IH. apply Permutation_swap.
Qed.

Lemma sort_by_perm {A} cmp (l : list A) : sort_by cmp l ≡ₚ l.
Proof. induction l as [|x l IH]; simpl; [done|]. by rewrite insert_by_perm, IH. Qed.

(** Sorted, when the comparison of two elements does not put both first. *)
Lemma sort_by_Sorted {A} (cmp : A → A → comparison) (l : list A) :
  (∀ x y, cmp x y = Gt → cmp y x ≠ Gt) → Sorted (λ x y, cmp x y ≠ Gt) (sort_by cmp l).
Proof.
  intros Hc. induction l as [|x l IH]; cbn [sort_by]; [constructor|].
  induction IH as [|y l' Hs IHs Hh]; cbn [insert_by]; [by repeat constructor|].
  destruct (cmp x y) eqn:Hxy; [by repeat constructor; try congruence..|].
  constructor; [exact IHs|]. destruct l' as [|z l']; cbn [insert_by]; [constructor; auto|].
  apply HdRel_inv in Hh. destruct (cmp x z); constructor; auto.
Qed.

(** [update_first] leaves a projection alone when the update does. *)
Lemma update_first_map {A B} (p : A → bool) (f : A → A) (g : A → B) l :
  (∀ x, x ∈ l → p x = true → g (f x) = g x) → map g (update_first p f l) = map g l.
Proof.
  induction l as [|x l IH]; intros Hg; simpl; [done|]. destruct (p x) eqn:Hp; simpl.
  - f_equal. apply Hg; [left|done].
  - f_equal. apply IH. intros y Hy. apply Hg. by right.
Qed.

Lemma update_first_Forall {A} (P : A → Prop) (p : A → bool) (f : A → A) l :
  (∀ x, P x → P (f x)) → Forall P l → Forall P (update_first p f l).
Proof.
  intros Hf. induction 1 as [|x l Hx Hl IH]; simpl; [constructor|].
  destruct (p x); constructor; auto.
Qed.

(** When at most one element has a result, [find_map] does not depend on the order. *)
Lemma find_map_unique {A B} (f : A → option B) l x y :
  x ∈ l → f x = Some y → (∀ z y', z ∈ l → f z = Some y' → y' = y) → find_map f l = Some y.
Proof.
  induction l as [|z l IH]; [by intros ?%elem_of_nil|]. intros Hin Hx Hu. simpl.
  destruct (f z) as [y'|] eqn:Hz.
  - f_equal. apply (Hu z); [left|done].
  - apply elem_of_cons in Hin as [->|Hin]; [congruence|]. apply IH; [done..|].
    intros ? ? ?. apply Hu. by right.
Qed.

Lemma find_map_None {A B} (f : A → option B) l :
  find_map f l = None ↔ ∀ x, x ∈ l → f x = None.
Proof.
  induction l as [|z l IH]; simpl; [split; [by intros _ ? ?%elem_of_nil|done]|].
  destruct (f z) as [y|] eqn:Hz.
  - split; [done|]. intros Hall. rewrite Hall in Hz; [done|left].
  - rewrite IH. split; [|intros Hall x Hx; apply Hall; by right].
    intros Hall x [->|Hx]%elem_of_cons; auto.
Qed.
