(* ===== verification/RustStr.v ===== *)
(** * Rust strings and byte slices

    The part of Rust's standard library the sources use on [&str], [String],
    [&[u8]] and integers in text form.  A [Vec<u8>] is a [list byte]; a [String]
    is a Rocq [string] whose characters are the bytes of its UTF-8 encoding, so
    [s.len()] is the number of bytes, as in Rust.  Functions on [char]s decode
    UTF-8 first.  Nothing here is specific to the repository. *)

From S2P Require Import Prelude.
From stdpp Require Export pretty.
#[local] Open Scope Z_scope.

Create HintDb ruststr discriminated.

(** ** Bytes *)

Definition bz (b : byte) : Z := Z.of_N (Byte.to_N b).
Definition zb (z : Z) : byte :=
  match Byte.of_N (Z.to_N (z mod U8)) with Some b => b | None => x00 end.

Lemma bz_range b : 0 <= bz b < 256.
Proof. unfold bz. pose proof (Byte.to_N_bounded b). lia. Qed.

Lemma zb_bz b : zb (bz b) = b.
Proof. by destruct b. Qed.

Lemma bz_zb z : bz (zb z) = z mod U8.
Proof.
  unfold bz, zb. pose proof (Z.mod_pos_bound z U8 eq_refl) as Hr.
  destruct (Byte.of_N (Z.to_N (z mod U8))) as [b|] eqn:Hb.
  - apply Byte.to_of_N in Hb. rewrite Hb. lia.
  - apply Byte.of_N_None_iff in Hb. unfold U8 in *. lia.
Qed.

Lemma bz_zb_small z : 0 <= z < 256 → bz (zb z) = z.
Proof. intros. rewrite bz_zb. apply Z.mod_small. done. Qed.

Lemma bz_inj a b : bz a = bz b → a = b.
Proof. intros H. by rewrite <- (zb_bz a), <- (zb_bz b), H. Qed.

#[export] Instance byte_eq_dec : EqDecision byte := Byte.byte_eq_dec.

Definition byte_eqb (a b : byte) : bool := Byte.eqb a b.

Lemma byte_eqb_eq a b : byte_eqb a b = true ↔ a = b.
Proof.
  unfold byte_eqb. split; [apply Byte.byte_dec_bl|intros ->; apply Byte.byte_dec_lb, eq_refl].
Qed.

Lemma byte_eqb_refl a : byte_eqb a a = true.
Proof. by apply byte_eqb_eq. Qed.

(** [lo..=hi] patterns on bytes. *)
Definition byte_in (lo hi : Z) (b : byte) : bool := (lo <=? bz b) && (bz b <=? hi).

(** [str::as_bytes] and [String::from_utf8_unchecked]. *)
Definition sbytes (s : string) : list byte := String.list_byte_of_string s.
Definition bstr (l : list byte) : string := String.string_of_list_byte l.

Lemma bstr_sbytes s : bstr (sbytes s) = s.
Proof. apply String.string_of_list_byte_of_string. Qed.
Lemma sbytes_bstr l : sbytes (bstr l) = l.
Proof. apply String.list_byte_of_string_of_list_byte. Qed.
Lemma sbytes_app s t : sbytes (s +:+ t) = sbytes s ++ sbytes t.
Proof.
  unfold sbytes, String.list_byte_of_string.
  induction s as [|c s IH]; simpl; [done|]. by f_equal.
Qed.
Lemma sbytes_inj s t : sbytes s = sbytes t → s = t.
Proof. intros H. by rewrite <- (bstr_sbytes s), <- (bstr_sbytes t), H. Qed.

(** ** Little-endian [u32] (and wider) values *)

Fixpoint to_le (n : nat) (z : Z) : list byte :=
  match n with O => [] | S n => zb z :: to_le n (z / 256) end.
Fixpoint from_le (l : list byte) : Z :=
  match l with [] => 0 | b :: l => bz b + 256 * from_le l end.

Lemma length_to_le n z : length (to_le n z) = n.
Proof. revert z. induction n; intros; simpl; auto. Qed.

Lemma from_le_to_le n z : from_le (to_le n z) = z mod 256 ^ Z.of_nat n.
Proof.
  revert z. induction n as [|n IH]; intros z; cbn [to_le from_le].
  - by rewrite Z.mod_1_r.
  - rewrite IH, bz_zb, Nat2Z.inj_succ, Z.pow_succ_r by lia. unfold U8.
    rewrite Z.rem_mul_r by (try apply Z.pow_pos_nonneg; lia). lia.
Qed.

Lemma from_le_range l : 0 <= from_le l < 256 ^ Z.of_nat (length l).
Proof.
  induction l as [|b l IH]; cbn [from_le length]; [lia|].
  rewrite Nat2Z.inj_succ, Z.pow_succ_r by lia. pose proof (bz_range b). lia.
Qed.

Lemma from_le_to_le_u32 z : is_u32 z → from_le (to_le 4 z) = z.
Proof. intros. rewrite from_le_to_le. apply Z.mod_small. exact H. Qed.
Lemma from_le_u64 z : is_u64 z → from_le (to_le 8 z) = z.
Proof. intros Hz. rewrite from_le_to_le. apply Z.mod_small. ulia. Qed.

(** ** UTF-8

    [utf8_step l] classifies the sequence at the head of [l]: [(true, n)] is a
    well-formed character of [n] bytes, [(false, n)] the maximal ill-formed
    prefix, of [n] bytes, that [from_utf8_lossy] replaces by one U+FFFD. *)

Definition is_cont (b : byte) : bool := byte_in 128 191 b.

Definition utf8_step (l : list byte) : bool * nat :=
  match l with
  | [] => (true, 0%nat)
  | b0 :: r =>
      let ok2 (lo hi : Z) := match r with b1 :: _ => byte_in lo hi b1 | [] => false end in
      let ok3 := match r with _ :: b2 :: _ => is_cont b2 | _ => false end in
      let ok4 := match r with _ :: _ :: b3 :: _ => is_cont b3 | _ => false end in
      let two := if ok2 128 191 then (true, 2%nat) else (false, 1%nat) in
      let three lo hi :=
        if ok2 lo hi then (if ok3 then (true, 3%nat) else (false, 2%nat)) else (false, 1%nat) in
      let four lo hi :=
        if ok2 lo hi
        then (if ok3 then (if ok4 then (true, 4%nat) else (false, 3%nat)) else (false, 2%nat))
        else (false, 1%nat) in
      let z := bz b0 in
      if z <? 128 then (true, 1%nat)
      else if (194 <=? z) && (z <=? 223) then two
      else if z =? 224 then three 160 191
      else if z =? 237 then three 128 159
      else if (225 <=? z) && (z <=? 239) then three 128 191
      else if z =? 240 then four 144 191
      else if (241 <=? z) && (z <=? 243) then four 128 191
      else if z =? 244 then four 128 143
      else (false, 1%nat)
  end.

(** The characters of a slice, each as its bytes ([fuel]: the length). *)
Fixpoint utf8_chunks_fuel (fuel : nat) (l : list byte) : list (bool * list byte) :=
  match fuel, l with
  | S fuel, _ :: _ =>
      let '(ok, n) := utf8_step l in
      (ok, take n l) :: utf8_chunks_fuel fuel (drop n l)
  | _, _ => []
  end.
Definition utf8_chunks (l : list byte) : list (bool * list byte) :=
  utf8_chunks_fuel (length l) l.

(** [str::from_utf8(..).is_ok()], [String::from_utf8_lossy] and [str::chars]. *)
Definition utf8_valid (l : list byte) : bool := forallb fst (utf8_chunks l).
Definition replacement : list byte := [xef; xbf; xbd].
Definition from_utf8_lossy (l : list byte) : string :=
  bstr (concat (map (λ c : bool * list byte, if c.1 then c.2 else replacement) (utf8_chunks l))).
Definition chars (l : list byte) : list (list byte) := (utf8_chunks l).*2.

(** The code point a character's bytes encode. *)
Definition code_point (c : list byte) : Z :=
  match map bz c with
  | [a] => a
  | [a; b] => Z.lor (Z.shiftl (Z.land a 31) 6) (Z.land b 63)
  | [a; b; c] => Z.lor (Z.shiftl (Z.land a 15) 12) (Z.lor (Z.shiftl (Z.land b 63) 6) (Z.land c 63))
  | [a; b; c; d] =>
      Z.lor (Z.shiftl (Z.land a 7) 18)
        (Z.lor (Z.shiftl (Z.land b 63) 12) (Z.lor (Z.shiftl (Z.land c 63) 6) (Z.land d 63)))
  | _ => 65533
  end.

(** [char::from_u32] followed by [String::push]: the UTF-8 encoding of a scalar value. *)
Definition char_from_u32 (c : Z) : option (list byte) :=
  if (c <? 0) || (1114111 <? c) || ((55296 <=? c) && (c <=? 57343)) then None
  else Some
    (if c <? 128 then [zb c]
     else if c <? 2048 then [zb (192 + c / 64); zb (128 + c mod 64)]
     else if c <? 65536 then [zb (224 + c / 4096); zb (128 + c / 64 mod 64); zb (128 + c mod 64)]
     else [zb (240 + c / 262144); zb (128 + c / 4096 mod 64); zb (128 + c / 64 mod 64);
           zb (128 + c mod 64)]).

Lemma utf8_step_pos b l : (0 < (utf8_step (b :: l)).2)%nat.
Proof. simpl. repeat (destruct (_ : bool); simpl; try lia). Qed.

Lemma concat_chars_fuel fuel l :
  (length l ≤ fuel)%nat → concat (utf8_chunks_fuel fuel l).*2 = l.
Proof.
  revert l. induction fuel as [|fuel IH]; intros [|b l] Hf; simpl in Hf; try done; [lia|].
  pose proof (utf8_step_pos b l) as Hp.
  cbn [utf8_chunks_fuel]. destruct (utf8_step (b :: l)) as [ok n]. simpl in Hp.
  rewrite fmap_cons, concat_cons, IH; [apply take_drop|].
  rewrite length_drop. simpl. lia.
Qed.

(** Decoding loses nothing: the characters concatenate to the slice. *)
Lemma concat_chars l : concat (chars l) = l.
Proof. by apply concat_chars_fuel. Qed.

Lemma from_utf8_lossy_valid l : utf8_valid l = true → from_utf8_lossy l = bstr l.
Proof.
  unfold utf8_valid, from_utf8_lossy. intros Hv. f_equal.
  transitivity (concat (chars l)); [|apply concat_chars]. f_equal. unfold chars.
  revert Hv. induction (utf8_chunks l) as [|[ok c] k IH]; simpl; [done|].
  intros [Hok ?]%andb_true_iff. simpl in Hok. rewrite Hok. f_equal. auto.
Qed.

Lemma utf8_valid_ascii l : forallb (λ b, bz b <? 128) l = true → utf8_valid l = true.
Proof.
  unfold utf8_valid, utf8_chunks. remember (length l) as n eqn:Hn. revert l Hn.
  induction n as [|n IH]; intros [|b l] Hn; simpl in Hn; try done.
  cbn [forallb utf8_chunks_fuel]. intros [Hb Hl]%andb_true_iff.
  assert (Hs : utf8_step (b :: l) = (true, 1%nat)) by (unfold utf8_step; by rewrite Hb).
  rewrite Hs. simpl. rewrite drop_0. apply IH; [lia|done].
Qed.

(** ** Prefixes, suffixes, splitting *)

Fixpoint strip_prefix_b (p l : list byte) : option (list byte) :=
  match p, l with
  | [], _ => Some l
  | _, [] => None
  | a :: p, b :: l => if byte_eqb a b then strip_prefix_b p l else None
  end.
Definition strip_suffix_b (p l : list byte) : option (list byte) :=
  (λ r, rev r) <$> strip_prefix_b (rev p) (rev l).

Definition strip_prefix (p s : string) : option string := bstr <$> strip_prefix_b (sbytes p) (sbytes s).
Definition strip_suffix (p s : string) : option string := bstr <$> strip_suffix_b (sbytes p) (sbytes s).
Definition starts_with (p s : string) : bool :=
  match strip_prefix p s with Some _ => true | None => false end.
Definition ends_with (p s : string) : bool :=
  match strip_suffix p s with Some _ => true | None => false end.

Lemma strip_prefix_b_Some p l r : strip_prefix_b p l = Some r ↔ l = p ++ r.
Proof.
  revert l. induction p as [|a p IH]; intros [|b l]; simpl; try (split; congruence).
  destruct (byte_eqb a b) eqn:Hab.
  - apply byte_eqb_eq in Hab. subst b. rewrite IH. split; congruence.
  - split; [done|]. intros [= -> _]. by rewrite byte_eqb_refl in Hab.
Qed.

Lemma strip_prefix_Some p s r : strip_prefix p s = Some r ↔ s = p +:+ r.
Proof.
  unfold strip_prefix. rewrite fmap_Some. split.
  - intros (l & Hl%strip_prefix_b_Some & ->). apply sbytes_inj.
    by rewrite sbytes_app, sbytes_bstr.
  - intros ->. exists (sbytes r). rewrite bstr_sbytes. split; [|done].
    apply strip_prefix_b_Some, sbytes_app.
Qed.

(** [slice.split(|b| b == c)] and [str::split(c)] for an ASCII [c]: never empty. *)
Fixpoint split_b (c : byte) (l : list byte) : list (list byte) :=
  match l with
  | [] => [[]]
  | b :: l =>
      if byte_eqb b c then [] :: split_b c l
      else match split_b c l with
           | x :: r => (b :: x) :: r
           | [] => [[b]]
           end
  end.
(** [split_once(c)]. *)
Fixpoint split_once_b (c : byte) (l : list byte) : option (list byte * list byte) :=
  match l with
  | [] => None
  | b :: l =>
      if byte_eqb b c then Some ([], l)
      else match split_once_b c l with Some (x, y) => Some (b :: x, y) | None => None end
  end.
(** [rsplit_once(c)]. *)
Definition rsplit_once_b (c : byte) (l : list byte) : option (list byte * list byte) :=
  match split_once_b c (rev l) with Some (x, y) => Some (rev y, rev x) | None => None end.

Definition split_str (c : byte) (s : string) : list string := map bstr (split_b c (sbytes s)).
Definition split_once (c : byte) (s : string) : option (string * string) :=
  match split_once_b c (sbytes s) with Some (x, y) => Some (bstr x, bstr y) | None => None end.
Definition rsplit_once (c : byte) (s : string) : option (string * string) :=
  match rsplit_once_b c (sbytes s) with Some (x, y) => Some (bstr x, bstr y) | None => None end.

Lemma split_b_nonempty c l : split_b c l ≠ [].
Proof. destruct l as [|b l]; simpl; [done|]. case_if; [done|]. by destruct (split_b c l). Qed.

(** [split_once] stops at the first separator. *)
Lemma split_once_b_Some c l x y :
  split_once_b c l = Some (x, y) ↔ l = x ++ c :: y ∧ c ∉ x.
Proof.
  revert x y. induction l as [|b l IH]; intros x y; simpl.
  - split; [done|]. by intros [?%app_cons_not_nil _].
  - destruct (byte_eqb b c) eqn:Hb.
    + apply byte_eqb_eq in Hb. subst b. split.
      * intros [= <- <-]. split; [done|apply not_elem_of_nil].
      * intros [Heq Hc]. destruct x as [|b x]; simpl in Heq; [by injection Heq as ->|].
        injection Heq as -> ->. destruct Hc. by left.
    + assert (b ≠ c) by (intros ->; by rewrite byte_eqb_refl in Hb).
      destruct (split_once_b c l) as [[x' y']|] eqn:Hs.
      * destruct (IH x' y') as [Hfw _]. destruct (Hfw eq_refl) as [-> Hc']. split.
        -- intros [= <- <-]. split; [done|]. by intros [->|?]%elem_of_cons.
        -- intros [Heq Hc]. destruct x as [|b' x]; simpl in Heq; [by injection Heq|].
           injection Heq as -> Hl. apply not_elem_of_cons in Hc as [_ Hc].
           destruct (IH x y) as [_ Hbw]. specialize (Hbw (conj Hl Hc)). congruence.
      * split; [done|]. intros [Heq Hc]. destruct x as [|b' x]; simpl in Heq; [by injection Heq|].
        injection Heq as -> Hl. apply not_elem_of_cons in Hc as [_ Hc].
        destruct (IH x y) as [_ Hbw]. specialize (Hbw (conj Hl Hc)). congruence.
Qed.

Lemma split_once_b_None c l : split_once_b c l = None ↔ c ∉ l.
Proof.
  destruct (split_once_b c l) as [[x y]|] eqn:Hs.
  - apply split_once_b_Some in Hs as [-> _]. split; [done|]. intros Hc. destruct Hc.
    apply elem_of_app. right. by left.
  - split; [|done]. intros _ Hc. apply list_elem_of_split_l in Hc as (x & y & -> & ?).
    assert (split_once_b c (x ++ c :: y) = Some (x, y)) by (by apply split_once_b_Some).
    congruence.
Qed.

(** ** Whitespace, case *)

(** [char::is_whitespace] (Unicode White_Space). *)
Definition is_white_space (c : Z) : bool :=
  ((9 <=? c) && (c <=? 13)) || (c =? 32) || (c =? 133) || (c =? 160) || (c =? 5760)
  || ((8192 <=? c) && (c <=? 8202)) || (c =? 8232) || (c =? 8233) || (c =? 8239)
  || (c =? 8287) || (c =? 12288).

Fixpoint drop_ws (l : list (list byte)) : list (list byte) :=
  match l with
  | c :: l' => if is_white_space (code_point c) then drop_ws l' else l
  | [] => []
  end.

(** [str::trim_start], [str::trim_end], [str::trim]. *)
Definition trim_b (l : list byte) : list byte :=
  concat (rev (drop_ws (rev (drop_ws (chars l))))).
Definition trim (s : string) : string := bstr (trim_b (sbytes s)).

(** [str::split_whitespace]. *)
Fixpoint words (cur : list (list byte)) (l : list (list byte)) : list (list (list byte)) :=
  match l with
  | [] => match cur with [] => [] | _ => [rev cur] end
  | c :: l =>
      if is_white_space (code_point c)
      then match cur with [] => words [] l | _ => rev cur :: words [] l end
      else words (c :: cur) l
  end.
Definition split_whitespace_b (l : list byte) : list (list byte) := map (@concat byte) (words [] (chars l)).
Definition split_whitespace (s : string) : list string := map bstr (split_whitespace_b (sbytes s)).

(** [str::trim_start_matches(c)] and [trim_end_matches(c)] for an ASCII [c]. *)
Fixpoint trim_start_matches_b (c : byte) (l : list byte) : list byte :=
  match l with
  | b :: l' => if byte_eqb b c then trim_start_matches_b c l' else l
  | [] => []
  end.
Definition trim_end_matches_b (c : byte) (l : list byte) : list byte :=
  rev (trim_start_matches_b c (rev l)).
Definition trim_start_matches (c : byte) (s : string) : string :=
  bstr (trim_start_matches_b c (sbytes s)).

(** [to_ascii_lowercase], [eq_ignore_ascii_case]. *)
Definition lower_byte (b : byte) : byte := if byte_in 65 90 b then zb (bz b + 32) else b.
Definition upper_byte (b : byte) : byte := if byte_in 97 122 b then zb (bz b - 32) else b.
Definition to_ascii_lowercase (s : string) : string := bstr (map lower_byte (sbytes s)).
Definition to_ascii_uppercase (s : string) : string := bstr (map upper_byte (sbytes s)).
Definition eq_ignore_ascii_case (s t : string) : bool :=
  bool_decide (to_ascii_lowercase s = to_ascii_lowercase t).

Definition is_ascii_digit (b : byte) : bool := byte_in 48 57 b.

(** [str::lines]: split at LF, a final empty piece dropped, one CR stripped from each line. *)
Definition strip_cr (l : list byte) : list byte :=
  match strip_suffix_b [x0d] l with Some r => r | None => l end.
Definition lines_b (l : list byte) : list (list byte) :=
  (* only a line that was ended by LF loses its CR; the last piece without LF keeps it *)
  match rev (split_b x0a l) with
  | [] :: r => map strip_cr (rev r)
  | lst :: r => map strip_cr (rev r) ++ [lst]
  | [] => []
  end.
Definition lines (s : string) : list string := map bstr (lines_b (sbytes s)).

(** ** Numbers in text form *)

Definition digit_val (radix : Z) (b : byte) : option Z :=
  let z := bz b in
  let d := if (48 <=? z) && (z <=? 57) then z - 48
           else if (97 <=? z) && (z <=? 122) then z - 87
           else if (65 <=? z) && (z <=? 90) then z - 55 else radix in
  if d <? radix then Some d else None.

Fixpoint digits_val (radix acc : Z) (l : list byte) : option Z :=
  match l with
  | [] => Some acc
  | b :: l => match digit_val radix b with
              | Some d => digits_val radix (acc * radix + d) l
              | None => None
              end
  end.

(** [uN::from_str_radix] with [max] the type's maximum: a leading [+] is accepted, a lone sign
    and the empty string are not, an out-of-range value is an error. *)
Definition from_str_radix_unsigned (radix max : Z) (l : list byte) : option Z :=
  let ds := match l with x2b :: (_ :: _) as r => r | _ => l end in
  match ds with
  | [] => None
  | _ => match digits_val radix 0 ds with
         | Some v => if v <=? max then Some v else None
         | None => None
         end
  end.
Definition from_str_radix_signed (radix min max : Z) (l : list byte) : option Z :=
  match l with
  | x2d :: (_ :: _) as ds =>
      match digits_val radix 0 ds with
      | Some v => if min <=? - v then Some (- v) else None
      | None => None
      end
  | _ => from_str_radix_unsigned radix max l
  end.

Definition parse_u16 (s : string) : option Z := from_str_radix_unsigned 10 (U16 - 1) (sbytes s).
Definition parse_u32 (s : string) : option Z := from_str_radix_unsigned 10 (U32 - 1) (sbytes s).
Definition parse_u64 (s : string) : option Z := from_str_radix_unsigned 10 (U64 - 1) (sbytes s).
Definition parse_i64 (s : string) : option Z := from_str_radix_signed 10 (- I64) (I64 - 1) (sbytes s).

(** [format!("{:0wx}")] and [format!("{}")]. *)
Definition hex_digit (d : Z) : byte := zb (if d <? 10 then 48 + d else 87 + d).
Fixpoint hex_fixed (w : nat) (z : Z) : list byte :=
  match w with O => [] | S w => hex_fixed w (z / 16) ++ [hex_digit (z mod 16)] end.
Definition fmt_dec (z : Z) : string := pretty z.

(** [slice.join(sep)]. *)
Fixpoint join (sep : string) (l : list string) : string :=
  match l with
  | [] => ""
  | [x] => x
  | x :: l => x +:+ sep +:+ join sep l
  end.

Lemma digits_val_app radix acc l1 l2 :
  digits_val radix acc (l1 ++ l2) =
    match digits_val radix acc l1 with Some a => digits_val radix a l2 | None => None end.
Proof.
  revert acc. induction l1 as [|b l1 IH]; intros acc; simpl; [done|].
  destruct (digit_val radix b); auto.
Qed.

Lemma digit_val_hex_digit d : 0 <= d < 16 → digit_val 16 (hex_digit d) = Some d.
Proof.
  intros Hd. assert (d ∈ seqZ 0 16) as Hin by (apply elem_of_seqZ; lia).
  clear Hd. revert d Hin. apply Forall_forall. by repeat constructor.
Qed.

Lemma length_hex_fixed w z : length (hex_fixed w z) = w.
Proof. revert z. induction w; intros; simpl; [done|]. rewrite length_app, IHw. simpl. lia. Qed.

Lemma digits_val_hex_fixed w z acc :
  digits_val 16 acc (hex_fixed w z) = Some (acc * 16 ^ Z.of_nat w + z mod 16 ^ Z.of_nat w).
Proof.
  revert z acc. induction w as [|w IH]; intros z acc.
  - simpl. f_equal. rewrite Z.mod_1_r. lia.
  - cbn [hex_fixed]. rewrite digits_val_app, IH. cbn [digits_val].
    rewrite digit_val_hex_digit by (apply Z.mod_pos_bound; lia). f_equal.
    rewrite Nat2Z.inj_succ, Z.pow_succ_r by lia.
    rewrite (Z.rem_mul_r z 16) by (try apply Z.pow_pos_nonneg; lia). lia.
Qed.

Lemma hex_fixed_no_plus w z : x2b ∉ hex_fixed w z.
Proof.
  revert z. induction w as [|w IH]; intros z; simpl; [apply not_elem_of_nil|].
  rewrite elem_of_app, list_elem_of_singleton. intros [?|Heq]; [by eapply IH|].
  pose proof (digit_val_hex_digit (z mod 16) ltac:(apply Z.mod_pos_bound; lia)) as Hd.
  by rewrite <- Heq in Hd.
Qed.

(** ** Concatenation *)

Lemma utf8_step_app b l k n :
  utf8_step (b :: l) = (true, n) →
  utf8_step ((b :: l) ++ k) = (true, n) ∧ (n ≤ length (b :: l))%nat.
Proof.
  unfold utf8_step. cbn [app].
  destruct l as [|b1 [|b2 [|b3 l]]]; cbn [app length];
    repeat case_if; intros; simplify_eq; split; try done; lia.
Qed.

Lemma utf8_chunks_fuel_enough f1 f2 l :
  (length l ≤ f1)%nat → (length l ≤ f2)%nat → utf8_chunks_fuel f1 l = utf8_chunks_fuel f2 l.
Proof.
  revert f2 l. induction f1 as [|f1 IH]; intros f2 [|b l] H1 H2; cbn [length] in *; try lia;
    [by destruct f2..|].
  destruct f2 as [|f2]; [lia|]. cbn [utf8_chunks_fuel].
  pose proof (utf8_step_pos b l) as Hp. destruct (utf8_step (b :: l)) as [ok n]. simpl in Hp.
  f_equal. apply IH; rewrite length_drop; cbn [length]; lia.
Qed.

Lemma utf8_chunks_app l k :
  utf8_valid l = true → utf8_chunks (l ++ k) = utf8_chunks l ++ utf8_chunks k.
Proof.
  unfold utf8_valid, utf8_chunks. remember (length l) as f eqn:Hf.
  assert (Hle : (length l ≤ f)%nat) by lia. clear Hf. revert l Hle.
  induction f as [|f IH]; intros [|b l] Hf; cbn [length] in Hf; try lia; intros Hv; [done..|].
  cbn [utf8_chunks_fuel] in Hv |- *. rewrite length_app. cbn [length Nat.add utf8_chunks_fuel app].
  change (b :: l ++ k) with ((b :: l) ++ k).
  destruct (utf8_step (b :: l)) as [ok n] eqn:Hs. cbn [forallb fst] in Hv.
  apply andb_true_iff in Hv as [-> Hv]. pose proof (utf8_step_pos b l) as Hp. rewrite Hs in Hp.
  simpl in Hp. destruct (utf8_step_app _ _ k _ Hs) as [-> Hn].
  rewrite take_app_le, drop_app_le by done. cbn [app]. f_equal.
  assert (Hd : (length (drop n (b :: l)) ≤ f)%nat) by (rewrite length_drop; cbn [length]; lia).
  rewrite <- (IH _ Hd Hv). apply utf8_chunks_fuel_enough; [|done].
  rewrite !length_app, length_drop. cbn [length] in *. lia.
Qed.

Lemma utf8_valid_app l k :
  utf8_valid l = true → utf8_valid k = true → utf8_valid (l ++ k) = true.
Proof.
  intros Hl Hk. unfold utf8_valid. rewrite utf8_chunks_app, forallb_app by done.
  by apply andb_true_iff.
Qed.

Lemma split_b_none c l : c ∉ l → split_b c l = [l].
Proof.
  induction l as [|b l IH]; [done|]. intros [Hc Hl]%not_elem_of_cons. simpl.
  destruct (byte_eqb b c) eqn:Hb; [apply byte_eqb_eq in Hb; congruence|]. by rewrite IH.
Qed.

Lemma split_b_app c l k : c ∉ l → split_b c (l ++ c :: k) = l :: split_b c k.
Proof.
  induction l as [|b l IH]; simpl; [by rewrite byte_eqb_refl|].
  intros [Hc Hl]%not_elem_of_cons.
  destruct (byte_eqb b c) eqn:Hb; [apply byte_eqb_eq in Hb; congruence|]. by rewrite IH.
Qed.

(** The characters [hex_fixed] produces. *)
Definition is_hex_digit (b : byte) : bool := byte_in 48 57 b || byte_in 97 102 b.

Lemma hex_fixed_digits w z : Forall (λ b, is_hex_digit b = true) (hex_fixed w z).
Proof.
  revert z. induction w as [|w IH]; intros z; simpl; [constructor|].
  apply Forall_app. split; [done|]. repeat constructor.
  assert (Hin : z mod 16 ∈ seqZ 0 16) by (apply elem_of_seqZ; pose proof (Z.mod_pos_bound z 16); lia).
  revert Hin. generalize (z mod 16). apply Forall_forall. by repeat constructor.
Qed.

Lemma hex_fixed_ascii w z : utf8_valid (hex_fixed w z) = true.
Proof.
  apply utf8_valid_ascii, forallb_forall. intros b Hb%list_elem_of_In.
  pose proof (proj1 (Forall_forall _ _) (hex_fixed_digits w z) b Hb) as Hd. cbv beta in Hd.
  destruct b; (vm_compute in Hd |- *; congruence).
Qed.

(** ** Characters *)

(** The bytes of exactly one well-formed character. *)
Definition is_char (c : list byte) : Prop := c ≠ [] ∧ utf8_step c = (true, length c).

Lemma utf8_step_take b l n :
  utf8_step (b :: l) = (true, n) → is_char (take n (b :: l)) ∧ length (take n (b :: l)) = n.
Proof.
  unfold is_char, utf8_step. intros Hs.
  destruct l as [|b1 [|b2 [|b3 l]]];
    repeat match type of Hs with
    | context [if ?x then _ else _] => destruct x eqn:?
    end; simplify_eq; cbn [take length];
    repeat match goal with H : ?x = _ |- context [if ?x then _ else _] => rewrite H end; by auto.
Qed.

Lemma chars_fuel_valid f l :
  forallb fst (utf8_chunks_fuel f l) = true → Forall is_char (utf8_chunks_fuel f l).*2.
Proof.
  revert l. induction f as [|f IH]; intros [|b l]; cbn [utf8_chunks_fuel]; try (by constructor).
  destruct (utf8_step (b :: l)) as [ok n] eqn:Hs. cbn [forallb fst].
  intros [-> Hv]%andb_true_iff. rewrite fmap_cons. constructor; [|auto].
  by apply utf8_step_take.
Qed.

Lemma chars_valid l : utf8_valid l = true → Forall is_char (chars l).
Proof. apply chars_fuel_valid. Qed.

Lemma utf8_chunks_char c : is_char c → utf8_chunks c = [(true, c)].
Proof.
  intros [Hne Hs]. unfold utf8_chunks. destruct c as [|b c]; [done|].
  cbn [length utf8_chunks_fuel]. rewrite Hs, firstn_all, drop_all. by destruct (length c).
Qed.

Lemma utf8_valid_char c : is_char c → utf8_valid c = true.
Proof. intros Hc. unfold utf8_valid. by rewrite utf8_chunks_char. Qed.

Lemma lor_shiftl a b k :
  0 <= k → 0 <= b < 2 ^ k → Z.lor (Z.shiftl a k) b = a * 2 ^ k + b.
Proof.
  intros Hk Hb. rewrite <- Z.shiftl_mul_pow2 by done.
  assert (Z.land (Z.shiftl a k) b = 0) as Hd.
  { apply Z.bits_inj'. intros n Hn. rewrite Z.land_spec, Z.bits_0.
    destruct (decide (n < k)).
    - by rewrite Z.shiftl_spec_low.
    - destruct (decide (b = 0)) as [->|]; [by rewrite Z.bits_0, andb_false_r|].
      rewrite (Z.bits_above_log2 b n), andb_false_r; [done|lia|].
      apply Z.log2_lt_pow2; [lia|]. apply (Z.lt_le_trans _ (2 ^ k)); [lia|].
      apply Z.pow_le_mono_r; lia. }
  rewrite Z.add_nocarry_lxor by done. by rewrite Z.lxor_lor.
Qed.

(** An ASCII character is its own code point; the others are at or above 128, and start with a
    byte that is not ASCII. *)
Lemma code_point_char c :
  is_char c →
  (∃ b, c = [b] ∧ code_point c = bz b ∧ bz b < 128) ∨
  (∃ b r, c = b :: r ∧ 128 <= bz b ∧ 128 <= code_point c).
Proof.
  intros [Hne Hs]. unfold utf8_step in Hs.
  destruct c as [|b0 [|b1 [|b2 [|b3 [|b4 c]]]]]; [done|..]; cbn [length] in Hs.
  - left. exists b0. repeat (case_if_in Hs; simplify_eq). auto.
  - right. exists b0, [b1]. split; [done|].
    cbn [code_point map]. rewrite !(Z.land_ones _ 6), !(Z.land_ones _ 5) by lia.
    rewrite lor_shiftl by (try apply Z.mod_pos_bound; lia).
    change (2 ^ 6) with 64. change (2 ^ 5) with 32.
    pose proof (bz_range b0). pose proof (bz_range b1).
    repeat (case_if_in Hs; simplify_eq). Z.to_euclidean_division_equations. lia.
  - right. exists b0, [b1; b2]. split; [done|].
    cbn [code_point map]. rewrite !(Z.land_ones _ 6), !(Z.land_ones _ 4) by lia.
    rewrite (lor_shiftl _ _ 6) by (try apply Z.mod_pos_bound; lia).
    pose proof (Z.mod_pos_bound (bz b2) (2 ^ 6) eq_refl).
    pose proof (Z.mod_pos_bound (bz b1) (2 ^ 6) eq_refl).
    change (2 ^ 6) with 64 in *. change (2 ^ 4) with 16.
    rewrite lor_shiftl by lia. change (2 ^ 12) with 4096.
    unfold is_cont, byte_in in Hs.
    assert (2048 <= (bz b0 mod 16) * 4096 + (bz b1 mod 64) * 64); [|split; [|lia]];
      repeat (case_if_in Hs; simplify_eq); Z.to_euclidean_division_equations; lia.
  - right. exists b0, [b1; b2; b3]. split; [done|].
    cbn [code_point map]. rewrite !(Z.land_ones _ 6), !(Z.land_ones _ 3) by lia.
    rewrite (lor_shiftl _ _ 6) by (try apply Z.mod_pos_bound; lia).
    pose proof (Z.mod_pos_bound (bz b3) (2 ^ 6) eq_refl).
    pose proof (Z.mod_pos_bound (bz b2) (2 ^ 6) eq_refl).
    pose proof (Z.mod_pos_bound (bz b1) (2 ^ 6) eq_refl).
    change (2 ^ 6) with 64 in *. change (2 ^ 3) with 8.
    rewrite (lor_shiftl _ _ 12) by lia. change (2 ^ 12) with 4096 in *.
    rewrite lor_shiftl by lia. change (2 ^ 18) with 262144.
    unfold is_cont, byte_in in Hs.
    assert (65536 <= (bz b0 mod 8) * 262144 + (bz b1 mod 64) * 4096); [|split; [|lia]];
      repeat (case_if_in Hs; simplify_eq); Z.to_euclidean_division_equations; lia.
  - exfalso. repeat (case_if_in Hs; simplify_eq).
Qed.

Lemma is_char_bytes b r :
  is_char (b :: r) →
  is_cont b = false ∧ Forall (λ x, is_cont x = true) r ∧ (bz b < 128 → r = []).
Proof.
  intros [_ Hs]. unfold utf8_step, is_cont, byte_in in *. pose proof (bz_range b).
  assert (Hcont : ∀ x lo hi, 128 <= lo → hi <= 191 → (lo <=? bz x) && (bz x <=? hi) = true →
            (128 <=? bz x) && (bz x <=? 191) = true).
  { intros x lo hi ?? [??]%andb_true_iff. bool_props. apply andb_true_iff. rewrite !Z.leb_le. lia. }
  destruct r as [|b1 [|b2 [|b3 [|b4 r]]]]; cbn [length] in Hs;
    repeat match type of Hs with
    | context [if ?x then _ else _] => destruct x eqn:?
    end; simplify_eq;
    (split; [apply andb_false_iff; rewrite !Z.leb_gt; bool_props; lia|]);
    (split; [repeat (apply Forall_cons_2; [eapply Hcont; [| |eassumption]; lia|]); apply Forall_nil_2
            |intros; done || (exfalso; bool_props; lia)]).
Qed.

(** [str::is_char_boundary]. *)
Definition is_char_boundary (l : list byte) (i : nat) : Prop :=
  i = length l ∨ ∃ c, l !! i = Some c ∧ is_cont c = false.

Lemma concat_head_boundary cs :
  Forall is_char cs → is_char_boundary (concat cs) 0.
Proof.
  destruct 1 as [|c cs Hc _]; [by left|]. right. pose proof Hc as [Hne _].
  destruct c as [|b r]; [done|]. exists b. split; [done|]. by apply is_char_bytes in Hc as [? _].
Qed.

Lemma is_char_boundary_app l k i :
  is_char_boundary k i → is_char_boundary (l ++ k) (length l + i).
Proof.
  intros [->|(c & Hk & Hc)]; [left; by rewrite length_app|right].
  exists c. split; [|done]. rewrite lookup_app_r by lia. rewrite <- Hk. f_equal. lia.
Qed.

(** In well-formed UTF-8 the byte after an ASCII byte starts a character. *)
Lemma ascii_boundary l i c :
  utf8_valid l = true → l !! i = Some c → bz c < 128 → is_char_boundary l (i + 1).
Proof.
  intros Hv. rewrite <- (concat_chars l). pose proof (chars_valid l Hv) as Hcs. clear Hv. revert i.
  induction Hcs as [|ch cs Hch Hcs IH]; intros i Hl Hc; [done|]. cbn [concat] in *.
  destruct (decide (i < length ch)%nat) as [Hi|Hi].
  - rewrite lookup_app_l in Hl by done. pose proof Hch as [Hne _].
    destruct ch as [|b r]; [done|]. apply is_char_bytes in Hch as (_ & Hr & H1).
    destruct i as [|i]; simpl in Hl.
    + injection Hl as ->. rewrite H1 by done.
      apply (is_char_boundary_app [c] (concat cs) 0), concat_head_boundary, Hcs.
    + exfalso. assert (Hcr : is_cont c = true) by exact (proj1 (Forall_lookup _ _) Hr _ _ Hl).
      unfold is_cont, byte_in in Hcr. apply andb_true_iff in Hcr as []. bool_props. lia.
  - rewrite lookup_app_r in Hl by lia.
    specialize (IH _ Hl Hc). replace (i + 1)%nat with (length ch + (i - length ch + 1))%nat by lia.
    by apply is_char_boundary_app.
Qed.

Lemma chars_app l k : utf8_valid l = true → chars (l ++ k) = chars l ++ chars k.
Proof. intros Hl. unfold chars. by rewrite utf8_chunks_app, fmap_app. Qed.

Lemma chars_concat cs : Forall is_char cs → chars (concat cs) = cs.
Proof.
  induction 1 as [|c cs Hc Hcs IH]; [done|]. cbn [concat].
  rewrite chars_app by (by apply utf8_valid_char). unfold chars at 1.
  rewrite utf8_chunks_char by done. by rewrite IH.
Qed.

Lemma utf8_valid_concat cs : Forall is_char cs → utf8_valid (concat cs) = true.
Proof. induction 1; [done|]. by apply utf8_valid_app; [apply utf8_valid_char|]. Qed.

Lemma is_char_ascii b : bz b < 128 → is_char [b].
Proof. intros Hb. split; [done|]. unfold utf8_step. by rewrite (proj2 (Z.ltb_lt _ _) Hb). Qed.

(** A text that starts and ends with ASCII bytes that are not white space is its own [trim]. *)
Lemma trim_b_id a l z :
  utf8_valid l = true → bz a < 128 → is_white_space (bz a) = false →
  bz z < 128 → is_white_space (bz z) = false → trim_b (a :: l ++ [z]) = a :: l ++ [z].
Proof.
  intros Hl Ha Hwa Hz Hwz. unfold trim_b.
  assert (Hc : chars (a :: l ++ [z]) = [a] :: chars l ++ [[z]]).
  { change (a :: l ++ [z]) with ([a] ++ l ++ [z]).
    rewrite chars_app by (by apply utf8_valid_char, is_char_ascii). rewrite chars_app by done.
    unfold chars at 1 3. by rewrite !utf8_chunks_char by (by apply is_char_ascii). }
  rewrite Hc. cbn [drop_ws code_point map]. rewrite Hwa.
  change ([a] :: chars l ++ [[z]]) with (([a] :: chars l) ++ [[z]]).
  rewrite rev_app_distr. cbn [rev app drop_ws code_point map]. rewrite Hwz.
  change ([z] :: rev (chars l) ++ [[a]]) with ([[z]] ++ rev ([a] :: chars l)).
  rewrite rev_app_distr, rev_involutive. cbn [rev app].
  cbn [concat]. rewrite concat_app. cbn [concat app]. by rewrite concat_chars.
Qed.

(** [str::contains] and [slice.windows(n).any(..)]. *)
Fixpoint contains_b (p l : list byte) : bool :=
  match strip_prefix_b p l with
  | Some _ => true
  | None => match l with [] => false | _ :: l => contains_b p l end
  end.
Definition contains (p s : string) : bool := contains_b (sbytes p) (sbytes s).

(** ** Decimal numbers *)

Lemma pretty_N_go_digits x s :
  ∃ ds, sbytes (pretty.pretty_N_go x s) = ds ++ sbytes s ∧
    Forall (λ b, is_ascii_digit b = true) ds ∧ (x ≠ 0%N → ds ≠ []) ∧
    ∀ acc, digits_val 10 acc ds = Some (acc * 10 ^ Z.of_nat (length ds) + Z.of_N x).
Proof.
  revert s. induction (N.lt_wf_0 x) as [x _ IH]. intros s.
  destruct (decide (x = 0)%N) as [->|Hx].
  { exists []. rewrite pretty.pretty_N_go_0. split_and!; [done..|]. intros acc. simpl. f_equal. lia. }
  rewrite pretty.pretty_N_go_step by lia.
  destruct (IH (x `div` 10)%N ltac:(apply N.div_lt; lia)
              (String (pretty.pretty_N_char (x `mod` 10)) s)) as (ds & Hs & Hd & _ & Hv).
  set (c := pretty.pretty_N_char (x `mod` 10)) in *.
  assert (Hc : digit_val 10 (Ascii.byte_of_ascii c) = Some (Z.of_N (x `mod` 10)) ∧
               is_ascii_digit (Ascii.byte_of_ascii c) = true).
  { unfold c. pose proof (N.mod_lt x 10 ltac:(done)).
    revert H. generalize (x `mod` 10)%N. intros m Hm.
    assert (m = 0 ∨ m = 1 ∨ m = 2 ∨ m = 3 ∨ m = 4 ∨ m = 5 ∨ m = 6 ∨ m = 7 ∨ m = 8 ∨ m = 9)%N as Hc by lia.
    repeat (destruct Hc as [->|Hc]; [done|]). by subst m. }
  destruct Hc as [Hc1 Hc2]. exists (ds ++ [Ascii.byte_of_ascii c]). split_and!.
  - rewrite Hs. rewrite <- app_assoc. done.
  - apply Forall_app; auto.
  - intros _. by destruct ds.
  - intros acc. rewrite digits_val_app, Hv. cbn [digits_val]. rewrite Hc1. f_equal.
    rewrite length_app, Nat2Z.inj_add. cbn [length]. rewrite Z.pow_add_r by lia.
    pose proof (N.div_mod x 10 ltac:(done)) as Hdm. rewrite Hdm at 3.
    rewrite N2Z.inj_add, N2Z.inj_mul. lia.
Qed.

Lemma fmt_dec_digits n :
  0 <= n → sbytes (fmt_dec n) ≠ [] ∧ Forall (λ b, is_ascii_digit b = true) (sbytes (fmt_dec n)) ∧
    digits_val 10 0 (sbytes (fmt_dec n)) = Some n.
Proof.
  intros Hn. unfold fmt_dec. destruct n as [|p|p]; [by split_and!; [|repeat constructor|]| |lia].
  change (pretty (Z.pos p)) with (pretty.pretty_N_go (N.pos p) "").
  destruct (pretty_N_go_digits (N.pos p) "") as (ds & -> & Hd & Hne & Hv).
  rewrite app_nil_r. split_and!; [auto|done|]. rewrite Hv. f_equal; lia.
Qed.

(** [n.to_string().parse()]. *)
Lemma parse_fmt_dec max n :
  0 <= n <= max → from_str_radix_unsigned 10 max (sbytes (fmt_dec n)) = Some n.
Proof.
  intros Hn. destruct (fmt_dec_digits n) as (Hne & Hd & Hv); [lia|].
  unfold from_str_radix_unsigned. destruct (sbytes (fmt_dec n)) as [|b l]; [done|].
  assert (Hb : is_ascii_digit b = true) by (by inversion Hd).
  replace (match b :: l with x2b :: (_ :: _) as r => r | _ => b :: l end) with (b :: l).
  - rewrite Hv. rewrite (proj2 (Z.leb_le n max)) by lia. done.
  - by destruct b.
Qed.
