(* ===== verification/BTree.v ===== *)
(** * Ordered maps: [std::collections::BTreeMap] with integer keys

    The maps of [party-shim/src/reliable.rs] are [BTreeMap<u32, _>] and the code
    relies on their order ([keys().next()], [iter().next_back()], [iter_mut()]),
    so they are association lists kept strictly sorted by key.  The operations
    are the ones the source calls; the lemmas are the library's contract. *)

From S2P Require Import Prelude.
#[local] Open Scope Z_scope.

Create HintDb btree discriminated.

Abbreviation bmap V := (list (Z * V)).

Section btree.
Context {V : Type}.
Implicit Types (m : bmap V) (k j : Z) (v : V).

Fixpoint bm_lookup k m : option V :=
  match m with
  | [] => None
  | (k', v) :: m' => if k =? k' then Some v else bm_lookup k m'
  end.

Fixpoint bm_insert k v m : bmap V :=
  match m with
  | [] => [(k, v)]
  | (k', v') :: m' =>
      if k <? k' then (k, v) :: m
      else if k =? k' then (k, v) :: m'
      else (k', v') :: bm_insert k v m'
  end.

Definition bm_remove k m : bmap V := filter (λ p, p.1 ≠ k) m.
Definition bm_contains k m : bool := match bm_lookup k m with Some _ => true | None => false end.
Definition bm_first m : option (Z * V) := head m.
Definition bm_last m : option (Z * V) := last m.

(** Keys strictly ascending: what [BTreeMap] maintains. *)
Definition bm_sorted m : Prop := StronglySorted Z.lt (m.*1).

Lemma bm_sorted_nil : bm_sorted [].
Proof. constructor. Qed.

Lemma bm_sorted_cons p m :
  bm_sorted (p :: m) ↔ Forall (λ q, p.1 < q.1) m ∧ bm_sorted m.
Proof.
  unfold bm_sorted. rewrite fmap_cons. split.
  - intros H; apply StronglySorted_inv in H as [? Hf]. split; [|done]. exact (proj1 (Forall_fmap _ _ _) Hf).
  - intros [Hf ?]. constructor; [done|]. exact (proj2 (Forall_fmap _ _ _) Hf).
Qed.

Lemma bm_lookup_elem k v m : bm_lookup k m = Some v → (k, v) ∈ m.
Proof.
  induction m as [|[k' v'] m IH]; simpl; [done|]. case_if; intros.
  - simplify_eq. left.
  - right. auto.
Qed.

Lemma bm_lookup_None k m : bm_lookup k m = None ↔ k ∉ m.*1.
Proof.
  induction m as [|[k' v'] m IH]; simpl; [split; [intros _; apply not_elem_of_nil|done]|].
  rewrite not_elem_of_cons. case_if; [subst; split; [done|by intros []]|rewrite IH; tauto].
Qed.

Lemma bm_elem_lookup k v m : bm_sorted m → (k, v) ∈ m → bm_lookup k m = Some v.
Proof.
  induction m as [|[k' v'] m IH]; [by intros _ ?%elem_of_nil|]. rewrite bm_sorted_cons; simpl.
  intros [Hlt Hs] [[= -> ->]|Hin]%elem_of_cons.
  - by rewrite Z.eqb_refl.
  - rewrite Forall_forall in Hlt. specialize (Hlt _ Hin); simpl in Hlt.
    case_if; [lia|auto].
Qed.

Lemma bm_lookup_insert k v m : bm_lookup k (bm_insert k v m) = Some v.
Proof.
  induction m as [|[k' v'] m IH]; simpl; [by rewrite Z.eqb_refl|].
  repeat case_if; simpl; rewrite ?Z.eqb_refl; try done.
  rewrite IH. by case_if.
Qed.

Lemma bm_lookup_insert_ne k j v m : j ≠ k → bm_lookup j (bm_insert k v m) = bm_lookup j m.
Proof.
  intros Hne. induction m as [|[k' v'] m IH]; simpl; [by case_if|].
  destruct (k <? k') eqn:?; simpl; [case_if; [lia|done]|].
  destruct (k =? k') eqn:?; bool_props; simpl; repeat case_if; try lia; auto.
Qed.

Lemma bm_lookup_remove k m : bm_lookup k (bm_remove k m) = None.
Proof.
  apply bm_lookup_None. rewrite list_elem_of_fmap. intros ([??] & -> & Hin).
  unfold bm_remove in Hin. apply list_elem_of_filter in Hin. by destruct Hin.
Qed.

Lemma bm_lookup_remove_ne k j m : j ≠ k → bm_lookup j (bm_remove k m) = bm_lookup j m.
Proof.
  intros Hne. induction m as [|[k' v'] m IH]; [done|]. unfold bm_remove in *.
  rewrite filter_cons. case_decide as Hd; simpl in *; [by rewrite IH|].
  case_if; [lia|done].
Qed.

Lemma bm_elem_insert q k v m :
  bm_sorted m → q ∈ bm_insert k v m ↔ q = (k, v) ∨ (q ∈ m ∧ q.1 ≠ k).
Proof.
  induction m as [|[k' v'] m IH]; simpl.
  { intros _. rewrite list_elem_of_singleton. split; [by left|]. by intros [?|[?%elem_of_nil _]]. }
  rewrite bm_sorted_cons; intros [Hlt Hs]; simpl in Hlt. rewrite Forall_forall in Hlt.
  repeat case_if; rewrite ?elem_of_cons, ?IH by done; try subst k'.
  - split; [|tauto]. intros [?|[->|Hin]]; [by left|right; simpl; split; [by left|lia]|].
    specialize (Hlt _ Hin). right. split; [by right|lia].
  - split; [|intros [?|[[->|?] ?]]; simpl in *; tauto].
    intros [?|Hin]; [by left|]. specialize (Hlt _ Hin). right. split; [by right|lia].
  - split; [|tauto]. intros [->|[?|[? ?]]]; simpl; [right; split; [by left|lia]|tauto|tauto].
Qed.

Lemma bm_elem_remove q k m : q ∈ bm_remove k m ↔ q ∈ m ∧ q.1 ≠ k.
Proof. unfold bm_remove. rewrite list_elem_of_filter. tauto. Qed.

Lemma bm_sorted_insert k v m : bm_sorted m → bm_sorted (bm_insert k v m).
Proof.
  induction m as [|[k' v'] m IH]; simpl; intros Hs0.
  - rewrite bm_sorted_cons. split; [constructor|apply bm_sorted_nil].
  - pose proof Hs0 as [Hlt Hs]%bm_sorted_cons; simpl in *.
    rewrite Forall_forall in Hlt. repeat case_if; rewrite bm_sorted_cons; simpl.
    + split; [|done]. constructor; [done|]. apply Forall_forall.
      intros q Hq. specialize (Hlt _ Hq). lia.
    + subst k'. by split; [apply Forall_forall|].
    + split; [|auto]. apply Forall_forall. intros q [->|[Hq _]]%bm_elem_insert; [|auto|done].
      simpl. lia.
Qed.

Lemma bm_sorted_remove k m : bm_sorted m → bm_sorted (bm_remove k m).
Proof.
  induction m as [|p m IH]; [done|]. rewrite bm_sorted_cons. intros [Hlt Hs].
  unfold bm_remove in *. rewrite filter_cons. case_decide; [|auto].
  rewrite bm_sorted_cons. split; [|auto]. rewrite Forall_forall in *.
  intros q [_ Hq]%list_elem_of_filter. auto.
Qed.

Lemma bm_length_insert_le k v m : (length (bm_insert k v m) ≤ S (length m))%nat.
Proof. induction m as [|[k' v'] m IH]; simpl; [lia|]. repeat case_if; simpl; lia. Qed.

Lemma bm_length_remove_le k m : (length (bm_remove k m) ≤ length m)%nat.
Proof. apply length_filter_le. Qed.

Lemma bm_length_remove_lt k m :
  bm_contains k m = true → (length (bm_remove k m) < length m)%nat.
Proof.
  unfold bm_contains, bm_remove. induction m as [|[k' v'] m IH]; simpl; [done|].
  rewrite filter_cons. simpl. intros H. case_decide as Hd; simpl.
  - case_if_in H; [lia|]. specialize (IH H). lia.
  - pose proof (length_filter_le (λ p : Z * V, p.1 ≠ k) m). lia.
Qed.

Lemma bm_remove_first p m : bm_sorted (p :: m) → bm_remove p.1 (p :: m) = m.
Proof.
  rewrite bm_sorted_cons. intros [Hlt _]. unfold bm_remove.
  rewrite filter_cons, decide_False by tauto. induction m as [|q m IH]; [done|]. apply Forall_cons in Hlt as [??].
  rewrite filter_cons, decide_True by lia. by rewrite IH.
Qed.

Lemma bm_remove_head k v m : bm_sorted ((k, v) :: m) → bm_remove k ((k, v) :: m) = m.
Proof. exact (bm_remove_first (k, v) m). Qed.

Lemma bm_last_elem p m : bm_last m = Some p → p ∈ m.
Proof. unfold bm_last. intros (l & ->)%last_Some. apply elem_of_app. right. by left. Qed.

Lemma bm_last_max p m q : bm_sorted m → bm_last m = Some p → q ∈ m → q.1 ≤ p.1.
Proof.
  unfold bm_last. intros Hs (l & ->)%last_Some Hq. revert Hs Hq.
  induction l as [|r l IH]; simpl; [rewrite list_elem_of_singleton; intros _ ->; lia|].
  rewrite bm_sorted_cons. intros [Hlt Hs] [->|Hq]%elem_of_cons; [|auto].
  rewrite Forall_forall in Hlt. specialize (Hlt p). rewrite elem_of_app, list_elem_of_singleton in Hlt. specialize (Hlt (or_intror eq_refl)). lia.
Qed.

Lemma bm_contains_true k m : bm_contains k m = true ↔ k ∈ m.*1.
Proof.
  unfold bm_contains. pose proof (bm_lookup_None k m).
  destruct (bm_lookup k m) as [v|] eqn:Hk; [|split; [done|tauto]].
  split; [intros _|done]. apply bm_lookup_elem in Hk. apply list_elem_of_fmap. by exists (k, v).
Qed.
End btree.

#[export] Hint Resolve bm_sorted_nil bm_sorted_insert bm_sorted_remove : btree.

#[global] Arguments bm_remove : simpl never.
