(* ===== verification/Reliable.v ===== *)
(** * Reliable delivery: [party-shim/src/reliable.rs]

    The sender keeps the guaranteed messages not yet acknowledged in an ordered
    map and retransmits them with a doubling timeout; the receiver re-orders and
    de-duplicates guaranteed messages and produces cumulative acknowledgements.
    Every [&mut self] method is a function returning the new state; sequence
    numbers and option words are [u32] values, times are [u64] milliseconds. *)

From S2P Require Import Prelude RustStr BTree.
#[local] Open Scope Z_scope.
#[local] Open Scope rust_scope.

(** ** Constants and option bits *)

Definition PARTY_RELIABLE : bool := true.

Definition SEND_GUARANTEED : Z := 1.
Definition SEND_SEQUENTIAL : Z := 2.
Definition SEND_DONT_COPY_DATA_BUFFERS : Z := 4.
Definition SEND_ALWAYS_COALESCE_UNTIL_FLUSHED : Z := 8.
Definition SEND_ALLOW_LAZY_ACKNOWLEDGEMENT : Z := 16.

Definition RTO_FIRST_MS : Z := 60.
Definition RTO_MAX_MS : Z := 500.
Definition MAX_RETRIES : Z := 8.
Definition PENDING_CAP : Z := 4096.
Definition OOO_CAP : Z := 256.
Definition ACK_DELAY_MS : Z := 30.

Definition has_bit (options bit : Z) : bool := negb (Z.land options bit =? 0).

Definition guaranteed (options : Z) : bool := has_bit options SEND_GUARANTEED.
Definition sequential (options : Z) : bool := has_bit options SEND_SEQUENTIAL.

(** [(a.wrapping_sub(b) as i32) > 0]. *)
Definition seq_after (a b : Z) : bool := 0 <? as_i32 (a -w b).
Definition seq_le (a b : Z) : bool := negb (seq_after a b).

Definition mode_index (options : Z) : Z :=
  match guaranteed options, sequential options with
  | true, true => 0
  | true, false => 1
  | false, true => 2
  | false, false => 3
  end.

(** Indexing out of the array panics: [None]. *)
Definition mode_name (mode : Z) : option string :=
  ["guar-seq"; "guar-nonseq"; "best-seq"; "best-nonseq"]%string !! Z.to_nat mode.

Definition decode_options (options : Z) : string :=
  let bits : list string :=
    [if guaranteed options then "GuaranteedDelivery(0x1)" else "BestEffortDelivery(0x0)";
     if sequential options then "SequentialDelivery(0x2)" else "NonsequentialDelivery(0x0)"]%string
    ++ (if has_bit options SEND_DONT_COPY_DATA_BUFFERS
        then ["DontCopyDataBuffers(0x4)"%string] else [])
    ++ (if has_bit options SEND_ALWAYS_COALESCE_UNTIL_FLUSHED
        then ["AlwaysCoalesceUntilFlushed(0x8)"%string] else [])
    ++ [if has_bit options SEND_ALLOW_LAZY_ACKNOWLEDGEMENT
        then "AllowLazyAcknowledgement(0x10)"
        else "RequireTimelyAcknowledgement(0x0 default; ignored unless 0x1 is set)"]%string in
  ("0x" +:+ bstr (hex_fixed 8 options) +:+ " [" +:+ join "|" bits +:+ "]")%string.

(** ** Sender *)

Record Pending := mkPending {
  p_payload : list byte;
  p_options : Z;
  p_first_sent_ms : Z;
  p_last_sent_ms : Z;
  p_retries : Z;
  p_rto_ms : Z;
  p_gave_up : bool;
}.

Record Outgoing := mkOutgoing {
  o_seq : Z;
  o_payload : list byte;
  o_options : Z;
  o_evicted : option (Z * Z);
}.

Record Retransmit := mkRetransmit {
  r_seq : Z;
  r_payload : list byte;
  r_options : Z;
  r_retries : Z;
  r_first : bool;
  r_gave_up : bool;
}.

Record Sender := mkSender {
  next_gseq : Z;
  next_bseq : Z;
  pending : bmap Pending;
}.

Definition Sender_new : Sender := mkSender 1 1 [].

Definition fresh_pending (payload : list byte) (options now_ms : Z) : Pending :=
  mkPending payload options now_ms now_ms 0 RTO_FIRST_MS false.

(** The eviction of [Sender::send]: the lowest sequence goes when the map is full. *)
Definition send_evict (m : bmap Pending) : option (Z * Z) * bmap Pending :=
  if PENDING_CAP <=? Z.of_nat (length m)
  then match bm_first m with
       | Some (k, v) => (Some (k, p_options v), bm_remove k m)
       | None => (None, m)
       end
  else (None, m).

Definition send (s : Sender) (payload : list byte) (options now_ms : Z) : Outgoing * Sender :=
  if negb PARTY_RELIABLE then (mkOutgoing 0 payload options None, s)
  else if guaranteed options then
    let seq := next_gseq s in
    let '(evicted, m) := send_evict (pending s) in
    (mkOutgoing seq payload options evicted,
     mkSender (next_gseq s +w 1) (next_bseq s)
       (bm_insert seq (fresh_pending payload options now_ms) m))
  else if sequential options then
    (mkOutgoing (next_bseq s) payload options None,
     mkSender (next_gseq s) (next_bseq s +w 1) (pending s))
  else (mkOutgoing 0 payload options None, s).

(** [while let Some(k) = first key { if !seq_le(k, ack) break; remove }]. *)
Fixpoint on_ack_loop (fuel : nat) (m : bmap Pending) (ack : Z) (cleared : list (Z * Z))
    : list (Z * Z) * bmap Pending :=
  match fuel with
  | O => (cleared, m)
  | S fuel =>
      match bm_first m with
      | None => (cleared, m)
      | Some (k, _) =>
          if negb (seq_le k ack) then (cleared, m)
          else match bm_lookup k m with
               | Some p => on_ack_loop fuel (bm_remove k m) ack (cleared ++ [(k, p_options p)])
               | None => (cleared, m)
               end
      end
  end.

Definition on_ack (s : Sender) (ack : Z) : list (Z * Z) * Sender :=
  let '(cleared, m) := on_ack_loop (length (pending s)) (pending s) ack [] in
  (cleared, mkSender (next_gseq s) (next_bseq s) m).

Definition min_list (l : list Z) : option Z :=
  match l with [] => None | x :: l => Some (fold_left Z.min l x) end.

Definition deadline (p : Pending) : Z := saturating_add64 (p_last_sent_ms p) (p_rto_ms p).

Definition next_rto_ms (s : Sender) : option Z :=
  min_list (map deadline (filter (λ p, p_gave_up p = false) (pending s).*2)).

(** One iteration of the loop of [Sender::due]: the entry after it, and the event it pushes. *)
Definition due_step (now_ms seq : Z) (p : Pending) : Pending * option Retransmit :=
  if p_gave_up p then (p, None)
  else if saturating_sub now_ms (p_last_sent_ms p) <? p_rto_ms p then (p, None)
  else if MAX_RETRIES <=? p_retries p then
    (mkPending (p_payload p) (p_options p) (p_first_sent_ms p) (p_last_sent_ms p)
       (p_retries p) (p_rto_ms p) true,
     Some (mkRetransmit seq [] (p_options p) (p_retries p) false true))
  else
    (mkPending (p_payload p) (p_options p) (p_first_sent_ms p) now_ms
       (p_retries p + 1) (Z.min (saturating_mul64 (p_rto_ms p) 2) RTO_MAX_MS) false,
     Some (mkRetransmit seq (p_payload p) (p_options p) (p_retries p + 1)
             (p_retries p + 1 =? 1) false)).

Fixpoint due_loop (now_ms : Z) (m : bmap Pending) : bmap Pending * list Retransmit :=
  match m with
  | [] => ([], [])
  | (seq, p) :: m =>
      let '(p', ev) := due_step now_ms seq p in
      let '(m', evs) := due_loop now_ms m in
      ((seq, p') :: m', match ev with Some e => e :: evs | None => evs end)
  end.

Definition due (s : Sender) (now_ms : Z) : list Retransmit * Sender :=
  if negb PARTY_RELIABLE then ([], s)
  else let '(m, evs) := due_loop now_ms (pending s) in
       (evs, mkSender (next_gseq s) (next_bseq s) m).

Definition drop_all (s : Sender) : nat * Sender := (length (pending s), mkSender 1 1 []).

(** ** Receiver *)

Record RecvMsg := mkRecvMsg { m_payload : list byte; m_options : Z }.

Inductive RecvOutcome :=
  | Delivered (msgs : list RecvMsg)
  | Queued (seq expected : Z)
  | DroppedDuplicate
  | DroppedOutOfOrder (seq high : Z).

Record Receiver := mkReceiver {
  g_next : Z;
  g_buf : bmap (Z * list byte);
  be_last : Z;
  be_seen : bool;
  ack_due_at : option Z;
  last_evicted : option Z;
}.

Definition Receiver_new : Receiver := mkReceiver 1 [] 0 false None None.

Definition ack_value (r : Receiver) : Z := g_next r -w 1.
Definition buffered_len (r : Receiver) : nat := length (g_buf r).

(** The drain loop: [while let Some((opts, p)) = g_buf.remove(&g_next)]. *)
Fixpoint drain (fuel : nat) (next : Z) (buf : bmap (Z * list byte)) (out : list RecvMsg)
    : Z * bmap (Z * list byte) * list RecvMsg :=
  match fuel with
  | O => (next, buf, out)
  | S fuel =>
      match bm_lookup next buf with
      | None => (next, buf, out)
      | Some (opts, p) =>
          drain fuel (next +w 1) (bm_remove next buf)
            (match p with [] => out | _ => out ++ [mkRecvMsg p opts] end)
      end
  end.

(** The bounded buffer: the highest key goes when it is full. *)
Definition ooo_evict (buf : bmap (Z * list byte)) (prev : option Z)
    : option Z * bmap (Z * list byte) :=
  if OOO_CAP <=? Z.of_nat (length buf)
  then match bm_last buf with
       | Some (k, _) => (Some k, bm_remove k buf)
       | None => (prev, buf)
       end
  else (prev, buf).

Definition on_guaranteed (r : Receiver) (seq options : Z) (payload : list byte) (now_ms : Z)
    : RecvOutcome * Receiver :=
  let ack_due :=
    if Z.land options SEND_ALLOW_LAZY_ACKNOWLEDGEMENT =? 0
    then match ack_due_at r with Some t => Some t | None => Some now_ms end
    else ack_due_at r in
  let upd next buf ev := mkReceiver next buf (be_last r) (be_seen r) ack_due ev in
  if seq_le seq (g_next r -w 1) || bm_contains seq (g_buf r)
  then (DroppedDuplicate, upd (g_next r) (g_buf r) None)
  else if sequential options then
    if seq =? g_next r then
      let out := match payload with [] => [] | _ => [mkRecvMsg payload options] end in
      let '(next, buf, out) := drain (length (g_buf r)) (g_next r +w 1) (g_buf r) out in
      (Delivered out, upd next buf None)
    else
      let '(ev, buf) := ooo_evict (g_buf r) None in
      (Queued seq (g_next r), upd (g_next r) (bm_insert seq (options, payload) buf) ev)
  else
    let '(ev, buf) := ooo_evict (g_buf r) None in
    let buf := bm_insert seq (options, []) buf in
    let '(next, buf, out) := drain (length buf) (g_next r) buf [mkRecvMsg payload options] in
    (Delivered out, upd next buf ev).

Definition on_message (r : Receiver) (seq options : Z) (payload : list byte) (now_ms : Z)
    : RecvOutcome * Receiver :=
  let r := mkReceiver (g_next r) (g_buf r) (be_last r) (be_seen r) (ack_due_at r) None in
  if negb PARTY_RELIABLE || (seq =? 0) then (Delivered [mkRecvMsg payload options], r)
  else if guaranteed options then on_guaranteed r seq options payload now_ms
  else if sequential options then
    if be_seen r && negb (seq_after seq (be_last r))
    then (DroppedOutOfOrder seq (be_last r), r)
    else (Delivered [mkRecvMsg payload options],
          mkReceiver (g_next r) (g_buf r) seq true (ack_due_at r) (last_evicted r))
  else (Delivered [mkRecvMsg payload options], r).

Definition clear_ack (r : Receiver) : Receiver :=
  mkReceiver (g_next r) (g_buf r) (be_last r) (be_seen r) None (last_evicted r).

Definition piggyback_ack (r : Receiver) : Z * Receiver := (ack_value r, clear_ack r).

Definition next_ack_due_ms (r : Receiver) : option Z :=
  (λ t, saturating_add64 t ACK_DELAY_MS) <$> ack_due_at r.

Definition forced_ack (r : Receiver) (now_ms : Z) : option Z * Receiver :=
  match ack_due_at r with
  | Some t =>
      if ACK_DELAY_MS <=? saturating_sub now_ms t
      then (Some (ack_value r), clear_ack r)
      else (None, r)
  | None => (None, r)
  end.

(** ** Sequence arithmetic *)

(** Two sequence numbers less than half the space apart compare as integers. *)
Lemma seq_after_near a b :
  is_u32 a → is_u32 b → Z.abs (a - b) < I32 → seq_after a b = (b <? a).
Proof.
  intros Ha Hb Hd. unfold seq_after. apply eq_true_iff_eq.
  rewrite !Z.ltb_lt. unfold as_i32, wrapping_sub32. unfold_widths.
  destruct (_ <? _) eqn:Hc; bool_props; Z.to_euclidean_division_equations; lia.
Qed.

Lemma seq_le_near a b :
  is_u32 a → is_u32 b → Z.abs (a - b) < I32 → seq_le a b = (a <=? b).
Proof.
  intros. unfold seq_le. rewrite seq_after_near by done.
  apply eq_true_iff_eq. rewrite negb_true_iff, Z.ltb_ge, Z.leb_le. done.
Qed.

Lemma seq_after_asym a b : seq_after a b = true → seq_after b a = true → False.
Proof.
  unfold seq_after, as_i32, wrapping_sub32. rewrite !Z.ltb_lt. unfold_widths.
  destruct (_ <? _) eqn:Hc1; destruct ((b - a) mod _ <? _) eqn:Hc2; bool_props;
    Z.to_euclidean_division_equations; lia.
Qed.

(** ** The maps *)

Section sender_maps.
Implicit Types (m : bmap Pending) (s : Sender).

Lemma send_evict_spec m ev m' :
  bm_sorted m → send_evict m = (ev, m') →
  bm_sorted m' ∧ (Z.of_nat (length m) <= PENDING_CAP → Z.of_nat (length m') < PENDING_CAP) ∧
  match ev with
  | None => m' = m
  | Some (k, o) => ∃ p, m = (k, p) :: m' ∧ o = p_options p
  end.
Proof.
  unfold send_evict. intros Hs. case_if; intros He.
  - destruct m as [|[k p] m]; simpl in He; simplify_eq.
    + unfold PENDING_CAP in *. simpl in *. lia.
    + rewrite bm_remove_head by done. apply bm_sorted_cons in Hs as [_ Hs].
      split; [done|]. split; [simpl; lia|eauto].
  - simplify_eq. split; [done|]. split; [lia|done].
Qed.

Lemma due_step_fields now seq p p' ev :
  due_step now seq p = (p', ev) →
  p_payload p' = p_payload p ∧ p_options p' = p_options p ∧
  match ev with
  | None => p' = p
  | Some e => r_seq e = seq ∧ r_options e = p_options p ∧
              (r_gave_up e = false → r_payload e = p_payload p)
  end.
Proof.
  unfold due_step. repeat case_if; intros [= <- <-]; simpl; by auto.
Qed.

(** The loop keeps the keys and the messages; its events are those of its entries. *)
Lemma due_loop_spec now m m' evs :
  due_loop now m = (m', evs) →
  m'.*1 = m.*1 ∧
  (∀ k p', (k, p') ∈ m' → ∃ p ev, (k, p) ∈ m ∧ due_step now k p = (p', ev)) ∧
  (∀ e, e ∈ evs → ∃ p p', (r_seq e, p) ∈ m ∧ due_step now (r_seq e) p = (p', Some e)).
Proof.
  revert m' evs. induction m as [|[k p] m IH]; intros m' evs; cbn [due_loop].
  - intros [= <- <-]. split; [done|]. split; by intros ? ?%elem_of_nil || (intros ?? ?%elem_of_nil).
  - destruct (due_step now k p) as [p1 ev1] eqn:Hst.
    destruct (due_loop now m) as [m1 evs1] eqn:Hl. intros [= <- <-].
    destruct (IH _ _ eq_refl) as (Hk & Hm & He). split; [rewrite !fmap_cons; by f_equal|]. split.
    + intros k' p' [[= -> ->]|Hin]%elem_of_cons.
      * exists p, ev1. split; [left|done].
      * destruct (Hm _ _ Hin) as (q & ev & ? & ?). exists q, ev. split; [by right|done].
    + intros e He'.
      assert (ev1 = Some e ∨ e ∈ evs1) as [->|Hin].
      { destruct ev1; [apply elem_of_cons in He' as [->|]|]; auto. }
      * exists p, p1. destruct (due_step_fields _ _ _ _ _ Hst) as (_ & _ & <- & _).
        split; [left|done].
      * destruct (He _ Hin) as (q & q' & ? & ?). exists q, q'. split; [by right|done].
Qed.

(** The loop of [on_ack] ends before its fuel does, and what it leaves behind is what a
    reader of the source expects: nothing acknowledged at the head. *)
Lemma on_ack_loop_spec fuel m ack cl cl' m' :
  (length m ≤ fuel)%nat → bm_sorted m → on_ack_loop fuel m ack cl = (cl', m') →
  ∃ pre, m = pre ++ m' ∧ cl' = cl ++ map (λ e, (e.1, p_options e.2)) pre ∧
    Forall (λ e, seq_le e.1 ack = true) pre ∧
    match m' with [] => True | e :: _ => seq_le e.1 ack = false end.
Proof.
  revert m cl. induction fuel as [|fuel IH]; intros m cl Hf Hs.
  - destruct m; simpl in Hf; [|lia]. intros [= <- <-]. exists []. simpl. rewrite app_nil_r. by auto using Forall_nil_2.
  - destruct m as [|[k p] m]; simpl.
    + intros [= <- <-]. exists []. simpl. rewrite app_nil_r. by auto using Forall_nil_2.
    + rewrite Z.eqb_refl. destruct (seq_le k ack) eqn:Hk; simpl.
      * rewrite bm_remove_head by done. intros Hl.
        simpl in Hf. apply bm_sorted_cons in Hs as [_ Hs].
        apply IH in Hl as (pre & -> & -> & Hpre & Hhd); [|lia|done].
        exists ((k, p) :: pre). simpl. rewrite <- app_assoc. auto.
      * intros [= <- <-]. exists []. simpl. rewrite app_nil_r. auto.
Qed.
End sender_maps.

(** ** The receiver's loops *)

Lemma ooo_evict_spec buf prev ev buf' :
  bm_sorted buf → ooo_evict buf prev = (ev, buf') →
  bm_sorted buf' ∧ (∀ e, e ∈ buf' → e ∈ buf) ∧
  (Z.of_nat (length buf) <= OOO_CAP → Z.of_nat (length buf') < OOO_CAP).
Proof.
  unfold ooo_evict. intros Hs. case_if; intros He.
  - destruct (bm_last buf) as [[k v]|] eqn:Hl; simplify_eq.
    + split; [by apply bm_sorted_remove|]. split; [by intros e [? _]%bm_elem_remove|].
      intros. assert (Hlt : (length (bm_remove k buf) < length buf)%nat); [|lia].
      apply bm_length_remove_lt, bm_contains_true, list_elem_of_fmap.
      exists (k, v). split; [done|by apply bm_last_elem].
    + unfold bm_last in Hl. apply last_None in Hl. subst. simpl in *.
      unfold OOO_CAP in *. lia.
  - simplify_eq. split; [done|]. split; [done|lia].
Qed.

(** The drain loop removes from the buffer only, and with fuel for every entry it ends because
    the next sequence number is absent. *)
Lemma drain_bounds fuel next buf out next' buf' out' :
  bm_sorted buf → drain fuel next buf out = (next', buf', out') →
  bm_sorted buf' ∧ (∀ e, e ∈ buf' → e ∈ buf) ∧ (length buf' ≤ length buf)%nat ∧
  ((length buf ≤ fuel)%nat → bm_lookup next' buf' = None).
Proof.
  revert next buf out. induction fuel as [|fuel IH]; intros next buf out Hs; simpl.
  - intros [= <- <- <-]. repeat split; auto. destruct buf; simpl; [done|lia].
  - destruct (bm_lookup next buf) as [[o p]|] eqn:Hl.
    + intros Hd. assert (Hc : bm_contains next buf = true).
      { unfold bm_contains. by rewrite Hl. }
      apply bm_length_remove_lt in Hc.
      apply IH in Hd as (? & Hsub & ? & Hfu); [|by apply bm_sorted_remove].
      split; [done|]. split; [intros e He; by apply Hsub, bm_elem_remove in He as []|].
      split; [lia|]. intros. apply Hfu. lia.
    + intros [= <- <- <-]. repeat split; auto.
Qed.

(** ** Well-formed states *)

(** A pending entry: the timeout is the doubled-and-capped initial one, and an entry gives up only
    with its retry budget spent. *)
Definition pending_wf (p : Pending) : Prop :=
  0 <= p_retries p <= MAX_RETRIES ∧
  p_rto_ms p = Z.min (RTO_FIRST_MS * 2 ^ p_retries p) RTO_MAX_MS ∧
  (p_gave_up p = true → p_retries p = MAX_RETRIES).

Record sender_wf (s : Sender) : Prop := {
  swf_gseq : is_u32 (next_gseq s);
  swf_bseq : is_u32 (next_bseq s);
  swf_sorted : bm_sorted (pending s);
  swf_keys : Forall (λ e, is_u32 e.1) (pending s);
  swf_cap : Z.of_nat (length (pending s)) <= PENDING_CAP;
  swf_entries : Forall (λ e, pending_wf e.2) (pending s);
}.

Record receiver_wf (r : Receiver) : Prop := {
  rwf_next : is_u32 (g_next r);
  rwf_sorted : bm_sorted (g_buf r);
  rwf_keys : Forall (λ e, is_u32 e.1 ∧ e.1 ≠ 0) (g_buf r);
  rwf_cap : Z.of_nat (length (g_buf r)) <= OOO_CAP;
  rwf_gap : bm_lookup (g_next r) (g_buf r) = None;
}.

(** What may happen to a sender and to a receiver: the methods the transport calls. *)
Inductive sender_step : Sender → Sender → Prop :=
  | ss_send s payload options now : sender_step s (send s payload options now).2
  | ss_ack s ack : sender_step s (on_ack s ack).2
  | ss_due s now : sender_step s (due s now).2
  | ss_drop s : sender_step s (drop_all s).2.

Inductive receiver_step : Receiver → Receiver → Prop :=
  | rs_message r seq options payload now :
      is_u32 seq → receiver_step r (on_message r seq options payload now).2
  | rs_piggyback r : receiver_step r (piggyback_ack r).2
  | rs_forced r now : receiver_step r (forced_ack r now).2.

Lemma pending_wf_fresh payload options now : pending_wf (fresh_pending payload options now).
Proof. unfold pending_wf, fresh_pending, MAX_RETRIES, RTO_FIRST_MS, RTO_MAX_MS. simpl. lia. Qed.

Lemma pending_wf_rto p : pending_wf p → RTO_FIRST_MS <= p_rto_ms p <= RTO_MAX_MS.
Proof.
  intros ([??] & -> & _). unfold RTO_FIRST_MS, RTO_MAX_MS.
  assert (0 < 2 ^ p_retries p) by (apply Z.pow_pos_nonneg; lia). lia.
Qed.

Lemma due_step_wf now seq p p' ev :
  pending_wf p → due_step now seq p = (p', ev) →
  pending_wf p' ∧
  p_retries p' = p_retries p + match ev with Some e => if r_gave_up e then 0 else 1 | None => 0 end ∧
  (p_gave_up p = true → ev = None ∧ p_gave_up p' = true) ∧
  match ev with Some e => p_gave_up p = false ∧ p_gave_up p' = r_gave_up e | None => p' = p end.
Proof.
  intros Hw. pose proof (pending_wf_rto _ Hw) as Hr. destruct Hw as ((?&?) & Hrto & Hg).
  unfold due_step. repeat case_if; intros [= <- <-]; simpl.
  - repeat split; auto; try lia; congruence.
  - repeat split; auto; try lia; congruence.
  - repeat split; simpl; auto; try lia; congruence.
  - unfold pending_wf, saturating_mul64, RTO_MAX_MS, RTO_FIRST_MS, U64, MAX_RETRIES in *.
    repeat split; simpl; try lia; try congruence.
    rewrite Hrto, Z.pow_add_r by lia. lia.
Qed.

Lemma sender_wf_new : sender_wf Sender_new.
Proof. split; simpl; try constructor; unfold is_u32, U32, PENDING_CAP; lia. Qed.

Lemma send_wf s payload options now :
  sender_wf s → sender_wf (send s payload options now).2.
Proof.
  intros [? ? Hs Hk Hc He]. unfold send. simpl negb. cbv iota.
  repeat case_if; [|by split; simpl; auto; ulia|by split].
  destruct (send_evict (pending s)) as [ev m] eqn:Hev.
  apply send_evict_spec in Hev as (Hs' & Hlen & Hm); [|done].
  assert (Hsub : ∀ e, e ∈ m → e ∈ pending s).
  { destruct ev as [[k o]|]; [|by subst]. destruct Hm as (p & -> & _). by right. }
  rewrite Forall_forall in Hk, He.
  split; simpl; auto with btree; [ulia| | |].
  - apply Forall_forall. intros [k p] [[= -> ->]|[Hin _]]%bm_elem_insert; auto.
  - pose proof (bm_length_insert_le (next_gseq s) (fresh_pending payload options now) m). lia.
  - apply Forall_forall. intros [k p] [[= -> ->]|[Hin _]]%bm_elem_insert; auto.
    apply pending_wf_fresh.
Qed.

Lemma on_ack_wf s ack : sender_wf s → sender_wf (on_ack s ack).2.
Proof.
  intros [? ? Hs Hk Hc He]. unfold on_ack.
  destruct (on_ack_loop _ _ _ _) as [cl m] eqn:Hl.
  apply on_ack_loop_spec in Hl as (pre & Heq & _ & _ & _); [|done|done].
  rewrite Heq in *. apply Forall_app in Hk as [_ ?]. apply Forall_app in He as [_ ?].
  rewrite length_app in Hc. split; simpl; auto; [|lia].
  clear -Hs. induction pre as [|e pre IH]; [done|]. apply bm_sorted_cons in Hs as [_ ?]. auto.
Qed.

Lemma due_wf s now : sender_wf s → sender_wf (due s now).2.
Proof.
  intros [? ? Hs Hk Hc He]. unfold due. simpl negb. cbv iota.
  destruct (due_loop now (pending s)) as [m evs] eqn:Hl. simpl.
  apply due_loop_spec in Hl as (Hkeys & Hm & _).
  assert (length m = length (pending s)) as Hlen.
  { rewrite <- (length_fmap fst m), Hkeys. apply length_fmap. }
  rewrite Forall_forall in Hk, He. split; simpl; auto; try lia.
  - unfold bm_sorted. rewrite Hkeys. exact Hs.
  - apply Forall_forall. intros [k p] (q & ev & Hin & _)%Hm. by apply (Hk (k, q)).
  - apply Forall_forall. intros [k p] (q & ev & Hin & Hst)%Hm. simpl.
    eapply due_step_wf in Hst as []; [done|]. by apply (He (k, q)).
Qed.

Lemma sender_step_wf s s' : sender_step s s' → sender_wf s → sender_wf s'.
Proof.
  destruct 1; auto using send_wf, on_ack_wf, due_wf. intros _. apply sender_wf_new.
Qed.

Lemma receiver_wf_new : receiver_wf Receiver_new.
Proof. split; simpl; try constructor; unfold is_u32, U32, OOO_CAP; lia. Qed.

Lemma drain_next_u32 fuel next buf out :
  is_u32 next → is_u32 (drain fuel next buf out).1.1.
Proof.
  revert next buf out. induction fuel as [|fuel IH]; intros next buf out Hn; simpl; [done|].
  destruct (bm_lookup next buf) as [[o p]|]; simpl; [|done]. apply IH. ulia.
Qed.

Lemma receiver_wf_buf next buf last seen due ev next' buf' :
  receiver_wf (mkReceiver next buf last seen due ev) →
  is_u32 next' → bm_sorted buf' →
  Forall (λ e, is_u32 e.1 ∧ e.1 ≠ 0) buf' → Z.of_nat (length buf') <= OOO_CAP →
  bm_lookup next' buf' = None →
  ∀ last seen due ev, receiver_wf (mkReceiver next' buf' last seen due ev).
Proof. intros. by split. Qed.

Lemma on_guaranteed_wf r seq options payload now :
  is_u32 seq → seq ≠ 0 → receiver_wf r → receiver_wf (on_guaranteed r seq options payload now).2.
Proof.
  intros Hq Hq0 Hr. pose proof Hr as [Hn Hs Hk Hc Hg]. unfold on_guaranteed.
  destruct (seq_le _ _ || bm_contains _ _) eqn:Hdup; [by split|].
  apply orb_false_iff in Hdup as [_ Hnc]. rewrite Forall_forall in Hk.
  destruct (sequential options); [destruct (seq =? g_next r) eqn:Hq'|]; bool_props.
  - set (out0 := match payload with [] => _ | _ => _ end).
    pose proof (drain_next_u32 (length (g_buf r)) (g_next r +w 1) (g_buf r) out0) as Hu.
    destruct (drain _ _ _ _) as [[next buf] out] eqn:Hd.
    apply drain_bounds in Hd as (? & Hsub & ? & Hnone); [|done]. simpl in Hu.
    split; simpl; auto; [apply Hu; ulia| |lia]. apply Forall_forall. auto.
  - destruct (ooo_evict _ _) as [ev buf] eqn:Hev.
    apply ooo_evict_spec in Hev as (? & Hsub & Hlen); [|done].
    split; simpl; auto with btree.
    + apply Forall_forall. intros e [->|[? _]]%bm_elem_insert; auto.
    + pose proof (bm_length_insert_le seq (options, payload) buf). lia.
    + rewrite bm_lookup_insert_ne by congruence. apply bm_lookup_None.
      intros (e & Heq & ?%Hsub)%list_elem_of_fmap.
      apply bm_lookup_None in Hg. apply Hg. rewrite Heq. apply list_elem_of_fmap. eauto.
  - destruct (ooo_evict _ _) as [ev buf] eqn:Hev.
    apply ooo_evict_spec in Hev as (? & Hsub & Hlen); [|done].
    set (buf1 := bm_insert seq (options, []) buf).
    pose proof (drain_next_u32 (length buf1) (g_next r) buf1 [mkRecvMsg payload options] Hn) as Hu.
    destruct (drain _ _ _ _) as [[next buf2] out] eqn:Hd.
    apply drain_bounds in Hd as (? & Hsub2 & ? & Hnone); [|by apply bm_sorted_insert].
    pose proof (bm_length_insert_le seq (options, []) buf). fold buf1 in H2.
    split; simpl; auto; [|lia].
    apply Forall_forall. intros e He%Hsub2. apply bm_elem_insert in He as [->|[? _]]; auto.
Qed.

Lemma on_message_wf r seq options payload now :
  is_u32 seq → receiver_wf r → receiver_wf (on_message r seq options payload now).2.
Proof.
  intros Hq Hr. pose proof Hr as [Hn Hs Hk Hc Hg]. unfold on_message. simpl negb. simpl orb.
  repeat case_if; simpl; try by split.
  by apply on_guaranteed_wf; [| |split].
Qed.

Lemma receiver_step_wf r r' : receiver_step r r' → receiver_wf r → receiver_wf r'.
Proof.
  destruct 1 as [r seq options payload now Hq|r|r now]; intros Hr.
  - by apply on_message_wf.
  - destruct Hr. by split.
  - unfold forced_ack. destruct (ack_due_at r); [|done]. case_if; [|done]. destruct Hr. by split.
Qed.

(** ** Retransmission timing *)

Lemma min_list_le l t n : min_list l = Some t → (t <= n ↔ Exists (λ x, x <= n) l).
Proof.
  destruct l as [|x l]; simpl; [done|]. intros [= <-]. revert x.
  induction l as [|y l IH]; intros x; simpl; rewrite Exists_cons.
  - rewrite Exists_nil. tauto.
  - rewrite IH, !Exists_cons, Z.min_le_iff. tauto.
Qed.

Definition wants_resend (now_ms : Z) (p : Pending) : Prop :=
  p_gave_up p = false ∧ p_last_sent_ms p + p_rto_ms p <= now_ms.

Lemma due_step_event now seq p :
  pending_wf p → (due_step now seq p).2 ≠ None ↔ wants_resend now p.
Proof.
  intros Hw. apply pending_wf_rto in Hw. unfold RTO_FIRST_MS, due_step, wants_resend, saturating_sub in *.
  destruct (p_gave_up p); [split; [done|by intros []]|].
  repeat case_if; simpl; split; try done; try (intros; split; [done|lia]); intros [_ ?]; lia.
Qed.

Lemma due_loop_nonempty now m :
  (due_loop now m).2 ≠ [] ↔ Exists (λ e, (due_step now e.1 e.2).2 ≠ None) m.
Proof.
  induction m as [|[k p] m IH]; cbn [due_loop].
  - rewrite Exists_nil. by split.
  - rewrite Exists_cons. simpl. destruct (due_step now k p) as [p' [e|]], (due_loop now m) as [m' evs];
      simpl in *; [split; [by left|done]|]. rewrite IH. tauto.
Qed.

Lemma due_nonempty s now :
  sender_wf s →
  (due s now).1 ≠ [] ↔ Exists (λ e, wants_resend now e.2) (pending s).
Proof.
  intros Hw. destruct Hw as [_ _ _ _ _ He]. unfold due. simpl negb. cbv iota.
  pose proof (due_loop_nonempty now (pending s)) as Hl.
  destruct (due_loop now (pending s)) as [m evs]. simpl in *. rewrite Hl.
  rewrite !Exists_exists. rewrite Forall_forall in He.
  split; intros (e & Hin & Hd); exists e; (split; [done|]); specialize (He _ Hin);
    by apply (due_step_event now e.1 e.2 He).
Qed.

(** ** Retry budget *)

(** Every event produced by calling [due] at the times of a list. *)
Fixpoint due_runs (s : Sender) (ts : list Z) : list Retransmit :=
  match ts with
  | [] => []
  | t :: ts => (due s t).1 ++ due_runs (due s t).2 ts
  end.

Definition resends (k : Z) (evs : list Retransmit) : list Retransmit :=
  filter (λ e, r_seq e = k ∧ r_gave_up e = false) evs.
Definition give_ups (k : Z) (evs : list Retransmit) : list Retransmit :=
  filter (λ e, r_seq e = k ∧ r_gave_up e = true) evs.

Definition count_event (g : bool) (ev : option Retransmit) : Z :=
  match ev with Some e => if Bool.eqb (r_gave_up e) g then 1 else 0 | None => 0 end.

Lemma due_loop_absent now m k evs m' g :
  k ∉ m.*1 → due_loop now m = (m', evs) →
  filter (λ e, r_seq e = k ∧ r_gave_up e = g) evs = [] ∧ bm_lookup k m' = None.
Proof.
  intros Hk Hl. apply due_loop_spec in Hl as (Hkeys & _ & He).
  split; [|apply bm_lookup_None; by rewrite Hkeys].
  destruct (filter _ evs) as [|e l] eqn:Hf; [done|].
  assert (Hin : e ∈ filter (λ e, r_seq e = k ∧ r_gave_up e = g) evs) by (rewrite Hf; by left).
  apply list_elem_of_filter in Hin as [[Hs _] Hin].
  destruct (He _ Hin) as (p & p' & Hp & _). destruct Hk. rewrite <- Hs.
  apply list_elem_of_fmap. by exists (r_seq e, p).
Qed.

Lemma due_loop_count now m k p m' evs :
  bm_sorted m → bm_lookup k m = Some p → due_loop now m = (m', evs) →
  bm_lookup k m' = Some (due_step now k p).1 ∧
  ∀ g, Z.of_nat (length (filter (λ e, r_seq e = k ∧ r_gave_up e = g) evs))
       = count_event g (due_step now k p).2.
Proof.
  revert m' evs. induction m as [|[j q] m IH]; intros m' evs Hs; cbn [due_loop bm_lookup]; [done|].
  apply bm_sorted_cons in Hs as [Hlt Hs]. simpl in Hlt.
  destruct (due_step now j q) as [q' ev] eqn:Hst.
  destruct (due_loop now m) as [m1 evs1] eqn:Hl. intros Hlk [= <- <-].
  pose proof (due_step_fields _ _ _ _ _ Hst) as (_ & _ & Hev).
  destruct (k =? j) eqn:Hkj; bool_props.
  - subst j. injection Hlk as ->. rewrite Hst. cbn [bm_lookup fst]. rewrite Z.eqb_refl.
    split; [done|]. intros g.
    assert (Habs : k ∉ m.*1).
    { intros (e & -> & Hin)%list_elem_of_fmap. rewrite Forall_forall in Hlt.
      specialize (Hlt _ Hin). lia. }
    destruct (due_loop_absent now m k _ _ g Habs Hl) as [Hnil _].
    destruct ev as [e|]; simpl; [|by rewrite Hnil].
    destruct Hev as [Hk _]. rewrite filter_cons, Hnil. simpl.
    destruct (r_gave_up e), g; case_decide; simpl; first [done|exfalso; intuition congruence].
  - destruct (IH _ _ Hs Hlk eq_refl) as [Hlk' Hc]. cbn [bm_lookup].
    rewrite (proj2 (Z.eqb_neq k j)) by done. split; [done|]. intros g.
    destruct ev as [e|]; [|apply Hc]. destruct Hev as [Hk _].
    rewrite filter_cons, decide_False; [apply Hc|]. intros [? _]. congruence.
Qed.

(** What an entry may still produce. *)
Definition resend_budget (p : Pending) : Z := if p_gave_up p then 0 else MAX_RETRIES - p_retries p.
Definition give_up_budget (p : Pending) : Z := if p_gave_up p then 0 else 1.

Lemma due_runs_budget ts s k p :
  sender_wf s → bm_lookup k (pending s) = Some p →
  Z.of_nat (length (resends k (due_runs s ts))) <= resend_budget p ∧
  Z.of_nat (length (give_ups k (due_runs s ts))) <= give_up_budget p.
Proof.
  revert s p. induction ts as [|t ts IH]; intros s p Hw Hl.
  - pose proof Hw as [_ _ _ _ _ He]. rewrite Forall_forall in He.
    destruct (He _ (bm_lookup_elem _ _ _ Hl)) as ([??] & _). simpl in *.
    unfold resend_budget, give_up_budget. destruct (p_gave_up p); lia.
  - pose proof (due_wf s t Hw) as Hw'. pose proof Hw as [_ _ Hs _ _ He].
    rewrite Forall_forall in He. specialize (He _ (bm_lookup_elem _ _ _ Hl)). simpl in He.
    unfold resends, give_ups. cbn [due_runs]. rewrite !filter_app, !length_app.
    unfold due in *. simpl negb in *. cbv iota in *.
    destruct (due_loop t (pending s)) as [m evs] eqn:Hd. simpl in *.
    destruct (due_loop_count _ _ _ _ _ _ Hs Hl Hd) as [Hl' Hc].
    destruct (due_step t k p) as [p' ev] eqn:Hst. simpl in *.
    destruct (IH _ _ Hw' Hl') as [Hr Hg]. unfold resends, give_ups in Hr, Hg.
    rewrite !Nat2Z.inj_add, !Hc.
    destruct (due_step_wf _ _ _ _ _ He Hst) as (_ & Hret & Hgu & Hev).
    unfold resend_budget, give_up_budget, count_event in *.
    destruct ev as [e|]; [destruct Hev as [Hg1 Hg2]; rewrite Hg1, Hg2 in *|subst p'; lia].
    destruct He as ([??] & _). destruct (r_gave_up e); simpl in *; lia.
Qed.

(** ** The best-effort sequential space *)

(** The sequence numbers of the best-effort sequential messages a receiver hands over. *)
Fixpoint be_accepted (r : Receiver) (l : list (Z * Z * list byte * Z)) : list Z :=
  match l with
  | [] => []
  | (seq, options, payload, now) :: l =>
      let '(o, r') := on_message r seq options payload now in
      let rest := be_accepted r' l in
      if negb (guaranteed options) && sequential options
      then match o with Delivered _ => seq :: rest | _ => rest end
      else rest
  end.

Lemma on_guaranteed_be r seq options payload now :
  be_seen (on_guaranteed r seq options payload now).2 = be_seen r ∧
  be_last (on_guaranteed r seq options payload now).2 = be_last r.
Proof.
  unfold on_guaranteed. by repeat case_match; simplify_eq/=.
Qed.

Lemma be_accepted_sorted l r :
  Forall (λ m, m.1.1.1 ≠ 0) l →
  Sorted (λ a b, seq_after b a = true) (be_accepted r l) ∧
  (be_seen r = true → HdRel (λ a b, seq_after b a = true) (be_last r) (be_accepted r l)).
Proof.
  revert r. induction l as [|[[[seq options] payload] now] l IH]; intros r Hl; cbn [be_accepted].
  { split; [constructor|intros; constructor]. }
  apply Forall_cons in Hl as [Hq Hl]. simpl in Hq.
  unfold on_message. simpl negb. simpl orb.
  set (r0 := mkReceiver _ _ _ _ _ _).
  destruct (seq =? 0) eqn:?; bool_props; [done|].
  destruct (guaranteed options) eqn:Hgu; simpl.
  - pose proof (on_guaranteed_be r0 seq options payload now) as [Hs Hla].
    destruct (on_guaranteed r0 seq options payload now) as [o r']. simpl in *.
    destruct (IH r' Hl) as [? Hhd]. rewrite Hs, Hla in Hhd. auto.
  - destruct (sequential options) eqn:Hsq; simpl; [|apply (IH r0 Hl)].
    destruct (be_seen r && negb (seq_after seq (be_last r))) eqn:Hdrop.
    + apply andb_true_iff in Hdrop as [Hseen _]. destruct (IH r0 Hl) as [? Hhd]. auto.
    + destruct (IH (mkReceiver (g_next r) (g_buf r) seq true (ack_due_at r) None) Hl) as [Hsort Hhd].
      split; [constructor; auto|]. intros Hseen. constructor.
      rewrite Hseen in Hdrop. by apply negb_false_iff in Hdrop.
Qed.

(** ** Properties *)

(** whatever sequence of sends, acknowledgements, retransmission passes and resets a sender
    goes through, its pending map stays sorted and within [PENDING_CAP], every retransmission
    timeout is the initial one doubled per retry and capped, no entry exceeds the retry budget,
    and an entry is marked given-up only with that budget spent. *)
Theorem sender_reachable_wf s : rtc sender_step Sender_new s → sender_wf s.
Proof.
  intros Hr. by eapply (rtc_invariant _ _ sender_step_wf), sender_wf_new.
Qed.

Lemma sender_reachable_wf_witness :
  sender_wf (due (send Sender_new [x01] 3 0).2 60).2.
Proof.
  apply sender_reachable_wf.
  eapply rtc_l; [apply (ss_send Sender_new [x01] 3 0)|].
  eapply rtc_l; [apply (ss_due _ 60)|]. apply rtc_refl.
Defined.

(** C40: whatever datagrams a receiver is fed, its out-of-order buffer stays sorted and within
    [OOO_CAP], never holds sequence number 0, and never holds the number it is waiting for (the
    contiguous prefix is always drained). *)
Theorem receiver_reachable_wf r : rtc receiver_step Receiver_new r → receiver_wf r.
Proof.
  intros Hr. by eapply (rtc_invariant _ _ receiver_step_wf), receiver_wf_new.
Qed.

Lemma receiver_reachable_wf_witness :
  receiver_wf (on_message (on_message Receiver_new 2 3 [x02] 0).2 1 3 [x01] 5).2.
Proof.
  apply receiver_reachable_wf.
  eapply rtc_l; [apply (rs_message Receiver_new 2 3 [x02] 0); vm_compute; split; congruence|].
  eapply rtc_l; [apply (rs_message _ 1 3 [x01] 5); vm_compute; split; congruence|]. apply rtc_refl.
Defined.

(** however often and whenever [due] runs, one pending message is put on the wire again at
    most [MAX_RETRIES] times and produces at most one give-up event. *)
Theorem retry_budget s ts k :
  sender_wf s →
  Z.of_nat (length (resends k (due_runs s ts))) <= MAX_RETRIES ∧
  Z.of_nat (length (give_ups k (due_runs s ts))) <= 1.
Proof.
  intros Hw. destruct (bm_lookup k (pending s)) as [p|] eqn:Hl.
  - destruct (due_runs_budget ts s k p Hw Hl) as [Hr Hg].
    destruct Hw as [_ _ _ _ _ He]. rewrite Forall_forall in He.
    destruct (He _ (bm_lookup_elem _ _ _ Hl)) as ([??] & _). simpl in *.
    unfold resend_budget, give_up_budget, MAX_RETRIES in *. destruct (p_gave_up p); lia.
  - assert (Hnil : resends k (due_runs s ts) = [] ∧ give_ups k (due_runs s ts) = []);
      [|destruct Hnil as [-> ->]; unfold MAX_RETRIES; simpl; lia].
    clear Hw. revert s Hl. induction ts as [|t ts IH]; intros s Hl; [done|].
    unfold resends, give_ups, due in *. cbn [due_runs]. rewrite !filter_app.
    unfold due. simpl negb. cbv iota. destruct (due_loop t (pending s)) as [m evs] eqn:Hd. simpl.
    apply bm_lookup_None in Hl.
    destruct (due_loop_absent _ _ _ _ _ false Hl Hd) as [-> Hl'].
    destruct (due_loop_absent _ _ _ _ _ true Hl Hd) as [-> _].
    by apply (IH (mkSender (next_gseq s) (next_bseq s) m)).
Qed.

Lemma retry_budget_witness :
  let s := (send Sender_new [x01] 3 0).2 in
  Z.of_nat (length (resends 1 (due_runs s (seqZ 0 5000)))) <= MAX_RETRIES ∧
  Z.of_nat (length (give_ups 1 (due_runs s (seqZ 0 5000)))) <= 1.
Proof.
  apply retry_budget, (sender_step_wf Sender_new); [apply ss_send|apply sender_wf_new].
Defined.

(** [next_rto_ms] is exact. While no deadline overflows 64 bits, a pass of [due] at time [now]
    has something to do if and only if [now] has reached the instant [next_rto_ms] reports, and
    never when it reports none: the transport thread neither sleeps past a deadline nor spins. *)
Theorem next_rto_exact s now :
  sender_wf s → Forall (λ e, p_last_sent_ms e.2 + p_rto_ms e.2 < U64) (pending s) →
  (due s now).1 ≠ [] ↔ ∃ t, next_rto_ms s = Some t ∧ t <= now.
Proof.
  intros Hw Hb. rewrite due_nonempty by done. unfold next_rto_ms.
  assert (Hex : Exists (λ e : Z * Pending, wants_resend now e.2) (pending s)
    ↔ Exists (λ x, x <= now) (map deadline (filter (λ p, p_gave_up p = false) (pending s).*2))).
  { rewrite !Exists_exists. rewrite Forall_forall in Hb. split.
    - intros ([k p] & Hin & Hg & Hd). exists (deadline p). split.
      + apply list_elem_of_In, in_map, list_elem_of_In, list_elem_of_filter.
        split; [done|]. apply list_elem_of_fmap. by exists (k, p).
      + specialize (Hb _ Hin). simpl in *. unfold deadline, saturating_add64. lia.
    - intros (x & Hin & Hx). apply list_elem_of_In, in_map_iff in Hin as (p & <- & Hin).
      apply list_elem_of_In, list_elem_of_filter in Hin as [Hg Hin].
      apply list_elem_of_fmap in Hin as ([k q] & -> & Hin). exists (k, q).
      split; [done|]. split; [done|]. specialize (Hb _ Hin). simpl in *.
      unfold deadline, saturating_add64 in Hx. lia. }
  rewrite Hex. set (l := map _ _). clearbody l.
  destruct (min_list l) as [t|] eqn:Hm.
  - rewrite <- (min_list_le l t now Hm). split; [eauto|intros (? & [= <-] & ?); done].
  - destruct l; [|done]. rewrite Exists_nil. split; [done|by intros (? & ? & _)].
Qed.

Lemma next_rto_exact_witness :
  let s := (send Sender_new [x01] 3 100).2 in
  (due s 160).1 ≠ [] ↔ ∃ t, next_rto_ms s = Some t ∧ t <= 160.
Proof.
  apply next_rto_exact.
  - apply (sender_step_wf Sender_new); [apply ss_send|apply sender_wf_new].
  - repeat constructor.
Defined.

(** a forced standalone acknowledgement is produced exactly from the instant
    [next_ack_due_ms] reports, carries the cumulative acknowledgement, and is then no longer owed. *)
Theorem forced_ack_exact r now t :
  ack_due_at r = Some t → 0 <= t → t + ACK_DELAY_MS < U64 →
  next_ack_due_ms r = Some (t + ACK_DELAY_MS) ∧
  forced_ack r now =
    (if t + ACK_DELAY_MS <=? now then (Some (ack_value r), clear_ack r) else (None, r)) ∧
  next_ack_due_ms (clear_ack r) = None.
Proof.
  intros Ht H0 Hb. unfold next_ack_due_ms, forced_ack. rewrite Ht. simpl.
  unfold saturating_add64, saturating_sub, ACK_DELAY_MS in *.
  repeat split; [f_equal; lia|]. repeat case_if; try done; lia.
Qed.

Lemma forced_ack_exact_witness :
  let r := (on_message Receiver_new 1 3 [x01] 7).2 in
  next_ack_due_ms r = Some 37 ∧
  forced_ack r 36 = (if 37 <=? 36 then (Some (ack_value r), clear_ack r) else (None, r)) ∧
  next_ack_due_ms (clear_ack r) = None.
Proof. apply (forced_ack_exact _ 36 7); vm_compute; congruence. Defined.

(** best-effort sequential messages are handed over strictly forwards: in whatever order they
    arrive, each one delivered is newer, in the wrapping sequence space, than the one before. *)
Theorem best_effort_forward l :
  Forall (λ m, m.1.1.1 ≠ 0) l →
  Sorted (λ a b, seq_after b a = true) (be_accepted Receiver_new l).
Proof. intros Hl. apply (be_accepted_sorted l Receiver_new Hl). Qed.

Lemma best_effort_forward_witness :
  Sorted (λ a b, seq_after b a = true)
    (be_accepted Receiver_new [(4294967295, 2, [], 0); (1, 2, [], 0); (4294967294, 2, [], 0)]).
Proof. apply best_effort_forward. repeat constructor; simpl; lia. Defined.

Lemma on_message_zero r seq options payload now :
  receiver_wf r → g_next r = 0 → g_next (on_message r seq options payload now).2 = 0.
Proof.
  intros [_ Hs Hk _ Hg] H0. unfold on_message. simpl negb. simpl orb.
  repeat case_if; simpl; try done. unfold on_guaranteed. simpl.
  destruct (seq_le _ _ || _); [done|]. destruct (sequential options).
  - rewrite H0, (proj2 (Z.eqb_neq seq 0)) by done. by destruct (ooo_evict _ _).
  - destruct (ooo_evict (g_buf r) None) as [ev buf] eqn:Hev.
    apply ooo_evict_spec in Hev as (? & Hsub & _); [|done].
    assert (Hnone : bm_lookup 0 (bm_insert seq (options, []) buf) = None).
    { rewrite bm_lookup_insert_ne by done. apply bm_lookup_None.
      intros (e & He & Hin%Hsub)%list_elem_of_fmap. rewrite Forall_forall in Hk.
      destruct (Hk _ Hin). congruence. }
    rewrite H0. destruct (length (bm_insert seq (options, []) buf)) eqn:Hl; simpl; [done|].
    by rewrite Hnone.
Qed.

Lemma receiver_step_zero r r' :
  receiver_step r r' → receiver_wf r → g_next r = 0 → g_next r' = 0.
Proof.
  destruct 1 as [r seq options payload now _|r|r now]; intros Hw H0; simpl; [|done|].
  - by apply on_message_zero.
  - unfold forced_ack. destruct (ack_due_at r); [|done]. by case_if.
Qed.

(** guaranteed delivery does not survive the wrap of the sequence counter. After message
    4294967295 the sender numbers a guaranteed message 0, the value reserved for unsequenced
    messages; a receiver waiting for 0 passes it through unnumbered and, whatever arrives
    afterwards, waits for 0 for ever. *)
Theorem guaranteed_wrap_stalls r r' b m payload options now :
  guaranteed options = true →
  receiver_wf r → g_next r = 0 → rtc receiver_step r r' →
  o_seq (send (send (mkSender (U32 - 1) b m) payload options now).2 payload options now).1 = 0 ∧
  g_next r' = 0.
Proof.
  intros Hg Hw H0 Hr. split.
  - unfold send. rewrite Hg. simpl. destruct (send_evict m). simpl. by destruct (send_evict _).
  - assert (receiver_wf r' ∧ g_next r' = 0) as []; [|done].
    induction Hr as [|r1 r2 r3 Hst Hr IH]; [done|].
    apply IH; eauto using receiver_step_wf, receiver_step_zero.
Qed.

Lemma guaranteed_wrap_stalls_witness :
  let r := mkReceiver 0 [] 0 false None None in
  o_seq (send (send (mkSender (U32 - 1) 1 []) [x01] 3 0).2 [x01] 3 0).1 = 0 ∧
  g_next (on_message (on_message r 0 3 [x01] 0).2 1 3 [x02] 0).2 = 0.
Proof.
  apply (guaranteed_wrap_stalls (mkReceiver 0 [] 0 false None None)); [reflexivity| |reflexivity|].
  - split; simpl; try constructor; unfold is_u32, U32, OOO_CAP; lia.
  - eapply rtc_l; [apply (rs_message _ 0 3 [x01] 0); vm_compute; split; congruence|].
    eapply rtc_l; [apply (rs_message _ 1 3 [x02] 0); vm_compute; split; congruence|]. apply rtc_refl.
Defined.
