(* ===== verification/Link.v ===== *)
(** * One reliable link over a lossy network

    The contract of [party-shim/src/reliable.rs] end to end: one [Sender], one
    [Receiver] of the same (endpoint, endpoint) pairing and a network that may
    lose, duplicate, delay and reorder everything.  A datagram or an
    acknowledgement once emitted may be delivered any number of times, at any
    later moment, or never.  The ghost fields record what the application asked
    to send and what it was handed. *)

From S2P Require Import Prelude RustStr BTree Reliable.
#[local] Open Scope Z_scope.
#[local] Open Scope rust_scope.

Record Link := mkLink {
  l_tx : Sender;
  l_rx : Receiver;
  l_data : list (Z * Z * list byte);      (* datagrams emitted: sequence, options, payload *)
  l_acks : list Z;                        (* cumulative acknowledgements emitted *)
  l_log : list (Z * list byte);           (* ghost: guaranteed messages, in send order *)
  l_evicted : list Z;                     (* ghost: sequence numbers evicted by the sender *)
  l_delivered : list RecvMsg;             (* ghost: what the application received, in order *)
}.

Definition link_init : Link := mkLink Sender_new Receiver_new [] [] [] [] [].

Definition outcome_msgs (o : RecvOutcome) : list RecvMsg :=
  match o with Delivered l => l | _ => [] end.

Definition resend_datagrams (evs : list Retransmit) : list (Z * Z * list byte) :=
  map (λ e, (r_seq e, r_options e, r_payload e)) (filter (λ e, r_gave_up e = false) evs).

Definition evicted_seq (o : Outgoing) : list Z :=
  match o_evicted o with Some (k, _) => [k] | None => [] end.

Inductive link_step : Link → Link → Prop :=
  | ls_send tx rx data acks log ev del payload options now out tx' :
      send tx payload options now = (out, tx') →
      link_step (mkLink tx rx data acks log ev del)
        (mkLink tx' rx ((o_seq out, o_options out, o_payload out) :: data) acks
           (if guaranteed options then log ++ [(options, payload)] else log)
           (evicted_seq out ++ ev) del)
  | ls_due tx rx data acks log ev del now evs tx' :
      due tx now = (evs, tx') →
      link_step (mkLink tx rx data acks log ev del)
        (mkLink tx' rx (resend_datagrams evs ++ data) acks log ev del)
  | ls_recv tx rx data acks log ev del seq options payload now o rx' :
      (seq, options, payload) ∈ data →
      on_message rx seq options payload now = (o, rx') →
      link_step (mkLink tx rx data acks log ev del)
        (mkLink tx rx' data acks log ev (del ++ outcome_msgs o))
  | ls_piggyback tx rx data acks log ev del a rx' :
      piggyback_ack rx = (a, rx') →
      link_step (mkLink tx rx data acks log ev del)
        (mkLink tx rx' data (a :: acks) log ev del)
  | ls_forced tx rx data acks log ev del now a rx' :
      forced_ack rx now = (Some a, rx') →
      link_step (mkLink tx rx data acks log ev del)
        (mkLink tx rx' data (a :: acks) log ev del)
  | ls_ack tx rx data acks log ev del a :
      a ∈ acks → a ≠ 0 →
      link_step (mkLink tx rx data acks log ev del)
        (mkLink (on_ack tx a).2 rx data acks log ev del).

(** ** Specification: an in-order exactly-once channel *)

(** What the application is owed for a log entry: sequential guaranteed messages with a payload,
    each once, in order. *)
Definition owed (e : Z * list byte) : option RecvMsg :=
  if sequential e.1 then match e.2 with [] => None | _ => Some (mkRecvMsg e.2 e.1) end else None.
Definition expected (log : list (Z * list byte)) : list RecvMsg := omap owed log.

(** The guaranteed sequential messages of a delivery trace. *)
Definition ordered (l : list RecvMsg) : list RecvMsg :=
  filter (λ m, guaranteed (m_options m) && sequential (m_options m) = true ∧ m_payload m ≠ []) l.

#[global] Arguments ordered : simpl never.
#[global] Arguments expected : simpl never.

(** Messages the receiver has accounted for: those below [g_next]. *)
Definition contiguous (L : Link) : nat := Z.to_nat (g_next (l_rx L) - 1).

(** Log entry of sequence number [k] (numbering starts at 1). *)
Definition log_at (log : list (Z * list byte)) (k : Z) : option (Z * list byte) :=
  if 1 <=? k then log !! Z.to_nat (k - 1) else None.

Lemma log_at_Some log k e :
  log_at log k = Some e → 1 <= k <= Z.of_nat (length log).
Proof.
  unfold log_at. case_if; [|done]. intros Hl%lookup_lt_Some. lia.
Qed.

Lemma log_at_app log k e x : log_at log k = Some e → log_at (log ++ [x]) k = Some e.
Proof.
  intros Hl. pose proof (log_at_Some _ _ _ Hl) as Hr. unfold log_at in *. case_if; [|done].
  by apply lookup_app_l_Some.
Qed.

Lemma log_at_snoc log x : log_at (log ++ [x]) (Z.of_nat (length log) + 1) = Some x.
Proof.
  unfold log_at. case_if; [|lia]. replace (Z.to_nat _) with (length log) by lia.
  by rewrite lookup_app_r, Nat.sub_diag by lia.
Qed.

Lemma expected_step log k e :
  log_at log k = Some e →
  expected (take (Z.to_nat (k + 1 - 1)) log) =
    expected (take (Z.to_nat (k - 1)) log) ++ match owed e with Some m => [m] | None => [] end.
Proof.
  intros Hl. pose proof (log_at_Some _ _ _ Hl) as Hr. unfold log_at in Hl. case_if_in Hl; [|done].
  replace (Z.to_nat (k + 1 - 1)) with (S (Z.to_nat (k - 1))) by lia.
  rewrite (take_S_r _ _ _ Hl). unfold expected. by rewrite omap_app.
Qed.

(** ** The invariant *)

Definition LOG_MAX : Z := I32 - 2.

Definition buf_entry_ok (log : list (Z * list byte)) (next k : Z) (v : Z * list byte) : Prop :=
  next <= k ∧ ∃ p, log_at log k = Some (v.1, p) ∧ v.2 = (if sequential v.1 then p else []).

Record link_inv (L : Link) : Prop := {
  li_sorted : bm_sorted (pending (l_tx L));
  li_gseq : next_gseq (l_tx L) = Z.of_nat (length (l_log L)) + 1;
  li_log : ∀ e, e ∈ l_log L → guaranteed e.1 = true;
  li_data : ∀ s o p, (s, o, p) ∈ l_data L → guaranteed o = true → log_at (l_log L) s = Some (o, p);
  li_pending : ∀ k p, (k, p) ∈ pending (l_tx L) →
    log_at (l_log L) k = Some (p_options p, p_payload p);
  li_rx : receiver_wf (l_rx L);
  li_next : 1 <= g_next (l_rx L) <= Z.of_nat (length (l_log L)) + 1;
  li_buf : ∀ k v, (k, v) ∈ g_buf (l_rx L) → buf_entry_ok (l_log L) (g_next (l_rx L)) k v;
  li_acks : ∀ a, a ∈ l_acks L → 0 <= a < g_next (l_rx L);
  li_kept : ∀ k, 1 <= k <= Z.of_nat (length (l_log L)) →
    k ∈ (pending (l_tx L)).*1 ∨ k ∈ l_evicted L ∨ k < g_next (l_rx L);
  li_ordered : ordered (l_delivered L) = expected (take (contiguous L) (l_log L));
  li_handed : ∀ k o p, log_at (l_log L) k = Some (o, p) → sequential o = false →
    k < g_next (l_rx L) ∨ k ∈ (g_buf (l_rx L)).*1 → mkRecvMsg p o ∈ l_delivered L;
}.

Lemma link_inv_init : link_inv link_init.
Proof.
  split; simpl; try done; try lia; try (by intros * ?%elem_of_nil).
  - apply bm_sorted_nil.
  - apply receiver_wf_new.
  - intros k o p Hl%log_at_Some. simpl in Hl. lia.
Qed.

(** The drain loop hands over exactly the owed messages of the run it consumes. *)
Lemma drain_link log fuel next buf out next' buf' out' :
  Z.of_nat (length log) <= LOG_MAX →
  1 <= next <= Z.of_nat (length log) + 1 → bm_sorted buf →
  (∀ k v, (k, v) ∈ buf → buf_entry_ok log next k v) →
  drain fuel next buf out = (next', buf', out') →
  next <= next' <= Z.of_nat (length log) + 1 ∧
  (∀ k v, (k, v) ∈ buf' → (k, v) ∈ buf ∧ buf_entry_ok log next' k v) ∧
  (∀ k, next <= k < next' → k ∈ buf.*1) ∧
  (∀ k, k ∈ buf.*1 → k ∈ buf'.*1 ∨ k < next') ∧
  ∃ X, out' = out ++ X ∧
    expected (take (Z.to_nat (next' - 1)) log) = expected (take (Z.to_nat (next - 1)) log) ++ X.
Proof.
  intros Hmax. unfold LOG_MAX in Hmax. revert next buf out.
  induction fuel as [|fuel IH]; intros next buf out Hn Hs Hb; simpl.
  - intros [= <- <- <-]. split; [lia|]. split; [auto|]. split; [lia|]. split; [auto|].
    exists []. by rewrite !app_nil_r.
  - destruct (bm_lookup next buf) as [[o p]|] eqn:Hl.
    + intros Hd. apply bm_lookup_elem in Hl.
      destruct (Hb _ _ Hl) as (_ & q & Hlog & Hp). simpl in Hlog, Hp.
      pose proof (log_at_Some _ _ _ Hlog) as Hr.
      replace (next +w 1) with (next + 1) in Hd by ulia.
      apply IH in Hd as (Hn' & Hb' & Hrun & Hkeep & X & -> & HX);
        [|lia|by apply bm_sorted_remove|].
      * split; [lia|]. split; [|split; [|split]].
        -- intros k v Hin. destruct (Hb' _ _ Hin) as [[? _]%bm_elem_remove ?]. auto.
        -- intros k Hk. destruct (decide (k = next)) as [->|].
           ++ apply list_elem_of_fmap. by exists (next, (o, p)).
           ++ assert (Hin : k ∈ (bm_remove next buf).*1) by (apply Hrun; lia).
              apply list_elem_of_fmap in Hin as (e & -> & [? _]%bm_elem_remove).
              apply list_elem_of_fmap. eauto.
        -- intros k Hk. destruct (decide (k = next)) as [->|]; [right; lia|]. apply Hkeep.
           apply list_elem_of_fmap in Hk as (e & -> & Hin). apply list_elem_of_fmap.
           exists e. by rewrite bm_elem_remove.
        -- rewrite (expected_step _ _ _ Hlog) in HX. unfold owed in HX. simpl in HX.
           destruct (sequential o); simpl in *; subst p.
           ++ destruct q; [exists X|exists ([mkRecvMsg (b :: q) o] ++ X)];
                rewrite HX, <- ?app_assoc, ?app_nil_l; done.
           ++ exists X. by rewrite HX, app_nil_r.
      * intros k v [Hin Hne]%bm_elem_remove. simpl in Hne.
        destruct (Hb _ _ Hin) as (? & ? & ?). split; [lia|eauto].
    + intros [= <- <- <-]. split; [lia|]. split; [auto|]. split; [lia|]. split; [auto|].
      exists []. by rewrite !app_nil_r.
Qed.

Lemma ordered_app l1 l2 : ordered (l1 ++ l2) = ordered l1 ++ ordered l2.
Proof. apply filter_app. Qed.

(** Owed messages are guaranteed, sequential and non-empty. *)
Lemma ordered_expected log l :
  (∀ e, e ∈ log → guaranteed e.1 = true) → (∃ l0, expected log = l0 ++ l) → ordered l = l.
Proof.
  intros Hg [l0 Hl]. unfold ordered. apply filter_all.
  assert (HF : Forall (λ m, guaranteed (m_options m) && sequential (m_options m) = true
                            ∧ m_payload m ≠ []) (expected log)).
  { apply Forall_forall. intros m Hm. unfold expected in Hm.
    apply list_elem_of_omap in Hm as ([o p] & Hin & Ho). unfold owed in Ho. simpl in Ho.
    specialize (Hg _ Hin). simpl in Hg.
    destruct (sequential o) eqn:Hso; [|done]. destruct p; [done|]. injection Ho as <-. simpl.
    by rewrite Hg, Hso. }
  rewrite Hl in HF. by apply Forall_app in HF as [_ ?].
Qed.

(** ** One datagram *)

Section receive.
Context (log : list (Z * list byte)).
Context (Hmax : Z.of_nat (length log) <= LOG_MAX).
Context (Hlogg : ∀ e, e ∈ log → guaranteed e.1 = true).

Definition contig (r : Receiver) : nat := Z.to_nat (g_next r - 1).
Definition known (r : Receiver) (k : Z) : Prop := k < g_next r ∨ k ∈ (g_buf r).*1.

Definition rx_ok (r : Receiver) : Prop :=
  receiver_wf r ∧ 1 <= g_next r <= Z.of_nat (length log) + 1 ∧
  ∀ k v, (k, v) ∈ g_buf r → buf_entry_ok log (g_next r) k v.

Definition rx_advance (r r' : Receiver) (seq : Z) (msgs : list RecvMsg) : Prop :=
  g_next r <= g_next r' <= Z.of_nat (length log) + 1 ∧
  (∀ k v, (k, v) ∈ g_buf r' → buf_entry_ok log (g_next r') k v) ∧
  expected (take (contig r') log) = expected (take (contig r) log) ++ ordered msgs ∧
  (∀ k, known r' k → known r k ∨ k = seq).

Lemma buf_keys_of r : rx_ok r → ∀ k, k ∈ (g_buf r).*1 → g_next r < k.
Proof.
  intros (Hw & _ & Hb) k (e & -> & Hin)%list_elem_of_fmap. destruct e as [k v]. simpl.
  destruct (Hb _ _ Hin) as [? _]. pose proof (rwf_gap _ Hw) as Hg.
  apply bm_lookup_None in Hg. destruct (decide (k = g_next r)) as [->|]; [|lia].
  destruct Hg. apply list_elem_of_fmap. by exists (g_next r, v).
Qed.

(** The number waited for is not queued, so the queue is also in order after it. *)
Lemma buf_ok_succ r :
  rx_ok r → ∀ k v, (k, v) ∈ g_buf r → buf_entry_ok log (g_next r + 1) k v.
Proof.
  intros Hok k v Hin. pose proof Hok as (_ & _ & Hb).
  destruct (Hb _ _ Hin) as (? & ? & ?). split; [|eauto].
  assert (g_next r < k); [|lia]. apply (buf_keys_of r Hok), list_elem_of_fmap. by exists (k, v).
Qed.

Lemma not_duplicate r seq :
  rx_ok r → 1 <= seq <= Z.of_nat (length log) →
  seq_le seq (g_next r -w 1) || bm_contains seq (g_buf r) = false →
  g_next r <= seq ∧ seq ∉ (g_buf r).*1.
Proof.
  intros (_ & Hn & _) Hq [Hle Hc]%orb_false_iff. unfold LOG_MAX in *.
  rewrite seq_le_near in Hle by ulia. split; [bool_props; ulia|].
  intros Hin. by rewrite (proj2 (bm_contains_true _ _) Hin) in Hc.
Qed.

Lemma in_order_accept r seq options payload next buf out :
  rx_ok r → log_at log seq = Some (options, payload) → sequential options = true →
  seq = g_next r →
  drain (length (g_buf r)) (g_next r +w 1) (g_buf r)
    (match payload with [] => [] | _ => [mkRecvMsg payload options] end) = (next, buf, out) →
  ∀ last seen due ev, rx_advance r (mkReceiver next buf last seen due ev) seq out.
Proof.
  intros Hok Hlog Hso -> Hd last seen due ev. pose proof (buf_ok_succ r Hok) as Hb1.
  destruct Hok as (Hw & Hn & Hb). pose proof (log_at_Some _ _ _ Hlog) as Hr.
  replace (g_next r +w 1) with (g_next r + 1) in Hd by (unfold LOG_MAX in *; ulia).
  pose proof (rwf_sorted _ Hw) as Hs.
  destruct (drain_link log _ (g_next r + 1) _ _ _ _ _ Hmax ltac:(lia) Hs Hb1 Hd)
    as (Hn' & Hb' & Hrun & Hkeep & X & -> & HX).
  rewrite (expected_step _ _ _ Hlog) in HX. unfold owed in HX. simpl in HX.
  rewrite Hso, <- app_assoc in HX.
  assert (Hout : match (match payload with [] => None | _ => Some (mkRecvMsg payload options) end) with
                 | Some m => [m] | None => [] end
                 = match payload with [] => [] | _ => [mkRecvMsg payload options] end)
    by (by destruct payload).
  rewrite Hout in HX. split; [simpl; lia|]. split; [intros k v Hin; by apply Hb'|]. split.
  - unfold contig. simpl. rewrite HX. f_equal. symmetry.
    apply (ordered_expected (take (Z.to_nat (next - 1)) log)); [|by eexists].
    intros e [i [? _]]%elem_of_take. apply Hlogg, list_elem_of_lookup. eauto.
  - intros k [Hk|Hk]; simpl in Hk.
    + destruct (decide (k < g_next r)); [by left; left|].
      destruct (decide (k = g_next r)); [by right|].
      left. right. apply Hrun. lia.
    + left. right. apply list_elem_of_fmap in Hk as ([k0 v] & -> & Hin).
      apply Hb' in Hin as [Hin _]. apply list_elem_of_fmap. by exists (k0, v).
Qed.

Lemma evict_keeps_ok r prev ev buf :
  rx_ok r → ooo_evict (g_buf r) prev = (ev, buf) →
  bm_sorted buf ∧ (∀ e, e ∈ buf → e ∈ g_buf r).
Proof. intros (Hw & _) He. apply ooo_evict_spec in He as (? & ? & _); [done|by destruct Hw]. Qed.

Lemma queue_accept r seq options payload p0 ev buf :
  rx_ok r → log_at log seq = Some (options, payload) → g_next r <= seq →
  p0 = (if sequential options then payload else []) →
  ooo_evict (g_buf r) None = (ev, buf) →
  bm_sorted (bm_insert seq (options, p0) buf) ∧
  (∀ k v, (k, v) ∈ bm_insert seq (options, p0) buf → buf_entry_ok log (g_next r) k v) ∧
  (∀ k, k ∈ (bm_insert seq (options, p0) buf).*1 → k ∈ (g_buf r).*1 ∨ k = seq).
Proof.
  intros Hok Hlog Hq Hp He. destruct (evict_keeps_ok r None ev buf Hok He) as [Hs Hsub].
  destruct Hok as (Hw & Hn & Hb). split; [by apply bm_sorted_insert|]. split.
  - intros k v [[= -> ->]|[Hin _]]%bm_elem_insert; [|by apply Hb, Hsub|done].
    split; [done|]. eauto.
  - intros k (e & -> & Hin)%list_elem_of_fmap.
    apply bm_elem_insert in Hin as [->|[Hin _]]; [by right|left|done].
    apply list_elem_of_fmap. eauto.
Qed.

Lemma on_guaranteed_link r seq options payload now o r' :
  rx_ok r → log_at log seq = Some (options, payload) →
  on_guaranteed r seq options payload now = (o, r') →
  rx_advance r r' seq (outcome_msgs o) ∧
  (sequential options = false → known r' seq →
   known r seq ∨ mkRecvMsg payload options ∈ outcome_msgs o).
Proof.
  intros Hok Hlog. pose proof (log_at_Some _ _ _ Hlog) as Hr.
  assert (Hsame : ∀ due ev, rx_advance r (mkReceiver (g_next r) (g_buf r) (be_last r) (be_seen r)
                   due ev) seq []).
  { destruct Hok as (_ & Hn & Hb). intros. split; [simpl; lia|]. split; [done|]. split.
    - unfold contig. simpl. by rewrite app_nil_r.
    - intros k Hk. by left. }
  unfold on_guaranteed.
  destruct (seq_le _ _ || _) eqn:Hdup.
  { intros [= <- <-]. split; [apply Hsame|]. intros _ Hk. by left. }
  destruct (not_duplicate r seq Hok Hr Hdup) as [Hge Hnk].
  destruct (sequential options) eqn:Hso; [destruct (seq =? g_next r) eqn:Hq|]; bool_props.
  - destruct (drain _ _ _ _) as [[next buf] out] eqn:Hd. intros [= <- <-].
    split; [|done]. by eapply in_order_accept.
  - destruct (ooo_evict _ _) as [ev buf] eqn:He. intros [= <- <-]. split; [|done].
    destruct (queue_accept r seq options payload payload ev buf) as (_ & Hb & Hk); auto.
    { by rewrite Hso. }
    destruct Hok as (_ & Hn & _).
    split; [simpl; lia|]. split; [done|]. split; [unfold contig; simpl; by rewrite app_nil_r|].
    intros k [?|[?|?]%Hk]; [by left; left|by left; right|by right].
  - destruct (ooo_evict _ _) as [ev buf] eqn:He.
    destruct (queue_accept r seq options payload [] ev buf) as (Hs & Hb & Hk); auto.
    { by rewrite Hso. }
    destruct (drain _ _ _ _) as [[next buf2] out] eqn:Hd. intros [= <- <-].
    pose proof Hok as (_ & Hn & _).
    destruct (drain_link log _ _ _ _ _ _ _ Hmax Hn Hs Hb Hd)
      as (Hn' & Hb' & Hrun & Hkeep & X & -> & HX).
    split; [|intros _ _; right; by left].
    split; [simpl; lia|]. split; [intros k v Hin; by apply Hb'|]. split.
    + unfold contig. simpl. rewrite HX. f_equal.
      change (mkRecvMsg payload options :: X) with ([mkRecvMsg payload options] ++ X).
      rewrite ordered_app.
      assert (ordered [mkRecvMsg payload options] = []) as ->.
      { apply filter_none. repeat constructor. simpl. rewrite Hso, andb_false_r. by intros []. }
      symmetry. apply (ordered_expected (take (Z.to_nat (next - 1)) log)); [|by eexists].
      intros e [i [? _]]%elem_of_take. apply Hlogg, list_elem_of_lookup. eauto.
    + intros k [Hk'|Hk']; simpl in Hk'.
      * destruct (decide (k < g_next r)); [by left; left|].
        destruct (Hk k); [apply Hrun; lia|by left; right|by right].
      * apply list_elem_of_fmap in Hk' as ([k0 v] & -> & Hin). apply Hb' in Hin as [Hin _].
        destruct (Hk k0); [apply list_elem_of_fmap; by exists (k0, v)|by left; right|by right].
Qed.

Lemma head_accepted r options payload now o r' :
  rx_ok r → guaranteed options = true → log_at log (g_next r) = Some (options, payload) →
  on_message r (g_next r) options payload now = (o, r') →
  (∃ msgs, o = Delivered msgs ∧ (payload ≠ [] → mkRecvMsg payload options ∈ msgs)) ∧
  g_next r < g_next r'.
Proof.
  intros Hok Hg Hlog. pose proof (log_at_Some _ _ _ Hlog) as Hr.
  set (r0 := mkReceiver (g_next r) (g_buf r) (be_last r) (be_seen r) (ack_due_at r) None).
  assert (Hok0 : rx_ok r0) by (destruct Hok as ([] & ? & ?); by split).
  pose proof Hok0 as (Hw & Hn & Hb). unfold LOG_MAX in Hmax.
  unfold on_message. fold r0. rewrite Hg. cbn [negb PARTY_RELIABLE orb].
  rewrite (proj2 (Z.eqb_neq (g_next r) 0)) by lia. unfold on_guaranteed.
  assert (seq_le (g_next r) (g_next r0 -w 1) || bm_contains (g_next r) (g_buf r0) = false) as ->.
  { pose proof (rwf_gap _ Hw) as Hgap. apply orb_false_iff. split.
    - cbn. rewrite seq_le_near by ulia. apply Z.leb_gt. ulia.
    - unfold bm_contains. cbn in *. by rewrite Hgap. }
  destruct (sequential options) eqn:Hso.
  - rewrite Z.eqb_refl. destruct (drain _ _ _ _) as [[next buf] out] eqn:Hd. intros [= <- <-].
    cbn [g_next r0] in *. replace (g_next r +w 1) with (g_next r + 1) in Hd by ulia.
    destruct (drain_link log _ (g_next r + 1) _ _ _ _ _ Hmax ltac:(lia) (rwf_sorted _ Hw)
                (buf_ok_succ _ Hok0) Hd) as (Hn' & _ & _ & _ & X & -> & _).
    split; [|cbn; lia]. eexists. split; [done|]. intros Hne. by destruct payload; [|left].
  - destruct (ooo_evict _ _) as [ev buf] eqn:He.
    destruct (queue_accept r0 (g_next r) options payload [] ev buf) as (Hs & Hb' & Hk); auto.
    { cbn. lia. }
    { by rewrite Hso. }
    destruct (drain _ _ _ _) as [[next buf2] out] eqn:Hd. intros [= <- <-].
    destruct (drain_link log _ _ _ _ _ _ _ Hmax Hn Hs Hb' Hd)
      as (Hn' & _ & _ & Hkeep & X & -> & HX).
    split; [eexists; split; [done|left]|]. cbn in *.
    destruct (drain_bounds _ _ _ _ _ _ _ Hs Hd) as (_ & _ & _ & Hgap). specialize (Hgap ltac:(done)).
    apply bm_lookup_None in Hgap.
    destruct (Hkeep (g_next r)); [|destruct (decide (next = g_next r)); [congruence|lia]|lia].
    apply list_elem_of_fmap. exists (g_next r, (options, [])). split; [done|].
    apply bm_elem_insert; [|by left]. by destruct (evict_keeps_ok r0 None ev buf Hok0 He).
Qed.
End receive.

(** ** Preservation *)

Lemma link_rx_ok L : link_inv L → rx_ok (l_log L) (l_rx L).
Proof. intros []. by split. Qed.

Lemma buf_entry_ok_snoc log x next k v :
  buf_entry_ok log next k v → buf_entry_ok (log ++ [x]) next k v.
Proof. intros (? & p & ? & ?). split; [done|]. exists p. eauto using log_at_app. Qed.

(** Growing the log at its end disturbs nothing the receiver has accounted for. *)
Lemma expected_take_snoc log x n :
  (n ≤ length log)%nat → expected (take n (log ++ [x])) = expected (take n log).
Proof. intros. by rewrite take_app_le. Qed.

Lemma log_at_snoc_inv log x k e :
  log_at (log ++ [x]) k = Some e →
  log_at log k = Some e ∨ k = Z.of_nat (length log) + 1 ∧ e = x.
Proof.
  intros Hl. pose proof (log_at_Some _ _ _ Hl) as Hr. rewrite length_app in Hr. simpl in Hr.
  destruct (decide (k = Z.of_nat (length log) + 1)) as [->|].
  - rewrite log_at_snoc in Hl. injection Hl as <-. by right.
  - left. unfold log_at in *. case_if; [|done]. by rewrite lookup_app_l in Hl by lia.
Qed.

Lemma send_guaranteed s payload options now out s' :
  guaranteed options = true → send s payload options now = (out, s') →
  bm_sorted (pending s) →
  o_seq out = next_gseq s ∧ o_options out = options ∧ o_payload out = payload ∧
  next_gseq s' = next_gseq s +w 1 ∧ bm_sorted (pending s') ∧
  (∀ k p, (k, p) ∈ pending s' →
     k = next_gseq s ∧ p = fresh_pending payload options now ∨ (k, p) ∈ pending s) ∧
  next_gseq s ∈ (pending s').*1 ∧
  (∀ k, k ∈ (pending s).*1 → k ∈ (pending s').*1 ∨ k ∈ evicted_seq out).
Proof.
  intros Hg. unfold send. rewrite Hg. simpl negb. cbv iota.
  destruct (send_evict (pending s)) as [ev m] eqn:He. intros [= <- <-] Hs.
  apply send_evict_spec in He as (Hs' & _ & Hm); [|done]. simpl.
  do 4 (split; [done|]). split; [by apply bm_sorted_insert|]. split; [|split].
  - intros k p [[= -> ->]|[Hin _]]%bm_elem_insert; [by left|right|done].
    destruct ev as [[k0 o]|]; [|by subst]. destruct Hm as (? & -> & _). by right.
  - apply list_elem_of_fmap. exists (next_gseq s, fresh_pending payload options now).
    split; [done|]. apply bm_elem_insert; auto.
  - intros k Hk. assert (Hm' : k ∈ m.*1 ∨ k ∈ evicted_seq (mkOutgoing (next_gseq s) payload options ev)).
    { destruct ev as [[k0 o]|]; [|subst; by left]. destruct Hm as (? & Heq & _). rewrite Heq in Hk.
      apply elem_of_cons in Hk as [->|?]; [right; left|by left]. }
    destruct Hm' as [Hin|]; [left|by right].
    destruct (decide (k = next_gseq s)) as [->|].
    + apply list_elem_of_fmap. exists (next_gseq s, fresh_pending payload options now).
      split; [done|]. apply bm_elem_insert; auto.
    + apply list_elem_of_fmap in Hin as (e & -> & Hin). apply list_elem_of_fmap. exists e.
      split; [done|]. apply bm_elem_insert; auto.
Qed.

Lemma send_best_effort s payload options now out s' :
  guaranteed options = false → send s payload options now = (out, s') →
  o_options out = options ∧ pending s' = pending s ∧ next_gseq s' = next_gseq s ∧
  evicted_seq out = [].
Proof. intros Hg. unfold send. rewrite Hg. simpl. case_if; by intros [= <- <-]. Qed.

Lemma link_send_inv tx rx data acks log ev del payload options now out tx' :
  send tx payload options now = (out, tx') → guaranteed options = true →
  Z.of_nat (length (log ++ [(options, payload)])) <= LOG_MAX →
  link_inv (mkLink tx rx data acks log ev del) →
  link_inv (mkLink tx' rx ((o_seq out, o_options out, o_payload out) :: data) acks
    (log ++ [(options, payload)]) (evicted_seq out ++ ev) del).
Proof.
  intros Hsend Hg Hmax [Hs Hgs Hl Hd Hp Hrx Hn Hb Ha Hk Ho Hh]. cbn in *.
  rewrite length_app in Hmax. cbn in Hmax. unfold LOG_MAX in Hmax.
  destruct (send_guaranteed _ _ _ _ _ _ Hg Hsend Hs)
    as (-> & -> & -> & Hgs' & Hs' & Hp' & Hself & Hev).
  rewrite Hgs in *. split; cbn; rewrite ?length_app; cbn; auto.
  - rewrite Hgs'. ulia.
  - intros e [?| ->%list_elem_of_singleton]%elem_of_app; auto.
  - intros s o p [[= -> -> ->]|Hin]%elem_of_cons Hgo; [apply log_at_snoc|].
    apply log_at_app. eauto.
  - intros k p [[-> ->]|Hin]%Hp'; [apply log_at_snoc|]. apply log_at_app. eauto.
  - lia.
  - intros k v Hin. apply buf_entry_ok_snoc. eauto.
  - intros k Hkr. destruct (decide (k = Z.of_nat (length log) + 1)) as [->|]; [by left|].
    destruct (Hk k) as [Hin|[?|?]]; [lia| |rewrite elem_of_app; auto|auto].
    destruct (Hev _ Hin); rewrite elem_of_app; auto.
  - unfold contiguous in *. cbn in *. rewrite expected_take_snoc by lia. done.
  - intros k o p [Hlk|[-> [= -> ->]]]%log_at_snoc_inv Hso Hkn; [eauto|exfalso].
    destruct Hkn as [|(e & Heq & Hin)%list_elem_of_fmap]; [lia|].
    destruct e as [k v]. destruct (Hb _ _ Hin) as (_ & q & Hq%log_at_Some & _). cbn in *. lia.
Qed.

Lemma link_due_inv tx rx data acks log ev del now evs tx' :
  due tx now = (evs, tx') →
  link_inv (mkLink tx rx data acks log ev del) →
  link_inv (mkLink tx' rx (resend_datagrams evs ++ data) acks log ev del).
Proof.
  unfold due. simpl negb. cbv iota. destruct (due_loop now (pending tx)) as [m evs1] eqn:Hl.
  intros [= <- <-] [Hs Hgs Hlg Hd Hp Hrx Hn Hb Ha Hk Ho Hh]. cbn in *.
  apply due_loop_spec in Hl as (Hkeys & Hm & He).
  split; cbn; auto.
  - unfold bm_sorted in *. by rewrite Hkeys.
  - intros s o p [Hin|?]%elem_of_app Hgo; [|eauto].
    unfold resend_datagrams in Hin. apply list_elem_of_In, in_map_iff in Hin as (e & [= <- <- <-] & Hin).
    apply list_elem_of_In, list_elem_of_filter in Hin as [Hgu Hin].
    destruct (He _ Hin) as (q & q' & Hq & Hst).
    destruct (due_step_fields _ _ _ _ _ Hst) as (_ & _ & _ & -> & Hpl).
    rewrite (Hpl Hgu). eauto.
  - intros k p' (p & ev' & Hin & Hst)%Hm.
    destruct (due_step_fields _ _ _ _ _ Hst) as (-> & -> & _). eauto.
  - intros k Hr. rewrite Hkeys. auto.
Qed.

Lemma link_recv_inv tx rx data acks log ev del seq options payload now o rx' :
  Z.of_nat (length log) <= LOG_MAX →
  (seq, options, payload) ∈ data → on_message rx seq options payload now = (o, rx') →
  link_inv (mkLink tx rx data acks log ev del) →
  link_inv (mkLink tx rx' data acks log ev (del ++ outcome_msgs o)).
Proof.
  intros Hmax Hin Hon HL. pose proof (link_rx_ok _ HL) as Hok.
  destruct HL as [Hs Hgs Hlg Hd Hp Hrx Hn Hb Ha Hk Ho Hh]. cbn in *.
  set (rx0 := mkReceiver (g_next rx) (g_buf rx) (be_last rx) (be_seen rx) (ack_due_at rx) None).
  destruct (guaranteed options) eqn:Hg.
  - pose proof (Hd _ _ _ Hin Hg) as Hlog. pose proof (log_at_Some _ _ _ Hlog) as Hq.
    unfold on_message in Hon. fold rx0 in Hon. rewrite Hg in Hon. simpl in Hon.
    rewrite (proj2 (Z.eqb_neq seq 0)) in Hon by lia.
    assert (Hok0 : rx_ok log rx0) by (destruct Hok as ([] & ? & ?); by split).
    assert (Hwf' : receiver_wf rx').
    { replace rx' with (on_guaranteed rx0 seq options payload now).2 by (by rewrite Hon).
      unfold LOG_MAX in *. apply on_guaranteed_wf; [ulia|lia|by destruct Hok0]. }
    destruct (on_guaranteed_link log Hmax Hlg _ _ _ _ _ _ _ Hok0 Hlog Hon)
      as [(Hn' & Hb' & Hexp & Hkn) Hns].
    split; cbn; auto; [cbn in Hn'; lia| | | |].
    + intros a Hain. specialize (Ha _ Hain). cbn in Hn'. lia.
    + intros k Hr. destruct (Hk _ Hr) as [?|[?|?]]; auto. right; right. cbn in Hn'. lia.
    + rewrite ordered_app, Ho. unfold contiguous, contig in *. cbn in *. by rewrite Hexp.
    + intros k o0 p Hlk Hso Hkk. apply elem_of_app.
      destruct (Hkn k Hkk) as [Hold| ->]; [left; eauto|].
      rewrite Hlog in Hlk. injection Hlk as <- <-.
      destruct (Hns Hso Hkk) as [Hold|?]; [left; eauto|by right].
  - assert (Hord : ordered (outcome_msgs o) = []
                   ∧ g_next rx' = g_next rx ∧ g_buf rx' = g_buf rx).
    { unfold on_message in Hon. rewrite Hg in Hon. simpl in Hon.
      assert (ordered [mkRecvMsg payload options] = []).
      { apply filter_none. repeat constructor. simpl. rewrite Hg. by intros []. }
      by repeat case_if_in Hon; simplify_eq/=. }
    destruct Hord as (Hord & Hnx & Hbf).
    assert (Hwf' : receiver_wf rx').
    { destruct Hrx. split; rewrite ?Hnx, ?Hbf; done. }
    split; cbn; auto; unfold contiguous in *; cbn in *; rewrite ?Hnx, ?Hbf; auto.
    + by rewrite ordered_app, Hord, app_nil_r.
    + intros k o0 p Hlk Hso Hkk. apply elem_of_app. left. eauto.
Qed.

(** An acknowledgement going out changes nothing else. *)
Lemma link_emit_ack_inv tx rx data acks log ev del :
  Z.of_nat (length log) <= LOG_MAX →
  link_inv (mkLink tx rx data acks log ev del) →
  link_inv (mkLink tx (clear_ack rx) data (ack_value rx :: acks) log ev del).
Proof.
  intros Hmax [Hs Hgs Hlg Hd Hp Hrx Hn Hb Ha Hk Ho Hh]. cbn in *. unfold LOG_MAX in *.
  split; cbn; auto.
  - destruct Hrx. by split.
  - intros a [->|?]%elem_of_cons; [|auto]. unfold ack_value. ulia.
Qed.

Lemma on_ack_pending s a :
  bm_sorted (pending s) →
  ∃ pre, pending s = pre ++ pending (on_ack s a).2 ∧
    Forall (λ e, seq_le e.1 a = true) pre ∧ next_gseq (on_ack s a).2 = next_gseq s.
Proof.
  intros Hs. unfold on_ack. destruct (on_ack_loop _ _ _ _) as [cl m] eqn:Hl.
  apply on_ack_loop_spec in Hl as (pre & ? & _ & ? & _); [|done|done]. by exists pre.
Qed.

Lemma link_ack_inv tx rx data acks log ev del a :
  Z.of_nat (length log) <= LOG_MAX → a ∈ acks →
  link_inv (mkLink tx rx data acks log ev del) →
  link_inv (mkLink (on_ack tx a).2 rx data acks log ev del).
Proof.
  intros Hmax Hin [Hs Hgs Hlg Hd Hp Hrx Hn Hb Ha Hk Ho Hh]. cbn in *.
  destruct (on_ack_pending tx a Hs) as (pre & Hpre & Hle & Hgn).
  assert (Hsub : ∀ e, e ∈ pending (on_ack tx a).2 → e ∈ pending tx).
  { intros e ?. rewrite Hpre. apply elem_of_app. by right. }
  split; cbn; auto; [|lia|].
  - rewrite Hpre in Hs. clear -Hs. induction pre as [|e pre IH]; [done|].
    apply IH. by apply bm_sorted_cons in Hs as [_ ?].
  - intros k Hr. destruct (Hk k Hr) as [Hkp|[?|?]]; auto. rewrite Hpre, fmap_app in Hkp.
    apply elem_of_app in Hkp as [Hkp|]; [|by left].
    apply list_elem_of_fmap in Hkp as ([k0 p] & -> & Hkp). rewrite Forall_forall in Hle.
    specialize (Hle _ Hkp). specialize (Ha _ Hin). cbn in *. unfold LOG_MAX in *.
    assert (Hlk : (k0, p) ∈ pending tx) by (rewrite Hpre; apply elem_of_app; by left).
    apply Hp, log_at_Some in Hlk. rewrite seq_le_near in Hle by ulia. bool_props.
    right; right. lia.
Qed.

Lemma link_step_inv L L' :
  link_step L L' → Z.of_nat (length (l_log L')) <= LOG_MAX → link_inv L → link_inv L'.
Proof.
  destruct 1 as [?????????? out ? Hsend| |  | ??????? a ? Hpb| ???????? a ? Hf|]; cbn; intros Hmax HL.
  - destruct (guaranteed options) eqn:Hg; [by eapply link_send_inv|].
    destruct (send_best_effort _ _ _ _ _ _ Hg Hsend) as (Hopt & Hp & Hgn & ->).
    destruct HL. split; cbn in *; rewrite ?Hp, ?Hgn; auto.
    intros s o p [[= -> -> ->]|?]%elem_of_cons Hgo; [congruence|eauto].
  - by eapply link_due_inv.
  - by eapply link_recv_inv.
  - injection Hpb as <- <-. by apply link_emit_ack_inv.
  - unfold forced_ack in Hf. destruct (ack_due_at rx); [|done]. case_if_in Hf; [|done].
    injection Hf as <- <-. by apply link_emit_ack_inv.
  - by eapply link_ack_inv.
Qed.

Lemma link_step_log L L' : link_step L L' → ∃ ext, l_log L' = l_log L ++ ext.
Proof.
  destruct 1 as [?????????? out ? Hsend| | | | |]; cbn; try (exists []; by rewrite app_nil_r).
  destruct (guaranteed options); [by eexists|exists []; by rewrite app_nil_r].
Qed.

Lemma link_run_inv L L' :
  rtc link_step L L' → Z.of_nat (length (l_log L')) <= LOG_MAX → link_inv L → link_inv L'.
Proof.
  intros Hr. induction Hr as [|L1 L2 L3 Hst Hr IH]; [done|].
  intros Hmax HL. apply IH; [done|]. apply (link_step_inv L1); [done| |done].
  clear -Hr Hmax. induction Hr as [|L1 L2 L3 Hst Hr IH]; [done|].
  destruct (link_step_log _ _ Hst) as [ext Heq]. specialize (IH Hmax).
  rewrite Heq, length_app in IH. lia.
Qed.

Lemma link_reachable_inv L :
  rtc link_step link_init L → Z.of_nat (length (l_log L)) <= LOG_MAX → link_inv L.
Proof. eauto using link_run_inv, link_inv_init. Qed.

(** ** The abstract channel *)

(** A FIFO channel: what was put in, and the prefix of it taken out. *)
Record Chan := mkChan { ch_sent : list RecvMsg; ch_got : list RecvMsg }.

Inductive chan_step : Chan → Chan → Prop :=
  | cs_send sent got m : chan_step (mkChan sent got) (mkChan (sent ++ [m]) got)
  | cs_recv sent got m :
      sent !! length got = Some m → chan_step (mkChan sent got) (mkChan sent (got ++ [m])).

Definition chan_of (L : Link) : Chan := mkChan (expected (l_log L)) (ordered (l_delivered L)).

Lemma chan_recv_run sent got X :
  got ++ X `prefix_of` sent → rtc chan_step (mkChan sent got) (mkChan sent (got ++ X)).
Proof.
  revert got. induction X as [|m X IH]; intros got Hp.
  - rewrite app_nil_r. apply rtc_refl.
  - eapply rtc_l; [apply (cs_recv _ _ m)|].
    + destruct Hp as [k ->]. rewrite <- app_assoc, lookup_app_r, Nat.sub_diag by done. done.
    + replace (got ++ m :: X) with ((got ++ [m]) ++ X) in * by (by rewrite <- app_assoc).
      by apply IH.
Qed.

Lemma link_prefix L : link_inv L → ordered (l_delivered L) `prefix_of` expected (l_log L).
Proof.
  intros HL. rewrite (li_ordered _ HL). exists (expected (drop (contiguous L) (l_log L))).
  unfold expected. by rewrite <- omap_app, take_drop.
Qed.

Lemma link_step_delivered L L' : link_step L L' → ∃ X, ordered (l_delivered L') = ordered (l_delivered L) ++ X.
Proof.
  destruct 1; cbn; try (exists []; by rewrite app_nil_r). eexists. apply ordered_app.
Qed.

(** ** Properties *)

(** C1: in-order, exactly-once delivery. Over a network that loses, duplicates and reorders, and
    whatever the timing, the guaranteed sequential messages the application has received are
    exactly the first ones it was sent: the non-empty ones among the messages below [g_next], in
    order, none twice and none skipped (for up to [LOG_MAX] guaranteed messages). *)
Theorem ordered_exactly_once L :
  rtc link_step link_init L → Z.of_nat (length (l_log L)) <= LOG_MAX →
  ordered (l_delivered L) = expected (take (contiguous L) (l_log L)).
Proof. intros. by apply li_ordered, link_reachable_inv. Qed.

(** The run used by the witnesses: two sends, the second datagram arrives first, then the first
    one arrives twice. *)
Definition demo_tx : Sender := (send (send Sender_new [x01] 3 0).2 [x02] 3 1).2.
Definition demo_rx : Receiver :=
  (on_message (on_message (on_message Receiver_new 2 3 [x02] 5).2 1 3 [x01] 6).2 1 3 [x01] 7).2.
Definition demo_data : list (Z * Z * list byte) := [(2, 3, [x02]); (1, 3, [x01])].
Definition demo_link : Link :=
  mkLink demo_tx demo_rx demo_data [] [(3, [x01]); (3, [x02])] []
    [mkRecvMsg [x01] 3; mkRecvMsg [x02] 3].

Lemma demo_reachable : rtc link_step link_init demo_link.
Proof.
  eapply rtc_l; [by eapply (ls_send Sender_new Receiver_new [] [] [] [] [] [x01] 3 0)|].
  eapply rtc_l; [by eapply (ls_send _ _ _ _ _ _ _ [x02] 3 1)|].
  eapply rtc_l; [eapply (ls_recv _ _ _ _ _ _ _ 2 3 [x02] 5); [left|reflexivity]|].
  eapply rtc_l; [eapply (ls_recv _ _ _ _ _ _ _ 1 3 [x01] 6); [right; left|reflexivity]|].
  eapply rtc_l; [eapply (ls_recv _ _ _ _ _ _ _ 1 3 [x01] 7); [right; left|reflexivity]|].
  apply rtc_refl.
Qed.

Lemma ordered_exactly_once_witness :
  ordered (l_delivered demo_link) = expected (take (contiguous demo_link) (l_log demo_link)).
Proof. apply ordered_exactly_once; [apply demo_reachable|vm_compute; congruence]. Defined.

(** C20: refinement. Every step of the lossy link is, on the guaranteed sequential traffic, a run
    of a perfect FIFO channel: at most one message enters it and the messages delivered leave it in
    the order they entered. *)
Theorem link_refines_fifo L L' :
  rtc link_step link_init L → link_step L L' → Z.of_nat (length (l_log L')) <= LOG_MAX →
  rtc chan_step (chan_of L) (chan_of L').
Proof.
  intros Hr Hst Hmax. destruct (link_step_log _ _ Hst) as [ext Hlog].
  assert (HL' : link_inv L') by (apply link_reachable_inv; [by eapply rtc_r|done]).
  destruct (link_step_delivered _ _ Hst) as [X HX].
  pose proof (link_prefix _ HL') as Hp. unfold chan_of. rewrite HX in *.
  etrans; [|by apply chan_recv_run]. clear -Hlog. rewrite Hlog.
  unfold expected. rewrite omap_app. fold (expected (l_log L)). fold (expected ext).
  generalize (expected (l_log L)). induction (expected ext) as [|m l IH]; intros sent.
  - rewrite app_nil_r. apply rtc_refl.
  - eapply rtc_l; [apply (cs_send _ _ m)|].
    replace (sent ++ m :: l) with ((sent ++ [m]) ++ l) by (by rewrite <- app_assoc). apply IH.
Qed.

Lemma link_refines_fifo_witness :
  rtc chan_step (chan_of demo_link)
    (chan_of (mkLink demo_tx demo_rx demo_data [] [(3, [x01]); (3, [x02])] []
                ([mkRecvMsg [x01] 3; mkRecvMsg [x02] 3] ++ []))).
Proof.
  eapply (link_refines_fifo demo_link); [apply demo_reachable| |vm_compute; congruence].
  apply (ls_recv demo_tx demo_rx demo_data [] [(3, [x01]); (3, [x02])] [] _ 1 3 [x01] 9
           DroppedDuplicate demo_rx); [right; left|reflexivity].
Defined.

(** C2: nothing guaranteed is lost silently. Every guaranteed message ever sent is still held by
    the sender for retransmission, was evicted by it (reported to the caller), or has reached the
    receiver; and once nothing is held or evicted the application has received every sequential
    one, in order, and every non-sequential one. *)
Theorem guaranteed_never_lost L :
  rtc link_step link_init L → Z.of_nat (length (l_log L)) <= LOG_MAX →
  (∀ k, 1 <= k <= Z.of_nat (length (l_log L)) →
    k ∈ (pending (l_tx L)).*1 ∨ k ∈ l_evicted L ∨ k < g_next (l_rx L)) ∧
  (pending (l_tx L) = [] → l_evicted L = [] →
    ordered (l_delivered L) = expected (l_log L) ∧
    ∀ o p, (o, p) ∈ l_log L → sequential o = false → mkRecvMsg p o ∈ l_delivered L).
Proof.
  intros Hr Hm. pose proof (link_reachable_inv _ Hr Hm) as HL. split; [apply (li_kept _ HL)|].
  intros Hp He.
  assert (Hall : ∀ k, 1 <= k <= Z.of_nat (length (l_log L)) → k < g_next (l_rx L)).
  { intros k Hk. destruct (li_kept _ HL k Hk) as [Hin|[Hin|]]; [..|done].
    - rewrite Hp in Hin. by apply elem_of_nil in Hin.
    - rewrite He in Hin. by apply elem_of_nil in Hin. }
  pose proof (li_next _ HL) as Hn. split.
  - rewrite (li_ordered _ HL). unfold contiguous. f_equal. apply take_ge.
    destruct (l_log L) as [|e l] eqn:Hl; [simpl; lia|]. rewrite <- Hl in *.
    specialize (Hall (Z.of_nat (length (l_log L)))).
    assert (0 < length (l_log L))%nat by (rewrite Hl; simpl; lia). lia.
  - intros o p (i & Hi)%list_elem_of_lookup Hso.
    pose proof (lookup_lt_Some _ _ _ Hi) as Hlt.
    apply (li_handed _ HL (Z.of_nat i + 1)); [|done|left; apply Hall; lia].
    unfold log_at. case_if; [|lia]. by replace (Z.to_nat _) with i by lia.
Qed.

Lemma guaranteed_never_lost_witness :
  let L := mkLink (on_ack demo_tx 2).2 (clear_ack demo_rx) demo_data [2]
             [(3, [x01]); (3, [x02])] [] [mkRecvMsg [x01] 3; mkRecvMsg [x02] 3] in
  ordered (l_delivered L) = expected (l_log L).
Proof.
  refine (proj1 (proj2 (guaranteed_never_lost _ _ _) _ _)); try reflexivity; [|vm_compute; congruence].
  etrans; [apply demo_reachable|].
  eapply rtc_l; [by eapply (ls_piggyback demo_tx demo_rx)|].
  eapply rtc_l; [eapply (ls_ack _ _ _ _ _ _ _ 2); [left|done]|]. apply rtc_refl.
Defined.

(** head-of-line progress. Whatever the receiver has queued, a datagram carrying the sequence
    number it waits for is never dropped or queued: it is delivered and the contiguous prefix
    grows, so each successful retransmission of the oldest message advances the link. *)
Theorem head_of_line_progress L options payload now o rx' :
  rtc link_step link_init L → Z.of_nat (length (l_log L)) <= LOG_MAX →
  guaranteed options = true → (g_next (l_rx L), options, payload) ∈ l_data L →
  on_message (l_rx L) (g_next (l_rx L)) options payload now = (o, rx') →
  (∃ msgs, o = Delivered msgs ∧ (payload ≠ [] → mkRecvMsg payload options ∈ msgs)) ∧
  g_next (l_rx L) < g_next rx'.
Proof.
  intros Hr Hm Hg Hin Hon. pose proof (link_reachable_inv _ Hr Hm) as HL.
  apply (head_accepted (l_log L) Hm (l_rx L) options payload now); auto using link_rx_ok.
  by apply (li_data _ HL).
Qed.

Lemma head_of_line_progress_witness :
  let rx := (on_message Receiver_new 2 3 [x02] 5).2 in
  (∃ msgs, (on_message rx 1 3 [x01] 6).1 = Delivered msgs ∧ ([x01] ≠ [] → mkRecvMsg [x01] 3 ∈ msgs)) ∧
  1 < g_next (on_message rx 1 3 [x01] 6).2.
Proof.
  set (rx := (on_message Receiver_new 2 3 [x02] 5).2).
  apply (head_of_line_progress
    (mkLink demo_tx rx demo_data [] [(3, [x01]); (3, [x02])] [] []) 3 [x01] 6);
    [|vm_compute; congruence|reflexivity|right; left|reflexivity].
  eapply rtc_l; [by eapply (ls_send Sender_new Receiver_new [] [] [] [] [] [x01] 3 0)|].
  eapply rtc_l; [by eapply (ls_send _ _ _ _ _ _ _ [x02] 3 1)|].
  eapply rtc_l; [eapply (ls_recv _ _ _ _ _ _ _ 2 3 [x02] 5); [left|reflexivity]|]. apply rtc_refl.
Defined.
