(* ===== verification/Wire.v ===== *)
(** * Wire format: [party-shim/src/wire.rs]

    The UDP datagram of the Party transport: header packing and parsing, the
    printable views of a datagram, and the LAN1 descriptor text.  A buffer is a
    [list byte]; offsets and lengths are [nat], header words [u32] values. *)

From S2P Require Import Prelude RustStr.
#[local] Open Scope Z_scope.

(** ** Layout *)

Definition MAGIC : list byte := [x47; x42; x46; x52].
Definition KIND_HELLO : Z := 1.
Definition KIND_MSG : Z := 2.
Definition KIND_ACK : Z := 3.

Definition HDR_LEN : nat := 60.
Definition HDR_LEN_LEGACY : nat := 56.
Definition HDR_VERSION : Z := 3.
Definition HDR_VERSION_LEGACY : Z := 2.
Definition HDR_ACK_OFF : nat := 56.

Definition NET_ID_OFF : nat := 8.
Definition NET_ID_LEN : nat := 16.
Definition ENT_OFF : nat := 24.
Definition ENT_LEN : nat := 21.
Definition PAYLOAD_LEN_OFF : nat := 44.
Definition OPTIONS_OFF : nat := 48.
Definition SEQ_OFF : nat := 52.

Definition MAX_PAYLOAD : Z := 64 * 1024.

Inductive ParseError := TooShort | BadMagic | BadVersion | BadPayloadLen.

#[export] Instance ParseError_eq_dec : EqDecision ParseError.
Proof. solve_decision. Defined.

Record Parsed := mkParsed {
  kind : Z;
  payload_len : Z;
  options : Z;
  seq : Z;
  ack : Z;
}.

#[export] Instance Parsed_eq_dec : EqDecision Parsed.
Proof. solve_decision. Defined.

Definition header_len (reliable : bool) : nat := if reliable then HDR_LEN else HDR_LEN_LEGACY.
Definition version (reliable : bool) : Z := if reliable then HDR_VERSION else HDR_VERSION_LEGACY.

(** ** Packing *)

Definition packet (net_id : string) (local_ent : list byte) (kind options seq ack : Z)
    (payload : list byte) (reliable : bool) : list byte :=
  let hdr := header_len reliable in
  let pkt := replicate (hdr + length payload) x00 in
  let pkt := write_at 0 MAGIC pkt in
  let pkt := write_at 4 [zb kind] pkt in
  let pkt := write_at 5 [zb (version reliable)] pkt in
  let ib := sbytes net_id in
  let pkt := write_at NET_ID_OFF (take (length ib `min` NET_ID_LEN) ib) pkt in
  let pkt := write_at ENT_OFF (take (length local_ent `min` (ENT_LEN - 1)) local_ent) pkt in
  let pkt := write_at PAYLOAD_LEN_OFF (to_le 4 (Z.of_nat (length payload))) pkt in
  let pkt := write_at OPTIONS_OFF (to_le 4 options) pkt in
  let pkt := write_at SEQ_OFF (to_le 4 seq) pkt in
  let pkt := if reliable then write_at HDR_ACK_OFF (to_le 4 ack) pkt else pkt in
  write_at hdr payload pkt.

(** ** Parsing *)

Definition u32le (data : list byte) (off : nat) : option Z :=
  from_le <$> slice_get off (off + 4) data.

(** [hdr + payload_len] is a [usize] sum: at most 60 + 65536 here. *)
Definition parse (buf : list byte) (reliable : bool) : result Parsed ParseError :=
  let hdr := header_len reliable in
  if (length buf <? hdr)%nat then Err TooShort
  else if negb (bool_decide (slice 0 4 buf = MAGIC)) then Err BadMagic
  else if negb (bool_decide (slice 5 1 buf = [zb (version reliable)])) then Err BadVersion
  else match u32le buf PAYLOAD_LEN_OFF with
       | None => Err TooShort
       | Some payload_len =>
           if (MAX_PAYLOAD <? payload_len)
              || (Z.of_nat (length buf) <? Z.of_nat hdr + payload_len)
           then Err BadPayloadLen
           else Ok (mkParsed (from_le (slice 4 1 buf)) payload_len
                      (default 0 (u32le buf OPTIONS_OFF))
                      (default 0 (u32le buf SEQ_OFF))
                      (if reliable then default 0 (u32le buf HDR_ACK_OFF) else 0))
       end.

(** The NUL-padded field [off..off + len], up to its first NUL. *)
Definition until_nul (raw : list byte) : list byte :=
  take (default (length raw) (position (λ b, bz b =? 0) raw)) raw.

Definition entity (buf : list byte) : string :=
  from_utf8_lossy (until_nul (default [] (slice_get ENT_OFF (ENT_OFF + ENT_LEN - 1) buf))).
Definition network_id (buf : list byte) : string :=
  from_utf8_lossy (until_nul (default [] (slice_get NET_ID_OFF (NET_ID_OFF + NET_ID_LEN) buf))).

(** ** Printable views *)

Definition hex_preview (data : list byte) (n : nat) : string :=
  join " " (map (λ b, bstr (hex_fixed 2 (bz b))) (take n data)).

Definition truncate_log (s : string) (n : nat) : string :=
  if (length (chars (sbytes s)) <=? n)%nat then s
  else bstr (concat (take n (chars (sbytes s)))).

Definition payload_hints (data : list byte) : string :=
  let len := Z.of_nat (length data) in
  let tag_op := match u32le data 0 with
    | Some op => ("op=" +:+ fmt_dec op)%string :: (if op =? 2 then ["dispatch"%string] else [])
    | None => [] end in
  let tag_sub := match u32le data 4 with
    | Some sub => [("sub=" +:+ fmt_dec sub)%string] | None => [] end in
  let tag_slot := match u32le data 16 with
    | Some slot =>
        (if slot <=? 3 then [("dword@+10=" +:+ fmt_dec slot)%string] else [])
        ++ (if slot =? 4 then ["WATCH_4 dword@+10=4"%string] else [])
    | None => [] end in
  let tag_chara := if (764 <=? len) && (len <? 764 + 48) then ["sz~0x2FC_chara"%string] else [] in
  let tag_cpu := if (20 + 764 <=? len) && (len <? 20 + 764 + 48) then ["sz~cpu_chara"%string] else [] in
  join " " (tag_op ++ tag_sub ++ tag_slot ++ tag_chara ++ tag_cpu).

Definition is_chara_snapshot (op len : Z) : bool := (op =? 2) && (600 <=? len).

(** ** Addresses *)

(** An IPv4 address: four [u8] octets. *)
Definition ipv4 : Type := Z * Z * Z * Z.

Definition ip_string (ip : ipv4) : string :=
  let '(a, b, c, d) := ip in
  (fmt_dec a +:+ "." +:+ fmt_dec b +:+ "." +:+ fmt_dec c +:+ "." +:+ fmt_dec d)%string.

Definition is_loopback_ip (s : string) : bool :=
  let s := trim s in
  bool_decide (s = "127.0.0.1"%string) || bool_decide (s = "::1"%string)
  || bool_decide (s = "0.0.0.0"%string) || starts_with "127." s.

Definition ip_of_u32 (n : Z) : ipv4 :=
  (Z.land (Z.shiftr n 24) 255, Z.land (Z.shiftr n 16) 255, Z.land (Z.shiftr n 8) 255, Z.land n 255).

Definition parse_lan1 (raw : string) : string * option ipv4 :=
  let rest := default raw (strip_prefix "LAN1." raw) in
  match split_str x2e rest with
  | id :: h :: _ =>
      (id, if negb (length (sbytes h) =? 8)%nat then None
           else match from_str_radix_unsigned 16 (U32 - 1) (sbytes h) with
                | Some n => Some (ip_of_u32 n)
                | None => None
                end)
  | [id] => (id, None)
  | [] => (rest, None)
  end.

(** ** The layout of a packet *)

(** The side conditions of a field access: offsets and lengths of the header. *)
Ltac wire_len :=
  unfold header_len, HDR_LEN, HDR_LEN_LEGACY, HDR_ACK_OFF, NET_ID_OFF, NET_ID_LEN, ENT_OFF, ENT_LEN,
    PAYLOAD_LEN_OFF, OPTIONS_OFF, SEQ_OFF, MAGIC in *; cbn [length];
  repeat match goal with b : bool |- _ => destruct b end;
  rewrite ?length_to_le, ?length_take, ?length_replicate; try lia.
(** Name a stage of [packet] and record that it keeps the length. *)
Ltac wire_stage p q :=
  match goal with
  | |- context [write_at ?off ?src p] =>
      assert (length (write_at off src p) = length p) by (apply length_write_at; wire_len);
      set (q := write_at off src p) in *
  end.
(** Read a field back through the stages. *)
Ltac wire_read :=
  repeat match goal with
  | |- context [slice _ _ (write_at _ _ _)] =>
      first [rewrite slice_write_same by wire_len | rewrite slice_write_other by wire_len]
  | p := write_at _ _ _ |- context [slice _ _ ?p] => unfold p
  end.

(** Everything [parse], [entity] and [network_id] read of a packet. *)
Lemma packet_layout net_id ent kind options seq ack payload reliable :
  let pkt := packet net_id ent kind options seq ack payload reliable in
  let nid := take NET_ID_LEN (sbytes net_id) in
  let ent' := take (ENT_LEN - 1) ent in
  length pkt = (header_len reliable + length payload)%nat ∧
  slice 0 4 pkt = MAGIC ∧ slice 4 1 pkt = [zb kind] ∧ slice 5 1 pkt = [zb (version reliable)] ∧
  slice NET_ID_OFF NET_ID_LEN pkt = nid ++ replicate (NET_ID_LEN - length nid) x00 ∧
  slice ENT_OFF (ENT_LEN - 1) pkt = ent' ++ replicate (ENT_LEN - 1 - length ent') x00 ∧
  slice PAYLOAD_LEN_OFF 4 pkt = to_le 4 (Z.of_nat (length payload)) ∧
  slice OPTIONS_OFF 4 pkt = to_le 4 options ∧ slice SEQ_OFF 4 pkt = to_le 4 seq ∧
  (reliable = true → slice HDR_ACK_OFF 4 pkt = to_le 4 ack) ∧
  slice (header_len reliable) (length payload) pkt = payload.
Proof.
  intros pkt nid ent'. unfold pkt, packet. cbv zeta. rewrite !take_length_min.
  fold nid. fold ent'.
  assert (Hnid : (length nid ≤ 16)%nat) by (unfold nid; rewrite length_take; wire_len).
  assert (Hent : (length ent' ≤ 20)%nat) by (unfold ent'; rewrite length_take; wire_len).
  clearbody nid ent'. clear pkt.
  set (p0 := replicate _ _).
  assert (length p0 = (header_len reliable + length payload)%nat) by apply length_replicate.
  wire_stage p0 p1. wire_stage p1 p2. wire_stage p2 p3. wire_stage p3 p4. wire_stage p4 p5.
  wire_stage p5 p6. wire_stage p6 p7. wire_stage p7 p8.
  set (p9 := if reliable then _ else _).
  assert (Hp9 : length p9 = length p8).
  { destruct reliable; unfold p9; [|done]. apply length_write_at. wire_len. }
  assert (Hlow : ∀ a n, (a + n ≤ 56)%nat → slice a n p9 = slice a n p8).
  { intros. destruct reliable; unfold p9; [|done]. apply slice_write_other; wire_len. }
  assert (Hfin : ∀ a n, (a + n ≤ 56)%nat →
    slice a n (write_at (header_len reliable) payload p9) = slice a n p8).
  { intros. rewrite slice_write_other, Hlow by wire_len. done. }
  rewrite !Hfin by wire_len. clear Hlow Hfin.
  split; [rewrite length_write_at; wire_len|].
  do 3 (split; [by wire_read|]).
  split; [|split; [|split; [by wire_read|split; [by wire_read|split; [by wire_read|split]]]]].
  - change NET_ID_LEN with 16%nat. replace 16%nat with (length nid + (16 - length nid))%nat at 1 by lia.
    rewrite slice_app. f_equal; wire_read; [done|]. apply slice_replicate. wire_len.
  - change (ENT_LEN - 1)%nat with 20%nat.
    replace 20%nat with (length ent' + (20 - length ent'))%nat at 1 by lia.
    rewrite slice_app. f_equal; wire_read; [done|]. apply slice_replicate. wire_len.
  - intros ->. rewrite slice_write_other by wire_len. unfold p9. apply slice_write_same; wire_len.
  - apply slice_write_same; [done|]. wire_len.
Qed.

Lemma u32le_slice data off :
  (off + 4 ≤ length data)%nat → u32le data off = Some (from_le (slice off 4 data)).
Proof.
  intros. unfold u32le, slice_get.
  rewrite (proj2 (Nat.leb_le off _)), (proj2 (Nat.leb_le (off + 4) _)) by lia. simpl.
  do 3 f_equal. lia.
Qed.

Lemma slice_get_some {A} a b (l : list A) :
  (a ≤ b ≤ length l)%nat → slice_get a b l = Some (slice a (b - a) l).
Proof. intros. unfold slice_get. by rewrite !(proj2 (Nat.leb_le _ _)) by lia. Qed.

Lemma position_nul_app l k :
  until_nul (l ++ replicate k x00) = until_nul l.
Proof.
  unfold until_nul. induction l as [|b l IH]; simpl.
  - by destruct k.
  - destruct (bz b =? 0); simpl; [done|].
    destruct (position _ (l ++ _)), (position _ l); simpl in *; by rewrite IH.
Qed.

(** What [parse] accepts is well inside the buffer it was given. *)
Lemma parse_ok_inv buf reliable p :
  parse buf reliable = Ok p →
  (header_len reliable ≤ length buf)%nat ∧ slice 0 4 buf = MAGIC ∧
  slice 5 1 buf = [zb (version reliable)] ∧
  payload_len p = from_le (slice PAYLOAD_LEN_OFF 4 buf) ∧
  0 <= payload_len p <= MAX_PAYLOAD ∧
  Z.of_nat (header_len reliable) + payload_len p <= Z.of_nat (length buf).
Proof.
  unfold parse. destruct (_ <? _)%nat eqn:Hl; [done|]. bool_props.
  repeat case_bool_decide; simpl; try done.
  rewrite u32le_slice by wire_len. pose proof (from_le_range (slice PAYLOAD_LEN_OFF 4 buf)).
  destruct (_ || _) eqn:Hb; [done|]. bool_props. intros [= <-]. simpl.
  repeat split; try done; lia.
Qed.

Lemma packet_parses net_id ent kind options seq ack payload reliable :
  0 <= kind < 256 → is_u32 options → is_u32 seq → is_u32 ack →
  Z.of_nat (length payload) <= MAX_PAYLOAD →
  let pkt := packet net_id ent kind options seq ack payload reliable in
  parse pkt reliable =
    Ok (mkParsed kind (Z.of_nat (length payload)) options seq (if reliable then ack else 0)) ∧
  slice (header_len reliable) (length payload) pkt = payload ∧
  entity pkt = from_utf8_lossy (until_nul (take (ENT_LEN - 1) ent)) ∧
  network_id pkt = from_utf8_lossy (until_nul (take NET_ID_LEN (sbytes net_id))) ∧
  ∃ e, parse pkt (negb reliable) = Err e.
Proof.
  intros Hk Ho Hs Ha Hp pkt.
  destruct (packet_layout net_id ent kind options seq ack payload reliable)
    as (Hl & Hm & Hkind & Hv & Hn & He & Hpl & Hopt & Hseq & Hack & Hpay).
  fold pkt in Hl, Hm, Hkind, Hv, Hn, He, Hpl, Hopt, Hseq, Hack, Hpay. clearbody pkt.
  assert (H56 : (56 ≤ length pkt)%nat) by (rewrite Hl; clear; wire_len).
  unfold MAX_PAYLOAD in Hp.
  assert (Hpu : is_u32 (Z.of_nat (length payload))) by ulia.
  split; [|split; [done|split; [|split]]].
  - unfold parse. rewrite (proj2 (Nat.ltb_ge _ _)) by lia.
    rewrite !bool_decide_true by done. cbn [negb].
    rewrite !u32le_slice by (unfold PAYLOAD_LEN_OFF, OPTIONS_OFF, SEQ_OFF; lia).
    rewrite Hpl, Hopt, Hseq, Hkind, !from_le_to_le_u32 by done.
    unfold MAX_PAYLOAD. destruct (_ || _) eqn:Hb; [apply orb_true_iff in Hb as []; bool_props; lia|].
    do 2 f_equal. { cbn. rewrite bz_zb_small by lia. lia. }
    destruct reliable; [|done]. cbn in Hl.
    rewrite u32le_slice by (unfold HDR_ACK_OFF; lia). rewrite Hack by done.
    by apply from_le_to_le_u32.
  - unfold entity. rewrite slice_get_some by (unfold ENT_OFF, ENT_LEN; lia). cbn [from_option id].
    change (ENT_OFF + ENT_LEN - 1 - ENT_OFF)%nat with (ENT_LEN - 1)%nat.
    rewrite He. by rewrite position_nul_app.
  - unfold network_id. rewrite slice_get_some by (unfold NET_ID_OFF, NET_ID_LEN; lia). cbn [from_option id].
    change (NET_ID_OFF + NET_ID_LEN - NET_ID_OFF)%nat with NET_ID_LEN.
    rewrite Hn. by rewrite position_nul_app.
  - destruct (parse pkt (negb reliable)) as [p|e] eqn:Hpr; [|eauto].
    apply parse_ok_inv in Hpr as (_ & _ & Hv' & _). rewrite Hv in Hv'. by destruct reliable.
Qed.

(** ** Properties *)

(** packing then parsing gives back every header field, the payload sits right behind the
    header, the ids come back up to the width of their fields and their first NUL, and the peer
    built with the other protocol version refuses the datagram instead of misreading it. *)
Theorem packet_parse net_id ent kind options seq ack payload reliable :
  0 <= kind < 256 → is_u32 options → is_u32 seq → is_u32 ack →
  Z.of_nat (length payload) <= MAX_PAYLOAD →
  let pkt := packet net_id ent kind options seq ack payload reliable in
  parse pkt reliable =
    Ok (mkParsed kind (Z.of_nat (length payload)) options seq (if reliable then ack else 0)) ∧
  slice (header_len reliable) (length payload) pkt = payload ∧
  entity pkt = from_utf8_lossy (until_nul (take (ENT_LEN - 1) ent)) ∧
  network_id pkt = from_utf8_lossy (until_nul (take NET_ID_LEN (sbytes net_id))) ∧
  ∃ e, parse pkt (negb reliable) = Err e.
Proof. apply packet_parses. Qed.

Lemma packet_parse_witness :
  let pkt := packet "net-1" [x61; x62] 2 3 7 9 [xff] true in
  parse pkt true = Ok (mkParsed 2 1 3 7 9) ∧ slice 60 1 pkt = [xff] ∧
  entity pkt = from_utf8_lossy (until_nul (take (ENT_LEN - 1) [x61; x62])) ∧
  network_id pkt = from_utf8_lossy (until_nul (take NET_ID_LEN (sbytes "net-1"))) ∧
  ∃ e, parse pkt (negb true) = Err e.
Proof. apply (packet_parse "net-1" [x61; x62] 2 3 7 9 [xff] true); unfold is_u32, U32, MAX_PAYLOAD; simpl; lia. Defined.

(** no hostile datagram makes the receive path read past its buffer. Whatever the bytes,
    a successful parse reports a payload that lies inside the buffer and under [MAX_PAYLOAD], and
    no proper prefix of a packet parses. *)
Theorem parse_in_bounds reliable :
  (∀ buf p, parse buf reliable = Ok p →
     0 <= payload_len p <= MAX_PAYLOAD ∧
     length (slice (header_len reliable) (Z.to_nat (payload_len p)) buf) = Z.to_nat (payload_len p)) ∧
  (∀ net_id ent kind options seq ack payload n,
     let pkt := packet net_id ent kind options seq ack payload reliable in
     Z.of_nat (length payload) < U32 → (n < length pkt)%nat →
     ∃ e, parse (take n pkt) reliable = Err e).
Proof.
  split.
  - intros buf p (Hl & _ & _ & _ & Hr & Hb)%parse_ok_inv. split; [done|].
    apply length_slice. lia.
  - intros net_id ent kind options seq ack payload n pkt Hp Hn.
    destruct (parse (take n pkt) reliable) as [p|e] eqn:Hpr; [|eauto].
    apply parse_ok_inv in Hpr as (Hl & _ & _ & Hlen & _ & Hb).
    destruct (packet_layout net_id ent kind options seq ack payload reliable)
      as (Hpl & _ & _ & _ & _ & _ & Hpay & _). fold pkt in Hpl, Hpay.
    rewrite length_take in *. rewrite slice_take in Hlen.
    + rewrite Hpay, from_le_to_le_u32 in Hlen by ulia. lia.
    + assert (56 ≤ header_len reliable)%nat by (clear; wire_len). unfold PAYLOAD_LEN_OFF. lia.
Qed.

Lemma parse_in_bounds_witness :
  let pkt := packet "n" [x61] 2 3 7 9 [x01; x02] true in ∃ e, parse (take 61 pkt) true = Err e.
Proof. apply (proj2 (parse_in_bounds true)); vm_compute; [reflexivity|lia]. Defined.
