(* ===== verification/Descriptor.v ===== *)
(** * Network descriptors: [party-shim/src/lib.rs], the [Descriptor] part

    The 357-byte network descriptor the game passes around, its textual form
    [LAN1.<id>.<8 hex digits>] produced by [serialize_desc] and read back by
    [deserialize_desc], and the identifier [uuid_ident] makes for a new network.
    Fixed arrays are [list byte] of the array's length; an address is four
    [u8] octets. *)

From S2P Require Import Prelude RustStr Wire.
#[local] Open Scope Z_scope.

Definition SUCCESS : Z := 0.
Definition ERR : Z := 2147500037.  (* 0x80004005 *)
Definition DESC_SIZE : nat := 357.
Definition IDENT_LEN : nat := 37.
Definition REGION_LEN : nat := 20.
Definition OPAQUE_LEN : nat := 300.
Definition SERIALIZED_MAX : nat := 449.

Record Descriptor := mkDescriptor {
  identifier : list byte;
  region : list byte;
  opaque : list byte;
}.

#[export] Instance Descriptor_eq_dec : EqDecision Descriptor.
Proof. solve_decision. Defined.

Definition Descriptor_zero : Descriptor :=
  mkDescriptor (replicate IDENT_LEN x00) (replicate REGION_LEN x00) (replicate OPAQUE_LEN x00).

(** [Descriptor::new]. *)
Definition Descriptor_new (id : string) : Descriptor :=
  let ib := sbytes id in
  mkDescriptor
    (write_at 0 (take (length ib `min` (IDENT_LEN - 1)) ib) (replicate IDENT_LEN x00))
    (write_at 0 (sbytes "lan") (replicate REGION_LEN x00))
    (replicate OPAQUE_LEN x00).

(** [Descriptor::id_str]. *)
Definition id_str (d : Descriptor) : string :=
  let n := default (IDENT_LEN - 1)%nat (position (λ b, bz b =? 0) (identifier d)) in
  from_utf8_lossy (take n (identifier d)).

Definition ip_bytes (ip : ipv4) : list byte :=
  let '(a, b, c, d) := ip in [zb a; zb b; zb c; zb d].

Definition desc_set_advert_ip (d : Descriptor) (ip : ipv4) : Descriptor :=
  mkDescriptor (identifier d) (region d) (write_at 2 (ip_bytes ip) (opaque d)).

Definition desc_advert_ip (d : Descriptor) : option ipv4 :=
  match map bz (slice 2 4 (opaque d)) with
  | [a; b; c; e] =>
      if ((a =? 0) && (b =? 0) && (c =? 0) && (e =? 0)) || (a =? 127) then None
      else Some (a, b, c, e)
  | _ => None
  end.

(** A loopback address reported for a peer is replaced by the descriptor's. *)
Definition rewrite_peer_ip (raw : string) (desc : Descriptor) : string :=
  if negb (is_loopback_ip raw) then raw
  else match desc_advert_ip desc with Some ip => ip_string ip | None => raw end.

(** [read_cstr]: at most 4096 bytes, up to the NUL; [None] is the null pointer. *)
Definition read_cstr (p : option (list byte)) : string :=
  match p with
  | None => ""
  | Some l => from_utf8_lossy (until_nul (take (Z.to_nat 4096) l))
  end.

(** The text [serialize_desc] formats; [lan_ip] is the address the machine reports. *)
Definition desc_text (d : Descriptor) (lan_ip : ipv4) : string :=
  let '(a, b, c, e) := default lan_ip (desc_advert_ip d) in
  ("LAN1." +:+ id_str d +:+ "." +:+
   bstr (hex_fixed 2 a ++ hex_fixed 2 b ++ hex_fixed 2 c ++ hex_fixed 2 e))%string.

(** [serialize_desc]: the code, and the bytes written to a non-null [out]. *)
Definition serialize_desc (d : Descriptor) (out_null : bool) (lan_ip : ipv4)
    : Z * option (list byte) :=
  if out_null then (ERR, None)
  else
    let bytes := sbytes (desc_text d lan_ip) in
    if (SERIALIZED_MAX <=? length bytes)%nat then (ERR, None)
    else (SUCCESS, Some (bytes ++ [x00])).

(** [deserialize_desc]: the code, and the descriptor left in a non-null [out]. *)
Definition deserialize_desc (s : option (list byte)) (out : option Descriptor)
    : Z * option Descriptor :=
  match s, out with
  | None, _ | _, None => (ERR, out)
  | Some _, Some _ =>
      let raw := read_cstr s in
      if negb (starts_with "LAN1." raw) then (ERR, Some Descriptor_zero)
      else
        let '(id, ip) := parse_lan1 raw in
        let d := Descriptor_new id in
        (SUCCESS, Some (match ip with Some ip => desc_set_advert_ip d ip | None => d end))
  end.

(** [uuid_ident] from the counter [n] and the clock [t] in nanoseconds. *)
Definition uuid_ident (n t : Z) : string :=
  bstr (hex_fixed 8 (Z.shiftr t 32 mod U32) ++ [x2d] ++
        hex_fixed 4 (Z.shiftr t 16 mod U16) ++ [x2d; x34] ++
        hex_fixed 3 (Z.land (t mod U16) 4095) ++ [x2d; x38] ++
        hex_fixed 3 (Z.land (n mod U16) 4095) ++ [x2d] ++
        hex_fixed 12 (Z.land (n * 40503 mod U64) 281474976710655)).

(** ** Well-formed descriptors *)

Record desc_wf (d : Descriptor) : Prop := {
  dwf_identifier : length (identifier d) = IDENT_LEN;
  dwf_region : length (region d) = REGION_LEN;
  dwf_opaque : length (opaque d) = OPAQUE_LEN;
}.

(** The identifiers a descriptor carries unchanged: at most 36 bytes of valid UTF-8, no NUL, and
    no dot, which ends the identifier in the textual form. *)
Record id_ok (id : string) : Prop := {
  id_len : (length (sbytes id) ≤ IDENT_LEN - 1)%nat;
  id_nul : Forall (λ b, (bz b =? 0) = false) (sbytes id);
  id_dot : x2e ∉ sbytes id;
  id_utf8 : utf8_valid (sbytes id) = true;
}.

(** An address that can be advertised: octets, neither all zero nor loopback. *)
Definition ip_ok (ip : ipv4) : Prop :=
  let '(a, b, c, d) := ip in
  is_u8 a ∧ is_u8 b ∧ is_u8 c ∧ is_u8 d ∧ ip ≠ (0, 0, 0, 0) ∧ a ≠ 127.

Lemma desc_new_wf id : desc_wf (Descriptor_new id).
Proof.
  split; unfold Descriptor_new; cbn [identifier region opaque].
  - rewrite length_write_at; rewrite length_replicate; [done|].
    rewrite length_take. unfold IDENT_LEN. lia.
  - done.
  - done.
Qed.

Lemma desc_set_wf d ip : desc_wf d → desc_wf (desc_set_advert_ip d ip).
Proof.
  intros [? ? Ho]. split; simpl; try done. destruct ip as [[[a b] c] e].
  rewrite length_write_at; [done|]. rewrite Ho. unfold OPAQUE_LEN. simpl. lia.
Qed.

Lemma until_nul_clean l k :
  Forall (λ b, (bz b =? 0) = false) l → until_nul (l ++ x00 :: k) = l.
Proof.
  unfold until_nul. induction 1 as [|b l Hb Hl IH]; [done|]. simpl. rewrite Hb.
  destruct (position _ _); simpl in *; by rewrite IH.
Qed.

Lemma id_str_new id : id_ok id → id_str (Descriptor_new id) = id.
Proof.
  intros [Hl Hn _ Hu]. unfold id_str, Descriptor_new. cbn [identifier].
  rewrite take_length_min, (take_ge (sbytes id)) by lia. unfold write_at. rewrite take_0, drop_replicate. simpl.
  unfold IDENT_LEN in *. destruct (37 - length (sbytes id))%nat as [|k] eqn:Hk; [lia|]. simpl.
  pose proof (until_nul_clean (sbytes id) (replicate k x00) Hn) as Hc. unfold until_nul in Hc.
  assert (Hp : position (λ b, bz b =? 0) (sbytes id ++ x00 :: replicate k x00) =
               Some (length (sbytes id))).
  { clear -Hn. induction Hn as [|b l Hb Hl IH]; [done|]. simpl. by rewrite Hb, IH. }
  rewrite Hp. simpl. rewrite take_app_length, from_utf8_lossy_valid by done. apply bstr_sbytes.
Qed.

(** ** The LAN1 text *)

Definition hex_ip (ip : ipv4) : list byte :=
  let '(a, b, c, d) := ip in hex_fixed 2 a ++ hex_fixed 2 b ++ hex_fixed 2 c ++ hex_fixed 2 d.

Lemma hex_ip_digits ip : Forall (λ b, is_hex_digit b = true) (hex_ip ip).
Proof. destruct ip as [[[a b] c] d]. unfold hex_ip. rewrite !Forall_app. auto using hex_fixed_digits. Qed.

Lemma length_hex_ip ip : length (hex_ip ip) = 8%nat.
Proof. destruct ip as [[[a b] c] d]. unfold hex_ip. by rewrite !length_app, !length_hex_fixed. Qed.

Lemma hex_ip_notin ip b : is_hex_digit b = false → b ∉ hex_ip ip.
Proof.
  intros Hb Hin. pose proof (proj1 (Forall_forall _ _) (hex_ip_digits ip) b Hin). cbv beta in *.
  congruence.
Qed.

Lemma hex_ip_utf8 ip : utf8_valid (hex_ip ip) = true.
Proof. destruct ip as [[[a b] c] d]. unfold hex_ip. auto using utf8_valid_app, hex_fixed_ascii. Qed.

Lemma ip_of_u32_octets a b c d :
  is_u8 a → is_u8 b → is_u8 c → is_u8 d →
  ip_of_u32 (((a * 256 + b) * 256 + c) * 256 + d) = (a, b, c, d).
Proof.
  intros. unfold ip_of_u32. rewrite !(Z.land_ones _ 8) by lia. rewrite !Z.shiftr_div_pow2 by lia.
  change (2 ^ 24) with 16777216. change (2 ^ 16) with 65536. change (2 ^ 8) with 256.
  unfold is_u8, U8 in *. repeat f_equal; Z.to_euclidean_division_equations; lia.
Qed.

Lemma from_str_radix_hex_ip a b c d :
  is_u8 a → is_u8 b → is_u8 c → is_u8 d →
  from_str_radix_unsigned 16 (U32 - 1) (hex_ip (a, b, c, d)) =
    Some (((a * 256 + b) * 256 + c) * 256 + d).
Proof.
  intros. unfold from_str_radix_unsigned.
  assert (Hp : x2b ∉ hex_ip (a, b, c, d)) by (by apply hex_ip_notin).
  assert (Hd : digits_val 16 0 (hex_ip (a, b, c, d)) = Some (((a * 256 + b) * 256 + c) * 256 + d)).
  { unfold hex_ip. repeat (rewrite ?digits_val_app, digits_val_hex_fixed; cbv beta iota). f_equal.
    change (16 ^ Z.of_nat 2) with 256. rewrite !Z.mod_small by done. lia. }
  pose proof (length_hex_ip (a, b, c, d)) as Hl.
  destruct (hex_ip (a, b, c, d)) as [|x l]; [done|].
  assert (match x :: l with x2b :: (_ :: _) as r => r | _ => x :: l end = x :: l) as ->.
  { destruct (decide (x = x2b)) as [->|]; [destruct Hp; by left|]. by destruct x. }
  rewrite Hd. case_if; [done|]. exfalso. ulia.
Qed.

Lemma desc_advert_set d ip :
  length (opaque d) = OPAQUE_LEN → ip_ok ip → desc_advert_ip (desc_set_advert_ip d ip) = Some ip.
Proof.
  destruct ip as [[[a b] c] e]. intros Hl (Ha & Hb & Hc & He & Hz & H127).
  unfold desc_advert_ip, desc_set_advert_ip. cbn [opaque].
  rewrite slice_write_same by (simpl; rewrite ?Hl; unfold OPAQUE_LEN; lia). cbn [ip_bytes map].
  unfold is_u8, U8 in *. rewrite !bz_zb_small by done.
  destruct (_ || _) eqn:Hx; [|done]. apply orb_true_iff in Hx as [Hx|Hx].
  - repeat (apply andb_true_iff in Hx as [Hx ?]). bool_props. by subst.
  - by bool_props.
Qed.

Lemma desc_text_bytes id ip lan_ip :
  id_ok id → ip_ok ip →
  sbytes (desc_text (desc_set_advert_ip (Descriptor_new id) ip) lan_ip) =
    sbytes "LAN1." ++ sbytes id ++ x2e :: hex_ip ip.
Proof.
  intros Hid Hip. unfold desc_text. rewrite desc_advert_set by (apply desc_new_wf || done).
  destruct ip as [[[a b] c] e]. cbn [from_option Datatypes.id].
  change (id_str (desc_set_advert_ip _ _)) with (id_str (Descriptor_new id)).
  rewrite id_str_new, !sbytes_app, sbytes_bstr by done. done.
Qed.

Lemma parse_lan1_text id ip raw :
  id_ok id → ip_ok ip → sbytes raw = sbytes "LAN1." ++ sbytes id ++ x2e :: hex_ip ip →
  parse_lan1 raw = (id, Some ip).
Proof.
  intros Hid Hip Hraw. unfold parse_lan1.
  assert (strip_prefix "LAN1." raw = Some (bstr (sbytes id ++ x2e :: hex_ip ip))) as ->.
  { apply strip_prefix_Some. apply sbytes_inj. by rewrite Hraw, sbytes_app, sbytes_bstr. }
  cbn [from_option Datatypes.id]. unfold split_str. rewrite sbytes_bstr, split_b_app by apply Hid.
  rewrite split_b_none by (by apply hex_ip_notin). cbn [map].
  rewrite bstr_sbytes, sbytes_bstr, length_hex_ip. cbn [Nat.eqb negb].
  destruct ip as [[[a b] c] e]. destruct Hip as (? & ? & ? & ? & _).
  by rewrite from_str_radix_hex_ip, ip_of_u32_octets.
Qed.

(** ** Properties *)

(** the descriptor survives the lobby. For every identifier of at most 36 bytes (no NUL, no
    dot) and every advertised address, serialising the descriptor and reading the resulting C
    string back, whatever the target held before, yields the same descriptor, byte for byte. *)
Theorem descriptor_roundtrip id ip lan_ip out :
  id_ok id → ip_ok ip →
  let d := desc_set_advert_ip (Descriptor_new id) ip in
  ∃ text, serialize_desc d false lan_ip = (SUCCESS, Some text) ∧
    (length text ≤ SERIALIZED_MAX)%nat ∧ deserialize_desc (Some text) (Some out) = (SUCCESS, Some d).
Proof.
  intros Hid Hip d. pose proof (desc_text_bytes id ip lan_ip Hid Hip) as Hb. fold d in Hb.
  assert (Hlen : (length (sbytes (desc_text d lan_ip)) ≤ 50)%nat).
  { rewrite Hb, !length_app. cbn [length]. rewrite length_hex_ip. pose proof (id_len _ Hid).
    unfold IDENT_LEN in *. simpl. lia. }
  exists (sbytes (desc_text d lan_ip) ++ [x00]). unfold serialize_desc.
  rewrite (proj2 (Nat.leb_gt _ _)) by (unfold SERIALIZED_MAX; lia).
  split; [done|]. split; [rewrite length_app; unfold SERIALIZED_MAX; simpl; lia|].
  assert (Hr : read_cstr (Some (sbytes (desc_text d lan_ip) ++ [x00])) = desc_text d lan_ip).
  { unfold read_cstr. rewrite take_ge by (rewrite length_app; simpl; lia).
    rewrite until_nul_clean.
    - rewrite from_utf8_lossy_valid, bstr_sbytes; [done|]. rewrite Hb.
      apply utf8_valid_app; [reflexivity|]. apply utf8_valid_app; [apply Hid|].
      change (x2e :: hex_ip ip) with ([x2e] ++ hex_ip ip). apply utf8_valid_app; [reflexivity|].
      apply hex_ip_utf8.
    - rewrite Hb. apply Forall_app. split; [by repeat constructor|].
      apply Forall_app. split; [apply Hid|]. constructor; [done|].
      apply Forall_forall. intros b Hin. destruct (bz b =? 0) eqn:Hz; [|done]. bool_props.
      apply (bz_inj b x00) in Hz. subst b. by apply (hex_ip_notin ip x00) in Hin. }
  unfold deserialize_desc. rewrite Hr.
  assert (starts_with "LAN1." (desc_text d lan_ip) = true) as ->.
  { unfold starts_with. destruct (strip_prefix _ _) eqn:Hs; [done|].
    assert (strip_prefix "LAN1." (desc_text d lan_ip) = Some (bstr (sbytes id ++ x2e :: hex_ip ip)));
      [|congruence]. apply strip_prefix_Some. apply sbytes_inj.
    by rewrite Hb, sbytes_app, sbytes_bstr. }
  cbn [negb]. by rewrite (parse_lan1_text id ip _ Hid Hip Hb).
Qed.

Lemma descriptor_roundtrip_witness :
  let d := desc_set_advert_ip (Descriptor_new "0a-1") (192, 168, 1, 7) in
  ∃ text, serialize_desc d false (10, 0, 0, 1) = (SUCCESS, Some text) ∧
    (length text ≤ SERIALIZED_MAX)%nat ∧
    deserialize_desc (Some text) (Some Descriptor_zero) = (SUCCESS, Some d).
Proof.
  apply (descriptor_roundtrip "0a-1" (192, 168, 1, 7)).
  - split; [vm_compute; lia|by repeat constructor| |reflexivity].
    apply (bool_decide_unpack _). reflexivity.
  - unfold ip_ok, is_u8, U8. repeat split; try lia; congruence.
Defined.

(** every identifier [uuid_ident] makes for a new network, whatever the clock and the counter,
    is one the descriptor and its text carry unchanged. *)
Theorem uuid_ident_ok n t :
  id_ok (uuid_ident n t) ∧ length (sbytes (uuid_ident n t)) = (IDENT_LEN - 1)%nat.
Proof.
  assert (Hl : length (sbytes (uuid_ident n t)) = (IDENT_LEN - 1)%nat).
  { unfold uuid_ident. by rewrite sbytes_bstr, !length_app, !length_hex_fixed. }
  split; [|done].
  assert (Hc : Forall (λ b, is_hex_digit b = true ∨ b = x2d) (sbytes (uuid_ident n t))).
  { unfold uuid_ident. rewrite sbytes_bstr.
    assert (∀ w z, Forall (λ b, is_hex_digit b = true ∨ b = x2d) (hex_fixed w z))
      by (intros; eapply Forall_impl; [apply hex_fixed_digits|auto]).
    assert (∀ l, Forall (λ b, b = x2d ∨ is_hex_digit b = true) l →
              Forall (λ b, is_hex_digit b = true ∨ b = x2d) l)
      by (intros; eapply Forall_impl; [done|intros ? []; auto]).
    rewrite !Forall_app. repeat split; auto; repeat constructor; auto. }
  rewrite Forall_forall in Hc. split.
  - lia.
  - apply Forall_forall. intros b [Hb| ->]%Hc; [|done]. destruct b; done.
  - intros Hin. by destruct (Hc _ Hin).
  - apply utf8_valid_ascii, forallb_forall. intros b Hb%list_elem_of_In.
    destruct (Hc _ Hb) as [Hd| ->]; [|done]. destruct b; done.
Qed.

(** a failed deserialisation never leaves a stale descriptor. When the text does not start
    with [LAN1.], the target is zeroed whatever it held, and the code is the error code. *)
Theorem deserialize_clears raw out :
  starts_with "LAN1." (read_cstr (Some raw)) = false →
  deserialize_desc (Some raw) (Some out) = (ERR, Some Descriptor_zero) ∧
  desc_advert_ip Descriptor_zero = None ∧ id_str Descriptor_zero = ""%string.
Proof. intros Hs. unfold deserialize_desc. by rewrite Hs. Qed.

Lemma deserialize_clears_witness :
  deserialize_desc (Some (sbytes "dummy" ++ [x00])) (Some (Descriptor_new "x")) =
    (ERR, Some Descriptor_zero) ∧
  desc_advert_ip Descriptor_zero = None ∧ id_str Descriptor_zero = ""%string.
Proof. apply deserialize_clears. reflexivity. Defined.

(** the tail of a LAN1 text need not be eight hex digits. A [+] followed by seven of them is
    taken for an address, although a malformed tail is meant to yield none. *)
Theorem lan1_plus_tail id l v :
  x2e ∉ sbytes id → length l = 7%nat → x2e ∉ l → digits_val 16 0 l = Some v → v < U32 →
  parse_lan1 ("LAN1." +:+ id +:+ "." +:+ bstr (x2b :: l))%string = (id, Some (ip_of_u32 v)).
Proof.
  intros Hid Hl Hdot Hv Hr. unfold parse_lan1.
  assert (strip_prefix "LAN1." ("LAN1." +:+ id +:+ "." +:+ bstr (x2b :: l))
          = Some (id +:+ "." +:+ bstr (x2b :: l))) as -> by (by apply strip_prefix_Some).
  cbn [from_option Datatypes.id]. unfold split_str. rewrite !sbytes_app, sbytes_bstr.
  change (sbytes "." ++ x2b :: l) with (x2e :: x2b :: l). rewrite split_b_app by done.
  rewrite split_b_none by (by apply not_elem_of_cons). cbn [map].
  rewrite bstr_sbytes, sbytes_bstr. cbn [length]. rewrite Hl. cbn [Nat.eqb negb].
  unfold from_str_radix_unsigned. destruct l as [|x l]; [done|]. rewrite Hv. case_if; [done|lia].
Qed.

Lemma lan1_plus_tail_witness :
  parse_lan1 ("LAN1." +:+ "x" +:+ "." +:+ bstr (x2b :: sbytes "1234567"))%string
    = ("x"%string, Some (ip_of_u32 19088743)).
Proof.
  apply lan1_plus_tail; try reflexivity; apply (bool_decide_unpack _); reflexivity.
Defined.
