(* ===== verification/Json.v ===== *)
(** * The shims' JSON field reader: [common/json.rs]

    A scanner over the bytes of a document.  [Scan] is the byte list and an
    index; every method that moves the index returns the new one.  A method that
    returns [Option] in the source has a [scanr] result: [SDone] is [Some],
    [SNone] is [None], and [SFuel] says that a loop or a recursion was given too
    little fuel, which [skip_value_fuel] and the lemmas before it exclude for the
    fuel the entry points use (twice the length of the document, plus two). *)

From S2P Require Import Prelude RustStr.
#[local] Open Scope Z_scope.

Definition ARRAY_CAP : nat := 32.
Definition OBJECT_CAP : nat := 64.

Inductive Kind := Str | Scalar | Object | Array | Null.

#[export] Instance Kind_eq_dec : EqDecision Kind.
Proof. solve_decision. Defined.

Inductive scanr (A : Type) :=
  | SDone (a : A) (i : nat)
  | SNone
  | SFuel.
Arguments SDone {A} _ _.
Arguments SNone {A}.
Arguments SFuel {A}.

(** ** The scanner *)

Infix "=b" := byte_eqb (at level 70).

Section scan.
Context (b : list byte).

Definition peek (i : nat) : option byte := b !! i.

Definition is_ws (c : byte) : bool :=
  (c =b x20) || (c =b x09) || (c =b x0a) || (c =b x0d).

(** [while matches!(peek, ws) { i += 1 }]: at most the rest of the document. *)
Fixpoint skip_ws_loop (fuel i : nat) : nat :=
  match fuel with
  | O => i
  | S fuel => match peek i with
              | Some c => if is_ws c then skip_ws_loop fuel (i + 1) else i
              | None => i
              end
  end.
Definition skip_ws (i : nat) : nat := skip_ws_loop (length b) i.

Definition hex_val (c : byte) : option Z :=
  if byte_in 48 57 c then Some (bz c - 48)
  else if byte_in 97 102 c then Some (bz c - 97 + 10)
  else if byte_in 65 70 c then Some (bz c - 65 + 10)
  else None.

Fixpoint hex4_loop (n i : nat) (v : Z) : scanr Z :=
  match n with
  | O => SDone v i
  | S n => match peek i with
           | Some c => match hex_val c with
                       | Some d => hex4_loop n (i + 1) (Z.lor (Z.shiftl v 4) d)
                       | None => SNone
                       end
           | None => SNone
           end
  end.
Definition hex4 (i : nat) : scanr Z :=
  if (length b <? i + 4)%nat then SNone else hex4_loop 4 i 0.

Definition utf8_len (first : byte) : nat :=
  if byte_in 0 127 first then 1
  else if byte_in 194 223 first then 2
  else if byte_in 224 239 first then 3
  else if byte_in 240 244 first then 4
  else 0.

(** The code point of an escape [\uXXXX] whose digits start at [i]. *)
Definition unicode_escape (i : nat) : scanr Z :=
  match hex4 i with
  | SDone hi i =>
      if (55296 <=? hi) && (hi <? 56320) then
        if negb (bool_decide (peek i = Some x5c)) then SNone
        else if negb (bool_decide (peek (i + 1) = Some x75)) then SNone
        else match hex4 (i + 2) with
             | SDone lo i =>
                 if negb ((56320 <=? lo) && (lo <? 57344)) then SNone
                 else SDone (65536 + Z.shiftl (hi - 55296) 10 + (lo - 56320)) i
             | r => r
             end
      else SDone hi i
  | r => r
  end.

(** An escape sequence whose letter is at [i]: the bytes it stands for. *)
Definition escape_at (i : nat) : scanr (list byte) :=
  match peek i with
  | None => SNone
  | Some e =>
      let i := (i + 1)%nat in
      if e =b x22 then SDone [x22] i
      else if e =b x5c then SDone [x5c] i
      else if e =b x2f then SDone [x2f] i
      else if e =b x62 then SDone [x08] i
      else if e =b x66 then SDone [x0c] i
      else if e =b x6e then SDone [x0a] i
      else if e =b x72 then SDone [x0d] i
      else if e =b x74 then SDone [x09] i
      else if e =b x75 then
        match unicode_escape i with
        | SDone cp i => match char_from_u32 cp with
                        | Some c => SDone c i
                        | None => SNone
                        end
        | SNone => SNone
        | SFuel => SFuel
        end
      else SNone
  end.

(** A character at [i] that is neither a quote nor a backslash. *)
Definition raw_char_at (i : nat) (c : byte) : scanr (list byte) :=
  let len := utf8_len c in
  if (len =? 0)%nat || (length b <? i + len)%nat then SNone
  else
    let s := slice i len b in
    if utf8_valid s then SDone s (i + len) else SNone.

Fixpoint string_loop (fuel i : nat) (out : list byte) : scanr (list byte) :=
  match fuel with
  | O => SFuel
  | S fuel =>
      match peek i with
      | None => SNone
      | Some c =>
          if c =b x22 then SDone out (i + 1)
          else
            match (if c =b x5c then escape_at (i + 1) else raw_char_at i c) with
            | SDone s i => string_loop fuel i (out ++ s)
            | r => r
            end
      end
  end.

(** [Scan::string]. *)
Definition scan_string (i : nat) : scanr (list byte) :=
  if negb (bool_decide (peek i = Some x22)) then SNone
  else string_loop (S (length b)) (i + 1) [].

Definition is_delim (c : byte) : bool :=
  (c =b x2c) || (c =b x7d) || (c =b x5d) || is_ws c.

Fixpoint scalar_end (fuel i : nat) : nat :=
  match fuel with
  | O => i
  | S fuel => match peek i with
              | Some c => if is_delim c then i else scalar_end fuel (i + 1)
              | None => i
              end
  end.

(** [Scan::skip_value], with its two inner loops. *)
Fixpoint skip_value (fuel i : nat) : scanr () :=
  match fuel with
  | O => SFuel
  | S fuel =>
      let i := skip_ws i in
      match peek i with
      | None => SNone
      | Some c =>
          if c =b x22 then
            match scan_string i with
            | SDone _ i => SDone () i
            | SNone => SNone
            | SFuel => SFuel
            end
          else if c =b x7b then skip_object fuel (i + 1)
          else if c =b x5b then skip_array fuel (i + 1)
          else
            let e := scalar_end (length b) i in
            if (e =? i)%nat then SNone else SDone () e
      end
  end
with skip_object (fuel i : nat) : scanr () :=
  match fuel with
  | O => SFuel
  | S fuel =>
      let i := skip_ws i in
      match peek i with
      | None => SNone
      | Some c =>
          if c =b x7d then SDone () (i + 1)
          else if c =b x2c then skip_object fuel (i + 1)
          else
            match scan_string i with
            | SDone _ i =>
                let i := skip_ws i in
                if negb (bool_decide (peek i = Some x3a)) then SNone
                else match skip_value fuel (i + 1) with
                     | SDone _ i => skip_object fuel i
                     | r => r
                     end
            | SNone => SNone
            | SFuel => SFuel
            end
      end
  end
with skip_array (fuel i : nat) : scanr () :=
  match fuel with
  | O => SFuel
  | S fuel =>
      let i := skip_ws i in
      match peek i with
      | None => SNone
      | Some c =>
          if c =b x5d then SDone () (i + 1)
          else if c =b x2c then skip_array fuel (i + 1)
          else
            match skip_value fuel i with
            | SDone _ i => skip_array fuel i
            | r => r
            end
      end
  end.

Definition value_fuel : nat := 2 * length b + 2.
Definition skip_value_at (i : nat) : scanr () := skip_value value_fuel i.

(** The loop of [find_value_start]. *)
Fixpoint find_loop (fuel i : nat) (key : list byte) : scanr () :=
  match fuel with
  | O => SFuel
  | S fuel =>
      match peek i with
      | None => SNone
      | Some c =>
          if c =b x22 then
            match scan_string i with
            | SDone text i =>
                let i := skip_ws i in
                if bool_decide (peek i = Some x3a) && bool_decide (text = key)
                then SDone () (skip_ws (i + 1))
                else find_loop fuel i key
            | SNone => SNone
            | SFuel => SFuel
            end
          else find_loop fuel (i + 1) key
      end
  end.
Definition find_value_start (key : list byte) : option nat :=
  match find_loop (S (length b)) 0 key with SDone _ i => Some i | _ => None end.

Definition kind_at (c : byte) : Kind :=
  if c =b x22 then Str else if c =b x7b then Object else if c =b x5b then Array else Scalar.

Definition span (key : list byte) : option (Kind * nat * nat) :=
  match find_value_start key with
  | None => None
  | Some start =>
      match peek start with
      | None => None
      | Some first =>
          match skip_value_at start with
          | SDone _ e =>
              let kind :=
                if (first =b x74) || (first =b x66) then Scalar
                else if first =b x6e then
                  if bool_decide (slice start (e - start) b = sbytes "null") then Null else Scalar
                else kind_at first in
              Some (kind, start, e)
          | _ => None
          end
      end
  end.
End scan.

(** ** The accessors *)

(** [&blob[start..end]]. *)
Definition text_at (b : list byte) (i e : nat) : list byte := slice i (e - i) b.

Definition json_str (blob key : string) : option string :=
  let b := sbytes blob in
  match span b (sbytes key) with
  | Some (Str, start, _) =>
      match scan_string b start with SDone s _ => Some (bstr s) | _ => None end
  | Some (Scalar, start, e) => Some (bstr (text_at b start e))
  | _ => None
  end.

Definition is_num_char (c : byte) : bool :=
  is_ascii_digit c || (c =b x2b) || (c =b x2d) || (c =b x2e) || (c =b x65) || (c =b x45).

Definition json_num (blob key : string) : option string :=
  let b := sbytes blob in
  match span b (sbytes key) with
  | Some (Scalar, start, e) =>
      let raw := text_at b start e in
      match raw with
      | [] => None
      | _ => if forallb is_num_char raw then Some (bstr raw) else None
      end
  | _ => None
  end.

Definition json_u32 (blob key : string) : option Z := json_str blob key ≫= parse_u32.
Definition json_i64 (blob key : string) : option Z := json_str blob key ≫= parse_i64.

(** The value of one member of [json_obj], at [i]: what to record, and where the scan goes on. *)
Definition json_obj_value (b : list byte) (vfirst : byte) (i : nat) : option (option (list byte) * nat) :=
  if (vfirst =b x7b) || (vfirst =b x5b) then
    match skip_value_at b i with SDone _ i => Some (None, i) | _ => None end
  else
    match skip_value_at b i with
    | SDone _ e =>
        let raw := text_at b i e in
        if vfirst =b x22 then
          match scan_string b i with SDone s _ => Some (Some s, e) | _ => None end
        else Some (Some (if bool_decide (raw = sbytes "null") then [] else raw), e)
    | _ => None
    end.

(** The loop of [json_obj]: [None] when the fuel runs out. *)
Fixpoint json_obj_loop (b : list byte) (fuel i : nat) (out : gmap string string)
    : option (gmap string string) :=
  match fuel with
  | O => None
  | S fuel =>
      let i := skip_ws b i in
      match peek b i with
      | None => Some out
      | Some c =>
          if c =b x7d then Some out
          else if c =b x2c then json_obj_loop b fuel (i + 1) out
          else match scan_string b i with
          | SDone k i =>
              let i := skip_ws b i in
              if negb (bool_decide (peek b i = Some x3a)) then Some out
              else
                let i := skip_ws b (i + 1) in
                match peek b i with
                | None => Some out
                | Some vfirst =>
                    match json_obj_value b vfirst i with
                    | None => Some out
                    | Some (None, i) => json_obj_loop b fuel i out
                    | Some (Some v, i) =>
                        json_obj_loop b fuel i
                          (if bool_decide (k ≠ []) && (size out <? OBJECT_CAP)%nat
                           then <[bstr k := bstr v]> out else out)
                    end
                end
          | _ => Some out
          end
      end
  end.

Definition json_obj (blob key : string) : gmap string string :=
  let b := sbytes blob in
  match span b (sbytes key) with
  | Some (Object, start, _) => default ∅ (json_obj_loop b (S (length b)) (start + 1) ∅)
  | _ => ∅
  end.

(** The loop of [json_arr_objects]: [None] when the fuel runs out. *)
Fixpoint json_arr_loop (b : list byte) (fuel i : nat) (out : list string) : option (list string) :=
  match fuel with
  | O => None
  | S fuel =>
      let i := skip_ws b i in
      match peek b i with
      | None => Some out
      | Some c =>
          if c =b x5d then Some out
          else if c =b x2c then json_arr_loop b fuel (i + 1) out
          else match skip_value_at b i with
          | SDone _ e =>
              let out := out ++ [bstr (text_at b i e)] in
              if (ARRAY_CAP <=? length out)%nat then Some out
              else json_arr_loop b fuel e out
          | _ => Some out
          end
      end
  end.

Definition json_arr_objects (blob key : string) : list string :=
  let b := sbytes blob in
  match span b (sbytes key) with
  | Some (Array, start, _) => default [] (json_arr_loop b (S (length b)) (start + 1) [])
  | _ => []
  end.

(** ** Escaping *)

Definition escape_char (c : list byte) : list byte :=
  let cp := code_point c in
  if cp =? 34 then [x5c; x22]
  else if cp =? 92 then [x5c; x5c]
  else if cp =? 10 then [x5c; x6e]
  else if cp =? 13 then [x5c; x72]
  else if cp =? 9 then [x5c; x74]
  else if cp <? 32 then [x5c; x75] ++ hex_fixed 4 cp
  else c.
Definition json_escape_b (l : list byte) : list byte := concat (map escape_char (chars l)).
Definition json_escape (s : string) : string := bstr (json_escape_b (sbytes s)).

(** The texts the shims format: [\"s\"], [\"key\":\"val\"], and a comma-separated object of such
    fields; nothing is escaped here. *)
Definition quoted_text (s : string) : string := bstr ([x22] ++ sbytes s ++ [x22]).
Definition text_field (key val : string) : string := (quoted_text key +:+ ":" +:+ quoted_text val)%string.
Definition text_object (fields : list (string * string)) : string :=
  ("{" +:+ join "," (map (λ f, text_field f.1 f.2) fields) +:+ "}")%string.

(** ** Progress and bounds *)

(** A scan started at [i] moved forwards and stayed inside the document, and did not run out of
    fuel. *)
Definition advances {A} (b : list byte) (i : nat) (r : scanr A) : Prop :=
  match r with SDone _ e => (i < e ≤ length b)%nat | SNone => True | SFuel => False end.

Section bounds.
Context (b : list byte).

Lemma peek_Some i c : peek b i = Some c → (i < length b)%nat.
Proof. apply lookup_lt_Some. Qed.

Lemma skip_ws_loop_bounds fuel i :
  (i ≤ skip_ws_loop b fuel i)%nat ∧ ((i ≤ length b)%nat → (skip_ws_loop b fuel i ≤ length b)%nat).
Proof.
  revert i. induction fuel as [|fuel IH]; intros i; simpl; [lia|].
  destruct (peek b i) as [c|] eqn:Hp; [|lia]. apply peek_Some in Hp.
  destruct (is_ws c); [|lia]. destruct (IH (i + 1)%nat). lia.
Qed.

Lemma skip_ws_ge i : (i ≤ skip_ws b i)%nat.
Proof. apply skip_ws_loop_bounds. Qed.

Lemma hex4_loop_bounds n i v : match hex4_loop b n i v with
  | SDone _ e => e = (i + n)%nat | SNone => True | SFuel => False end.
Proof.
  revert i v. induction n as [|n IH]; intros i v; simpl; [lia|].
  destruct (peek b i) as [c|]; [|done]. destruct (hex_val c); [|done].
  specialize (IH (i + 1)%nat (Z.lor (Z.shiftl v 4) z)). destruct (hex4_loop _ _ _ _); [lia|done..].
Qed.

Lemma hex4_advances i : advances b i (hex4 b i).
Proof.
  unfold hex4. destruct (_ <? _)%nat eqn:Hl; [done|]. bool_props.
  pose proof (hex4_loop_bounds 4 i 0) as Hb. destruct (hex4_loop _ _ _ _); simpl; [lia|done..].
Qed.

Lemma escape_at_advances i : advances b i (escape_at b i).
Proof.
  unfold escape_at. destruct (peek b i) as [e|] eqn:Hp; [|done]. apply peek_Some in Hp.
  repeat (case_if; [simpl; lia|]). case_if; [|done]. unfold unicode_escape.
  pose proof (hex4_advances (i + 1)) as H1. destruct (hex4 b (i + 1)) as [hi i1| |]; simpl in H1; [|done..].
  case_if.
  - repeat (case_if; [done|]). pose proof (hex4_advances (i1 + 2)) as H2.
    destruct (hex4 b (i1 + 2)) as [lo i2| |]; simpl in H2; [|done..]. case_if; [done|].
    destruct (char_from_u32 _); simpl; [lia|done].
  - destruct (char_from_u32 _); simpl; [lia|done].
Qed.

Lemma raw_char_at_advances i c : advances b i (raw_char_at b i c).
Proof.
  unfold raw_char_at. destruct (_ || _) eqn:Hx; [done|]. bool_props. case_if; simpl; [lia|done].
Qed.

Lemma string_loop_advances fuel i out :
  (length b - i < fuel)%nat → advances b i (string_loop b fuel i out).
Proof.
  revert i out. induction fuel as [|fuel IH]; intros i out Hf; [lia|]. cbn [string_loop].
  destruct (peek b i) as [c|] eqn:Hp; [|done]. apply peek_Some in Hp.
  case_if; [simpl; lia|].
  assert (Ha : advances b i (if c =b x5c then escape_at b (i + 1) else raw_char_at b i c)).
  { case_if; [|apply raw_char_at_advances].
    pose proof (escape_at_advances (i + 1)). destruct (escape_at b (i + 1)); simpl in *; [lia|done..]. }
  destruct (if c =b x5c then _ else _) as [s e| |]; simpl in Ha; [|done..].
  specialize (IH e (out ++ s) ltac:(lia)). destruct (string_loop b fuel e _); simpl in *; [lia|done..].
Qed.

Lemma scan_string_advances i : advances b i (scan_string b i).
Proof.
  unfold scan_string. case_if; [done|].
  pose proof (string_loop_advances (S (length b)) (i + 1) [] ltac:(lia)).
  destruct (string_loop _ _ _ _); simpl in *; [lia|done..].
Qed.

Lemma scalar_end_bounds fuel i :
  (i ≤ length b)%nat → (i ≤ scalar_end b fuel i ≤ length b)%nat.
Proof.
  revert i. induction fuel as [|fuel IH]; intros i Hi; simpl; [lia|].
  destruct (peek b i) eqn:Hp; [|lia]. apply peek_Some in Hp. case_if; [lia|].
  destruct (IH (i + 1)%nat); lia.
Qed.

Lemma advances_weaken {A} i j (r : scanr A) : (i ≤ j)%nat → advances b j r → advances b i r.
Proof. destruct r; simpl; [lia|done..]. Qed.

(** With fuel for twice the rest of the document, nesting and loops end by themselves. *)
Lemma skip_advances fuel i :
  ((2 * (length b - i) + 1 ≤ fuel)%nat → advances b i (skip_value b fuel i)) ∧
  ((2 * (length b - i) + 2 ≤ fuel)%nat → advances b i (skip_object b fuel i)) ∧
  ((2 * (length b - i) + 2 ≤ fuel)%nat → advances b i (skip_array b fuel i)).
Proof.
  revert i. induction fuel as [|fuel IH]; intros i; [lia|].
  cbn [skip_value skip_object skip_array]. pose proof (skip_ws_ge i) as Hge.
  set (j := skip_ws b i) in *. destruct (peek b j) as [c|] eqn:Hp; [|done].
  apply peek_Some in Hp. pose proof (scan_string_advances j) as Hstr.
  destruct (IH (j + 1)%nat) as (_ & IHo & IHa). destruct (IH j) as (IHv & _ & _).
  split; [|split]; intros Hf.
  - case_if. { destruct (scan_string b j); simpl in *; [lia|done..]. }
    case_if. { apply (advances_weaken i (j + 1)); [lia|]. apply IHo. lia. }
    case_if. { apply (advances_weaken i (j + 1)); [lia|]. apply IHa. lia. }
    cbv zeta. pose proof (scalar_end_bounds (length b) j ltac:(lia)).
    destruct (_ =? _)%nat eqn:He; [done|]. bool_props. simpl. lia.
  - case_if; [simpl; lia|].
    case_if. { apply (advances_weaken i (j + 1)); [lia|]. apply IHo. lia. }
    destruct (scan_string b j) as [s e| |]; simpl in Hstr; [|done..].
    pose proof (skip_ws_ge e). case_if; [done|].
    destruct (IH (skip_ws b e + 1)%nat) as (IHv2 & _ & _).
    specialize (IHv2 ltac:(lia)). destruct (skip_value b fuel (skip_ws b e + 1)) as [u e2| |]; simpl in IHv2; [|done..].
    destruct (IH e2) as (_ & IHo2 & _). apply (advances_weaken i e2); [lia|]. apply IHo2. lia.
  - case_if; [simpl; lia|].
    case_if. { apply (advances_weaken i (j + 1)); [lia|]. apply IHa. lia. }
    specialize (IHv ltac:(lia)). destruct (skip_value b fuel j) as [u e| |]; simpl in IHv; [|done..].
    destruct (IH e) as (_ & _ & IHa2). apply (advances_weaken i e); [lia|]. apply IHa2. lia.
Qed.

Lemma skip_value_at_advances i : advances b i (skip_value_at b i).
Proof. apply skip_advances. unfold value_fuel. lia. Qed.

Lemma find_loop_fuel fuel i key : (length b - i < fuel)%nat → find_loop b fuel i key ≠ SFuel.
Proof.
  revert i. induction fuel as [|fuel IH]; intros i Hf; [lia|]. cbn [find_loop].
  destruct (peek b i) as [c|] eqn:Hp; [|done]. apply peek_Some in Hp. case_if.
  - pose proof (scan_string_advances i). destruct (scan_string b i) as [s e| |]; simpl in *; [|done..].
    case_if; [done|]. pose proof (skip_ws_ge e). apply IH. lia.
  - apply IH. lia.
Qed.

Lemma json_obj_value_bounds c i v e : json_obj_value b c i = Some (v, e) → (i < e)%nat.
Proof.
  unfold json_obj_value. pose proof (skip_value_at_advances i) as Hs.
  destruct (skip_value_at b i) as [u j| |]; simpl in Hs; [|by repeat case_if..].
  case_if; [|case_if]; intros; repeat case_match; simplify_eq/=; lia.
Qed.

Lemma json_obj_loop_fuel fuel i out :
  (length b - i < fuel)%nat → is_Some (json_obj_loop b fuel i out).
Proof.
  revert i out. induction fuel as [|fuel IH]; intros i out Hf; [lia|]. cbn [json_obj_loop].
  pose proof (skip_ws_ge i). destruct (peek b (skip_ws b i)) as [c|] eqn:Hp; [|eauto].
  apply peek_Some in Hp. case_if; [eauto|]. case_if; [apply IH; lia|].
  pose proof (scan_string_advances (skip_ws b i)).
  destruct (scan_string b _) as [k j| |]; simpl in *; [|eauto..].
  case_if; [eauto|]. pose proof (skip_ws_ge j). pose proof (skip_ws_ge (skip_ws b j + 1)).
  destruct (peek b (skip_ws b (skip_ws b j + 1))) as [c2|] eqn:Hp2; [|eauto].
  destruct (json_obj_value _ _ _) as [[[v|] e]|] eqn:Hv; [..|eauto];
    apply json_obj_value_bounds in Hv; apply IH; lia.
Qed.

Lemma json_arr_loop_fuel fuel i out :
  (length b - i < fuel)%nat → is_Some (json_arr_loop b fuel i out).
Proof.
  revert i out. induction fuel as [|fuel IH]; intros i out Hf; [lia|]. cbn [json_arr_loop].
  pose proof (skip_ws_ge i). destruct (peek b (skip_ws b i)) as [c|] eqn:Hp; [|eauto].
  apply peek_Some in Hp. case_if; [eauto|]. case_if; [apply IH; lia|].
  pose proof (skip_value_at_advances (skip_ws b i)).
  destruct (skip_value_at b _) as [u j| |]; simpl in *; [|eauto..].
  case_if; [eauto|]. apply IH. lia.
Qed.
End bounds.

(** ** Reading back what [json_escape] wrote *)

Definition shift_r {A} (k : nat) (r : scanr A) : scanr A :=
  match r with SDone a i => SDone a (k + i) | SNone => SNone | SFuel => SFuel end.

(** What is in front of the index does not matter. *)
Section shift.
Context (pre b : list byte).

Lemma peek_shift i : peek (pre ++ b) (length pre + i) = peek b i.
Proof. unfold peek. rewrite lookup_app_r by lia. f_equal. lia. Qed.

Lemma slice_shift i n : slice (length pre + i) n (pre ++ b) = slice i n b.
Proof. unfold slice. by rewrite drop_app_add. Qed.

Lemma hex4_loop_shift n i v :
  hex4_loop (pre ++ b) n (length pre + i) v = shift_r (length pre) (hex4_loop b n i v).
Proof.
  revert i v. induction n as [|n IH]; intros i v; simpl; [done|]. rewrite peek_shift.
  destruct (peek b i) as [c|]; [|done]. destruct (hex_val c); [|done].
  by rewrite <- Nat.add_assoc, IH.
Qed.

Lemma hex4_shift i : hex4 (pre ++ b) (length pre + i) = shift_r (length pre) (hex4 b i).
Proof.
  unfold hex4. rewrite length_app, hex4_loop_shift.
  destruct (length b <? i + 4)%nat eqn:Hl; bool_props.
  - rewrite (proj2 (Nat.ltb_lt _ _)) by lia. done.
  - rewrite (proj2 (Nat.ltb_ge _ _)) by lia. done.
Qed.

Lemma unicode_escape_shift i :
  unicode_escape (pre ++ b) (length pre + i) = shift_r (length pre) (unicode_escape b i).
Proof.
  unfold unicode_escape. rewrite hex4_shift. destruct (hex4 b i) as [hi j| |]; [|done..].
  cbn [shift_r]. destruct ((55296 <=? hi) && (hi <? 56320)); [|done].
  rewrite <- !Nat.add_assoc, !peek_shift. repeat (case_if; [done|]).
  rewrite hex4_shift. destruct (hex4 b (j + 2)) as [lo k| |]; [|done..]. simpl. by case_if.
Qed.

Lemma escape_at_shift i :
  escape_at (pre ++ b) (length pre + i) = shift_r (length pre) (escape_at b i).
Proof.
  unfold escape_at. rewrite peek_shift. destruct (peek b i) as [e|]; [|done].
  rewrite <- Nat.add_assoc, unicode_escape_shift.
  repeat (case_if; [done|]). case_if; [|done].
  destruct (unicode_escape b (i + 1)); [|done..]. simpl. by destruct (char_from_u32 _).
Qed.

Lemma raw_char_at_shift i c :
  raw_char_at (pre ++ b) (length pre + i) c = shift_r (length pre) (raw_char_at b i c).
Proof.
  unfold raw_char_at. rewrite length_app, slice_shift.
  replace (length pre + length b <? length pre + i + utf8_len c)%nat
    with (length b <? i + utf8_len c)%nat.
  - case_if; [done|]. case_if; [|done]. simpl. by rewrite Nat.add_assoc.
  - apply eq_true_iff_eq. rewrite !Nat.ltb_lt. lia.
Qed.
End shift.

(** One turn of the string loop, at the head of what is left. *)
Definition string_item (b : list byte) (c : byte) : scanr (list byte) :=
  if c =b x5c then escape_at b 1 else raw_char_at b 0 c.

Lemma string_loop_step pre b c fuel out s k :
  b !! 0%nat = Some c → c ≠ x22 → string_item b c = SDone s k →
  string_loop (pre ++ b) (S fuel) (length pre) out =
    string_loop (pre ++ b) fuel (length pre + k) (out ++ s).
Proof.
  intros Hb Hc Hi. cbn [string_loop]. pose proof (peek_shift pre b 0) as Hp.
  rewrite Nat.add_0_r in Hp. rewrite Hp. unfold peek at 1. rewrite Hb.
  destruct (c =b x22) eqn:Hq; [by apply byte_eqb_eq in Hq|].
  pose proof (raw_char_at_shift pre b 0 c) as Hr. rewrite Nat.add_0_r in Hr.
  rewrite Hr, escape_at_shift. unfold string_item in Hi.
  destruct (c =b x5c); by rewrite Hi.
Qed.

Lemma utf8_len_char b c : is_char (b :: c) → utf8_len b = length (b :: c).
Proof.
  intros [_ Hs]. unfold utf8_step in Hs. unfold utf8_len, byte_in. pose proof (bz_range b).
  repeat (case_if_in Hs; simplify_eq; try (repeat case_if; bool_props; simpl in *; congruence || lia)).
Qed.

Lemma raw_char_item b c post :
  is_char (b :: c) → b ≠ x5c →
  string_item ((b :: c) ++ post) b = SDone (b :: c) (length (b :: c)).
Proof.
  intros Hc Hb. unfold string_item.
  destruct (b =b x5c) eqn:Hq; [by apply byte_eqb_eq in Hq|].
  unfold raw_char_at. rewrite (utf8_len_char b c Hc), length_app.
  assert (slice 0 (length (b :: c)) ((b :: c) ++ post) = b :: c) as ->
    by (unfold slice; by rewrite drop_0, take_app_length).
  rewrite utf8_valid_char by done.
  destruct (_ || _) eqn:Hx; [|done]. apply orb_true_iff in Hx as []; bool_props; simpl in *; lia.
Qed.

(** The turn that reads an escaped character back. *)
Lemma escape_char_item c post :
  is_char c →
  ∃ e r, escape_char c = e :: r ∧ e ≠ x22 ∧
    string_item (escape_char c ++ post) e = SDone c (length (escape_char c)).
Proof.
  intros Hc. destruct (code_point_char c Hc) as [(a & -> & Hcp & Ha)|(a & r & -> & Ha & Hcp)].
  - destruct (decide (a ∈ [x22; x5c; x0a; x0d; x09] ∨ bz a < 32)) as [Hs|Hs].
    + unfold escape_char. rewrite Hcp.
      assert (Hin : a ∈ map zb [34; 92] ++ map zb (seqZ 0 32)).
      { destruct Hs as [Hs|Hs].
        - repeat (apply elem_of_cons in Hs as [->|Hs]; [apply (bool_decide_unpack _); reflexivity|]).
          by apply elem_of_nil in Hs.
        - apply elem_of_app. right. rewrite <- (zb_bz a). apply list_elem_of_In, in_map, list_elem_of_In.
          apply elem_of_seqZ. pose proof (bz_range a). lia. }
      clear -Hin. revert a Hin. apply Forall_forall. repeat constructor;
        eexists _, _; (split; [reflexivity|]); (split; [discriminate|reflexivity]).
    + unfold escape_char. rewrite Hcp.
      assert (bz a ≠ 34 ∧ bz a ≠ 92 ∧ bz a ≠ 10 ∧ bz a ≠ 13 ∧ bz a ≠ 9 ∧ 32 <= bz a) as (?&?&?&?&?&?).
      { clear -Hs. apply Decidable.not_or in Hs as [Hs Hl]. split_and!; try lia;
          intros Hz; apply Hs; apply (f_equal zb) in Hz; rewrite zb_bz in Hz; subst a;
          apply (bool_decide_unpack _); reflexivity. }
      rewrite !(proj2 (Z.eqb_neq _ _)) by done. rewrite (proj2 (Z.ltb_ge _ _)) by done.
      exists a, []. split; [done|]. split; [by intros ->|]. apply raw_char_item; [done|]. by intros ->.
  - unfold escape_char. rewrite !(proj2 (Z.eqb_neq (code_point _) _)) by lia.
    rewrite (proj2 (Z.ltb_ge _ _)) by lia. exists a, r. split; [done|].
    split; [by intros ->|]. apply raw_char_item; [done|]. by intros ->.
Qed.

Lemma string_loop_chars cs pre post fuel out :
  Forall is_char cs → (length cs < fuel)%nat →
  let body := concat (map escape_char cs) in
  string_loop (pre ++ body ++ x22 :: post) fuel (length pre) out =
    SDone (out ++ concat cs) (length pre + length body + 1).
Proof.
  intros Hcs. revert pre fuel out. induction Hcs as [|c cs Hc Hcs IH]; intros pre fuel out Hf body;
    (destruct fuel as [|fuel]; [simpl in Hf; lia|]); unfold body; cbn [map concat].
  - cbn [string_loop app length]. pose proof (peek_shift pre (x22 :: post) 0) as Hp.
    rewrite Nat.add_0_r in Hp. rewrite Hp. simpl. by rewrite app_nil_r, Nat.add_0_r.
  - set (body' := concat (map escape_char cs)). rewrite <- !app_assoc.
    destruct (escape_char_item c (body' ++ x22 :: post) Hc) as (e & r & He & Hq & Hi).
    erewrite string_loop_step; [|by rewrite He|done|exact Hi].
    specialize (IH (pre ++ escape_char c) fuel (out ++ c) ltac:(simpl in Hf; lia)). cbv zeta in IH.
    fold body' in IH. rewrite length_app, <- !app_assoc in IH. rewrite IH, length_app. f_equal. lia.
Qed.

Lemma length_chars l : (length (chars l) ≤ length l)%nat.
Proof.
  unfold chars, utf8_chunks. rewrite length_fmap. generalize (length l) at 1. intros f.
  revert l. induction f as [|f IH]; intros [|b l]; cbn [utf8_chunks_fuel length]; try lia.
  pose proof (utf8_step_pos b l). destruct (utf8_step (b :: l)) as [ok n]. cbn [length snd] in *.
  specialize (IH (drop n (b :: l))). rewrite length_drop in IH. cbn [length] in IH. lia.
Qed.

Lemma length_escape cs : Forall is_char cs → (length cs ≤ length (concat (map escape_char cs)))%nat.
Proof.
  induction 1 as [|c cs Hc _ IH]; simpl; [lia|]. rewrite length_app.
  destruct (escape_char_item c [] Hc) as (e & r & -> & _). simpl. lia.
Qed.

(** The token [json_escape] and its quotes make, at the index of its opening quote. *)
Lemma scan_string_escape pre l post :
  utf8_valid l = true →
  scan_string (pre ++ x22 :: json_escape_b l ++ x22 :: post) (length pre) =
    SDone l (length pre + length (json_escape_b l) + 2).
Proof.
  intros Hl. unfold scan_string.
  set (b := pre ++ _). assert (Hp : peek b (length pre) = Some x22).
  { unfold b. pose proof (peek_shift pre (x22 :: json_escape_b l ++ x22 :: post) 0) as Hp.
    by rewrite Nat.add_0_r in Hp. }
  rewrite Hp, bool_decide_true by done. cbn [negb].
  assert (Hb : b = (pre ++ [x22]) ++ json_escape_b l ++ x22 :: post)
    by (unfold b; by rewrite <- app_assoc).
  pose proof (chars_valid l Hl) as Hcs. pose proof (length_escape _ Hcs).
  pose proof (string_loop_chars (chars l) (pre ++ [x22]) post (S (length b)) [] Hcs) as Hs.
  cbv zeta in Hs. fold (json_escape_b l) in Hs, H. rewrite <- Hb in Hs.
  rewrite length_app in Hs. cbn [length] in Hs. rewrite Hs.
  - rewrite concat_chars. f_equal. lia.
  - rewrite Hb, !length_app. simpl. lia.
Qed.

(** ** Objects with string fields *)

Definition field_text (f : list byte * list byte) : list byte :=
  x22 :: json_escape_b f.1 ++ x22 :: x3a :: x22 :: json_escape_b f.2 ++ [x22].
Fixpoint fields_text (fs : list (list byte * list byte)) : list byte :=
  match fs with
  | [] => []
  | [f] => field_text f
  | f :: fs => field_text f ++ x2c :: fields_text fs
  end.
Definition object_text (fs : list (list byte * list byte)) : list byte :=
  x7b :: fields_text fs ++ [x7d].

Definition field_valid (f : list byte * list byte) : Prop :=
  utf8_valid f.1 = true ∧ utf8_valid f.2 = true.

Lemma peek_at pre c post : peek (pre ++ c :: post) (length pre) = Some c.
Proof. unfold peek. by rewrite lookup_app_r, Nat.sub_diag by lia. Qed.

Lemma peek_ge b i : (length b ≤ i)%nat → peek b i = None.
Proof. apply lookup_ge_None_2. Qed.

Lemma skip_ws_at pre c post :
  is_ws c = false → skip_ws (pre ++ c :: post) (length pre) = length pre.
Proof.
  intros Hc. unfold skip_ws. destruct (length (pre ++ c :: post)); [done|].
  cbn [skip_ws_loop]. by rewrite peek_at, Hc.
Qed.

(** One [key:value] pair under [find_loop]: a match at its value, or on behind it. *)
Lemma find_loop_field pre k v c post fuel key :
  field_valid (k, v) → is_ws c = false → c ≠ x3a →
  let b := pre ++ field_text (k, v) ++ c :: post in
  find_loop b (S (S (S fuel))) (length pre) key =
    if bool_decide (k = key) then SDone () (length pre + length (json_escape_b k) + 3)
    else find_loop b fuel (length pre + length (field_text (k, v))) key.
Proof.
  intros [Hk Hv] Hws Hc b. cbn [fst snd] in Hk, Hv.
  set (ek := json_escape_b k). set (ev := json_escape_b v).
  assert (Hb1 : b = pre ++ x22 :: ek ++ x22 :: (x3a :: x22 :: ev ++ x22 :: c :: post)).
  { unfold b, field_text. cbn [fst snd]. fold ek ev. by app_norm. }
  set (p2 := pre ++ x22 :: ek ++ [x22]).
  assert (Hb2 : b = p2 ++ x3a :: x22 :: ev ++ x22 :: c :: post).
  { rewrite Hb1. unfold p2. by app_norm. }
  set (p3 := p2 ++ [x3a]).
  assert (Hb3 : b = p3 ++ x22 :: ev ++ x22 :: c :: post) by (rewrite Hb2; unfold p3; by rewrite <- app_assoc).
  set (p4 := p3 ++ x22 :: ev ++ [x22]).
  assert (Hb4 : b = p4 ++ c :: post).
  { rewrite Hb3. unfold p4. by app_norm. }
  assert (Hl2 : length p2 = (length pre + length ek + 2)%nat)
    by (unfold p2; rewrite length_app; simpl; rewrite length_app; simpl; lia).
  assert (Hl3 : length p3 = (length p2 + 1)%nat) by (unfold p3; by rewrite length_app).
  assert (Hl4 : length p4 = (length p3 + length ev + 2)%nat)
    by (unfold p4; rewrite length_app; simpl; rewrite length_app; simpl; lia).
  assert (Hlf : (length pre + length (field_text (k, v)))%nat = length p4).
  { unfold field_text. cbn [fst snd]. fold ek ev. simpl. rewrite length_app. simpl.
    rewrite length_app. simpl. lia. }
  rewrite Hlf. cbn [find_loop].
  rewrite Hb1 at 1. rewrite peek_at, byte_eqb_refl.
  assert (Hs1 : scan_string b (length pre) = SDone k (length p2))
    by (rewrite Hl2, Hb1; by apply scan_string_escape).
  assert (Hs3 : scan_string b (length p3) = SDone v (length p4))
    by (rewrite Hl4, Hb3; by apply scan_string_escape).
  assert (Hw2 : skip_ws b (length p2) = length p2) by (rewrite Hb2; by apply skip_ws_at).
  assert (Hw3 : skip_ws b (length p3) = length p3) by (rewrite Hb3; by apply skip_ws_at).
  assert (Hw4 : skip_ws b (length p4) = length p4) by (rewrite Hb4; by apply skip_ws_at).
  assert (Hp2 : peek b (length p2) = Some x3a) by (rewrite Hb2; apply peek_at).
  assert (Hp3 : peek b (length p3) = Some x22) by (rewrite Hb3; apply peek_at).
  assert (Hp4 : peek b (length p4) = Some c) by (rewrite Hb4; apply peek_at).
  clearbody b p2 p3 p4. rewrite Hs1, Hw2, Hp2, <- Hl3, Hw3.
  rewrite (bool_decide_true (Some x3a = Some x3a)) by done. cbn [andb].
  case_bool_decide as Hkey; [f_equal; lia|].
  assert ((x3a =b x22) = false) as -> by reflexivity. rewrite Hp3, byte_eqb_refl, Hs3, Hw4, Hp4.
  rewrite (bool_decide_false (Some c = Some x3a)) by congruence. done.
Qed.

(** The first field of a name. *)
Definition field_lookup (fs : list (list byte * list byte)) (key : list byte) : option (list byte) :=
  find_map (λ f, if bool_decide (f.1 = key) then Some f.2 else None) fs.

Lemma find_loop_skip pre c post fuel key :
  c ≠ x22 →
  find_loop (pre ++ c :: post) (S fuel) (length pre) key =
    find_loop (pre ++ c :: post) fuel (length pre + 1) key.
Proof.
  intros Hc. cbn [find_loop]. rewrite peek_at.
  destruct (c =b x22) eqn:Hq; [by apply byte_eqb_eq in Hq|done].
Qed.

Lemma length_field k v : (5 ≤ length (field_text (k, v)))%nat.
Proof. unfold field_text. simpl. rewrite length_app. simpl. rewrite length_app. simpl. lia. Qed.

(** Where the value of the field that [field_lookup] finds starts. *)
Lemma find_loop_fields fs pre fuel key b :
  Forall field_valid fs → b = pre ++ fields_text fs ++ [x7d] → (length b - length pre < fuel)%nat →
  match field_lookup fs key with
  | Some v => ∃ p q, b = p ++ x22 :: json_escape_b v ++ x22 :: q ∧ utf8_valid v = true ∧
      find_loop b fuel (length pre) key = SDone () (length p)
  | None => find_loop b fuel (length pre) key = SNone
  end.
Proof.
  intros Hfs. revert pre fuel b. induction Hfs as [|[k v] fs Hf Hfs IH]; intros pre fuel b Hb Hfu.
  { subst b. rewrite length_app in Hfu. simpl in Hfu. destruct fuel as [|[|fuel]]; [lia..|].
    cbn [fields_text app field_lookup find_map]. rewrite find_loop_skip by done. simpl.
    by rewrite peek_ge by (rewrite length_app; simpl; lia). }
  set (c := match fs with [] => x7d | _ => x2c end).
  set (post := match fs with [] => [] | _ => fields_text fs ++ [x7d] end).
  assert (Hb' : b = pre ++ field_text (k, v) ++ c :: post).
  { subst b c post. destruct fs; cbn [fields_text app]; [done|]. by rewrite <- app_assoc. }
  pose proof (length_field k v). rewrite Hb', !length_app in Hfu. cbn [length] in Hfu.
  destruct fuel as [|[|[|fuel]]]; [lia..|].
  pose proof (find_loop_field pre k v c post fuel key Hf) as Hstep. cbv zeta in Hstep.
  rewrite Hb', Hstep by (unfold c; by destruct fs). cbn [field_lookup find_map fst snd].
  case_bool_decide as Hk.
  - destruct Hf as [_ Hv]. exists (pre ++ x22 :: json_escape_b k ++ [x22; x3a]), (c :: post).
    split; [|split; [done|]].
    + unfold field_text. cbn [fst snd]. by app_norm.
    + f_equal. rewrite length_app. simpl. rewrite length_app. simpl. lia.
  - rewrite <- length_app. rewrite app_assoc. destruct fuel as [|fuel]; [lia|].
    assert (Hlen : (length ((pre ++ field_text (k, v)) ++ [c]) = length (pre ++ field_text (k, v)) + 1)%nat)
      by (by rewrite length_app).
    rewrite (find_loop_skip (pre ++ field_text (k, v)) c post), <- Hlen
      by (unfold c; by destruct fs).
    destruct fs as [|f fs].
    + subst c post. destruct fuel as [|fuel]; [lia|]. cbn [find_loop field_lookup find_map].
      by rewrite peek_ge by (rewrite !length_app; simpl; lia).
    + specialize (IH ((pre ++ field_text (k, v)) ++ [c]) fuel
        ((pre ++ field_text (k, v)) ++ c :: post)). apply IH.
      * subst post. by rewrite <- !app_assoc.
      * rewrite !length_app in *. simpl in *. lia.
Qed.

(** Reading a string value back through [span] and [scan_string]. *)
Lemma json_str_fields_b fs key :
  Forall field_valid fs →
  json_str (bstr (object_text fs)) (bstr key) = bstr <$> field_lookup fs key.
Proof.
  intros Hfs. unfold json_str. rewrite !sbytes_bstr. unfold span, find_value_start.
  set (b := object_text fs).
  assert (Hb : b = [x7b] ++ fields_text fs ++ [x7d]) by done.
  pose proof (find_loop_fields fs [x7b] (length b) key b Hfs Hb) as Hfind.
  assert (H0 : find_loop b (S (length b)) 0 key = find_loop b (length b) (length [x7b]) key) by done.
  rewrite H0. specialize (Hfind ltac:(rewrite Hb; simpl; lia)).
  destruct (field_lookup fs key) as [v|]; [|by rewrite Hfind].
  destruct Hfind as (p & q & Hpq & Hv & ->). rewrite Hpq at 1. rewrite peek_at.
  pose proof (scan_string_escape p v q Hv) as Hs. rewrite <- Hpq in Hs.
  assert (Hsk : skip_value_at b (length p) = SDone () (length p + length (json_escape_b v) + 2)).
  { unfold skip_value_at, value_fuel. cbn [Nat.mul Nat.add]. rewrite Nat.add_comm.
    cbn [Nat.add skip_value]. assert (Hw : skip_ws b (length p) = length p)
      by (rewrite Hpq; by apply skip_ws_at).
    assert (Hp : peek b (length p) = Some x22) by (rewrite Hpq; apply peek_at).
    by rewrite Hw, Hp, byte_eqb_refl, Hs. }
  rewrite Hsk. cbn [byte_eqb orb kind_at]. by rewrite Hs.
Qed.
(** ** Slices at character boundaries *)

Section boundaries.
Context (b : list byte) (Hb : utf8_valid b = true).

Lemma boundary_after i c : peek b i = Some c → bz c < 128 → is_char_boundary b (i + 1).
Proof. by apply ascii_boundary. Qed.

Lemma boundary_at i c : peek b i = Some c → bz c < 128 → is_char_boundary b i.
Proof.
  intros Hp Hc. right. exists c. split; [done|]. unfold is_cont, byte_in.
  apply andb_false_iff. left. apply Z.leb_gt. lia.
Qed.

Lemma byte_eqb_ascii c d : (c =b d) = true → bz d < 128 → bz c < 128.
Proof. by intros ->%byte_eqb_eq. Qed.

Lemma is_ws_ascii c : is_ws c = true → bz c < 128.
Proof. by destruct c. Qed.
Lemma is_delim_ascii c : is_delim c = true → bz c < 128.
Proof. by destruct c. Qed.

Lemma skip_ws_boundary i : is_char_boundary b i → is_char_boundary b (skip_ws b i).
Proof.
  unfold skip_ws. generalize (length b). intros f. revert i.
  induction f as [|f IH]; intros i Hi; simpl; [done|].
  destruct (peek b i) as [c|] eqn:Hp; [|done]. destruct (is_ws c) eqn:Hw; [|done].
  apply IH. eapply boundary_after; [done|]. by apply is_ws_ascii.
Qed.

Lemma string_loop_boundary fuel i out s e :
  string_loop b fuel i out = SDone s e → is_char_boundary b e.
Proof.
  revert i out. induction fuel as [|fuel IH]; intros i out; cbn [string_loop]; [done|].
  destruct (peek b i) as [c|] eqn:Hp; [|done].
  destruct (c =b x22) eqn:Hc.
  - intros [= _ <-]. eapply boundary_after; [done|]. by eapply byte_eqb_ascii.
  - destruct (if c =b x5c then _ else _); [|done..]. apply IH.
Qed.

Lemma scan_string_boundary i s e : scan_string b i = SDone s e → is_char_boundary b e.
Proof. unfold scan_string. case_if; [done|]. apply string_loop_boundary. Qed.

Lemma scalar_end_boundary fuel i :
  (length b ≤ i + fuel)%nat → (i ≤ length b)%nat → is_char_boundary b (scalar_end b fuel i).
Proof.
  revert i. induction fuel as [|fuel IH]; intros i Hf Hi; simpl.
  - left. lia.
  - destruct (peek b i) as [c|] eqn:Hp.
    + pose proof (peek_Some b i c Hp). destruct (is_delim c) eqn:Hd; [|apply IH; lia].
      eapply boundary_at; [done|]. by apply is_delim_ascii.
    + left. apply lookup_ge_None in Hp. lia.
Qed.

Lemma skip_boundary fuel i :
  (∀ e, skip_value b fuel i = SDone () e → is_char_boundary b e) ∧
  (∀ e, skip_object b fuel i = SDone () e → is_char_boundary b e) ∧
  (∀ e, skip_array b fuel i = SDone () e → is_char_boundary b e).
Proof.
  revert i. induction fuel as [|fuel IH]; intros i; [done|].
  cbn [skip_value skip_object skip_array]. set (j := skip_ws b i).
  destruct (peek b j) as [c|] eqn:Hp; [|done].
  assert (Hj := peek_Some _ _ _ Hp).
  destruct (IH (j + 1)%nat) as (_ & IHo & IHa). split; [|split]; intros e.
  - case_if. { destruct (scan_string b j) eqn:Hs; [|done..]. intros [= <-]. by eapply scan_string_boundary. }
    case_if; [apply IHo|]. case_if; [apply IHa|]. cbv zeta. destruct (_ =? _)%nat; [done|].
    intros [= <-]. apply scalar_end_boundary; lia.
  - destruct (c =b x7d) eqn:Hc.
    { intros [= <-]. eapply boundary_after; [done|]. by eapply byte_eqb_ascii. }
    case_if; [apply IHo|]. destruct (scan_string b j) as [s k| |]; [|done..].
    case_if; [done|]. destruct (skip_value b fuel (skip_ws b k + 1)) as [[] e2| |]; [|done..].
    apply (IH e2).
  - destruct (c =b x5d) eqn:Hc.
    { intros [= <-]. eapply boundary_after; [done|]. by eapply byte_eqb_ascii. }
    case_if; [apply IHa|]. destruct (skip_value b fuel j) as [[] e2| |]; [|done..].
    apply (IH e2).
Qed.

Lemma find_loop_boundary fuel i key e :
  find_loop b fuel i key = SDone () e → is_char_boundary b e.
Proof.
  revert i. induction fuel as [|fuel IH]; intros i; cbn [find_loop]; [done|].
  destruct (peek b i) as [c|]; [|done]. case_if; [|apply IH].
  destruct (scan_string b i) as [s k| |]; [|done..].
  destruct (bool_decide (peek b (skip_ws b k) = Some x3a)) eqn:Hp; cbn [andb]; [|apply IH].
  apply bool_decide_eq_true in Hp. case_if; [|apply IH].
  intros [= <-]. by eapply skip_ws_boundary, boundary_after.
Qed.
End boundaries.

(** ** Properties *)

(** the scan always ends by itself and inside the document. For every byte sequence, every
    start and every key, no loop and no nesting runs out of the fuel the accessors pass, and every
    value or string skipped ends strictly behind its start and not past the end. *)
Theorem json_scan_total b i key :
  advances b i (scan_string b i) ∧ advances b i (skip_value_at b i) ∧
  find_loop b (S (length b)) 0 key ≠ SFuel ∧
  is_Some (json_obj_loop b (S (length b)) i ∅) ∧ is_Some (json_arr_loop b (S (length b)) i []).
Proof.
  split; [apply scan_string_advances|]. split; [apply skip_value_at_advances|].
  split; [apply find_loop_fuel; lia|]. split; [apply json_obj_loop_fuel|apply json_arr_loop_fuel]; lia.
Qed.

(** the text slices the accessors cut out of a document never split a character, so they
    cannot panic: the value span of every key starts and ends at a character boundary inside the
    document, and so does every value skipped from such a boundary. *)
Theorem json_slices_on_boundaries b :
  utf8_valid b = true →
  (∀ key k s e, span b key = Some (k, s, e) →
     (s < e ≤ length b)%nat ∧ is_char_boundary b s ∧ is_char_boundary b e) ∧
  (∀ i e, is_char_boundary b i → skip_value_at b i = SDone () e →
     is_char_boundary b (skip_ws b i) ∧ is_char_boundary b e).
Proof.
  intros Hb. split.
  - intros key k s e. unfold span, find_value_start.
    destruct (find_loop b (S (length b)) 0 key) as [[] s'| |] eqn:Hf; [|done..].
    destruct (peek b s') as [c|]; [|done]. pose proof (skip_value_at_advances b s') as Ha.
    destruct (skip_value_at b s') as [[] e'| |] eqn:Hs; [|done..]. intros [= _ <- <-].
    split; [done|]. split; [by eapply find_loop_boundary|].
    exact (proj1 (skip_boundary b Hb (value_fuel b) s') _ Hs).
  - intros i e Hi Hs. split; [by apply skip_ws_boundary|]. exact (proj1 (skip_boundary b Hb _ i) _ Hs).
Qed.

(** escaping and scanning are inverse. A token made of [json_escape] of any text between
    quotes, wherever it stands in a document, is read back as exactly that text, and the scan goes
    on right behind the closing quote. *)
Theorem json_escape_roundtrip pre s post :
  utf8_valid (sbytes s) = true →
  let doc := pre ++ x22 :: sbytes (json_escape s) ++ x22 :: post in
  scan_string doc (length pre) = SDone (sbytes s) (length pre + length (sbytes (json_escape s)) + 2).
Proof.
  intros Hs doc. unfold doc, json_escape. rewrite sbytes_bstr. by apply scan_string_escape.
Qed.

(** [json_str] reads the field it is asked for. In an object whose fields are strings with any
    names and any contents (quotes, colons, braces, the text of other keys), the value returned for
    a key is that of the first field of exactly this name, unescaped; absent names yield nothing. *)
Theorem json_str_first_field fs key :
  Forall field_valid fs →
  json_str (bstr (object_text fs)) (bstr key) = bstr <$> field_lookup fs key.
Proof. apply json_str_fields_b. Qed.

(** Documents of the examples are written with single quotes. *)
Definition js (s : string) : string := bstr (map (λ c, if c =b x27 then x22 else c) (sbytes s)).

Example json_str_key : json_str (js "{'a':'b:1','b': 'x\u0041\ud83d\ude00'}") "b" =
  Some (bstr (sbytes "xA" ++ [xf0; x9f; x98; x80])).
Proof. vm_compute. reflexivity. Qed.

Lemma json_slices_on_boundaries_witness :
  let b := sbytes (js "{'k': [1, 'x'] }") in
  (∀ key k s e, span b key = Some (k, s, e) →
     (s < e ≤ length b)%nat ∧ is_char_boundary b s ∧ is_char_boundary b e) ∧
  (∀ i e, is_char_boundary b i → skip_value_at b i = SDone () e →
     is_char_boundary b (skip_ws b i) ∧ is_char_boundary b e).
Proof. apply json_slices_on_boundaries. reflexivity. Defined.

Lemma json_escape_roundtrip_witness :
  scan_string ([x61] ++ x22 :: sbytes (json_escape (bstr [x22; x0a; x1f; xc3; xa9])) ++ x22 :: [x2c]) 1 =
    SDone [x22; x0a; x1f; xc3; xa9] 15.
Proof. apply (json_escape_roundtrip [x61] (bstr [x22; x0a; x1f; xc3; xa9]) [x2c]). reflexivity. Defined.

Lemma json_str_first_field_witness :
  json_str (bstr (object_text [(sbytes "OwnerId", sbytes (js "'Owner':'x'")); (sbytes "Owner", sbytes "me")]))
    "Owner" = Some "me"%string.
Proof.
  apply (json_str_first_field
    [(sbytes "OwnerId", sbytes (js "'Owner':'x'")); (sbytes "Owner", sbytes "me")] (sbytes "Owner")).
  repeat apply Forall_cons_2; try apply Forall_nil_2; split; reflexivity.
Defined.
