(* ===== verification/JsonDoc.v ===== *)
(** * Documents and the JSON reader

    A document as a tree with its spelling: the reader of [Json], which scans
    bytes, is compared with look-ups in the tree.  Strings carry the bytes
    between their quotes and the text these decode to; white space may stand
    around every value and every key.  [printed] relates a value of the broker
    to the documents a printer may write for it. *)

From S2P Require Import Prelude RustStr Json.
#[local] Open Scope Z_scope.
#[local] Set Warnings "-register-all".

(** ** Documents *)

Inductive Doc :=
  | DStr (raw text : list byte)
  | DScalar (t : list byte)
  | DArr (w : list byte) (l : list Doc)
  | DObj (w : list byte) (l : list Field)
  | DPad (w1 : list byte) (d : Doc) (w2 : list byte)
with Field := mkField (before raw text after : list byte) (value : Doc).

Definition f_text (f : Field) : list byte := let '(mkField _ _ t _ _) := f in t.
Definition f_value (f : Field) : Doc := let '(mkField _ _ _ _ d) := f in d.

(** What follows the first of a run of items, a comma before each. *)
Definition tails (l : list (list byte)) : list byte := concat (map (cons x2c) l).
Definition commas (l : list (list byte)) : list byte :=
  match l with [] => [] | x :: l => x ++ tails l end.

Fixpoint render (d : Doc) : list byte :=
  match d with
  | DStr raw _ => x22 :: raw ++ [x22]
  | DScalar t => t
  | DArr w l => x5b :: w ++ commas (map render l) ++ [x5d]
  | DObj w l => x7b :: w ++ commas (map render_field l) ++ [x7d]
  | DPad w1 d w2 => w1 ++ render d ++ w2
  end
with render_field (f : Field) : list byte :=
  let '(mkField before raw _ after d) := f in before ++ x22 :: raw ++ x22 :: after ++ x3a :: render d.

Definition ws (w : list byte) : Prop := Forall (λ c, is_ws c = true) w.

(** [at_ b i s]: behind index [i] of [b] stands [s]. *)
Definition at_ (b : list byte) (i : nat) (s : list byte) : Prop := ∃ pre, b = pre ++ s ∧ i = length pre.

(** The bytes between two quotes that decode to [text]. *)
Definition token (raw text : list byte) : Prop :=
  ∀ b i s, at_ b i (x22 :: raw ++ x22 :: s) → scan_string b i = SDone text (i + length raw + 2).

(** A number or a name: no quote, no bracket, no delimiter. *)
Definition scalar (t : list byte) : Prop :=
  t ≠ [] ∧ Forall (λ c, is_delim c = false ∧ c ≠ x22 ∧ c ≠ x7b ∧ c ≠ x5b ∧ c ≠ x3a) t.

Inductive wf : Doc → Prop :=
  | wf_str raw text : token raw text → wf (DStr raw text)
  | wf_scalar t : scalar t → wf (DScalar t)
  | wf_arr w l : ws w → Forall wf l → wf (DArr w l)
  | wf_obj w l : ws w → Forall wf_field l → wf (DObj w l)
  | wf_pad w1 d w2 : ws w1 → ws w2 → wf d → wf (DPad w1 d w2)
with wf_field : Field → Prop :=
  | wf_mk before raw text after d : ws before → ws after → token raw text → wf d → wf_field (mkField before raw text after d).

(** Without the white space around it. *)
Fixpoint core (d : Doc) : Doc := match d with DPad _ d _ => core d | _ => d end.

(** The reference look-up: the value of the first field of this name, in document order, at any
    depth. *)
Fixpoint find_doc (key : list byte) (d : Doc) : option Doc :=
  match d with
  | DStr _ _ | DScalar _ => None
  | DArr _ l => find_map (find_doc key) l
  | DObj _ l => find_map (find_field key) l
  | DPad _ d _ => find_doc key d
  end
with find_field (key : list byte) (f : Field) : option Doc :=
  let '(mkField _ _ text _ d) := f in if bool_decide (text = key) then Some (core d) else find_doc key d.

(** Induction through the lists. *)
Section doc_rect.
Context (P : Doc → Prop).
Hypothesis (Hs : ∀ raw text, token raw text → P (DStr raw text)).
Hypothesis (Hc : ∀ t, scalar t → P (DScalar t)).
Hypothesis (Ha : ∀ w l, ws w → Forall wf l → Forall P l → P (DArr w l)).
Hypothesis (Ho : ∀ w l, ws w → Forall wf_field l → Forall (λ f, P (f_value f)) l → P (DObj w l)).
Hypothesis (Hp : ∀ w1 d w2, ws w1 → ws w2 → wf d → P d → P (DPad w1 d w2)).

Fixpoint doc_ind (d : Doc) : wf d → P d.
Proof.
  destruct d as [raw text|t|w l|w l|w1 d w2]; intros H.
  - apply Hs. by inversion H.
  - apply Hc. by inversion H.
  - assert (Hl : Forall wf l) by (by inversion H). apply Ha; [by inversion H|done|]. clear H.
    induction l as [|x l IH]; [constructor|]. inversion Hl; subst. constructor; [by apply doc_ind|by apply IH].
  - assert (Hl : Forall wf_field l) by (by inversion H). apply Ho; [by inversion H|done|]. clear H.
    induction l as [|[bf raw text af v] l IH]; [constructor|]. inversion Hl as [|? ? Hf Hl']; subst.
    constructor; [apply doc_ind; by inversion Hf|by apply IH].
  - assert (Hd : wf d) by (by inversion H). apply Hp; [by inversion H|by inversion H|done|by apply doc_ind].
Qed.
End doc_rect.

(** ** Positions *)

Lemma at_peek b i c s : at_ b i (c :: s) → peek b i = Some c.
Proof. intros (pre & -> & ->). apply peek_at. Qed.

Lemma at_end b i : at_ b i [] → peek b i = None.
Proof. intros (pre & -> & ->). rewrite app_nil_r. apply peek_ge. lia. Qed.

Lemma at_app b i x s : at_ b i (x ++ s) → at_ b (i + length x) s.
Proof. intros (pre & -> & ->). exists (pre ++ x). by rewrite <- app_assoc, length_app. Qed.

Lemma at_cons b i c s : at_ b i (c :: s) → at_ b (i + 1) s.
Proof. apply (at_app b i [c]). Qed.

Lemma at_length b i s : at_ b i s → length b = (i + length s)%nat.
Proof. intros (pre & -> & ->). by rewrite length_app. Qed.

Lemma at_start b : at_ b 0 b.
Proof. by exists []. Qed.

Lemma at_slice b i x s : at_ b i (x ++ s) → slice i (length x) b = x.
Proof.
  intros (pre & -> & ->). unfold slice. rewrite drop_app_length, take_app_length. done.
Qed.

(** ** White space *)

(** The first byte that is not white space. *)
Fixpoint ink (s : list byte) : option byte :=
  match s with [] => None | c :: s => if is_ws c then ink s else Some c end.

Lemma ink_ws w s : ws w → ink (w ++ s) = ink s.
Proof. induction 1 as [|c w Hc _ IH]; simpl; [done|by rewrite Hc]. Qed.

Lemma ws_loop_run b w : ∀ fuel i c s, at_ b i (w ++ c :: s) → ws w → is_ws c = false →
  (length w < fuel)%nat → skip_ws_loop b fuel i = (i + length w)%nat.
Proof.
  induction w as [|x w IH]; intros [|fuel] i c s Ha Hw Hc Hf; simpl in Hf; try lia; cbn [app] in Ha; cbn [skip_ws_loop];
    rewrite (at_peek _ _ _ _ Ha).
  - rewrite Hc. simpl. lia.
  - inversion Hw as [|? ? Hx Hw']; subst. rewrite Hx. rewrite (IH fuel (i + 1)%nat c s); [simpl; lia|by eapply at_cons|done..|lia].
Qed.

Lemma skip_ws_run b i w c s : at_ b i (w ++ c :: s) → ws w → is_ws c = false → skip_ws b i = (i + length w)%nat.
Proof.
  intros Ha Hw Hc. unfold skip_ws. eapply ws_loop_run; [done..|].
  rewrite (at_length _ _ _ Ha), length_app. simpl. lia.
Qed.

Lemma ws_loop_end b w : ∀ fuel i, at_ b i w → ws w → (length w ≤ fuel)%nat → skip_ws_loop b fuel i = (i + length w)%nat.
Proof.
  induction w as [|x w IH]; intros fuel i Ha Hw Hf.
  - destruct fuel; cbn [skip_ws_loop]; [simpl; lia|]. rewrite (at_end _ _ Ha). simpl. lia.
  - destruct fuel as [|fuel]; simpl in Hf; [lia|]. cbn [skip_ws_loop]. rewrite (at_peek _ _ _ _ Ha).
    inversion Hw as [|? ? Hx Hw']; subst. rewrite Hx, (IH fuel (i + 1)%nat); [simpl; lia|by eapply at_cons|done|lia].
Qed.

Lemma ink_split s : ∃ w, ws w ∧ match ink s with Some c => is_ws c = false ∧ ∃ s', s = w ++ c :: s' | None => s = w end.
Proof.
  induction s as [|c s (w & Hw & IH)]; simpl; [by exists []; split; [constructor|]|]. destruct (is_ws c) eqn:Hc.
  - exists (c :: w). split; [by constructor|]. destruct (ink s); [|by subst]. destruct IH as (? & s' & ->). eauto.
  - exists []. split; [constructor|]. eauto.
Qed.

Lemma peek_skip_ws b i s : at_ b i s → peek b (skip_ws b i) = ink s.
Proof.
  intros Ha. destruct (ink_split s) as (w & Hw & H). destruct (ink s) as [c|].
  - destruct H as (Hc & s' & ->). rewrite (skip_ws_run _ _ _ _ _ Ha Hw Hc). eapply at_peek. by eapply at_app.
  - subst s. unfold skip_ws. rewrite ws_loop_end with (w := w); [|done|done|rewrite (at_length _ _ _ Ha); lia].
    apply at_end. apply (at_app b i w). by rewrite app_nil_r.
Qed.

(** ** Shapes *)

Lemma padded d : wf d → ∃ w1 w2, ws w1 ∧ ws w2 ∧ render d = w1 ++ render (core d) ++ w2 ∧ wf (core d).
Proof.
  intros H. induction H as [raw text Ht|t Ht|w l Hw Hl _|w l Hw Hl _|w1 d w2 Hw1 Hw2 Hd IH] using doc_ind; cbn [core];
    try (exists [], []; cbn [app]; rewrite app_nil_r; split_and!; [constructor..|done|by constructor]).
  destruct IH as (u1 & u2 & Hu1 & Hu2 & E & Hc). exists (w1 ++ u1), (u2 ++ w2). split_and!; [by apply Forall_app..| |done].
  cbn [render]. by rewrite E, <- !app_assoc.
Qed.

(** What a value without white space starts with. *)
Lemma core_head d : wf d → ∃ c r, render (core d) = c :: r ∧ is_delim c = false.
Proof.
  intros H. induction H as [raw text Ht|t [Hn Ht]|w l Hw Hl _|w l Hw Hl _|w1 d w2 Hw1 Hw2 Hd IH] using doc_ind; cbn [core render];
    [by eexists _, _| |by eexists _, _..|done].
  destruct t as [|c t]; [done|]. inversion Ht as [|? ? [? _]]; subst. eauto.
Qed.

Lemma delim_parts c : is_delim c = false → (c =b x2c) = false ∧ (c =b x7d) = false ∧ (c =b x5d) = false ∧ is_ws c = false.
Proof. unfold is_delim. rewrite !orb_false_iff. tauto. Qed.

Lemma ws_delim w c s : ws w → is_delim c = true → ∃ c' s', w ++ c :: s = c' :: s' ∧ is_delim c' = true.
Proof.
  intros Hw Hc. destruct Hw as [|x w Hx Hw]; [by eexists _, _|]. eexists _, _. split; [reflexivity|].
  unfold is_delim. by rewrite Hx, !orb_true_r.
Qed.

(** ** Skipping a value *)

Lemma scalar_run b t : ∀ fuel i c s, at_ b i (t ++ c :: s) → Forall (λ c, is_delim c = false) t → is_delim c = true →
  (length t ≤ fuel)%nat → scalar_end b fuel i = (i + length t)%nat.
Proof.
  induction t as [|x t IH]; intros fuel i c s Ha Ht Hc Hf.
  - cbn [app] in Ha. simpl. destruct fuel; cbn [scalar_end]; [lia|]. rewrite (at_peek _ _ _ _ Ha), Hc. lia.
  - destruct fuel as [|fuel]; simpl in Hf; [lia|]. cbn [app] in Ha. cbn [scalar_end]. rewrite (at_peek _ _ _ _ Ha).
    inversion Ht as [|? ? Hx Ht']; subst. rewrite Hx.
    rewrite (IH fuel (i + 1)%nat c s); [simpl; lia|by eapply at_cons|done|done|lia].
Qed.

(** [skips b x]: from any position of [b] a value [x] is skipped to its end. *)
Definition skips (b : list byte) (x : Doc) : Prop := ∀ i c s fuel,
  at_ b i (render (core x) ++ c :: s) → is_delim c = true → (2 * (length b - i) + 1 ≤ fuel)%nat →
  skip_value b fuel i = SDone () (i + length (render (core x))).

(** The white space in front of an item, the item, and the white space behind it. *)
Lemma item_at b i w x c s : ws w → wf x → is_delim c = true → at_ b i (w ++ render x ++ c :: s) →
  ∃ j w2 c' s' h, at_ b j (render (core x) ++ c' :: s') ∧ is_delim c' = true ∧ skip_ws b i = j ∧
    peek b j = Some h ∧ is_delim h = false ∧ at_ b (j + length (render (core x))) (w2 ++ c :: s) ∧ ws w2 ∧
    (i ≤ j)%nat ∧ (i + length w + length (render x) = j + length (render (core x)) + length w2)%nat ∧
    (0 < length (render (core x)))%nat.
Proof.
  intros Hw Hx Hc Ha. destruct (padded x Hx) as (u1 & u2 & Hu1 & Hu2 & E & _). destruct (core_head x Hx) as (h & r & Eh & Hh).
  destruct (ws_delim u2 c s Hu2 Hc) as (c' & s' & Es & Hc').
  assert (Ha' : at_ b i ((w ++ u1) ++ render (core x) ++ u2 ++ c :: s)) by (rewrite E in Ha; by rewrite <- !app_assoc in *).
  assert (Hj : at_ b (i + length (w ++ u1)) (render (core x) ++ u2 ++ c :: s)) by by apply at_app.
  exists (i + length (w ++ u1))%nat, u2, c', s', h. rewrite <- Es. split_and!; try done.
  - rewrite Eh in Ha'. eapply (skip_ws_run b i (w ++ u1) h); [exact Ha'|by apply Forall_app|]. apply (delim_parts _ Hh).
  - rewrite Eh in Hj. by eapply at_peek.
  - by apply at_app.
  - lia.
  - rewrite E, !length_app. lia.
  - rewrite Eh. simpl. lia.
Qed.

Lemma skip_ws_idle b i c : peek b i = Some c → is_ws c = false → skip_ws b i = i.
Proof.
  intros Hp Hc. pose proof (peek_Some b i c Hp). unfold skip_ws. destruct (length b); [lia|]. cbn [skip_ws_loop]. by rewrite Hp, Hc.
Qed.

Lemma skip_array_item b x w i c s fuel : skips b x → ws w → wf x → is_delim c = true →
  at_ b i (w ++ render x ++ c :: s) → (2 * (length b - i) + 2 ≤ fuel)%nat →
  ∃ w2 j fuel', skip_array b fuel i = skip_array b fuel' j ∧ at_ b j (w2 ++ c :: s) ∧ ws w2 ∧
    (2 * (length b - j) + 2 ≤ fuel')%nat ∧ (i + length w + length (render x) = j + length w2)%nat.
Proof.
  intros Hs Hw Hx Hc Ha Hf. destruct (item_at b i w x c s Hw Hx Hc Ha) as (j & w2 & c' & s' & h & Hj & Hc' & Ej & Hp & Hh & Hend & Hw2 & Hij & Hl & Hpos).
  destruct fuel as [|fuel]; [lia|]. destruct (delim_parts h Hh) as (D1 & D2 & D3 & D4).
  exists w2, (j + length (render (core x)))%nat, fuel. split_and!; [|done|done| |lia].
  - cbn [skip_array]. rewrite Ej, Hp, D3, D1. by rewrite (Hs j c' s' fuel) by (done || lia).
  - pose proof (at_length _ _ _ Hj) as E. rewrite length_app in E. lia.
Qed.

Lemma tails_head l e s : is_delim e = true → ∃ c r, tails l ++ e :: s = c :: r ∧ is_delim c = true.
Proof. intros He. destruct l; cbn; eexists _, _; by split. Qed.

Lemma tails_cons x l e s : tails (x :: l) ++ e :: s = x2c :: x ++ tails l ++ e :: s.
Proof. unfold tails. cbn [map concat app]. by rewrite <- app_assoc. Qed.

Lemma length_tails_cons x l : length (tails (x :: l)) = S (length x + length (tails l)).
Proof. unfold tails. cbn [map concat app length]. by rewrite length_app. Qed.

(** From behind an item to the end of the list. *)
Lemma skip_array_tails b l : Forall wf l → Forall (skips b) l → ∀ w i s fuel, ws w →
  at_ b i (w ++ tails (map render l) ++ x5d :: s) → (2 * (length b - i) + 2 ≤ fuel)%nat →
  skip_array b fuel i = SDone () (i + length w + length (tails (map render l)) + 1).
Proof.
  induction l as [|x l IH]; intros Hl Hs w i s fuel Hw Ha Hf; (destruct fuel as [|fuel]; [lia|]); cbn [skip_array].
  - rewrite (skip_ws_run b i w x5d s) by done. apply at_app in Ha. rewrite (at_peek _ _ _ _ Ha). simpl. f_equal. lia.
  - inversion Hl as [|? ? Hx Hl']; inversion Hs as [|? ? Hsx Hs']; subst. cbn [map] in Ha |- *. rewrite tails_cons in Ha.
    rewrite (skip_ws_run b i w x2c _ Ha Hw eq_refl). apply at_app in Ha. rewrite (at_peek _ _ _ _ Ha). apply at_cons in Ha.
    change (x2c =b x5d) with false. change (x2c =b x2c) with true. cbv iota.
    destruct (tails_head (map render l) x5d s eq_refl) as (c & r & E & Hc). rewrite E in Ha.
    destruct (skip_array_item b x [] _ c r fuel Hsx ltac:(constructor) Hx Hc Ha) as (w2 & j & fuel' & -> & Hj & Hw2 & Hf' & Hl2);
      [pose proof (at_length _ _ _ Ha); rewrite length_app in *; simpl in *; lia|].
    rewrite <- E in Hj. rewrite (IH Hl' Hs' w2 j s fuel') by done. f_equal. rewrite length_tails_cons. simpl in *. lia.
Qed.

Lemma skip_array_run b l : Forall wf l → Forall (skips b) l → ∀ w i s fuel, ws w →
  at_ b i (w ++ commas (map render l) ++ x5d :: s) → (2 * (length b - i) + 2 ≤ fuel)%nat →
  skip_array b fuel i = SDone () (i + length w + length (commas (map render l)) + 1).
Proof.
  intros Hl Hs w i s fuel Hw Ha Hf. destruct l as [|x l]; [by apply (skip_array_tails b []) with (s := s)|].
  inversion Hl as [|? ? Hx Hl']; inversion Hs as [|? ? Hsx Hs']; subst. cbn [map commas] in Ha |- *. rewrite <- app_assoc in Ha.
  destruct (tails_head (map render l) x5d s eq_refl) as (c & r & E & Hc). rewrite E in Ha.
  destruct (skip_array_item b x w i c r fuel Hsx Hw Hx Hc Ha Hf) as (w2 & j & fuel' & -> & Hj & Hw2 & Hf' & Hl2).
  rewrite <- E in Hj. rewrite (skip_array_tails b l Hl' Hs' w2 j s fuel') by done. f_equal. rewrite length_app. lia.
Qed.

(** The same for the fields of an object. *)
Lemma field_at b i w f c s : ws w → wf_field f → is_delim c = true → at_ b i (w ++ render_field f ++ c :: s) →
  ∃ j k m after, skip_ws b i = j ∧ peek b j = Some x22 ∧ scan_string b j = SDone (f_text f) k ∧
    skip_ws b k = m ∧ peek b m = Some x3a ∧ at_ b (m + 1) ([] ++ render (f_value f) ++ c :: s) ∧ at_ b k (after ++ x3a :: render (f_value f) ++ c :: s) ∧ ws after ∧
    (i ≤ j)%nat ∧ (j < k)%nat ∧ (k ≤ m)%nat ∧ (i + length w + length (render_field f) = m + 1 + length (render (f_value f)))%nat.
Proof.
  intros Hw Hf Hc Ha. destruct f as [bf raw text af d]. inversion Hf as [? ? ? ? ? Hbf Haf Ht Hd]; subst. cbn [render_field f_text f_value] in *.
  assert (Ha1 : at_ b i ((w ++ bf) ++ x22 :: raw ++ x22 :: af ++ x3a :: render d ++ c :: s)).
  { revert Ha. rewrite <- !app_assoc. cbn [app]. rewrite <- !app_assoc. cbn [app]. by rewrite <- !app_assoc. }
  pose proof (at_app _ _ _ _ Ha1) as Ha2. set (j := (i + length (w ++ bf))%nat) in *.
  pose proof (Ht _ _ _ Ha2) as Hs.
  assert (Ha3 : at_ b (j + length raw + 2) (af ++ x3a :: render d ++ c :: s)).
  { replace (j + length raw + 2)%nat with (j + length (x22 :: raw ++ [x22]))%nat by (simpl; rewrite length_app; simpl; lia).
    apply at_app. cbn [app]. by rewrite <- app_assoc. }
  exists j, (j + length raw + 2)%nat, (j + length raw + 2 + length af)%nat, af. split_and!; try done.
  - eapply (skip_ws_run b i (w ++ bf)); [exact Ha1|by apply Forall_app|done].
  - by eapply at_peek.
  - by eapply skip_ws_run.
  - apply at_app in Ha3. by eapply at_peek.
  - apply at_app in Ha3. by eapply at_cons.
  - lia.
  - lia.
  - lia.
  - unfold j. rewrite !length_app. simpl. rewrite !length_app. simpl. rewrite !length_app. simpl. lia.
Qed.

Lemma skip_object_item b f w i c s fuel : skips b (f_value f) → ws w → wf_field f → is_delim c = true →
  at_ b i (w ++ render_field f ++ c :: s) → (2 * (length b - i) + 2 ≤ fuel)%nat →
  ∃ w2 j fuel', skip_object b fuel i = skip_object b fuel' j ∧ at_ b j (w2 ++ c :: s) ∧ ws w2 ∧
    (2 * (length b - j) + 2 ≤ fuel')%nat ∧ (i + length w + length (render_field f) = j + length w2)%nat.
Proof.
  intros Hs Hw Hx Hc Ha Hf.
  destruct (field_at b i w f c s Hw Hx Hc Ha) as (j & k & m & after & Ej & Hp & Hk & Em & Hpm & Hv & _ & _ & Hij & Hjk & Hkm & Hl).
  assert (Hd : wf (f_value f)) by (by destruct Hx).
  destruct (item_at b (m + 1) [] (f_value f) c s ltac:(constructor) Hd Hc Hv) as (n & w2 & c' & s' & h & Hn & Hc' & En & Hpn & Hh & Hend & Hw2 & Hmn & Hl2 & Hpos).
  pose proof (at_length _ _ _ Hn) as E. rewrite length_app in E.
  destruct fuel as [|fuel]; [lia|].
  exists w2, (n + length (render (core (f_value f))))%nat, fuel. split_and!; [|done|done|lia|simpl in *; lia].
  cbn [skip_object]. rewrite Ej, Hp. change (x22 =b x7d) with false. change (x22 =b x2c) with false. cbv iota.
  rewrite Hk, Em, Hpm, bool_decide_true by done. cbn [negb].
  assert (Hsk : skip_value b fuel (m + 1) = SDone () (n + length (render (core (f_value f))))).
  { destruct fuel as [|fuel]; [lia|]. rewrite <- (Hs n c' s' (S fuel)) by (done || lia). cbn [skip_value]. rewrite En.
    apply delim_parts in Hh as (_ & _ & _ & Hh). by rewrite (skip_ws_idle b n h). }
  by rewrite Hsk.
Qed.

Lemma skip_object_tails b l : Forall wf_field l → Forall (λ f, skips b (f_value f)) l → ∀ w i s fuel, ws w →
  at_ b i (w ++ tails (map render_field l) ++ x7d :: s) → (2 * (length b - i) + 2 ≤ fuel)%nat →
  skip_object b fuel i = SDone () (i + length w + length (tails (map render_field l)) + 1).
Proof.
  induction l as [|x l IH]; intros Hl Hs w i s fuel Hw Ha Hf; (destruct fuel as [|fuel]; [lia|]); cbn [skip_object].
  - rewrite (skip_ws_run b i w x7d s) by done. apply at_app in Ha. rewrite (at_peek _ _ _ _ Ha). simpl. f_equal. lia.
  - inversion Hl as [|? ? Hx Hl']; inversion Hs as [|? ? Hsx Hs']; subst. cbn [map] in Ha |- *. rewrite tails_cons in Ha.
    rewrite (skip_ws_run b i w x2c _ Ha Hw eq_refl). apply at_app in Ha. rewrite (at_peek _ _ _ _ Ha). apply at_cons in Ha.
    change (x2c =b x7d) with false. change (x2c =b x2c) with true. cbv iota.
    destruct (tails_head (map render_field l) x7d s eq_refl) as (c & r & E & Hc). rewrite E in Ha.
    destruct (skip_object_item b x [] _ c r fuel Hsx ltac:(constructor) Hx Hc Ha) as (w2 & j & fuel' & -> & Hj & Hw2 & Hf' & Hl2);
      [pose proof (at_length _ _ _ Ha); rewrite length_app in *; simpl in *; lia|].
    rewrite <- E in Hj. rewrite (IH Hl' Hs' w2 j s fuel') by done. f_equal. rewrite length_tails_cons. simpl in *. lia.
Qed.

Lemma skip_object_run b l : Forall wf_field l → Forall (λ f, skips b (f_value f)) l → ∀ w i s fuel, ws w →
  at_ b i (w ++ commas (map render_field l) ++ x7d :: s) → (2 * (length b - i) + 2 ≤ fuel)%nat →
  skip_object b fuel i = SDone () (i + length w + length (commas (map render_field l)) + 1).
Proof.
  intros Hl Hs w i s fuel Hw Ha Hf. destruct l as [|x l]; [by apply (skip_object_tails b []) with (s := s)|].
  inversion Hl as [|? ? Hx Hl']; inversion Hs as [|? ? Hsx Hs']; subst. cbn [map commas] in Ha |- *. rewrite <- app_assoc in Ha.
  destruct (tails_head (map render_field l) x7d s eq_refl) as (c & r & E & Hc). rewrite E in Ha.
  destruct (skip_object_item b x w i c r fuel Hsx Hw Hx Hc Ha Hf) as (w2 & j & fuel' & -> & Hj & Hw2 & Hf' & Hl2).
  rewrite <- E in Hj. rewrite (skip_object_tails b l Hl' Hs' w2 j s fuel') by done. f_equal. rewrite length_app. lia.
Qed.

(** Every value is skipped to its end. *)
Lemma skips_doc b d : wf d → skips b d.
Proof.
  intros H. induction H as [raw text Ht|t [Hn Ht]|w l Hw Hl IH|w l Hw Hl IH|w1 d w2 Hw1 Hw2 Hd IH] using doc_ind;
    [intros i c s fuel Ha Hc Hf; cbn [core render] in *; destruct fuel as [|fuel]; [lia|]; cbn [skip_value]..|exact IH].
  - cbn [app] in Ha. rewrite <- app_assoc in Ha. rewrite (skip_ws_idle b i x22) by (done || by eapply at_peek).
    rewrite (at_peek _ _ _ _ Ha). change (x22 =b x22) with true. cbv iota. rewrite (Ht _ _ _ Ha). f_equal. simpl. rewrite length_app. simpl. lia.
  - destruct t as [|x t]; [done|]. pose proof Ht as Ht'. apply Forall_cons in Ht' as [(Hd & H1 & H2 & H3 & _) _].
    cbn [app] in Ha. pose proof (delim_parts x Hd) as (_ & _ & _ & Hw).
    rewrite (skip_ws_idle b i x) by (done || by eapply at_peek). rewrite (at_peek _ _ _ _ Ha).
    destruct (x =b x22) eqn:E1; [by apply byte_eqb_eq in E1|]. destruct (x =b x7b) eqn:E2; [by apply byte_eqb_eq in E2|].
    destruct (x =b x5b) eqn:E3; [by apply byte_eqb_eq in E3|].
    rewrite (scalar_run b (x :: t) _ i c s Ha); [|eapply Forall_impl; [exact Ht|]; naive_solver|done|
      pose proof (at_length _ _ _ Ha) as E; simpl in E; rewrite length_app in E; simpl; lia].
    rewrite (proj2 (Nat.eqb_neq _ _)) by (simpl; lia). done.
  - cbn [app] in Ha. rewrite <- !app_assoc in Ha. rewrite (skip_ws_idle b i x5b) by (done || by eapply at_peek).
    rewrite (at_peek _ _ _ _ Ha). change (x5b =b x22) with false. change (x5b =b x7b) with false. change (x5b =b x5b) with true. cbv iota.
    pose proof (at_length _ _ _ Ha) as E. simpl in E. apply at_cons in Ha. rewrite (skip_array_run b l Hl IH w (i + 1) (c :: s) fuel Hw Ha) by lia.
    f_equal. cbn [length]. rewrite !length_app. simpl. lia.
  - cbn [app] in Ha. rewrite <- !app_assoc in Ha. rewrite (skip_ws_idle b i x7b) by (done || by eapply at_peek).
    rewrite (at_peek _ _ _ _ Ha). change (x7b =b x22) with false. change (x7b =b x7b) with true. cbv iota.
    pose proof (at_length _ _ _ Ha) as E. simpl in E. apply at_cons in Ha. rewrite (skip_object_run b l Hl IH w (i + 1) (c :: s) fuel Hw Ha) by lia.
    f_equal. cbn [length]. rewrite !length_app. simpl. lia.
Qed.

(** ** Finding a key *)

(** The search without its fuel. *)
Definition find_at (b : list byte) (i : nat) (key : list byte) : scanr () := find_loop b (S (length b - i)) i key.

Lemma find_loop_more b f1 : ∀ f2 i key, (length b - i < f1)%nat → (f1 ≤ f2)%nat → find_loop b f2 i key = find_loop b f1 i key.
Proof.
  induction f1 as [|f1 IH]; intros [|f2] i key H1 H2; try lia. cbn [find_loop]. destruct (peek b i) as [c|] eqn:Hp; [|done].
  apply peek_Some in Hp. case_if.
  - pose proof (scan_string_advances b i) as Hs. destruct (scan_string b i) as [text j| |]; simpl in Hs; [|done..].
    pose proof (skip_ws_ge b j). case_if; [done|]. apply IH; lia.
  - apply IH; lia.
Qed.

Lemma find_at_eq b i key : find_at b i key =
  match peek b i with
  | None => SNone
  | Some c =>
      if c =b x22 then
        match scan_string b i with
        | SDone text i =>
            let i := skip_ws b i in
            if bool_decide (peek b i = Some x3a) && bool_decide (text = key) then SDone () (skip_ws b (i + 1))
            else find_at b i key
        | SNone => SNone
        | SFuel => SFuel
        end
      else find_at b (i + 1) key
  end.
Proof.
  unfold find_at at 1. cbn [find_loop]. destruct (peek b i) as [c|] eqn:Hp; [|done]. apply peek_Some in Hp. case_if.
  - pose proof (scan_string_advances b i) as Hs. destruct (scan_string b i) as [text j| |]; simpl in Hs; [|done..].
    pose proof (skip_ws_ge b j). cbv zeta. case_if; [done|]. unfold find_at. apply find_loop_more; lia.
  - unfold find_at. apply find_loop_more; lia.
Qed.

(** Bytes that open no string are passed. *)
Lemma find_at_pass b x s i key : at_ b i (x ++ s) → Forall (λ c, c ≠ x22) x → find_at b i key = find_at b (i + length x) key.
Proof.
  revert i. induction x as [|c x IH]; intros i Ha Hx; [simpl; by rewrite Nat.add_0_r|].
  inversion Hx as [|? ? Hc Hx']; subst. cbn [app] in Ha. rewrite find_at_eq, (at_peek _ _ _ _ Ha).
  destruct (c =b x22) eqn:E; [by apply byte_eqb_eq in E|]. rewrite IH by (by eapply at_cons || done). f_equal. simpl. lia.
Qed.

Lemma ws_no_quote w : ws w → Forall (λ c, c ≠ x22) w.
Proof. intros H. eapply Forall_impl; [exact H|]. by intros c Hc ->. Qed.

Lemma find_at_ws b s i key : at_ b i s → find_at b (skip_ws b i) key = find_at b i key.
Proof.
  intros Ha. destruct (ink_split s) as (w & Hw & H). pose proof (ws_no_quote w Hw) as Hq. destruct (ink s) as [c|].
  - destruct H as (Hc & s' & ->). rewrite (skip_ws_run _ _ _ _ _ Ha Hw Hc). by rewrite (find_at_pass b w (c :: s') i).
  - subst s. unfold skip_ws. rewrite ws_loop_end with (w := w) by (done || rewrite (at_length _ _ _ Ha); lia).
    rewrite <- (app_nil_r w) in Ha. by rewrite (find_at_pass b w [] i).
Qed.

(** [finds b i key r j]: a search from [i] ends at the value [v] for [r = Some v], and goes on at [j] otherwise. *)
Definition finds (b : list byte) (i : nat) (key : list byte) (r : option Doc) (j : nat) : Prop :=
  match r with
  | Some v => ∃ k c s, find_at b i key = SDone () k ∧ at_ b k (render v ++ c :: s) ∧ is_delim c = true ∧ wf v ∧ core v = v
  | None => find_at b i key = find_at b j key
  end.

Lemma core_idem d : core (core d) = core d.
Proof. by induction d. Qed.

Lemma finds_then b i j k key r1 r2 :
  finds b i key r1 j → finds b j key r2 k → finds b i key (match r1 with Some v => Some v | None => r2 end) k.
Proof. destruct r1 as [v|]; [done|]. intros H1. cbn [finds] in H1. destruct r2; cbn [finds]; by rewrite H1. Qed.

Lemma finds_pass b x s i j key r : at_ b i (x ++ s) → Forall (λ c, c ≠ x22) x → finds b (i + length x) key r j → finds b i key r j.
Proof. intros Ha Hx. pose proof (find_at_pass b x s i key Ha Hx) as E. destruct r; cbn [finds]; by rewrite E. Qed.

(** [looks b key rend look x]: the search looks into [x], spelt [rend x], as [look] does. *)
Definition looks {A} (b key : list byte) (rend : A → list byte) (look : A → option Doc) (x : A) : Prop :=
  ∀ i c s, at_ b i (rend x ++ c :: s) → is_delim c = true → ink (c :: s) ≠ Some x3a →
  finds b i key (look x) (i + length (rend x)).

Lemma ink_delim c s : is_delim c = true → is_ws c = false → ink (c :: s) ≠ Some x3a.
Proof. intros Hd Hc. cbn [ink]. rewrite Hc. intros [= ->]. done. Qed.

Section items.
Context {A : Type} (b key : list byte) (rend : A → list byte) (look : A → option Doc).
Context (e : byte) (He : is_delim e = true) (Hew : is_ws e = false).

Lemma tails_ink l s : ∃ c r, tails (map rend l) ++ e :: s = c :: r ∧ is_delim c = true ∧ ink (c :: r) ≠ Some x3a.
Proof.
  destruct l; cbn; eexists _, _; (split; [reflexivity|]); (split; [done|]); by apply ink_delim.
Qed.

Lemma finds_tails l : Forall (looks b key rend look) l → ∀ i s, at_ b i (tails (map rend l) ++ e :: s) →
  finds b i key (find_map look l) (i + length (tails (map rend l))).
Proof.
  induction 1 as [|x l Hx _ IH]; intros i s Ha; [simpl; by rewrite Nat.add_0_r|].
  cbn [map find_map] in *. rewrite tails_cons in Ha. rewrite length_tails_cons.
  apply (finds_pass b [x2c] _ _ _ _ _ Ha); [by repeat constructor|]. apply at_cons in Ha. cbn [length].
  destruct (tails_ink l s) as (c & r & E & Hc & Hi). rewrite E in Ha.
  apply (finds_then b _ (i + 1 + length (rend x))); [by apply (Hx _ c r)|].
  replace (i + S (length (rend x) + length (tails (map rend l))))%nat with (i + 1 + length (rend x) + length (tails (map rend l)))%nat by lia.
  apply (IH _ s). rewrite <- E in Ha. by apply at_app in Ha.
Qed.

Lemma finds_items l : Forall (looks b key rend look) l → ∀ i s, at_ b i (commas (map rend l) ++ e :: s) →
  finds b i key (find_map look l) (i + length (commas (map rend l))).
Proof.
  destruct 1 as [|x l Hx Hl]; intros i s Ha; [simpl; by rewrite Nat.add_0_r|].
  cbn [map commas find_map] in *. rewrite <- app_assoc in Ha. rewrite length_app.
  destruct (tails_ink l s) as (c & r & E & Hc & Hi). rewrite E in Ha.
  apply (finds_then b _ (i + length (rend x))); [by apply (Hx _ c r)|].
  rewrite Nat.add_assoc. apply (finds_tails l Hl _ s). rewrite <- E in Ha. by apply at_app in Ha.
Qed.
End items.

Lemma looks_field b key f : wf_field f → looks b key render (find_doc key) (f_value f) → looks b key render_field (find_field key) f.
Proof.
  intros Hf Hl i c s Ha Hc Hi. assert (Hd : wf (f_value f)) by (by destruct Hf).
  destruct (field_at b i [] f c s ltac:(constructor) Hf Hc Ha) as (j & k & m & after & Ej & Hp & Hk & Em & Hpm & Hv & Hat & _ & Hij & Hjk & Hkm & El).
  assert (E : find_at b i key = if bool_decide (f_text f = key) then SDone () (skip_ws b (m + 1)) else find_at b m key).
  { rewrite <- (find_at_ws b _ i key Ha), Ej, find_at_eq, Hp. change (x22 =b x22) with true. cbv iota.
    rewrite Hk. cbv zeta. by rewrite Em, Hpm, (bool_decide_true (Some x3a = Some x3a)) by done. }
  destruct f as [bf raw text af d]. cbn [find_field f_text f_value] in *. case_bool_decide as Hkey.
  - destruct (item_at b (m + 1) [] d c s ltac:(constructor) Hd Hc Hv) as (n & w2 & c' & s' & h & Hn & Hc' & En & _).
    destruct (padded d Hd) as (? & ? & _ & _ & _ & Hcd). rewrite En in E. cbn [finds].
    exists n, c', s'. rewrite core_idem. by split_and!.
  - assert (E2 : find_at b i key = find_at b (m + 1) key).
    { rewrite E, find_at_eq, Hpm. done. }
    specialize (Hl (m + 1)%nat c s Hv Hc Hi). cbn [length] in El. rewrite Nat.add_0_r in El. rewrite El. destruct (find_doc key d); cbn [finds] in *; by rewrite E2.
Qed.

(** The search agrees with the reference, and goes on behind the document where the key is not in it. *)
Lemma find_doc_at d : wf d → ∀ b i s key, at_ b i (render d ++ s) → ink s ≠ Some x3a →
  finds b i key (find_doc key d) (i + length (render d)).
Proof.
  intros H. induction H as [raw text Ht|t [Hn Ht]|w l Hw Hl IH|w l Hw Hl IH|w1 d w2 Hw1 Hw2 Hd IH] using doc_ind;
    intros b i s key Ha Hi; cbn [render find_doc] in *.
  - cbn [finds app] in *. rewrite <- app_assoc in Ha. rewrite find_at_eq, (at_peek _ _ _ _ Ha). change (x22 =b x22) with true. cbv iota.
    rewrite (Ht _ _ _ Ha). cbv zeta.
    assert (Hs : at_ b (i + length raw + 2) s).
    { replace (i + length raw + 2)%nat with (i + length (x22 :: raw ++ [x22]))%nat by (simpl; rewrite length_app; simpl; lia).
      apply at_app. cbn [app]. by rewrite <- app_assoc. }
    rewrite (peek_skip_ws _ _ _ Hs), bool_decide_false by done. cbn [andb]. rewrite (find_at_ws _ _ _ _ Hs). f_equal.
    simpl. rewrite length_app. simpl. lia.
  - cbn [finds]. eapply find_at_pass; [exact Ha|]. eapply Forall_impl; [exact Ht|]. naive_solver.
  - cbn [app] in Ha. rewrite <- !app_assoc in Ha. apply (finds_pass b [x5b] _ _ _ _ _ Ha); [by repeat constructor|]. apply at_cons in Ha.
    apply (finds_pass b w _ _ _ _ _ Ha); [by apply ws_no_quote|]. apply at_app in Ha. cbn [length app].
    replace (find_map (find_doc key) l) with (match find_map (find_doc key) l with Some v => Some v | None => None end) by (by destruct (find_map _ _)).
    eapply finds_then.
    + apply (finds_items b key render (find_doc key) x5d eq_refl eq_refl l) with (s := s); [|exact Ha].
      eapply Forall_impl; [exact IH|]. intros x Hx j c r Hj _ Hc. by eapply Hx.
    + cbn [finds]. apply at_app in Ha. rewrite (find_at_pass b [x5d] s _ key Ha) by (by repeat constructor). f_equal. rewrite !length_app. simpl. lia.
  - cbn [app] in Ha. rewrite <- !app_assoc in Ha. apply (finds_pass b [x7b] _ _ _ _ _ Ha); [by repeat constructor|]. apply at_cons in Ha.
    apply (finds_pass b w _ _ _ _ _ Ha); [by apply ws_no_quote|]. apply at_app in Ha. cbn [length app].
    replace (find_map (find_field key) l) with (match find_map (find_field key) l with Some v => Some v | None => None end) by (by destruct (find_map _ _)).
    eapply finds_then.
    + apply (finds_items b key render_field (find_field key) x7d eq_refl eq_refl l) with (s := s); [|exact Ha].
      rewrite Forall_forall in Hl, IH. apply Forall_forall. intros f Hf. apply looks_field; [by apply Hl|]. intros j c r Hj _ Hc. by eapply IH.
    + cbn [finds]. apply at_app in Ha. rewrite (find_at_pass b [x7d] s _ key Ha) by (by repeat constructor). f_equal. rewrite !length_app. simpl. lia.
  - rewrite <- !app_assoc in Ha. apply (finds_pass b w1 _ _ _ _ _ Ha); [by apply ws_no_quote|]. apply at_app in Ha.
    replace (find_doc key d) with (match find_doc key d with Some v => Some v | None => None end) by (by destruct (find_doc _ _)).
    eapply finds_then; [eapply IH; [exact Ha|by rewrite ink_ws]|]. apply at_app in Ha. cbn [finds].
    rewrite (find_at_pass b w2 s _ key Ha) by (by apply ws_no_quote). f_equal. rewrite !length_app. lia.
Qed.

(** ** The accessors *)

Definition kind_of (v : Doc) : Kind :=
  match v with
  | DStr _ _ => Str
  | DScalar t => if bool_decide (t = sbytes "null") then Null else Scalar
  | DArr _ _ => Array
  | DObj _ _ | DPad _ _ _ => Object
  end.

(** The kind [span] reports, from the first byte and the text. *)
Definition span_kind (first : byte) (raw : list byte) : Kind :=
  if (first =b x74) || (first =b x66) then Scalar
  else if first =b x6e then if bool_decide (raw = sbytes "null") then Null else Scalar
  else kind_at first.

Lemma scalar_head c t : scalar (c :: t) → (c =b x22) = false ∧ (c =b x7b) = false ∧ (c =b x5b) = false.
Proof.
  intros [_ H]. apply Forall_cons in H as [(_ & H1 & H2 & H3 & _) _].
  split_and!; destruct (c =b _) eqn:E; try done; by apply byte_eqb_eq in E.
Qed.

Lemma core_no_pad d : match core d with DPad _ _ _ => False | _ => True end.
Proof. by induction d. Qed.

Lemma span_kind_of v c r : wf v → core v = v → render v = c :: r → span_kind c (render v) = kind_of v.
Proof.
  intros Hv Hc E. destruct Hv as [raw text Ht|t Ht|w l Hw Hl|w l Hw Hl|w1 d w2 _ _ Hd]; cbn [render kind_of] in *; try (injection E as <- _; done).
  - subst t. destruct (scalar_head c r Ht) as (E1 & E2 & E3). unfold span_kind, kind_at. rewrite E1, E2, E3.
    assert (Hn : c ≠ x6e → c :: r ≠ sbytes "null") by (by intros H [= -> _]).
    destruct (c =b x74) eqn:T; [apply byte_eqb_eq in T; subst c; by rewrite bool_decide_false by (by apply Hn)|].
    destruct (c =b x66) eqn:F; [apply byte_eqb_eq in F; subst c; by rewrite bool_decide_false by (by apply Hn)|].
    destruct (c =b x6e) eqn:N; [done|]. rewrite bool_decide_false; [done|]. apply Hn. intros ->. done.
  - pose proof (core_no_pad (DPad w1 d w2)) as Hn. by rewrite Hc in Hn.
Qed.

(** Where the value of a key is. *)
Definition found_at (b : list byte) (v : Doc) (i : nat) : Prop :=
  ∃ c s, at_ b i (render v ++ c :: s) ∧ is_delim c = true ∧ wf v ∧ core v = v.

Lemma span_doc d key : wf d →
  match find_doc key d with
  | Some v => ∃ i, found_at (render d) v i ∧ span (render d) key = Some (kind_of v, i, (i + length (render v))%nat)
  | None => span (render d) key = None
  end.
Proof.
  intros Hd. set (b := render d).
  assert (Ha : at_ b 0 (render d ++ [])) by (rewrite app_nil_r; apply at_start).
  pose proof (find_doc_at d Hd b 0 [] key Ha ltac:(done)) as H.
  assert (Ef : find_value_start b key = match find_at b 0 key with SDone _ i => Some i | _ => None end)
    by (unfold find_value_start, find_at; by rewrite Nat.sub_0_r).
  unfold span. rewrite Ef. destruct (find_doc key d) as [v|]; cbn [finds] in H.
  - destruct H as (k & c & s & -> & Hk & Hc & Hv & Hcv). exists k. split; [by exists c, s|].
    destruct (core_head v Hv) as (h & r & Eh & Hh). rewrite Hcv in Eh. pose proof Hk as Hk'. rewrite Eh in Hk'.
    rewrite (at_peek _ _ _ _ Hk'). pose proof (skips_doc b v Hv) as Hs. unfold skips in Hs. rewrite Hcv in Hs.
    unfold skip_value_at. rewrite (Hs k c s _ Hk Hc) by (unfold value_fuel; lia). f_equal. f_equal. f_equal.
    rewrite <- (span_kind_of v h r Hv Hcv Eh). unfold span_kind. replace (k + length (render v) - k)%nat with (length (render v)) by lia.
    by rewrite (at_slice _ _ _ _ Hk).
  - rewrite H. unfold find_at. simpl Nat.add. rewrite find_loop_more with (f1 := 1%nat) by (fold b; lia). cbn [find_loop].
    by rewrite peek_ge by (fold b; lia).
Qed.

(** *** Arrays *)

Definition text_of (x : Doc) : string := bstr (render (core x)).

Lemma arr_item b x w i c s fuel out : wf x → ws w → is_delim c = true → at_ b i (w ++ render x ++ c :: s) → (length b - i < fuel)%nat →
  ∃ w2 j fuel', at_ b j (w2 ++ c :: s) ∧ ws w2 ∧ (length b - j < fuel')%nat ∧
    json_arr_loop b fuel i out =
      let out := out ++ [text_of x] in if (ARRAY_CAP <=? length out)%nat then Some out else json_arr_loop b fuel' j out.
Proof.
  intros Hx Hw Hc Ha Hf. destruct (item_at b i w x c s Hw Hx Hc Ha) as (j & w2 & c' & s' & h & Hj & Hc' & Ej & Hp & Hh & Hend & Hw2 & Hij & Hl & Hpos).
  pose proof (at_length _ _ _ Hj) as E. rewrite length_app in E.
  destruct fuel as [|fuel]; [lia|]. destruct (delim_parts h Hh) as (D1 & D2 & D3 & D4).
  exists w2, (j + length (render (core x)))%nat, fuel. split_and!; [done..|lia|].
  cbn [json_arr_loop]. rewrite Ej, Hp, D3, D1. unfold skip_value_at.
  rewrite (skips_doc b x Hx j c' s' _ Hj Hc') by (unfold value_fuel; lia).
  unfold text_at. replace (j + length (render (core x)) - j)%nat with (length (render (core x))) by lia.
  by rewrite (at_slice _ _ _ _ Hj).
Qed.

Definition cap_texts (out : list string) (l : list Doc) : list string := take ARRAY_CAP (out ++ map text_of l).

Lemma cap_texts_step out x l : (length out < ARRAY_CAP)%nat →
  cap_texts out (x :: l) = if (ARRAY_CAP <=? length (out ++ [text_of x]))%nat then out ++ [text_of x] else cap_texts (out ++ [text_of x]) l.
Proof.
  intros Ho. unfold cap_texts. cbn [map]. rewrite (cons_middle (text_of x) out), app_assoc.
  destruct (Nat.leb_spec ARRAY_CAP (length (out ++ [text_of x]))) as [Hl|Hl]; [|done].
  rewrite length_app in Hl. simpl in Hl. apply take_app_length'. rewrite length_app. simpl. lia.
Qed.

Lemma arr_tails b l : Forall wf l → ∀ w i s fuel out, ws w → at_ b i (w ++ tails (map render l) ++ x5d :: s) →
  (length b - i < fuel)%nat → (length out < ARRAY_CAP)%nat → json_arr_loop b fuel i out = Some (cap_texts out l).
Proof.
  induction l as [|x l IH]; intros Hl w i s fuel out Hw Ha Hf Ho; (destruct fuel as [|fuel]; [lia|]); cbn [json_arr_loop].
  - rewrite (skip_ws_run b i w x5d s) by done. apply at_app in Ha. rewrite (at_peek _ _ _ _ Ha). cbn. f_equal. unfold cap_texts.
    cbn [map]. rewrite app_nil_r, take_ge; [done|unfold ARRAY_CAP in *; lia].
  - inversion Hl as [|? ? Hx Hl']; subst. cbn [map] in Ha. rewrite tails_cons in Ha.
    rewrite (skip_ws_run b i w x2c _ Ha Hw eq_refl). apply at_app in Ha. rewrite (at_peek _ _ _ _ Ha). apply at_cons in Ha.
    change (x2c =b x5d) with false. change (x2c =b x2c) with true. cbv iota.
    destruct (tails_head (map render l) x5d s eq_refl) as (c & r & E & Hc). rewrite E in Ha.
    pose proof (at_length _ _ _ Ha) as El. rewrite length_app in El.
    destruct (arr_item b x [] _ c r fuel out Hx ltac:(constructor) Hc Ha) as (w2 & j & fuel' & Hj & Hw2 & Hf' & ->); [simpl in *; lia|].
    cbv zeta. rewrite cap_texts_step by done. destruct (Nat.leb_spec ARRAY_CAP (length (out ++ [text_of x]))); [done|].
    rewrite <- E in Hj. by apply (IH Hl' w2 j s).
Qed.

Lemma arr_run b l w i s : Forall wf l → ws w → at_ b i (w ++ commas (map render l) ++ x5d :: s) →
  json_arr_loop b (S (length b)) i [] = Some (cap_texts [] l).
Proof.
  intros Hl Hw Ha. destruct l as [|x l]; [by apply (arr_tails b [] Hl w i s); [..|lia|unfold ARRAY_CAP; simpl; lia]|].
  inversion Hl as [|? ? Hx Hl']; subst. cbn [map commas] in Ha. rewrite <- app_assoc in Ha.
  destruct (tails_head (map render l) x5d s eq_refl) as (c & r & E & Hc). rewrite E in Ha.
  destruct (arr_item b x w i c r (S (length b)) [] Hx Hw Hc Ha) as (w2 & j & fuel' & Hj & Hw2 & Hf' & ->); [lia|].
  cbv zeta. rewrite cap_texts_step by (unfold ARRAY_CAP; simpl; lia). case_match; [done|].
  rewrite <- E in Hj. apply (arr_tails b l Hl' w2 j s); [done..|unfold ARRAY_CAP; simpl; lia].
Qed.

(** *** Objects *)

(** What [json_obj] records of a value: strings decoded, scalars as they are spelt, [null] as the
    empty text; containers are left out. *)
Definition obj_value (d : Doc) : option (list byte) :=
  match core d with
  | DStr _ t => Some t
  | DScalar t => Some (if bool_decide (t = sbytes "null") then [] else t)
  | _ => None
  end.

Definition obj_put (out : gmap string string) (f : Field) : gmap string string :=
  match obj_value (f_value f) with
  | None => out
  | Some v =>
      if bool_decide (f_text f ≠ []) && (size out <? OBJECT_CAP)%nat then <[bstr (f_text f) := bstr v]> out else out
  end.

Lemma obj_value_run b x j c s h r : wf x → render (core x) = h :: r → at_ b j (render (core x) ++ c :: s) → is_delim c = true →
  json_obj_value b h j = Some (obj_value x, (j + length (render (core x)))%nat).
Proof.
  intros Hx Eh Ha Hc. destruct (padded x Hx) as (_ & _ & _ & _ & _ & Hcx).
  pose proof (skips_doc b x Hx j c s (value_fuel b) Ha Hc ltac:(unfold value_fuel; lia)) as Hs. fold (skip_value_at b j) in Hs.
  unfold json_obj_value, text_at, obj_value. rewrite Hs.
  replace (j + length (render (core x)) - j)%nat with (length (render (core x))) by lia. rewrite (at_slice _ _ _ _ Ha).
  pose proof (core_no_pad x) as Hn. destruct (core x) as [raw text|t|w l|w l|w1 d w2]; [..|done]; cbn [render] in *;
    [injection Eh as <- _|subst t|injection Eh as <- _; done..].
  - assert (Ht : token raw text) by (by inversion Hcx). change (x22 =b x7b) with false. change (x22 =b x5b) with false.
    change (x22 =b x22) with true. cbn [orb app] in *. rewrite <- app_assoc in Ha. by rewrite (Ht _ _ _ Ha).
  - destruct (scalar_head h r ltac:(by inversion Hcx)) as (-> & -> & ->). done.
Qed.

Lemma obj_item b f w i c s fuel out : wf_field f → ws w → is_delim c = true → at_ b i (w ++ render_field f ++ c :: s) →
  (length b - i < fuel)%nat →
  ∃ w2 j fuel', at_ b j (w2 ++ c :: s) ∧ ws w2 ∧ (length b - j < fuel')%nat ∧
    json_obj_loop b fuel i out = json_obj_loop b fuel' j (obj_put out f).
Proof.
  intros Hx Hw Hc Ha Hf.
  destruct (field_at b i w f c s Hw Hx Hc Ha) as (j & k & m & after & Ej & Hp & Hk & Em & Hpm & Hv & _ & _ & Hij & Hjk & Hkm & Hl).
  assert (Hd : wf (f_value f)) by (by destruct Hx).
  destruct (item_at b (m + 1) [] (f_value f) c s ltac:(constructor) Hd Hc Hv) as (n & w2 & c' & s' & h & Hn & Hc' & En & Hpn & Hh & Hend & Hw2 & Hmn & Hl2 & Hpos).
  pose proof (at_length _ _ _ Hn) as E. rewrite length_app in E. destruct (core_head _ Hd) as (h' & r & Er & _).
  pose proof Hn as Hn'. rewrite Er in Hn'. rewrite (at_peek _ _ _ _ Hn') in Hpn. injection Hpn as ->.
  destruct fuel as [|fuel]; [lia|]. exists w2, (n + length (render (core (f_value f))))%nat, fuel. split_and!; [done..|lia|].
  cbn [json_obj_loop]. rewrite Ej, Hp. change (x22 =b x7d) with false. change (x22 =b x2c) with false. cbv iota.
  rewrite Hk, Em, Hpm, bool_decide_true by done. cbn [negb]. rewrite En, (at_peek _ _ _ _ Hn').
  rewrite (obj_value_run b (f_value f) n c' s' h r Hd Er Hn Hc'). unfold obj_put. by destruct (obj_value (f_value f)).
Qed.

Lemma obj_tails b l : Forall wf_field l → ∀ w i s fuel out, ws w → at_ b i (w ++ tails (map render_field l) ++ x7d :: s) →
  (length b - i < fuel)%nat → json_obj_loop b fuel i out = Some (fold_left obj_put l out).
Proof.
  induction l as [|x l IH]; intros Hl w i s fuel out Hw Ha Hf; (destruct fuel as [|fuel]; [lia|]); cbn [json_obj_loop].
  - rewrite (skip_ws_run b i w x7d s) by done. apply at_app in Ha. by rewrite (at_peek _ _ _ _ Ha).
  - inversion Hl as [|? ? Hx Hl']; subst. cbn [map] in Ha. rewrite tails_cons in Ha.
    rewrite (skip_ws_run b i w x2c _ Ha Hw eq_refl). apply at_app in Ha. rewrite (at_peek _ _ _ _ Ha). apply at_cons in Ha.
    change (x2c =b x7d) with false. change (x2c =b x2c) with true. cbv iota.
    destruct (tails_head (map render_field l) x7d s eq_refl) as (c & r & E & Hc). rewrite E in Ha.
    pose proof (at_length _ _ _ Ha) as El. rewrite length_app in El.
    destruct (obj_item b x [] _ c r fuel out Hx ltac:(constructor) Hc Ha) as (w2 & j & fuel' & Hj & Hw2 & Hf' & ->); [simpl in *; lia|].
    cbn [fold_left]. rewrite <- E in Hj. by apply (IH Hl' w2 j s).
Qed.

Lemma obj_run b l w i s : Forall wf_field l → ws w → at_ b i (w ++ commas (map render_field l) ++ x7d :: s) →
  json_obj_loop b (S (length b)) i ∅ = Some (fold_left obj_put l ∅).
Proof.
  intros Hl Hw Ha. destruct l as [|x l]; [by apply (obj_tails b [] Hl w i s); [..|lia]|].
  inversion Hl as [|? ? Hx Hl']; subst. cbn [map commas] in Ha. rewrite <- app_assoc in Ha.
  destruct (tails_head (map render_field l) x7d s eq_refl) as (c & r & E & Hc). rewrite E in Ha.
  destruct (obj_item b x w i c r (S (length b)) ∅ Hx Hw Hc Ha) as (w2 & j & fuel' & Hj & Hw2 & Hf' & ->); [lia|].
  cbn [fold_left]. rewrite <- E in Hj. by apply (obj_tails b l Hl' w2 j s).
Qed.

(** ** The accessors on documents *)

Section accessors.
Context (d : Doc) (Hd : wf d).
#[local] Abbreviation blob := (bstr (render d)).

Lemma json_str_doc key : json_str blob (bstr key) =
  match find_doc key d with
  | Some (DStr _ t) => Some (bstr t)
  | Some (DScalar t) => if bool_decide (t = sbytes "null") then None else Some (bstr t)
  | _ => None
  end.
Proof.
  unfold json_str. rewrite !sbytes_bstr. pose proof (span_doc d key Hd) as H. destruct (find_doc key d) as [v|]; [|by rewrite H].
  destruct H as (i & (c & s & Ha & Hc & Hv & Hcv) & ->). destruct v as [raw t|t|w l|w l|w1 x w2]; cbn [kind_of]; try done.
  - cbn [render app] in Ha. rewrite <- app_assoc in Ha. inversion Hv as [? ? Ht| | | |]; subst. by rewrite (Ht _ _ _ Ha).
  - case_bool_decide; [done|]. unfold text_at. replace (i + length (render (DScalar t)) - i)%nat with (length (render (DScalar t))) by lia.
    by rewrite (at_slice _ _ _ _ Ha).
Qed.

Lemma json_arr_objects_doc key : json_arr_objects blob (bstr key) =
  match find_doc key d with Some (DArr _ l) => take ARRAY_CAP (map text_of l) | _ => [] end.
Proof.
  unfold json_arr_objects. rewrite !sbytes_bstr. pose proof (span_doc d key Hd) as H. destruct (find_doc key d) as [v|]; [|by rewrite H].
  destruct H as (i & (c & s & Ha & Hc & Hv & Hcv) & ->). destruct v as [raw t|t|w l|w l|w1 x w2]; cbn [kind_of]; try done; [by case_bool_decide|].
  inversion Hv as [| |? ? Hw Hl| |]; subst. cbn [render app] in Ha. apply at_cons in Ha. rewrite <- !app_assoc in Ha.
  by rewrite (arr_run _ l w (i + 1) (c :: s) Hl Hw Ha).
Qed.

Lemma json_obj_doc key : json_obj blob (bstr key) =
  match find_doc key d with Some (DObj _ l) => fold_left obj_put l ∅ | _ => ∅ end.
Proof.
  unfold json_obj. rewrite !sbytes_bstr. pose proof (span_doc d key Hd) as H. destruct (find_doc key d) as [v|]; [|by rewrite H].
  destruct H as (i & (c & s & Ha & Hc & Hv & Hcv) & ->). destruct v as [raw t|t|w l|w l|w1 x w2]; cbn [kind_of]; try done; [by case_bool_decide| |].
  - inversion Hv as [| | |? ? Hw Hl|]; subst. cbn [render app] in Ha. apply at_cons in Ha. rewrite <- !app_assoc in Ha.
    by rewrite (obj_run _ l w (i + 1) (c :: s) Hl Hw Ha).
  - pose proof (core_no_pad (DPad w1 x w2)) as Hn. by rewrite Hcv in Hn.
Qed.
Lemma json_num_doc key : json_num blob (bstr key) =
  match find_doc key d with
  | Some (DScalar t) => if negb (bool_decide (t = sbytes "null")) && forallb is_num_char t then Some (bstr t) else None
  | _ => None
  end.
Proof.
  unfold json_num. rewrite !sbytes_bstr. pose proof (span_doc d key Hd) as H. destruct (find_doc key d) as [v|]; [|by rewrite H].
  destruct H as (i & (c & s & Ha & Hc & Hv & Hcv) & ->). destruct v as [raw t|t|w l|w l|w1 x w2]; cbn [kind_of]; try done.
  case_bool_decide; [done|]. unfold text_at. replace (i + length (render (DScalar t)) - i)%nat with (length (render (DScalar t))) by lia.
  rewrite (at_slice _ _ _ _ Ha). cbn [render negb andb]. inversion Hv as [|? [Hn _]| | |]; subst. by destruct t.
Qed.
End accessors.

(** ** Values and the documents printed for them *)

Lemma token_escape l : utf8_valid l = true → token (json_escape_b l) l.
Proof. intros Hl b i s (pre & -> & ->). by apply scan_string_escape. Qed.


(** A string spelt as [json_escape] spells it. *)
Definition dstr (s : string) : Doc := DStr (json_escape_b (sbytes s)) (sbytes s).
Definition dnum (s : string) : Doc := DScalar (sbytes s).
Definition dfield (key : string) (d : Doc) : Field := mkField [] (json_escape_b (sbytes key)) (sbytes key) [] d.

(** A check that suffices: the strings are spelt as [json_escape] does. *)
Definition scalar_byte (c : byte) : bool :=
  negb (is_delim c || (c =b x22) || (c =b x7b) || (c =b x5b) || (c =b x3a)).

Definition token_b (raw text : list byte) : bool := bool_decide (raw = json_escape_b text) && utf8_valid text.

Fixpoint wfb (d : Doc) : bool :=
  match d with
  | DStr raw text => token_b raw text
  | DScalar t => bool_decide (t ≠ []) && forallb scalar_byte t
  | DArr w l => forallb is_ws w && forallb wfb l
  | DObj w l => forallb is_ws w && forallb wfb_field l
  | DPad w1 d w2 => forallb is_ws w1 && forallb is_ws w2 && wfb d
  end
with wfb_field (f : Field) : bool :=
  let '(mkField before raw text after d) := f in
  forallb is_ws before && forallb is_ws after && token_b raw text && wfb d.

Lemma ws_b w : forallb is_ws w = true → ws w.
Proof. rewrite forallb_forall. intros H. apply Forall_forall. intros c Hc. apply H. by apply list_elem_of_In. Qed.

Lemma token_b_sound raw text : token_b raw text = true → token raw text.
Proof. intros [->%bool_decide_eq_true H]%andb_true_iff. by apply token_escape. Qed.

Lemma scalar_b t : bool_decide (t ≠ []) && forallb scalar_byte t = true → scalar t.
Proof.
  intros [Hn%bool_decide_eq_true H]%andb_true_iff. split; [done|]. rewrite forallb_forall in H. apply Forall_forall. intros c Hc.
  specialize (H c ltac:(by apply list_elem_of_In)). unfold scalar_byte in H. apply negb_true_iff in H.
  rewrite !orb_false_iff in H. destruct H as ((((H1 & H2) & H3) & H4) & H5).
  split_and!; [done|by intros ->..].
Qed.

Fixpoint wfb_sound (d : Doc) : wfb d = true → wf d.
Proof.
  destruct d as [raw text|t|w l|w l|w1 d w2]; cbn [wfb]; intros H.
  - constructor. by apply token_b_sound.
  - constructor. by apply scalar_b.
  - apply andb_true_iff in H as [Hw Hl]. constructor; [by apply ws_b|]. clear Hw.
    induction l as [|x l IH]; constructor; cbn [forallb] in Hl; apply andb_true_iff in Hl as [Hx Hl]; [by apply wfb_sound|by apply IH].
  - apply andb_true_iff in H as [Hw Hl]. constructor; [by apply ws_b|]. clear Hw.
    induction l as [|[bf raw text af x] l IH]; constructor; cbn [forallb wfb_field] in Hl; apply andb_true_iff in Hl as [Hx Hl]; [|by apply IH].
    rewrite !andb_true_iff in Hx. destruct Hx as [[[H1 H2] H3] H4].
    constructor; [by apply ws_b..|by apply token_b_sound|by apply wfb_sound].
  - rewrite !andb_true_iff in H. destruct H as [[H1 H2] H3]. constructor; [by apply ws_b..|by apply wfb_sound].
Qed.

(** A list of members with nested objects, white space and a key that is also a value. *)
Definition demo_doc : Doc :=
  DObj [x20] [dfield "status" (dstr "members");
              mkField [x0a] (sbytes "data") (sbytes "data") [x20]
                (DPad [x20] (DObj [] [dfield "members" (DArr [] [DObj [] [dfield "id" (dstr "a]}"); dfield "n" (dnum "7")]; DPad [x20] (dnum "null") [x09]])]) [x0a])].

