(* ===== verification/F64.v ===== *)
(** * Binary64 numbers

    Rust's [f64]: the IEEE-754 binary64 format of the Standard Library's
    [SpecFloat] (precision 53, exponent bound 1024), its conversions from
    integers and text, its arithmetic, comparisons and [Display].  Nothing here
    is specific to the repository. *)

From Stdlib Require Export Floats.SpecFloat.
From S2P Require Import Prelude RustStr.
#[local] Open Scope Z_scope.

Definition f64 : Type := spec_float.

#[export] Instance f64_eq_dec : EqDecision f64.
Proof. solve_decision. Defined.

Definition f64_prec : Z := 53.
Definition f64_emax : Z := 1024.

(** [n as f64]: rounded to nearest, ties to even. *)
Definition f64_of_Z (n : Z) : f64 := binary_normalize f64_prec f64_emax n 0 false.

Definition f64_add : f64 → f64 → f64 := SFadd f64_prec f64_emax.
Definition f64_sub : f64 → f64 → f64 := SFsub f64_prec f64_emax.
Definition f64_div : f64 → f64 → f64 := SFdiv f64_prec f64_emax.
Definition f64_abs : f64 → f64 := SFabs.
(** [f64::is_finite]. *)
Definition f64_is_finite (x : f64) : bool :=
  match x with S754_zero _ | S754_finite _ _ _ => true | _ => false end.

(** [==], [<], [<=] and [partial_cmp]: everything but [!=] is false on NaN. *)
Definition f64_partial_cmp (x y : f64) : option comparison := SFcompare x y.
Definition f64_eqb (x y : f64) : bool := SFeqb x y.
Definition f64_ltb (x y : f64) : bool := SFltb x y.
Definition f64_leb (x y : f64) : bool := SFleb x y.

(** The binary64 nearest to [m * 10 ^ e], for [m] positive. *)
Definition f64_of_decimal (neg : bool) (m : positive) (e : Z) : f64 :=
  if 0 <=? e then
    binary_normalize f64_prec f64_emax ((if neg then -1 else 1) * (Zpos m * 10 ^ e)) 0 neg
  else
    let '(q, ex, lz) := SFdiv_core_binary f64_prec f64_emax (Zpos m) 0 (10 ^ (- e)) 0 in
    binary_round_aux f64_prec f64_emax neg q ex lz.

(** The run of ASCII digits at the head of a slice, and what follows. *)
Fixpoint take_digits (l : list byte) : list byte * list byte :=
  match l with
  | b :: l' => if is_ascii_digit b then let '(d, r) := take_digits l' in (b :: d, r) else ([], l)
  | [] => ([], [])
  end.

Definition dec_val (l : list byte) : Z := default 0 (digits_val 10 0 l).

(** The optional exponent of a decimal: [None] when it is malformed. *)
Definition parse_exponent (l : list byte) : option Z :=
  match l with
  | [] => Some 0
  | c :: l =>
      if byte_eqb c x65 || byte_eqb c x45 then
        let '(neg, l) := match l with
          | s :: l' => if byte_eqb s x2d then (true, l') else if byte_eqb s x2b then (false, l')
                       else (false, l)
          | [] => (false, l) end in
        match take_digits l with
        | ((_ :: _) as d, []) => Some (if neg then - dec_val d else dec_val d)
        | _ => None
        end
      else None
  end.

Definition parse_special (neg : bool) (l : list byte) : option f64 :=
  let s := map lower_byte l in
  if bool_decide (s = sbytes "inf") || bool_decide (s = sbytes "infinity")
  then Some (S754_infinity neg)
  else if bool_decide (s = sbytes "nan") then Some S754_nan
  else None.

(** [str::parse::<f64>]. *)
Definition parse_f64_b (l : list byte) : option f64 :=
  let '(neg, l) := match l with
    | s :: l' => if byte_eqb s x2d then (true, l') else if byte_eqb s x2b then (false, l')
                 else (false, l)
    | [] => (false, l) end in
  let '(ip, r) := take_digits l in
  let '(fp, r) := match r with
    | c :: r' => if byte_eqb c x2e then take_digits r' else ([], r)
    | [] => ([], r) end in
  match ip ++ fp with
  | [] => parse_special neg l
  | ds =>
      match parse_exponent r with
      | None => None
      | Some e =>
          match dec_val ds with
          | Zpos m => Some (f64_of_decimal neg m (e - Z.of_nat (length fp)))
          | _ => Some (S754_zero neg)
          end
      end
  end.
Definition parse_f64 (s : string) : option f64 := parse_f64_b (sbytes s).

(** ** [Display]: the shortest digits that read back as the same number *)

(** [m * 2^e] as a fraction. *)
Definition f64_fraction (m : positive) (e : Z) : Z * Z :=
  if 0 <=? e then (Zpos m * 2 ^ e, 1) else (Zpos m, 2 ^ (- e)).

(** [num / den] scaled by [10 ^ s], rounded to nearest, ties to even. *)
Definition scaled_round (num den s : Z) : Z :=
  let '(n, d) := if 0 <=? s then (num * 10 ^ s, den) else (num, den * 10 ^ (- s)) in
  let '(q, r) := Z.div_eucl n d in
  match Z.compare (2 * r) d with
  | Lt => q
  | Gt => q + 1
  | Eq => if Z.even q then q else q + 1
  end.

(** The [k] with [10^(k-1) <= num/den < 10^k], searched upwards from [k]. *)
Fixpoint decimal_exponent (fuel : nat) (num den k : Z) : Z :=
  match fuel with
  | O => k
  | S fuel =>
      if (if 0 <=? k then num <? den * 10 ^ k else num * 10 ^ (- k) <? den) then k
      else decimal_exponent fuel num den (k + 1)
  end.

Fixpoint shortest_digits (fuel : nat) (neg : bool) (x : f64) (num den k n : Z) : Z * Z :=
  let d := scaled_round num den (n - k) in
  match fuel, d with
  | S fuel, Zpos p =>
      if bool_decide (f64_of_decimal neg p (k - n) = x) then (d, k - n)
      else shortest_digits fuel neg x num den k (n + 1)
  | _, _ => (d, k - n)
  end.

Fixpoint strip_zeros (fuel : nat) (d e : Z) : Z * Z :=
  match fuel with
  | S fuel => if (d mod 10 =? 0) && negb (d =? 0) then strip_zeros fuel (d / 10) (e + 1) else (d, e)
  | O => (d, e)
  end.

Definition positional (d e : Z) : string :=
  let s := sbytes (fmt_dec d) in
  if 0 <=? e then bstr (s ++ replicate (Z.to_nat e) x30)
  else
    let n := Z.to_nat (- e) in
    if (n <? length s)%nat
    then bstr (take (length s - n) s ++ [x2e] ++ drop (length s - n) s)
    else bstr ([x30; x2e] ++ replicate (n - length s) x30 ++ s).

Definition fmt_f64 (x : f64) : string :=
  match x with
  | S754_nan => "NaN"
  | S754_infinity s => if s then "-inf" else "inf"
  | S754_zero s => if s then "-0" else "0"
  | S754_finite s m e =>
      let '(num, den) := f64_fraction m e in
      let k := decimal_exponent 8 num den ((Z.log2 num - Z.log2 den - 1) * 30103 / 100000 - 1) in
      let '(d, ex) := shortest_digits 17 s x num den k 1 in
      let '(d, ex) := strip_zeros 20 d ex in
      (if s then "-" else "") +:+ positional d ex
  end.

Example fmt_f64_examples :
  map (λ s, fmt_f64 <$> parse_f64 s)
    ["0.1"; "1.5e3"; "-12.25"; "1e-7"; "1753281234.5678901"; "123456789012345678901234"; "1e"; "."; "iNf"]%string =
    [Some "0.1"; Some "1500"; Some "-12.25"; Some "0.0000001"; Some "1753281234.5678902";
     Some "123456789012345690000000"; None; None; Some "inf"]%string.
Proof. vm_compute. reflexivity. Qed.

(** ** The order of the numbers that are not NaN *)

(** A key ordered lexicographically like the numbers themselves. *)
Definition f64_key (x : f64) : option (Z * Z * Z) :=
  match x with
  | S754_nan => None
  | S754_infinity s => Some (if s then -2 else 2, 0, 0)
  | S754_zero _ => Some (0, 0, 0)
  | S754_finite s m e => Some (if s then (-1, - e, - Zpos m) else (1, e, Zpos m))
  end.

Definition lex_compare (a b : Z * Z * Z) : comparison :=
  let '(a1, a2, a3) := a in
  let '(b1, b2, b3) := b in
  match a1 ?= b1 with
  | Eq => match a2 ?= b2 with Eq => a3 ?= b3 | c => c end
  | c => c
  end.

Lemma f64_compare_key x y :
  f64_partial_cmp x y =
    match f64_key x, f64_key y with Some a, Some b => Some (lex_compare a b) | _, _ => None end.
Proof.
  unfold f64_partial_cmp, f64_key, lex_compare.
  destruct x as [[]|[]| |[] m1 e1], y as [[]|[]| |[] m2 e2]; simpl; try done.
  rewrite Z.compare_opp, (Z.compare_antisym e1). by destruct (e1 ?= e2).
Qed.

Lemma lex_compare_refl a : lex_compare a a = Eq.
Proof. destruct a as [[a1 a2] a3]. simpl. by rewrite !Z.compare_refl. Qed.

Lemma lex_compare_antisym a b : lex_compare b a = CompOpp (lex_compare a b).
Proof.
  destruct a as [[a1 a2] a3], b as [[b1 b2] b3]. simpl.
  rewrite (Z.compare_antisym a1), (Z.compare_antisym a2), (Z.compare_antisym a3).
  destruct (a1 ?= b1), (a2 ?= b2), (a3 ?= b3); done.
Qed.

(** Less, and less or equal, in the lexicographic order. *)
Lemma lex_compare_le a b :
  lex_compare a b ≠ Gt ↔
    a.1.1 < b.1.1 ∨ a.1.1 = b.1.1 ∧ (a.1.2 < b.1.2 ∨ a.1.2 = b.1.2 ∧ a.2 <= b.2).
Proof.
  destruct a as [[a1 a2] a3], b as [[b1 b2] b3]. simpl.
  destruct (Z.compare_spec a1 b1); [|split; [intros _; lia|done]|split; [done|lia]].
  destruct (Z.compare_spec a2 b2); [|split; [intros _; lia|done]|split; [done|lia]].
  destruct (Z.compare_spec a3 b3); split; try done; try lia; intros _; lia.
Qed.

Lemma lex_compare_eq a b : lex_compare a b = Eq ↔ a = b.
Proof.
  split; [|intros ->; apply lex_compare_refl].
  destruct a as [[a1 a2] a3], b as [[b1 b2] b3]. simpl.
  destruct (Z.compare_spec a1 b1); [|done|done].
  destruct (Z.compare_spec a2 b2); [|done|done].
  destruct (Z.compare_spec a3 b3); [|done|done]. congruence.
Qed.

Lemma lex_compare_trans a b c :
  lex_compare a b ≠ Gt → lex_compare b c ≠ Gt → lex_compare a c ≠ Gt.
Proof. rewrite !lex_compare_le. lia. Qed.
