(* ===== verification/Value.v ===== *)
(** * JSON values and the broker's libraries

    The broker builds and takes apart [serde_json] values.  The library itself
    is not part of the repository: its number type and its text conversions are
    the fields of the class [SerdeJson], and the source's own functions are
    defined over them.  A JSON object is a finite map (the source never depends
    on the order of its keys).  [HashMap] iteration order is unspecified: the
    class [HashOrder] provides some order of the entries.  SHA-1, base64 and
    ChaCha20-Poly1305 are the fields of [Crypto]. *)

From S2P Require Import Prelude RustStr F64.
#[local] Open Scope Z_scope.

#[local] Set Warnings "-register-all".

Inductive Value (N : Type) : Type :=
  | VNull
  | VBool (b : bool)
  | VNumber (n : N)
  | VString (s : string)
  | VArray (l : list (Value N))
  | VObject (m : gmap string (Value N)).
Arguments VNull {N}.
Arguments VBool {N} _.
Arguments VNumber {N} _.
Arguments VString {N} _.
Arguments VArray {N} _.
Arguments VObject {N} _.

Class SerdeJson := {
  Number : Type;
  (** [Number::as_i64], [as_u64], [as_f64], [Display]. *)
  num_as_i64 : Number → option Z;
  num_as_u64 : Number → option Z;
  num_as_f64 : Number → option f64;
  num_to_string : Number → string;
  (** [Number::from] an integer of 64 bits, and [Number::from_f64]. *)
  num_of_int : Z → Number;
  num_of_f64 : f64 → option Number;
  (** [to_vec] (and [to_string]), [from_slice] (and [from_str]). *)
  to_vec : Value Number → option (list byte);
  from_slice : list byte → option (Value Number);
}.

Class HashOrder := {
  hash_order : ∀ {A}, gmap string A → list (string * A);
  hash_order_perm : ∀ A (m : gmap string A), hash_order m ≡ₚ map_to_list m;
}.

(** The values and keys of a [HashMap], in iteration order. *)
Definition hash_values `{HashOrder} {A} (m : gmap string A) : list A := (hash_order m).*2.

Class Crypto := {
  sha1 : list byte → list byte;
  sha1_length : ∀ l, length (sha1 l) = 20%nat;
  b64_encode : list byte → list byte;
  b64_decode : list byte → option (list byte);
  b64_decode_encode : ∀ l, b64_decode (b64_encode l) = Some l;
  chacha_encrypt : list byte → list byte → list byte → option (list byte);
  chacha_decrypt : list byte → list byte → list byte → option (list byte);
  chacha_roundtrip : ∀ key nonce plain cipher,
    chacha_encrypt key nonce plain = Some cipher →
    chacha_decrypt key nonce cipher = Some plain ∧ length cipher = (length plain + 16)%nat;
}.

Section value.
Context `{SerdeJson}.

Definition JValue : Type := Value Number.
Definition JMap : Type := gmap string JValue.

(** [Value::get] with a string index, [as_str], [as_array], [as_object], [as_i64], [as_u64]. *)
Definition vget (v : JValue) (key : string) : option JValue :=
  match v with VObject m => m !! key | _ => None end.
Definition as_str (v : JValue) : option string := match v with VString s => Some s | _ => None end.
Definition as_array (v : JValue) : option (list JValue) :=
  match v with VArray l => Some l | _ => None end.
Definition as_object (v : JValue) : option JMap := match v with VObject m => Some m | _ => None end.
Definition as_i64 (v : JValue) : option Z :=
  match v with VNumber n => num_as_i64 n | _ => None end.
Definition as_u64 (v : JValue) : option Z :=
  match v with VNumber n => num_as_u64 n | _ => None end.

(** The [json!] macro on objects, arrays, strings, integers and floats. *)
Definition jobj (fields : list (string * JValue)) : JValue :=
  VObject (list_to_map (rev fields)).
Definition jint (z : Z) : JValue := VNumber (num_of_int z).
Definition jf64 (x : f64) : JValue :=
  match num_of_f64 x with Some n => VNumber n | None => VNull end.

(** [for (k, v) in src { dst.insert(k, v) }]. *)
Definition map_extend (dst src : JMap) : JMap := src ∪ dst.
End value.

(** [opt.or_else(..)]. *)
Notation "a 'or_else' b" := (match a with Some x => Some x | None => b end)
  (at level 65, right associativity, only parsing).

(** ** Concrete instances

    They serve to run the definitions on examples: numbers are integers or
    floats, and text conversions are left out. *)

Inductive SimpleNumber := NInt (z : Z) | NFloat (x : f64).

#[export] Instance simple_serde : SerdeJson := {|
  Number := SimpleNumber;
  num_as_i64 n := match n with NInt z => if (- I64 <=? z) && (z <? I64) then Some z else None | _ => None end;
  num_as_u64 n := match n with NInt z => if (0 <=? z) && (z <? U64) then Some z else None | _ => None end;
  num_as_f64 n := match n with NInt z => Some (f64_of_Z z) | NFloat x => Some x end;
  num_to_string n := match n with NInt z => fmt_dec z | NFloat x => fmt_f64 x end;
  num_of_int z := NInt z;
  num_of_f64 x := match x with S754_nan | S754_infinity _ => None | _ => Some (NFloat x) end;
  to_vec _ := Some [];
  from_slice _ := None;
|}.

#[export] Instance simple_order : HashOrder := {|
  hash_order A m := map_to_list m;
  hash_order_perm A m := reflexivity _;
|}.

#[local] Obligation Tactic := idtac.

#[export] Program Instance simple_crypto : Crypto := {|
  sha1 l := take 20 (l ++ replicate 20 x00);
  b64_encode l := l;
  b64_decode l := Some l;
  chacha_encrypt _ _ plain := Some (plain ++ replicate 16 x00);
  chacha_decrypt _ _ cipher := Some (take (length cipher - 16) cipher);
|}.
Next Obligation. intros l. cbv beta. rewrite length_take, length_app, length_replicate. lia. Qed.
Next Obligation. by intros. Qed.
Next Obligation.
  intros key nonce plain cipher Hc. assert (cipher = plain ++ replicate 16 x00) as -> by congruence. cbv beta. rewrite length_app, length_replicate. split; [|done].
  f_equal. rewrite Nat.add_sub. apply take_app_length.
Qed.

Lemma elem_of_hash_values `{HashOrder} {A} (m : gmap string A) x :
  x ∈ hash_values m ↔ ∃ k, m !! k = Some x.
Proof.
  unfold hash_values. rewrite hash_order_perm, list_elem_of_fmap. split.
  - intros ([k y] & -> & Hin%elem_of_map_to_list). eauto.
  - intros [k Hk]. exists (k, x). split; [done|]. by apply elem_of_map_to_list.
Qed.

Lemma hash_values_perm `{HashOrder} {A} (m : gmap string A) :
  hash_values m ≡ₚ (map_to_list m).*2.
Proof. unfold hash_values. by rewrite hash_order_perm. Qed.
