(* ===== verification/LobbyFilter.v ===== *)
(** * FindLobbies filter and sort: [lan-server/src/lobby_filter.rs]

    Parsing of the OData-like filter and sort strings and their evaluation on
    the broker's view of a lobby.  The scanner is a byte list and an index, as
    in the source; its loop is bounded by the length of the text, which
    [parse_filter_total] shows to be enough. *)

From S2P Require Import Prelude RustStr F64 Value.
#[local] Open Scope Z_scope.

(** ** Data *)

Inductive Key :=
  | StringKey (n : Z)
  | NumberKey (n : Z)
  | MemberCount
  | MaxMemberCount
  | MemberCountRemaining
  | MembershipLock
  | AmOwner
  | AmMember
  | AmServer
  | LobbyId.

Inductive Op := OpEq | OpNe | OpLe | OpLt | OpGe | OpGt.

#[export] Instance Key_eq_dec : EqDecision Key.
Proof. solve_decision. Defined.
#[export] Instance Op_eq_dec : EqDecision Op.
Proof. solve_decision. Defined.

Record Clause := mkClause { c_key : Key; c_op : Op; c_value : string; c_raw : string }.

#[export] Instance Clause_eq_dec : EqDecision Clause.
Proof. solve_decision. Defined.

Record Filter := mkFilter { clauses : list Clause; unsupported : list string }.

Record LobbyView `{SerdeJson} := mkLobbyView {
  lv_id : string;
  lv_max_players : f64;
  lv_current_members : f64;
  lv_membership_lock : string;
  lv_search_data : JMap;
  lv_owner_id : string;
  lv_viewer_id : option string;
  lv_viewer_is_member : bool;
  lv_has_server : bool;
}.

Arguments mkLobbyView {_}.

Record SortSpec := mkSortSpec { s_key : Key; s_desc : bool; s_distance : option f64 }.

(** ** The scanner *)

Section scanner.
Context (s : list byte).

(** [u8::is_ascii_whitespace]. *)
Definition is_ascii_ws (b : byte) : bool :=
  byte_eqb b x20 || byte_eqb b x09 || byte_eqb b x0a || byte_eqb b x0c || byte_eqb b x0d.

Fixpoint skip_while (p : byte → bool) (fuel i : nat) : nat :=
  match fuel with
  | O => i
  | S fuel => match s !! i with
              | Some b => if p b then skip_while p fuel (i + 1) else i
              | None => i
              end
  end.
Definition skip_ws (i : nat) : nat := skip_while is_ascii_ws (length s) i.

(** [at_end]: whether the end is reached, and the index moved over white space. *)
Definition at_end (i : nat) : bool * nat := let i := skip_ws i in ((length s <=? i)%nat, i).

Definition take_bare (i : nat) : option (list byte) * nat :=
  let start := skip_ws i in
  let e := skip_while (λ b, negb (is_ascii_ws b)) (length s) start in
  if (start =? e)%nat then (None, e) else (Some (slice start (e - start) s), e).

(** The characters of a quoted value, from behind its opening quote: the value, and the offset
    behind its closing quote.  A doubled quote stands for one. *)
Fixpoint quoted (cs : list (list byte)) (off : nat) (out : list byte) : option (list byte * nat) :=
  match cs with
  | [] => None
  | c :: cs =>
      if bool_decide (c = [x27]) then
        match cs with
        | d :: cs' =>
            if bool_decide (d = [x27]) then quoted cs' (off + 2) (out ++ [x27])
            else Some (out, (off + 1)%nat)
        | [] => Some (out, (off + 1)%nat)
        end
      else quoted cs (off + length c) (out ++ c)
  end.

Definition take_value (i : nat) : option (list byte) * nat :=
  let i := skip_ws i in
  if bool_decide (s !! i = Some x27) then
    match quoted (chars (drop (i + 1) s)) 0 [] with
    | Some (v, off) => (Some v, (i + 1 + off)%nat)
    | None => (None, i)
    end
  else take_bare i.
End scanner.

(** ** Parsing *)

Definition key_number (tok rest : string) : option Z :=
  match strip_prefix rest tok with
  | Some r => match parse_u32 r with
              | Some n => if (1 <=? n) && (n <=? 30) then Some n else None
              | None => None
              end
  | None => None
  end.

Definition parse_key (tok : string) : option Key :=
  match key_number tok "string_key" with
  | Some n => Some (StringKey n)
  | None =>
  match key_number tok "number_key" with
  | Some n => Some (NumberKey n)
  | None =>
      if bool_decide (tok = "lobby/memberCount") || bool_decide (tok = "lobby/currentMemberCount")
      then Some MemberCount
      else if bool_decide (tok = "lobby/maxMemberCount") then Some MaxMemberCount
      else if bool_decide (tok = "lobby/memberCountRemaining") then Some MemberCountRemaining
      else if bool_decide (tok = "lobby/membershipLock") then Some MembershipLock
      else if bool_decide (tok = "lobby/amOwner") then Some AmOwner
      else if bool_decide (tok = "lobby/amMember") then Some AmMember
      else if bool_decide (tok = "lobby/amServer") then Some AmServer
      else if bool_decide (tok = "lobbyId") || bool_decide (tok = "lobby/lobbyId")
           || bool_decide (tok = "LobbyId")
      then Some LobbyId
      else None
  end
  end%string.

Definition parse_op (tok : string) : option Op :=
  (if bool_decide (tok = "eq") then Some OpEq
   else if bool_decide (tok = "ne") then Some OpNe
   else if bool_decide (tok = "le") then Some OpLe
   else if bool_decide (tok = "lt") then Some OpLt
   else if bool_decide (tok = "ge") then Some OpGe
   else if bool_decide (tok = "gt") then Some OpGt
   else None)%string.

Definition parse_bool (s : string) : option bool :=
  (if bool_decide (s = "true") then Some true
   else if bool_decide (s = "false") then Some false
   else None)%string.

Definition is_eq_ne (op : Op) : bool := match op with OpEq | OpNe => true | _ => false end.
Definition is_some {A} (o : option A) : bool := match o with Some _ => true | None => false end.

Definition clause_supported (c : Clause) : bool :=
  match c_key c with
  | StringKey _ | LobbyId | MembershipLock => is_eq_ne (c_op c)
  | AmOwner | AmMember | AmServer => is_eq_ne (c_op c) && is_some (parse_bool (c_value c))
  | NumberKey _ => is_some (parse_f64 (trim (c_value c)))
  | MemberCount | MaxMemberCount | MemberCountRemaining => is_some (parse_f64 (trim (c_value c)))
  end.

Definition add_clause (f : Filter) (c : Clause) : Filter := mkFilter (clauses f ++ [c]) (unsupported f).
Definition add_unsupported (f : Filter) (t : string) : Filter :=
  mkFilter (clauses f) (unsupported f ++ [t]).

(** [s[start..i].trim()]. *)
Definition trimmed (s : list byte) (start e : nat) : string := bstr (trim_b (slice start (e - start) s)).

(** What one clause, read between [start] and [i], adds to the filter. *)
Definition push_clause (f : Filter) (key_tok value raw : string) (op : Op) : Filter :=
  match parse_key key_tok with
  | Some key =>
      let clause := mkClause key op value raw in
      if clause_supported clause then add_clause f clause else add_unsupported f raw
  | None => add_unsupported f raw
  end.

(** The loop of [parse_filter]: [None] when the fuel runs out. *)
Fixpoint parse_filter_loop (s : list byte) (fuel i : nat) (out : Filter) : option Filter :=
  match fuel with
  | O => None
  | S fuel =>
      let tail start := trimmed s start (length s) in
      let '(ended, i) := at_end s i in
      if ended then Some out
      else
        let start := i in
        match take_bare s i with
        | (None, _) => Some out
        | (Some key_tok, i) =>
            if bool_decide (key_tok = sbytes "or") then Some (add_unsupported out (tail start))
            else match take_bare s i with
            | (None, _) => Some (add_unsupported out (tail start))
            | (Some op_tok, i) =>
                match parse_op (bstr op_tok) with
                | None => Some (add_unsupported out (tail start))
                | Some op =>
                    match take_value s i with
                    | (None, _) => Some (add_unsupported out (tail start))
                    | (Some value, i) =>
                        let out := push_clause out (bstr key_tok) (bstr value) (trimmed s start i) op in
                        let '(ended, i) := at_end s i in
                        if ended then Some out
                        else match take_bare s i with
                        | (None, _) => Some out
                        | (Some join, i) =>
                            if bool_decide (join = sbytes "and") then parse_filter_loop s fuel i out
                            else Some (add_unsupported out (tail start))
                        end
                    end
                end
            end
        end
  end.

Definition parse_filter (text : string) : Filter :=
  let s := sbytes text in
  default (mkFilter [] []) (parse_filter_loop s (S (length s)) 0 (mkFilter [] [])).

(** One term of the sort string: a specification, or the text of a term that is not supported. *)
Definition parse_sort_term (term : string) : SortSpec + string :=
  match (strip_prefix "distance{" term ≫= strip_suffix "}") with
  | Some inner =>
      match split_once x3d inner with
      | Some (k, v) =>
          match parse_key (trim k), parse_f64 (trim v) with
          | Some (NumberKey n as k), Some t => inl (mkSortSpec k false (Some t))
          | _, _ => inr term
          end
      | None => inr term
      end
  | None =>
      let it := split_whitespace term in
      let key := it !! 0%nat ≫= parse_key in
      let dir := it !! 1%nat in
      if is_some (it !! 2%nat) then inr term
      else
        let desc := match dir with
          | Some d => if bool_decide (d = "asc"%string) then Some false
                      else if bool_decide (d = "desc"%string) then Some true else None
          | None => None
          end in
        match desc with
        | None => inr term
        | Some desc =>
            match key with
            | Some (NumberKey _ as k) | Some (MemberCount as k) | Some (MaxMemberCount as k)
            | Some (MemberCountRemaining as k) => inl (mkSortSpec k desc None)
            | _ => inr term
            end
        end
  end.

Definition parse_sort (s : string) : list SortSpec * list string :=
  let terms := filter (λ t, t ≠ ""%string) (map trim (split_str x2c s)) in
  let parsed := map parse_sort_term terms in
  (omap (λ r, match r with inl sp => Some sp | inr _ => None end) parsed,
   omap (λ r, match r with inl _ => None | inr t => Some t end) parsed).

(** ** Evaluation *)

Section eval.
Context `{SerdeJson}.

Definition value_as_f64 (v : JValue) : option f64 :=
  match v with
  | VNumber n => num_as_f64 n
  | VString s => parse_f64 (trim s)
  | VBool b => Some (f64_of_Z (if b then 1 else 0))
  | _ => None
  end.

Definition value_as_str (v : JValue) : option string :=
  match v with
  | VString s => Some s
  | VNumber n => Some (num_to_string n)
  | VBool b => Some (if b then "1" else "0")%string
  | _ => None
  end.

Definition search_number (l : LobbyView) (n : Z) : option f64 :=
  lv_search_data l !! ("number_key" +:+ fmt_dec n) ≫= value_as_f64.
Definition search_string (l : LobbyView) (n : Z) : option string :=
  lv_search_data l !! ("string_key" +:+ fmt_dec n) ≫= value_as_str.

Definition cmp_num (a b : f64) (op : Op) : bool :=
  match op with
  | OpEq => f64_eqb a b
  | OpNe => negb (f64_eqb a b)
  | OpLe => f64_leb a b
  | OpLt => f64_ltb a b
  | OpGe => f64_leb b a
  | OpGt => f64_ltb b a
  end.

(** [==] and [!=] under an operator that must be one of them. *)
Definition eq_ne (c : Clause) (b : bool) : result bool string :=
  match c_op c with
  | OpEq => Ok b
  | OpNe => Ok (negb b)
  | _ => Err (c_raw c)
  end.

Definition with_number (c : Clause) (f : f64 → result bool string) : result bool string :=
  match parse_f64 (trim (c_value c)) with Some want => f want | None => Err (c_raw c) end.
Definition with_bool (c : Clause) (actual : bool) : result bool string :=
  match parse_bool (c_value c) with
  | Some want => eq_ne c (eqb actual want)
  | None => Err (c_raw c)
  end.

Definition eval_clause (c : Clause) (l : LobbyView) : result bool string :=
  match c_key c with
  | StringKey n =>
      match search_string l n with
      | None => Ok false
      | Some stored => eq_ne c (bool_decide (stored = c_value c))
      end
  | NumberKey n =>
      with_number c (λ want,
        match search_number l n with
        | Some stored => Ok (cmp_num stored want (c_op c))
        | None => Ok false
        end)
  | MemberCount => with_number c (λ want, Ok (cmp_num (lv_current_members l) want (c_op c)))
  | MaxMemberCount => with_number c (λ want, Ok (cmp_num (lv_max_players l) want (c_op c)))
  | MemberCountRemaining =>
      with_number c (λ want,
        Ok (cmp_num (f64_sub (lv_max_players l) (lv_current_members l)) want (c_op c)))
  | MembershipLock => eq_ne c (eq_ignore_ascii_case (lv_membership_lock l) (c_value c))
  | AmOwner =>
      with_bool c (match lv_viewer_id l with
                   | Some v => negb (bool_decide (v = ""%string)) && bool_decide (v = lv_owner_id l)
                   | None => false
                   end)
  | AmMember => with_bool c (lv_viewer_is_member l)
  | AmServer => with_bool c (lv_has_server l)
  | LobbyId => eq_ne c (bool_decide (lv_id l = c_value c))
  end.

(** [Filter::matches]. *)
Definition matches (f : Filter) (l : LobbyView) : bool :=
  match unsupported f with
  | _ :: _ => false
  | [] => forallb (λ c, match eval_clause c l with Ok true => true | _ => false end) (clauses f)
  end.

Definition sort_number (l : LobbyView) (key : Key) : option f64 :=
  match key with
  | NumberKey n => search_number l n
  | MemberCount => Some (lv_current_members l)
  | MaxMemberCount => Some (lv_max_players l)
  | MemberCountRemaining => Some (f64_sub (lv_max_players l) (lv_current_members l))
  | _ => None
  end.

(** The number a specification compares: the value, or its distance to the target. *)
Definition spec_number (spec : SortSpec) (l : LobbyView) : option f64 :=
  (λ x, match s_distance spec with Some t => f64_abs (f64_sub x t) | None => x end)
    <$> sort_number l (s_key spec).

Definition cmp_spec (a b : LobbyView) (spec : SortSpec) : comparison :=
  match spec_number spec a, spec_number spec b with
  | None, None => Eq
  | None, Some _ => Gt
  | Some _, None => Lt
  | Some x, Some y =>
      let o := default Eq (f64_partial_cmp x y) in
      if s_desc spec then CompOpp o else o
  end.

Fixpoint cmp_lobbies (a b : LobbyView) (specs : list SortSpec) : comparison :=
  match specs with
  | [] => Eq
  | spec :: specs =>
      match cmp_spec a b spec with
      | Eq => cmp_lobbies a b specs
      | ord => ord
      end
  end.
End eval.

(** ** Termination, and what the parser lets through *)

Section scanner_bounds.
Context (s : list byte).

Lemma skip_while_bounds p fuel i :
  (i ≤ skip_while s p fuel i)%nat ∧
  ((i ≤ length s)%nat → (skip_while s p fuel i ≤ length s)%nat).
Proof.
  revert i. induction fuel as [|fuel IH]; intros i; simpl; [lia|].
  destruct (s !! i) eqn:Hi; [|lia]. apply lookup_lt_Some in Hi.
  destruct (p b); [|lia]. destruct (IH (i + 1)%nat). lia.
Qed.

Lemma skip_while_end p fuel i : (length s ≤ i)%nat → skip_while s p fuel i = i.
Proof. intros Hi. destruct fuel; simpl; [done|]. by rewrite lookup_ge_None_2. Qed.

Lemma skip_ws_bounds i : (i ≤ skip_ws s i)%nat.
Proof. apply skip_while_bounds. Qed.

Lemma take_bare_bounds i t e :
  take_bare s i = (Some t, e) → (i < e)%nat ∧ ((i < length s)%nat → (e ≤ length s)%nat).
Proof.
  unfold take_bare. pose proof (skip_ws_bounds i) as Hge.
  destruct (skip_while_bounds is_ascii_ws (length s) i) as [_ Hle].
  destruct (skip_while_bounds (λ b, negb (is_ascii_ws b)) (length s) (skip_ws s i)) as [Hg2 Hl2].
  destruct (_ =? _)%nat eqn:He; [done|]. bool_props. intros [= _ <-]. unfold skip_ws in *. lia.
Qed.

Lemma take_bare_None i e : take_bare s i = (None, e) → (i ≤ e)%nat.
Proof.
  unfold take_bare. pose proof (skip_ws_bounds i).
  destruct (_ =? _)%nat eqn:He; [|done]. bool_props. intros [= <-]. lia.
Qed.

Lemma take_value_bounds i v e : take_value s i = (Some v, e) → (i < e)%nat.
Proof.
  unfold take_value. pose proof (skip_ws_bounds i). case_bool_decide.
  - destruct (quoted _ _ _) as [[v' off]|]; [|done]. intros [= _ <-]. lia.
  - intros [? _]%take_bare_bounds. lia.
Qed.
End scanner_bounds.

(** Each turn of the loop consumes at least one byte. *)
Lemma parse_filter_loop_fuel s fuel i out :
  (length s - i < fuel)%nat → is_Some (parse_filter_loop s fuel i out).
Proof.
  revert i out. induction fuel as [|fuel IH]; intros i out Hf; [lia|]. cbn [parse_filter_loop].
  unfold at_end. pose proof (skip_ws_bounds s i).
  destruct (_ <=? _)%nat eqn:Hend; [eauto|]. bool_props.
  destruct (take_bare s (skip_ws s i)) as [[key|] i1] eqn:H1; [|eauto].
  apply take_bare_bounds in H1 as [? _]. case_bool_decide; [eauto|].
  destruct (take_bare s i1) as [[op|] i2] eqn:H2; [|eauto]. apply take_bare_bounds in H2 as [? _].
  destruct (parse_op _); [|eauto].
  destruct (take_value s i2) as [[v|] i3] eqn:H3; [|eauto]. apply take_value_bounds in H3.
  pose proof (skip_ws_bounds s i3).
  destruct (length s <=? skip_ws s i3)%nat eqn:Hend2; [eauto|]. bool_props.
  destruct (take_bare s (skip_ws s i3)) as [[j|] i4] eqn:Hj; [|eauto].
  apply take_bare_bounds in Hj as [? _]. case_bool_decide; [|eauto]. apply IH. lia.
Qed.

Section supported.
Context `{SerdeJson}.

(** A supported clause evaluates without an error on every lobby. *)
Lemma eval_clause_supported c l :
  clause_supported c = true → ∃ b, eval_clause c l = Ok b.
Proof.
  unfold clause_supported, eval_clause, with_number, with_bool, eq_ne, is_some.
  destruct (c_key c); destruct (c_op c); simpl; intros Hs; try done;
    repeat case_match; try done; eauto.
Qed.

Lemma push_clause_supported f k v r op :
  (∀ c, c ∈ clauses f → clause_supported c = true) →
  ∀ c, c ∈ clauses (push_clause f k v r op) → clause_supported c = true.
Proof.
  intros Hf c. unfold push_clause. destruct (parse_key k) as [key|]; [|apply Hf].
  destruct (clause_supported _) eqn:Hs; [|apply Hf]. cbn [clauses add_clause].
  intros [?| ->%list_elem_of_singleton]%elem_of_app; auto.
Qed.

Lemma parse_filter_loop_supported s fuel i out f :
  (∀ c, c ∈ clauses out → clause_supported c = true) →
  parse_filter_loop s fuel i out = Some f →
  ∀ c, c ∈ clauses f → clause_supported c = true.
Proof.
  revert i out. induction fuel as [|fuel IH]; intros i out Ho; cbn [parse_filter_loop]; [done|].
  destruct (at_end s i) as [[] i0]; [by intros [= <-]|].
  destruct (take_bare s i0) as [[key|] i1]; [|by intros [= <-]].
  case_bool_decide; [by intros [= <-]|].
  destruct (take_bare s i1) as [[op|] i2]; [|by intros [= <-]].
  destruct (parse_op _) as [o|]; [|by intros [= <-]].
  destruct (take_value s i2) as [[v|] i3]; [|by intros [= <-]].
  pose proof (push_clause_supported out (bstr key) (bstr v) (trimmed s i0 i3) o Ho) as Hp.
  set (out' := push_clause _ _ _ _ _) in *. clearbody out'.
  destruct (at_end s i3) as [[] i4]; [by intros [= <-]|].
  destruct (take_bare s i4) as [[j|] i5]; [|by intros [= <-]].
  case_bool_decide; [by apply IH|by intros [= <-]].
Qed.
End supported.

(** ** The sort order *)

(** A comparison that is a total preorder on the elements satisfying [P]. *)
Record preorder_on {A} (P : A → Prop) (c : A → A → comparison) : Prop := {
  po_antisym : ∀ a b, P a → P b → c b a = CompOpp (c a b);
  po_trans : ∀ a b d, P a → P b → P d → c a b ≠ Gt → c b d ≠ Gt → c a d ≠ Gt;
}.

(** Lexicographic composition of two comparisons. *)
Lemma preorder_lex {A} (P : A → Prop) (c1 c2 : A → A → comparison) :
  preorder_on P c1 → preorder_on P c2 →
  preorder_on P (λ a b, match c1 a b with Eq => c2 a b | o => o end).
Proof.
  intros [Ha1 Ht1] [Ha2 Ht2]. split.
  - intros a b Hpa Hpb. rewrite (Ha1 a b) by done. destruct (c1 a b); simpl; auto.
  - intros a b d Hpa Hpb Hpd.
    pose proof (Ht1 a b d Hpa Hpb Hpd) as T1. pose proof (Ht1 b d a Hpb Hpd Hpa) as T2.
    pose proof (Ht1 d a b Hpd Hpa Hpb) as T3. pose proof (Ht2 a b d Hpa Hpb Hpd) as T4.
    rewrite (Ha1 a d), (Ha1 a b) in T2 by done. rewrite (Ha1 a d), (Ha1 b d) in T3 by done.
    destruct (c1 a b), (c1 b d), (c1 a d); simpl in *; try done; auto; intros; exfalso;
      first [by apply T1|by apply T2|by apply T3].
Qed.

Section order.
Context `{SerdeJson}.

Definition nan_free (specs : list SortSpec) (l : LobbyView) : Prop :=
  Forall (λ sp, spec_number sp l ≠ Some S754_nan) specs.

Lemma f64_key_Some x : x ≠ S754_nan → is_Some (f64_key x).
Proof. intros Hx. destruct x; first [done|eexists; reflexivity]. Qed.

Lemma cmp_spec_preorder sp :
  preorder_on (λ l, spec_number sp l ≠ Some S754_nan) (λ a b, cmp_spec a b sp).
Proof.
  assert (Hc : ∀ x y, Some x ≠ Some S754_nan → Some y ≠ Some S754_nan → ∃ kx ky,
    f64_key x = Some kx ∧ f64_key y = Some ky ∧
    default Eq (f64_partial_cmp x y) = lex_compare kx ky).
  { intros x y Hx Hy. destruct (f64_key_Some x) as [kx Hkx]; [congruence|].
    destruct (f64_key_Some y) as [ky Hky]; [congruence|].
    exists kx, ky. by rewrite f64_compare_key, Hkx, Hky. }
  split.
  - intros a b Ha Hb. unfold cmp_spec.
    destruct (spec_number sp a) as [x|], (spec_number sp b) as [y|]; try done.
    destruct (Hc x y Ha Hb) as (kx & ky & Hx & Hy & ->).
    destruct (Hc y x Hb Ha) as (ky' & kx' & Hy' & Hx' & ->). simplify_eq.
    rewrite (lex_compare_antisym kx ky). by destruct (s_desc sp).
  - intros a b d Ha Hb Hd. unfold cmp_spec.
    destruct (spec_number sp a) as [x|], (spec_number sp b) as [y|],
      (spec_number sp d) as [z|]; try done.
    destruct (Hc x y Ha Hb) as (kx & ky & Hx & Hy & ->).
    destruct (Hc y z Hb Hd) as (ky' & kz & Hy' & Hz & ->).
    destruct (Hc x z Ha Hd) as (kx' & kz' & Hx' & Hz' & ->). simplify_eq.
    destruct (s_desc sp); [|apply lex_compare_trans].
    rewrite <- !lex_compare_antisym. intros. by eapply lex_compare_trans.
Qed.

Lemma cmp_lobbies_preorder specs :
  preorder_on (nan_free specs) (λ a b, cmp_lobbies a b specs).
Proof.
  induction specs as [|sp specs IH]; [by split|]. cbn [cmp_lobbies].
  assert (Hw : ∀ P Q : LobbyView → Prop, ∀ c, (∀ l, Q l → P l) → preorder_on P c → preorder_on Q c).
  { intros P Q c HPQ [Ha Ht]. split; [intros; apply Ha; auto|].
    intros a b d ??? H1 H2. apply (Ht a b d); auto. }
  apply (preorder_lex (nan_free (sp :: specs)) (λ a b, cmp_spec a b sp)
           (λ a b, cmp_lobbies a b specs)).
  - eapply Hw; [|apply cmp_spec_preorder]. by intros l [? _]%Forall_cons.
  - eapply Hw; [|apply IH]. by intros l [_ ?]%Forall_cons.
Qed.
End order.

(** ** Filters in canonical form *)

(** A clause as the game's client writes it: a key, an operator, a quoted value. *)
Definition key_text (k : Key) : string :=
  match k with
  | StringKey n => "string_key" +:+ fmt_dec n
  | NumberKey n => "number_key" +:+ fmt_dec n
  | MemberCount => "lobby/memberCount"
  | MaxMemberCount => "lobby/maxMemberCount"
  | MemberCountRemaining => "lobby/memberCountRemaining"
  | MembershipLock => "lobby/membershipLock"
  | AmOwner => "lobby/amOwner"
  | AmMember => "lobby/amMember"
  | AmServer => "lobby/amServer"
  | LobbyId => "lobbyId"
  end.
Definition key_ok (k : Key) : Prop :=
  match k with StringKey n | NumberKey n => 1 <= n <= 30 | _ => True end.
Definition op_text (o : Op) : string :=
  match o with
  | OpEq => "eq" | OpNe => "ne" | OpLe => "le" | OpLt => "lt" | OpGe => "ge" | OpGt => "gt"
  end.

Definition quote_char (c : list byte) : list byte := if bool_decide (c = [x27]) then [x27; x27] else c.
Definition quote_value (v : list byte) : list byte := concat (map quote_char (chars v)).
Definition clause_text (k : Key) (o : Op) (v : list byte) : list byte :=
  sbytes (key_text k) ++ x20 :: sbytes (op_text o) ++ [x20; x27] ++ quote_value v ++ [x27].

(** Clauses joined by [and]. *)
Fixpoint filter_text (cs : list (Key * Op * list byte)) : list byte :=
  match cs with
  | [] => []
  | [(k, o, v)] => clause_text k o v
  | (k, o, v) :: cs => clause_text k o v ++ sbytes " and " ++ filter_text cs
  end.

Definition canonical (c : Key * Op * list byte) : Clause :=
  let '(k, o, v) := c in mkClause k o (bstr v) (bstr (clause_text k o v)).
Definition canonical_ok (c : Key * Op * list byte) : Prop :=
  key_ok c.1.1 ∧ utf8_valid c.2 = true ∧ clause_supported (canonical c) = true.

(** A non-empty run of printable ASCII. *)
Definition token (t : list byte) : Prop :=
  t ≠ [] ∧ Forall (λ b, is_ascii_ws b = false ∧ 32 < bz b < 128) t.

Lemma skip_while_at pre tok rest p fuel :
  Forall (λ b, p b = true) tok → match rest with [] => True | b :: _ => p b = false end →
  (length tok ≤ fuel)%nat →
  skip_while (pre ++ tok ++ rest) p fuel (length pre) = (length pre + length tok)%nat.
Proof.
  revert pre fuel. induction tok as [|b tok IH]; intros pre fuel Ht Hr Hf;
    (destruct fuel as [|fuel]; [simpl in *; lia|]); cbn [skip_while app].
  - rewrite lookup_app_r, Nat.sub_diag by lia. destruct rest as [|b r]; simpl; [lia|].
    rewrite Hr. lia.
  - rewrite lookup_app_r, Nat.sub_diag by lia. simpl. apply Forall_cons in Ht as [-> Ht].
    specialize (IH (pre ++ [b]) fuel Ht Hr ltac:(simpl in Hf; lia)).
    rewrite <- app_assoc, length_app in IH. cbn [app length] in IH. rewrite IH. lia.
Qed.

Lemma skip_ws_token pre t rest : token t → skip_ws (pre ++ t ++ rest) (length pre) = length pre.
Proof.
  intros [Hne Ht]. destruct t as [|b t]; [done|]. apply Forall_cons in Ht as [[Hb _] _].
  unfold skip_ws. rewrite <- (Nat.add_0_r (length pre)) at 2.
  apply (skip_while_at pre [] ((b :: t) ++ rest)); [constructor|done|].
  rewrite !length_app. simpl. lia.
Qed.

Lemma skip_ws_space pre t rest :
  match t ++ rest with [] => True | b :: _ => is_ascii_ws b = false end →
  skip_ws (pre ++ x20 :: t ++ rest) (length pre) = S (length pre).
Proof.
  intros Ht. unfold skip_ws. replace (S (length pre)) with (length pre + length [x20])%nat by (simpl; lia).
  apply (skip_while_at pre [x20] (t ++ rest)); [by repeat constructor| |].
  - by destruct (t ++ rest).
  - rewrite length_app. simpl. lia.
Qed.

(** A token behind at most one space is read whole. *)
Lemma take_bare_at pre sp t rest :
  token t → sp = [] ∨ sp = [x20] → match rest with [] => True | b :: _ => is_ascii_ws b = true end →
  take_bare (pre ++ sp ++ t ++ rest) (length pre) =
    (Some t, (length pre + length sp + length t)%nat).
Proof.
  intros Htok Hsp Hr. pose proof Htok as [Hne Ht].
  assert (Hws : skip_ws (pre ++ sp ++ t ++ rest) (length pre) = length (pre ++ sp)).
  { destruct Hsp as [->| ->]; rewrite length_app; simpl length.
    - rewrite Nat.add_0_r. cbn [app]. by apply skip_ws_token.
    - cbn [app]. rewrite skip_ws_space; [lia|]. destruct t; [done|]. by apply Forall_cons in Ht as [[]]. }
  unfold take_bare. rewrite Hws, app_assoc.
  rewrite (skip_while_at (pre ++ sp) t rest).
  - destruct (_ =? _)%nat eqn:He; bool_props; [destruct t; simpl in *; [done|lia]|].
    rewrite Nat.add_comm, Nat.add_sub, Nat.add_comm.
    unfold slice. rewrite drop_app_length, take_app_length. by rewrite length_app.
  - eapply Forall_impl; [done|]. by intros b [-> _].
  - destruct rest; [done|]. by rewrite Hr.
  - rewrite !length_app. lia.
Qed.

Lemma chars_quote_char c :
  is_char c → chars (quote_char c) = if bool_decide (c = [x27]) then [[x27]; [x27]] else [c].
Proof.
  intros Hc. unfold quote_char. case_bool_decide; [done|].
  unfold chars. by rewrite utf8_chunks_char.
Qed.

Lemma quote_value_valid v : utf8_valid v = true → utf8_valid (quote_value v) = true.
Proof.
  intros Hv. unfold quote_value. pose proof (chars_valid v Hv) as Hc.
  induction Hc as [|c cs Hc Hcs IH]; [done|]. cbn [map concat]. apply utf8_valid_app; [|done].
  unfold quote_char. case_bool_decide; [reflexivity|by apply utf8_valid_char].
Qed.

Lemma chars_quote_value v :
  utf8_valid v = true → chars (quote_value v) =
    concat (map (λ c, if bool_decide (c = [x27]) then [[x27]; [x27]] else [c]) (chars v)).
Proof.
  intros Hv. unfold quote_value. pose proof (chars_valid v Hv) as Hc. clear Hv.
  induction Hc as [|c cs Hc Hcs IH]; [done|]. cbn [map concat].
  rewrite chars_app.
  - by rewrite chars_quote_char, IH.
  - unfold quote_char. case_bool_decide; [reflexivity|by apply utf8_valid_char].
Qed.

Lemma quoted_chars cs rest off out :
  match rest with [] => True | d :: _ => d ≠ [x27] end →
  quoted (concat (map (λ c, if bool_decide (c = [x27]) then [[x27]; [x27]] else [c]) cs)
          ++ [x27] :: rest) off out =
    Some (out ++ concat cs, (off + length (concat (map quote_char cs)) + 1)%nat).
Proof.
  intros Hr. revert off out. induction cs as [|c cs IH]; intros off out; cbn [map concat app].
  - cbn [quoted]. rewrite bool_decide_true by done. rewrite app_nil_r.
    destruct rest as [|d rest]; [f_equal; f_equal; simpl; lia|].
    rewrite bool_decide_false by done. f_equal. f_equal. simpl. lia.
  - unfold quote_char at 1. destruct (bool_decide_reflect (c = [x27])) as [->|Hc]; cbn [app quoted].
    + rewrite !bool_decide_true by done. rewrite IH. f_equal. f_equal; [by app_norm|simpl; lia].
    + rewrite bool_decide_false by done. rewrite IH. f_equal. f_equal; [by app_norm|].
      rewrite length_app. lia.
Qed.

Lemma take_value_at pre v rest :
  utf8_valid v = true → match rest with [] => True | d :: _ => d = x20 end →
  take_value (pre ++ x20 :: x27 :: quote_value v ++ x27 :: rest) (length pre) =
    (Some v, (length pre + length (quote_value v) + 3)%nat).
Proof.
  intros Hv Hr. unfold take_value.
  change (x20 :: x27 :: quote_value v ++ x27 :: rest) with
    (x20 :: [x27] ++ quote_value v ++ x27 :: rest).
  rewrite skip_ws_space by done.
  set (s := pre ++ _).
  assert (Hs : s = (pre ++ [x20]) ++ x27 :: quote_value v ++ x27 :: rest) by (unfold s; by app_norm).
  assert (Hl : length (pre ++ [x20]) = S (length pre)) by (rewrite length_app; simpl; lia).
  rewrite bool_decide_true.
  - assert (Hd : drop (S (length pre) + 1) s = quote_value v ++ x27 :: rest).
    { rewrite Hs. replace (S (length pre) + 1)%nat with (length ((pre ++ [x20]) ++ [x27]))
        by (rewrite length_app, Hl; simpl; lia).
      change (x27 :: quote_value v ++ x27 :: rest) with ([x27] ++ quote_value v ++ x27 :: rest).
      by rewrite app_assoc, drop_app_length. }
    rewrite Hd, chars_app by (by apply quote_value_valid). rewrite chars_quote_value by done.
    change (x27 :: rest) with ([x27] ++ rest).
    rewrite chars_app by reflexivity. change (chars [x27]) with [[x27]]. cbn [app].
    rewrite (quoted_chars (chars v)).
    + rewrite concat_chars. fold (quote_value v). f_equal. lia.
    + destruct rest as [|d rest]; [done|]. subst d.
      change (x20 :: rest) with ([x20] ++ rest). by rewrite chars_app.
  - rewrite Hs, lookup_app_r, Hl, Nat.sub_diag by lia. done.
Qed.

Lemma key_text_parse k : key_ok k → parse_key (key_text k) = Some k.
Proof.
  destruct k; intros Hk; simpl in Hk; try reflexivity.
  - assert (Hin : n ∈ seqZ 1 30) by (apply elem_of_seqZ; lia). clear Hk. revert n Hin.
    apply Forall_forall. repeat (apply Forall_cons_2; [vm_compute; reflexivity|]). apply Forall_nil_2.
  - assert (Hin : n ∈ seqZ 1 30) by (apply elem_of_seqZ; lia). clear Hk. revert n Hin.
    apply Forall_forall. repeat (apply Forall_cons_2; [vm_compute; reflexivity|]). apply Forall_nil_2.
Qed.

Definition is_token (t : list byte) : bool :=
  negb (bool_decide (t = [])) && forallb (λ b, negb (is_ascii_ws b) && ((32 <? bz b) && (bz b <? 128))) t.

Lemma is_token_true t : is_token t = true → token t.
Proof.
  intros [Hn Hf]%andb_true_iff. apply negb_true_iff, bool_decide_eq_false in Hn. split; [done|].
  rewrite forallb_forall in Hf. apply Forall_forall. intros b Hb%list_elem_of_In.
  specialize (Hf _ Hb). apply andb_true_iff in Hf as []. bool_props. split; [done|lia].
Qed.

Lemma key_text_token k : key_ok k → token (sbytes (key_text k)) ∧ sbytes (key_text k) ≠ sbytes "or".
Proof.
  assert (Hnum : ∀ f : Z → Key, Forall (λ n, is_token (sbytes (key_text (f n))) = true ∧
      bool_decide (sbytes (key_text (f n)) = sbytes "or") = false) (seqZ 1 30) →
      ∀ n, 1 <= n <= 30 → token (sbytes (key_text (f n))) ∧ sbytes (key_text (f n)) ≠ sbytes "or").
  { intros f Hf n Hn. rewrite Forall_forall in Hf.
    destruct (Hf n) as [Ht Ho]; [apply elem_of_seqZ; lia|].
    split; [by apply is_token_true|by apply bool_decide_eq_false in Ho]. }
  destruct k; intros Hk; simpl in Hk;
    try (split; [by apply is_token_true|apply (bool_decide_unpack _); reflexivity]);
    revert n Hk; apply Hnum; repeat (apply Forall_cons_2; [by vm_compute|]); apply Forall_nil_2.
Qed.

Lemma op_text_token o : token (sbytes (op_text o)).
Proof. apply is_token_true. by destruct o. Qed.

Lemma parse_op_text o : parse_op (op_text o) = Some o.
Proof. by destruct o. Qed.

(** The text of a clause is its own [trim]. *)
Lemma clause_text_trim k o v :
  key_ok k → utf8_valid v = true → trim_b (clause_text k o v) = clause_text k o v.
Proof.
  intros Hk Hv. destruct (key_text_token k Hk) as [[Hne Ht] _].
  destruct (sbytes (key_text k)) as [|a t] eqn:Hkt; [done|].
  apply Forall_cons in Ht as [[Ha Ha'] Ht].
  assert (Heq : clause_text k o v =
    a :: (t ++ x20 :: sbytes (op_text o) ++ [x20; x27] ++ quote_value v) ++ [x27]).
  { unfold clause_text. rewrite Hkt. by app_norm. }
  rewrite Heq. apply trim_b_id; try done; try lia.
  - apply utf8_valid_app.
    + apply utf8_valid_ascii, forallb_forall. intros b Hb%list_elem_of_In.
      rewrite Forall_forall in Ht. destruct (Ht b Hb) as [_ ?]. apply Z.ltb_lt. lia.
    + change (x20 :: ?l) with ([x20] ++ l). apply utf8_valid_app; [reflexivity|].
      apply utf8_valid_app; [by destruct o|]. apply utf8_valid_app; [reflexivity|].
      by apply quote_value_valid.
  - unfold is_white_space. repeat (apply orb_false_iff; split); try (apply Z.eqb_neq; lia);
      apply andb_false_iff; rewrite !Z.leb_gt; lia.
Qed.

(** ** Parsing back a canonical filter *)

(** The key, operator and value of one clause, wherever it stands. *)
Lemma clause_scan pre sp k o v rest :
  key_ok k → utf8_valid v = true → sp = [] ∨ sp = [x20] →
  match rest with [] => True | d :: _ => d = x20 end →
  let s := pre ++ sp ++ clause_text k o v ++ rest in
  let i1 := (length (pre ++ sp) + length (sbytes (key_text k)))%nat in
  let i2 := (i1 + 1 + length (sbytes (op_text o)))%nat in
  let i3 := (length (pre ++ sp) + length (clause_text k o v))%nat in
  at_end s (length pre) = (false, length (pre ++ sp)) ∧
  take_bare s (length (pre ++ sp)) = (Some (sbytes (key_text k)), i1) ∧
  take_bare s i1 = (Some (sbytes (op_text o)), i2) ∧
  take_value s i2 = (Some v, i3) ∧
  trimmed s (length (pre ++ sp)) i3 = bstr (clause_text k o v).
Proof.
  intros Hk Hv Hsp Hr s i1 i2 i3.
  destruct (key_text_token k Hk) as [Htok _]. pose proof (op_text_token o) as Hop.
  set (kt := sbytes (key_text k)) in *. set (ot := sbytes (op_text o)) in *.
  set (vt := quote_value v ++ x27 :: rest).
  assert (Hct : clause_text k o v = kt ++ x20 :: ot ++ [x20; x27] ++ quote_value v ++ [x27]) by done.
  assert (Hs0 : s = (pre ++ sp) ++ kt ++ x20 :: ot ++ x20 :: x27 :: vt)
    by (unfold s, vt; rewrite Hct; by app_norm).
  assert (Hs1 : s = ((pre ++ sp) ++ kt) ++ [x20] ++ ot ++ x20 :: x27 :: vt) by (rewrite Hs0; by app_norm).
  assert (Hs2 : s = ((pre ++ sp) ++ kt ++ x20 :: ot) ++ x20 :: x27 :: quote_value v ++ x27 :: rest)
    by (rewrite Hs0; unfold vt; by app_norm).
  assert (Hi1 : i1 = length ((pre ++ sp) ++ kt)) by (unfold i1; by rewrite (length_app (pre ++ sp))).
  assert (Hi2 : i2 = length ((pre ++ sp) ++ kt ++ x20 :: ot))
    by (unfold i2, i1; rewrite (length_app (pre ++ sp)), (length_app kt); simpl; lia).
  split; [|split; [|split; [|split]]].
  - assert (Hw : skip_ws s (length pre) = length (pre ++ sp)).
    { rewrite Hs0. destruct Hsp as [->| ->]; rewrite ?app_nil_r; [by apply skip_ws_token|].
      rewrite <- app_assoc. cbn [app]. rewrite skip_ws_space; [rewrite length_app; simpl; lia|].
      destruct Htok as [Hne Ht]. destruct kt as [|b t]; [done|]. by apply Forall_cons in Ht as [[]]. }
    unfold at_end. rewrite Hw. f_equal. apply Nat.leb_gt. rewrite Hs0, !length_app.
    destruct Htok as [Hne _]. destruct kt; simpl; [done|lia].
  - rewrite Hs0. pose proof (take_bare_at (pre ++ sp) [] kt (x20 :: ot ++ x20 :: x27 :: vt) Htok) as Ht.
    cbn [app length] in Ht. rewrite Nat.add_0_r in Ht. apply Ht; auto.
  - rewrite Hi1, Hs1. rewrite (take_bare_at _ [x20] ot) by auto. f_equal.
    rewrite <- Hi1. unfold i2. simpl. lia.
  - rewrite Hi2, Hs2, take_value_at by done. f_equal. rewrite <- Hi2. unfold i3, i2, i1.
    rewrite Hct, !(length_app kt). simpl. rewrite !length_app. simpl. rewrite length_app. simpl. lia.
  - unfold trimmed. replace (i3 - _)%nat with (length (clause_text k o v)) by (unfold i3; lia).
    assert (slice (length (pre ++ sp)) (length (clause_text k o v)) s = clause_text k o v) as ->.
    { unfold slice, s. by rewrite app_assoc, drop_app_length, take_app_length. }
    by rewrite clause_text_trim.
Qed.

Lemma filter_text_cons k o v cs :
  filter_text ((k, o, v) :: cs) =
    clause_text k o v ++ match cs with [] => [] | _ => sbytes " and " ++ filter_text cs end.
Proof. destruct cs; cbn [filter_text]; by rewrite ?app_nil_r. Qed.

Lemma parse_filter_loop_canonical cs pre sp fuel out :
  Forall canonical_ok cs → cs ≠ [] → sp = [] ∨ sp = [x20] → (length cs ≤ fuel)%nat →
  parse_filter_loop (pre ++ sp ++ filter_text cs) fuel (length pre) out =
    Some (mkFilter (clauses out ++ map canonical cs) (unsupported out)).
Proof.
  intros Hcs. revert pre sp fuel out.
  induction Hcs as [|[[k o] v] cs (Hk & Hv & Hsup) Hcs IH]; intros pre sp fuel out Hne Hsp Hf; [done|].
  destruct fuel as [|fuel]; [simpl in Hf; lia|]. cbn [fst snd] in Hk, Hv.
  rewrite filter_text_cons. set (rest := match cs with [] => [] | _ => _ end).
  assert (Hr : match rest with [] => True | d :: _ => d = x20 end) by (unfold rest; by destruct cs).
  destruct (clause_scan pre sp k o v rest Hk Hv Hsp Hr) as (H1 & H2 & H3 & H4 & H5).
  cbn [parse_filter_loop]. rewrite H1, H2. destruct (key_text_token k Hk) as [_ Hor].
  rewrite bool_decide_false by done. rewrite H3, bstr_sbytes, parse_op_text, H4, H5.
  unfold push_clause. rewrite bstr_sbytes, key_text_parse by done.
  change (mkClause k o (bstr v) (bstr (clause_text k o v)))
    with (canonical (k, o, v)). rewrite Hsup.
  set (i3 := (length (pre ++ sp) + length (clause_text k o v))%nat).
  assert (Hi3 : i3 = length (pre ++ sp ++ clause_text k o v))
    by (unfold i3; rewrite !app_assoc, (length_app (pre ++ sp)); done).
  set (s := pre ++ sp ++ clause_text k o v ++ rest).
  assert (Hs : s = (pre ++ sp ++ clause_text k o v) ++ rest) by (unfold s; by app_norm).
  destruct cs as [|c cs].
  - assert (Hend : at_end s i3 = (true, length s)).
    { unfold at_end. assert (Hw : skip_ws s i3 = length s); [|rewrite Hw; f_equal; by apply Nat.leb_le].
      rewrite Hs, Hi3. unfold rest. rewrite app_nil_r. unfold skip_ws. by apply skip_while_end. }
    rewrite Hend. done.
  - set (tail := filter_text (c :: cs)).
    assert (Hs2 : s = (pre ++ sp ++ clause_text k o v) ++ x20 :: sbytes "and" ++ x20 :: tail).
    { rewrite Hs. unfold rest. change (sbytes " and ") with (x20 :: sbytes "and" ++ [x20]). by app_norm. }
    assert (Hand : token (sbytes "and")) by (by apply is_token_true).
    assert (Hend : at_end s i3 = (false, S i3)).
    { unfold at_end. rewrite Hi3, Hs2, skip_ws_space by done. f_equal.
      apply Nat.leb_gt. rewrite !length_app. simpl. lia. }
    rewrite Hend.
    assert (Hs3 : s = ((pre ++ sp ++ clause_text k o v) ++ [x20]) ++ sbytes "and" ++ x20 :: tail)
      by (rewrite Hs2; by app_norm).
    assert (Hl3 : S i3 = length ((pre ++ sp ++ clause_text k o v) ++ [x20]))
      by (rewrite Hi3, (length_app (pre ++ sp ++ clause_text k o v)); simpl; lia).
    pose proof (take_bare_at ((pre ++ sp ++ clause_text k o v) ++ [x20]) [] (sbytes "and")
      (x20 :: tail) Hand (or_introl eq_refl) eq_refl) as Hb.
    cbn [app] in Hb. rewrite <- Hs3, <- Hl3 in Hb. rewrite Hb. rewrite bool_decide_true by done.
    assert (Hs4 : s = (((pre ++ sp ++ clause_text k o v) ++ [x20]) ++ sbytes "and") ++ [x20] ++ tail)
      by (rewrite Hs3; by app_norm).
    specialize (IH (((pre ++ sp ++ clause_text k o v) ++ [x20]) ++ sbytes "and") [x20] fuel
      (add_clause out (canonical (k, o, v))) ltac:(done) (or_intror eq_refl) ltac:(simpl in *; lia)).
    fold tail in IH. rewrite <- Hs4 in IH.
    rewrite (length_app ((pre ++ sp ++ clause_text k o v) ++ [x20])), <- Hl3 in IH.
    replace (S i3 + length (@nil byte) + length (sbytes "and"))%nat
      with (S i3 + length (sbytes "and"))%nat by (simpl; lia).
    rewrite IH. cbn [clauses unsupported add_clause]. do 2 f_equal. by app_norm.
Qed.

Lemma length_filter_text cs : (length cs ≤ length (filter_text cs))%nat.
Proof.
  induction cs as [|[[k o] v] cs IH]; [simpl; lia|].
  rewrite filter_text_cons, length_app. unfold clause_text at 1. rewrite length_app.
  destruct cs as [|c cs]; [simpl; lia|]. rewrite !length_app. simpl length in *. lia.
Qed.

(** ** Properties *)


(** the filters the client writes are understood as written. A conjunction of clauses with
    quoted values (quotes doubled, any text inside, [and] and operators included) parses to exactly
    these clauses, with nothing reported as unsupported. *)
Theorem filter_roundtrip cs :
  Forall canonical_ok cs →
  parse_filter (bstr (filter_text cs)) = mkFilter (map canonical cs) [].
Proof.
  intros Hcs. unfold parse_filter. rewrite sbytes_bstr.
  destruct (decide (cs = [])) as [->|Hne]; [done|].
  pose proof (parse_filter_loop_canonical cs [] [] (S (length (filter_text cs))) (mkFilter [] []) Hcs Hne
    (or_introl eq_refl)) as Hp. cbn [app length] in Hp. rewrite Hp; [done|].
  pose proof (length_filter_text cs). lia.
Qed.

Lemma filter_roundtrip_witness :
  let cs := [(StringKey 7, OpEq, sbytes "it's and x"); (NumberKey 3, OpGe, sbytes "1.5");
             (AmMember, OpNe, sbytes "true")] in
  parse_filter (bstr (filter_text cs)) = mkFilter (map canonical cs) [].
Proof.
  apply filter_roundtrip.
  repeat apply Forall_cons_2; try apply Forall_nil_2; (split; [simpl; lia || done|by split]).
Defined.

(** the comparison [FindLobbies] sorts with is a total preorder on lobbies whose sort numbers
    are not NaN: exchanging the arguments reverses it, and it is transitive. *)
Theorem cmp_lobbies_order `{SerdeJson} specs a b d :
  nan_free specs a → nan_free specs b → nan_free specs d →
  cmp_lobbies b a specs = CompOpp (cmp_lobbies a b specs) ∧
  (cmp_lobbies a b specs ≠ Gt → cmp_lobbies b d specs ≠ Gt → cmp_lobbies a d specs ≠ Gt).
Proof.
  intros Ha Hb Hd. destruct (cmp_lobbies_preorder specs) as [Hs Ht].
  split; [by apply Hs|by apply (Ht a b d)].
Qed.

Definition lobby_with `{SerdeJson} (number : string) : LobbyView :=
  mkLobbyView "l" (f64_of_Z 4) (f64_of_Z 1) "Unlocked" {["number_key1"%string := VString number]}
    "o" None false false.

Lemma cmp_lobbies_order_witness :
  cmp_lobbies (lobby_with "2") (lobby_with "1") [mkSortSpec (NumberKey 1) true None] =
    CompOpp (cmp_lobbies (lobby_with "1") (lobby_with "2") [mkSortSpec (NumberKey 1) true None]) ∧
  (cmp_lobbies (lobby_with "1") (lobby_with "2") [mkSortSpec (NumberKey 1) true None] ≠ Gt →
   cmp_lobbies (lobby_with "2") (lobby_with "3") [mkSortSpec (NumberKey 1) true None] ≠ Gt →
   cmp_lobbies (lobby_with "1") (lobby_with "3") [mkSortSpec (NumberKey 1) true None] ≠ Gt).
Proof. apply cmp_lobbies_order; apply Forall_singleton; vm_compute; congruence. Defined.

(** a client-supplied NaN breaks the sort order. With the search property [number_key1] of one
    lobby set to the text [nan], the comparison handed to [sort_by] is not transitive: 2 is equal
    to it, it is equal to 1, and 2 is greater than 1. *)
Theorem nan_breaks_sort `{SerdeJson} :
  let specs := [mkSortSpec (NumberKey 1) false None] in
  cmp_lobbies (lobby_with "2") (lobby_with "nan") specs = Eq ∧
  cmp_lobbies (lobby_with "nan") (lobby_with "1") specs = Eq ∧
  cmp_lobbies (lobby_with "2") (lobby_with "1") specs = Gt.
Proof. vm_compute. done. Qed.
