(* ===== verification/App.v ===== *)
(** * The broker's state and helpers: [lan-server/src/main.rs], first part

    Sessions, lobbies and party members, the accessors on request bodies, and
    the construction of players and lobbies.  A [&mut App] argument is an [App]
    in and an [App] out; the clock readings a function makes are arguments. *)

From S2P Require Import Prelude RustStr F64 Value LobbyFilter.
#[local] Open Scope Z_scope.

Definition TITLE_DEFAULT : string := "1AC1AD".
Definition BLOB_KEY : list byte := sbytes "kdfg8kojildksuie23jsdfg8fg7klsdx".
Definition WS_GUID : string := "258EAFA5-E914-47DA-95CA-C5AB0DC85B11".
Definition MIN_PLAYERS : Z := 2.
Definition MAX_PLAYERS_CEILING : Z := 32.
Definition DEFAULT_MAX_PLAYERS : Z := 8.
Definition PARTY_SEEN_TTL_SECS : f64 := f64_of_Z 30.

(** ** Data *)

Record Player := mkPlayer {
  playfab_id : string;
  entity_id : string;
  entity_type : string;
  entity_token : string;
  session_ticket : string;
  token_expiration : string;
}.

Record Lobby `{SerdeJson} := mkLobby {
  l_id : string;
  l_connection : string;
  l_owner : JValue;
  l_owner_migration_policy : Z;
  l_max_players : Z;
  l_lobby_data : JMap;
  l_search_data : JMap;
  l_access_policy : string;
  l_membership_lock : string;
  l_members : list JValue;
  l_created : f64;
}.
Arguments mkLobby {_}.

Record PartyMember := mkPartyMember {
  pm_entity_id : string;
  pm_ip : string;
  pm_udp_port : Z;
  pm_seen : f64;
  pm_member_seq : Z;
}.

Record App `{SerdeJson} := mkApp {
  a_title_id : string;
  a_http_port : Z;
  a_ws_port : Z;
  a_max_players : Z;
  a_override_game_max : bool;
  a_sessions : gmap string Player;
  a_lobbies : gmap string Lobby;
  a_party : gmap string (gmap string PartyMember);
}.
Arguments mkApp {_}.

(** Field updates. *)
Definition set_sessions `{SerdeJson} (s : gmap string Player) (a : App) : App :=
  mkApp (a_title_id a) (a_http_port a) (a_ws_port a) (a_max_players a) (a_override_game_max a)
    s (a_lobbies a) (a_party a).
Definition set_lobbies `{SerdeJson} (l : gmap string Lobby) (a : App) : App :=
  mkApp (a_title_id a) (a_http_port a) (a_ws_port a) (a_max_players a) (a_override_game_max a)
    (a_sessions a) l (a_party a).
Definition set_party `{SerdeJson} (p : gmap string (gmap string PartyMember)) (a : App) : App :=
  mkApp (a_title_id a) (a_http_port a) (a_ws_port a) (a_max_players a) (a_override_game_max a)
    (a_sessions a) (a_lobbies a) p.
Definition set_members `{SerdeJson} (m : list JValue) (l : Lobby) : Lobby :=
  mkLobby (l_id l) (l_connection l) (l_owner l) (l_owner_migration_policy l) (l_max_players l)
    (l_lobby_data l) (l_search_data l) (l_access_policy l) (l_membership_lock l) m (l_created l).
Definition set_owner `{SerdeJson} (o : JValue) (l : Lobby) : Lobby :=
  mkLobby (l_id l) (l_connection l) o (l_owner_migration_policy l) (l_max_players l)
    (l_lobby_data l) (l_search_data l) (l_access_policy l) (l_membership_lock l) (l_members l) (l_created l).

(** A response: status, content type, body. *)
Definition Response : Type := Z * string * list byte.
(** The HTTP status of a response. *)
Definition status (r : Response) : Z := r.1.1.

Definition utc_iso : string := "2027-01-01T00:00:00.000Z".

Definition clamp_max_players (n : Z) : Z := clamp n MIN_PLAYERS MAX_PLAYERS_CEILING.

Definition trim_end_matches (c : byte) (s : string) : string := bstr (trim_end_matches_b c (sbytes s)).
(** [str::replace] of one ASCII character by another. *)
Definition replace_byte (a b : byte) (s : string) : string :=
  bstr (map (λ c, if byte_eqb c a then b else c) (sbytes s)).

Definition truncate_chars (s : string) (n : nat) : string :=
  if (length (chars (sbytes s)) <=? n)%nat then s
  else bstr (concat (take n (chars (sbytes s)))).

(** FNV-1a over 64 bits with the 32-bit prime. *)
Definition decimal_account_id (entity_id : string) : string :=
  if negb (bool_decide (entity_id = ""%string)) && forallb is_ascii_digit (sbytes entity_id)
  then entity_id
  else
    let n := fold_left (λ n b, (Z.lxor n (bz b) * 16777619) mod U64) (sbytes entity_id) 2166136261 in
    fmt_dec (if n =? 0 then 1 else n).

Definition is_loopback_ip (s : string) : bool :=
  let s := trim s in
  bool_decide (s = "127.0.0.1"%string) || bool_decide (s = "::1"%string)
  || bool_decide (s = "0.0.0.0"%string) || starts_with "127." s.

Section app.
Context `{SerdeJson} `{HashOrder} `{Crypto}.
Implicit Types (app : App) (v body : JValue) (lobby : Lobby).

(** ** Responses *)

Definition json_bytes (v : JValue) : list byte := default [] (to_vec v).

Definition playfab_ok (data : JValue) : Response :=
  (200, "application/json"%string,
   json_bytes (jobj [("code", jint 200); ("status", VString "OK"); ("data", data)])).

Definition playfab_err (error message : string) : Response :=
  let '(status, code, status_text) :=
    if bool_decide (error = "LobbyNotFound"%string) then (404, 404, "NotFound"%string)
    else if bool_decide (error = "LobbyMemberLimitExceeded"%string)
         || bool_decide (error = "PartyMemberLimitExceeded"%string) then (409, 409, "Conflict"%string)
    else (400, 400, "BadRequest"%string) in
  (status, "application/json"%string,
   json_bytes (jobj [("code", jint code); ("status", VString status_text); ("error", VString error);
                     ("errorCode", jint 1114); ("errorMessage", VString message)])).

Definition cygames_ok (data : JValue) : Response :=
  (200, "application/json"%string,
   json_bytes (jobj [("meta", jobj [("error_code", jint 0)]); ("common", VArray []); ("data", data);
                     ("responseCode", jint 0)])).

Definition sha1_hex (s : string) : string :=
  bstr (concat (map (λ b, hex_fixed 2 (bz b)) (sha1 (sbytes s)))).
(** [&hex[..n]]. *)
Definition prefix (n : nat) (s : string) : string := bstr (take n (sbytes s)).

(** ** The boot blob *)

Definition boot_nonce (now_secs : Z) : list byte :=
  let n := to_le 8 now_secs in n ++ take 4 n.
Definition encode_boot_blob (plaintext : list byte) (now_secs : Z) : list byte :=
  let nonce := boot_nonce now_secs in
  b64_encode (nonce ++ default [] (chacha_encrypt BLOB_KEY nonce plaintext)).
Definition decode_boot_blob (body : list byte) : option (list byte) :=
  match b64_decode body with
  | None => None
  | Some packed =>
      if (length packed <? 28)%nat then None
      else chacha_decrypt BLOB_KEY (take 12 packed) (drop 12 packed)
  end.

(** ** Reading request bodies *)

Definition json_str v (key : string) : option string := vget v key ≫= as_str.
(** [n as i64] of a [u64]. *)
Definition u64_as_i64 (n : Z) : Z := if n <? I64 then n else n - U64.
Definition json_i64 v (key : string) : option Z :=
  match vget v key with
  | None => None
  | Some x =>
      as_i64 x or_else (u64_as_i64 <$> as_u64 x) or_else (as_str x ≫= parse_i64)
  end.

Fixpoint json_str_array v (keys : list string) : list string :=
  match keys with
  | [] => []
  | key :: keys =>
      match vget v key ≫= as_array with
      | Some arr => omap as_str arr
      | None => json_str_array v keys
      end
  end.

(** [qs.split('&').find_map(|kv| kv.strip_prefix(pat))]. *)
Definition query_param (qs key : string) : option string :=
  find_map (strip_prefix (key +:+ "=")) (split_str x26 qs).

Definition member_seq_of body (qs : string) : Z :=
  default 0 (find_map (λ key,
    match json_i64 body key with
    | Some n => if 0 <? n then Some n else
        match query_param qs key ≫= parse_u64 with
        | Some v => if 0 <? v then Some v else None
        | None => None
        end
    | None =>
        match query_param qs key ≫= parse_u64 with
        | Some v => if 0 <? v then Some v else None
        | None => None
        end
    end) ["member_seq"; "join_epoch"; "join_seq"]%string).

Definition member_id v : string :=
  match json_str v "Id" with
  | Some id => id
  | None => default ""%string (vget v "MemberEntity" ≫= λ e, json_str e "Id")
  end.

Definition value_as_string v : option string :=
  match v with
  | VString s => Some s
  | VNumber n => Some (num_to_string n)
  | VBool b => Some (if b then "1" else "0")%string
  | _ => None
  end.

(** ** Member data *)

Definition stringify_key (data : JMap) (key : string) : JMap :=
  match data !! key with
  | Some v => match v with
              | VString _ => data
              | _ => match value_as_string v with
                     | Some s => <[key := VString s]> data
                     | None => data
                     end
              end
  | None => data
  end.

Definition fill_member_data (data : JMap) (eid : string) : JMap :=
  let data := fold_left stringify_key
    ["member_platform"; "member_platform_account_id"; "member_platform_user_name"]%string data in
  let plat := default ""%string (data !! "member_platform"%string ≫= as_str) in
  let data := if bool_decide (plat = ""%string) || bool_decide (plat = "1"%string)
              then <["member_platform"%string := VString "Steam"]> data else data in
  let acct_ok := match data !! "member_platform_account_id"%string ≫= as_str with
    | Some s => negb (bool_decide (s = ""%string)) && forallb is_ascii_digit (sbytes s)
    | None => false
    end in
  let data := if acct_ok then data
              else <["member_platform_account_id"%string := VString (decimal_account_id eid)]> data in
  match data !! "member_platform_user_name"%string with
  | Some _ => data
  | None => <["member_platform_user_name"%string := VString "LAN"]> data
  end.

(** [obj.insert(key, value)] on a value that may not be an object. *)
Definition insert_field (v : JValue) (key : string) (x : JValue) : JValue :=
  match v with VObject m => VObject (<[key := x]> m) | _ => v end.

Definition as_obj_or_empty (v : option JValue) : JMap := default ∅ (v ≫= as_object).

Definition member_for_client (m : JValue) : JValue :=
  let eid := member_id m in
  insert_field m "MemberData" (VObject (fill_member_data (as_obj_or_empty (vget m "MemberData")) eid)).
Definition members_for_client lobby : list JValue := map member_for_client (l_members lobby).

(** ** Lobby views *)

Definition lobby_owner_id lobby : string :=
  match json_str (l_owner lobby) "Id" with
  | Some s => s
  | None => default ""%string (as_str (l_owner lobby))
  end.

Definition lobby_lan1_network_id lobby : option string :=
  match l_lobby_data lobby !! "network_descriptor"%string ≫= as_str with
  | None => None
  | Some desc =>
      match strip_prefix "LAN1." desc with
      | None => None
      | Some rest =>
          let nid := default ""%string (head (split_str x2e rest)) in
          if (8 <=? length (sbytes nid))%nat then Some nid else None
      end
  end.

(** [now - m.seen <= PARTY_SEEN_TTL_SECS]. *)
Definition member_live (now : f64) (m : PartyMember) : bool :=
  f64_leb (f64_sub now (pm_seen m)) PARTY_SEEN_TTL_SECS.

Definition lobby_owner_in_party app lobby (now : f64) : bool :=
  match lobby_lan1_network_id lobby with
  | None => false
  | Some nid =>
      let owner := lobby_owner_id lobby in
      if bool_decide (owner = ""%string) then false
      else match a_party app !! nid ≫= λ net, net !! owner with
           | Some m => member_live now m
           | None => false
           end
  end.

Definition drop_owner_lobbies app (owner_id : string) : App :=
  if bool_decide (owner_id = ""%string) then app
  else set_lobbies (filter (λ e, lobby_owner_id e.2 ≠ owner_id) (a_lobbies app)) app.

Definition session_of app (headers : gmap string string) : option Player :=
  find_map (λ hk, headers !! hk ≫= λ tok, a_sessions app !! tok)
    ["x-entitytoken"; "x-authorization"; "x-authentication"]%string.

Definition request_entity_id app body (headers : gmap string string) : option string :=
  (entity_id <$> session_of app headers)
  or_else json_str body "EntityId"
  or_else json_str body "entityId"
  or_else find_map (λ key, vget body key ≫= λ e, json_str e "Id")
            ["MemberEntity"; "Owner"; "SearchingEntity"; "Entity"]%string.

(** [.filter(|s| !s.is_empty())]. *)
Definition nonempty (o : option string) : option string :=
  o ≫= λ s, if bool_decide (s = ""%string) then None else Some s.

Definition map_nonempty (m : JMap) (key : string) : option string :=
  nonempty (trim <$> (m !! key ≫= value_as_string)).

Definition string_key5_leader_name (raw : string) : option string :=
  match from_slice (sbytes raw) with
  | Some (VObject obj) => map_nonempty obj "leader_name"
  | _ => None
  end.

Definition owner_member_user_name lobby : option string :=
  let oid := lobby_owner_id lobby in
  if bool_decide (oid = ""%string) then None
  else find_map (λ m,
    if negb (bool_decide (member_id m = oid)) then None
    else (vget m "MemberData" ≫= as_object) ≫= λ d, map_nonempty d "member_platform_user_name")
    (l_members lobby).

Definition lobby_display_name lobby : string :=
  let name := map_nonempty (l_lobby_data lobby) "leader_name"
    or_else map_nonempty (l_lobby_data lobby) "leader_platform_user_name"
    or_else owner_member_user_name lobby in
  match name with
  | Some s => if bool_decide (s = "LAN"%string) then "LAN"%string else s
  | None => "LAN"%string
  end.

(** [serde_json::to_string(v).unwrap_or_else("{}")]. *)
Definition json_text (v : JValue) : string :=
  match to_vec v with Some l => bstr l | None => "{}" end.

Definition ensure_search_leader_name (sd : JMap) lobby : JMap :=
  let usable := match sd !! "string_key5"%string with
    | Some (VString s) => is_some (string_key5_leader_name s)
    | Some (VObject o) =>
        match o !! "leader_name"%string ≫= value_as_string with
        | Some s => negb (bool_decide (trim s = ""%string))
        | None => false
        end
    | _ => false
    end in
  if usable then
    match sd !! "string_key5"%string with
    | Some (VObject o) => <["string_key5"%string := VString (json_text (VObject o))]> sd
    | _ => sd
    end
  else
    let leader := lobby_display_name lobby in
    let field key dflt := VString (default dflt (map_nonempty (l_lobby_data lobby) key)) in
    let nested := jobj [("leader_name", VString leader);
      ("leader_platform", field "leader_platform" "1"%string);
      ("leader_platform_account_id", field "leader_platform_account_id" "1"%string);
      ("leader_platform_user_name", field "leader_platform_user_name" leader)]%string in
    <["string_key5"%string := VString (json_text nested)]> sd.

Definition search_data_for_find lobby : JMap :=
  let sd := ensure_search_leader_name (l_search_data lobby) lobby in
  match sd !! "string_key8"%string with
  | Some _ => sd
  | None =>
      let oid := lobby_owner_id lobby in
      if bool_decide (oid = ""%string) then sd
      else <["string_key8"%string := VString oid]> sd
  end.

Definition lobby_has_entity lobby (eid : string) : bool :=
  if bool_decide (eid = ""%string) then false
  else existsb (λ m, bool_decide (member_id m = eid)) (l_members lobby)
       || bool_decide (lobby_owner_id lobby = eid).

Definition lobby_public lobby : JValue :=
  jobj [("LobbyId", VString (l_id lobby)); ("ConnectionString", VString (l_connection lobby));
        ("Owner", l_owner lobby); ("OwnerMigrationPolicy", jint (l_owner_migration_policy lobby));
        ("MaxPlayers", jint (l_max_players lobby));
        ("CurrentPlayers", jint (Z.of_nat (length (l_members lobby))));
        ("MembershipLock", VString (l_membership_lock lobby));
        ("AccessPolicy", VString (l_access_policy lobby));
        ("LobbyData", VObject (l_lobby_data lobby)); ("SearchData", VObject (l_search_data lobby));
        ("Members", VArray (members_for_client lobby))]%string.

(** ** Players *)

Definition player_of_ticket (ticket : string) : Player :=
  let digest := sha1_hex (if bool_decide (ticket = ""%string) then "empty"%string else ticket) in
  let pid := to_ascii_uppercase (prefix 16 digest) in
  let eid := prefix 16 (sha1_hex ("tpa:" +:+ pid)) in
  let token := "STUB." +:+ replace_byte x2f x5f (replace_byte x2b x2d
                 (trim_end_matches x3d (bstr (b64_encode (sbytes eid))))) in
  mkPlayer pid eid "title_player_account" token ("STUB-SESSION-" +:+ pid) utc_iso.

Definition player_from_ticket app (ticket : string) : Player * App :=
  let player := player_of_ticket ticket in
  (player, set_sessions (<[session_ticket player := player]>
             (<[entity_token player := player]> (a_sessions app))) app).

Definition entity_obj (p : Player) : JValue :=
  jobj [("Id", VString (entity_id p)); ("Type", VString (entity_type p));
        ("TypeString", VString (entity_type p))]%string.

Definition login_result (p : Player) : JValue :=
  jobj [("SessionTicket", VString (session_ticket p)); ("PlayFabId", VString (playfab_id p));
        ("NewlyCreated", VBool true);
        ("SettingsForUser", jobj [("NeedsAttribution", VBool false);
          ("GatherDeviceInfo", VBool false); ("GatherFocusInfo", VBool false)]);
        ("LastLoginTime", VString utc_iso);
        ("EntityToken", jobj [("EntityToken", VString (entity_token p));
          ("TokenExpiration", VString (token_expiration p)); ("Entity", entity_obj p)]);
        ("TreatmentAssignment", jobj [("Variants", VArray []); ("Variables", VArray [])])]%string.

(** [request_entity_id(..).and_then(|id| sessions.values().find(..)).unwrap_or_else(..)]. *)
Definition request_player app body (headers : gmap string string) (ticket : string)
    : Player * App :=
  match request_entity_id app body headers ≫= λ id,
          find_map (λ p, if bool_decide (entity_id p = id) then Some p else None)
            (hash_values (a_sessions app)) with
  | Some p => (p, app)
  | None => player_from_ticket app ticket
  end.

(** ** Lobbies *)

Definition configured_mesh_cap app : Z := clamp_max_players (a_max_players app).

Definition resolve_lobby_max app (requested : option Z) : Z :=
  let cfg := configured_mesh_cap app in
  if a_override_game_max app then cfg
  else match requested with Some n => clamp_max_players n | None => cfg end.

Definition parse_owner_migration_policy body : Z :=
  match vget body "OwnerMigrationPolicy" or_else vget body "ownerMigrationPolicy" with
  | Some (VNumber n) => clamp (default 0 (num_as_i64 n)) 0 3
  | Some (VString s) =>
      let s := to_ascii_lowercase s in
      if bool_decide (s = "automatic"%string) then 1
      else if bool_decide (s = "manual"%string) then 2
      else if bool_decide (s = "server"%string) then 3
      else 0
  | _ => 0
  end.

Definition member_obj (eid : string) (ent : JValue) (data : JMap) : JValue :=
  jobj [("Id", VString eid); ("MemberEntity", ent); ("MemberData", VObject data)]%string.

(** The creator's entity and member data, from the first of [Members] and from [MemberData]. *)
Definition create_member body (owner : JValue) : JValue * JMap :=
  let first := ((vget body "Members" or_else vget body "members") ≫= as_array) ≫= head in
  let data := match first with
    | Some f => as_obj_or_empty (vget f "MemberData" or_else vget f "memberData")
    | None => ∅
    end in
  let ent := match first with
    | Some f => default owner (vget f "MemberEntity" or_else vget f "memberEntity")
    | None => owner
    end in
  (ent, match vget body "MemberData" ≫= as_object with
        | Some join => map_extend data join
        | None => data
        end).

(** [now1] and [now2] are the two clock readings. *)
Definition create_lobby app body (player : Player) (now1 now2 : f64) : string * App :=
  let lobby_id := "lan-" +:+ prefix 12 (sha1_hex (fmt_f64 now1 +:+ entity_id player)) in
  let owner := default (entity_obj player) (vget body "Owner" or_else vget body "owner") in
  let '(ent, data) := create_member body owner in
  let mid := default (entity_id player) (json_str ent "Id") in
  let data := fill_member_data data mid in
  let app := drop_owner_lobbies app (entity_id player) in
  let lobby := mkLobby lobby_id ("lan." +:+ a_title_id app +:+ "." +:+ lobby_id) owner
    (parse_owner_migration_policy body)
    (resolve_lobby_max app (json_i64 body "MaxPlayers" or_else json_i64 body "maxPlayers"))
    (as_obj_or_empty (vget body "LobbyData" or_else vget body "lobbyData"
                      or_else vget body "lobbyProperties"))
    (as_obj_or_empty (vget body "SearchData" or_else vget body "searchData"
                      or_else vget body "searchProperties"))
    (default "Public"%string (json_str body "AccessPolicy"))
    (default "Unlocked"%string (json_str body "MembershipLock" or_else json_str body "membershipLock"))
    [member_obj mid ent data] now2 in
  (lobby_id, set_lobbies (<[lobby_id := lobby]> (a_lobbies app)) app).
End app.
