(* ===== verification/Playfab.v ===== *)
(** * The PlayFab lobby service: [handle_playfab] of [lan-server/src/main.rs]

    One definition per route.  A route maps the application state, the request
    and the clock readings it makes to the response and the new state; the
    router tries them in the order of the source. *)

From S2P Require Import Prelude RustStr F64 Value LobbyFilter App.
#[local] Open Scope Z_scope.

Section playfab.
Context `{SerdeJson} `{HashOrder} `{Crypto}.
Implicit Types (app : App) (body : JValue) (lobby : Lobby) (headers : gmap string string).

Definition login_with_steam app body : Response * App :=
  let ticket := default ""%string (json_str body "SteamTicket" or_else json_str body "steamTicket") in
  let '(player, app) := player_from_ticket app ticket in
  (playfab_ok (login_result player), app).

Definition get_entity_token app body headers : Response * App :=
  let '(player, app) :=
    request_player app body headers (default "anonymous"%string (json_str body "SteamTicket")) in
  (playfab_ok (jobj [("EntityToken", VString (entity_token player));
     ("TokenExpiration", VString (token_expiration player)); ("Entity", entity_obj player)]%string), app).

Definition create_and_join_lobby app body headers (now1 now2 : f64) : Response * App :=
  let '(player, app) := request_player app body headers "anonymous" in
  let '(id, app) := create_lobby app body player now1 now2 in
  match a_lobbies app !! id with
  | Some lobby =>
      (playfab_ok (jobj [("LobbyId", VString (l_id lobby));
         ("ConnectionString", VString (l_connection lobby));
         ("MaxPlayers", jint (l_max_players lobby))]%string), app)
  | None => (playfab_ok VNull, app)  (* [unwrap] of the lobby just inserted *)
  end.

(** Joining a lobby found by its connection string: the members afterwards, or [None] when the
    lobby is full. *)
Definition join_members lobby body (ent : JValue) (eid : string) : option (list JValue) :=
  match position (λ m, bool_decide (member_id m = eid)) (l_members lobby) with
  | Some _ =>
      Some (update_first (λ m, bool_decide (member_id m = eid)) (λ m,
        let data := as_obj_or_empty (vget m "MemberData") in
        let data := match vget body "MemberData" ≫= as_object with
                    | Some join => map_extend data join
                    | None => data
                    end in
        insert_field m "MemberData" (VObject (fill_member_data data eid))) (l_members lobby))
  | None =>
      if l_max_players lobby <=? Z.of_nat (length (l_members lobby)) then None
      else Some (l_members lobby ++
             [member_obj eid ent (fill_member_data (as_obj_or_empty (vget body "MemberData")) eid)])
  end.

Definition join_lobby app body headers : Response * App :=
  let '(player, app) := request_player app body headers "anonymous" in
  let conn := default ""%string
    (json_str body "ConnectionString" or_else json_str body "connectionString") in
  let found := find_map (λ l, if bool_decide (l_connection l = conn) then Some (l_id l) else None)
                 (hash_values (a_lobbies app)) in
  match found with
  | None =>
      (playfab_err "LobbyNotFound"
         (if bool_decide (conn = ""%string) then "Missing connection string"
          else "Unknown connection string"), app)
  | Some lid =>
      match a_lobbies app !! lid with
      | None => (playfab_ok VNull, app)  (* [unwrap] of a lobby the map holds *)
      | Some lobby =>
          let ent := default (entity_obj player) (vget body "MemberEntity") in
          let eid := default (entity_id player) (json_str ent "Id") in
          match join_members lobby body ent eid with
          | None => (playfab_err "LobbyMemberLimitExceeded" "Lobby is full", app)
          | Some members =>
              (playfab_ok (jobj [("LobbyId", VString (l_id lobby));
                 ("MaxPlayers", jint (l_max_players lobby))]%string),
               set_lobbies (<[lid := set_members members lobby]> (a_lobbies app)) app)
          end
      end
  end.

(** ** FindLobbies *)

Definition lobby_view lobby (viewer : option string) (is_member : bool) : LobbyView :=
  mkLobbyView (l_id lobby) (f64_of_Z (l_max_players lobby))
    (f64_of_Z (Z.of_nat (length (l_members lobby)))) (l_membership_lock lobby)
    (search_data_for_find lobby) (lobby_owner_id lobby) viewer is_member false.

Definition filter_view lobby (viewer : option string) : LobbyView :=
  lobby_view lobby viewer (match viewer with Some v => lobby_has_entity lobby v | None => false end).

Definition find_cmp (viewer : option string) (specs : list SortSpec) (a b : Lobby) : comparison :=
  match cmp_lobbies (lobby_view a viewer false) (lobby_view b viewer false) specs with
  | Eq => default Eq (f64_partial_cmp (l_created b) (l_created a))
  | o => o
  end.

Definition find_row lobby : JValue :=
  jobj [("LobbyId", VString (l_id lobby)); ("ConnectionString", VString (l_connection lobby));
        ("CurrentPlayers", jint (Z.of_nat (length (l_members lobby))));
        ("MaxPlayers", jint (l_max_players lobby)); ("MembershipLock", VString "Unlocked");
        ("SearchData", VObject (search_data_for_find lobby)); ("Owner", l_owner lobby)]%string.

(** The lobbies a search answers with, and the warnings. *)
Definition find_candidates app body headers : list Lobby * list string :=
  let viewer := request_entity_id app body headers in
  let filter_text := default ""%string (json_str body "Filter" or_else json_str body "filter") in
  let sort_text := default ""%string (json_str body "Sort" or_else json_str body "sort"
    or_else json_str body "OrderBy" or_else json_str body "orderBy") in
  let count := json_i64 body "ClientSearchResultCount"
    or_else json_i64 body "clientSearchResultCount"
    or_else (vget body "Pagination" ≫= λ p, json_i64 p "PageSizeRequested") in
  let flt := parse_filter filter_text in
  let '(specs, bad) := parse_sort sort_text in
  let friends := is_some (vget body "FriendsFilter" or_else vget body "friendsFilter") in
  let warnings := unsupported flt ++ bad
    ++ (if friends then ["friendsFilter present: broker has no friend graph (fail closed)"%string]
        else []) in
  let cands := filter (λ l, friends = false ∧ matches flt (filter_view l viewer) = true)
                 (hash_values (a_lobbies app)) in
  let cands := sort_by (find_cmp viewer specs) cands in
  let cands := match count with
    | Some c => if 0 <? c then take (Z.to_nat (Z.min c 1000)) cands else cands
    | None => cands
    end in
  (cands, warnings).

Definition find_lobbies app body headers : Response :=
  let '(cands, warnings) := find_candidates app body headers in
  let data : list (string * JValue) :=
    [("Lobbies", VArray (map find_row cands)); ("Pagination", jobj [])]%string in
  let data := match warnings with
    | [] => data
    | _ => data ++ [("Warnings"%string, VArray (map VString warnings))]
    end in
  playfab_ok (jobj data).

(** ** LeaveLobby *)

(** The owner after the owner has left: the first remaining member under the automatic policy. *)
Definition migrate_owner lobby : Lobby :=
  if l_owner_migration_policy lobby =? 1 then
    match l_members lobby with
    | [] => lobby  (* [members[0]] of a non-empty list *)
    | next :: _ =>
        let eid := member_id next in
        let ent := vget next "MemberEntity" ≫= λ v,
          match json_str v "Id" with
          | Some s => if bool_decide (s = ""%string) then None else Some v
          | None => None
          end in
        set_owner (default (jobj [("Id", VString eid); ("Type", VString "title_player_account")]%string)
                     ent) lobby
    end
  else set_owner VNull lobby.

(** The lobby after [pid] has left it, [None] when it closes. *)
Definition leave_members lobby (pid : option string) : option Lobby :=
  let owner_left := match pid with Some p => bool_decide (p = lobby_owner_id lobby) | None => false end in
  let before := length (l_members lobby) in
  let members := match pid with
    | Some p => filter (λ m, member_id m ≠ p) (l_members lobby)
    | None => l_members lobby
    end in
  let members := if (length members =? before)%nat && (before <=? 1)%nat then [] else members in
  let lobby := set_members members lobby in
  match members with
  | [] => None
  | _ => Some (if owner_left then migrate_owner lobby else lobby)
  end.

Definition leave_lobby app body headers : Response * App :=
  let lid := default ""%string (json_str body "LobbyId" or_else json_str body "lobbyId") in
  match a_lobbies app !! lid with
  | None => (playfab_ok (jobj []), app)
  | Some lobby =>
      let app' := set_lobbies (delete lid (a_lobbies app)) app in
      let pid := request_entity_id app' body headers in
      (playfab_ok (jobj []),
       match leave_members lobby pid with
       | None => app'
       | Some lobby => set_lobbies (<[lid := lobby]> (a_lobbies app')) app'
       end)
  end.

(** ** UpdateLobby *)

Definition remove_keys (keys : list string) (m : JMap) : JMap := fold_left (λ m k, delete k m) keys m.

(** The scalar fields and the deletions. *)
Definition update_fields lobby body : Lobby :=
  let search := remove_keys (json_str_array body ["SearchDataToDelete"; "searchDataToDelete"]%string)
                  (l_search_data lobby) in
  let data := remove_keys (json_str_array body ["LobbyDataToDelete"; "lobbyDataToDelete"]%string)
                (l_lobby_data lobby) in
  let lock := default (l_membership_lock lobby)
                (json_str body "MembershipLock" or_else json_str body "membershipLock") in
  let mx := match json_i64 body "MaxPlayers" or_else json_i64 body "maxPlayers" with
    | Some mx => Z.max (clamp_max_players mx) (Z.of_nat (length (l_members lobby)))
    | None => l_max_players lobby
    end in
  let ap := default (l_access_policy lobby)
              (json_str body "AccessPolicy" or_else json_str body "accessPolicy") in
  let owner := default (l_owner lobby) (vget body "Owner" or_else vget body "owner") in
  mkLobby (l_id lobby) (l_connection lobby) owner (l_owner_migration_policy lobby) mx data search ap
    lock (l_members lobby) (l_created lobby).

Definition update_member (eid : string) (f : JValue → JValue) (members : list JValue) : list JValue :=
  update_first (λ m, bool_decide (member_id m = eid)) f members.

Definition delete_member_keys (keys : list string) (m : JValue) : JValue :=
  match m with
  | VObject obj => match obj !! "MemberData"%string with
                   | Some (VObject md) => VObject (<["MemberData"%string := VObject (remove_keys keys md)]> obj)
                   | _ => m
                   end
  | _ => m
  end.

Definition set_member_data (eid : string) (md : JMap) (m : JValue) : JValue :=
  insert_field m "MemberData"
    (VObject (fill_member_data (map_extend (as_obj_or_empty (vget m "MemberData")) md) eid)).

(** One element of [Members]: replace the member's data and entity, or append it while the lobby
    has room. *)
Definition upsert_member (max_players : Z) (members : list JValue) (mem : JValue) : list JValue :=
  let eid := member_id mem in
  if bool_decide (eid = ""%string) then members
  else
    let data := fill_member_data (as_obj_or_empty (vget mem "MemberData")) eid in
    let ent := default (jobj [("Id", VString eid); ("Type", VString "title_player_account")]%string)
                 (vget mem "MemberEntity") in
    match position (λ m, bool_decide (member_id m = eid)) members with
    | Some _ =>
        update_member eid (λ m, insert_field (insert_field m "MemberData" (VObject data))
                                  "MemberEntity" ent) members
    | None =>
        if Z.of_nat (length members) <? max_players then members ++ [member_obj eid ent data]
        else members
    end.

Definition update_lobby_body lobby body (updater : option string) : Lobby :=
  let lobby := update_fields lobby body in
  let target := json_str body "MemberEntity" or_else updater in
  let member_del := json_str_array body ["MemberDataToDelete"; "memberDataToDelete"]%string in
  let members := match member_del, target with
    | _ :: _, Some t => update_member t (delete_member_keys member_del) (l_members lobby)
    | _, _ => l_members lobby
    end in
  let data := match (vget body "LobbyData" or_else vget body "lobbyData") ≫= as_object with
    | Some ld => map_extend (l_lobby_data lobby) ld
    | None => l_lobby_data lobby
    end in
  let search := match (vget body "SearchData" or_else vget body "searchData") ≫= as_object with
    | Some sd => map_extend (l_search_data lobby) sd
    | None => l_search_data lobby
    end in
  let members := match vget body "MemberData" ≫= as_object, target with
    | Some md, Some eid => update_member eid (set_member_data eid md) members
    | _, _ => members
    end in
  let members := match vget body "Members" ≫= as_array with
    | Some arr => fold_left (upsert_member (l_max_players lobby)) arr members
    | None => members
    end in
  mkLobby (l_id lobby) (l_connection lobby) (l_owner lobby) (l_owner_migration_policy lobby)
    (l_max_players lobby) data search (l_access_policy lobby) (l_membership_lock lobby) members
    (l_created lobby).

Definition update_lobby app body headers : Response * App :=
  let lid := default ""%string (json_str body "LobbyId" or_else json_str body "lobbyId") in
  let updater := request_entity_id app body headers in
  match a_lobbies app !! lid with
  | None => (playfab_ok (jobj []), app)
  | Some lobby =>
      (playfab_ok (jobj []),
       set_lobbies (<[lid := update_lobby_body lobby body updater]> (a_lobbies app)) app)
  end.

Definition get_lobby app body : Response :=
  let lid := default ""%string (json_str body "LobbyId" or_else json_str body "lobbyId") in
  match a_lobbies app !! lid with
  | Some l => playfab_ok (lobby_public l)
  | None => playfab_err "LobbyNotFound" "Lobby not found"
  end.

(** ** The router *)

Inductive Route :=
  | RLogin | REntityToken | RCreate | RJoin | RFind | RLeave | RUpdate | RGet | RCatchAll.

Definition playfab_route (path : string) : option Route :=
  let lower := to_ascii_lowercase (trim_start_matches x2f path) in
  if ends_with "client/loginwithsteam" lower || ends_with "loginwithsteam" lower then Some RLogin
  else if contains "getentitytoken"
            (bstr (filter (λ b, b ≠ x5f) (sbytes lower))) then Some REntityToken
  else if contains "createandjoinlobby" lower || ends_with "lobby/createlobby" lower then Some RCreate
  else if ends_with "lobby/joinlobby" lower || ends_with "joinlobby" lower then Some RJoin
  else if contains "findlobbies" lower then Some RFind
  else if contains "leavelobby" lower then Some RLeave
  else if contains "updatelobby" lower || contains "postlobby" lower then Some RUpdate
  else if contains "getlobby" lower then Some RGet
  else if starts_with "client/" lower || starts_with "lobby/" lower
       || starts_with "authentication/" lower then Some RCatchAll
  else None.

Definition run_route (r : Route) app body headers (now1 now2 : f64) : Response * App :=
  match r with
  | RLogin => login_with_steam app body
  | REntityToken => get_entity_token app body headers
  | RCreate => create_and_join_lobby app body headers now1 now2
  | RJoin => join_lobby app body headers
  | RFind => (find_lobbies app body headers, app)
  | RLeave => leave_lobby app body headers
  | RUpdate => update_lobby app body headers
  | RGet => (get_lobby app body, app)
  | RCatchAll => (playfab_ok (jobj []), app)
  end.

Definition handle_playfab app (path : string) body headers (now1 now2 : f64)
    : option (Response * App) :=
  match playfab_route path with
  | Some r => Some (run_route r app body headers now1 now2)
  | None => None
  end.
End playfab.

(** ** Values of the handlers *)

(** Read a field of an object written with [jobj]. *)
Ltac json_simpl := unfold json_str, vget, jobj; simpl; simplify_map_eq.

Section facts.
Context `{SerdeJson} `{HashOrder} `{Crypto}.
Implicit Types (app : App) (body : JValue) (lobby : Lobby) (headers : gmap string string).

(** A stored member carries its own id. *)
Definition member_ok (m : JValue) : Prop := ∃ s, json_str m "Id" = Some s.

Lemma member_id_ok m s : json_str m "Id" = Some s → member_id m = s.
Proof. unfold member_id. by intros ->. Qed.

Lemma member_obj_id eid ent data : json_str (member_obj eid ent data) "Id" = Some eid.
Proof. unfold member_obj. by json_simpl. Qed.

Lemma member_obj_member_id eid ent data : member_id (member_obj eid ent data) = eid.
Proof. apply member_id_ok, member_obj_id. Qed.

Lemma member_obj_ok eid ent data : member_ok (member_obj eid ent data).
Proof. eexists. apply member_obj_id. Qed.

Lemma insert_field_id m key x :
  key ≠ "Id"%string → json_str (insert_field m key x) "Id" = json_str m "Id".
Proof. intros Hk. destruct m; try done. unfold json_str, vget, insert_field. by rewrite lookup_insert_ne. Qed.

(** A change of a member that keeps its id. *)
Definition keeps_id (f : JValue → JValue) : Prop := ∀ m, json_str (f m) "Id" = json_str m "Id".

Lemma keeps_id_member_id f m : keeps_id f → member_ok m → member_id (f m) = member_id m.
Proof. intros Hf [s Hs]. rewrite !(member_id_ok _ s); [done|done|]. by rewrite Hf. Qed.

Lemma keeps_id_ok f m : keeps_id f → member_ok m → member_ok (f m).
Proof. intros Hf [s Hs]. exists s. by rewrite Hf. Qed.

Lemma insert_field_keeps key x : key ≠ "Id"%string → keeps_id (λ m, insert_field m key x).
Proof. intros Hk m. by apply insert_field_id. Qed.

Lemma delete_member_keys_keeps keys : keeps_id (delete_member_keys keys).
Proof.
  intros m. unfold delete_member_keys. destruct m as [| | | | |obj]; try done.
  destruct (obj !! "MemberData"%string) as [[]|]; try done.
  unfold json_str, vget. by rewrite lookup_insert_ne.
Qed.

Lemma set_member_data_keeps eid md : keeps_id (set_member_data eid md).
Proof. intros m. unfold set_member_data. by rewrite insert_field_id. Qed.

(** The member list of a lobby. *)
Definition members_wf (max : Z) (members : list JValue) : Prop :=
  Forall member_ok members ∧ NoDup (map member_id members) ∧ Z.of_nat (length members) <= max.

Lemma update_member_ids eid f members :
  keeps_id f → Forall member_ok members →
  map member_id (update_member eid f members) = map member_id members.
Proof.
  intros Hf Hm. apply update_first_map. intros m Hin _. rewrite Forall_forall in Hm.
  by apply keeps_id_member_id, Hm.
Qed.

Lemma update_member_wf max eid f members :
  keeps_id f → members_wf max members → members_wf max (update_member eid f members).
Proof.
  intros Hf (Hok & Hnd & Hlen). split; [|split].
  - apply update_first_Forall; [|done]. intros. by apply keeps_id_ok.
  - by rewrite update_member_ids.
  - unfold update_member. by rewrite length_update_first.
Qed.

Lemma append_member_wf max members eid ent data :
  members_wf max members → Forall (λ m, bool_decide (member_id m = eid) = false) members →
  Z.of_nat (length members) < max → members_wf max (members ++ [member_obj eid ent data]).
Proof.
  intros (Hok & Hnd & Hlen) Hnew Hlt. split; [|split].
  - apply Forall_app. split; [done|]. apply Forall_singleton, member_obj_ok.
  - rewrite map_app. apply NoDup_app. split; [done|]. split; [|apply NoDup_singleton].
    intros x Hx%list_elem_of_In%in_map_iff. destruct Hx as (m & <- & Hin%list_elem_of_In).
    rewrite Forall_forall in Hnew. specialize (Hnew m Hin). apply bool_decide_eq_false in Hnew.
    cbn [map]. by rewrite member_obj_member_id, list_elem_of_singleton.
  - rewrite length_app. simpl. lia.
Qed.

Lemma upsert_member_wf max members mem :
  members_wf max members → members_wf max (upsert_member max members mem).
Proof.
  intros Hw. unfold upsert_member. case_bool_decide; [done|]. cbv zeta.
  destruct (position _ members) as [i|] eqn:Hp.
  - apply update_member_wf; [|done]. intros m. by rewrite !insert_field_id.
  - apply position_None in Hp. case_if; [|done]. by apply append_member_wf.
Qed.

Lemma upsert_members_wf max arr members :
  members_wf max members → members_wf max (fold_left (upsert_member max) arr members).
Proof. revert members. induction arr; simpl; auto using upsert_member_wf. Qed.

Lemma upsert_length max arr members :
  (length members ≤ length (fold_left (upsert_member max) arr members))%nat.
Proof.
  revert members. induction arr as [|mem arr IH]; intros members; simpl; [done|].
  etrans; [|apply IH]. unfold upsert_member. case_bool_decide; [done|]. cbv zeta.
  destruct (position _ members); [unfold update_member; by rewrite length_update_first|].
  case_if; [rewrite length_app; lia|done].
Qed.

Lemma join_members_wf lobby body ent eid members :
  members_wf (l_max_players lobby) (l_members lobby) →
  join_members lobby body ent eid = Some members → members_wf (l_max_players lobby) members.
Proof.
  intros Hw. unfold join_members. destruct (position _ (l_members lobby)) as [i|] eqn:Hp.
  - intros [= <-]. apply update_member_wf; [|done]. intros m. by rewrite insert_field_id.
  - apply position_None in Hp. case_if; [done|]. intros [= <-]. by apply append_member_wf.
Qed.

(** ** Well-formed lobbies *)

Record lobby_wf lobby : Prop := {
  lwf_members : members_wf (l_max_players lobby) (l_members lobby);
  lwf_nonempty : l_members lobby ≠ [];
  lwf_max : MIN_PLAYERS <= l_max_players lobby <= MAX_PLAYERS_CEILING;
}.

Lemma clamp_max_range n : MIN_PLAYERS <= clamp_max_players n <= MAX_PLAYERS_CEILING.
Proof. unfold clamp_max_players, clamp, MIN_PLAYERS, MAX_PLAYERS_CEILING. repeat case_if; lia. Qed.

Lemma resolve_lobby_max_range app r : MIN_PLAYERS <= resolve_lobby_max app r <= MAX_PLAYERS_CEILING.
Proof. unfold resolve_lobby_max, configured_mesh_cap. destruct (a_override_game_max app), r; apply clamp_max_range. Qed.

Lemma update_fields_wf lobby body : lobby_wf lobby → lobby_wf (update_fields lobby body).
Proof.
  intros [(Hok & Hnd & Hlen) Hne Hmax]. unfold update_fields.
  destruct (json_i64 body "MaxPlayers" or_else json_i64 body "maxPlayers") as [mx|]; split; cbn; try done.
  - split; [done|]. split; [done|]. lia.
  - pose proof (clamp_max_range mx). unfold MAX_PLAYERS_CEILING in *. lia.
Qed.

Lemma update_lobby_body_wf lobby body updater :
  lobby_wf lobby → lobby_wf (update_lobby_body lobby body updater).
Proof.
  intros Hw%(update_fields_wf lobby body). unfold update_lobby_body.
  set (l1 := update_fields lobby body) in *. clearbody l1. cbv zeta.
  destruct Hw as [Hm Hne Hmax].
  set (m1 := match json_str_array _ _ with [] => _ | _ => _ end).
  assert (Hm1 : members_wf (l_max_players l1) m1 ∧ length m1 = length (l_members l1)).
  { unfold m1. destruct (json_str_array _ _); [done|].
    destruct (json_str body "MemberEntity" or_else updater); [|done].
    split; [|apply length_update_first].
    apply update_member_wf; [apply delete_member_keys_keeps|done]. }
  clearbody m1. destruct Hm1 as [Hm1 HL1].
  set (m2 := match vget body "MemberData" ≫= as_object with Some _ => _ | None => m1 end).
  assert (Hm2 : members_wf (l_max_players l1) m2 ∧ length m2 = length (l_members l1)).
  { unfold m2. destruct (vget body "MemberData" ≫= as_object); [|done].
    destruct (json_str body "MemberEntity" or_else updater); [|done].
    split; [apply update_member_wf; [apply set_member_data_keeps|done]|].
    unfold update_member. by rewrite length_update_first. }
  clearbody m2. destruct Hm2 as [Hm2 HL2].
  destruct (l_members l1) as [|m0 ms]; [done|].
  split; cbn [l_members l_max_players]; [| |done].
  - destruct (vget body "Members" ≫= as_array); [by apply upsert_members_wf|done].
  - assert (Hpos : (0 < length m2)%nat) by (rewrite HL2; simpl; lia).
    destruct (vget body "Members" ≫= as_array) as [arr|]; intros Heq.
    + pose proof (upsert_length (l_max_players l1) arr m2) as Hge. rewrite Heq in Hge. simpl in Hge. lia.
    + subst m2. simpl in Hpos. lia.
Qed.

Lemma leave_members_wf lobby pid lobby' :
  lobby_wf lobby → leave_members lobby pid = Some lobby' → lobby_wf lobby'.
Proof.
  intros [(Hok & Hnd & Hlen) Hne Hmax]. unfold leave_members.
  set (ms := match pid with Some p => _ | None => _ end).
  assert (Hms : members_wf (l_max_players lobby) ms).
  { unfold ms. destruct pid as [p|]; [|done]. split; [|split].
    - apply Forall_forall. intros m [_ Hm]%list_elem_of_filter. rewrite Forall_forall in Hok. auto.
    - clear -Hnd. induction (l_members lobby) as [|m l IH]; [constructor|]. simpl in Hnd.
      apply NoDup_cons in Hnd as [Hni Hnd]. rewrite filter_cons. case_decide; [|auto]. simpl.
      constructor; [|auto]. intros Hin. apply Hni. apply list_elem_of_In, in_map_iff in Hin as (x & <- & Hx).
      apply list_elem_of_In, list_elem_of_filter in Hx as [_ Hx]. apply list_elem_of_In, in_map.
      by apply list_elem_of_In.
    - pose proof (length_filter_le (λ m, member_id m ≠ p) (l_members lobby)). lia. }
  clearbody ms. case_if; [done|]. destruct ms as [|m ms]; [done|]. intros [= <-].
  assert (Hset : lobby_wf (set_members (m :: ms) lobby)) by (by split).
  case_if; [|done]. unfold migrate_owner. case_if; [|by destruct Hset].
  cbn [set_members l_members]. by destruct Hset.
Qed.
End facts.

(** ** The store of lobbies *)

Section store.
Context `{SerdeJson} `{HashOrder} `{Crypto}.
Implicit Types (app : App) (body : JValue) (lobby : Lobby) (headers : gmap string string).

Definition connection_of app (id : string) : string := "lan." +:+ a_title_id app +:+ "." +:+ id.

(** Every stored lobby is well formed and carries its key and its connection string. *)
Definition lobbies_wf app : Prop :=
  ∀ k l, a_lobbies app !! k = Some l →
    lobby_wf l ∧ l_id l = k ∧ l_connection l = connection_of app k.

Lemma string_app_inj (s t1 t2 : string) : s +:+ t1 = s +:+ t2 → t1 = t2.
Proof. induction s; simpl; [done|]. intros [= ?]. auto. Qed.

Lemma connection_inj app k1 k2 : connection_of app k1 = connection_of app k2 → k1 = k2.
Proof. unfold connection_of. intros Hc. by apply string_app_inj, string_app_inj, string_app_inj in Hc. Qed.

Lemma lobbies_wf_insert app lobby k :
  lobbies_wf app → lobby_wf lobby → l_id lobby = k → l_connection lobby = connection_of app k →
  lobbies_wf (set_lobbies (<[k := lobby]> (a_lobbies app)) app).
Proof.
  intros Hw Hl Hid Hc k' l'. cbn [a_lobbies set_lobbies].
  destruct (decide (k' = k)) as [->|Hne].
  - rewrite lookup_insert_eq. by intros [= <-].
  - rewrite lookup_insert_ne by done. apply Hw.
Qed.

Lemma lobbies_wf_sub app (m : gmap string Lobby) :
  lobbies_wf app → m ⊆ a_lobbies app → lobbies_wf (set_lobbies m app).
Proof. intros Hw Hsub k l Hl. apply (Hw k l). by eapply lookup_weaken. Qed.

Lemma request_player_spec app body headers ticket :
  a_lobbies (request_player app body headers ticket).2 = a_lobbies app ∧
  a_title_id (request_player app body headers ticket).2 = a_title_id app ∧
  a_party (request_player app body headers ticket).2 = a_party app ∧
  a_max_players (request_player app body headers ticket).2 = a_max_players app.
Proof. unfold request_player. by case_match. Qed.

Lemma lobbies_wf_player app body headers ticket :
  lobbies_wf app → lobbies_wf (request_player app body headers ticket).2.
Proof.
  intros Hw k l. destruct (request_player_spec app body headers ticket) as (Hl & Ht & _).
  unfold connection_of. rewrite Hl, Ht. apply Hw.
Qed.

Lemma create_lobby_wf app body player now1 now2 :
  lobbies_wf app → lobbies_wf (create_lobby app body player now1 now2).2.
Proof.
  intros Hw. unfold create_lobby. cbv zeta. destruct (create_member body _) as [ent data].
  cbn [snd]. set (app1 := drop_owner_lobbies app (entity_id player)).
  assert (Hw1 : lobbies_wf app1).
  { unfold app1, drop_owner_lobbies. case_bool_decide; [done|].
    apply lobbies_wf_sub; [done|]. apply map_filter_subseteq. }
  apply lobbies_wf_insert; [done| |done|done].
  split; cbn [l_members l_max_players]; [|done|apply resolve_lobby_max_range].
  split; [apply Forall_singleton, member_obj_ok|]. split; [apply NoDup_singleton|].
  pose proof (resolve_lobby_max_range app1
    (json_i64 body "MaxPlayers" or_else json_i64 body "maxPlayers")).
  unfold MIN_PLAYERS in *. simpl. lia.
Qed.

Lemma run_route_wf r app body headers now1 now2 :
  lobbies_wf app → lobbies_wf (run_route r app body headers now1 now2).2.
Proof.
  intros Hw. destruct r; cbn [run_route]; try done.
  - unfold get_entity_token. pose proof (lobbies_wf_player app body headers
      (default "anonymous"%string (json_str body "SteamTicket")) Hw).
    by destruct (request_player _ _ _ _).
  - unfold create_and_join_lobby. pose proof (lobbies_wf_player app body headers "anonymous" Hw) as Hp.
    destruct (request_player _ _ _ _) as [player app1]. cbn [snd] in Hp.
    pose proof (create_lobby_wf app1 body player now1 now2 Hp).
    destruct (create_lobby _ _ _ _ _) as [id app2]. by case_match.
  - unfold join_lobby. pose proof (lobbies_wf_player app body headers "anonymous" Hw) as Hp.
    destruct (request_player _ _ _ _) as [player app1]. cbn [snd] in Hp. cbv zeta.
    destruct (find_map _ _) as [lid|]; [|done].
    destruct (a_lobbies app1 !! lid) as [lobby|] eqn:Hl; [|done].
    destruct (join_members _ _ _ _) as [ms|] eqn:Hj; [|done].
    destruct (Hp _ _ Hl) as (Hlw & Hid & Hc). apply lobbies_wf_insert; try done.
    pose proof Hlw as [Hm Hne Hmax]. pose proof (join_members_wf _ _ _ _ _ Hm Hj) as Hm'.
    split; cbn [set_members l_members l_max_players]; [done| |done].
    intros ->. revert Hj. unfold join_members. destruct (position _ (l_members lobby)).
    + intros [= Hj]. apply (f_equal length) in Hj. rewrite length_update_first in Hj.
      by destruct (l_members lobby).
    + case_if; [done|]. intros [= Hj]. by destruct (l_members lobby).
  - unfold leave_lobby. cbv zeta. set (lid := default _ _).
    destruct (a_lobbies app !! lid) as [lobby|] eqn:Hl; [|done].
    assert (Hd : lobbies_wf (set_lobbies (delete lid (a_lobbies app)) app))
      by (apply lobbies_wf_sub; [done|apply delete_subseteq]).
    destruct (leave_members _ _) as [lobby'|] eqn:Hlv; [|done].
    destruct (Hw _ _ Hl) as (Hlw & Hid & Hc).
    apply lobbies_wf_insert; try done.
    + by eapply leave_members_wf.
    + revert Hlv. unfold leave_members. cbv zeta. repeat case_match; try done; intros [= <-];
        unfold migrate_owner; repeat case_match; done.
    + revert Hlv. unfold leave_members. cbv zeta. repeat case_match; try done; intros [= <-];
        unfold migrate_owner; repeat case_match; done.
  - unfold update_lobby. cbv zeta. set (lid := default _ _).
    destruct (a_lobbies app !! lid) as [lobby|] eqn:Hl; [|done].
    destruct (Hw _ _ Hl) as (Hlw & Hid & Hc).
    apply lobbies_wf_insert; try done. by apply update_lobby_body_wf.
Qed.
End store.

(** ** What each route does *)

Section routes.
Context `{SerdeJson} `{HashOrder} `{Crypto}.
Implicit Types (app : App) (body : JValue) (lobby : Lobby) (headers : gmap string string).

Definition member_ids lobby : list string := map member_id (l_members lobby).

(** The entity a join request speaks for. *)
Definition join_entity (player : Player) body : JValue :=
  default (entity_obj player) (vget body "MemberEntity").
Definition join_eid (player : Player) body : string :=
  default (entity_id player) (json_str (join_entity player body) "Id").
Definition join_connection body : string :=
  default ""%string (json_str body "ConnectionString" or_else json_str body "connectionString").

Lemma position_member_ids eid (members : list JValue) :
  is_Some (position (λ m, bool_decide (member_id m = eid)) members) ↔ eid ∈ map member_id members.
Proof.
  induction members as [|m ms IH]; simpl.
  - split; [by intros []|by intros ?%elem_of_nil].
  - case_bool_decide as Hm.
    + split; [intros _; rewrite <- Hm; left|eauto].
    + rewrite fmap_is_Some, IH, elem_of_cons. split; [by right|]. by intros [?|?]; [congruence|].
Qed.

Lemma join_members_ids lobby body ent eid :
  Forall member_ok (l_members lobby) →
  match join_members lobby body ent eid with
  | Some ms => map member_id ms =
      if bool_decide (eid ∈ member_ids lobby) then member_ids lobby else member_ids lobby ++ [eid]
  | None => (eid ∉ member_ids lobby) ∧ l_max_players lobby <= Z.of_nat (length (l_members lobby))
  end.
Proof.
  intros Hok. unfold join_members, member_ids.
  pose proof (position_member_ids eid (l_members lobby)) as Hpos.
  destruct (position _ (l_members lobby)) as [i|] eqn:Hp.
  - rewrite bool_decide_true by (apply Hpos; eauto). apply update_member_ids; [|done].
    intros m. by rewrite insert_field_id.
  - assert (Hni : eid ∉ map member_id (l_members lobby)) by (intros [? ?]%Hpos; congruence).
    case_if; [done|]. rewrite bool_decide_false by done.
    by rewrite map_app, <- (member_obj_member_id eid ent
         (fill_member_data (as_obj_or_empty (vget body "MemberData")) eid)).
Qed.

Lemma join_find app conn id :
  lobbies_wf app → is_Some (a_lobbies app !! id) → conn = connection_of app id →
  find_map (λ l, if bool_decide (l_connection l = conn) then Some (l_id l) else None)
    (hash_values (a_lobbies app)) = Some id.
Proof.
  intros Hw [lobby Hl] ->. destruct (Hw _ _ Hl) as (_ & Hid & Hc).
  apply (find_map_unique _ _ lobby).
  - apply elem_of_hash_values. eauto.
  - by rewrite Hc, bool_decide_true, Hid.
  - intros l k' [k Hk]%elem_of_hash_values. destruct (Hw _ _ Hk) as (_ & Hid' & Hc').
    case_bool_decide as Heq; [|done]. intros [= <-]. rewrite Hc' in Heq.
    apply connection_inj in Heq. congruence.
Qed.

Lemma join_find_None app conn :
  lobbies_wf app → (∀ id, is_Some (a_lobbies app !! id) → conn ≠ connection_of app id) →
  find_map (λ l, if bool_decide (l_connection l = conn) then Some (l_id l) else None)
    (hash_values (a_lobbies app)) = None.
Proof.
  intros Hw Hn. apply find_map_None. intros l [k Hk]%elem_of_hash_values.
  destruct (Hw _ _ Hk) as (_ & _ & Hc). case_bool_decide as Heq; [|done].
  destruct (Hn k); [eauto|congruence].
Qed.

(** C19: joining by connection string, whatever the hash map's iteration order. A string no stored
    lobby has is answered with 404 and changes no lobby. A full lobby answers 409 to a newcomer and
    is left as it was. Otherwise exactly the lobby of that string changes: the caller is one of
    its members, once, everybody else keeps their place, and the capacity still holds. *)
Theorem join_lobby_spec app body headers :
  lobbies_wf app →
  let eid := join_eid (request_player app body headers "anonymous").1 body in
  let '(resp, app') := join_lobby app body headers in
  ((∀ id, is_Some (a_lobbies app !! id) → join_connection body ≠ connection_of app id) →
   status resp = 404 ∧ a_lobbies app' = a_lobbies app) ∧
  (∀ id lobby, a_lobbies app !! id = Some lobby → join_connection body = connection_of app id →
   if bool_decide ((eid ∉ member_ids lobby) ∧ length (l_members lobby) = Z.to_nat (l_max_players lobby))
   then status resp = 409 ∧ a_lobbies app' = a_lobbies app
   else ∃ lobby', a_lobbies app' = <[id := lobby']> (a_lobbies app) ∧
     status resp = 200 ∧ lobby_wf lobby' ∧ l_max_players lobby' = l_max_players lobby ∧
     member_ids lobby' = (if bool_decide (eid ∈ member_ids lobby) then member_ids lobby
                          else member_ids lobby ++ [eid])).
Proof.
  intros Hw. destruct (request_player_spec app body headers "anonymous") as (Hl & Ht & _).
  pose proof (lobbies_wf_player app body headers "anonymous" Hw) as Hw1.
  unfold join_lobby. destruct (request_player app body headers "anonymous") as [player app1].
  cbn [fst snd] in *. fold (join_connection body). fold (join_entity player body).
  fold (join_eid player body). set (eid := join_eid player body).
  assert (Hcon : ∀ k, connection_of app1 k = connection_of app k)
    by (intros k; unfold connection_of; by rewrite Ht).
  destruct (find_map _ _) as [lid|] eqn:Hf.
  - destruct (find_map_Some _ _ _ Hf) as (l0 & [k Hk]%elem_of_hash_values & Heq).
    case_bool_decide as Hc; [|done]. injection Heq as <-.
    destruct (Hw1 _ _ Hk) as (Hlw & Hid & Hc'). rewrite Hid, Hk. rewrite Hid in Hf.
    pose proof Hlw as [(Hok & Hnd & Hlen) Hne Hmax].
    pose proof (join_members_ids l0 body (join_entity player body) eid Hok) as Hj.
    pose proof (join_members_wf l0 body (join_entity player body) eid) as Hjw.
    destruct (join_members l0 body (join_entity player body) eid) as [ms|]; (split; [intros Hn; exfalso|]).
    + apply (Hn k); [rewrite <- Hl; eauto|]. by rewrite <- Hcon, <- Hc', Hc.
    + intros id lobby Hlk Hcid. rewrite <- Hcon, <- Hc, Hc' in Hcid. apply connection_inj in Hcid as <-.
      rewrite <- Hl, Hk in Hlk. injection Hlk as <-. rewrite <- Hl.
      specialize (Hjw ms (conj Hok (conj Hnd Hlen)) eq_refl).
      rewrite bool_decide_false.
      * eexists. split; [done|]. split; [done|]. split; [|split; [done|done]].
        split; cbn [set_members l_members l_max_players]; [done| |done]. intros ->.
        assert (Hne' : member_ids l0 ≠ []) by (unfold member_ids; by destruct (l_members l0)).
        simpl in Hj. by case_bool_decide; destruct (member_ids l0).
      * intros [Hni Hfull]. rewrite bool_decide_false in Hj by done.
        destruct Hjw as (_ & _ & Hle). apply (f_equal length) in Hj.
        unfold member_ids in Hj. rewrite length_app, !length_map in Hj. simpl in Hj.
        unfold MIN_PLAYERS in *. lia.
    + apply (Hn k); [rewrite <- Hl; eauto|]. by rewrite <- Hcon, <- Hc', Hc.
    + intros id lobby Hlk Hcid. rewrite <- Hcon, <- Hc, Hc' in Hcid. apply connection_inj in Hcid as <-.
      rewrite <- Hl, Hk in Hlk. injection Hlk as <-. destruct Hj as [Hni Hfull].
      rewrite bool_decide_true; [done|]. split; [done|]. unfold MIN_PLAYERS in *. lia.
  - split; [intros _; done|]. intros id lobby Hlk Hcid.
    rewrite (join_find app1 (join_connection body) id) in Hf; [done|done| |].
    + rewrite Hl. eauto.
    + by rewrite Hcon.
Qed.

(** The members that stay when [pid] leaves; a caller that cannot be resolved counts as the only
    member of a one-member lobby. *)
Definition remaining_ids lobby (pid : option string) : list string :=
  match pid with
  | Some p =>
      let ids := filter (λ x, x ≠ p) (member_ids lobby) in
      if (length ids =? length (member_ids lobby))%nat && (length ids <=? 1)%nat then [] else ids
  | None => if (length (member_ids lobby) <=? 1)%nat then [] else member_ids lobby
  end.

Lemma filter_member_ids p (l : list JValue) :
  map member_id (filter (λ m, member_id m ≠ p) l) = filter (λ x, x ≠ p) (map member_id l).
Proof.
  induction l as [|m l IH]; [done|]. cbn [map]. rewrite !filter_cons.
  repeat case_decide; try done. cbn [map]. by rewrite IH.
Qed.

Lemma migrate_members lobby : l_members (migrate_owner lobby) = l_members lobby.
Proof. unfold migrate_owner. case_if; [|done]. by destruct (l_members lobby) eqn:Hl. Qed.

Lemma leave_members_ids lobby pid :
  match leave_members lobby pid with
  | None => remaining_ids lobby pid = []
  | Some lobby' => member_ids lobby' = remaining_ids lobby pid ∧ remaining_ids lobby pid ≠ [] ∧
      lobby' = (if bool_decide (pid = Some (lobby_owner_id lobby))
                then migrate_owner (set_members (l_members lobby') lobby)
                else set_members (l_members lobby') lobby)
  end.
Proof.
  unfold leave_members, remaining_ids. cbv zeta.
  set (ms := match pid with Some p => _ | None => l_members lobby end).
  assert (Hms : map member_id ms = match pid with
    | Some p => filter (λ x, x ≠ p) (member_ids lobby) | None => member_ids lobby end).
  { unfold ms. destruct pid; [apply filter_member_ids|done]. }
  assert (Hlen : length (member_ids lobby) = length (l_members lobby)) by apply length_map.
  assert (Hrem : remaining_ids lobby pid =
    map member_id (if (length ms =? length (l_members lobby))%nat && (length (l_members lobby) <=? 1)%nat
                   then [] else ms)).
  { unfold remaining_ids. destruct pid as [p|]; cbv zeta.
    - rewrite <- Hms, Hlen, length_map.
      destruct (length ms =? length (l_members lobby))%nat eqn:He; [|done]. bool_props. rewrite He.
      by case_if.
    - unfold ms. rewrite Hlen, Nat.eqb_refl. cbn [andb]. by case_if. }
  unfold remaining_ids in Hrem. cbv zeta in Hrem. rewrite Hrem.
  set (fs := if _ && _ then [] else ms). clearbody fs. clear Hrem Hms ms.
  destruct fs as [|m fs]; [done|].
  assert (Hd : (match pid with Some p => bool_decide (p = lobby_owner_id lobby) | None => false end)
               = bool_decide (pid = Some (lobby_owner_id lobby))).
  { destruct pid; [|done]. apply bool_decide_ext. split; [by intros ->|by intros [= ->]]. }
  rewrite Hd. case_bool_decide; (split; [|split; [done|]]); try done.
  - unfold member_ids. by rewrite migrate_members.
  - by rewrite migrate_members.
Qed.

(** leaving a lobby. Nothing but the lobby named is touched. It is gone exactly if nobody
    remains; otherwise the leaver is no longer a member and the others are, in the same order; and
    the owner changes only when it was the owner who left: to nobody, or, under the automatic
    policy, to the first remaining member. *)
Theorem leave_lobby_spec app body headers lid lobby :
  default ""%string (json_str body "LobbyId" or_else json_str body "lobbyId") = lid →
  a_lobbies app !! lid = Some lobby →
  let pid := request_entity_id app body headers in
  let '(resp, app') := leave_lobby app body headers in
  status resp = 200 ∧ (∀ k, k ≠ lid → a_lobbies app' !! k = a_lobbies app !! k) ∧
  (a_lobbies app' !! lid = None ↔ remaining_ids lobby pid = []) ∧
  (∀ lobby', a_lobbies app' !! lid = Some lobby' →
     member_ids lobby' = remaining_ids lobby pid ∧
     (∀ p, pid = Some p → p ∉ member_ids lobby') ∧
     l_owner lobby' =
       if bool_decide (pid = Some (lobby_owner_id lobby))
       then l_owner (migrate_owner (set_members (l_members lobby') lobby))
       else l_owner lobby).
Proof.
  intros Hlid Hl pid. unfold leave_lobby. rewrite Hlid, Hl. cbv zeta.
  change (request_entity_id (set_lobbies (delete lid (a_lobbies app)) app) body headers) with pid.
  pose proof (leave_members_ids lobby pid) as Hlv.
  destruct (leave_members lobby pid) as [lobby'|]; cbn [a_lobbies set_lobbies].
  - destruct Hlv as (Hids & Hne & Heq). split; [done|]. split; [|split].
    + intros k Hk. by rewrite lookup_insert_ne, lookup_delete_ne by done.
    + rewrite lookup_insert_eq. by split.
    + intros l'. rewrite lookup_insert_eq. intros [= <-]. split; [done|]. split.
      * intros p -> Hin. rewrite Hids in Hin. unfold remaining_ids in Hin. cbv zeta in Hin.
        case_if_in Hin; [by apply elem_of_nil in Hin|]. by apply list_elem_of_filter in Hin as [].
      * rewrite Heq at 1. by case_bool_decide.
  - split; [done|]. split; [|split].
    + intros k Hk. by rewrite lookup_delete_ne.
    + by rewrite lookup_delete_eq.
    + intros l'. by rewrite lookup_delete_eq.
Qed.

(** creating a lobby. The new lobby is stored with its creator as the only member, a capacity
    within the protocol range, and, unless the title overrides, the capacity asked for; the lobbies
    the creator owned before are gone and no other is touched. *)
Theorem create_lobby_spec app body player now1 now2 :
  let '(id, app') := create_lobby app body player now1 now2 in
  (∃ lobby eid, a_lobbies app' !! id = Some lobby ∧ lobby_wf lobby ∧ member_ids lobby = [eid] ∧
     l_connection lobby = connection_of app id ∧ l_created lobby = now2 ∧
     (a_override_game_max app = true → l_max_players lobby = configured_mesh_cap app) ∧
     (∀ n, a_override_game_max app = false → json_i64 body "MaxPlayers" = Some n →
        MIN_PLAYERS <= n <= MAX_PLAYERS_CEILING → l_max_players lobby = n)) ∧
  (∀ k, k ≠ id → a_lobbies app' !! k =
     match a_lobbies app !! k with
     | Some l => if bool_decide (entity_id player ≠ ""%string ∧ lobby_owner_id l = entity_id player)
                 then None else Some l
     | None => None
     end).
Proof.
  unfold create_lobby. cbv zeta. destruct (create_member body _) as [ent data].
  set (app1 := drop_owner_lobbies app (entity_id player)).
  set (req := json_i64 body "MaxPlayers" or_else json_i64 body "maxPlayers").
  pose proof (resolve_lobby_max_range app1 req) as Hmax.
  assert (Hsame : a_title_id app1 = a_title_id app ∧ a_override_game_max app1 = a_override_game_max app ∧
                  a_max_players app1 = a_max_players app).
  { unfold app1, drop_owner_lobbies. by case_bool_decide. }
  destruct Hsame as (Ht & Ho & Hm). split.
  - eexists _, _. cbn [a_lobbies set_lobbies]. rewrite lookup_insert_eq. split; [done|].
    split; [split; cbn [l_members l_max_players]|].
    + split; [apply Forall_singleton, member_obj_ok|]. split; [apply NoDup_singleton|].
      unfold MIN_PLAYERS in *. simpl. lia.
    + done.
    + done.
    + split; [unfold member_ids; cbn [l_members map]; by rewrite member_obj_member_id|].
      split; [cbn; unfold connection_of; by rewrite Ht|]. split; [done|]. cbn [l_max_players].
      unfold resolve_lobby_max, configured_mesh_cap. rewrite Ho, Hm.
      split; [by intros ->|]. intros n -> Hn Hr. unfold req. rewrite Hn.
      unfold clamp_max_players, clamp. repeat case_if; lia.
  - intros k Hk. cbn [a_lobbies set_lobbies]. rewrite lookup_insert_ne by done.
    unfold app1, drop_owner_lobbies. case_bool_decide as He.
    + destruct (a_lobbies app !! k); [|done]. rewrite bool_decide_false; [done|]. by intros [? _].
    + cbn [a_lobbies set_lobbies]. rewrite map_lookup_filter.
      destruct (a_lobbies app !! k) as [l|]; [|done]. simpl.
      case_guard as Hg; simpl; [rewrite bool_decide_false|rewrite bool_decide_true]; try done.
      by intros [_ ?].
Qed.

End routes.

(** a search always reports a lobby as unlocked. The row [FindLobbies] sends for a lobby says
    [MembershipLock: Unlocked] whatever lock the lobby stores, while [GetLobby] reports the stored
    one and the filter evaluates against it. *)
Theorem find_row_hides_lock `{SerdeJson} lobby viewer :
  vget (find_row lobby) "MembershipLock" = Some (VString "Unlocked") ∧
  vget (lobby_public lobby) "MembershipLock" = Some (VString (l_membership_lock lobby)) ∧
  lv_membership_lock (filter_view lobby viewer) = l_membership_lock lobby.
Proof. split; [|split]; [| |done]; unfold find_row, lobby_public; by json_simpl. Qed.

(** ** An application with one lobby *)

Definition demo_lobby : Lobby :=
  mkLobby "lan-1" "lan.T.lan-1" (jobj [("Id", VString "a")]%string) 1 2 ∅ ∅ "Public" "Unlocked"
    [member_obj "a" (jobj [("Id", VString "a")]%string) ∅] (f64_of_Z 0).
Definition demo_app : App :=
  mkApp "T" 8080 8081 4 false ∅ {["lan-1"%string := demo_lobby]} ∅.

Lemma demo_app_wf : lobbies_wf demo_app.
Proof.
  intros k l. cbn [a_lobbies demo_app]. intros [<- <-]%lookup_singleton_Some. split; [|done].
  split; cbn; [|done|unfold MIN_PLAYERS, MAX_PLAYERS_CEILING; lia].
  split; [apply Forall_singleton, member_obj_ok|]. split; [apply NoDup_singleton|simpl; lia].
Qed.

Definition join_body : JValue :=
  jobj [("ConnectionString", VString "lan.T.lan-1");
        ("MemberEntity", jobj [("Id", VString "b")])]%string.

Lemma join_lobby_spec_witness :
  let app' := (join_lobby demo_app join_body ∅).2 in
  ∃ lobby', a_lobbies app' = <["lan-1"%string := lobby']> (a_lobbies demo_app) ∧
    status (join_lobby demo_app join_body ∅).1 = 200 ∧ lobby_wf lobby' ∧
    l_max_players lobby' = 2 ∧ member_ids lobby' = ["a"; "b"]%string.
Proof.
  exact (proj2 (join_lobby_spec demo_app join_body ∅ demo_app_wf) "lan-1"%string demo_lobby
           eq_refl eq_refl).
Defined.

Definition leave_body : JValue :=
  jobj [("LobbyId", VString "lan-1"); ("EntityId", VString "a")]%string.

Lemma leave_lobby_spec_witness :
  a_lobbies (leave_lobby demo_app leave_body ∅).2 !! "lan-1"%string = None ↔
    remaining_ids demo_lobby (request_entity_id demo_app leave_body ∅) = [].
Proof.
  exact (proj1 (proj2 (proj2 (leave_lobby_spec demo_app leave_body ∅ "lan-1" demo_lobby eq_refl eq_refl)))).
Defined.
