(* ===== verification/Party.v ===== *)
(** * The party registry: [handle_party] of [lan-server/src/main.rs]

    The broker's list of peers per network: registration with a capacity and a
    registration counter, leaving, and the polling that keeps a member alive.
    [now] is the clock reading the handler makes. *)

From S2P Require Import Prelude RustStr F64 Value LobbyFilter App.
#[local] Open Scope Z_scope.

Section party.
Context `{SerdeJson} `{HashOrder} `{Crypto}.
Implicit Types (app : App) (body : JValue) (headers : gmap string string)
  (net : gmap string PartyMember) (now : f64).

(** [net.retain(|_, m| now - m.seen <= PARTY_SEEN_TTL_SECS)]. *)
Definition retain_live now net : gmap string PartyMember := filter (λ e, member_live now e.2 = true) net.

Definition member_row (m : PartyMember) : JValue :=
  jobj [("entity_id", VString (pm_entity_id m)); ("ip", VString (pm_ip m));
        ("udp_port", jint (pm_udp_port m)); ("seen", jf64 (pm_seen m));
        ("member_seq", jint (pm_member_seq m))]%string.
Definition member_rows net : list JValue := map member_row (hash_values net).

Definition party_reply (nid : string) (rows : list JValue) : Response :=
  playfab_ok (jobj [("network_id", VString nid); ("members", VArray rows)]%string).

(** Insert or refresh [eid]; [None] when the mesh is full. *)
Definition register now (cap : Z) net (eid ip : string) (port seq : Z)
    : option (gmap string PartyMember) :=
  match net !! eid with
  | None =>
      if cap <=? Z.of_nat (size net) then None
      else Some (<[eid := mkPartyMember eid ip port now seq]> net)
  | Some m =>
      Some (<[eid :=
        if negb (seq =? 0) && (seq <? pm_member_seq m)
        then mkPartyMember (pm_entity_id m) (pm_ip m) (pm_udp_port m) now (pm_member_seq m)
        else mkPartyMember (pm_entity_id m) ip port now (Z.max (pm_member_seq m) seq)]> net)
  end.

Definition join_ip body headers : string :=
  let ip := default "127.0.0.1"%string
    (json_str body "ip" or_else headers !! "x-forwarded-for"%string
     or_else headers !! "x-peer-ip"%string) in
  if is_loopback_ip ip then
    match headers !! "x-peer-ip"%string with
    | Some peer => if is_loopback_ip peer then ip else peer
    | None => ip
    end
  else ip.

(** The network a join names; without a name, one made from the clock. *)
Definition join_network body (qs : string) now : string :=
  match nonempty (json_str body "network_id" or_else query_param qs "network_id") with
  | Some s => s
  | None => "net-" +:+ prefix 8 (sha1_hex (fmt_f64 now))
  end.

Definition party_join app body headers (qs : string) now : Response * App :=
  let nid := join_network body qs now in
  let eid := default "anon"%string (json_str body "entity_id") in
  let ip := join_ip body headers in
  let port := default 0 (json_i64 body "udp_port") mod U16 in
  let seq := member_seq_of body qs in
  let net := retain_live now (default ∅ (a_party app !! nid)) in
  match register now (configured_mesh_cap app) net eid ip port seq with
  | None =>
      (playfab_err "PartyMemberLimitExceeded" "Party mesh is full",
       set_party (<[nid := net]> (a_party app)) app)
  | Some net =>
      (party_reply nid (member_rows net), set_party (<[nid := net]> (a_party app)) app)
  end.

Definition party_leave app body (qs : string) : Response * App :=
  let nid := default ""%string (json_str body "network_id") in
  let eid := default ""%string (json_str body "entity_id") in
  let seq := member_seq_of body qs in
  (playfab_ok (jobj []),
   match a_party app !! nid with
   | None => app
   | Some net =>
       let have := match net !! eid with Some m => pm_member_seq m | None => 0 end in
       if negb (seq =? 0) && (seq <? have) then app
       else set_party (<[nid := delete eid net]> (a_party app)) app
   end).

(** [m.seen = now] for the polling entity. *)
Definition refresh now net (eid : string) : gmap string PartyMember :=
  if bool_decide (eid = ""%string) then net
  else match net !! eid with
       | Some m => <[eid := mkPartyMember (pm_entity_id m) (pm_ip m) (pm_udp_port m) now
                             (pm_member_seq m)]> net
       | None => net
       end.

Definition party_peers app body (qs : string) now : Response * App :=
  let nid := default ""%string (json_str body "network_id" or_else query_param qs "network_id") in
  let eid := default ""%string (json_str body "entity_id" or_else query_param qs "entity_id") in
  match a_party app !! nid with
  | Some net =>
      let net := retain_live now (refresh now net eid) in
      (party_reply nid (member_rows net), set_party (<[nid := net]> (a_party app)) app)
  | None => (party_reply nid [], app)
  end.

(** The route without its leading slashes, and the query string. *)
Definition party_path (path : string) : string * string :=
  match split_once x3f path with
  | Some (a, b) => (trim_start_matches x2f a, b)
  | None => (trim_start_matches x2f path, ""%string)
  end.

Definition handle_party app (path : string) body headers now : option (Response * App) :=
  let '(p, qs) := party_path path in
  if bool_decide (p = "party/join"%string) || bool_decide (p = "party/create"%string)
  then Some (party_join app body headers qs now)
  else if bool_decide (p = "party/leave"%string) then Some (party_leave app body qs)
  else if bool_decide (p = "party/peers"%string) then Some (party_peers app body qs now)
  else if bool_decide (p = "party/msg"%string) then Some (playfab_ok (jobj []), app)
  else None.

(** ** The registry's invariant *)

(** Every network holds at most the configured number of members, each under its own id. *)
Definition net_wf (cap : Z) net : Prop :=
  Z.of_nat (size net) <= cap ∧ ∀ k m, net !! k = Some m → pm_entity_id m = k.
Definition party_wf app : Prop :=
  ∀ nid net, a_party app !! nid = Some net → net_wf (configured_mesh_cap app) net.

Lemma mesh_cap_pos app : 2 <= configured_mesh_cap app.
Proof.
  unfold configured_mesh_cap, clamp_max_players, clamp, MIN_PLAYERS, MAX_PLAYERS_CEILING.
  repeat case_if; lia.
Qed.

Lemma retain_live_wf cap now net : net_wf cap net → net_wf cap (retain_live now net).
Proof.
  intros [Hs Hk]. split.
  - etrans; [|exact Hs]. apply inj_le, map_size_filter.
  - intros k m Hm. unfold retain_live in Hm. apply map_lookup_filter_Some in Hm as [Hm _]. auto.
Qed.

Lemma net_wf_update cap net k m m' :
  net_wf cap net → net !! k = Some m → pm_entity_id m' = pm_entity_id m → net_wf cap (<[k := m']> net).
Proof.
  intros [Hs Hk] Hm Hid. split.
  - rewrite map_size_insert_Some by eauto. done.
  - intros k' x. destruct (decide (k' = k)) as [->|].
    + rewrite lookup_insert_eq. intros [= <-]. rewrite Hid. auto.
    + rewrite lookup_insert_ne by done. apply Hk.
Qed.

Lemma register_wf now cap net eid ip port seq net' :
  net_wf cap net → register now cap net eid ip port seq = Some net' → net_wf cap net'.
Proof.
  intros Hw. unfold register. destruct (net !! eid) as [m|] eqn:Hm.
  - intros [= <-]. eapply net_wf_update; [done..|]. by case_if.
  - case_if; [done|]. intros [= <-]. destruct Hw as [Hs Hk]. split.
    + rewrite map_size_insert_None by done. lia.
    + intros k x. destruct (decide (k = eid)) as [->|].
      * rewrite lookup_insert_eq. by intros [= <-].
      * rewrite lookup_insert_ne by done. apply Hk.
Qed.

Lemma party_wf_insert app nid net :
  party_wf app → net_wf (configured_mesh_cap app) net →
  party_wf (set_party (<[nid := net]> (a_party app)) app).
Proof.
  intros Hw Hn k n. cbn [a_party set_party]. destruct (decide (k = nid)) as [->|].
  - rewrite lookup_insert_eq. by intros [= <-].
  - rewrite lookup_insert_ne by done. apply Hw.
Qed.

Lemma net_wf_of app nid : party_wf app → net_wf (configured_mesh_cap app) (default ∅ (a_party app !! nid)).
Proof.
  intros Hw. destruct (a_party app !! nid) as [net|] eqn:Hn; [by eapply Hw|]. split; simpl.
  - rewrite map_size_empty. pose proof (mesh_cap_pos app). lia.
  - intros k m. by rewrite lookup_empty.
Qed.

Lemma handle_party_wf app path body headers now r app' :
  party_wf app → handle_party app path body headers now = Some (r, app') → party_wf app'.
Proof.
  intros Hw. unfold handle_party. destruct (party_path path) as [p qs].
  case_if; [|case_if; [|case_if; [|case_if; [by intros [= _ <-]|done]]]].
  - unfold party_join. cbv zeta. pose proof (retain_live_wf _ now _ (net_wf_of app (join_network body qs now) Hw)) as Hn.
    destruct (register _ _ _ _ _ _ _) as [net|] eqn:Hr; intros [= _ <-]; apply party_wf_insert; auto.
    by eapply register_wf.
  - unfold party_leave. cbv zeta. intros [= _ <-]. destruct (a_party app !! _) as [net|] eqn:Hn; [|done].
    case_if; [done|]. apply party_wf_insert; [done|]. destruct (Hw _ _ Hn) as [Hs Hk]. split.
    + etrans; [|exact Hs]. apply inj_le. rewrite map_size_delete. case_match; [apply Nat.le_pred_l|done].
    + intros k m [_ Hm]%lookup_delete_Some. auto.
  - unfold party_peers. cbv zeta. destruct (a_party app !! _) as [net|] eqn:Hn; [|by intros [= _ <-]].
    intros [= _ <-]. apply party_wf_insert; [done|]. apply retain_live_wf. unfold refresh.
    case_if; [by eapply Hw|]. destruct (net !! _) as [m|] eqn:Hm; [|by eapply Hw].
    eapply net_wf_update; [by eapply Hw|done|done].
Qed.

(** ** Liveness of the members *)

Lemma f64_sub_diag x : f64_is_finite x = true → f64_leb (f64_sub x x) PARTY_SEEN_TTL_SECS = true.
Proof.
  destruct x as [s|s| |s m e]; try done; intros _; [by destruct s|].
  unfold f64_sub, SFsub. rewrite Z.sub_diag. done.
Qed.

Lemma retain_live_lookup now net k m :
  retain_live now net !! k = Some m ↔ net !! k = Some m ∧ member_live now m = true.
Proof. unfold retain_live. by rewrite map_lookup_filter_Some. Qed.

(** What a registration leaves in the network. *)
Lemma register_lookup now cap net eid ip port seq net' :
  register now cap net eid ip port seq = Some net' →
  ∃ m', net' = <[eid := m']> net ∧ pm_seen m' = now ∧
    match net !! eid with
    | None => m' = mkPartyMember eid ip port now seq
    | Some m =>
        pm_entity_id m' = pm_entity_id m ∧ pm_member_seq m' = Z.max (pm_member_seq m) seq ∧
        (if negb (seq =? 0) && (seq <? pm_member_seq m)
         then (pm_ip m', pm_udp_port m') = (pm_ip m, pm_udp_port m)
         else (pm_ip m', pm_udp_port m') = (ip, port))
    end.
Proof.
  unfold register. destruct (net !! eid) as [m|].
  - intros [= <-]. eexists. split; [done|]. case_if; simpl; [|done]. bool_props.
    split_and!; [done|done|lia|done].
  - case_if; [done|]. intros [= <-]. eexists. by split_and!.
Qed.

Lemma register_full now cap net eid ip port seq :
  register now cap net eid ip port seq = None ↔ net !! eid = None ∧ cap <= Z.of_nat (size net).
Proof.
  unfold register. destruct (net !! eid) as [m|]; [by split; [|intros [? _]]|].
  destruct (Z.leb_spec cap (Z.of_nat (size net))); [done|].
  split; [done|]. intros [_ Hc]. by apply Z.le_ngt in Hc.
Qed.

(** ** Properties *)

(** [/party/join] first drops the members that have been silent for more than 30 s. It
    answers 409, registering nobody, exactly when the entity is not among the remaining ones and
    they already fill the mesh. Otherwise it answers 200 and changes the entity's registration
    only: it is fresh as of [now], its counter is the maximum of the old and the request's one,
    and the address is the request's unless the request carries an older non-zero counter than
    the registration, in which case the newer registration keeps its address. *)
Theorem party_join_spec app body headers qs now :
  let nid := join_network body qs now in
  let eid := default "anon"%string (json_str body "entity_id") in
  let seq := member_seq_of body qs in
  let net := retain_live now (default ∅ (a_party app !! nid)) in
  let '(r, app') := party_join app body headers qs now in
  (status r = 409 ↔ net !! eid = None ∧ configured_mesh_cap app <= Z.of_nat (size net)) ∧
  (status r = 409 → a_party app' = <[nid := net]> (a_party app)) ∧
  (status r ≠ 409 → status r = 200 ∧ ∃ m',
     a_party app' = <[nid := <[eid := m']> net]> (a_party app) ∧ pm_seen m' = now ∧
     match net !! eid with
     | None => m' = mkPartyMember eid (join_ip body headers)
                      (default 0 (json_i64 body "udp_port") mod U16) now seq
     | Some m =>
         pm_entity_id m' = pm_entity_id m ∧ pm_member_seq m' = Z.max (pm_member_seq m) seq ∧
         (if negb (seq =? 0) && (seq <? pm_member_seq m)
          then (pm_ip m', pm_udp_port m') = (pm_ip m, pm_udp_port m)
          else (pm_ip m', pm_udp_port m') =
                 (join_ip body headers, default 0 (json_i64 body "udp_port") mod U16))
     end).
Proof.
  unfold party_join. cbv zeta.
  destruct (register _ _ _ _ _ _ _) as [net'|] eqn:Hr.
  - pose proof (register_lookup _ _ _ _ _ _ _ _ Hr) as (m' & -> & Hs & Hm). split_and!.
    + split; [done|]. intros Hf. eapply register_full in Hf. by rewrite Hr in Hf.
    + done.
    + intros _. split; [done|]. by exists m'.
  - apply register_full in Hr. split_and!; [done|done|].
    intros Hc. by destruct Hc.
Qed.

(** a leave that answers an older join cannot remove a newer registration: once a join with
    a non-zero counter [s] has succeeded, any leave of the same entity and network with a
    non-zero counter below [s] leaves the whole registry as it is, whatever the reordering of
    the two requests on the way. *)
Theorem stale_leave_ignored app body headers qs now body' qs' :
  let eid := default "anon"%string (json_str body "entity_id") in
  let app' := (party_join app body headers qs now).2 in
  status (party_join app body headers qs now).1 = 200 →
  json_str body' "network_id" = Some (join_network body qs now) →
  json_str body' "entity_id" = Some eid →
  0 < member_seq_of body' qs' < member_seq_of body qs →
  (party_leave app' body' qs').2 = app'.
Proof.
  cbv zeta. intros Hok Hn He Hs. revert Hok. unfold party_join. cbv zeta.
  destruct (register _ _ _ _ _ _ _) as [net'|] eqn:Hr; [|done]. intros _.
  apply register_lookup in Hr as (m' & -> & _ & Hm).
  unfold party_leave. cbn [snd]. rewrite Hn, He. cbn [a_party set_party default from_option Datatypes.id].
  rewrite !lookup_insert_eq.
  assert (member_seq_of body qs <= pm_member_seq m').
  { destruct (_ !! _) as [m|]; [|by rewrite Hm]. destruct Hm as (_ & -> & _). lia. }
  case_if; [done|]. bool_props; lia.
Qed.

(** The request is a poll, or a leave, of entity [eid] in network [nid]. *)
Definition is_poll (path : string) body (nid eid : string) : Prop :=
  let '(p, qs) := party_path path in
  p = "party/peers"%string ∧ eid ≠ ""%string ∧
  default ""%string (json_str body "network_id" or_else query_param qs "network_id") = nid ∧
  default ""%string (json_str body "entity_id" or_else query_param qs "entity_id") = eid.
Definition is_leave (path : string) body (nid eid : string) : Prop :=
  (party_path path).1 = "party/leave"%string ∧
  default ""%string (json_str body "network_id") = nid ∧
  default ""%string (json_str body "entity_id") = eid.

(** The registration survives in [app'], possibly renewed. *)
Definition kept app' (nid eid : string) (m : PartyMember) : Prop :=
  ∃ net' m', a_party app' !! nid = Some net' ∧ net' !! eid = Some m' ∧
    pm_member_seq m <= pm_member_seq m'.

Lemma kept_same app nid net eid m :
  a_party app !! nid = Some net → net !! eid = Some m → kept app nid eid m.
Proof. intros ??. exists net, m. split_and!; [done..|lia]. Qed.

(** Replacing the network [k] keeps [m] if the new network does. *)
Lemma kept_insert app k net' nid net eid m :
  a_party app !! nid = Some net → net !! eid = Some m →
  (k = nid → ∃ m', net' !! eid = Some m' ∧ pm_member_seq m <= pm_member_seq m') →
  kept (set_party (<[k := net']> (a_party app)) app) nid eid m.
Proof.
  intros Hn Hm Hk. unfold kept. cbn [a_party set_party]. destruct (decide (k = nid)) as [->|].
  - rewrite lookup_insert_eq. destruct (Hk eq_refl) as (m' & ? & ?). by exists net', m'.
  - rewrite lookup_insert_ne by done. exists net, m. split_and!; [done..|lia].
Qed.

Lemma party_join_kept app body headers qs now nid net eid m :
  a_party app !! nid = Some net → net !! eid = Some m → member_live now m = true →
  kept (party_join app body headers qs now).2 nid eid m.
Proof.
  intros Hn Hm Hl. unfold party_join. cbv zeta.
  set (e := default "anon"%string _). clearbody e.
  assert (Hk : ∀ k, k = nid → retain_live now (default ∅ (a_party app !! k)) !! eid = Some m).
  { intros k ->. rewrite Hn. apply retain_live_lookup. done. }
  destruct (register _ _ _ _ _ _ _) as [net'|] eqn:Hr; apply kept_insert with net; try done;
    intros Hk'; apply Hk in Hk'; [|by exists m].
  apply register_lookup in Hr as (m' & -> & _ & Hm').
  destruct (decide (e = eid)) as [->|].
  - rewrite lookup_insert_eq. exists m'. split; [done|]. rewrite Hk' in Hm'.
    destruct Hm' as (_ & -> & _). lia.
  - rewrite lookup_insert_ne by done. by exists m.
Qed.

Lemma party_leave_kept app body qs nid net eid m :
  a_party app !! nid = Some net → net !! eid = Some m →
  ¬ (default ""%string (json_str body "network_id") = nid ∧
     default ""%string (json_str body "entity_id") = eid) →
  kept (party_leave app body qs).2 nid eid m.
Proof.
  intros Hn Hm Hl. unfold party_leave. cbv zeta. cbn [snd].
  destruct (a_party app !! default _ _) as [net1|] eqn:H1'; [|by eapply kept_same].
  case_if; [by eapply kept_same|]. apply kept_insert with net; [done..|]. intros Hk.
  exists m. rewrite lookup_delete_ne; [|naive_solver].
  rewrite Hk in H1'. split; [congruence|lia].
Qed.

Lemma party_peers_kept app body qs now nid net eid m :
  f64_is_finite now = true → a_party app !! nid = Some net → net !! eid = Some m →
  member_live now m = true ∨
    (eid ≠ ""%string ∧
     default ""%string (json_str body "entity_id" or_else query_param qs "entity_id") = eid ∧
     default ""%string (json_str body "network_id" or_else query_param qs "network_id") = nid) →
  kept (party_peers app body qs now).2 nid eid m.
Proof.
  intros Hf Hn Hm Hl. unfold party_peers. cbv zeta.
  destruct (a_party app !! default _ _) as [net1|] eqn:H1'; [|by eapply kept_same].
  apply kept_insert with net; [done..|]. intros Hk. rewrite Hk, Hn in H1'. injection H1' as <-.
  set (e := default _ (json_str body "entity_id" or_else _)) in *. clearbody e.
  unfold refresh. destruct (decide (e = ""%string)) as [->|He].
  - exists m. rewrite retain_live_lookup. destruct Hl as [Hl|(? & ? & _)]; [|done].
    split; [done|lia].
  - rewrite bool_decide_eq_false_2 by done. destruct (decide (e = eid)) as [->|Hne].
    + rewrite Hm. eexists. rewrite retain_live_lookup, lookup_insert_eq.
      split; [split; [done|]|cbn; lia]. by apply f64_sub_diag.
    + exists m. split; [|lia]. destruct Hl as [Hl|(_ & ? & _)]; [|done].
      destruct (net !! e); rewrite retain_live_lookup, ?lookup_insert_ne by done; done.
Qed.

(** C35: a registered member can only disappear by its own leave or by silence. Any request to
    the party routes keeps member [eid] of network [nid], with a counter that never decreases, if
    the request is not a leave of that very member and either the member is live at the request
    (it was seen in the last 30 s) or the request is its own poll: a poll saves even a member
    whose 30 s had already run out. *)
Theorem member_kept_alive app path body headers now r app' nid net eid m :
  f64_is_finite now = true →
  handle_party app path body headers now = Some (r, app') →
  a_party app !! nid = Some net → net !! eid = Some m →
  member_live now m = true ∨ is_poll path body nid eid →
  ¬ is_leave path body nid eid →
  kept app' nid eid m.
Proof.
  intros Hf Hh Hn Hm Hl Hleave. unfold handle_party, is_poll, is_leave in *.
  destruct (party_path path) as [p qs]. cbn [fst] in Hleave.
  destruct (decide (p = "party/peers"%string)) as [->|Hp];
    [change (Some (party_peers app body qs now) = Some (r, app')) in Hh
    |rewrite (bool_decide_eq_false_2 _ Hp) in Hh].
  { assert (app' = (party_peers app body qs now).2) as -> by (by injection Hh as ->).
    eapply party_peers_kept; [done..|]. destruct Hl as [Hl|(_ & ? & ? & ?)]; auto. }
  assert (member_live now m = true) by (destruct Hl as [Hl|(? & _)]; [done|congruence]). clear Hl.
  case_if_in Hh; [|case_if_in Hh; [|case_if_in Hh; [|done]]].
  - assert (app' = (party_join app body headers qs now).2) as -> by (by injection Hh as ->).
    by eapply party_join_kept.
  - assert (app' = (party_leave app body qs).2) as -> by (by injection Hh as _ <-).
    eapply party_leave_kept; [done..|]. intros Hc. apply Hleave. split; [|done]. by apply bool_decide_eq_true in Heqb.
  - assert (app' = app) as -> by (by injection Hh as _ <-). by eapply kept_same.
Qed.
End party.

(** ** Witnesses *)

Definition demo_party : App :=
  mkApp "T" 8080 8081 4 false ∅ ∅
    {["n"%string := {["a"%string := mkPartyMember "a" "10.0.0.2" 7777 (f64_of_Z 0) 5]}]}.

Definition party_body (seq : Z) : JValue :=
  jobj [("network_id", VString "n"); ("entity_id", VString "a"); ("ip", VString "10.0.0.3");
        ("udp_port", jint 70000); ("member_seq", jint seq)]%string.

Lemma stale_leave_ignored_witness :
  (party_leave (party_join demo_party (party_body 9) ∅ "" (f64_of_Z 10)).2 (party_body 8) "").2 =
  (party_join demo_party (party_body 9) ∅ "" (f64_of_Z 10)).2.
Proof.
  apply (stale_leave_ignored demo_party (party_body 9) ∅ "" (f64_of_Z 10) (party_body 8) "");
    vm_compute; done.
Defined.

Lemma member_kept_alive_witness :
  member_live (f64_of_Z 100) (mkPartyMember "a" "10.0.0.2" 7777 (f64_of_Z 0) 5) = false ∧
  kept (party_peers demo_party (party_body 5) "" (f64_of_Z 100)).2 "n" "a"
    (mkPartyMember "a" "10.0.0.2" 7777 (f64_of_Z 0) 5).
Proof.
  split; [reflexivity|].
  refine (member_kept_alive demo_party "/party/peers" (party_body 5) ∅ (f64_of_Z 100) _ _ "n" _ "a" _
            eq_refl eq_refl eq_refl eq_refl (or_intror _) _).
  - vm_compute. by split_and!.
  - vm_compute. by intros [? _].
Defined.
