(* ===== verification/Broker.v ===== *)
(** * The broker's request handling: [dispatch] of [lan-server/src/main.rs]

    Path normalisation, the boot configuration, the cygames stubs, and the
    dispatcher.  [dispatch] runs as one to four critical sections, each under
    the mutex on the shared state and with the lock released in between, while
    other connection threads run theirs: [exec] runs any number of requests
    under an arbitrary schedule, and the theorems relate those runs to requests
    that are handled one at a time ([Serve] does the same with the connections). *)

From S2P Require Import Prelude RustStr F64 Value LobbyFilter App Playfab Party.
#[local] Open Scope Z_scope.

(** ** Paths *)

Definition strip_api_prefix (path : string) : string :=
  let p := default path (head (split_str x3f path)) in
  match find_map (λ prefix, strip_prefix prefix p)
          ["/v1/api/index.php/"; "/v1/api/"; "/index.php/"; "/api/"]%string with
  | Some rest => "/" +:+ trim_start_matches x2f rest
  | None => p
  end.

Definition is_boot_path (path : string) : bool :=
  let p := to_ascii_lowercase path in
  ends_with ".json" p || ends_with ".dat" p || ends_with ".blob" p || contains "config" p.

Definition advert_host (headers : gmap string string) (fallback : string) : string :=
  default fallback
    (nonempty ((λ h, default h (head (split_str x3a h))) <$> headers !! "host"%string)).

(** The clock readings one critical section makes: two of [now_unix], two of [now_secs]. *)
Record Clock := mkClock { k_unix : f64; k_unix' : f64; k_secs : Z; k_secs' : Z }.

Section broker.
Context `{SerdeJson} `{HashOrder} `{Crypto}.
Implicit Types (app : App) (body : JValue) (headers : gmap string string) (k : Clock).

Definition boot_config app headers (now : Z) : JValue :=
  let host := advert_host headers "127.0.0.1" in
  let http := "http://" +:+ host +:+ ":" +:+ fmt_dec (a_http_port app) in
  jobj [("PlayfabTitleId", VString (a_title_id app));
        ("PlaylogUrl", VString (http +:+ "/playlog"));
        ("NetworkStatsUrl", VString (http +:+ "/playlog/network-stats"));
        ("GameapiUrl", VString http);
        ("WebsocketUrl", VString ("ws://" +:+ host +:+ ":" +:+ fmt_dec (a_ws_port app) +:+ "/"));
        ("CidpUrl", VString "x"); ("CidpOfficialUrl", VString "x"); ("CidpClientId", VString "x");
        ("PrivacyPolicyUrl", VString "x"); ("SurveyUrl", VString "x");
        ("ActivateDateSec", jint (now - 86400)); ("DeactivateDateSec", jint (now + 86400 * 3650));
        ("MatchingSearchWaitTimeMinSec", jint 0); ("MatchingSearchWaitTimeMaxSec", jint 3600);
        ("MatchingRemainingMaxCounter", jint 10); ("MatchingDefaultSearchLimit", jint 20);
        ("MatchingEnableFindListSort", jint 1); ("SearchWaitTimeMinSec", jint 0);
        ("SearchWaitTimeMaxSec", jint 3600); ("RemainingMaxCounter", jint 10)]%string.

Definition handle_cygames (path : string) app headers (now : f64) : option Response :=
  let p := trim_start_matches x2f path in
  let one_of := existsb (λ s, bool_decide (p = s)) in
  if one_of ["sys/get_terms"; "get_terms"]%string
  then Some (cygames_ok (jobj [("pp_version", jint 1); ("playlog", jint 1); ("sc", jint 0)]%string))
  else if one_of ["sys/get_news"; "get_news"]%string
  then Some (cygames_ok (jobj [("list_size", jint 0); ("list", VArray [])]%string))
  else if one_of ["sys/user_auth"; "user_auth"; "sys/external_user_auth"; "external_user_auth"]%string
  then
    let host := advert_host headers "127.0.0.1" in
    Some (cygames_ok (jobj
      [("auth_token", VString ("lan-auth." +:+ prefix 16 (sha1_hex (fmt_f64 now))));
       ("ws_url", VString ("ws://" +:+ host +:+ ":" +:+ fmt_dec (a_ws_port app) +:+ "/"));
       ("ws_api_key", VString "lan-ws-api-key"); ("cygames_id_linked", VBool false)]%string))
  else if one_of ["activity/get_invite_list"; "activity/get_presence_list"]%string
  then Some (cygames_ok (jobj []))
  else if one_of ["cygames_id/link_status"; "cygames_id/link"; "cygames_id/unlink"]%string
       || (starts_with "cygames_id/" p && negb (one_of ["cygames_id/check_reward"]%string))
  then Some (cygames_ok (jobj [("is_pending", VBool false); ("link_status", jint 0)]%string))
  else if one_of ["cygames_id/check_reward"]%string
  then Some (cygames_ok (jobj [("has_link_reward", VBool false); ("has_cross_reward", VBool false)]%string))
  else if starts_with "playlog" p then Some (cygames_ok (jobj []))
  else None.

(** A request as [dispatch] gets it, with the paths it derives. *)
Record Call := mkCall {
  q_method : string; q_path : string; q_headers : gmap string string; q_body : JValue }.
Definition q_stripped (q : Call) : string := strip_api_prefix (q_path q).
Definition q_party (q : Call) : string := trim_start_matches x2f (q_stripped q).
Definition q_party_path (q : Call) : string :=
  match split_once x3f (q_path q) with
  | Some (_, s) =>
      if bool_decide (s = ""%string) then "/" +:+ q_party q else "/" +:+ q_party q +:+ "?" +:+ s
  | None => "/" +:+ q_party q
  end.

(** What follows the three handlers: the health check, the boot files, the catch-alls. *)
Definition dispatch_tail app (q : Call) k : Response :=
  let get := bool_decide (q_method q = "GET"%string) in
  let stripped := q_stripped q in
  if get && (bool_decide (stripped = "/"%string) || bool_decide (stripped = "/health"%string))
  then (200, "application/json"%string,
        json_bytes (jobj [("ok", VBool true); ("title", VString (a_title_id app))]%string))
  else if get && (is_boot_path stripped || bool_decide (stripped = "/"%string)
                  || bool_decide (stripped = ""%string))
  then
    let raw := json_bytes (boot_config app (q_headers q) (k_secs k)) in
    if ends_with ".blob" stripped
    then (200, "application/octet-stream"%string, encode_boot_blob raw (k_secs' k))
    else (200, "application/json"%string, raw)
  else if bool_decide (q_method q = "POST"%string) then playfab_ok (jobj [])
  else cygames_ok (jobj []).

(** The critical sections in order.  The clock is read inside each of them. *)
Inductive Pc := AtCygames | AtParty | AtPlayfab | AtTail.
Definition pc_next (pc : Pc) (q : Call) : Pc :=
  match pc with
  | AtCygames => if starts_with "party/" (q_party q) then AtParty else AtPlayfab
  | AtParty => AtPlayfab
  | AtPlayfab | AtTail => AtTail
  end.
Definition section app (pc : Pc) (q : Call) k : option (Response * App) :=
  match pc with
  | AtCygames => (λ r, (r, app)) <$> handle_cygames (q_stripped q) app (q_headers q) (k_unix k)
  | AtParty => handle_party app (q_party_path q) (q_body q) (q_headers q) (k_unix k)
  | AtPlayfab => handle_playfab app (q_stripped q) (q_body q) (q_headers q) (k_unix k) (k_unix' k)
  | AtTail => Some (dispatch_tail app q k, app)
  end.

(** [dispatch], when no other thread takes the lock in between. *)
Definition dispatch app (q : Call) k : Response * App :=
  match section app AtCygames q k with
  | Some r => r
  | None =>
      match (if starts_with "party/" (q_party q) then section app AtParty q k else None) with
      | Some r => r
      | None =>
          match section app AtPlayfab q k with
          | Some r => r
          | None => (dispatch_tail app q k, app)
          end
      end
  end.

(** ** Concurrent requests *)

(** A connection thread: the next critical section of its request, or its response. *)
Inductive Thread := Running (pc : Pc) (q : Call) | Answered (r : Response).
Definition thread_step app (t : Thread) k : App * Thread :=
  match t with
  | Running pc q =>
      match section app pc q k with
      | Some (r, app') => (app', Answered r)
      | None => (app, Running (pc_next pc q) q)
      end
  | Answered r => (app, Answered r)
  end.

Definition start (qs : gmap nat Call) : gmap nat Thread := Running AtCygames <$> qs.

(** Run the threads under a schedule: which thread takes the lock next, at what time. *)
Fixpoint exec (sched : list (nat * Clock)) app (ts : gmap nat Thread) : App * gmap nat Thread :=
  match sched with
  | [] => (app, ts)
  | (i, k) :: sched =>
      match ts !! i with
      | None => exec sched app ts
      | Some t => let '(app', t') := thread_step app t k in exec sched app' (<[i := t']> ts)
      end
  end.

(** The sequential server: one request after the other, each handled by [dispatch]. *)
Fixpoint serve_in_order (qs : gmap nat Call) (order : list (nat * Clock)) app
    : App * gmap nat Response :=
  match order with
  | [] => (app, ∅)
  | (i, k) :: order =>
      match qs !! i with
      | None => serve_in_order qs order app
      | Some q =>
          let '(r, app') := dispatch app q k in
          let '(app'', rs) := serve_in_order qs order app' in (app'', <[i := r]> rs)
      end
  end.

(** ** The handlers decide on the path alone *)

Lemma section_None app pc q k app' k' :
  section app pc q k = None → section app' pc q k' = None.
Proof.
  destruct pc; cbn [section].
  - rewrite !fmap_None. unfold handle_cygames. cbv zeta.
    repeat (case_if; [done|]). done.
  - unfold handle_party. destruct (party_path _) as [p qs]. repeat (case_if; [done|]). done.
  - unfold handle_playfab. by case_match.
  - done.
Qed.

(** A thread reaches a section when the sections before it declined its request. *)
Definition reached (pc : Pc) (q : Call) : Prop :=
  let declined pc := ∀ app k, section app pc q k = None in
  let party_skipped := starts_with "party/" (q_party q) = true → declined AtParty in
  match pc with
  | AtCygames => True
  | AtParty => declined AtCygames ∧ starts_with "party/" (q_party q) = true
  | AtPlayfab => declined AtCygames ∧ party_skipped
  | AtTail => declined AtCygames ∧ party_skipped ∧ declined AtPlayfab
  end.

Lemma reached_next app pc q k : reached pc q → section app pc q k = None → reached (pc_next pc q) q.
Proof.
  intros Hr Hn.
  assert (Hd : ∀ app k, section app pc q k = None) by (intros; by eapply section_None).
  destruct pc; cbn [reached pc_next] in Hr |- *; [|split; [apply Hr|by intros _]|split_and!; [apply Hr|apply Hr|done]|done].
  case_if; [done|]. split; [done|]. by rewrite Heqb.
Qed.

(** The section that answers a request computes what [dispatch] would compute then and there. *)
Lemma dispatch_at app pc q k r : reached pc q → section app pc q k = Some r → dispatch app q k = r.
Proof.
  unfold dispatch. destruct pc; cbn [reached].
  - intros _ ->. done.
  - intros [-> ->] ->. done.
  - intros [-> Hp] ->. case_if; [by rewrite Hp|done].
  - intros (-> & Hp & ->) [= <-]. case_if; [by rewrite Hp|done].
Qed.

Lemma serve_in_order_dom qs order app i r :
  (serve_in_order qs order app).2 !! i = Some r → i ∈ order.*1.
Proof.
  revert app. induction order as [|[j k] order IH]; intros app; cbn [serve_in_order]; [done|].
  destruct (qs !! j) as [q|]; [|intros; right; eauto].
  destruct (dispatch app q k) as [r' app']. specialize (IH app').
  destruct (serve_in_order qs order app') as [app'' rs]. cbn [fst snd] in *.
  destruct (decide (i = j)) as [->|]; [by left|].
  rewrite lookup_insert_ne by done. intros. right. auto.
Qed.

(** [order] explains the run from [ts] to [ts']. *)
Definition explains qs order app app' (ts ts' : gmap nat Thread) : Prop :=
  (serve_in_order qs order app).1 = app' ∧
  ∀ i r, ts' !! i = Some (Answered r) ↔
    ts !! i = Some (Answered r) ∨ (serve_in_order qs order app).2 !! i = Some r.

Lemma exec_explained qs sched app ts :
  (∀ i pc q, ts !! i = Some (Running pc q) → qs !! i = Some q ∧ reached pc q) →
  ∃ order, order `sublist_of` sched ∧ NoDup order.*1 ∧
    (∀ i r, ts !! i = Some (Answered r) → i ∉ order.*1) ∧
    explains qs order app (exec sched app ts).1 ts (exec sched app ts).2.
Proof.
  revert app ts. induction sched as [|[i k] sched IH]; intros app ts Hts; simpl.
  { exists []. split_and!; [done|constructor|intros; apply not_elem_of_nil|].
    split; [done|]. intros i r. simpl. rewrite lookup_empty. split; [by left|by intros [?|?]]. }
  destruct (ts !! i) as [[pc q|r]|] eqn:Hi; simpl.
  - destruct (Hts _ _ _ Hi) as [Hq Hr]. destruct (section app pc q k) as [[r app']|] eqn:Hs.
    + destruct (IH app' (<[i := Answered r]> ts)) as (order & Hsub & Hnd & Hfr & Heq & Hrs).
      { intros j pc' q'. rewrite lookup_insert_Some. intros [[_ ?]|[_ ?]]; [done|eauto]. }
      assert (Hni : i ∉ order.*1) by (eapply (Hfr i r), lookup_insert_eq).
      exists ((i, k) :: order). split_and!; [by apply sublist_skip|by constructor| |].
      * intros j r' Hj. simpl. apply not_elem_of_cons. assert (j ≠ i) by congruence.
        split; [done|]. eapply (Hfr j r'). by rewrite lookup_insert_ne.
      * unfold explains. cbn [serve_in_order]. rewrite Hq, (dispatch_at _ _ _ _ _ Hr Hs).
        pose proof (serve_in_order_dom qs order app' i) as Hdom.
        destruct (serve_in_order qs order app') as [app'' rs]. cbn [fst snd] in *. split; [done|].
        intros j r'. rewrite Hrs. destruct (decide (j = i)) as [->|].
        -- rewrite !lookup_insert_eq, Hi. split.
           ++ intros [[= ->]|Hx]; [by right|]. by apply Hdom in Hx.
           ++ intros [?|[= ->]]; [done|by left].
        -- by rewrite !lookup_insert_ne by done.
    + destruct (IH app (<[i := Running (pc_next pc q) q]> ts)) as (order & Hsub & Hnd & Hfr & Heq & Hrs).
      { intros j pc' q'. rewrite lookup_insert_Some. intros [[<- [= <- <-]]|[_ ?]]; [|eauto].
        split; [done|]. by eapply reached_next. }
      exists order. split_and!; [by apply sublist_cons|done| |].
      * intros j r' Hj. apply (Hfr j r'). rewrite lookup_insert_ne; [done|congruence].
      * split; [done|]. intros j r'. rewrite Hrs. destruct (decide (j = i)) as [->|].
        -- rewrite lookup_insert_eq, Hi. by split; (intros [?|?]; [|right]).
        -- by rewrite lookup_insert_ne by done.
  - rewrite insert_id by done. destruct (IH app ts Hts) as (order & ? & ?). exists order.
    split; [by apply sublist_cons|done].
  - destruct (IH app ts Hts) as (order & ? & ?). exists order.
    split; [by apply sublist_cons|done].
Qed.

(** ** What no handler changes *)

Definition same_config app app' : Prop :=
  a_title_id app' = a_title_id app ∧ a_http_port app' = a_http_port app ∧
  a_ws_port app' = a_ws_port app ∧ a_max_players app' = a_max_players app ∧
  a_override_game_max app' = a_override_game_max app.

#[local] Instance same_config_preorder : PreOrder same_config.
Proof. split; [done|]. unfold same_config. intros ??? (?&?&?&?&?) (?&?&?&?&?). by split_and!; etrans. Qed.

Lemma request_player_config app body headers t :
  same_config app (request_player app body headers t).2 ∧
  a_party (request_player app body headers t).2 = a_party app.
Proof. unfold request_player, player_from_ticket. repeat case_match; done. Qed.

Lemma create_lobby_config app body player now1 now2 :
  same_config app (create_lobby app body player now1 now2).2 ∧
  a_party (create_lobby app body player now1 now2).2 = a_party app.
Proof.
  unfold create_lobby, drop_owner_lobbies. cbv zeta. destruct (create_member _ _). by case_match.
Qed.

Lemma run_route_config r app body headers now1 now2 :
  same_config app (run_route r app body headers now1 now2).2 ∧
  a_party (run_route r app body headers now1 now2).2 = a_party app.
Proof.
  destruct r; cbn [run_route]; try done.
  - unfold get_entity_token.
    pose proof (request_player_config app body headers (default "anonymous"%string (json_str body "SteamTicket"))).
    by destruct (request_player _ _ _ _).
  - unfold create_and_join_lobby. pose proof (request_player_config app body headers "anonymous") as [Hc Hp].
    destruct (request_player _ _ _ _) as [player app1]. cbn [snd] in *.
    pose proof (create_lobby_config app1 body player now1 now2) as [Hc1 Hp1].
    destruct (create_lobby _ _ _ _ _) as [id app2]. cbn [snd] in *.
    case_match; (split; [by etrans|cbn [snd]; congruence]).
  - unfold join_lobby. pose proof (request_player_config app body headers "anonymous") as [Hc Hp].
    destruct (request_player _ _ _ _) as [player app1]. cbn [snd] in *. cbv zeta. by repeat case_match.
  - unfold leave_lobby. cbv zeta. by repeat case_match.
  - unfold update_lobby. cbv zeta. by repeat case_match.
Qed.

Lemma handle_party_config app path body headers now r app' :
  handle_party app path body headers now = Some (r, app') →
  same_config app app' ∧ a_lobbies app' = a_lobbies app.
Proof.
  unfold handle_party. destruct (party_path path) as [p qs].
  case_if; [|case_if; [|case_if; [|case_if; [by intros [= _ <-]|done]]]].
  - unfold party_join. cbv zeta. by destruct (register _ _ _ _ _ _ _); intros [= _ <-].
  - unfold party_leave. cbv zeta. by repeat case_match; intros [= _ <-].
  - unfold party_peers. cbv zeta. by case_match; intros [= _ <-].
Qed.

(** The invariant of the shared state. *)
Definition app_wf app : Prop := lobbies_wf app ∧ party_wf app.

Lemma section_wf app pc q k r app' :
  app_wf app → section app pc q k = Some (r, app') → app_wf app' ∧ same_config app app'.
Proof.
  intros [Hl Hp]. destruct pc; cbn [section].
  - destruct (handle_cygames _ _ _ _); [|done]. by intros [= _ <-].
  - intros Hs. pose proof (handle_party_config _ _ _ _ _ _ _ Hs) as [Hc He].
    split; [split|done]; [|by eapply handle_party_wf].
    intros k' l. rewrite He. unfold connection_of. destruct Hc as (-> & _). apply Hl.
  - unfold handle_playfab. destruct (playfab_route _) as [rt|]; [|done]. intros Hr. injection Hr as Hr.
    pose proof (run_route_config rt app (q_body q) (q_headers q) (k_unix k) (k_unix' k)) as [Hc He].
    pose proof (run_route_wf rt app (q_body q) (q_headers q) (k_unix k) (k_unix' k) Hl) as Hl'.
    rewrite Hr in Hc, He, Hl'. cbn [snd] in *. split; [split; [done|]|done].
    intros nid net. rewrite He. unfold configured_mesh_cap.
    destruct Hc as (_ & _ & _ & -> & _). apply Hp.
  - by intros [= _ <-].
Qed.

Lemma exec_wf sched app ts :
  app_wf app → app_wf (exec sched app ts).1 ∧ same_config app (exec sched app ts).1.
Proof.
  revert app ts. induction sched as [|[i k] sched IH]; intros app ts Hw; cbn [exec]; [done|].
  destruct (ts !! i) as [[pc q|r]|]; cbn [thread_step]; [|by apply IH..].
  destruct (section app pc q k) as [[r app']|] eqn:Hs; [|by apply IH].
  destruct (section_wf _ _ _ _ _ _ Hw Hs) as [Hw' Hc]. destruct (IH app' (<[i := Answered r]> ts) Hw').
  split; [done|]. by etrans.
Qed.

(** ** Every request is answered *)

Definition sections_left (t : Thread) : nat :=
  match t with
  | Running AtCygames _ => 4 | Running AtParty _ => 3
  | Running AtPlayfab _ => 2 | Running AtTail _ => 1 | Answered _ => 0
  end.
(** How often thread [i] gets the lock in a schedule. *)
Definition turns (i : nat) (sched : list (nat * Clock)) : nat :=
  length (filter (λ e, e.1 = i) sched).

Lemma exec_answers sched app ts i t :
  ts !! i = Some t → (sections_left t ≤ turns i sched)%nat →
  ∃ r, (exec sched app ts).2 !! i = Some (Answered r).
Proof.
  revert app ts t. induction sched as [|[j k] sched IH]; intros app ts t Ht Hs; cbn [exec].
  { destruct t as [[]|r]; cbn in Hs; [lia..|]. by exists r. }
  unfold turns in Hs. rewrite filter_cons in Hs. cbn [fst] in Hs.
  destruct (decide (j = i)) as [->|Hne].
  - rewrite Ht. destruct (thread_step app t k) as [app' t'] eqn:Hst.
    apply (IH app' _ t'); [apply lookup_insert_eq|]. cbn [length] in Hs. fold (turns i sched) in Hs.
    unfold thread_step in Hst. destruct t as [pc q|r]; [|by injection Hst as _ <-; cbn in *; lia].
    destruct (section app pc q k) as [[r' app1]|] eqn:Hsec; injection Hst as _ <-; [cbn; lia|].
    destruct pc; cbn [pc_next sections_left] in *; [case_if; cbn; lia|lia|lia|done].
  - destruct (ts !! j) as [tj|]; [|by eapply IH]. destruct (thread_step app tj k) as [app' t'].
    apply (IH app' _ t); [by rewrite lookup_insert_ne|done].
Qed.

(** The state [main] starts the listeners with. *)
Definition initial_app (title : string) (http_port ws_port max : Z) (override_game_max : bool) : App :=
  mkApp title http_port ws_port max override_game_max ∅ ∅ ∅.

(** ** Properties *)

(** The broker is linearizable. However the critical sections of any number of concurrent
    requests interleave, there is an order of the requests that are answered by then, each of
    them once and at one of its own turns of the schedule, such that handling them one after the
    other with [dispatch] leaves the same shared state and gives each the same response. *)
Theorem dispatch_linearizable qs sched app :
  ∃ order, order `sublist_of` sched ∧ NoDup order.*1 ∧
    (serve_in_order qs order app).1 = (exec sched app (start qs)).1 ∧
    ∀ i r, (exec sched app (start qs)).2 !! i = Some (Answered r) ↔
           (serve_in_order qs order app).2 !! i = Some r.
Proof.
  destruct (exec_explained qs sched app (start qs)) as (order & Hs & Hn & _ & He & Hr).
  - intros i pc q. unfold start. rewrite lookup_fmap. destruct (qs !! i); [|done]. by intros [= <- <-].
  - exists order. split_and!; [done..|]. intros i r. rewrite Hr. unfold start. rewrite lookup_fmap.
    destruct (qs !! i); split; (intros [?|?] || intros ?); try done; by right.
Qed.

(** C8: whatever requests arrive and however they interleave, from the state the server starts
    with: every lobby keeps its identifier and its connection string, at least one member, no two
    members with one identifier, at most its maximum of members, and a maximum within 2..32;
    every party network has at most the configured number of members, each registered under its
    own identifier; and the configuration never changes. *)
Theorem broker_invariant title http_port ws_port max override_game_max qs sched :
  let app0 := initial_app title http_port ws_port max override_game_max in
  let app := (exec sched app0 (start qs)).1 in
  lobbies_wf app ∧ party_wf app ∧ same_config app0 app.
Proof.
  cbv zeta. destruct (exec_wf sched (initial_app title http_port ws_port max override_game_max) (start qs))
    as [[Hl Hp] Hc]; [|by split_and!].
  split; intros k x; cbn [initial_app a_lobbies a_party]; by rewrite lookup_empty.
Qed.

(** no request waits for another one: in any interleaving, a request is answered by the
    fourth time its thread gets the lock. *)
Theorem request_answered qs sched app i q :
  qs !! i = Some q → (4 ≤ turns i sched)%nat →
  ∃ r, (exec sched app (start qs)).2 !! i = Some (Answered r).
Proof.
  intros Hq Ht. apply (exec_answers _ _ _ _ (Running AtCygames q)); [|done].
  unfold start. by rewrite lookup_fmap, Hq.
Qed.
End broker.

(** ** Witnesses *)

Definition demo_clock : Clock := mkClock (f64_of_Z 10) (f64_of_Z 11) 10 11.

Definition demo_request : Call := mkCall "GET" "/v1/api/party/unknown" ∅ VNull.
Definition demo_requests : gmap nat Call :=
  {[0%nat := demo_request; 1%nat := mkCall "POST" "/Lobby/LeaveLobby" ∅ leave_body]}.
Definition demo_sched : list (nat * Clock) :=
  map (λ i, (i, demo_clock)) [0%nat; 1%nat; 0%nat; 1%nat; 0%nat; 0%nat].

Lemma request_answered_witness :
  ∃ r, (exec demo_sched demo_app (start demo_requests)).2 !! 0%nat = Some (Answered r).
Proof.
  refine (request_answered demo_requests demo_sched demo_app 0%nat demo_request _ _).
  - apply lookup_insert_eq.
  - apply le_n.
Defined.
