(* ===== verification/Http.v ===== *)
(** * HTTP framing and the client: [common/http.rs]

    Reading from a socket is a run of [Read::read] results: the chunks it
    returns, in order, then an end that every later read repeats.  A chunk that
    is empty is a read of zero bytes, which the code takes as the end of the
    stream.  The searching and splitting of heads is shared with the server
    ([Server.v]). *)

From S2P Require Import Prelude RustStr.
#[local] Open Scope Z_scope.

Definition CR : byte := x0d.
Definition LF : byte := x0a.
Definition CRLF : list byte := [CR; LF].
Definition HEAD_END : list byte := [CR; LF; CR; LF].

(** [windows(n).position(|w| w == p)] for a non-empty [p]. *)
Fixpoint find_sub (p l : list byte) : option nat :=
  match strip_prefix_b p l with
  | Some _ => Some 0%nat
  | None => match l with [] => None | _ :: l => S <$> find_sub p l end
  end.

(** What a reader does after its last chunk. *)
Inductive ReadEnd := Eof | TimedOut | Failed.

(** ** The client *)

Inductive HttpError := Connect | Write | NoHead | TooLargeResponse.
Record HttpResponse := mkHttpResponse { hr_status : Z; hr_body : string }.

Definition MAX_RESPONSE_BYTES : Z := 4 * 1024 * 1024.

(** The accumulation loop of [read_response]; [None] is [TooLarge]. *)
Fixpoint collect (max_bytes : Z) (buf : list byte) (chunks : list (list byte)) : option (list byte) :=
  match chunks with
  | [] | [] :: _ => Some buf
  | c :: chunks =>
      if max_bytes <? Z.of_nat (length buf) + Z.of_nat (length c) then None
      else collect max_bytes (buf ++ c) chunks
  end.

Definition parse_response (buf : list byte) : result HttpResponse HttpError :=
  match find_sub HEAD_END buf with
  | None => Err NoHead
  | Some idx =>
      let head := from_utf8_lossy (take idx buf) in
      Ok (mkHttpResponse (default 0 (split_whitespace head !! 1%nat ≫= parse_u16))
            (from_utf8_lossy (drop (idx + 4) buf)))
  end.

Definition read_response (max_bytes : Z) (chunks : list (list byte)) (fin : ReadEnd)
    : result HttpResponse HttpError :=
  match collect max_bytes [] chunks with
  | None => Err TooLargeResponse
  | Some buf => parse_response buf
  end.

(** The header lines of a request, without their terminators, and its bytes. *)
Definition request_head (host : string) (port : Z) (method path body : string) (auth : option string)
    : list (list byte) :=
  let auth := match auth with
    | Some a => if bool_decide (a = ""%string) then [] else [sbytes a]
    | None => []
    end in
  [sbytes (method +:+ " " +:+ path +:+ " HTTP/1.1");
   sbytes ("Host: " +:+ host +:+ ":" +:+ fmt_dec port);
   sbytes "Content-Type: application/json"] ++ auth ++
  [sbytes ("Content-Length: " +:+ fmt_dec (Z.of_nat (length (sbytes body))));
   sbytes "Connection: close"].
Definition request_bytes (host : string) (port : Z) (method path body : string) (auth : option string)
    : list byte :=
  concat (map (λ l, l ++ CRLF) (request_head host port method path body auth)) ++ CRLF ++ sbytes body.

(** [request_capped]: [connect] tells whether the broker was reached, [write_ok] whether the
    request was written, [chunks] and [fin] what was read back. *)
Definition request_capped (connect write_ok : bool) (max_bytes : Z)
    (chunks : list (list byte)) (fin : ReadEnd) : result HttpResponse HttpError :=
  if negb connect then Err Connect
  else if negb write_ok then Err Write
  else read_response max_bytes chunks fin.
Definition request (connect write_ok : bool) (chunks : list (list byte)) (fin : ReadEnd)
    : result HttpResponse HttpError :=
  request_capped connect write_ok MAX_RESPONSE_BYTES chunks fin.

(** What the outside does in one exchange: whether the broker was reached and the request written,
    and what was read back; and the exchange. *)
Record Reply := mkReply {
  rp_connected : bool;
  rp_written : bool;
  rp_chunks : list (list byte);
  rp_end : ReadEnd;
}.
Definition exchange (r : Reply) : result HttpResponse HttpError :=
  request (rp_connected r) (rp_written r) (rp_chunks r) (rp_end r).

(** ** Searching *)

Lemma strip_prefix_b_app p l k r : strip_prefix_b p l = Some r → strip_prefix_b p (l ++ k) = Some (r ++ k).
Proof. rewrite !strip_prefix_b_Some. intros ->. by rewrite app_assoc. Qed.

Lemma strip_prefix_b_long p l k r :
  strip_prefix_b p (l ++ k) = Some r → (length p ≤ length l)%nat → is_Some (strip_prefix_b p l).
Proof.
  intros Hp%strip_prefix_b_Some Hl. exists (drop (length p) l). apply strip_prefix_b_Some.
  apply (f_equal (take (length p))) in Hp. rewrite take_app_length, take_app_le in Hp by done.
  rewrite <- Hp at 1. by rewrite take_drop.
Qed.

Lemma find_sub_length p l i : find_sub p l = Some i → (i + length p ≤ length l)%nat.
Proof.
  revert i. induction l as [|b l IH]; intros i; cbn [find_sub];
    destruct (strip_prefix_b p _) as [r|] eqn:Hp; try done.
  1,2: intros [= <-]; apply strip_prefix_b_Some in Hp; rewrite Hp, length_app; lia.
  destruct (find_sub p l) as [j|]; [|done]. intros [= <-]. specialize (IH j eq_refl). cbn [length]. lia.
Qed.

(** The first occurrence stays the first one when the buffer grows. *)
Lemma find_sub_app p l k i : find_sub p l = Some i → find_sub p (l ++ k) = Some i.
Proof.
  revert i. induction l as [|b l IH]; intros i; cbn [find_sub app].
  - destruct (strip_prefix_b p []) eqn:Hp; [|done]. intros [= <-].
    pose proof (strip_prefix_b_app p [] k _ Hp) as Hp'. cbn [app] in Hp'.
    destruct k; cbn [find_sub]; by rewrite Hp'.
  - destruct (strip_prefix_b p (b :: l)) eqn:Hp.
    + intros [= <-]. pose proof (strip_prefix_b_app p (b :: l) k _ Hp) as Hp'.
      cbn [app] in Hp'. by rewrite Hp'.
    + destruct (find_sub p l) as [j|] eqn:Hj; [|done]. intros [= <-].
      destruct (strip_prefix_b p (b :: l ++ k)) as [r|] eqn:Hp'; [|by rewrite (IH j eq_refl)].
      apply find_sub_length in Hj.
      destruct (strip_prefix_b_long p (b :: l) k r Hp') as [? ?]; [cbn [length]; lia|congruence].
Qed.

(** An occurrence that the buffer already contains in full has been found. *)
Lemma find_sub_cut p l k i :
  find_sub p (l ++ k) = Some i → find_sub p l = if decide (i + length p ≤ length l)%nat then Some i else None.
Proof.
  intros Hf. destruct (find_sub p l) as [j|] eqn:Hj.
  - pose proof (find_sub_app p l k j Hj) as Hj'. assert (i = j) as -> by congruence.
    apply find_sub_length in Hj. by rewrite decide_True.
  - rewrite decide_False; [done|]. revert i Hf Hj. induction l as [|b l IH]; intros i Hf Hj Hl.
    + destruct p; [|cbn [length] in Hl; lia]. by destruct k.
    + cbn [app find_sub] in Hf, Hj. destruct (strip_prefix_b p (b :: l)) eqn:Hp; [done|].
      destruct (find_sub p l) eqn:Hfl; [done|].
      destruct (strip_prefix_b p (b :: l ++ k)) as [r|] eqn:Hp'.
      * injection Hf as <-. destruct (strip_prefix_b_long p (b :: l) k r Hp') as [? ?]; [cbn [length] in *; lia|congruence].
      * destruct (find_sub p (l ++ k)) as [j|]; [|done]. injection Hf as <-.
        apply (IH j); [done|done|cbn [length] in Hl; lia].
Qed.

Lemma find_sub_split p l i : find_sub p l = Some i → l = take i l ++ p ++ drop (i + length p) l.
Proof.
  revert i. induction l as [|b l IH]; intros i; cbn [find_sub];
    destruct (strip_prefix_b p _) as [r|] eqn:Hp; try done.
  1,2: intros [= <-]; apply strip_prefix_b_Some in Hp; rewrite Hp; cbn [take app Nat.add]; by rewrite drop_app_length.
  destruct (find_sub p l) as [j|]; [|done]. intros [= <-].
  cbn [take app drop Nat.add]. f_equal. by apply IH.
Qed.

(** *** Heads made of lines *)

(** A head line: not empty, without CR or LF. *)
Definition head_line (l : list byte) : Prop := l ≠ [] ∧ (CR ∉ l) ∧ (LF ∉ l).

Lemma find_head_skip c l : c ≠ CR → find_sub HEAD_END (c :: l) = S <$> find_sub HEAD_END l.
Proof.
  intros Hc. cbn [find_sub strip_prefix_b HEAD_END]. destruct (byte_eqb CR c) eqn:Hb; [|done].
  by apply byte_eqb_eq in Hb.
Qed.

Lemma find_head_line l rest :
  CR ∉ l → find_sub HEAD_END (l ++ rest) = Nat.add (length l) <$> find_sub HEAD_END rest.
Proof.
  induction l as [|c l IH]; intros Hl; cbn [app length].
  - by destruct (find_sub HEAD_END rest).
  - apply not_elem_of_cons in Hl as [Hc Hl]. rewrite find_head_skip, IH by done.
    by destruct (find_sub HEAD_END rest).
Qed.

Lemma find_head_crlf c rest :
  c ≠ CR → find_sub HEAD_END (CRLF ++ c :: rest) = (λ i, S (S i)) <$> find_sub HEAD_END (c :: rest).
Proof.
  intros Hc. change (CRLF ++ c :: rest) with (CR :: LF :: c :: rest).
  cbn [find_sub]. assert (strip_prefix_b HEAD_END (CR :: LF :: c :: rest) = None) as ->.
  { cbn [strip_prefix_b HEAD_END]. rewrite !byte_eqb_refl.
    destruct (byte_eqb CR c) eqn:Hb; [by apply byte_eqb_eq in Hb|done]. }
  change (strip_prefix_b HEAD_END (LF :: c :: rest)) with (@None (list byte)). cbv iota.
  by destruct (match strip_prefix_b HEAD_END (c :: rest) with Some _ => _ | None => _ end).
Qed.

(** The terminator of a head of lines is found right after its last line. *)
Lemma find_head_end ls rest :
  ls ≠ [] → Forall head_line ls →
  find_sub HEAD_END (concat (map (λ l, l ++ CRLF) ls) ++ CRLF ++ rest) =
    Some (length (concat (map (λ l, l ++ CRLF) ls)) - 2)%nat.
Proof.
  intros Hne Hls. induction Hls as [|l ls (Hl & Hcr & Hlf) Hls IH]; [done|].
  cbn [map concat]. rewrite <- !app_assoc, find_head_line by done.
  destruct ls as [|l' ls].
  - cbn [map concat app]. rewrite app_nil_r.
    change (CRLF ++ CRLF ++ rest) with (HEAD_END ++ rest).
    assert (find_sub HEAD_END (HEAD_END ++ rest) = Some 0%nat) as -> by done.
    cbn [fmap option_fmap option_map]. f_equal. rewrite length_app. cbn [length CRLF]. lia.
  - specialize (IH ltac:(done)). inversion Hls as [|?? (Hl' & Hcr' & _) _]; subst.
    assert (Hlen : (length (concat (map (λ l, l ++ CRLF) (l' :: ls))) ≥ 2)%nat).
    { cbn [map concat]. rewrite !length_app. cbn [length CRLF]. lia. }
    revert IH. set (t := concat (map _ (l' :: ls))) in *.
    assert (∃ c k, t = c :: k ∧ c ≠ CR) as (c & k & Ht & Hc).
    { unfold t. cbn [map concat]. destruct l' as [|c k]; [done|]. exists c. eexists. split; [done|].
      by apply not_elem_of_cons in Hcr' as [? _]. }
    rewrite Ht. cbn [app]. intros IH. rewrite find_head_crlf, IH by done.
    cbn [fmap option_fmap option_map]. f_equal. rewrite !length_app. rewrite <- Ht. cbn [length CRLF]. lia.
Qed.

(** Splitting such a head at LF gives its lines back, all but the last with their CR. *)
Lemma split_head ls l :
  Forall head_line ls → head_line l →
  split_b LF (concat (map (λ l, l ++ CRLF) ls) ++ l) = map (λ l, l ++ [CR]) ls ++ [l].
Proof.
  intros Hls Hl. induction Hls as [|l' ls (Hne & Hcr & Hlf) Hls IH]; cbn [map concat app].
  - apply split_b_none, Hl.
  - replace (l' ++ CRLF) with ((l' ++ [CR]) ++ [LF]) by (by rewrite <- app_assoc).
    rewrite <- (app_assoc _ _ l), <- (app_assoc (l' ++ [CR]) [LF]). cbn [app].
    rewrite split_b_app; [by rewrite IH|].
    rewrite elem_of_app, list_elem_of_singleton. by intros [?|?].
Qed.

(** *** Words *)

(** A non-empty text without white space. *)
Definition word (l : list byte) : Prop :=
  l ≠ [] ∧ utf8_valid l = true ∧ Forall (λ c, is_white_space (code_point c) = false) (chars l).

Lemma chars_ascii b l : bz b < 128 → chars (b :: l) = [b] :: chars l.
Proof.
  intros Hb. change (b :: l) with ([b] ++ l). pose proof (is_char_ascii b Hb) as Hc.
  rewrite chars_app by (by apply utf8_valid_char). unfold chars at 1. by rewrite utf8_chunks_char.
Qed.

Lemma words_step cur cs w rest :
  Forall (λ c, is_white_space (code_point c) = false) cs → cur ≠ [] ∨ cs ≠ [] →
  is_white_space (code_point w) = true →
  words cur (cs ++ w :: rest) = (rev cur ++ cs) :: words [] rest.
Proof.
  intros Hcs Hne Hw. revert cur Hne. induction Hcs as [|c cs Hc Hcs IH]; intros cur Hne; cbn [app words].
  - rewrite Hw, app_nil_r. by destruct cur, Hne.
  - rewrite Hc, IH by (by left). cbn [rev]. by rewrite <- app_assoc.
Qed.

Lemma split_whitespace_word l w rest :
  word l → bz w < 128 → is_white_space (bz w) = true →
  split_whitespace_b (l ++ w :: rest) = l :: split_whitespace_b rest.
Proof.
  intros (Hne & Hv & Hws) Hw Hs. unfold split_whitespace_b.
  rewrite chars_app, chars_ascii, words_step by (try done; right; intros Hc; apply Hne;
    rewrite <- (concat_chars l), Hc; done).
  cbn [map rev app]. by rewrite concat_chars.
Qed.

Lemma word_ascii l :
  l ≠ [] → forallb (λ b, (bz b <? 128) && negb (is_white_space (bz b))) l = true → word l.
Proof.
  intros Hne Hl. split_and!; [done| |].
  - apply utf8_valid_ascii, forallb_forall. intros b Hb.
    apply (proj1 (forallb_forall _ _) Hl) in Hb. by apply andb_true_iff in Hb as [? _].
  - clear Hne. induction l as [|b l IH]; [by constructor|]. cbn [forallb] in Hl.
    apply andb_true_iff in Hl as [[Hb Hw]%andb_true_iff Hl].
    rewrite chars_ascii by (by apply Z.ltb_lt). constructor; [|by apply IH].
    cbn. by apply negb_true_iff.
Qed.

Lemma is_digit_range b : is_ascii_digit b = true → 48 <= bz b <= 57.
Proof. unfold is_ascii_digit, byte_in. intros [? ?]%andb_true_iff. bool_props. lia. Qed.

Lemma digit_text (P : byte → bool) n :
  0 <= n → (∀ b, 48 <= bz b <= 57 → P b = true) → forallb P (sbytes (fmt_dec n)) = true.
Proof.
  intros Hn HP. destruct (fmt_dec_digits n Hn) as (_ & Hd & _).
  apply forallb_forall. intros b Hb. apply HP, is_digit_range.
  apply (proj1 (Forall_forall _ _) Hd). by apply list_elem_of_In.
Qed.

Lemma word_fmt_dec n : 0 <= n → word (sbytes (fmt_dec n)).
Proof.
  intros Hn. apply word_ascii; [by apply fmt_dec_digits|]. apply digit_text; [done|].
  intros b Hb. unfold is_white_space. apply andb_true_iff. split; [apply Z.ltb_lt; lia|].
  apply negb_true_iff. repeat (apply orb_false_iff; split); try (apply Z.eqb_neq; lia);
    apply andb_false_iff; rewrite !Z.leb_gt; lia.
Qed.

(** No CR, no LF. *)
Definition one_line (l : list byte) : Prop := (CR ∉ l) ∧ (LF ∉ l).

Lemma one_line_app l k : one_line l → one_line k → one_line (l ++ k).
Proof. unfold one_line. rewrite !elem_of_app. intros [??] [??]. by split; intros [?|?]. Qed.

Lemma one_line_forallb l : forallb (λ b, negb (byte_eqb b CR) && negb (byte_eqb b LF)) l = true → one_line l.
Proof.
  intros Hl. rewrite forallb_forall in Hl.
  split; intros Hin%list_elem_of_In%Hl; rewrite byte_eqb_refl in Hin; [done|].
  by rewrite andb_false_r in Hin.
Qed.

Lemma word_not_in b l : word l → bz b < 128 → is_white_space (bz b) = true → b ∉ l.
Proof.
  intros (_ & Hv & Hws) Hb Hs Hin. rewrite <- (concat_chars l) in Hin.
  apply chars_valid in Hv. apply list_elem_of_In, in_concat in Hin as (c & Hc & Hin).
  apply list_elem_of_In in Hc, Hin. rewrite Forall_forall in Hv, Hws.
  pose proof (Hv c Hc) as Hch. pose proof (Hws c Hc) as Hw. destruct c as [|b0 r]; [by inversion Hin|].
  apply is_char_bytes in Hch as (_ & Hr & H1). apply elem_of_cons in Hin as [->|Hin].
  - rewrite H1 in Hw by done. cbn in Hw. congruence.
  - rewrite Forall_forall in Hr. apply Hr in Hin. unfold is_cont, byte_in in Hin.
    apply andb_true_iff in Hin as [Hlo _]. bool_props. lia.
Qed.

Lemma one_line_fmt_dec n : 0 <= n → one_line (sbytes (fmt_dec n)).
Proof.
  intros Hn. apply one_line_forallb, digit_text; [done|]. intros b Hb.
  apply andb_true_iff. split; apply negb_true_iff; (destruct (byte_eqb _ _) eqn:He; [|done]);
    apply byte_eqb_eq, (f_equal bz) in He; [change (bz CR) with 13 in He|change (bz LF) with 10 in He]; lia.
Qed.

(** [not_in_constant]: a byte is not in a concrete list. *)
Ltac not_in_constant := refine (bool_decide_eq_true_1 _ _); vm_compute; reflexivity.

Lemma drop_ws_id cs :
  Forall (λ c, is_white_space (code_point c) = false) cs → drop_ws cs = cs.
Proof. destruct 1 as [|c cs Hc _]; [done|]. cbn [drop_ws]. by rewrite Hc. Qed.

Lemma trim_word l : word l → trim (bstr (x20 :: l)) = bstr l.
Proof.
  intros (Hne & Hv & Hws). unfold trim, trim_b. rewrite sbytes_bstr, chars_ascii by done.
  cbn [drop_ws]. change (is_white_space (code_point [x20])) with true. cbv iota.
  rewrite (drop_ws_id (chars l)), drop_ws_id, rev_involutive, concat_chars; [done|by apply Forall_rev|done].
Qed.

Lemma trim_word_r l : word l → trim (bstr (l ++ [x20])) = bstr l.
Proof.
  intros (Hne & Hv & Hws). unfold trim, trim_b.
  rewrite sbytes_bstr, chars_app by done. change (chars [x20]) with [[x20]].
  assert (Hc : chars l ≠ []) by (intros Hc; apply Hne; by rewrite <- (concat_chars l), Hc).
  assert (Hd : drop_ws (chars l ++ [[x20]]) = chars l ++ [[x20]]).
  { destruct Hws as [|c cs Hw _]; [done|]. cbn [app drop_ws]. by rewrite Hw. }
  rewrite Hd, rev_app_distr. cbn [rev app drop_ws].
  change (is_white_space (code_point [x20])) with true. cbv iota.
  rewrite drop_ws_id, rev_involutive, concat_chars; [done|by apply Forall_rev].
Qed.

(** A text between two words is trimmed already. *)
Lemma trim_words a m z :
  word a → utf8_valid m = true → word z → trim (bstr (a ++ m ++ z)) = bstr (a ++ m ++ z).
Proof.
  intros (Hane & Hav & Haw) Hm (Hzne & Hzv & Hzw). unfold trim, trim_b. rewrite sbytes_bstr, !chars_app by done.
  assert (Hc : ∀ l, l ≠ [] → chars l ≠ []) by (intros l Hl Hc; apply Hl; by rewrite <- (concat_chars l), Hc).
  apply Hc in Hane, Hzne.
  assert (Hd : ∀ cs r, cs ≠ [] → Forall (λ c, is_white_space (code_point c) = false) cs → drop_ws (cs ++ r) = cs ++ r).
  { intros cs r Hcs Hw. destruct Hw as [|c cs' Hw _]; [by destruct Hcs|]. cbn [app drop_ws]. by rewrite Hw. }
  rewrite Hd, !rev_app_distr, <- app_assoc, Hd; [..|done|done].
  - rewrite app_assoc, <- !rev_app_distr, rev_involutive, !concat_app, !concat_chars. done.
  - intros Hr. apply Hzne. by rewrite <- (rev_involutive (chars z)), Hr.
  - by apply Forall_rev.
Qed.
