(* ===== verification/LanCfg.v ===== *)
(** * Configuration: [common/lan_cfg.rs], and [load_lobby_ini] and the arguments of
    [lan-server/src/main.rs]

    Which ini file is read, from the files of the machine; what its text and the
    environment variables make of the configuration, loaded once; the broker's
    initial state, which is what [main] makes of them. *)

From S2P Require Import Prelude RustStr F64 Value LobbyFilter App Playfab Party Broker Http.
#[local] Open Scope Z_scope.

Record LanCfg := mkLanCfg {
  host : string;
  port : Z;
  ws_port : Z;
  advertise_ip : option string;
  udp_port : Z;
  debug : bool;
}.

Definition origin (c : LanCfg) : string := "http://" +:+ host c +:+ ":" +:+ fmt_dec (port c).
Definition host_port (c : LanCfg) : string := host c +:+ ":" +:+ fmt_dec (port c).
Definition ws_url (c : LanCfg) : string := "ws://" +:+ host c +:+ ":" +:+ fmt_dec (ws_port c) +:+ "/".

(** Ini and environment booleans. *)
Definition parse_bool (v : string) : option bool :=
  let v := to_ascii_lowercase (trim v) in
  if bool_decide (v ∈ ["1"; "true"; "yes"; "on"]%string) then Some true
  else if bool_decide (v ∈ ["0"; "false"; "no"; "off"]%string) then Some false
  else None.

(** ** Ini files *)

(** One line without its comment: a section, a key and its value, or nothing. *)
Inductive IniLine := IniSection (name : string) | IniField (k v : string) | IniNothing.

Definition ini_line (line : string) : IniLine :=
  let line := trim (default ""%string (head (split_str x3b line))) in
  if bool_decide (line = ""%string) then IniNothing
  else if starts_with "[" line && ends_with "]" line
  then IniSection (to_ascii_lowercase (trim (bstr (slice 1 (String.length line - 2) (sbytes line)))))
  else match split_once x3d line with
       | Some (k, v) => IniField (to_ascii_lowercase (trim k)) (trim v)
       | None => IniNothing
       end.

(** Run [step] over the fields of a text, each with the section it is in. *)
Definition ini_fold {A} (step : string → string → string → A → A) (text : string) (init : A) : A :=
  (foldl (λ '(section, a) line,
     match ini_line line with
     | IniSection s => (s, a)
     | IniField k v => (section, step section k v a)
     | IniNothing => (section, a)
     end) (""%string, init) (lines text)).2.

Definition set_host (h : string) (c : LanCfg) : LanCfg :=
  mkLanCfg h (port c) (ws_port c) (advertise_ip c) (udp_port c) (debug c).
Definition set_port (p : Z) (c : LanCfg) : LanCfg :=
  mkLanCfg (host c) p (ws_port c) (advertise_ip c) (udp_port c) (debug c).
Definition set_debug (b : bool) (c : LanCfg) : LanCfg :=
  mkLanCfg (host c) (port c) (ws_port c) (advertise_ip c) (udp_port c) b.

Definition default_cfg : LanCfg := mkLanCfg "127.0.0.1" 8080 8081 None 0 false.

(** The [match] on section and key of [load_lan_cfg]. *)
Definition cfg_field (section k v : string) (c : LanCfg) : LanCfg :=
  let field s k' := bool_decide (section = s) && bool_decide (k = k') in
  if field "server" "host" then set_host v c
  else if field "server" "port" then set_port (default (port c) (parse_u16 v)) c
  else if field "server" "ws_port" then
    mkLanCfg (host c) (port c) (default (ws_port c) (parse_u16 v)) (advertise_ip c) (udp_port c) (debug c)
  else if field "party" "advertise_ip" then
    if bool_decide (v = ""%string) then c
    else mkLanCfg (host c) (port c) (ws_port c) (Some v) (udp_port c) (debug c)
  else if field "party" "udp_port" then
    mkLanCfg (host c) (port c) (ws_port c) (advertise_ip c) (default (udp_port c) (parse_u16 v)) (debug c)
  else if field "debug" "enabled" || bool_decide (k = "debug"%string) then
    set_debug (default (debug c) (parse_bool v)) c
  else c.

(** [GBFR_LAN_DEBUG] and [GBFR_LAN_STUB]. *)
Definition apply_debug_env (raw : option string) (c : LanCfg) : LanCfg :=
  match raw ≫= parse_bool with Some b => set_debug b c | None => c end.
Definition apply_stub_env (raw : option string) (c : LanCfg) : LanCfg :=
  match raw with
  | None => c
  | Some raw =>
      let raw := trim raw in
      match rsplit_once x3a raw with
      | Some (h, p) =>
          let c := if bool_decide (h = ""%string) then c else set_host h c in
          match parse_u16 p with Some n => set_port n c | None => c end
      | None => if bool_decide (raw = ""%string) then c else set_host raw c
      end
  end.

Definition load_lan_cfg (ini debug_env stub_env : option string) : LanCfg :=
  let c := match ini with Some text => ini_fold cfg_field text default_cfg | None => default_cfg end in
  apply_stub_env stub_env (apply_debug_env debug_env c).

(** *** Which file is read *)

(** The files that can be read, by path; the environment; the directory of the executable and the
    working directory, where they are known. *)
Record Machine := mkMachine {
  read_to_string : string → option string;
  env_var : string → option string;
  exe_parent : option string;
  current_dir : option string
}.

(** [Path::join] of a relative name on Windows: a separator unless there is one, or nothing but a
    drive before it. *)
Definition path_join (dir name : string) : string :=
  if bool_decide (dir = ""%string) || ends_with "\" dir || ends_with "/" dir
     || ((length (sbytes dir) =? 2)%nat && ends_with ":" dir)
  then dir +:+ name else dir +:+ "\" +:+ name.

Definition lan_ini_dirs (m : Machine) : list string :=
  match exe_parent m with Some d => [d] | None => [] end ++
  match current_dir m with Some d => [d] | None => [] end.

Definition read_lan_ini (m : Machine) : option string :=
  match env_var m "GBFR_LAN_INI" ≫= read_to_string m with
  | Some s => Some s
  | None => find_map (λ d, read_to_string m (path_join d "lan.ini")) (lan_ini_dirs m)
  end.

Definition load_on (m : Machine) : LanCfg :=
  load_lan_cfg (read_lan_ini m) (env_var m "GBFR_LAN_DEBUG") (env_var m "GBFR_LAN_STUB").

(** The cells of [lan_cfg] and [debug_enabled], which the first call fills. *)
Definition lan_cfg (m : Machine) (cell : option LanCfg) : LanCfg * option LanCfg :=
  match cell with
  | Some c => (c, cell)
  | None => (load_on m, Some (load_on m))
  end.
Definition debug_enabled (m : Machine) (cells : option bool * option LanCfg) : bool * (option bool * option LanCfg) :=
  match cells.1 with
  | Some d => (d, cells)
  | None => let '(c, cell) := lan_cfg m cells.2 in (debug c, (Some (debug c), cell))
  end.

Definition rewrite_http_url_to_stub (c : LanCfg) (url : string) : string :=
  let lower := to_ascii_lowercase url in
  if negb (starts_with "http://" lower || starts_with "https://" lower) then url
  else
    let rest := match find_sub (sbytes "://") (sbytes url) with
      | Some i => bstr (drop (i + 3) (sbytes url))
      | None => ""%string
      end in
    origin c +:+ match split_once x2f rest with Some (_, p) => "/" +:+ p | None => "/"%string end.

(** ** The lobby section and the broker's initial state *)

Definition lobby_field (section k v : string) (s : Z * bool) : Z * bool :=
  if negb (bool_decide (section = "lobby"%string)) then s
  else if bool_decide (k = "max_players"%string) then (default s.1 (parse_i64 v), s.2)
  else if bool_decide (k = "override_game_max"%string) then
    (s.1, bool_decide (to_ascii_lowercase v ∈ ["true"; "1"; "yes"]%string))
  else s.
Definition load_lobby_ini (ini : option string) : Z * bool :=
  let '(max, ov) := match ini with
    | Some text => ini_fold lobby_field text (DEFAULT_MAX_PLAYERS, true)
    | None => (DEFAULT_MAX_PLAYERS, true)
    end in
  (clamp_max_players max, ov).

(** The command line of the broker, without [--ini], which only chooses the file: [None] is
    [--decode-blob], which prints a file and exits. *)
Record Args := mkArgs { g_title : string; g_http : Z; g_ws : Z; g_max : option Z }.
Fixpoint parse_args (args : list string) (g : Args) : option Args :=
  match args with
  | [] => Some g
  | a :: args =>
      let opt s := bool_decide (a = s) in
      if opt "--title-id"%string then
        match args with
        | v :: args => parse_args args (mkArgs v (g_http g) (g_ws g) (g_max g))
        | [] => Some g
        end
      else if opt "--http-port"%string then
        match args with
        | v :: args => parse_args args (mkArgs (g_title g) (default (g_http g) (parse_u16 v)) (g_ws g) (g_max g))
        | [] => Some g
        end
      else if opt "--ws-port"%string then
        match args with
        | v :: args => parse_args args (mkArgs (g_title g) (g_http g) (default (g_ws g) (parse_u16 v)) (g_max g))
        | [] => Some g
        end
      else if opt "--max-players"%string then
        match args with
        | v :: args => parse_args args (mkArgs (g_title g) (g_http g) (g_ws g) (parse_i64 v))
        | [] => Some (mkArgs (g_title g) (g_http g) (g_ws g) None)
        end
      else if opt "--ini"%string then
        match args with _ :: args => parse_args args g | [] => Some g end
      else if opt "--decode-blob"%string then None
      else parse_args args g
  end.

(** [cfg_ini] is the ini text the shared loader finds, [lobby_ini] the one [main] reads again. *)
Definition main_app `{SerdeJson} (args : list string) (cfg_ini lobby_ini debug_env stub_env : option string)
    : option App :=
  let cfg := load_lan_cfg cfg_ini debug_env stub_env in
  match parse_args args (mkArgs TITLE_DEFAULT (port cfg) (ws_port cfg) None) with
  | None => None
  | Some g =>
      let '(max, ov) := load_lobby_ini lobby_ini in
      let max := match g_max g with Some n => clamp_max_players n | None => max end in
      Some (initial_app (g_title g) (g_http g) (g_ws g) max ov)
  end.

(** ** Reading back a written configuration *)

Lemma strip_cr_id l : CR ∉ l → strip_cr l = l.
Proof.
  intros Hl. unfold strip_cr, strip_suffix_b. destruct (strip_prefix_b (rev [x0d]) (rev l)) as [r|] eqn:Hs; [|done].
  apply strip_prefix_b_Some in Hs. destruct Hl. apply list_elem_of_In, in_rev. rewrite Hs. by left.
Qed.

(** The lines of a text that is a list of lines, each ended by LF. *)
Definition text_of (ls : list (list byte)) : string := bstr (concat (map (λ l, l ++ [LF]) ls)).

Lemma split_lines ls : Forall one_line ls → split_b LF (concat (map (λ l, l ++ [LF]) ls)) = ls ++ [[]].
Proof.
  induction 1 as [|l ls [_ Hl] Hls IH]; cbn [map concat app]; [done|].
  rewrite <- app_assoc. cbn [app]. by rewrite split_b_app, IH.
Qed.

Lemma lines_text_of ls : Forall one_line ls → lines (text_of ls) = map bstr ls.
Proof.
  intros Hls. unfold lines, lines_b, text_of. rewrite sbytes_bstr.
  change x0a with LF. rewrite (split_lines _ Hls), rev_app_distr. cbn [rev app].
  rewrite rev_involutive. f_equal. induction Hls as [|l ls [Hl _] _ IH]; [done|].
  cbn [map]. by rewrite strip_cr_id, IH.
Qed.

(** A value of a field: one word without a semicolon. *)
Definition ini_value (v : string) : Prop := word (sbytes v) ∧ x3b ∉ sbytes v.
Definition field_line (k v : string) : list byte := sbytes k ++ [x20; x3d; x20] ++ sbytes v.

Lemma head_split c l : c ∉ l → head (split_b c l) = Some l.
Proof. intros. by rewrite split_b_none. Qed.

Lemma ini_line_field k v :
  word (sbytes k) → x3b ∉ sbytes k → x3d ∉ sbytes k → head (sbytes k) ≠ Some x5b → ini_value v →
  ini_line (bstr (field_line k v)) = IniField (to_ascii_lowercase k) v.
Proof.
  intros Hk Hks Hke Hkb [Hv Hvs]. unfold ini_line, field_line.
  assert (Hsp : split_str x3b (bstr (sbytes k ++ [x20; x3d; x20] ++ sbytes v)) =
                [bstr (sbytes k ++ [x20; x3d; x20] ++ sbytes v)]).
  { unfold split_str. rewrite sbytes_bstr, split_b_none; [done|].
    rewrite !elem_of_app. intros [?|[?|?]]; [done| |done]. revert H. not_in_constant. }
  rewrite Hsp. cbn [head default from_option Datatypes.id]. rewrite trim_words by done.
  set (t := bstr _). assert (Ht : sbytes t = sbytes k ++ [x20; x3d; x20] ++ sbytes v) by (by unfold t; rewrite sbytes_bstr).
  rewrite bool_decide_eq_false_2.
  2: { intros Hem. rewrite Hem in Ht. destruct Hk as (Hk & _). by destruct (sbytes k). }
  assert (starts_with "[" t = false) as ->.
  { unfold starts_with, strip_prefix. rewrite Ht. destruct Hk as (Hk & _). destruct (sbytes k) as [|b l]; [done|].
    cbn [app]. change (sbytes "[") with [x5b]. cbn [strip_prefix_b].
    destruct (byte_eqb x5b b) eqn:Hb; [|done]. apply byte_eqb_eq in Hb. by subst b. }
  cbn [andb]. unfold split_once. rewrite Ht.
  rewrite (proj2 (split_once_b_Some x3d _ (sbytes k ++ [x20]) (x20 :: sbytes v))).
  - rewrite trim_word_r, trim_word, !bstr_sbytes by done. done.
  - split; [by rewrite <- app_assoc|]. rewrite elem_of_app, list_elem_of_singleton. by intros [?|?].
Qed.

(** A configuration written as an ini file. *)
Definition section_line (s : string) : list byte := sbytes ("[" +:+ s +:+ "]").
Definition bool_text (b : bool) : string := if b then "true" else "false".
Definition cfg_lines (c : LanCfg) : list (list byte) :=
  [section_line "server"; field_line "host" (host c); field_line "port" (fmt_dec (port c));
   field_line "ws_port" (fmt_dec (ws_port c)); section_line "party"]
  ++ match advertise_ip c with Some ip => [field_line "advertise_ip" ip] | None => [] end
  ++ [field_line "udp_port" (fmt_dec (udp_port c)); section_line "debug";
      field_line "enabled" (bool_text (debug c))].

Record cfg_ok (c : LanCfg) : Prop := {
  cfg_host : ini_value (host c);
  cfg_port : is_u16 (port c);
  cfg_ws : is_u16 (ws_port c);
  cfg_ip : ∀ ip, advertise_ip c = Some ip → ini_value ip;
  cfg_udp : is_u16 (udp_port c) }.

(** Reading a text line by line. *)
Lemma ini_fold_text {A} (step : string → string → string → A → A) ls init :
  Forall one_line ls →
  ini_fold step (text_of ls) init =
    (foldl (λ '(section, a) l,
       match ini_line (bstr l) with
       | IniSection s => (s, a)
       | IniField k v => (section, step section k v a)
       | IniNothing => (section, a)
       end) (""%string, init) ls).2.
Proof.
  intros Hls. unfold ini_fold. rewrite lines_text_of by done. f_equal.
  assert (Hgen : ∀ ls' st, foldl (λ '(section, a) line,
     match ini_line line with
     | IniSection s => (s, a)
     | IniField k v => (section, step section k v a)
     | IniNothing => (section, a)
     end) st (map bstr ls') =
     foldl (λ '(section, a) l,
       match ini_line (bstr l) with
       | IniSection s => (s, a)
       | IniField k v => (section, step section k v a)
       | IniNothing => (section, a)
       end) st ls'); [|apply Hgen].
  induction ls' as [|l ls' IH]; intros [section a]; cbn [foldl map]; [done|]. apply IH.
Qed.

Lemma ini_value_number n : 0 <= n → ini_value (fmt_dec n).
Proof.
  intros Hn. split; [by apply word_fmt_dec|]. intros Hin.
  destruct (fmt_dec_digits n Hn) as (_ & Hd & _). rewrite Forall_forall in Hd. by apply Hd in Hin.
Qed.

Lemma constant_word s :
  s ≠ ""%string → forallb (λ b, (bz b <? 128) && negb (is_white_space (bz b))) (sbytes s) = true → word (sbytes s).
Proof. intros Hs Hf. apply word_ascii; [|done]. by destruct s. Qed.

Lemma ini_value_bool b : ini_value (bool_text b).
Proof. destruct b; (split; [by apply constant_word|not_in_constant]). Qed.

Lemma field_line_ok k v : word (sbytes k) → ini_value v → one_line (field_line k v).
Proof.
  intros Hk [Hv _]. assert (H1 : ∀ l, word l → one_line l) by (intros l Hl; split; by eapply word_not_in).
  unfold field_line. apply one_line_app; [by apply H1|]. apply one_line_app; [by apply one_line_forallb|by apply H1].
Qed.

(** The lines of a written configuration are well formed. *)
Lemma cfg_lines_ok c : cfg_ok c → Forall one_line (cfg_lines c).
Proof.
  intros [Hh Hp Hw Hi Hu]. unfold is_u16 in *. unfold cfg_lines.
  assert (Hk : ∀ k v, k ≠ ""%string → forallb (λ b, (bz b <? 128) && negb (is_white_space (bz b))) (sbytes k) = true →
            ini_value v → one_line (field_line k v))
    by (intros k v ???; apply field_line_ok; [by apply constant_word|done]).
  repeat (apply Forall_cons_2 || apply Forall_app_2 || apply Forall_nil_2);
    try (by apply one_line_forallb); try (apply Hk; [done|done|]);
    try done; try (apply ini_value_number; lia); try apply ini_value_bool.
  destruct (advertise_ip c) as [ip|]; [|apply Forall_nil_2].
  apply Forall_cons_2, Forall_nil_2. apply Hk; [done|done|by apply Hi].
Qed.

(** [cfg_field_line]: run one written field through the loop of [load_lan_cfg]. *)
Lemma cfg_field_line section k v (c : LanCfg) :
  word (sbytes k) → x3b ∉ sbytes k → x3d ∉ sbytes k → head (sbytes k) ≠ Some x5b → ini_value v →
  match ini_line (bstr (field_line k v)) with
  | IniSection s => (s, c)
  | IniField k v => (section, cfg_field section k v c)
  | IniNothing => (section, c)
  end = (section, cfg_field section (to_ascii_lowercase k) v c).
Proof. intros. by rewrite ini_line_field. Qed.

Ltac run_field :=
  rewrite cfg_field_line;
  [|by apply constant_word|not_in_constant|not_in_constant|done
   |first [done | apply ini_value_number; lia | apply ini_value_bool]].

(** The arms of [cfg_field], by section and key. *)
Lemma arm_host v c : cfg_field "server" (to_ascii_lowercase "host") v c = set_host v c.
Proof. done. Qed.
Lemma arm_port v c :
  cfg_field "server" (to_ascii_lowercase "port") v c = set_port (default (port c) (parse_u16 v)) c.
Proof. done. Qed.
Lemma arm_ws_port v c :
  cfg_field "server" (to_ascii_lowercase "ws_port") v c =
    mkLanCfg (host c) (port c) (default (ws_port c) (parse_u16 v)) (advertise_ip c) (udp_port c) (debug c).
Proof. done. Qed.
Lemma arm_advertise v c :
  v ≠ ""%string → cfg_field "party" (to_ascii_lowercase "advertise_ip") v c =
    mkLanCfg (host c) (port c) (ws_port c) (Some v) (udp_port c) (debug c).
Proof. intros Hv. unfold cfg_field. cbv zeta. by rewrite (bool_decide_eq_false_2 (v = _)) by done. Qed.
Lemma arm_udp v c :
  cfg_field "party" (to_ascii_lowercase "udp_port") v c =
    mkLanCfg (host c) (port c) (ws_port c) (advertise_ip c) (default (udp_port c) (parse_u16 v)) (debug c).
Proof. done. Qed.
Lemma arm_enabled v c :
  cfg_field "debug" (to_ascii_lowercase "enabled") v c = set_debug (default (debug c) (parse_bool v)) c.
Proof. done. Qed.
#[local] Opaque cfg_field.

Lemma section_line_name s : s ∈ ["server"; "party"; "debug"]%string → ini_line (bstr (section_line s)) = IniSection s.
Proof. revert s. apply Forall_forall. repeat apply Forall_cons_2; [done..|apply Forall_nil_2]. Qed.

Lemma read_cfg_lines c : cfg_ok c → ini_fold cfg_field (text_of (cfg_lines c)) default_cfg = c.
Proof.
  intros Hc. rewrite ini_fold_text by (by apply cfg_lines_ok). destruct Hc as [Hh Hp Hw Hi Hu].
  unfold is_u16 in *. destruct c as [h p w ip u d]. cbn [host port ws_port advertise_ip udp_port debug] in *.
  unfold cfg_lines. cbn [host port ws_port advertise_ip udp_port debug].
  assert (Hnum : ∀ n, 0 <= n < U16 → parse_u16 (fmt_dec n) = Some n)
    by (intros; apply parse_fmt_dec; unfold U16 in *; lia).
  assert (Hd : parse_bool (bool_text d) = Some d) by (by destruct d).
  rewrite !foldl_app. cbn [foldl]. rewrite (section_line_name "server"%string) by (by left).
  do 3 run_field. rewrite (section_line_name "party"%string) by (right; by left).
  assert (Hne : ∀ x, ini_value x → x ≠ ""%string) by (intros x [(Hx & _) _] ->; by apply Hx).
  destruct ip as [ip|]; cbn [foldl]; [specialize (Hi ip eq_refl); run_field|]; run_field;
    rewrite (section_line_name "debug"%string) by (do 2 right; by left); run_field;
    cbn [snd]; rewrite arm_enabled, arm_udp, ?arm_advertise, arm_ws_port, arm_port, arm_host by auto.
  all: unfold set_host, set_port, set_debug;
    cbn [host port ws_port advertise_ip udp_port debug default from_option Datatypes.id].
  all: by rewrite !Hnum, Hd by lia.
Qed.

(** any configuration can be written as an ini file and is read back exactly (host and address
    single words without a semicolon, ports of 16 bits). The environment then has the last word,
    on exactly its own fields: [GBFR_LAN_DEBUG] on the debug flag, and [GBFR_LAN_STUB=host:port]
    on the broker's host and port. *)
Theorem config_roundtrip c debug_env b h p :
  cfg_ok c → is_u16 p → word (sbytes h) →
  load_lan_cfg (Some (text_of (cfg_lines c))) None None = c ∧
  (parse_bool debug_env = Some b →
   load_lan_cfg (Some (text_of (cfg_lines c))) (Some debug_env) None = set_debug b c) ∧
  load_lan_cfg (Some (text_of (cfg_lines c))) None (Some (h +:+ ":" +:+ fmt_dec p)) = set_port p (set_host h c).
Proof.
  intros Hc Hp Hh. unfold load_lan_cfg. rewrite !read_cfg_lines by done. split_and!; [done| |].
  - intros Hb. unfold apply_debug_env. cbn [mbind option_bind]. by rewrite Hb.
  - cbn [apply_debug_env mbind option_bind apply_stub_env].
    destruct (fmt_dec_digits p) as (Hne & Hd & _); [unfold is_u16 in Hp; lia|].
    assert (Hc3 : x3a ∉ sbytes (fmt_dec p)) by (rewrite Forall_forall in Hd; by intros ?%Hd).
    assert (Hraw : trim (h +:+ ":" +:+ fmt_dec p) = h +:+ ":" +:+ fmt_dec p).
    { rewrite <- (bstr_sbytes (h +:+ _)), !sbytes_app. apply trim_words; [done|done|].
      apply word_fmt_dec. unfold is_u16 in Hp. lia. }
    rewrite Hraw. unfold rsplit_once, rsplit_once_b. rewrite !sbytes_app.
    rewrite (proj2 (split_once_b_Some x3a _ (rev (sbytes (fmt_dec p))) (rev (sbytes h)))).
    + rewrite !rev_involutive, !bstr_sbytes, bool_decide_eq_false_2.
      * unfold parse_u16. by rewrite parse_fmt_dec by (unfold is_u16 in Hp; lia).
      * intros ->. by destruct Hh.
    + split; [by rewrite !rev_app_distr, <- app_assoc|].
      intros Hin%list_elem_of_In%in_rev. by apply Hc3, list_elem_of_In.
Qed.

(** The file named by the environment is read before the one next to the executable, and that
    before the one in the working directory; a file that cannot be read does not hide the next. *)
Theorem lan_ini_order m s :
  read_lan_ini m = Some s ↔
  (env_var m "GBFR_LAN_INI" ≫= read_to_string m) = Some s ∨
  (env_var m "GBFR_LAN_INI" ≫= read_to_string m) = None ∧
    ∃ before d after, lan_ini_dirs m = before ++ d :: after ∧
      read_to_string m (path_join d "lan.ini") = Some s ∧
      Forall (λ d', read_to_string m (path_join d' "lan.ini") = None) before.
Proof.
  unfold read_lan_ini. destruct (env_var m "GBFR_LAN_INI" ≫= read_to_string m) as [t|].
  { split; [by left|]. by intros [?|[? _]]. }
  generalize (lan_ini_dirs m). intros dirs. split.
  - intros H. right. split; [done|]. induction dirs as [|d dirs IH]; cbn in H; [done|].
    destruct (read_to_string m (path_join d "lan.ini")) as [t|] eqn:Hd.
    + exists [], d, dirs. split; [done|]. split; [congruence|constructor].
    + destruct (IH H) as (before & d' & after & -> & ? & ?). exists (d :: before), d', after.
      split; [done|]. split; [done|]. by constructor.
  - intros [?|(_ & before & d & after & -> & Hd & Hb)]; [done|].
    induction Hb as [|d' before Hd' _ IH]; cbn; [by rewrite Hd|by rewrite Hd'].
Qed.

(** The configuration does not change while the process runs, whatever becomes of the files and
    the environment. *)
Theorem lan_cfg_stable m ms :
  ∀ c, c ∈ (fix calls (ms : list Machine) (cell : option LanCfg) : list LanCfg :=
      match ms with
      | [] => []
      | m :: ms => let '(c, cell) := lan_cfg m cell in c :: calls ms cell
      end) (m :: ms) None → c = load_on m.
Proof.
  cbn. intros c [->|Hc]%elem_of_cons; [done|]. revert Hc. induction ms as [|m' ms IH]; cbn; [by intros ?%elem_of_nil|].
  by intros [->|?]%elem_of_cons; [|apply IH].
Qed.

Definition demo_cfg : LanCfg := mkLanCfg "10.0.0.2" 9000 9001 (Some "10.0.0.3"%string) 7777 true.

Lemma config_roundtrip_witness :
  load_lan_cfg (Some (text_of (cfg_lines demo_cfg))) None None = demo_cfg ∧
  (parse_bool "OFF" = Some false →
   load_lan_cfg (Some (text_of (cfg_lines demo_cfg))) (Some "OFF"%string) None = set_debug false demo_cfg) ∧
  load_lan_cfg (Some (text_of (cfg_lines demo_cfg))) None (Some ("host" +:+ ":" +:+ fmt_dec 80)) =
    set_port 80 (set_host "host" demo_cfg).
Proof.
  refine (config_roundtrip demo_cfg "OFF" false "host" 80 _ _ _); [|done|by apply constant_word].
  split; try done.
  - split; [by apply constant_word|not_in_constant].
  - intros ip [= <-]. split; [by apply constant_word|not_in_constant].
Defined.
