(* ===== verification/Server.v ===== *)
(** * Connections: reading requests, answering, WebSocket
    ([lan-server/src/main.rs], last part)

    The life of one connection, from the bytes a client sends to the bytes it
    gets back.  The socket is the run of chunks of [Http.v]; writing succeeds
    (the code ignores failed writes, except that it stops at a failed 101).
    Log lines are left out. *)

From S2P Require Import Prelude RustStr F64 Value LobbyFilter App Playfab Party Broker Http.
#[local] Open Scope Z_scope.

Definition MAX_BODY_BYTES : Z := 1024 * 1024.
Definition MAX_CONNECTIONS : Z := 256.

(** ** Reading a request *)

Inductive ReadResult :=
  | Request (method path : string) (headers : gmap string string) (body : list byte)
  | TooLarge
  | Dropped.

(** A TLS ClientHello on the plaintext port. *)
Definition is_tls (buf : list byte) : bool :=
  match buf with
  | a :: b :: _ :: _ => byte_eqb a x16 && byte_eqb b x03
  | _ => false
  end.

(** The first loop: the buffer it ends with and the chunks not yet read; [None] is [Dropped]. *)
Fixpoint read_head (buf : list byte) (chunks : list (list byte)) (fin : ReadEnd)
    : option (list byte * list (list byte)) :=
  match chunks with
  | [] => match fin with Eof => Some (buf, []) | _ => None end
  | [] :: chunks => Some (buf, chunks)
  | c :: chunks =>
      let buf := buf ++ c in
      if is_tls buf then None
      else match find_sub HEAD_END buf with
           | Some _ => Some (buf, chunks)
           | None => if 1024 * 1024 <? Z.of_nat (length buf) then None else read_head buf chunks fin
           end
  end.

Definition header_of_line (line : list byte) : option (string * string) :=
  let line := bstr (trim_end_matches_b CR (sbytes (from_utf8_lossy line))) in
  (λ '(k, v), (to_ascii_lowercase (trim k), trim v)) <$> split_once x3a line.

Definition parse_headers (lines : list (list byte)) : gmap string string :=
  foldl (λ m line, match header_of_line line with Some (k, v) => <[k := v]> m | None => m end) ∅ lines.

(** The second loop: read the body up to [want] bytes; [None] is [Dropped]. *)
Fixpoint read_body (want : Z) (body : list byte) (chunks : list (list byte)) (fin : ReadEnd)
    : option (list byte * list (list byte)) :=
  if want <=? Z.of_nat (length body) then Some (body, chunks)
  else match chunks with
       | [] => match fin with Eof => Some (body, []) | _ => None end
       | [] :: chunks => Some (body, chunks)
       | c :: chunks => read_body want (body ++ c) chunks fin
       end.

(** The request and what remains to be read. *)
Definition read_request (chunks : list (list byte)) (fin : ReadEnd) : ReadResult * list (list byte) :=
  match read_head [] chunks fin with
  | None => (Dropped, [])
  | Some ([], rest) => (Dropped, rest)
  | Some (buf, rest) =>
      match find_sub HEAD_END buf with
      | None => (Dropped, rest)
      | Some idx =>
          match split_b LF (take idx buf) with
          | [] => (Dropped, rest)
          | req_line :: lines =>
              match split_whitespace (from_utf8_lossy req_line) with
              | method :: path :: _ =>
                  let headers := parse_headers lines in
                  let want := default 0 (headers !! "content-length"%string ≫= parse_u64) in
                  if MAX_BODY_BYTES <? want then (TooLarge, rest)
                  else match read_body want (drop (idx + 4) buf) rest fin with
                       | None => (Dropped, [])
                       | Some (body, rest) => (Request method path headers (take (Z.to_nat want) body), rest)
                       end
              | _ => (Dropped, rest)
              end
          end
      end
  end.

Definition is_websocket_upgrade (headers : gmap string string) : bool :=
  match headers !! "upgrade"%string with
  | Some s => existsb (λ p, bool_decide (trim p = "websocket"%string)) (split_str x2c (to_ascii_lowercase s))
  | None => false
  end.

(** ** Answering *)

Definition reason_phrase (code : Z) : string :=
  if code =? 200 then "OK" else if code =? 101 then "Switching Protocols"
  else if code =? 204 then "No Content" else if code =? 400 then "Bad Request"
  else if code =? 404 then "Not Found" else if code =? 409 then "Conflict"
  else if code =? 500 then "Internal Server Error" else if code =? 503 then "Service Unavailable"
  else "OK".

Definition response_head (code : Z) (ctype : string) (body : list byte) : list (list byte) :=
  [sbytes ("HTTP/1.1 " +:+ fmt_dec code +:+ " " +:+ reason_phrase code);
   sbytes ("Content-Type: " +:+ ctype);
   sbytes ("Content-Length: " +:+ fmt_dec (Z.of_nat (length body)));
   sbytes "Connection: close";
   sbytes "Access-Control-Allow-Origin: *"].
Definition send_http (code : Z) (ctype : string) (body : list byte) : list byte :=
  concat (map (λ l, l ++ CRLF) (response_head code ctype body)) ++ CRLF ++ body.

(** ** WebSocket *)

Definition ws_send_binary (payload : list byte) : list byte :=
  let n := Z.of_nat (length payload) in
  (if n <? 126 then [x82; zb n]
   else if n <? 65536 then x82 :: x7e :: rev (to_le 2 n)
   else x82 :: x7f :: rev (to_le 8 n)) ++ payload.

(** [read_exact] of [n] bytes. *)
Definition take_exact (n : nat) (l : list byte) : option (list byte * list byte) :=
  if (n <=? length l)%nat then Some (take n l, drop n l) else None.

Fixpoint unmask (mask : list byte) (i : nat) (data : list byte) : list byte :=
  match data with
  | [] => []
  | b :: data => zb (Z.lxor (bz b) (bz (nth (i mod 4) mask x00))) :: unmask mask (S i) data
  end.

(** The length field: in the second header byte, or in two or eight more bytes. *)
Definition ws_length (h1 : byte) (l : list byte) : option (Z * list byte) :=
  let n := Z.land (bz h1) 127 in
  if n =? 126 then (λ '(ext, l), (from_le (rev ext), l)) <$> take_exact 2 l
  else if n =? 127 then (λ '(ext, l), (from_le (rev ext), l)) <$> take_exact 8 l
  else Some (n, l).

(** One frame: its opcode, its data, and what follows; [None] leaves the loop. *)
Definition ws_frame (l : list byte) : option (Z * list byte * list byte) :=
  match l with
  | h0 :: h1 :: l =>
      match ws_length h1 l with
      | None => None
      | Some (n, l) =>
          if 1000000 <? n then None
          else
            let masked := negb (Z.land (bz h1) 128 =? 0) in
            match (if masked then take_exact 4 l else Some ([], l)) with
            | None => None
            | Some (mask, l) =>
                match take_exact (Z.to_nat n) l with
                | None => None
                | Some (data, l) =>
                    Some (Z.land (bz h0) 15, if masked then unmask mask 0 data else data, l)
                end
            end
      end
  | _ => None
  end.

Section server.
Context `{SerdeJson} `{HashOrder} `{Crypto}.

Definition handle_ws_payload (data : list byte) : list byte :=
  let reply := match from_slice data with
    | Some v =>
        let cmd := default ""%string (vget v "command" ≫= as_str) in
        let params := default ∅ (vget v "params" ≫= as_object) in
        let params := match params !! "lobby_search_id"%string with
          | Some _ => params
          | None =>
              match vget v "lobby_search_id" with
              | Some VNull | None => params
              | Some id => <["lobby_search_id"%string := id]> params
              end
          end in
        Some (jobj [("command", VString cmd); ("params", VObject params)]%string)
    | None =>
        if contains_b (sbytes "join_lobby") data
        then Some (jobj [("command", VString "join_lobby"); ("params", jobj [])]%string)
        else None
    end in
  match reply ≫= to_vec with Some body => ws_send_binary body | None => [] end.

(** The frame loop; every frame takes at least two bytes, so [length l] rounds are enough. *)
Fixpoint pump_loop (fuel : nat) (l : list byte) : list byte :=
  match fuel with
  | O => []
  | S fuel =>
      match ws_frame l with
      | None => []
      | Some (opcode, data, l) =>
          if opcode =? 8 then []
          else if opcode =? 9 then
            (if (length data <? 126)%nat then x8a :: zb (Z.of_nat (length data)) :: data else [])
            ++ pump_loop fuel l
          else if (opcode =? 1) || (opcode =? 2) then handle_ws_payload data ++ pump_loop fuel l
          else pump_loop fuel l
      end
  end.
(** The bytes [read_exact] can get: a read of zero bytes is the end. *)
Fixpoint readable (chunks : list (list byte)) : list byte :=
  match chunks with
  | [] | [] :: _ => []
  | c :: chunks => c ++ readable chunks
  end.
Definition pump_websocket (chunks : list (list byte)) : list byte :=
  let l := readable chunks in pump_loop (S (length l)) l.

Definition handle_ws_upgrade (headers : gmap string string) (chunks : list (list byte)) : list byte :=
  match headers !! "sec-websocket-key"%string with
  | None => send_http 400 "text/plain" (sbytes "missing Sec-WebSocket-Key")
  | Some key =>
      let accept := b64_encode (sha1 (sbytes key ++ sbytes WS_GUID)) in
      let proto := match headers !! "sec-websocket-protocol"%string with
        | Some p => sbytes ("Sec-WebSocket-Protocol: " +:+ p) ++ CRLF
        | None => []
        end in
      sbytes "HTTP/1.1 101 Switching Protocols" ++ CRLF ++ sbytes "Upgrade: websocket" ++ CRLF
      ++ sbytes "Connection: Upgrade" ++ CRLF ++ sbytes "Sec-WebSocket-Accept: " ++ accept ++ CRLF
      ++ proto ++ CRLF ++ pump_websocket chunks
  end.

Definition options_response : list byte :=
  concat (map (λ l, sbytes l ++ CRLF)
    ["HTTP/1.1 204 No Content"; "Access-Control-Allow-Origin: *"; "Access-Control-Allow-Headers: *";
     "Access-Control-Allow-Methods: GET,POST,PUT,DELETE,OPTIONS"; "Content-Length: 0"]%string) ++ CRLF.

Definition request_json (body_raw : list byte) : JValue :=
  match body_raw with
  | [] => jobj []
  | _ => default (jobj [("_raw", VString (from_utf8_lossy body_raw))]%string) (from_slice body_raw)
  end.

(** One connection: what is written to it, and the shared state afterwards. *)
Definition handle_client (app : App) (chunks : list (list byte)) (fin : ReadEnd)
    (peer_ip : option string) (k : Clock) : list byte * App :=
  match read_request chunks fin with
  | (TooLarge, _) => (send_http 413 "text/plain" (sbytes "request body too large"), app)
  | (Dropped, _) => ([], app)
  | (Request method path headers body_raw, rest) =>
      let headers := match peer_ip, headers !! "x-peer-ip"%string with
        | Some ip, None => <["x-peer-ip"%string := ip]> headers
        | _, _ => headers
        end in
      if is_websocket_upgrade headers then (handle_ws_upgrade headers rest, app)
      else if bool_decide (method = "OPTIONS"%string) then (options_response, app)
      else
        let '((code, ctype, out), app') :=
          dispatch app (mkCall method path headers (request_json body_raw)) k in
        (send_http code ctype out, app')
  end.
End server.

(** ** The connection budget of a listener

    [live] is the atomic counter; [served] the connections that hold a guard;
    [refusing] tells that the accept thread is between the two atomic operations
    of a refusal. *)

Record Budget := mkBudget { live : Z; served : Z; refusing : bool }.

Inductive budget_step (cap : Z) : Budget → Budget → Prop :=
  | acquire_ok b : refusing b = false → live b + 1 <= cap →
      budget_step cap b (mkBudget (live b + 1) (served b + 1) false)
  | acquire_over b : refusing b = false → cap < live b + 1 →
      budget_step cap b (mkBudget (live b + 1) (served b) true)
  | acquire_undo b : refusing b = true → budget_step cap b (mkBudget (live b - 1) (served b) false)
  | guard_drop b : 0 < served b → budget_step cap b (mkBudget (live b - 1) (served b - 1) (refusing b)).

(** ** Reading does not depend on how the stream is cut into chunks *)

Definition chunks_ok (chunks : list (list byte)) : Prop := Forall (λ c, c ≠ []) chunks.

Lemma is_tls_prefix l k : is_tls (l ++ k) = false → is_tls l = false.
Proof. by destruct l as [|a [|b [|c l]]]. Qed.

Lemma read_head_whole buf chunks fin idx :
  chunks_ok chunks → find_sub HEAD_END (buf ++ concat chunks) = Some idx →
  find_sub HEAD_END buf = None → is_tls (buf ++ concat chunks) = false →
  Z.of_nat idx + 3 <= 1024 * 1024 →
  ∃ buf' rest, read_head buf chunks fin = Some (buf', rest) ∧ chunks_ok rest ∧
    buf' ++ concat rest = buf ++ concat chunks ∧ find_sub HEAD_END buf' = Some idx.
Proof.
  intros Hok. revert buf. induction Hok as [|c chunks Hc Hok IH]; intros buf Hf Hb Ht Hi; cbn [concat] in *.
  { rewrite app_nil_r in Hf. congruence. }
  rewrite app_assoc in Hf, Ht |- *. cbn [read_head]. destruct c as [|b c]; [done|].
  rewrite (is_tls_prefix _ _ Ht). pose proof (find_sub_cut _ _ _ _ Hf) as Hcut.
  case_decide as Hlen; rewrite Hcut.
  - by exists (buf ++ b :: c), chunks.
  - cbn [length HEAD_END] in Hlen. rewrite (proj2 (Z.ltb_ge _ _)) by lia. by apply IH.
Qed.

Lemma read_body_whole want body chunks fin :
  chunks_ok chunks → want <= Z.of_nat (length (body ++ concat chunks)) →
  ∃ body' rest, read_body want body chunks fin = Some (body', rest) ∧
    body' ++ concat rest = body ++ concat chunks ∧ want <= Z.of_nat (length body').
Proof.
  intros Hok. revert body. induction Hok as [|c chunks Hc Hok IH]; intros body Hw; cbn [concat] in *.
  - rewrite app_nil_r in Hw. exists body, []. cbn [read_body]. by rewrite (proj2 (Z.leb_le _ _) Hw).
  - cbn [read_body]. case_if.
    + exists body, (c :: chunks). bool_props. done.
    + destruct c as [|b c]; [done|]. rewrite app_assoc in *. by apply IH.
Qed.

Lemma read_body_short want body chunks fin :
  chunks_ok chunks → Z.of_nat (length (body ++ concat chunks)) < want →
  read_body want body chunks fin =
    match fin with Eof => Some (body ++ concat chunks, []) | _ => None end.
Proof.
  intros Hok. revert body. induction Hok as [|c chunks Hc Hok IH]; intros body Hw; cbn [concat read_body] in *.
  - rewrite app_nil_r in *. by rewrite (proj2 (Z.leb_gt _ _) Hw).
  - rewrite (proj2 (Z.leb_gt _ _)) by (rewrite !length_app in Hw; lia).
    destruct c as [|b c]; [done|]. rewrite app_assoc in *. by apply IH.
Qed.

(** ** Header lines *)

Lemma trim_start_matches_b_id c l : c ∉ l → trim_start_matches_b c l = l.
Proof.
  destruct l as [|b l]; [done|]. intros [Hc _]%not_elem_of_cons. cbn [trim_start_matches_b].
  destruct (byte_eqb b c) eqn:Hb; [by apply byte_eqb_eq in Hb|done].
Qed.

Lemma trim_cr l : CR ∉ l → trim_end_matches_b CR (l ++ [CR]) = l.
Proof.
  intros Hl. unfold trim_end_matches_b. rewrite rev_app_distr. cbn [rev app trim_start_matches_b].
  rewrite byte_eqb_refl, trim_start_matches_b_id, rev_involutive; [done|].
  intros Hin. apply Hl. apply list_elem_of_In, in_rev. by apply list_elem_of_In.
Qed.

Lemma header_of_line_word key v :
  utf8_valid key = true → x3a ∉ key → CR ∉ key → word v →
  header_of_line ((key ++ x3a :: x20 :: v) ++ [CR]) = Some (to_ascii_lowercase (trim (bstr key)), bstr v).
Proof.
  intros Hk Hc Hcr Hv. unfold header_of_line.
  assert (CR ∉ v) by (by eapply word_not_in).
  rewrite from_utf8_lossy_valid.
  - rewrite sbytes_bstr, trim_cr.
    + unfold split_once. rewrite sbytes_bstr.
      rewrite (proj2 (split_once_b_Some x3a _ key (x20 :: v))) by done.
      cbn [fmap option_fmap option_map]. by rewrite trim_word.
    + rewrite elem_of_app, !elem_of_cons. intros [?|[?|[?|?]]]; done.
  - destruct Hv as (_ & Hv & _). repeat (apply utf8_valid_app; [done|]).
    change (x3a :: x20 :: v) with ([x3a; x20] ++ v). rewrite <- app_assoc.
    repeat (apply utf8_valid_app; [done|]). done.
Qed.

Lemma parse_headers_snoc ls l :
  parse_headers (ls ++ [l]) =
    match header_of_line l with Some (k, v) => <[k := v]> (parse_headers ls) | None => parse_headers ls end.
Proof. unfold parse_headers. by rewrite foldl_app. Qed.

(** ** Requests of the client of [Http.v] *)

(** The lines of a request of the shims: the auth line carries the entity token. *)
Definition token_line (tok : option string) : option string := (λ t, "X-EntityToken: " +:+ t) <$> tok.

Record request_ok (host : string) (port : Z) (method path body : string) (tok : option string) : Prop := {
  ok_method : word (sbytes method);
  ok_path : word (sbytes path);
  ok_host : one_line (sbytes host);
  ok_port : 0 <= port;
  ok_tok : ∀ t, tok = Some t → word (sbytes t);
  ok_tls : head (sbytes method) ≠ Some x16;
  ok_head : Z.of_nat (length (request_bytes host port method path body (token_line tok))) <=
              1024 * 1024 + Z.of_nat (length (sbytes body));
  ok_body : Z.of_nat (length (sbytes body)) <= MAX_BODY_BYTES }.

Section requests.
Context (host : string) (port : Z) (method path body : string) (tok : option string).
Context (Hok : request_ok host port method path body tok).

Let lines : list (list byte) := request_head host port method path body (token_line tok).
Let n : Z := Z.of_nat (length (sbytes body)).

Lemma word_one_line l : word l → one_line l.
Proof. intros. split; by eapply word_not_in. Qed.

Lemma lines_ok : Forall head_line lines.
Proof using Hok.
  assert (H1 : ∀ l, l ≠ [] → one_line l → head_line l) by (intros l ? [??]; by split_and!).
  assert (H2 : ∀ s, forallb (λ b, negb (byte_eqb b CR) && negb (byte_eqb b LF)) (sbytes s) = true →
                    one_line (sbytes s)) by (intros; by apply one_line_forallb).
  destruct Hok as [Hm Hp Hh Hport Ht _ _ _]. unfold lines, request_head.
  repeat apply Forall_cons_2; [..|apply Forall_app_2; [|repeat apply Forall_cons_2]]; try apply Forall_nil_2.
  - apply H1; rewrite !sbytes_app.
    + destruct Hm as (Hm & _). by destruct (sbytes method).
    + repeat apply one_line_app; [by apply word_one_line|by apply H2|by apply word_one_line|by apply H2].
  - apply H1; rewrite !sbytes_app; [done|].
    repeat apply one_line_app; [by apply H2|done|by apply H2|by apply one_line_fmt_dec].
  - by apply H1; [|apply H2].
  - unfold token_line. destruct tok as [t|]; [|apply Forall_nil_2]. cbn [fmap option_fmap option_map].
    rewrite bool_decide_eq_false_2 by done. apply Forall_cons_2, Forall_nil_2.
    apply H1; rewrite sbytes_app; [done|]. apply one_line_app; [by apply H2|by apply word_one_line, Ht].
  - apply H1; rewrite sbytes_app; [done|].
    apply one_line_app; [by apply H2|apply one_line_fmt_dec; lia].
  - by apply H1; [|apply H2].
Qed.

(** The request line, the lines between it and the last one, and the last one. *)
Let req_line : list byte := sbytes (method +:+ " " +:+ path +:+ " HTTP/1.1").
Let auth_lines : list (list byte) :=
  match token_line tok with Some a => if bool_decide (a = ""%string) then [] else [sbytes a] | None => [] end.
Let mid_lines : list (list byte) :=
  [sbytes ("Host: " +:+ host +:+ ":" +:+ fmt_dec port); sbytes "Content-Type: application/json"]
  ++ auth_lines ++ [sbytes ("Content-Length: " +:+ fmt_dec n)].
Let last_line : list byte := sbytes "Connection: close".

Lemma lines_eq : lines = (req_line :: mid_lines) ++ [last_line].
Proof. unfold lines, request_head, mid_lines, auth_lines. cbn [app]. by rewrite <- !app_assoc. Qed.

(** The header map the server makes of those lines. *)
Definition request_headers : gmap string string :=
  parse_headers (map (λ l, l ++ [CR]) mid_lines ++ [last_line]).

Lemma last_line_header : header_of_line last_line = Some ("connection", "close")%string.
Proof. reflexivity. Qed.

Lemma length_line_header :
  header_of_line (sbytes ("Content-Length: " +:+ fmt_dec n) ++ [CR]) =
    Some ("content-length"%string, fmt_dec n).
Proof.
  rewrite sbytes_app.
  change (sbytes "Content-Length: ") with (sbytes "Content-Length" ++ [x3a; x20]).
  rewrite <- (app_assoc (sbytes "Content-Length")). cbn [app].
  rewrite header_of_line_word;
    [by rewrite !bstr_sbytes|done|not_in_constant|not_in_constant|apply word_fmt_dec; lia].
Qed.

Lemma token_line_header t :
  word (sbytes t) →
  header_of_line (sbytes ("X-EntityToken: " +:+ t) ++ [CR]) = Some ("x-entitytoken"%string, t).
Proof.
  intros Ht. rewrite sbytes_app.
  change (sbytes "X-EntityToken: ") with (sbytes "X-EntityToken" ++ [x3a; x20]).
  rewrite <- (app_assoc (sbytes "X-EntityToken")). cbn [app].
  rewrite header_of_line_word;
    [by rewrite !bstr_sbytes|done|not_in_constant|not_in_constant|done].
Qed.

Lemma request_headers_length : request_headers !! "content-length"%string = Some (fmt_dec n).
Proof.
  unfold request_headers, mid_lines. rewrite !map_app, !app_assoc, !parse_headers_snoc, last_line_header.
  cbn [map]. rewrite parse_headers_snoc, length_line_header.
  by rewrite lookup_insert_ne, lookup_insert_eq.
Qed.

Lemma request_headers_token t : tok = Some t → request_headers !! "x-entitytoken"%string = Some t.
Proof using Hok.
  intros Ht. unfold request_headers, mid_lines, auth_lines.
  rewrite !map_app, !app_assoc, !parse_headers_snoc, last_line_header.
  cbn [map]. rewrite parse_headers_snoc, length_line_header.
  rewrite Ht. cbn [token_line fmap option_fmap option_map].
  rewrite bool_decide_eq_false_2 by done. cbn [map]. rewrite parse_headers_snoc, token_line_header by (by eapply ok_tok).
  by rewrite 2!lookup_insert_ne, lookup_insert_eq.
Qed.

(** The request line. *)
Lemma req_line_words :
  ∃ rest, split_whitespace (from_utf8_lossy (req_line ++ [CR])) = method :: path :: rest.
Proof using Hok.
  destruct Hok as [Hm Hp _ _ _ _ _ _]. unfold req_line.
  assert (Heq : sbytes (method +:+ " " +:+ path +:+ " HTTP/1.1") ++ [CR] =
                sbytes method ++ x20 :: sbytes path ++ x20 :: sbytes "HTTP/1.1" ++ [CR]).
  { rewrite !sbytes_app. rewrite <- !app_assoc. done. }
  rewrite Heq, from_utf8_lossy_valid.
  - unfold split_whitespace. rewrite sbytes_bstr, !split_whitespace_word by done.
    eexists. cbn [map]. by rewrite !bstr_sbytes.
  - destruct Hm as (_ & Hm & _), Hp as (_ & Hp & _). apply utf8_valid_app; [done|].
    change (x20 :: ?l) with ([x20] ++ l). apply utf8_valid_app; [done|]. by apply utf8_valid_app.
Qed.

Let init_bytes : list byte := concat (map (λ l, l ++ CRLF) (req_line :: mid_lines)).
Let idx : nat := length (init_bytes ++ last_line).

Lemma request_bytes_eq :
  request_bytes host port method path body (token_line tok) =
    (init_bytes ++ last_line) ++ HEAD_END ++ sbytes body.
Proof.
  unfold request_bytes. fold lines. rewrite lines_eq, map_app, concat_app.
  fold init_bytes. cbn [map concat]. rewrite app_nil_r, <- !app_assoc. done.
Qed.

Lemma find_request_head b : find_sub HEAD_END ((init_bytes ++ last_line) ++ HEAD_END ++ b) = Some idx.
Proof using Hok.
  pose proof (find_head_end lines b) as Hf. rewrite lines_eq in Hf. rewrite map_app, concat_app in Hf.
  specialize (Hf ltac:(done)). rewrite <- lines_eq in Hf. specialize (Hf lines_ok).
  fold init_bytes in Hf. cbn [map concat] in Hf. rewrite app_nil_r in Hf.
  replace ((init_bytes ++ last_line) ++ HEAD_END ++ b)
    with ((init_bytes ++ last_line ++ CRLF) ++ CRLF ++ b) by (by rewrite <- !app_assoc).
  etrans; [exact Hf|]. f_equal. unfold idx. rewrite app_assoc, !length_app. cbn [length CRLF]. lia.
Qed.

Lemma split_request_head :
  split_b LF (init_bytes ++ last_line) = (req_line ++ [CR]) :: map (λ l, l ++ [CR]) mid_lines ++ [last_line].
Proof using Hok.
  pose proof lines_ok as Hl. rewrite lines_eq in Hl. apply Forall_app in Hl as [Hi Hl].
  unfold init_bytes. rewrite split_head; [done|done|by inversion Hl].
Qed.

Lemma request_not_tls b : is_tls ((init_bytes ++ last_line) ++ HEAD_END ++ b) = false.
Proof using Hok.
  destruct Hok as [(Hne & _) _ _ _ _ Ht _ _]. unfold init_bytes. cbn [map concat].
  unfold req_line. rewrite !sbytes_app. destruct (sbytes method) as [|m l]; [done|].
  cbn [app is_tls]. destruct (byte_eqb m x16) eqn:Hb; [|by repeat case_match].
  apply byte_eqb_eq in Hb. by subst m.
Qed.

(** However the stream is cut, the server gets to the body with the headers of the request. *)
Lemma read_request_head chunks fin b :
  chunks_ok chunks → concat chunks = (init_bytes ++ last_line) ++ HEAD_END ++ b →
  ∃ b1 rest, chunks_ok rest ∧ b1 ++ concat rest = b ∧
    read_request chunks fin =
      match read_body n b1 rest fin with
      | None => (Dropped, [])
      | Some (body', rest) => (Request method path request_headers (take (Z.to_nat n) body'), rest)
      end.
Proof using Hok.
  intros Hc Hw. pose proof (find_request_head b) as Hf.
  assert (Hi : Z.of_nat idx + 4 <= 1024 * 1024).
  { pose proof (ok_head _ _ _ _ _ _ Hok) as Hh. rewrite request_bytes_eq in Hh.
    rewrite app_assoc, !length_app in Hh. unfold idx. rewrite length_app. cbn [length HEAD_END] in Hh. lia. }
  destruct (read_head_whole [] chunks fin idx) as (buf & rest & Hr & Hrok & Hbuf & Hfb).
  - done.
  - cbn [app]. by rewrite Hw.
  - done.
  - cbn [app]. rewrite Hw. apply request_not_tls.
  - lia.
  - cbn [app] in Hbuf. rewrite Hw in Hbuf.
    pose proof (find_sub_length _ _ _ Hfb) as Hlen. cbn [length HEAD_END] in Hlen.
    assert (Htake : take idx buf = init_bytes ++ last_line).
    { apply (f_equal (take idx)) in Hbuf. rewrite take_app_le in Hbuf by lia. rewrite Hbuf.
      unfold idx. apply take_app_length. }
    exists (drop (idx + 4) buf), rest. split_and!; [done| |].
    + apply (f_equal (drop (idx + 4))) in Hbuf. rewrite drop_app_le in Hbuf by lia. rewrite Hbuf.
      rewrite app_assoc, drop_app_ge by (rewrite length_app; unfold idx; cbn [length HEAD_END]; lia).
      rewrite length_app. fold idx. cbn [length HEAD_END]. by rewrite Nat.sub_diag.
    + unfold read_request. rewrite Hr. destruct buf as [|b0 buf0]; [cbn in Hlen; lia|].
      rewrite Hfb, Htake, split_request_head. destruct req_line_words as [ws Hws]. rewrite Hws.
      cbv zeta. fold request_headers. rewrite request_headers_length. cbn [mbind option_bind].
      unfold parse_u64. rewrite parse_fmt_dec.
      * cbn [default from_option Datatypes.id]. pose proof (ok_body _ _ _ _ _ _ Hok).
        by rewrite (proj2 (Z.ltb_ge MAX_BODY_BYTES n)).
      * pose proof (ok_body _ _ _ _ _ _ Hok). unfold MAX_BODY_BYTES in *. unfold n, U64. lia.
Qed.
End requests.

(** ** Properties *)

(** C36: a request of the shims' HTTP client reaches the broker intact, however the network cuts
    it: if the stream starts with the bytes [request_capped] writes (the head at most 1 MiB, the
    body at most 1 MiB), whatever the non-empty chunks and whatever follows, [read_request] yields
    exactly its method, path and body, the declared length and the entity token. *)
Theorem request_roundtrip host port method path body tok chunks fin extra :
  request_ok host port method path body tok →
  chunks_ok chunks →
  concat chunks = request_bytes host port method path body (token_line tok) ++ extra →
  ∃ headers rest,
    read_request chunks fin = (Request method path headers (sbytes body), rest) ∧
    headers !! "content-length"%string = Some (fmt_dec (Z.of_nat (length (sbytes body)))) ∧
    (∀ t, tok = Some t → headers !! "x-entitytoken"%string = Some t).
Proof.
  intros Hok Hc Hw. rewrite request_bytes_eq, <- !app_assoc in Hw. rewrite (app_assoc (concat _)) in Hw.
  destruct (read_request_head _ _ _ _ _ _ Hok chunks fin _ Hc Hw) as (b1 & rest & Hrok & Hb & Hr).
  destruct (read_body_whole (Z.of_nat (length (sbytes body))) b1 rest fin) as (body' & rest' & Hrb & Heq & Hlen);
    [done|rewrite Hb, length_app; lia|].
  rewrite Hrb in Hr. eexists _, rest'. split_and!.
  - rewrite Hr. do 2 f_equal. rewrite Hb in Heq. rewrite Nat2Z.id.
    apply (f_equal (take (length (sbytes body)))) in Heq.
    rewrite take_app_length, take_app_le in Heq by lia. done.
  - apply request_headers_length.
  - intros t. by eapply request_headers_token.
Qed.

(** what the broker does with a request whose body ends early: a timeout or a failure of the
    connection drops it, but an orderly close makes it a request with the part of the body that
    arrived, although its Content-Length declares more. *)
Theorem short_body host port method path body tok chunks fin part missing :
  request_ok host port method path body tok →
  chunks_ok chunks →
  sbytes body = part ++ missing → missing ≠ [] →
  concat chunks ++ missing = request_bytes host port method path body (token_line tok) →
  ∃ headers,
    read_request chunks fin =
      (match fin with Eof => Request method path headers part | _ => Dropped end, []) ∧
    headers !! "content-length"%string = Some (fmt_dec (Z.of_nat (length (sbytes body)))).
Proof.
  intros Hok Hc Hb Hm Hw. rewrite request_bytes_eq in Hw.
  remember (concat (map _ _) ++ _) as h eqn:Hh in Hw. rewrite Hb, !app_assoc in Hw.
  apply app_inv_tail in Hw. rewrite <- app_assoc in Hw. subst h.
  destruct (read_request_head _ _ _ _ _ _ Hok chunks fin _ Hc Hw) as (b1 & rest & Hrok & Hb1 & Hr).
  eexists. split; [|apply request_headers_length]. rewrite Hr, read_body_short.
  - rewrite Hb1. destruct fin; [|done..]. do 2 f_equal. apply take_ge. rewrite Hb, length_app. lia.
  - done.
  - rewrite Hb1, Hb, length_app. destruct missing; [done|]. cbn [length]. lia.
Qed.

(** ** Responses *)

Lemma utf8_valid_concat_map (f : list byte → list byte) ls :
  Forall (λ l, utf8_valid (f l) = true) ls → utf8_valid (concat (map f ls)) = true.
Proof. induction 1; [done|]. by apply utf8_valid_app. Qed.

Lemma fmt_dec_utf8 n : 0 <= n → utf8_valid (sbytes (fmt_dec n)) = true.
Proof. intros. by apply word_fmt_dec. Qed.

Lemma collect_all max buf chunks :
  chunks_ok chunks → Z.of_nat (length (buf ++ concat chunks)) <= max →
  collect max buf chunks = Some (buf ++ concat chunks).
Proof.
  intros Hok. revert buf. induction Hok as [|c chunks Hc Hok IH]; intros buf Hl; cbn [concat collect] in *.
  - by rewrite app_nil_r.
  - destruct c as [|b c]; [done|]. rewrite (proj2 (Z.ltb_ge _ _)) by (rewrite !length_app in Hl; lia).
    rewrite app_assoc in Hl |- *. by apply IH.
Qed.

Section responses.
Context (code : Z) (ctype : string) (body : list byte).
Context (Hcode : 0 <= code < U16) (Hvalid : utf8_valid (sbytes ctype) = true)
  (Hline : one_line (sbytes ctype)).

Let status_line : list byte := sbytes ("HTTP/1.1 " +:+ fmt_dec code +:+ " " +:+ reason_phrase code).
Let init_lines : list (list byte) :=
  [status_line; sbytes ("Content-Type: " +:+ ctype);
   sbytes ("Content-Length: " +:+ fmt_dec (Z.of_nat (length body))); sbytes "Connection: close"].
Let last_line : list byte := sbytes "Access-Control-Allow-Origin: *".

Lemma reason_phrase_ok : one_line (sbytes (reason_phrase code)) ∧ utf8_valid (sbytes (reason_phrase code)) = true.
Proof. unfold reason_phrase. repeat case_if; (split; [by apply one_line_forallb|done]). Qed.

Lemma status_line_ok : one_line status_line ∧ utf8_valid status_line = true.
Proof using Hcode.
  unfold status_line. rewrite !sbytes_app. split.
  - repeat apply one_line_app; [by apply one_line_forallb|apply one_line_fmt_dec; lia|by apply one_line_forallb|].
    apply reason_phrase_ok.
  - repeat apply utf8_valid_app; [done|apply fmt_dec_utf8; lia|done|apply reason_phrase_ok].
Qed.

Lemma init_lines_ok : Forall (λ l, head_line l ∧ utf8_valid (l ++ CRLF) = true) init_lines.
Proof using Hcode Hvalid Hline.
  assert (H1 : ∀ l, l ≠ [] → one_line l ∧ utf8_valid l = true → head_line l ∧ utf8_valid (l ++ CRLF) = true).
  { intros l ? [[??]?]. split; [done|by apply utf8_valid_app]. }
  unfold init_lines. repeat apply Forall_cons_2; try apply Forall_nil_2; apply H1; try done.
  - apply status_line_ok.
  - rewrite sbytes_app. split; [apply one_line_app; [by apply one_line_forallb|done]|by apply utf8_valid_app].
  - rewrite sbytes_app. split; [apply one_line_app; [by apply one_line_forallb|apply one_line_fmt_dec; lia]|].
    apply utf8_valid_app; [done|apply fmt_dec_utf8; lia].
  - split; [by apply one_line_forallb|done].
Qed.

Lemma send_http_eq :
  send_http code ctype body =
    (concat (map (λ l, l ++ CRLF) init_lines) ++ last_line) ++ HEAD_END ++ body.
Proof.
  unfold send_http. change (response_head code ctype body) with (init_lines ++ [last_line]).
  rewrite map_app, concat_app. set (c := concat (map _ init_lines)). cbn [map concat].
  rewrite app_nil_r, <- !app_assoc. done.
Qed.

Lemma response_head_found :
  find_sub HEAD_END (send_http code ctype body) =
    Some (length (concat (map (λ l, l ++ CRLF) init_lines) ++ last_line)).
Proof using Hcode Hvalid Hline.
  unfold send_http. rewrite find_head_end; [|done|].
  - change (response_head code ctype body) with (init_lines ++ [last_line]).
    rewrite map_app, concat_app. set (c := concat (map _ init_lines)). cbn [map concat].
    rewrite app_nil_r, app_assoc, !(length_app (c ++ last_line)). cbn [length CRLF]. f_equal. lia.
  - change (response_head code ctype body) with (init_lines ++ [last_line]). apply Forall_app. split.
    + eapply Forall_impl; [apply init_lines_ok|]. by intros l [? _].
    + apply Forall_cons_2, Forall_nil_2. split; [done|]. by apply one_line_forallb.
Qed.

Lemma response_status :
  split_whitespace (from_utf8_lossy (concat (map (λ l, l ++ CRLF) init_lines) ++ last_line)) !! 1%nat
    = Some (fmt_dec code).
Proof using Hcode Hvalid Hline.
  rewrite from_utf8_lossy_valid.
  - unfold init_lines. cbn [map concat]. unfold status_line. rewrite !sbytes_app, <- !app_assoc.
    change (sbytes "HTTP/1.1 ") with (sbytes "HTTP/1.1" ++ [x20]).
    change (sbytes " ") with [x20]. rewrite <- (app_assoc (sbytes "HTTP/1.1")). cbn [app].
    unfold split_whitespace. rewrite sbytes_bstr, !split_whitespace_word;
      try done; [|apply word_fmt_dec; lia|by apply word_ascii].
    cbn [map lookup list_lookup]. by rewrite bstr_sbytes.
  - apply utf8_valid_app; [|done]. apply utf8_valid_concat_map.
    eapply Forall_impl; [apply init_lines_ok|]. by intros l [_ ?].
Qed.

Lemma response_parse :
  parse_response (send_http code ctype body) = Ok (mkHttpResponse code (from_utf8_lossy body)).
Proof using Hcode Hvalid Hline.
  unfold parse_response. rewrite response_head_found, send_http_eq, take_app_length, response_status.
  cbn [mbind option_bind]. unfold parse_u16. rewrite parse_fmt_dec by (unfold U16 in *; lia).
  cbn [default from_option Datatypes.id]. do 2 f_equal.
  rewrite app_assoc, drop_app_ge by (rewrite (length_app _ HEAD_END); cbn [length HEAD_END]; lia).
  rewrite (length_app _ HEAD_END). cbn [length HEAD_END]. by rewrite Nat.sub_diag.
Qed.
End responses.

(** a response of the broker reaches the shims' HTTP client intact, however the network cuts
    it and however the connection ends afterwards: [read_response] of the bytes [send_http] writes
    gives back the status code and the body, if the bytes are within the client's limit. *)
Theorem response_roundtrip code ctype body max_bytes chunks fin :
  0 <= code < U16 → utf8_valid (sbytes ctype) = true → one_line (sbytes ctype) →
  chunks_ok chunks → concat chunks = send_http code ctype body →
  Z.of_nat (length (send_http code ctype body)) <= max_bytes →
  read_response max_bytes chunks fin = Ok (mkHttpResponse code (from_utf8_lossy body)).
Proof.
  intros Hc Hv Hl Hok Hw Hm. unfold read_response. rewrite collect_all; [|done|cbn [app]; by rewrite Hw].
  cbn [app]. rewrite Hw. by apply response_parse.
Qed.

(** ** WebSocket frames *)

(** A frame as a client must send it (RFC 6455): final, masked, with the shortest length field. *)
Definition client_frame (opcode : Z) (mask payload : list byte) : list byte :=
  let n := Z.of_nat (length payload) in
  zb (128 + opcode) ::
  (if n <? 126 then [zb (128 + n)]
   else if n <? 65536 then xfe :: rev (to_le 2 n)
   else xff :: rev (to_le 8 n)) ++ mask ++ unmask mask 0 payload.

Lemma land_127 z : Z.land z 127 = z mod 128.
Proof. change 127 with (Z.ones 7). by rewrite Z.land_ones. Qed.

Lemma unmask_twice mask i data : unmask mask i (unmask mask i data) = data.
Proof.
  revert i. induction data as [|b data IH]; intros i; cbn [unmask]; [done|]. rewrite IH. f_equal.
  assert (∀ a c, zb (Z.lxor (bz (zb (Z.lxor (bz a) (bz c)))) (bz c)) = a) as Hx; [|apply Hx].
  intros a c. pose proof (bz_range a). pose proof (bz_range c).
  rewrite bz_zb_small.
  - by rewrite Z.lxor_assoc, Z.lxor_nilpotent, Z.lxor_0_r, zb_bz.
  - assert (0 <= Z.lxor (bz a) (bz c)) by (apply Z.lxor_nonneg; lia). split; [done|].
    assert (Z.lxor (bz a) (bz c) = Z.lxor (bz a) (bz c) mod 2 ^ 8) as ->; [|by apply Z.mod_pos_bound].
    rewrite <- Z.land_ones by lia. apply Z.bits_inj'. intros k Hk.
    rewrite Z.land_spec, Z.lxor_spec, (Z.testbit_ones_nonneg 8) by lia.
    destruct (Z.ltb_spec k 8); [by rewrite andb_true_r|]. rewrite andb_false_r.
    rewrite <- (Z.mod_small (bz a) (2 ^ 8)), <- (Z.mod_small (bz c) (2 ^ 8)) by lia.
    by rewrite !Z.mod_pow2_bits_high by lia.
Qed.

Lemma length_unmask mask i data : length (unmask mask i data) = length data.
Proof. revert i. induction data; intros; cbn [unmask length]; auto. Qed.

Lemma take_exact_app l k : take_exact (length l) (l ++ k) = Some (l, k).
Proof.
  unfold take_exact. rewrite length_app, (proj2 (Nat.leb_le _ _)) by lia.
  by rewrite take_app_length, drop_app_length.
Qed.

Lemma land_opcode opcode : 0 <= opcode < 16 → Z.land (bz (zb (128 + opcode))) 15 = opcode.
Proof.
  intros Ho. rewrite bz_zb_small by lia. change 15 with (Z.ones 4). rewrite Z.land_ones by lia.
  change (2 ^ 4) with 16. change 128 with (8 * 16).
  rewrite Z.add_comm, Z.mod_add by lia. by apply Z.mod_small.
Qed.

(** The length field of a frame, as both ends write it: [m] is the mask bit. *)
Definition length_field (m n : Z) : byte * list byte :=
  if n <? 126 then (zb (m + n), [])
  else if n <? 65536 then (zb (m + 126), rev (to_le 2 n)) else (zb (m + 127), rev (to_le 8 n)).

Lemma ws_length_field m n rest :
  m = 0 ∨ m = 128 → 0 <= n < U64 →
  ws_length (length_field m n).1 ((length_field m n).2 ++ rest) = Some (n, rest) ∧
  negb (Z.land (bz (length_field m n).1) 128 =? 0) = negb (m =? 0).
Proof.
  intros Hm Hn.
  assert (Hz : ∀ x, 0 <= x < 128 → Z.land (bz (zb (m + x))) 127 = x ∧
                negb (Z.land (bz (zb (m + x))) 128 =? 0) = negb (m =? 0)).
  { intros x Hx. rewrite bz_zb_small by lia. rewrite land_127. split.
    - destruct Hm as [->| ->]; [by apply Z.mod_small|].
      replace (128 + x) with (x + 1 * 128) by lia. rewrite Z.mod_add by lia. by apply Z.mod_small.
    - assert (Hb : Z.testbit (m + x) 7 = negb (m =? 0)).
      { rewrite Z.testbit_eqb by lia. change (2 ^ 7) with 128.
        destruct Hm as [->| ->]; [by rewrite Z.div_small|].
        replace (128 + x) with (x + 1 * 128) by lia. by rewrite Z.div_add, (Z.div_small x) by lia. }
      rewrite <- Hb. change 128 with (2 ^ 7).
      destruct (Z.testbit (m + x) 7) eqn:Ht.
      + apply negb_true_iff, Z.eqb_neq. intros H0. apply (f_equal (λ z, Z.testbit z 7)) in H0.
        rewrite Z.land_spec, Ht in H0. done.
      + apply negb_false_iff, Z.eqb_eq. apply Z.bits_inj'. intros k Hk.
        rewrite Z.land_spec, Z.bits_0, Z.pow2_bits_eqb by lia.
        destruct (Z.eqb_spec 7 k) as [<-|]; [by rewrite Ht|by rewrite andb_false_r]. }
  unfold ws_length, length_field. destruct (Z.ltb_spec n 126); [|destruct (Z.ltb_spec n 65536)]; cbn [fst snd].
  - destruct (Hz n) as [-> ->]; [lia|]. split; [|done].
    by rewrite (proj2 (Z.eqb_neq n 126)), (proj2 (Z.eqb_neq n 127)) by lia.
  - destruct (Hz 126) as [-> ->]; [lia|]. split; [|done]. cbn [Z.eqb Pos.eqb].
    change 2%nat with (length (rev (to_le 2 n))) at 1. rewrite take_exact_app.
    cbn [fmap option_fmap option_map]. rewrite rev_involutive, from_le_to_le, Z.mod_small by (simpl; lia). done.
  - destruct (Hz 127) as [-> ->]; [lia|]. split; [|done]. cbn [Z.eqb Pos.eqb].
    change 8%nat with (length (rev (to_le 8 n))) at 1. rewrite take_exact_app.
    cbn [fmap option_fmap option_map]. rewrite rev_involutive, from_le_to_le, Z.mod_small; [done|].
    unfold U64 in *. simpl. lia.
Qed.

(** WebSocket frames of either end are read back: a masked client frame of at most 1,000,000
    bytes of payload gives its opcode and its unmasked payload to the server's loop, and a frame
    of [ws_send_binary] is a frame of opcode 2 with its payload; in both cases the stream is left
    right after the frame. *)
Theorem ws_frame_roundtrip opcode mask payload rest :
  0 <= opcode < 16 → length mask = 4%nat → Z.of_nat (length payload) <= 1000000 →
  ws_frame (client_frame opcode mask payload ++ rest) = Some (opcode, payload, rest) ∧
  ws_frame (ws_send_binary payload ++ rest) = Some (2, payload, rest).
Proof.
  intros Ho Hm Hl. set (n := Z.of_nat (length payload)).
  assert (Hc : client_frame opcode mask payload =
    zb (128 + opcode) :: (length_field 128 n).1 :: (length_field 128 n).2 ++ mask ++ unmask mask 0 payload).
  { unfold client_frame, length_field. fold n. by repeat case_if. }
  assert (Hs : ws_send_binary payload = x82 :: (length_field 0 n).1 :: (length_field 0 n).2 ++ payload).
  { unfold ws_send_binary, length_field. fold n. by repeat case_if. }
  rewrite Hc, Hs. cbn [app]. rewrite <- !app_assoc.
  assert (0 <= n < U64) by (unfold n, U64; lia). unfold ws_frame. split.
  - destruct (ws_length_field 128 n (mask ++ unmask mask 0 payload ++ rest)) as [-> ->]; [by right|done|].
    rewrite (proj2 (Z.ltb_ge 1000000 n)) by (unfold n; lia). cbn [Z.eqb negb].
    rewrite <- Hm, take_exact_app. unfold n. rewrite Nat2Z.id, <- (length_unmask mask 0 payload), take_exact_app.
    by rewrite unmask_twice, land_opcode.
  - destruct (ws_length_field 0 n (payload ++ rest)) as [-> ->]; [by left|done|].
    rewrite (proj2 (Z.ltb_ge 1000000 n)) by (unfold n; lia). cbn [Z.eqb negb].
    unfold n. by rewrite Nat2Z.id, take_exact_app.
Qed.

(** Every frame is shorter than the stream before it, so the rounds of [pump_websocket] suffice. *)
Lemma ws_frame_shorter l op data rest :
  ws_frame l = Some (op, data, rest) → (length rest + 2 ≤ length l)%nat.
Proof.
  assert (Ht : ∀ n (l a b : list byte), take_exact n l = Some (a, b) → (length b ≤ length l)%nat).
  { intros n l' a b. unfold take_exact. case_if; [|done]. intros [= _ <-]. rewrite length_drop. lia. }
  unfold ws_frame. destruct l as [|h0 [|h1 l]]; [done..|]. cbn [length].
  destruct (ws_length h1 l) as [[n l1]|] eqn:Hl; [|done].
  assert (length l1 ≤ length l)%nat.
  { revert Hl. unfold ws_length. repeat case_if.
    1,2: destruct (take_exact _ l) as [[a b]|] eqn:He; [|done]; intros [= _ <-]; by eapply Ht.
    by intros [= _ <-]. }
  case_if; [done|]. cbv zeta.
  destruct (if negb _ then take_exact 4 l1 else _) as [[mask l2]|] eqn:H2; [|done].
  assert (length l2 ≤ length l1)%nat by (case_if_in H2; [by eapply Ht|by injection H2 as _ <-]).
  destruct (take_exact (Z.to_nat n) l2) as [[d l3]|] eqn:H3; [|done]. apply Ht in H3.
  intros [= _ _ <-]. lia.
Qed.

Lemma pump_loop_fuel `{SerdeJson} f1 f2 l :
  (length l < f1)%nat → (length l < f2)%nat → pump_loop f1 l = pump_loop f2 l.
Proof.
  revert f2 l. induction f1 as [|f1 IH]; intros f2 l H1 H2; [lia|]. destruct f2 as [|f2]; [lia|].
  cbn [pump_loop]. destruct (ws_frame l) as [[[op data] rest]|] eqn:Hf; [|done].
  apply ws_frame_shorter in Hf. by rewrite (IH f2 rest) by lia.
Qed.

(** ** The connection budget *)

(** a listener never serves more connections than its cap, and its counter leaks no slot: it
    is the number of served connections, plus one exactly while a refusal is being undone. *)
Theorem connection_budget cap b :
  0 <= cap → rtc (budget_step cap) (mkBudget 0 0 false) b →
  0 <= served b <= cap ∧ live b = served b + (if refusing b then 1 else 0).
Proof.
  intros Hcap Hr. refine (rtc_invariant (budget_step cap)
    (λ b, 0 <= served b <= cap ∧ live b = served b + (if refusing b then 1 else 0)) _ _ _ Hr _); [|cbn; lia].
  clear b Hr. intros b1 b2 Hstep [Hs Hl]. destruct Hstep as [? Hr|? Hr|? Hr|?]; cbn [live served refusing];
    try rewrite Hr in Hl; try case_match; lia.
Qed.

(** ** Witnesses *)

Definition demo_body : string := "{}".
Definition demo_req : list byte := request_bytes "10.0.0.2" 8080 "POST" "/party/join" demo_body (token_line (Some "tok")).

Lemma demo_request_ok : request_ok "10.0.0.2" 8080 "POST" "/party/join" demo_body (Some "tok").
Proof.
  assert (Hw : ∀ s, s ≠ ""%string → forallb (λ b, (bz b <? 128) && negb (is_white_space (bz b))) (sbytes s) = true →
            word (sbytes s)).
  { intros s Hs Hf. apply word_ascii; [|done]. by destruct s. }
  split; try (by apply Hw); try done.
  - by apply one_line_forallb.
  - intros t [= <-]. by apply Hw.
Qed.

Lemma request_roundtrip_witness :
  ∃ headers rest,
    read_request [take 3 demo_req; take 50 (drop 3 demo_req); drop 53 demo_req] TimedOut =
      (Request "POST" "/party/join" headers (sbytes demo_body), rest) ∧
    headers !! "content-length"%string = Some "2"%string ∧
    (∀ t, Some "tok"%string = Some t → headers !! "x-entitytoken"%string = Some t).
Proof.
  refine (request_roundtrip "10.0.0.2" 8080 "POST" "/party/join" demo_body (Some "tok"%string)
    [take 3 demo_req; take 50 (drop 3 demo_req); drop 53 demo_req] TimedOut [] demo_request_ok _ _).
  - repeat apply Forall_cons_2; [done..|apply Forall_nil_2].
  - vm_compute. reflexivity.
Defined.

Lemma short_body_witness :
  ∃ headers,
    read_request [take (length demo_req - 1) demo_req] Eof =
      (Request "POST" "/party/join" headers (sbytes "{"), []) ∧
    headers !! "content-length"%string = Some "2"%string.
Proof.
  refine (short_body "10.0.0.2" 8080 "POST" "/party/join" demo_body (Some "tok"%string)
    [take (length demo_req - 1) demo_req] Eof (sbytes "{") (sbytes "}") demo_request_ok _ _ _ _).
  - apply Forall_cons_2; [done|apply Forall_nil_2].
  - reflexivity.
  - done.
  - vm_compute. reflexivity.
Defined.

Lemma response_roundtrip_witness :
  read_response 200 [take 20 (send_http 409 "application/json" (sbytes "{}"));
                     drop 20 (send_http 409 "application/json" (sbytes "{}"))] Failed
    = Ok (mkHttpResponse 409 "{}").
Proof.
  refine (response_roundtrip 409 "application/json" (sbytes "{}") 200 _ Failed _ _ _ _ _ _).
  - done.
  - reflexivity.
  - by apply one_line_forallb.
  - repeat apply Forall_cons_2; [done..|apply Forall_nil_2].
  - vm_compute. reflexivity.
  - vm_compute. done.
Defined.

Lemma ws_frame_roundtrip_witness :
  ws_frame (client_frame 1 [x01; x02; x03; x04] (sbytes "hello") ++ [x8a]) = Some (1, sbytes "hello", [x8a]) ∧
  ws_frame (ws_send_binary (sbytes "hello") ++ [x8a]) = Some (2, sbytes "hello", [x8a]).
Proof. apply ws_frame_roundtrip; [lia|done|vm_compute; done]. Defined.

Lemma connection_budget_witness :
  0 <= 1 <= 1 ∧ 2 = 1 + 1.
Proof.
  refine (connection_budget 1 (mkBudget 2 1 true) _ _); [lia|].
  apply (rtc_l _ _ (mkBudget 1 1 false)); [by apply (acquire_ok 1 (mkBudget 0 0 false))|].
  apply rtc_once. by apply (acquire_over 1 (mkBudget 1 1 false)).
Defined.
