(* ===== verification/Serve.v ===== *)
(** * The running broker: [lan-server/src/main.rs], [serve] and its connection threads

    [Broker] interleaves the critical sections of requests that are all there from
    the start, [Server] reads and answers one connection.  Here the two accept
    loops take connections as they come, within their budgets; every connection
    has a thread that reads its request when the bytes are there and takes the
    lock when it gets it.  Whatever the order, the whole behaves as if the
    connections were handled one at a time. *)

From S2P Require Import Prelude RustStr F64 Value App Playfab Party Broker Http Server.
#[local] Open Scope string_scope.
#[local] Open Scope list_scope.
#[local] Open Scope Z_scope.

(** A socket: the listener that accepted it (true: the WebSocket port), what arrives on it, and the
    address of the peer. *)
Record Connection := mkConnection {
  c_ws : bool;
  c_chunks : list (list byte);
  c_fin : ReadEnd;
  c_peer : option string
}.

Section serve.
Context `{SJ : SerdeJson} `{O : HashOrder} `{C : Crypto}.

(** Its thread: reading, at a critical section of its request, or gone with what it wrote; a
    connection refused at the cap has no thread. *)
Inductive Conn :=
  | Reading (c : Connection)
  | Handling (c : Connection) (pc : Pc) (q : Call)
  | Closed (c : Connection) (out : list byte)
  | Refused (out : list byte).

(** [s_live] is the counter of a listener. *)
Record Serving := mkServing { s_app : App; s_live : bool → Z; s_conns : gmap nat Conn }.

Inductive Event :=
  | Accept (i : nat) (c : Connection)
  | ReadIn (i : nat) (k : Clock)
  | Turn (i : nat) (k : Clock).

(** [handle_client] up to the dispatcher: what is written without it, or the request. *)
Definition client_call (c : Connection) : list byte + Call :=
  match read_request (c_chunks c) (c_fin c) with
  | (TooLarge, _) => inl (send_http 413 "text/plain" (sbytes "request body too large"))
  | (Dropped, _) => inl []
  | (Request method path headers body_raw, rest) =>
      let headers := match c_peer c, headers !! "x-peer-ip" with
        | Some ip, None => <["x-peer-ip" := ip]> headers
        | _, _ => headers
        end in
      if is_websocket_upgrade headers then inl (handle_ws_upgrade headers rest)
      else if bool_decide (method = "OPTIONS") then inl options_response
      else inr (mkCall method path headers (request_json body_raw))
  end.
Definition answer (r : Response) : list byte := let '(code, ctype, out) := r in send_http code ctype out.

Definition set_live (ws : bool) (d : Z) (s : Serving) : bool → Z :=
  λ l, if Bool.eqb l ws then s_live s l + d else s_live s l.

(** [ConnGuard::acquire] and its drop; the connection's turn. *)
Definition accept (cap : Z) (i : nat) (c : Connection) (s : Serving) : Serving :=
  match s_conns s !! i with
  | Some _ => s
  | None =>
      if s_live s (c_ws c) + 1 <=? cap
      then mkServing (s_app s) (set_live (c_ws c) 1 s) (<[i := Reading c]> (s_conns s))
      else mkServing (s_app s) (s_live s)
             (<[i := Refused (send_http 503 "text/plain" (sbytes "too many connections"))]> (s_conns s))
  end.
Definition close (i : nat) (c : Connection) (out : list byte) (app : App) (s : Serving) : Serving :=
  mkServing app (set_live (c_ws c) (-1) s) (<[i := Closed c out]> (s_conns s)).
Definition serve_event (cap : Z) (e : Event) (s : Serving) : Serving :=
  match e with
  | Accept i c => accept cap i c s
  | ReadIn i _ =>
      match s_conns s !! i with
      | Some (Reading c) =>
          match client_call c with
          | inl out => close i c out (s_app s) s
          | inr q => mkServing (s_app s) (s_live s) (<[i := Handling c AtCygames q]> (s_conns s))
          end
      | _ => s
      end
  | Turn i k =>
      match s_conns s !! i with
      | Some (Handling c pc q) =>
          match section (s_app s) pc q k with
          | Some (r, app) => close i c (answer r) app s
          | None => mkServing (s_app s) (s_live s) (<[i := Handling c (pc_next pc q) q]> (s_conns s))
          end
      | _ => s
      end
  end.
Definition serve (cap : Z) (evs : list Event) (s : Serving) : Serving := foldl (λ s e, serve_event cap e s) s evs.
Definition serving_init (app : App) : Serving := mkServing app (λ _, 0) ∅.

(** ** One connection after the other *)

(** [handle_client] is its reading half and the dispatcher. *)
Lemma handle_client_call app c k :
  handle_client app (c_chunks c) (c_fin c) (c_peer c) k =
    match client_call c with
    | inl out => (out, app)
    | inr q => (answer (dispatch app q k).1, (dispatch app q k).2)
    end.
Proof.
  unfold handle_client, client_call. destruct (read_request _ _) as [[method path headers raw| |] rest]; [|done..].
  case_if; [done|]. case_bool_decide; [done|]. by destruct (dispatch _ _ _) as [[[code ctype] out] app'].
Qed.

(** The sequential broker: each connection is handled to its end before the next one starts. *)
Fixpoint handle_in_order (cs : gmap nat Connection) (order : list (nat * Clock)) (app : App)
    : App * gmap nat (list byte) :=
  match order with
  | [] => (app, ∅)
  | (i, k) :: order =>
      match cs !! i with
      | None => handle_in_order cs order app
      | Some c =>
          let '(out, app') := handle_client app (c_chunks c) (c_fin c) (c_peer c) k in
          let '(app'', outs) := handle_in_order cs order app' in (app'', <[i := out]> outs)
      end
  end.

Definition connection_of (c : Conn) : option Connection :=
  match c with Reading c | Handling c _ _ | Closed c _ => Some c | Refused _ => None end.
(** The connections that got a thread. *)
Definition accepted (s : Serving) : gmap nat Connection := omap connection_of (s_conns s).
(** The turns of the threads, in order. *)
Definition turns_of (evs : list Event) : list (nat * Clock) :=
  omap (λ e, match e with Accept _ _ => None | ReadIn i k | Turn i k => Some (i, k) end) evs.

Lemma handle_in_order_app cs o1 o2 app :
  handle_in_order cs (o1 ++ o2) app =
    let '(app1, outs1) := handle_in_order cs o1 app in
    let '(app2, outs2) := handle_in_order cs o2 app1 in (app2, outs1 ∪ outs2).
Proof.
  revert app. induction o1 as [|[i k] o1 IH]; intros app; cbn [handle_in_order List.app].
  { destruct (handle_in_order cs o2 app). by rewrite map_empty_union. }
  destruct (cs !! i) as [c|]; [|apply IH].
  destruct (handle_client app _ _ _ k) as [out app']. rewrite IH.
  destruct (handle_in_order cs o1 app') as [app1 outs1]. destruct (handle_in_order cs o2 app1) as [app2 outs2].
  by rewrite insert_union_l.
Qed.

Lemma handle_in_order_ext cs cs' order app :
  (∀ i, i ∈ order.*1 → cs !! i = cs' !! i) → handle_in_order cs order app = handle_in_order cs' order app.
Proof.
  revert app. induction order as [|[i k] order IH]; intros app Hcs; cbn [handle_in_order]; [done|].
  rewrite <- (Hcs i) by left. destruct (cs !! i) as [c|]; [|apply IH; intros; apply Hcs; by right].
  destruct (handle_client app _ _ _ k) as [out app']. rewrite IH; [done|]. intros j Hj. apply Hcs. by right.
Qed.

Lemma handle_in_order_dom cs order app i out :
  (handle_in_order cs order app).2 !! i = Some out → i ∈ order.*1.
Proof.
  revert app. induction order as [|[j k] order IH]; intros app; cbn [handle_in_order]; [done|].
  destruct (cs !! j) as [c|]; [|intros; right; eauto].
  destruct (handle_client app _ _ _ k) as [o app']. specialize (IH app').
  destruct (handle_in_order cs order app') as [app'' outs]. cbn [fst snd] in *.
  destruct (decide (i = j)) as [->|]; [by left|]. rewrite lookup_insert_ne by done. intros. right. auto.
Qed.

(** ** A run explained *)

Definition closed (x : option Conn) : Prop := match x with Some (Closed _ _) => True | _ => False end.

(** [order] says in which order the connections closed so far were handled. *)
Record explained (app0 : App) (turns : list (nat * Clock)) (s : Serving) (order : list (nat * Clock)) : Prop := {
  ex_sub : order `sublist_of` turns;
  ex_nodup : NoDup order.*1;
  ex_closed i : i ∈ order.*1 → closed (s_conns s !! i);
  ex_app : (handle_in_order (accepted s) order app0).1 = s_app s;
  ex_out i out : (∃ c, s_conns s !! i = Some (Closed c out)) ↔ (handle_in_order (accepted s) order app0).2 !! i = Some out;
  ex_run i c pc q : s_conns s !! i = Some (Handling c pc q) → client_call c = inr q ∧ reached pc q
}.

(** Connection [i] goes on, or arrives. *)
Lemma explained_goes_on app0 turns turns' s order i x live :
  explained app0 turns s order → turns `sublist_of` turns' →
  ¬ closed (s_conns s !! i) → ¬ closed (Some x) →
  (∀ c pc q, x = Handling c pc q → client_call c = inr q ∧ reached pc q) →
  explained app0 turns' (mkServing (s_app s) live (<[i := x]> (s_conns s))) order.
Proof.
  intros [Hsub Hnd Hcl Happ Hout Hrun] Ht Hi Hx Hr.
  assert (Hne : ∀ j, j ∈ order.*1 → j ≠ i) by (intros j Hj ->; by apply Hi, Hcl).
  assert (Heq : handle_in_order (accepted (mkServing (s_app s) live (<[i := x]> (s_conns s)))) order app0 =
                handle_in_order (accepted s) order app0).
  { apply handle_in_order_ext. intros j Hj. unfold accepted. cbn [s_conns].
    rewrite !lookup_omap, lookup_insert_ne; [done|]. by apply not_eq_sym, Hne. }
  split; cbn [s_app s_conns]; rewrite ?Heq; [by etrans|done| |done| |].
  - intros j Hj. rewrite lookup_insert_ne by (by apply not_eq_sym, Hne). by apply Hcl.
  - intros j out. rewrite <- Hout. destruct (decide (i = j)) as [<-|Hij]; [|by rewrite lookup_insert_ne].
    rewrite lookup_insert_eq. split; intros [c Hc]; exfalso.
    + injection Hc as ->. by apply Hx.
    + apply Hi. by rewrite Hc.
  - intros j c pc q. rewrite lookup_insert_Some. intros [[_ ->]|[_ Hj]]; [by apply Hr|by eapply Hrun].
Qed.

(** Connection [i] is answered. *)
Lemma explained_closes app0 turns s order i k c x out app :
  explained app0 turns s order →
  s_conns s !! i = Some x → ¬ closed (Some x) → connection_of x = Some c →
  handle_client (s_app s) (c_chunks c) (c_fin c) (c_peer c) k = (out, app) →
  explained app0 (turns ++ [(i, k)]) (close i c out app s) (order ++ [(i, k)]).
Proof.
  intros [Hsub Hnd Hcl Happ Hout Hrun] Hi Hx Hc Hh.
  assert (Hnot : i ∉ order.*1) by (intros Hin; apply Hcl in Hin; by rewrite Hi in Hin).
  assert (Hacc : ∀ j, accepted (close i c out app s) !! j = accepted s !! j).
  { intros j. unfold accepted, close. cbn [s_conns]. rewrite !lookup_omap.
    destruct (decide (i = j)) as [<-|Hij]; [|by rewrite lookup_insert_ne].
    rewrite lookup_insert_eq, Hi. cbn. by rewrite Hc. }
  assert (Hci : accepted s !! i = Some c) by (unfold accepted; rewrite lookup_omap, Hi; done).
  assert (Heq : handle_in_order (accepted (close i c out app s)) (order ++ [(i, k)]) app0 =
    (app, (handle_in_order (accepted s) order app0).2 ∪ {[i := out]})).
  { rewrite (handle_in_order_ext _ (accepted s)) by (intros; apply Hacc). rewrite handle_in_order_app.
    destruct (handle_in_order (accepted s) order app0) as [app1 outs1]. cbn in Happ. subst app1.
    cbn [handle_in_order]. by rewrite Hci, Hh. }
  split; rewrite ?Heq; cbn [fst snd close s_app s_conns].
  - by apply sublist_app.
  - rewrite fmap_app. apply NoDup_app. split_and!; [done| |apply NoDup_singleton].
    intros j Hj Hji. apply list_elem_of_singleton in Hji as ->. done.
  - intros j Hj. destruct (decide (i = j)) as [<-|Hij]; [by rewrite lookup_insert_eq|].
    rewrite lookup_insert_ne by done. apply Hcl. rewrite fmap_app in Hj.
    apply elem_of_app in Hj as [|Hj]; [done|]. apply list_elem_of_singleton in Hj. by cbn in Hj.
  - done.
  - intros j o. rewrite lookup_union_Some_raw, lookup_singleton_Some, <- Hout.
    destruct (decide (i = j)) as [<-|Hij].
    + rewrite lookup_insert_eq. rewrite Hi.
      assert (Hn : (handle_in_order (accepted s) order app0).2 !! i = None).
      { apply eq_None_not_Some. intros [o' Ho']. by apply handle_in_order_dom in Ho'. }
      rewrite Hn. split; [intros [c' [= _ <-]]; by right|]. intros [[c' [= ->]]|(_ & _ & <-)]; [by destruct Hx|eauto].
    + rewrite lookup_insert_ne by done. split; [by left|]. intros [?|(_ & ? & _)]; done.
  - intros j c' pc q. rewrite lookup_insert_Some. intros [[_ ?]|[_ Hj]]; [done|by eapply Hrun].
Qed.

Lemma turns_of_snoc evs e : turns_of (evs ++ [e]) = turns_of evs ++ turns_of [e].
Proof. apply omap_app. Qed.

Lemma explained_step cap app0 evs e s order :
  explained app0 (turns_of evs) s order → ∃ order', explained app0 (turns_of (evs ++ [e])) (serve_event cap e s) order'.
Proof.
  intros He. rewrite turns_of_snoc.
  assert (Hsame : explained app0 (turns_of evs ++ turns_of [e]) s order).
  { destruct He as [Hsub Hnd Hcl Happ Hout Hrun]. split; try done. etrans; [exact Hsub|]. by apply sublist_inserts_r. }
  assert (Hext : turns_of evs `sublist_of` turns_of evs ++ turns_of [e]) by (by apply sublist_inserts_r).
  destruct e as [i c|i k|i k]; cbn [serve_event].
  - unfold accept. destruct (s_conns s !! i) as [x|] eqn:Hi; [by exists order|].
    assert (Hnc : ¬ closed (s_conns s !! i)) by (rewrite Hi; by intros []).
    case_if; exists order; eapply explained_goes_on; eauto; done.
  - destruct (s_conns s !! i) as [[c|c pc q|c out|out]|] eqn:Hi; try (by exists order).
    assert (Hnc : ¬ closed (s_conns s !! i)) by (rewrite Hi; by intros []).
    destruct (client_call c) as [out|q] eqn:Hc.
    + exists (order ++ [(i, k)]). eapply (explained_closes app0 (turns_of evs)); [exact He|exact Hi|by intros ?|done|].
      by rewrite handle_client_call, Hc.
    + exists order. eapply explained_goes_on; [exact He|done|done|by intros ?|]. by intros c' pc' q' [= <- <- <-].
  - destruct (s_conns s !! i) as [[c|c pc q|c out|out]|] eqn:Hi; try (by exists order).
    assert (Hnc : ¬ closed (s_conns s !! i)) by (rewrite Hi; by intros []).
    destruct (ex_run _ _ _ _ He _ _ _ _ Hi) as [Hc Hr].
    destruct (section (s_app s) pc q k) as [[r app]|] eqn:Hs.
    + exists (order ++ [(i, k)]). eapply (explained_closes app0 (turns_of evs)); [exact He|exact Hi|by intros ?|done|].
      rewrite handle_client_call, Hc. by rewrite (dispatch_at _ _ _ _ _ Hr Hs).
    + exists order. eapply explained_goes_on; [exact He|done|done|by intros ?|].
      intros c' pc' q' [= <- <- <-]. split; [done|]. by eapply reached_next.
Qed.

Lemma serve_explained cap app0 evs : ∃ order, explained app0 (turns_of evs) (serve cap evs (serving_init app0)) order.
Proof.
  induction evs as [|e evs [order IH]] using rev_ind.
  - exists []. split; cbn; try done.
    + constructor.
    + intros i Hi. by apply elem_of_nil in Hi.
    + intros i out. rewrite !lookup_empty. split; [by intros [? ?]|done].
  - unfold serve. rewrite foldl_app. cbn [foldl]. by eapply explained_step.
Qed.

(** *** The budgets *)

Definition on_listener (ws : bool) (x : Conn) : bool :=
  match x with Reading c | Handling c _ _ => Bool.eqb (c_ws c) ws | _ => false end.
(** The connections of a listener that hold a guard. *)
Definition in_service (ws : bool) (conns : gmap nat Conn) : Z :=
  Z.of_nat (size (filter (λ f, on_listener ws f.2 = true) conns)).
Definition holds_guard (ws : bool) (x : option Conn) : Z :=
  match x with Some x => if on_listener ws x then 1 else 0 | None => 0 end.

Lemma in_service_fresh ws conns i x :
  conns !! i = None → in_service ws (<[i := x]> conns) = in_service ws conns + holds_guard ws (Some x).
Proof.
  intros Hi. unfold in_service, holds_guard. destruct (on_listener ws x) eqn:Hx.
  - rewrite map_filter_insert_True by done. rewrite map_size_insert_None; [lia|].
    apply map_lookup_filter_None. by left.
  - rewrite map_filter_insert_False by (cbn; by rewrite Hx). rewrite delete_id by done. lia.
Qed.

Lemma in_service_insert ws conns i x :
  in_service ws (<[i := x]> conns) = in_service ws conns - holds_guard ws (conns !! i) + holds_guard ws (Some x).
Proof.
  rewrite <- insert_delete_eq. rewrite in_service_fresh by apply lookup_delete_eq. f_equal.
  destruct (conns !! i) as [y|] eqn:Hi; [|rewrite delete_id by done; cbn; lia].
  rewrite <- (insert_delete_id conns i y Hi) at 2. rewrite in_service_fresh by apply lookup_delete_eq. lia.
Qed.

Definition within_budget (cap : Z) (s : Serving) : Prop :=
  ∀ ws, s_live s ws = in_service ws (s_conns s) ∧ in_service ws (s_conns s) <= cap.

(** A connection that goes on keeps its guard, one that closes gives it back. *)
Lemma within_budget_goes_on cap s i x y app :
  within_budget cap s → s_conns s !! i = Some x → (∀ ws, on_listener ws y = on_listener ws x) →
  within_budget cap (mkServing app (s_live s) (<[i := y]> (s_conns s))).
Proof.
  intros Hb Hi Hy ws. destruct (Hb ws). cbn [s_live s_conns]. rewrite in_service_insert, Hi. cbn. rewrite Hy. lia.
Qed.

Lemma within_budget_close cap s i x c out app :
  within_budget cap s → s_conns s !! i = Some x → (∀ ws, on_listener ws x = Bool.eqb (c_ws c) ws) →
  within_budget cap (close i c out app s).
Proof.
  intros Hb Hi Hx ws. destruct (Hb ws). unfold close, set_live. cbn [s_live s_conns].
  rewrite in_service_insert, Hi. cbn. rewrite Hx. destruct ws, (c_ws c); cbn; lia.
Qed.

Lemma within_budget_step cap e s : within_budget cap s → within_budget cap (serve_event cap e s).
Proof.
  intros Hb. destruct e as [i c|i k|i k]; cbn [serve_event].
  - unfold accept. destruct (s_conns s !! i) eqn:Hi; [done|].
    case_if; intros ws; destruct (Hb ws), (Hb (c_ws c)); unfold set_live; cbn [s_live s_conns];
      rewrite in_service_fresh by done; cbn; [|lia].
    destruct ws, (c_ws c); cbn in *; lia.
  - destruct (s_conns s !! i) as [[c|c pc q|c out|out]|] eqn:Hi; try done.
    destruct (client_call c); [by eapply within_budget_close|by eapply within_budget_goes_on].
  - destruct (s_conns s !! i) as [[c|c pc q|c out|out]|] eqn:Hi; try done.
    destruct (section _ _ _ _) as [[r app]|]; [by eapply within_budget_close|by eapply within_budget_goes_on].
Qed.

Lemma serve_within_budget cap app evs : 0 <= cap → within_budget cap (serve cap evs (serving_init app)).
Proof.
  intros Hcap. unfold serve. induction evs as [|e evs IH] using rev_ind.
  - intros ws. cbn. unfold in_service. rewrite map_filter_empty, map_size_empty. cbn. lia.
  - rewrite foldl_app. cbn [foldl]. by apply within_budget_step.
Qed.

(** ** Every connection is closed *)

(** The turns at the lock connection [i] still needs, and those a schedule gives it. *)
Definition turns_left (x : Conn) : nat :=
  match x with Handling _ pc q => sections_left (Running pc q) | _ => 0 end.
Definition is_turn (i : nat) (e : Event) : bool := match e with Turn j _ => bool_decide (j = i) | _ => false end.
Definition turns_at_lock (i : nat) (evs : list Event) : nat := length (filter (λ e, is_turn i e = true) evs).

Definition has_read (x : Conn) : Prop :=
  match x with Handling _ _ _ | Closed _ _ => True | _ => False end.

Lemma has_read_step cap e s i x :
  s_conns s !! i = Some x → has_read x →
  ∃ x', s_conns (serve_event cap e s) !! i = Some x' ∧ has_read x' ∧
    (turns_left x' + (if is_turn i e then 1 else 0) ≤ turns_left x ∨ turns_left x' = 0)%nat.
Proof.
  intros Hi Hx. destruct e as [j c|j k|j k]; cbn [serve_event is_turn].
  - exists x. split; [|split; [done|left; lia]]. unfold accept. destruct (s_conns s !! j) eqn:Hj; [done|].
    assert (j ≠ i) by (intros ->; by rewrite Hi in Hj). case_if; cbn; by rewrite lookup_insert_ne.
  - exists x. split; [|split; [done|left; lia]]. destruct (decide (j = i)) as [->|].
    + rewrite Hi. by destruct x.
    + destruct (s_conns s !! j) as [[]|]; try done. destruct (client_call _); cbn; by rewrite lookup_insert_ne.
  - case_bool_decide as Hji.
    + subst j. rewrite Hi. destruct x as [c|c pc q|c out|out]; try done.
      * destruct (section _ _ _ _) as [[r app]|] eqn:Hs; cbn [close s_conns]; eexists; rewrite lookup_insert_eq; (split; [done|]).
        -- split; [done|by right].
        -- split; [done|]. destruct pc; [cbn; destruct (starts_with _ _); cbn; lia|cbn; lia|cbn; lia|done].
      * exists (Closed c out). split; [done|]. split; [done|by right].
    + exists x. split; [|split; [done|left; lia]]. destruct (s_conns s !! j) as [[]|]; try done.
      destruct (section _ _ _ _) as [[]|]; cbn; by rewrite lookup_insert_ne.
Qed.

Lemma turns_close cap evs s i x :
  s_conns s !! i = Some x → has_read x → (turns_left x ≤ turns_at_lock i evs)%nat →
  closed (s_conns (serve cap evs s) !! i).
Proof.
  revert s x. induction evs as [|e evs IH]; intros s x Hi Hx Hle; cbn [serve foldl].
  { rewrite Hi. destruct x as [|? [] ?| |]; cbn in *; done || lia. }
  destruct (has_read_step cap e s i x Hi Hx) as (x' & Hi' & Hx' & Hs). apply (IH _ x' Hi' Hx').
  unfold turns_at_lock in *. rewrite filter_cons in Hle.
  destruct (is_turn i e); [rewrite decide_True in Hle by done|rewrite decide_False in Hle by done]; cbn in Hle; lia.
Qed.
(** ** Properties *)

(** C7: the running broker is linearizable and keeps its budgets.  Whatever connections arrive on
    the two listeners, whatever they carry (requests, WebSocket upgrades, bodies too large,
    streams that end early) and however their threads' reading and critical sections interleave,
    there is an order of the connections closed by then, each at one of its own turns, such that
    handling them to their end one after the other with [handle_client] leaves the same shared
    state and writes the same bytes to each of them; and the counter of each listener is the number
    of its connections in service, which is never above the cap. *)
Theorem server_linearizable cap app evs :
  0 <= cap →
  let s := serve cap evs (serving_init app) in
  (∃ order, order `sublist_of` turns_of evs ∧ NoDup order.*1 ∧
     (handle_in_order (accepted s) order app).1 = s_app s ∧
     ∀ i out, (∃ c, s_conns s !! i = Some (Closed c out)) ↔
              (handle_in_order (accepted s) order app).2 !! i = Some out) ∧
  ∀ ws, s_live s ws = in_service ws (s_conns s) ∧ in_service ws (s_conns s) <= cap.
Proof.
  intros Hcap s. split; [|by apply serve_within_budget].
  destruct (serve_explained cap app evs) as [order [Hsub Hnd _ Happ Hout _]]. by exists order.
Qed.

(** A connection refused is refused because the cap is in service. *)
Theorem refused_at_cap cap app evs i c :
  0 <= cap → let s := serve cap evs (serving_init app) in
  s_conns s !! i = None →
  (∃ out, s_conns (serve_event cap (Accept i c) s) !! i = Some (Refused out)) ↔ in_service (c_ws c) (s_conns s) = cap.
Proof.
  intros Hcap s Hi. destruct (serve_within_budget cap app evs Hcap (c_ws c)) as [Hl Hle]. fold s in Hl, Hle.
  cbn [serve_event]. unfold accept. rewrite Hi, Hl. case_if; cbn [s_conns]; rewrite lookup_insert_eq.
  - split; [by intros [? ?]|lia].
  - split; [lia|by eexists].
Qed.

(** A connection that got a thread is closed: once its request is read, four turns at the lock
    are enough, whatever the other connections do in between. *)
Theorem accepted_is_closed cap app before i c k after :
  s_conns (serve cap before (serving_init app)) !! i = Some (Reading c) →
  (4 ≤ turns_at_lock i after)%nat →
  ∃ c' out, s_conns (serve cap (before ++ ReadIn i k :: after) (serving_init app)) !! i = Some (Closed c' out).
Proof.
  unfold serve at 2. rewrite foldl_app. fold (serve cap before (serving_init app)).
  set (s := serve cap before (serving_init app)). intros Hi Hle. cbn [foldl serve_event]. rewrite Hi.
  assert (Hc : ∀ s' x, s_conns s' !! i = Some x → has_read x → closed (s_conns (serve cap after s') !! i)).
  { intros s' x Hx Hr. apply (turns_close cap after s' i x Hx Hr). destruct x as [|? [] ?| |]; cbn; lia. }
  assert (Hd : ∀ s', closed (s_conns (serve cap after s') !! i) →
    ∃ c' out, s_conns (foldl (λ s e, serve_event cap e s) s' after) !! i = Some (Closed c' out)).
  { unfold serve, closed. intros s'. destruct (s_conns (foldl _ s' after) !! i) as [[]|]; try done. eauto. }
  apply Hd. destruct (client_call c); (eapply Hc; [apply lookup_insert_eq|done]).
Qed.
End serve.

(** ** Witnesses *)

Definition demo_get (ws : bool) : Connection :=
  mkConnection ws [request_bytes "10.0.0.2" 8080 "GET" "/v1/api/party/unknown" "" None] Eof (Some "10.0.0.9").
(** Two connections at the HTTP port, which takes one at a time, and one at the WebSocket port. *)
Definition demo_events : list Event :=
  [Accept 0 (demo_get false); Accept 1 (demo_get false); Accept 2 (demo_get true); ReadIn 2 demo_clock; ReadIn 0 demo_clock;
   Turn 2 demo_clock; Turn 0 demo_clock; Turn 0 demo_clock; Turn 0 demo_clock; Turn 0 demo_clock; Turn 2 demo_clock].
Definition demo_served : Serving := serve 1 demo_events (serving_init demo_app).

Example demo_states :
  map (λ i, match s_conns demo_served !! i with
            | Some (Closed _ _) => 0 | Some (Handling _ _ _) => 1 | Some (Refused _) => 2 | _ => 3 end)
    [0%nat; 1%nat; 2%nat; 3%nat] = [0; 2; 1; 3].
Proof. vm_compute. reflexivity. Qed.

Lemma server_linearizable_witness :
  (∃ order, order `sublist_of` turns_of demo_events ∧ NoDup order.*1 ∧
     (handle_in_order (accepted demo_served) order demo_app).1 = s_app demo_served ∧
     ∀ i out, (∃ c, s_conns demo_served !! i = Some (Closed c out)) ↔
              (handle_in_order (accepted demo_served) order demo_app).2 !! i = Some out) ∧
  ∀ ws, s_live demo_served ws = in_service ws (s_conns demo_served) ∧ in_service ws (s_conns demo_served) <= 1.
Proof. refine (server_linearizable 1 demo_app demo_events _). lia. Defined.

Lemma refused_at_cap_witness :
  let s := serve 1 (take 3 demo_events) (serving_init demo_app) in
  (∃ out, s_conns (serve_event 1 (Accept 3 (demo_get true)) s) !! 3%nat = Some (Refused out)) ↔
  in_service (c_ws (demo_get true)) (s_conns s) = 1.
Proof. refine (refused_at_cap 1 demo_app (take 3 demo_events) 3 (demo_get true) _ _); [lia|reflexivity]. Defined.

Lemma accepted_is_closed_witness :
  ∃ c' out, s_conns (serve 1 (take 3 demo_events ++ ReadIn 0 demo_clock :: drop 5 demo_events)
    (serving_init demo_app)) !! 0%nat = Some (Closed c' out).
Proof.
  refine (accepted_is_closed 1 demo_app (take 3 demo_events) 0 (demo_get false) demo_clock (drop 5 demo_events) _ _).
  - reflexivity.
  - apply le_n.
Defined.
