(* ===== verification/Pe.v ===== *)
(** * Import table patching: [steam-http-shim/src/pe.rs]

    [replace] walks the import directory of a mapped module that other patchers
    may be changing at the same time.  The module's memory is an oracle that
    gives the bytes read at every instant, so nothing is assumed of two reads of
    one place; every access is logged, and the theorems bound the log.  Offsets
    are from the module's base. *)

From S2P Require Import Prelude RustStr.
#[local] Open Scope Z_scope.

Inductive IatError :=
  | NullModule | BadDosHeader | NotPe64 | BadImageSize | BadImportDirectory | SlotProtected | NotFound.

(** One access to the module's memory. *)
Inductive Access :=
  | Read (off len : Z)
  | Store (off : Z) (bytes : list byte).

Section pe.
(** The byte at an offset at an instant, and whether [VirtualProtect] succeeds at an instant. *)
Context (mem : nat → Z → byte) (protect : nat → bool).

(** Computations that access the module, from the number of accesses made so far. *)
Definition M (A : Type) : Type := nat → A * list Access.
Definition ret {A} (x : A) : M A := λ _, (x, []).
Definition bind {A B} (m : M A) (f : A → M B) : M B := λ t,
  let '(x, l1) := m t in let '(y, l2) := f x (t + length l1)%nat in (y, l1 ++ l2).
Notation "'let*' x := m 'in' k" := (bind m (λ x, k)) (at level 10, x name, k at level 200).

Definition bytes_at (t : nat) (off : Z) (n : nat) : list byte :=
  map (λ i, mem t (off + Z.of_nat i)) (seq 0 n).
Definition read (off : Z) (n : nat) : M (list byte) := λ t, (bytes_at t off n, [Read off (Z.of_nat n)]).
Definition read_le (off : Z) (n : nat) : M Z := λ t, (from_le (bytes_at t off n), [Read off (Z.of_nat n)]).
Definition store (off : Z) (bytes : list byte) : M unit := λ _, (tt, [Store off bytes]).
Definition virtual_protect : M bool := λ t, (protect t, []).

Definition in_image (size_of_image rva len : Z) : bool :=
  (rva + len <? U64) && (rva + len <=? size_of_image).

(** The scan for the terminator, then the read of the string it delimits. *)
Fixpoint image_cstr_loop (size_of_image rva : Z) (n fuel : nat) : M (option string) :=
  match fuel with
  | O => ret None
  | S fuel =>
      let off := rva + Z.of_nat n in
      if (U64 <=? off) || (size_of_image <=? off) then ret None
      else
        let* b := read_le off 1 in
        if b =? 0 then let* l := read rva n in ret (Some (from_utf8_lossy l))
        else image_cstr_loop size_of_image rva (S n) fuel
  end.
Definition image_cstr (size_of_image rva : Z) (cap : nat) : M (option string) :=
  image_cstr_loop size_of_image rva 0 cap.

(** The inner loop over the thunks of one descriptor; [None] goes on to the next descriptor. *)
Fixpoint thunk_loop (size_of_image ilt_rva first_thunk new : Z) (func : string) (idx : Z) (fuel : nat)
    : M (option (result Z IatError)) :=
  match fuel with
  | O => ret None
  | S fuel =>
      let ilt := ilt_rva + idx * 8 in
      let iat := first_thunk + idx * 8 in
      if negb (in_image size_of_image ilt 8) || negb (in_image size_of_image iat 8) then ret None
      else
        let* entry := read_le ilt 8 in
        if entry =? 0 then ret None
        else
          let next := thunk_loop size_of_image ilt_rva first_thunk new func (idx + 1) fuel in
          if Z.land entry (2 ^ 63) =? 0 then
            let* fname := image_cstr size_of_image (entry + 2) 128 in
            if bool_decide (fname = Some func) then
              let* old := read_le iat 8 in
              let* ok := virtual_protect in
              if ok then let* _ := store iat (to_le 8 new) in ret (Some (Ok old))
              else ret (Some (Err SlotProtected))
            else next
          else next
  end.

(** The outer loop over the import descriptors. *)
Fixpoint desc_loop (size_of_image import_rva new : Z) (dll func : string) (idx : Z) (fuel : nat)
    : M (result Z IatError) :=
  match fuel with
  | O => ret (Err NotFound)
  | S fuel =>
      let desc := import_rva + idx * 20 in
      let next := desc_loop size_of_image import_rva new dll func (idx + 1) fuel in
      if negb (in_image size_of_image desc 20) then ret (Err NotFound)
      else
        let* orig_thunk := read_le desc 4 in
        let* name_rva := read_le (desc + 12) 4 in
        let* first_thunk := read_le (desc + 16) 4 in
        if (name_rva =? 0) && (first_thunk =? 0) then ret (Err NotFound)
        else if (name_rva =? 0) || (first_thunk =? 0) || negb (in_image size_of_image name_rva 2) then next
        else
          let* iname := image_cstr size_of_image name_rva 128 in
          match iname with
          | None => next
          | Some iname =>
              if negb (eq_ignore_ascii_case iname dll) then next
              else
                let ilt_rva := if orig_thunk =? 0 then first_thunk else orig_thunk in
                if negb (in_image size_of_image ilt_rva 8) || negb (in_image size_of_image first_thunk 8) then next
                else
                  let* r := thunk_loop size_of_image ilt_rva first_thunk new func 0 4096 in
                  match r with Some r => ret r | None => next end
          end
  end.

Definition replace (is_null : bool) (dll func : string) (new : Z) : M (result Z IatError) :=
  if is_null then ret (Err NullModule)
  else
    let* e_lfanew := read_le 60 4 in
    if negb ((64 <=? e_lfanew) && (e_lfanew <=? 4096)) then ret (Err BadDosHeader)
    else
      let opt := e_lfanew + 24 in
      let* magic := read_le opt 2 in
      if negb (magic =? 0x20b) then ret (Err NotPe64)
      else
        let* size_of_image := read_le (opt + 56) 4 in
        if size_of_image <? 4096 then ret (Err BadImageSize)
        else
          let* import_rva := read_le (opt + 120) 4 in
          if negb (in_image size_of_image import_rva 20) then ret (Err BadImportDirectory)
          else desc_loop size_of_image import_rva new dll func 0 256.

(** ** Bounds *)

(** Accesses inside the image, and the reads of the headers, which come first. *)
Definition access_ok (size_of_image : Z) (a : Access) : Prop :=
  match a with
  | Read off len => 0 <= off ∧ off + len <= size_of_image
  | Store off bytes => 0 <= off ∧ off + Z.of_nat (length bytes) <= size_of_image
  end.
Definition header_ok (a : Access) : Prop :=
  match a with Read off len => 0 <= off ∧ off + len <= 4096 + 24 + 124 | Store _ _ => False end.

Definition is_store (a : Access) : bool := match a with Store _ _ => true | Read _ _ => false end.
Definition stores (l : list Access) : list Access := filter (λ a, is_store a = true) l.
(** [safe size Q m]: whenever it runs, [m] stays inside the image and ends in [Q]. *)
Definition safe {A} (size_of_image : Z) (Q : A → list Access → Prop) (m : M A) : Prop :=
  ∀ t, Forall (access_ok size_of_image) (m t).2 ∧ Q (m t).1 (stores (m t).2).
Definition no_store {A} (P : A → Prop) : A → list Access → Prop := λ x l, l = [] ∧ P x.

Lemma safe_ret {A} size (Q : A → list Access → Prop) x : Q x [] → safe size Q (ret x).
Proof. intros HQ t. split; [constructor|done]. Qed.

Lemma safe_bind {A B} size (P : A → Prop) (Q : B → list Access → Prop) m f :
  safe size (no_store P) m → (∀ x, P x → safe size Q (f x)) → safe size Q (bind m f).
Proof.
  intros Hm Hf t. destruct (Hm t) as [H1 [H2 HP]]. unfold bind.
  destruct (m t) as [x l1]. cbn [fst snd] in *. destruct (Hf x HP (t + length l1)%nat) as [H3 H4].
  destruct (f x _) as [y l2]. cbn [fst snd] in *. unfold stores in *.
  rewrite filter_app, H2. split; [by apply Forall_app|done].
Qed.

Lemma safe_read_le size off n :
  0 <= off → off + Z.of_nat n <= size →
  safe size (no_store (λ v, 0 <= v < 256 ^ Z.of_nat n)) (read_le off n).
Proof.
  intros ?? t. split; [by apply Forall_singleton|]. split; [done|].
  pose proof (from_le_range (bytes_at t off n)) as Hr. unfold bytes_at in Hr.
  by rewrite length_map, length_seq in Hr.
Qed.

Lemma safe_read size off n :
  0 <= off → off + Z.of_nat n <= size → safe size (no_store (λ _, True)) (read off n).
Proof. intros ?? t. split; [by apply Forall_singleton|done]. Qed.

(** [read_step x H]: one bounded read in front of the rest. *)
Ltac read_step x H :=
  eapply safe_bind; [apply safe_read_le; lia|]; intros x H; cbv beta in H.

Lemma safe_image_cstr size rva cap :
  0 <= rva → safe size (no_store (λ _, True)) (image_cstr size rva cap).
Proof.
  intros Hr. unfold image_cstr. generalize 0%nat as n. induction cap as [|cap IH]; intros n; cbn [image_cstr_loop].
  - by apply safe_ret.
  - cbv zeta. destruct (_ || _) eqn:Hb; [by apply safe_ret|]. apply orb_false_iff in Hb as [_ Hb%Z.leb_gt].
    read_step b Hv. case_if; [|apply IH].
    eapply safe_bind; [apply safe_read; lia|]. intros l _. by apply safe_ret.
Qed.

Lemma in_image_true size rva len : in_image size rva len = true → rva + len <= size.
Proof. unfold in_image. intros [_ ?%Z.leb_le]%andb_true_iff. done. Qed.

Definition patched (new : Z) (r : result Z IatError) (l : list Access) : Prop :=
  match r with Ok _ => ∃ off, l = [Store off (to_le 8 new)] | Err _ => l = [] end.

Lemma safe_thunk_loop size ilt_rva first_thunk new func idx fuel :
  0 <= ilt_rva → 0 <= first_thunk → 0 <= idx →
  safe size (λ r l, match r with Some r => patched new r l | None => l = [] end)
    (thunk_loop size ilt_rva first_thunk new func idx fuel).
Proof.
  intros Hi Hf. revert idx. induction fuel as [|fuel IH]; intros idx Hx; cbn [thunk_loop]; [by apply safe_ret|].
  cbv zeta. destruct (_ || _) eqn:Hb; [by apply safe_ret|].
  apply orb_false_iff in Hb as [Hb1%negb_false_iff%in_image_true Hb2%negb_false_iff%in_image_true].
  read_step entry He. case_if; [by apply safe_ret|].
  case_if; [|apply IH; lia].
  eapply safe_bind; [apply safe_image_cstr; lia|]. intros fname _. case_match; [|apply IH; lia].
  read_step old Hv.
  eapply (safe_bind _ (λ _, True)); [intros t; split; [constructor|done]|]. intros ok _.
  destruct ok; [|by apply safe_ret]. intros t. split.
  - apply Forall_singleton. cbn [access_ok]. rewrite length_to_le. lia.
  - by eexists.
Qed.

Lemma safe_desc_loop size import_rva new dll func idx fuel :
  0 <= import_rva → 0 <= idx → safe size (patched new) (desc_loop size import_rva new dll func idx fuel).
Proof.
  intros Hi. revert idx. induction fuel as [|fuel IH]; intros idx Hx; cbn [desc_loop]; [by apply safe_ret|].
  cbv zeta. case_if; [by apply safe_ret|]. bool_props.
  assert (Hin : import_rva + idx * 20 + 20 <= size) by (by apply in_image_true).
  specialize (IH (idx + 1) ltac:(lia)).
  read_step orig Ho.
  read_step name Hn.
  read_step thunk Hf.
  destruct (_ && _); [by apply safe_ret|]. destruct (_ || _); [done|].
  eapply safe_bind; [apply safe_image_cstr; lia|]. intros [iname|] _; [|done].
  destruct (negb _); [done|]. destruct (_ || _); [done|].
  intros t. unfold bind.
  pose proof (safe_thunk_loop size (if orig =? 0 then thunk else orig) thunk new func 0 4096
                ltac:(case_match; lia) ltac:(lia) ltac:(lia) t) as [Hs HQ].
  destruct (thunk_loop _ _ _ _ _ _ _ t) as [r l]. cbn [fst snd] in *. destruct r as [r|].
  - cbn [ret]. rewrite app_nil_r. done.
  - destruct (IH (t + length l)%nat) as [Hs' HQ']. destruct (desc_loop _ _ _ _ _ _ _ _) as [r' l'].
    cbn [fst snd] in *. unfold stores in *. rewrite filter_app, HQ. split; [by apply Forall_app|done].
Qed.
End pe.

(** ** [mov_eax_imm] *)

Fixpoint mov_loop (code : list byte) (i fuel : nat) : option Z :=
  match fuel with
  | O => None
  | S fuel =>
      if match code !! i with Some b => byte_eqb b xb8 | None => false end
      then Some (from_le (slice (i + 1) 4 code))
      else mov_loop code (S i) fuel
  end.
Definition mov_eax_imm (code : list byte) : option Z :=
  if (5 <=? length code)%nat && match code with b :: _ => byte_eqb b xb8 | [] => false end
  then Some (from_le (slice 1 4 code))
  else mov_loop code 0 (length code - 5).

(** ** Properties *)

(** The [SizeOfImage] that a run reads in the headers. *)
Definition size_read (mem : nat → Z → byte) : Z :=
  let e_lfanew := from_le (bytes_at mem 0 60 4) in from_le (bytes_at mem 2 (e_lfanew + 24 + 56) 4).

(** C39: patching cannot touch memory it should not, whatever the module contains and however other
    patchers change it between two reads: every access is within the [SizeOfImage] that was read,
    but for the reads of the headers, which are within the first 4,244 bytes; and the module is
    written only when a slot is patched ([Ok]), by one store of the eight bytes of [new]. *)
Theorem replace_safe mem protect is_null dll func new t :
  t = 0%nat →
  let '(r, log) := replace mem protect is_null dll func new t in
  Forall (λ a, access_ok (size_read mem) a ∨ header_ok a) log ∧ patched new r (stores log).
Proof.
  intros ->. unfold replace. destruct is_null; [by split; [constructor|]|].
  unfold bind at 1, read_le at 1. set (e := from_le (bytes_at mem 0 60 4)).
  assert (Hh0 : header_ok (Read 60 (Z.of_nat 4))) by (unfold header_ok; lia).
  destruct (negb ((64 <=? e) && (e <=? 4096))) eqn:He.
  { cbn [ret]. split; [by apply Forall_singleton; right|done]. }
  apply negb_false_iff, andb_true_iff in He as [He1%Z.leb_le He2%Z.leb_le].
  unfold bind at 1, read_le at 1.
  assert (Hh1 : header_ok (Read (e + 24) (Z.of_nat 2))) by (unfold header_ok; lia).
  destruct (negb (_ =? 0x20b)).
  { cbn [ret app]. split; [repeat apply Forall_cons_2; try apply Forall_nil_2; by right|done]. }
  unfold bind at 1, read_le at 1.
  assert (Hh2 : header_ok (Read (e + 24 + 56) (Z.of_nat 4))) by (unfold header_ok; lia).
  change (from_le (bytes_at mem (0 + length [Read 60 (Z.of_nat 4)] + length [Read (e + 24) (Z.of_nat 2)])
            (e + 24 + 56) 4)) with (size_read mem).
  destruct (size_read mem <? 4096).
  { cbn [ret app]. split; [repeat apply Forall_cons_2; try apply Forall_nil_2; by right|done]. }
  unfold bind at 1, read_le at 1.
  assert (Hh3 : header_ok (Read (e + 24 + 120) (Z.of_nat 4))) by (unfold header_ok; lia).
  set (t3 := (_ + _)%nat). set (rva := from_le (bytes_at mem _ (e + 24 + 120) 4)).
  assert (Hrva : 0 <= rva) by (apply from_le_range).
  destruct (negb (in_image _ rva 20)).
  { cbn [ret app]. split; [repeat apply Forall_cons_2; try apply Forall_nil_2; by right|done]. }
  destruct (safe_desc_loop mem protect (size_read mem) rva new dll func 0 256 Hrva (Z.le_refl 0)
              (t3 + length [Read (e + 24 + 120) (Z.of_nat 4)])%nat) as [Hs HQ].
  destruct (desc_loop _ _ _ _ _ _ _ _ _ _) as [r l]. cbn [fst snd app] in *.
  split; [|exact HQ]. do 4 (apply Forall_cons_2; [by right|]).
  eapply Forall_impl; [exact Hs|]. by left.
Qed.

Lemma mov_loop_None code i fuel :
  (∀ j, (i ≤ j < i + fuel)%nat → code !! j ≠ Some xb8) → mov_loop code i fuel = None.
Proof.
  revert i. induction fuel as [|fuel IH]; intros i Hj; cbn [mov_loop]; [done|].
  destruct (code !! i) as [b|] eqn:Hb; [destruct (byte_eqb b xb8) eqn:He|].
  - apply byte_eqb_eq in He. subst b. by destruct (Hj i ltac:(lia)).
  - apply IH. intros j ?. apply Hj. lia.
  - apply IH. intros j ?. apply Hj. lia.
Qed.

Lemma mov_loop_found code i fuel k :
  (i ≤ k < i + fuel)%nat → code !! k = Some xb8 → (∀ j, (i ≤ j < k)%nat → code !! j ≠ Some xb8) →
  mov_loop code i fuel = Some (from_le (slice (k + 1) 4 code)).
Proof.
  revert i. induction fuel as [|fuel IH]; intros i Hk Hc Hj; [lia|]. cbn [mov_loop].
  destruct (decide (i = k)) as [->|Hne].
  - rewrite Hc, byte_eqb_refl. done.
  - destruct (code !! i) as [b|] eqn:Hb; [destruct (byte_eqb b xb8) eqn:He|].
    + apply byte_eqb_eq in He. subst b. by destruct (Hj i ltac:(lia)).
    + apply IH; [lia|done|]. intros j ?. apply Hj. lia.
    + apply IH; [lia|done|]. intros j ?. apply Hj. lia.
Qed.

(** [mov_eax_imm] finds the constant of the first [mov eax, imm32] behind any prefix, unless
    the instruction is the last one of the stub: then it finds nothing, although the five bytes of
    the instruction are all there. Only at the very start of the stub it needs no byte after it. *)
Theorem mov_eax_imm_spec pre imm post :
  xb8 ∉ pre → length imm = 4%nat →
  mov_eax_imm (pre ++ xb8 :: imm ++ post) =
    if bool_decide (pre ≠ [] ∧ post = []) then None else Some (from_le imm).
Proof.
  intros Hpre Himm. set (code := pre ++ xb8 :: imm ++ post).
  assert (Hlen : length code = (length pre + 5 + length post)%nat)
    by (unfold code; rewrite length_app; cbn [length]; rewrite length_app; lia).
  assert (Hat : code !! length pre = Some xb8) by (unfold code; by apply list_lookup_middle).
  assert (Hbefore : ∀ j, (j < length pre)%nat → code !! j ≠ Some xb8).
  { intros j Hj. unfold code. rewrite lookup_app_l by done. intros Hx. by apply Hpre, (list_elem_of_lookup_2 _ j). }
  assert (Hslice : slice (length pre + 1) 4 code = imm).
  { unfold slice, code. rewrite drop_app_ge by lia. replace (length pre + 1 - length pre)%nat with 1%nat by lia.
    rewrite skipn_cons, drop_0, <- Himm. apply take_app_length. }
  unfold mov_eax_imm. rewrite Hlen. rewrite (proj2 (Nat.leb_le _ _)) by lia. cbn [andb].
  destruct pre as [|b pre].
  - rewrite bool_decide_eq_false_2 by (intros [? _]; done). cbn in Hslice |- *. by rewrite Hslice.
  - assert (byte_eqb b xb8 = false) as Hb.
    { destruct (byte_eqb b xb8) eqn:Hb; [|done]. apply byte_eqb_eq in Hb. subst b. destruct Hpre. by left. }
    change (match code with b :: _ => byte_eqb b xb8 | [] => false end) with (byte_eqb b xb8). rewrite Hb.
    destruct post as [|p post].
    + rewrite bool_decide_eq_true_2 by done. apply mov_loop_None. intros j Hj. apply Hbefore.
      cbn [length] in *. lia.
    + rewrite bool_decide_eq_false_2 by (intros [_ ?]; done).
      rewrite (mov_loop_found code 0 _ (length (b :: pre))); [by rewrite Hslice|cbn [length]; lia|done|].
      intros j Hj. apply Hbefore. lia.
Qed.

(** ** Witnesses *)

(** An image that imports [F] from [k.dll], whose slot holds 7. *)
Definition demo_image (off : Z) : byte :=
  let fields : list (Z * list byte) :=
    [(0x3c, to_le 4 0x40); (0x58, to_le 2 0x20b); (0x90, to_le 4 0x2000); (0xd0, to_le 4 0x200);
     (0x200, to_le 4 0x300); (0x20c, to_le 4 0x280); (0x210, to_le 4 0x340);
     (0x280, sbytes "k.dll"); (0x300, to_le 8 0x380); (0x340, to_le 8 7); (0x382, sbytes "F")] in
  default x00 (find_map (λ '(o, l), if (o <=? off) && (off <? o + Z.of_nat (length l))
                                    then Some (nth (Z.to_nat (off - o)) l x00) else None) fields).

Lemma replace_safe_witness :
  (replace (λ _, demo_image) (λ _, true) false "K.DLL" "F" 1 0%nat).1 = Ok 7 ∧
  let '(r, log) := replace (λ _, demo_image) (λ _, true) false "K.DLL" "F" 1 0%nat in
  Forall (λ a, access_ok (size_read (λ _, demo_image)) a ∨ header_ok a) log ∧ patched 1 r (stores log).
Proof.
  split; [vm_compute; reflexivity|].
  exact (replace_safe (λ _, demo_image) (λ _, true) false "K.DLL" "F" 1 0%nat eq_refl).
Defined.

Lemma mov_eax_imm_spec_witness : mov_eax_imm [x90; xb8; x01; x00; x00; x00] = None.
Proof.
  refine (mov_eax_imm_spec [x90] [x01; x00; x00; x00] [] _ _); [|done].
  refine (bool_decide_eq_true_1 _ _). vm_compute. reflexivity.
Defined.
