(* ===== verification/Comp.v ===== *)
(** * Computations over an explicit state

    Stateful code of the shims is a function from a state to a result and the
    next state.  It has no result where the code would panic or follow a null
    or dangling pointer, so the weakest precondition [wp] of a computation
    includes that it does neither.  The two shims instantiate the state. *)

From S2P Require Import Prelude.

Definition comp (W A : Type) : Type := W → option (A * W).

Section comp.
Context {W : Type}.

Definition mret {A} (x : A) : comp W A := λ w, Some (x, w).
Definition mbind {A B} (m : comp W A) (f : A → comp W B) : comp W B := λ w,
  match m w with Some (x, w) => f x w | None => None end.

(** A panic, or a null or dangling pointer that is followed. *)
Definition undef {A} : comp W A := λ _, None.
Definition gets {A} (f : W → A) : comp W A := λ w, Some (f w, w).
Definition modify (f : W → W) : comp W unit := λ w, Some (tt, f w).
End comp.

Declare Scope comp_scope.
Delimit Scope comp_scope with comp.
Notation "'let*' x := m 'in' k" := (mbind m (λ x, k))
  (at level 10, x pattern, m at level 100, k at level 200) : comp_scope.
Notation "m ;; k" := (mbind m (λ _, k)) (at level 100, k at level 200, right associativity) : comp_scope.
#[local] Open Scope comp_scope.

Section loops.
Context {W : Type}.

Fixpoint for_each {A} (l : list A) (f : A → comp W unit) : comp W unit :=
  match l with [] => mret tt | x :: l => f x;; for_each l f end.

Definition when (b : bool) (m : comp W unit) : comp W unit := if b then m else mret tt.
End loops.

(** ** Weakest preconditions *)

Section wp.
Context {W : Type}.

Definition wp {A} (m : comp W A) (Q : A → W → Prop) (w : W) : Prop :=
  match m w with Some (x, w') => Q x w' | None => False end.

Lemma wp_bind {A B} (m : comp W A) (f : A → comp W B) Q w :
  wp (mbind m f) Q w ↔ wp m (λ x, wp (f x) Q) w.
Proof. unfold wp, mbind. by destruct (m w) as [[x w']|]. Qed.

Lemma wp_gets {A} (f : W → A) Q w : wp (gets f) Q w = Q (f w) w.
Proof. done. Qed.

Lemma wp_mono {A} (m : comp W A) (Q R : A → W → Prop) w :
  wp m Q w → (∀ x w', Q x w' → R x w') → wp m R w.
Proof. unfold wp. destruct (m w) as [[x w']|]; auto. Qed.
End wp.

(** ** Invariants

    [keeps I R m Q w]: from [w] the computation returns, in a world that
    satisfies [I], is [R]-related to [w], and has [Q]. *)

Section keeps.
Context {W : Type} (R : relation W) `{!PreOrder R}.

Definition keeps (I : W → Prop) {A} (m : comp W A) (Q : A → W → Prop) (w : W) : Prop :=
  wp m (λ x w', I w' ∧ R w w' ∧ Q x w') w.

Lemma keeps_ret (I : W → Prop) {A} (x : A) (Q : A → W → Prop) w : I w → Q x w → keeps I (mret x) Q w.
Proof. intros. by split; [|split]. Qed.

Lemma keeps_bind (I J : W → Prop) {A B} (m : comp W A) (f : A → comp W B) (P : A → W → Prop) Q w :
  keeps I m P w → (∀ x w1, I w1 → R w w1 → P x w1 → keeps J (f x) Q w1) → keeps J (mbind m f) Q w.
Proof.
  intros Hm Hf. unfold keeps. rewrite wp_bind. eapply wp_mono; [exact Hm|].
  intros x w1 (Hi & Hr & Hp). eapply wp_mono; [by apply Hf|].
  intros y w2 (? & ? & ?). split; [done|]. split; [by etrans|done].
Qed.

Lemma keeps_mono (I J : W → Prop) {A} (m : comp W A) (P Q : A → W → Prop) w :
  keeps I m P w → (∀ x w', I w' → R w w' → P x w' → J w' ∧ Q x w') → keeps J m Q w.
Proof.
  intros Hm HQ. eapply wp_mono; [exact Hm|]. intros x w' (Hi & Hr & Hp).
  destruct (HQ x w' Hi Hr Hp). done.
Qed.

Lemma keeps_for_each (I : W → Prop) {A} (l : list A) (f : A → comp W unit) w :
  I w → (∀ x w', x ∈ l → I w' → R w w' → keeps I (f x) (λ _ _, True) w') →
  keeps I (for_each l f) (λ _ _, True) w.
Proof.
  revert w. induction l as [|x l IH]; intros w Hi Hf; cbn [for_each]; [by apply keeps_ret|].
  eapply keeps_bind; [apply Hf; [left|done|reflexivity]|]. intros _ w1 Hi1 Hr _.
  apply IH; [done|]. intros y w2 Hy Hi2 Hr2. apply Hf; [by right|done|by etrans].
Qed.
End keeps.
