(* ===== verification/LogFile.v ===== *)
(** * The logs: the files every part keeps, and what is written to them

    The four programs keep a log file in the same way: a cached handle, dropped
    and opened again every five seconds so that a log deleted while the game runs
    comes back.  The file system is a table of files by number and the number the
    name of the log stands for; a handle keeps its file when the name goes away.
    When an open fails, and how much of a write arrives, is for the class
    [LogEnv] to say, as are the clocks.

    Models [log_line] of [party-shim/src/lib.rs] and [playfab-mp-shim/src/lib.rs],
    [log_msg] of [steam-http-shim/src/lib.rs], [write_log_file] and its callers in
    [lan-server/src/main.rs], the throttles, and the queue probe of
    [playfab-mp-shim/src/lib.rs]. *)

From S2P Require Import Prelude RustStr F64 LanCfg Comp.
#[local] Open Scope string_scope.
#[local] Open Scope list_scope.
#[local] Open Scope Z_scope.
#[local] Open Scope comp_scope.

(** ** Files *)

(** An open file: its number, and where the next write goes; [None] is append mode. *)
Record Handle := mkHandle { hd_file : nat; hd_pos : option nat }.

(** [lw_files], [lw_next] and [lw_path] are the disk; [lw_truncated] is [LOG_TRUNCATED] and
    [lw_log] is [LOG_FILE]; [lw_console] is what went to standard output or the debugger; [lw_rate]
    is [RATE] of [rate_limited_log] and [lw_last] is [LAST] of [log_throttled]. *)
Record LogWorld := mkLogWorld {
  lw_reads : nat;
  lw_files : gmap nat (list byte);
  lw_next : nat;
  lw_path : option nat;
  lw_truncated : bool;
  lw_log : option (Handle * Z);
  lw_console : list (list byte);
  lw_rate : gmap string f64;
  lw_last : gmap string (Z * Z)
}.

Definition l_set_reads (k : nat) (w : LogWorld) : LogWorld :=
  mkLogWorld k (lw_files w) (lw_next w) (lw_path w) (lw_truncated w) (lw_log w) (lw_console w) (lw_rate w) (lw_last w).
Definition l_set_disk (fs : gmap nat (list byte)) (next : nat) (p : option nat) (w : LogWorld) : LogWorld :=
  mkLogWorld (lw_reads w) fs next p (lw_truncated w) (lw_log w) (lw_console w) (lw_rate w) (lw_last w).
Definition l_set_truncated (b : bool) (w : LogWorld) : LogWorld :=
  mkLogWorld (lw_reads w) (lw_files w) (lw_next w) (lw_path w) b (lw_log w) (lw_console w) (lw_rate w) (lw_last w).
Definition l_set_log (h : option (Handle * Z)) (w : LogWorld) : LogWorld :=
  mkLogWorld (lw_reads w) (lw_files w) (lw_next w) (lw_path w) (lw_truncated w) h (lw_console w) (lw_rate w) (lw_last w).
Definition l_set_console (c : list (list byte)) (w : LogWorld) : LogWorld :=
  mkLogWorld (lw_reads w) (lw_files w) (lw_next w) (lw_path w) (lw_truncated w) (lw_log w) c (lw_rate w) (lw_last w).
Definition l_set_rate (m : gmap string f64) (w : LogWorld) : LogWorld :=
  mkLogWorld (lw_reads w) (lw_files w) (lw_next w) (lw_path w) (lw_truncated w) (lw_log w) (lw_console w) m (lw_last w).
Definition l_set_last (m : gmap string (Z * Z)) (w : LogWorld) : LogWorld :=
  mkLogWorld (lw_reads w) (lw_files w) (lw_next w) (lw_path w) (lw_truncated w) (lw_log w) (lw_console w) (lw_rate w) m.

Abbreviation L := (comp LogWorld).

(** The outside, at each reading: [Instant::now] in nanoseconds, the seconds and the [f64] time
    since the epoch, whether an open succeeds, how many bytes of a write arrive before it fails
    ([None]: all, without failing), whether the executable's directory is known. *)
Class LogEnv := {
  instant_at : nat → Z;
  secs_at : nat → Z;
  unix_at : nat → f64;
  can_open : nat → bool;
  write_cut : nat → option nat;
  has_exe_dir : nat → bool;
  log_debug : bool
}.

Definition LOG_REOPEN_MS : Z := 5000.
Definition NANOS_PER_MS : Z := 1000000.

(** The text after the time stamp. *)
Definition stamped (t : string) (msg : string) : list byte := sbytes ("[" +:+ t +:+ "] " +:+ msg).
Definition newline : byte := x0a.

Section log.
Context `{E : LogEnv}.

Definition observe {A} (f : nat → A) : L A := λ w, Some (f (lw_reads w), l_set_reads (S (lw_reads w)) w).

(** [OpenOptions::open] with [create]: for writing from the start of a file cut to nothing, or for
    appending. *)
Definition open_log (truncate : bool) : L (option Handle) :=
  let* ok := observe can_open in
  if negb ok then mret None
  else
    let* p := gets lw_path in
    let* f := match p with
              | Some f => mret f
              | None =>
                  let* f := gets lw_next in
                  modify (λ w, l_set_disk (<[f := []]> (lw_files w)) (S f) (Some f) w);; mret f
              end in
    when truncate (modify (λ w, l_set_disk (<[f := []]> (lw_files w)) (lw_next w) (lw_path w) w));;
    mret (Some (mkHandle f (if truncate then Some 0%nat else None))).

(** [write_all]: true when everything arrived. *)
Definition put_bytes (pos : option nat) (l b : list byte) : list byte :=
  match pos with
  | None => b ++ l
  | Some p => take p b ++ replicate (p - length b) x00 ++ l ++ drop (p + length l) b
  end.
Definition write_log (h : Handle) (l : list byte) : L (bool * Handle) :=
  let* cut := observe write_cut in
  let l := match cut with Some n => take n l | None => l end in
  modify (λ w, l_set_disk (alter (put_bytes (hd_pos h) l) (hd_file h) (lw_files w)) (lw_next w) (lw_path w) w);;
  mret (match cut with Some _ => false | None => true end,
        mkHandle (hd_file h) (((λ p, p + length l)%nat <$> hd_pos h))).

(** The body the four loggers share: the handle is opened again when there is none or it is old
    ([ready] is what the broker asks for first), then the line is written. *)
Definition append_line (ready : L bool) (line : list byte) : L unit :=
  let* g := gets lw_log in
  let* stale := match g with
                | Some (_, opened) =>
                    let* now := observe instant_at in
                    mret (LOG_REOPEN_MS <=? saturating_sub now opened / NANOS_PER_MS)
                | None => mret true
                end in
  let* go :=
    (if stale then
       let* ok := ready in
       if negb ok then mret false
       else
         let* old := gets lw_truncated in
         modify (l_set_truncated true);;
         let* f := open_log (negb old) in
         match f with
         | Some h => let* now := observe instant_at in modify (l_set_log (Some (h, now)));; mret true
         | None => mret false
         end
     else mret true) in
  if negb go then mret tt
  else
    let* g := gets lw_log in
    match g with
    | Some (h, opened) =>
        let* (ok, h) := write_log h line in
        modify (l_set_log (if (ok : bool) then Some (h, opened) else None))
    | None => mret tt
    end.

Definition always : L bool := mret true.

(** [log_line] of the Party shim and of the multiplayer shim. *)
Definition party_log_line (msg : string) : L unit :=
  let* t := observe secs_at in append_line always (stamped (fmt_dec t) msg ++ [newline]).
Definition mp_log_line (msg : string) : L unit :=
  let* t := observe secs_at in append_line always (stamped (fmt_dec t) msg ++ [newline]).

(** [log_msg] of the Steam shim; the debugger is given the bytes of a Rust string. *)
Definition steam_line (msg : string) : list byte := sbytes ("[gbfr-http] " +:+ msg) ++ [newline].
Definition debugger_text (line : list byte) : list byte := filter (λ b, b ≠ x00) line.
Definition steam_log_msg (msg : string) : L unit :=
  let line := steam_line msg in
  modify (λ w, l_set_console (lw_console w ++ [debugger_text line]) w);;
  append_line always line.

(** The broker. *)
Definition two_digits (z : Z) : string := (if z <? 10 then "0" else "") +:+ fmt_dec z.
Definition ts_text (secs : Z) : string :=
  let s := secs mod 86400 in
  two_digits (s / 3600) +:+ ":" +:+ two_digits (s mod 3600 / 60) +:+ ":" +:+ two_digits (s mod 60).
Definition ts : L string := let* t := observe secs_at in mret (ts_text t).

Definition write_log_file (line : list byte) : L unit := append_line (observe has_exe_dir) (line ++ [newline]).
Definition println (line : list byte) : L unit := modify (λ w, l_set_console (lw_console w ++ [line]) w).
Definition log_line (msg : string) : L unit :=
  let* t := ts in
  println (stamped t msg);; write_log_file (stamped t msg).
Definition request_log (msg : string) : L unit :=
  let* t := ts in
  println (stamped t msg);; when log_debug (write_log_file (stamped t msg)).
Definition log_request (method host path : string) : L unit :=
  let msg := method +:+ " host=" +:+ host +:+ " path=" +:+ path in
  if bool_decide (path = "/party/peers") || bool_decide (path = "/Lobby/GetLobby")
  then when log_debug (log_line msg)
  else request_log msg.

(** ** Limits on the rate *)

Definition RATE_LIMIT_SECS : f64 := f64_of_Z 30.
Definition RATE_KEYS : nat := 64.
Definition rate_due (now : f64) (last : option f64) : bool :=
  match last with Some t => f64_leb RATE_LIMIT_SECS (f64_sub now t) | None => true end.
Definition rate_limited_log (key msg : string) : L unit :=
  let* now := observe unix_at in
  let* m := gets lw_rate in
  let m := if (RATE_KEYS <? size m)%nat then ∅ else m in
  let due := rate_due now (m !! key) in
  modify (l_set_rate (if due then <[key := now]> m else m));;
  when due (log_line msg).

Definition ONE_SECOND : Z := 1000000000.
(** [log_throttled] of the multiplayer shim: the entry of a key is the time of its last line and how
    many messages were held back since; the line goes to [mp_log_line]. *)
Definition log_throttled (key msg : string) : L unit :=
  let* now := observe instant_at in
  let* m := gets lw_last in
  let '(at0, n) := default (now, 0) (m !! key) in
  let* later := observe instant_at in
  if ONE_SECOND <=? saturating_sub later at0 then
    let* again := observe instant_at in
    modify (λ w, l_set_last (<[key := (again, 0)]> (lw_last w)) w);;
    mp_log_line (if 0 <? n then msg +:+ " [+" +:+ fmt_dec n +:+ " more in the previous second]" else msg)
  else modify (λ w, l_set_last (<[key := (at0, (n + 1) mod U32)]> (lw_last w)) w).

Definition mp_debug_log (msg : string) : L unit := when log_debug (mp_log_line msg).
Definition mp_debug_throttled (key msg : string) : L unit := when log_debug (log_throttled key msg).
Definition steam_debug_log (msg : string) : L unit := when log_debug (steam_log_msg msg).
End log.

(** ** The queue probe of the multiplayer shim *)

(** The published counters: [Q_PENDING], [Q_INFLIGHT], [Q_OUTSTANDING] and the lifetime ones. *)
Record QueueStats := mkQueueStats {
  q_pending : Z; q_inflight : Z; q_outstanding : bool;
  q_starts : Z; q_finishes : Z; q_batches_nonzero : Z; q_queued : Z; q_reclaimed : Z;
  q_max_pending : Z; q_max_inflight : Z; q_latched : Z; q_stray : Z; q_mismatch : Z
}.

Definition USIZE_MAX : Z := U64 - 1.
Definition PFQUEUE_HEARTBEAT_MS : Z := 30000.
Definition PFQUEUE_STATE_HEARTBEAT_MS : Z := 30000.

(** [StateLog]: the tuple of the last line, and when. *)
Definition StateKey : Type := Z * Z * Z * bool.
Record StateLog := mkStateLog { sl_key : StateKey; sl_at : Z }.

Section queue_probe.
Context `{E : LogEnv}.

Definition StateLog_new : L StateLog :=
  let* now := observe instant_at in mret (mkStateLog (USIZE_MAX, USIZE_MAX, USIZE_MAX, true) now).

(** 0: say nothing; 1: the tuple changed; 2: heartbeat. *)
Definition state_due (s : StateLog) (next : StateKey) : L (Z * StateLog) :=
  let changed := negb (bool_decide (sl_key s = next)) in
  let* quiet :=
    (if changed then mret false
     else
       let* now := observe instant_at in
       mret (saturating_sub now (sl_at s) <? PFQUEUE_STATE_HEARTBEAT_MS * NANOS_PER_MS)) in
  if (quiet : bool) then mret (0, s)
  else
    let* now := observe instant_at in
    mret (if changed then 1 else 2, mkStateLog next now).

(** [probe_snapshot], of the lengths of the queues. *)
Definition probe_snapshot (pending inflight : Z) (outstanding : bool) (q : QueueStats) : QueueStats :=
  mkQueueStats pending inflight outstanding (q_starts q) (q_finishes q) (q_batches_nonzero q) (q_queued q)
    (q_reclaimed q)
    (if q_max_pending q <? pending then Z.max (q_max_pending q) pending else q_max_pending q)
    (if q_max_inflight q <? inflight then Z.max (q_max_inflight q) inflight else q_max_inflight q)
    (q_latched q) (q_stray q) (q_mismatch q).

Definition bit (b : bool) : string := if b then "1" else "0".
Definition hb_text (q : QueueStats) (changed : bool) : string :=
  "pfqueue hb pending=" +:+ fmt_dec (q_pending q) +:+ " inflight=" +:+ fmt_dec (q_inflight q) +:+
  " outstanding=" +:+ bit (q_outstanding q) +:+ " starts=" +:+ fmt_dec (q_starts q) +:+
  " finishes=" +:+ fmt_dec (q_finishes q) +:+ " batches_nonzero=" +:+ fmt_dec (q_batches_nonzero q) +:+
  " queued=" +:+ fmt_dec (q_queued q) +:+ " reclaimed=" +:+ fmt_dec (q_reclaimed q) +:+
  " max_pending=" +:+ fmt_dec (q_max_pending q) +:+ " max_inflight=" +:+ fmt_dec (q_max_inflight q) +:+
  " latch=" +:+ fmt_dec (q_latched q) +:+ " stray=" +:+ fmt_dec (q_stray q) +:+
  " mismatch=" +:+ fmt_dec (q_mismatch q) +:+ (if changed then " changed=1" else "").

(** One round of the thread of [start_queue_heartbeat] over the counters it finds. *)
Definition HbState : Type := (Z * Z * bool) * Z.
Definition heartbeat_tick (q : QueueStats) (s : HbState) : L HbState :=
  let key := (q_pending q, q_inflight q, q_outstanding q) in
  let changed := negb (bool_decide (key = s.1)) in
  let* quiet :=
    (if changed then mret false
     else
       let* now := observe instant_at in
       mret (saturating_sub now s.2 / NANOS_PER_MS <? PFQUEUE_HEARTBEAT_MS)) in
  if (quiet : bool) then mret s
  else
    let* now := observe instant_at in
    mp_debug_log (hb_text q changed);;
    mret (key, now).
Fixpoint heartbeat (qs : list QueueStats) (s : HbState) : L HbState :=
  match qs with
  | [] => mret s
  | q :: qs => let* s := heartbeat_tick q s in heartbeat qs s
  end.

(** The lines of [PFMultiplayerStartProcessingLobbyStateChanges] and of a [Finish] that takes a
    batch back or finds none. *)
Definition mode_text (mode : Z) : string := if mode =? 1 then " changed=1" else " hb=1".
Definition note_start (s : StateLog) (n pending inflight : Z) (outstanding : bool) : L StateLog :=
  let* (mode, s) := state_due s (n, pending, inflight, outstanding) in
  when (negb (mode =? 0) && log_debug) (mp_log_line (
    "pfqueue start n=" +:+ fmt_dec n +:+ " pending=" +:+ fmt_dec pending +:+ " inflight=" +:+ fmt_dec inflight +:+
    " outstanding=" +:+ bit outstanding +:+ mode_text mode));;
  mret s.
Definition note_empty_finish (s : StateLog) (pending : Z) : L StateLog :=
  let* (mode, s) := state_due s (0, pending, 0, false) in
  when (negb (mode =? 0) && log_debug) (mp_log_line (
    "pfqueue finish count=0 reclaimed=0 pending=" +:+ fmt_dec pending +:+ " inflight=0 outstanding=0" +:+ mode_text mode));;
  mret s.
Definition note_reclaim (s : StateLog) (n pending : Z) : L StateLog :=
  let* (mode, s) := state_due s (n, pending, 0, false) in
  when (negb (mode =? 0) && log_debug) (mp_log_line (
    "pfqueue finish reclaimed=" +:+ fmt_dec n +:+ " pending=" +:+ fmt_dec pending +:+
    " inflight=0 outstanding=0" +:+ mode_text mode));;
  mret s.

(** *** Texts *)

Definition mp_truncate_log (s : string) (n : nat) : string :=
  if (length (chars (sbytes s)) <=? n)%nat then s else bstr (concat (take n (chars (sbytes s)))).
Definition preview_str (s : string) (max : nat) : string :=
  if (length (chars (sbytes s)) <=? max)%nat then s
  else bstr (concat (take max (chars (sbytes s)))) +:+ "...".
Definition map_preview (m : gmap string string) (max : nat) : string :=
  preview_str (String.concat ", " ((λ k, k +:+ "=" +:+ preview_str (default "" (m !! k)) 48) <$>
    sort_by String.compare (elements (dom m)))) max.
End queue_probe.

(** ** What the file holds *)

(** The text the name of the log stands for. *)
Definition log_text (w : LogWorld) : option (list byte) := f ← lw_path w; lw_files w !! f.

(** The log is open and holds [done]; [opened] is when it was opened. *)
Definition logging (w : LogWorld) (done : list byte) (opened : Z) : Prop :=
  ∃ h, lw_log w = Some (h, opened) ∧ lw_truncated w = true ∧
       lw_path w = Some (hd_file h) ∧ lw_files w !! hd_file h = Some done ∧
       (hd_pos h = None ∨ hd_pos h = Some (length done)).

(** The name, when it is taken, is the name of a file. *)
Definition disk_ok (w : LogWorld) : Prop := ∀ f, lw_path w = Some f → is_Some (lw_files w !! f).

(** What logging leaves alone, and the readings made meanwhile. *)
Definition log_frame (w w' : LogWorld) : Prop :=
  (lw_reads w ≤ lw_reads w')%nat ∧ lw_rate w' = lw_rate w ∧ lw_last w' = lw_last w.

#[export] Instance log_frame_preorder : PreOrder log_frame.
Proof. split; [by intros w|]. intros a b c (? & ? & ?) (? & ? & ?). repeat split; [lia|congruence..]. Qed.

Lemma put_bytes_end pos l b :
  pos = None ∨ pos = Some (length b) → put_bytes pos l b = b ++ l.
Proof.
  intros [->| ->]; [done|]. cbn. rewrite firstn_all, Nat.sub_diag, drop_ge by lia. cbn. by rewrite app_nil_r.
Qed.

Section keeps_lines.
Context `{E : LogEnv} (Hopen : ∀ k, can_open k = true) (Hwrite : ∀ k, write_cut k = None).

(** [ready] answers true and only looks. *)
Definition looks_ready (ready : L bool) : Prop := ∀ w, ∃ k, ready w = Some (true, l_set_reads (lw_reads w + k) w).

Lemma always_ready : looks_ready always.
Proof. intros w. exists 0%nat. rewrite Nat.add_0_r. by destruct w. Qed.

Lemma wp_write_log h line Q w b :
  lw_files w !! hd_file h = Some b →
  Q (true, mkHandle (hd_file h) ((λ p, p + length line)%nat <$> hd_pos h))
    (l_set_disk (<[hd_file h := put_bytes (hd_pos h) line b]> (lw_files w)) (lw_next w) (lw_path w)
       (l_set_reads (S (lw_reads w)) w)) →
  wp (write_log h line) Q w.
Proof.
  intros Hb HQ. unfold write_log. rewrite wp_bind. unfold wp at 1, observe. rewrite Hwrite.
  unfold wp, mbind, modify, mret. cbn.
  replace (alter _ _ (lw_files w)) with (<[hd_file h := put_bytes (hd_pos h) line b]> (lw_files w)); [done|].
  apply map_eq. intros f. destruct (decide (hd_file h = f)) as [<-|Hf].
  - by rewrite lookup_insert_eq, lookup_alter_eq, Hb.
  - by rewrite lookup_insert_ne, lookup_alter_ne.
Qed.

Lemma wp_open_log tr w :
  disk_ok w →
  wp (open_log tr) (λ r w', ∃ h, r = Some h ∧ lw_path w' = Some (hd_file h) ∧
    lw_files w' !! hd_file h = Some (if tr then [] else default [] (log_text w)) ∧
    hd_pos h = (if tr then Some 0%nat else None) ∧
    lw_truncated w' = lw_truncated w ∧ lw_log w' = lw_log w ∧ log_frame w w') w.
Proof.
  intros Hd. unfold open_log. rewrite wp_bind. unfold wp at 1, observe. rewrite Hopen. cbn [negb].
  rewrite wp_bind, wp_gets, wp_bind. cbn [lw_path l_set_reads].
  destruct (lw_path w) as [f|] eqn:Hp.
  - unfold wp, mbind, mret. destruct (Hd f Hp) as [b Hb]. destruct tr; cbn.
    + exists (mkHandle f (Some 0%nat)). cbn. rewrite lookup_insert_eq. repeat split; cbn; auto.
    + exists (mkHandle f None). unfold log_text. rewrite Hp. cbn. rewrite Hb. repeat split; cbn; auto.
  - unfold wp, mbind, mret, gets, modify. destruct tr; cbn.
    + exists (mkHandle (lw_next w) (Some 0%nat)). cbn. rewrite lookup_insert_eq. repeat split; cbn; auto.
    + exists (mkHandle (lw_next w) None). unfold log_text. rewrite Hp. cbn. rewrite lookup_insert_eq.
      repeat split; cbn; auto.
Qed.

(** The line is written through an open handle that is at the end of the log. *)
Lemma wp_put_line line w done opened :
  logging w done opened →
  wp (let* g := gets lw_log in
      match g with
      | Some (h, opened) =>
          let* (ok, h) := write_log h line in
          modify (l_set_log (if (ok : bool) then Some (h, opened) else None))
      | None => mret tt
      end) (λ _ w', logging w' (done ++ line) opened ∧ log_frame w w') w.
Proof.
  intros (h & Hl & Ht & Hp & Hf & Hpos). rewrite wp_bind, wp_gets, Hl, wp_bind.
  eapply wp_write_log; [exact Hf|]. unfold wp, modify. split.
  - eexists. split; [reflexivity|]. cbn. split_and!; [done|done| |].
    + by rewrite lookup_insert_eq, put_bytes_end.
    + destruct Hpos as [->| ->]; [by left|right; cbn; by rewrite length_app].
  - repeat split; cbn; auto.
Qed.

(** Opening the log, and writing the line. *)
Lemma wp_reopen ready line w done :
  looks_ready ready → disk_ok w →
  done = (if lw_truncated w then default [] (log_text w) else []) →
  wp (let* go :=
        (let* ok := ready in
         if negb ok then mret false
         else
           let* old := gets lw_truncated in
           modify (l_set_truncated true);;
           let* f := open_log (negb old) in
           match f with
           | Some h => let* now := observe instant_at in modify (l_set_log (Some (h, now)));; mret true
           | None => mret false
           end) in
      if negb go then mret tt
      else
        let* g := gets lw_log in
        match g with
        | Some (h, opened) =>
            let* (ok, h) := write_log h line in
            modify (l_set_log (if (ok : bool) then Some (h, opened) else None))
        | None => mret tt
        end) (λ _ w', (∃ opened, logging w' (done ++ line) opened) ∧ log_frame w w') w.
Proof.
  intros Hready Hd ->. destruct (Hready w) as [k Hk]. rewrite !wp_bind. unfold wp at 1. rewrite Hk. cbn [negb].
  set (w1 := l_set_reads _ w). rewrite wp_bind, wp_gets, wp_bind. unfold wp at 1, modify.
  set (w2 := l_set_truncated true w1). rewrite wp_bind.
  eapply wp_mono; [apply (wp_open_log _ w2); exact Hd|].
  intros r w3 (h & -> & Hp & Hf & Hpos & Ht & Hl & Hfr). rewrite wp_bind. unfold wp at 1, observe.
  rewrite wp_bind. unfold wp at 1, modify. unfold wp at 1, mret. cbn [negb].
  set (w4 := l_set_log _ _).
  eapply wp_mono; [apply (wp_put_line line w4 (if lw_truncated w then default [] (log_text w) else []) (instant_at (lw_reads w3)))|].
  - exists h. cbn. split; [done|]. split; [by rewrite Ht|]. split; [done|]. split.
    + rewrite Hf. subst w1. cbn. by destruct (lw_truncated w).
    + rewrite Hpos. subst w1. cbn. destruct (lw_truncated w); [by left|by right].
  - intros [] w5 [Hlog Hfr5]. split; [by eexists|]. etrans; [|exact Hfr5].
    destruct Hfr as (H1 & H2 & H3). cbn in *. repeat split; cbn; [lia|done|done].
Qed.

Lemma wp_append_logging ready line w done opened :
  looks_ready ready → logging w done opened →
  wp (append_line ready line) (λ _ w', (∃ o, logging w' (done ++ line) o) ∧ log_frame w w') w.
Proof.
  intros Hready Hlog. pose proof Hlog as (h & Hl & Ht & Hp & Hf & Hpos).
  unfold append_line. rewrite wp_bind, wp_gets, Hl, wp_bind, wp_bind. unfold wp at 1, observe.
  unfold wp at 1, mret. set (w1 := l_set_reads _ w).
  assert (Hlog1 : logging w1 done opened) by (by exists h).
  assert (Hfr1 : log_frame w w1) by (repeat split; cbn; lia).
  destruct (LOG_REOPEN_MS <=? _).
  - eapply wp_mono; [apply (wp_reopen ready line w1 done Hready)|].
    + intros f Hfp. subst w1. cbn in *. rewrite Hp in Hfp. injection Hfp as <-. by eexists.
    + subst w1. unfold log_text. cbn. by rewrite Ht, Hp; cbn; rewrite Hf.
    + intros [] w' [? ?]. split; [done|by etrans].
  - rewrite wp_bind. unfold wp at 1, mret. cbn [negb].
    eapply wp_mono; [by apply (wp_put_line line w1 done opened)|].
    intros [] w' [? ?]. split; [by eexists|by etrans].
Qed.

(** The first line of a run: what an earlier run left is gone. *)
Lemma wp_append_first ready line w :
  looks_ready ready → disk_ok w → lw_log w = None → lw_truncated w = false →
  wp (append_line ready line) (λ _ w', (∃ o, logging w' line o) ∧ log_frame w w') w.
Proof.
  intros Hready Hd Hl Ht. unfold append_line. rewrite wp_bind, wp_gets, Hl, wp_bind. unfold wp at 1, mret.
  eapply wp_mono; [apply (wp_reopen ready line w [] Hready Hd); by rewrite Ht|]. done.
Qed.

(** The log was deleted, and its handle is old. *)
Lemma wp_append_deleted ready line w h opened :
  looks_ready ready → lw_path w = None → lw_log w = Some (h, opened) → lw_truncated w = true →
  (∀ k, (lw_reads w ≤ k)%nat → LOG_REOPEN_MS * NANOS_PER_MS <= instant_at k - opened) →
  wp (append_line ready line) (λ _ w', (∃ o, logging w' line o) ∧ log_frame w w') w.
Proof.
  intros Hready Hp Hl Ht Hold. unfold append_line. rewrite wp_bind, wp_gets, Hl, wp_bind, wp_bind.
  unfold wp at 1, observe. unfold wp at 1, mret. set (w1 := l_set_reads _ w).
  rewrite (proj2 (Z.leb_le _ _)).
  - eapply wp_mono; [apply (wp_reopen ready line w1 [] Hready)|].
    + intros f Hf. subst w1. cbn in Hf. congruence.
    + subst w1. unfold log_text. cbn. by rewrite Ht, Hp.
    + intros [] w' [Hlog Hfr]. split; [done|]. etrans; [|exact Hfr]. repeat split; cbn; lia.
  - specialize (Hold (lw_reads w) (le_n _)). unfold LOG_REOPEN_MS, NANOS_PER_MS, saturating_sub in *.
    apply Z.div_le_lower_bound; lia.
Qed.
End keeps_lines.

(** Run a computation on a world that is spelled out, up to the next reading. *)
Ltac run_log :=
  cbv beta iota zeta delta [wp mbind mret gets modify when observe party_log_line mp_log_line append_line always
    open_log write_log negb fst snd
    l_set_reads l_set_disk l_set_truncated l_set_log l_set_console l_set_rate l_set_last
    lw_reads lw_files lw_next lw_path lw_truncated lw_log lw_console lw_rate lw_last hd_file hd_pos].

(** ** The four loggers *)

Inductive Logger := PartyLog | MpLog | SteamLog | BrokerLog.

Section loggers.
Context `{E : LogEnv}.

Definition log_with (l : Logger) (msg : string) : L unit :=
  match l with
  | PartyLog => party_log_line msg
  | MpLog => mp_log_line msg
  | SteamLog => steam_log_msg msg
  | BrokerLog => log_line msg
  end.
(** The bytes of a line; [t] is the reading of the clock, where one is made. *)
Definition log_format (l : Logger) (t : Z) (msg : string) : list byte :=
  match l with
  | PartyLog | MpLog => stamped (fmt_dec t) msg ++ [newline]
  | SteamLog => steam_line msg
  | BrokerLog => stamped (ts_text t) msg ++ [newline]
  end.

(** Somebody deletes the log. *)
Definition delete_log : L unit := modify (λ w, l_set_disk (lw_files w) (lw_next w) None w).

Lemma exe_dir_ready : (∀ k, has_exe_dir k = true) → looks_ready (observe has_exe_dir).
Proof. intros H w. exists 1%nat. unfold observe. rewrite H. by rewrite Nat.add_1_r. Qed.

(** What holds of appending a line holds of logging a message. *)
Lemma wp_log_with l msg (P : LogWorld → Prop) (R : list byte → LogWorld → Prop) w :
  (∀ k, has_exe_dir k = true) →
  (∀ k c, (lw_reads w ≤ k)%nat → P (l_set_console c (l_set_reads k w))) →
  (∀ ready line w1, looks_ready ready → P w1 →
     wp (append_line ready line) (λ _ w', R line w' ∧ log_frame w1 w') w1) →
  wp (log_with l msg) (λ _ w', (∃ t, R (log_format l t msg) w') ∧ log_frame w w') w.
Proof.
  intros Hexe HP Happ. destruct l; cbn [log_with log_format].
  - unfold party_log_line. rewrite wp_bind. unfold wp at 1, observe.
    eapply wp_mono; [apply (Happ always _ _ always_ready); apply (HP (S (lw_reads w)) (lw_console w)); lia|].
    intros [] w' [HR Hfr]. split; [by eexists|]. etrans; [|exact Hfr]. repeat split; cbn; lia.
  - unfold mp_log_line. rewrite wp_bind. unfold wp at 1, observe.
    eapply wp_mono; [apply (Happ always _ _ always_ready); apply (HP (S (lw_reads w)) (lw_console w)); lia|].
    intros [] w' [HR Hfr]. split; [by eexists|]. etrans; [|exact Hfr]. repeat split; cbn; lia.
  - unfold steam_log_msg. rewrite wp_bind. unfold wp at 1, modify.
    eapply wp_mono; [apply (Happ always _ _ always_ready)|].
    + destruct w. apply (HP lw_reads0 (lw_console0 ++ [debugger_text (steam_line msg)])). done.
    + intros [] w' [HR Hfr]. split; [by exists 0|]. etrans; [|exact Hfr]. repeat split; cbn; lia.
  - unfold log_line, ts, println, write_log_file. rewrite !wp_bind. unfold wp at 1, observe. unfold wp at 1, mret.
    rewrite wp_bind. unfold wp at 1, modify.
    eapply wp_mono; [apply (Happ _ _ _ (exe_dir_ready Hexe)); apply HP; lia|].
    intros [] w' [HR Hfr]. split; [by eexists|]. etrans; [|exact Hfr]. repeat split; cbn; lia.
Qed.

Lemma wp_log_logging l msg w done opened :
  (∀ k, can_open k = true) → (∀ k, write_cut k = None) → (∀ k, has_exe_dir k = true) →
  logging w done opened →
  wp (log_with l msg) (λ _ w', (∃ t o, logging w' (done ++ log_format l t msg) o) ∧ log_frame w w') w.
Proof.
  intros Hopen Hwrite Hexe Hlog.
  eapply wp_mono; [apply (wp_log_with l msg (λ w, logging w done opened) (λ line w', ∃ o, logging w' (done ++ line) o) w Hexe)|].
  - intros k c _. destruct Hlog as (h & H). by exists h.
  - intros ready line w1 Hready H1. by apply (wp_append_logging Hopen Hwrite ready line w1 done opened).
  - intros [] w' [(t & o & H) Hfr]. split; [by exists t, o|done].
Qed.

Lemma wp_log_list l msgs w done opened :
  (∀ k, can_open k = true) → (∀ k, write_cut k = None) → (∀ k, has_exe_dir k = true) →
  logging w done opened →
  wp (for_each msgs (log_with l)) (λ _ w', ∃ ts o, length ts = length msgs ∧
    logging w' (done ++ concat (zip_with (log_format l) ts msgs)) o) w.
Proof.
  intros Hopen Hwrite Hexe. revert w done opened. induction msgs as [|msg msgs IH]; intros w done opened Hlog; cbn [for_each].
  { unfold wp, mret. exists [], opened. cbn. by rewrite app_nil_r. }
  rewrite wp_bind. eapply wp_mono; [by apply (wp_log_logging l msg w done opened)|].
  intros [] w1 [(t & o & H1) _]. eapply wp_mono; [eapply IH; exact H1|].
  intros [] w2 (ts & o2 & Hts & H2). exists (t :: ts), o2. cbn. rewrite app_assoc. auto.
Qed.

(** Every message a run logs is in its file, in order and whole, and nothing of the run before:
    the handle is opened again every five seconds, and never cuts the file after the first time. *)
Theorem log_keeps_every_line l msg msgs w :
  (∀ k, can_open k = true) → (∀ k, write_cut k = None) → (∀ k, has_exe_dir k = true) →
  disk_ok w → lw_log w = None → lw_truncated w = false →
  wp (for_each (msg :: msgs) (log_with l)) (λ _ w', ∃ ts, length ts = length (msg :: msgs) ∧
    log_text w' = Some (concat (zip_with (log_format l) ts (msg :: msgs)))) w.
Proof.
  intros Hopen Hwrite Hexe Hd Hl Ht. cbn [for_each]. rewrite wp_bind.
  eapply wp_mono; [apply (wp_log_with l msg (λ w, disk_ok w ∧ lw_log w = None ∧ lw_truncated w = false)
    (λ line w', ∃ o, logging w' line o) w Hexe)|].
  - done.
  - intros ready line w1 Hready (H1 & H2 & H3). by apply wp_append_first.
  - intros [] w1 [(t & o & H1) _]. eapply wp_mono; [eapply wp_log_list; [exact Hopen|exact Hwrite|exact Hexe|exact H1]|].
    intros [] w2 (ts & o2 & Hts & h & _ & _ & Hp & Hf & _). exists (t :: ts). cbn. split; [by rewrite Hts|].
    unfold log_text. rewrite Hp. cbn. by rewrite Hf.
Qed.

(** A log that is deleted comes back: once the handle is five seconds old the next line is the
    first of a new file. *)
Theorem deleted_log_returns l msg w done opened :
  (∀ k, can_open k = true) → (∀ k, write_cut k = None) → (∀ k, has_exe_dir k = true) →
  logging w done opened →
  (∀ k, (lw_reads w ≤ k)%nat → LOG_REOPEN_MS * NANOS_PER_MS <= instant_at k - opened) →
  wp (delete_log;; log_with l msg) (λ _ w', ∃ t, log_text w' = Some (log_format l t msg)) w.
Proof.
  intros Hopen Hwrite Hexe (h & Hl & Ht & _) Hold. rewrite wp_bind. unfold wp at 1, delete_log, modify.
  set (w1 := l_set_disk _ _ _ w).
  eapply wp_mono; [apply (wp_log_with l msg (λ w2, lw_path w2 = None ∧ lw_log w2 = Some (h, opened) ∧
    lw_truncated w2 = true ∧ (lw_reads w1 ≤ lw_reads w2)%nat) (λ line w', ∃ o, logging w' line o) w1 Hexe)|].
  - intros k c Hk. by subst w1.
  - intros ready line w2 Hready (H1 & H2 & H3 & H4).
    apply (wp_append_deleted Hopen Hwrite ready line w2 h opened); [done..|]. intros k Hk. apply Hold. subst w1. cbn in H4. lia.
  - intros [] w' [(t & o & h' & _ & _ & Hp & Hf & _) _]. exists t. unfold log_text. rewrite Hp. cbn. by rewrite Hf.
Qed.

(** When the first open of a run fails, the run before is not cut off: [LOG_TRUNCATED] is set
    before the open, so the next open appends. *)
Theorem failed_open_keeps_old_run w f old m1 m2 :
  lw_log w = None → lw_truncated w = false → lw_path w = Some f → lw_files w !! f = Some old →
  let k := lw_reads w in
  can_open (k + 1) = false → can_open (k + 3) = true → write_cut (k + 5) = None →
  wp (party_log_line m1;; party_log_line m2)
    (λ _ w', log_text w' = Some (old ++ log_format PartyLog (secs_at (k + 2)) m2)) w.
Proof.
  intros Hl Ht Hp Hf. cbv zeta. set (k := lw_reads w). intros H1 H3 H5.
  replace (k + 1)%nat with (S k) in H1 by lia. replace (k + 2)%nat with (S (S k)) by lia.
  replace (k + 3)%nat with (S (S (S k))) in H3 by lia. replace (k + 5)%nat with (S (S (S (S (S k))))) in H5 by lia.
  subst k. destruct w as [k fs next p tr lg con rt ls]. cbn in *. subst.
  run_log. rewrite H1. run_log. rewrite H3. run_log. rewrite H5. run_log.
  unfold log_text. cbn. by rewrite lookup_alter_eq, Hf.
Qed.

(** What the Steam shim hands to the debugger, which reads up to a NUL, has none. *)
Theorem debugger_text_unterminated line : x00 ∉ debugger_text line.
Proof. unfold debugger_text. rewrite list_elem_of_filter. tauto. Qed.
End loggers.

(** ** Limits and probes *)

Create HintDb logs.

Section limits.
Context `{E : LogEnv}.

(** A computation that returns whatever the files do, and leaves the limits alone. *)
Definition returns {A} (m : L A) : Prop := ∀ w, ∃ x w', m w = Some (x, w') ∧ log_frame w w'.

Lemma returns_ret {A} (x : A) : returns (mret x).
Proof. intros w. by exists x, w. Qed.
Lemma returns_bind {A B} (m : L A) (f : A → L B) : returns m → (∀ x, returns (f x)) → returns (mbind m f).
Proof.
  intros Hm Hf w. destruct (Hm w) as (x & w1 & H1 & ?). destruct (Hf x w1) as (y & w2 & H2 & ?).
  exists y, w2. unfold mbind. rewrite H1. split; [done|by etrans].
Qed.
Lemma returns_observe {A} (f : nat → A) : returns (observe f).
Proof. intros w. eexists _, _. split; [reflexivity|]. repeat split; cbn; lia. Qed.
Lemma returns_gets {A} (f : LogWorld → A) : returns (gets f).
Proof. intros w. eexists _, _. by split; [reflexivity|]. Qed.
Lemma returns_modify f : (∀ w, log_frame w (f w)) → returns (modify f).
Proof. intros Hf w. eexists _, _. split; [reflexivity|]. apply Hf. Qed.
#[local] Hint Resolve returns_ret returns_observe returns_gets : logs.

Ltac returning :=
  repeat first [match goal with |- ∀ _, returns _ => intros ? end
    | progress unfold when
    | simple apply returns_bind
    | simple apply returns_modify; intros; repeat split; cbn; lia
    | progress auto with logs
    | match goal with |- returns (match ?x with _ => _ end) => destruct x end ].

Lemma returns_append_line ready line : returns ready → returns (append_line ready line).
Proof. intros Hr. unfold append_line, open_log, write_log. returning. Qed.
Lemma returns_mp_log_line msg : returns (mp_log_line msg).
Proof. unfold mp_log_line. returning. apply returns_append_line. unfold always. returning. Qed.
Lemma returns_log_line msg : returns (log_line msg).
Proof.
  unfold log_line, ts, println, write_log_file. returning. apply returns_append_line. returning.
Qed.

(** The table of [rate_limited_log] never has more than 65 keys. *)
Lemma rate_map_bounded key msg w :
  (size (lw_rate w) ≤ S RATE_KEYS)%nat →
  wp (rate_limited_log key msg) (λ _ w', (size (lw_rate w') ≤ S RATE_KEYS)%nat) w.
Proof.
  intros Hs. unfold rate_limited_log. rewrite wp_bind. unfold wp at 1, observe. rewrite wp_bind, wp_gets.
  cbv zeta. rewrite wp_bind. unfold wp at 1, modify.
  set (m := if (RATE_KEYS <? _)%nat then _ else _).
  assert (Hm : (size m ≤ RATE_KEYS)%nat) by (subst m; cbn [lw_rate l_set_reads]; case_if; [rewrite map_size_empty; lia|done]).
  set (m' := if rate_due _ _ then _ else m).
  assert (Hm' : (size m' ≤ S RATE_KEYS)%nat).
  { subst m'. clearbody m. case_if; [|lia]. rewrite map_size_insert. destruct (m !! key); unfold id; lia. }
  unfold when. case_if; [|done].
  destruct (returns_log_line msg (l_set_rate m' (l_set_reads (S (lw_reads w)) w))) as (x & w' & Hw & _ & Hr & _).
  unfold wp. rewrite Hw. by rewrite Hr.
Qed.

(** A key that was logged is not logged again before thirty seconds, while the table is small. *)
Lemma rate_limit_holds key msg w t :
  (size (lw_rate w) ≤ RATE_KEYS)%nat → lw_rate w !! key = Some t →
  f64_leb RATE_LIMIT_SECS (f64_sub (unix_at (lw_reads w)) t) = false →
  wp (rate_limited_log key msg) (λ _ w', w' = l_set_reads (S (lw_reads w)) w) w.
Proof.
  intros Hs Ht Hlt. unfold rate_limited_log. rewrite wp_bind. unfold wp at 1, observe. rewrite wp_bind, wp_gets.
  cbv zeta. rewrite (proj2 (Nat.ltb_ge _ _)) by done. cbn [lw_rate l_set_reads]. rewrite Ht. cbn [rate_due].
  rewrite Hlt. unfold wp, mbind, modify, when, mret. by destruct w.
Qed.

(** With 65 keys the table is emptied, and a key logged a moment ago is logged again: the limit is
    documented for every key. *)
Theorem cleared_key_repeats key msg w :
  (RATE_KEYS < size (lw_rate w))%nat →
  rate_limited_log key msg w =
    log_line msg (l_set_rate {[ key := unix_at (lw_reads w) ]} (l_set_reads (S (lw_reads w)) w)).
Proof.
  intros Hs. unfold rate_limited_log, mbind at 1, observe, gets, modify. unfold mbind at 1. cbn [lw_rate l_set_reads].
  cbv zeta. rewrite (proj2 (Nat.ltb_lt _ _)) by done. rewrite lookup_empty. cbn [rate_due when].
  reflexivity.
Qed.

(** A message of the throttled log that comes once is not in the file: the first message of a key
    starts the second and counts as one of those held back in it. *)
Theorem throttled_once_is_silent key msg w :
  lw_last w !! key = None →
  instant_at (S (lw_reads w)) - instant_at (lw_reads w) < ONE_SECOND →
  wp (log_throttled key msg) (λ _ w', log_text w' = log_text w ∧
    lw_last w' !! key = Some (instant_at (lw_reads w), 1)) w.
Proof.
  intros Hk Hlt. unfold log_throttled. rewrite wp_bind. unfold wp at 1, observe. rewrite wp_bind, wp_gets.
  cbn [lw_last l_set_reads]. rewrite Hk. cbn [default]. rewrite wp_bind. unfold wp at 1. cbn [lw_reads l_set_reads].
  rewrite (proj2 (Z.leb_gt _ _)) by (unfold saturating_sub, ONE_SECOND in *; lia).
  unfold wp, modify. split; [done|]. cbn. by rewrite lookup_insert_eq.
Qed.

(** Messages of one key with a second between them: each line says how many came before it. *)
Lemma throttled_line_counts key msg w at0 n :
  lw_last w !! key = Some (at0, n) →
  ONE_SECOND <= instant_at (S (lw_reads w)) - at0 →
  log_throttled key msg w =
    mp_log_line (if 0 <? n then msg +:+ " [+" +:+ fmt_dec n +:+ " more in the previous second]" else msg)
      (l_set_last (<[key := (instant_at (S (S (lw_reads w))), 0)]> (lw_last w)) (l_set_reads (3 + lw_reads w) w)).
Proof.
  intros Hk Hle. unfold log_throttled, mbind at 1, observe, gets. unfold mbind at 1. cbn [lw_last l_set_reads].
  rewrite Hk. cbn [default from_option id]. unfold mbind at 1. cbn [lw_reads l_set_reads].
  rewrite (proj2 (Z.leb_le _ _)) by (unfold saturating_sub, ONE_SECOND in *; lia). reflexivity.
Qed.

(** When [StateLog::due] asks for a line: the tuple changed, or thirty seconds passed. *)
Lemma state_due_spec s next w :
  wp (state_due s next) (λ r w',
    (r.1 = 1 ↔ sl_key s ≠ next) ∧
    (r.1 = 2 → PFQUEUE_STATE_HEARTBEAT_MS * NANOS_PER_MS <= instant_at (lw_reads w) - sl_at s) ∧
    (r.1 = 0 → r.2 = s ∧ instant_at (lw_reads w) - sl_at s < PFQUEUE_STATE_HEARTBEAT_MS * NANOS_PER_MS) ∧
    (r.1 ≠ 0 → sl_key r.2 = next) ∧ lw_files w' = lw_files w) w.
Proof.
  unfold state_due. cbv zeta. rewrite wp_bind. case_bool_decide as Hk; cbn [negb].
  - rewrite wp_bind. unfold wp at 1, observe. unfold wp at 1, mret.
    destruct (_ <? _) eqn:Hlt; unfold wp, mbind, mret; cbn;
      unfold saturating_sub, PFQUEUE_STATE_HEARTBEAT_MS, NANOS_PER_MS in *; bool_props; split_and!; try done; try lia.
    intros _. split; [done|lia].
  - unfold wp at 1, mret. unfold wp, mbind, mret, observe. cbn. split_and!; done.
Qed.

(** A pump that changes nothing is silent between two heartbeats. *)
Lemma unchanged_pump_silent s n pending inflight out w :
  sl_key s = (n, pending, inflight, out) →
  instant_at (lw_reads w) - sl_at s < PFQUEUE_STATE_HEARTBEAT_MS * NANOS_PER_MS →
  note_start s n pending inflight out w = Some (s, l_set_reads (S (lw_reads w)) w).
Proof.
  intros Hs Hlt. unfold note_start, state_due. cbv zeta. rewrite bool_decide_eq_true_2 by done. cbn [negb].
  unfold mbind, observe, mret. rewrite (proj2 (Z.ltb_lt _ _)); [done|].
  unfold saturating_sub, PFQUEUE_STATE_HEARTBEAT_MS, NANOS_PER_MS in *. lia.
Qed.

(** The queue heartbeat says nothing of an unchanged queue for thirty seconds; its comments say two. *)
Theorem heartbeat_quiet q s w :
  s.1 = (q_pending q, q_inflight q, q_outstanding q) →
  instant_at (lw_reads w) - s.2 < PFQUEUE_HEARTBEAT_MS * NANOS_PER_MS →
  heartbeat_tick q s w = Some (s, l_set_reads (S (lw_reads w)) w).
Proof.
  intros Hs Hlt. unfold heartbeat_tick. cbv zeta. rewrite bool_decide_eq_true_2 by done. cbn [negb].
  unfold mbind, observe, mret.
  rewrite (proj2 (Z.ltb_lt _ _)); [done|].
  unfold saturating_sub, PFQUEUE_HEARTBEAT_MS, NANOS_PER_MS in *. apply Z.div_lt_upper_bound; lia.
Qed.

Lemma probe_snapshot_marks pending inflight out q :
  let q' := probe_snapshot pending inflight out q in
  q_max_pending q' = Z.max (q_max_pending q) pending ∧ q_max_inflight q' = Z.max (q_max_inflight q) inflight.
Proof. cbn. split; case_if; lia. Qed.
End limits.
