(* ===== verification/Mesh.v ===== *)
(** * The mesh state: [party-shim/src/lib.rs], its data

    The records behind the Party exports ([Handle], [Network], [Endpoint],
    [LocalUser]), the state changes queued for the title, the outbox and the
    broker queue, and the computations over them.

    The shim's objects are boxes it never frees, shared between the title and
    two worker threads by raw pointers: they live in a heap of the [World] and
    are named by their address, 0 being the null pointer.  A computation maps a
    world to a result and the next world, or to nothing where the code follows
    a null or dangling pointer (undefined behaviour).  Everything runs under
    the one handle mutex, so an export or a cycle of the transport thread is
    one computation.

    What the shim reads from outside (the clocks, the game's member list, the
    sockets, the broker) is a class of oracles indexed by the number of reads
    made so far, so two reads need not agree.  Log lines, the probes that only
    feed them and the fields that only they read are left out. *)

From S2P Require Import Prelude RustStr Http LanCfg BTree Reliable Wire Descriptor Comp.
#[local] Open Scope Z_scope.

(** ** Constants *)

Definition OUTBOX_BATCH : nat := 128.
Definition RECV_BATCH : nat := 256.
Definition PEER_POLL_TIMEOUT_MS : Z := 10000.
Definition BROKER_QUEUE_CAP : nat := 512.
Definition TRANSPORT_POLL_MS : Z := 2.
Definition RECV_GUARANTEED : Z := 1.
Definition RECV_SEQUENTIAL : Z := 2.
(** [PENDING_CAP] of lib.rs, not the one of reliable.rs. *)
Definition MESH_PENDING_CAP : nat := 128.
Definition TYPE12_HOLD_TIMEOUT_MS : Z := 10000.
Definition BATCH_CAP : nat := 32.
Definition REMOTE_CAP : nat := 8.
Definition PENDING_RX_CAP : nat := 128.
Definition PENDING_PEERS_CAP : nat := 16.

(** ** Addresses *)

Inductive SockAddr :=
  | V4 (ip : ipv4) (port : Z)
  | V6 (text : string) (port : Z).

#[export] Instance SockAddr_eq_dec : EqDecision SockAddr.
Proof. solve_decision. Defined.

(** One octet as [Ipv4Addr::from_str] reads it: one to three digits, no leading zero, at most 255. *)
Definition parse_octet (l : list byte) : option Z :=
  match l with
  | [] => None
  | c :: r =>
      if (3 <? length l)%nat || (byte_eqb c x30 && negb (bool_decide (r = []))) then None
      else match digits_val 10 0 l with
           | Some v => if v <=? 255 then Some v else None
           | None => None
           end
  end.

Definition parse_ipv4 (s : string) : option ipv4 :=
  match split_b x2e (sbytes s) with
  | [a; b; c; d] =>
      a ← parse_octet a; b ← parse_octet b; c ← parse_octet c; d ← parse_octet d;
      Some (a, b, c, d)
  | _ => None
  end.

(** ** Boxes *)

Record Endpoint := mkEndpoint {
  e_entity : string;
  e_uid : Z;
  e_network : Z;
  e_ip : string;
  e_port : Z;
  e_tx : Sender;
  e_rx : Receiver;
}.

(** An inbound frame that waits: entity, payload, send options, sequence. *)
Record Frame := mkFrame { f_entity : string; f_payload : list byte; f_options : Z; f_seq : Z }.

(** A candidate peer seen on the wire: entity, address, port. *)
Record PeerEntry := mkPeerEntry { p_entity : string; p_ip : string; p_port : Z }.

(** A datagram in a socket's receive queue, with the address it came from. *)
Definition Datagram : Type := SockAddr * list byte.

Record Network := mkNetwork {
  n_desc : Descriptor;
  n_user : Z;
  n_local : Z;
  n_remotes : gmap string Z;
  n_udp : option (list Datagram);     (* the open socket and what it has received *)
  n_port : Z;
  n_connected : bool;
  n_last_register : Z;
  n_pending_rx : list Frame;
  n_pending_peers : list PeerEntry;
  n_type10 : bool;
  n_type12 : bool;
  n_hold_start : option Z;
  n_poll_requested : bool;
  n_epoch : Z;
  n_inflight : bool;
  n_poll_sent : Z;
  n_applied : Z;
}.

(** ** State changes *)

Inductive StateChange :=
  | ScCreateNetwork (user : Z) (desc : Descriptor)
  | ScConnect (desc : Descriptor) (net : Z)
  | ScAuthenticate (net user : Z)
  | ScCreateEndpoint (net user ep : Z)
  | ScEndpointCreated (net ep : Z)
  | ScLeave (net : Z)
  | ScMessage (net ep local options : Z) (payload : list byte).

#[export] Instance StateChange_eq_dec : EqDecision StateChange.
Proof. solve_decision. Defined.

(** The tag in the first four bytes of the record. *)
Definition sc_type (c : StateChange) : Z :=
  match c with
  | ScCreateNetwork _ _ => 2
  | ScConnect _ _ => 3
  | ScAuthenticate _ _ => 4
  | ScCreateEndpoint _ _ _ => 10
  | ScEndpointCreated _ _ => 12
  | ScLeave _ => 19
  | ScMessage _ _ _ _ _ => 21
  end.

Definition is21 (c : StateChange) : bool := sc_type c =? 21.
Definition is12 (c : StateChange) : bool := sc_type c =? 12.

(** The delivery ledger: counts by type, and the drain's counters. *)
Record Ledger := mkLedger {
  l_queued : gmap Z Z;
  l_handed : gmap Z Z;
  l_reclaimed : gmap Z Z;
  l_batches : Z;
  l_last_batch : Z;
  l_last_reclaimed : Z;
  l_deferred21 : Z;
  l_cap_hits : Z;
  l_dropped : Z;
}.
Definition Ledger_default : Ledger := mkLedger ∅ ∅ ∅ 0 0 0 0 0 0.

Definition count_of (ty : Z) (m : gmap Z Z) : Z := default 0 (m !! ty).
(** [counts[ty] += k] where the index is in range. *)
Definition bump (ty k : Z) (m : gmap Z Z) : gmap Z Z :=
  if ty <? 32 then <[ty := count_of ty m + k]> m else m.

Record Handle := mkHandle {
  h_users : list Z;
  h_networks : list Z;
  h_pending : list StateChange;
  h_in_flight : list StateChange;
  h_ledger : Ledger;
  h_outstanding : bool;
  h_last_poll : Z;
}.

(** ** Work for the two threads *)

(** [PartyEndpointSendMessage] or a control datagram; [j_ep] is only read by diagnostics. *)
Record OutJob := mkOutJob {
  j_net : Z;
  j_ep : Z;
  j_kind : Z;
  j_options : Z;
  j_payload : list byte;
}.

#[export] Instance OutJob_eq_dec : EqDecision OutJob.
Proof. solve_decision. Defined.

Inductive BrokerTask :=
  | Register (network_id entity : string) (udp_port : Z) (quiet : bool)
  | Leave (network_id entity : string)
  | PollPeers (network_id : string) (epoch seq : Z).

#[export] Instance BrokerTask_eq_dec : EqDecision BrokerTask.
Proof. solve_decision. Defined.

Record PeerPollResult := mkPeerPollResult { pr_seq : Z; pr_members : list PeerEntry }.

(** ** The world *)

(** The boxes, and the next free address. *)
Record Heap := mkHeap {
  hp_users : gmap Z string;
  hp_nets : gmap Z Network;
  hp_eps : gmap Z Endpoint;
  hp_next : Z;
}.

(** [NEXT_UID], [NEXT_SC], [NEXT_NET_EPOCH], [NEXT_POLL_SEQ]. *)
Record Counters := mkCounters { c_uid : Z; c_ident : Z; c_epoch : Z; c_pollseq : Z }.

(** The outbox, [TRANSPORT_STARTED], [TRANSPORT_UP], and three logs: the jobs accepted into the outbox, the jobs taken
    from it, and the datagrams sent with the network they left from. *)
Record Outbox := mkOutbox {
  o_queue : list OutJob;
  o_started : bool;
  o_up : bool;
  o_accepted : list OutJob;
  o_done : list OutJob;
  o_sent : list (Z * SockAddr * list byte);
}.

(** The broker queue, [BROKER_STARTED], [BROKER_UP], the task the broker thread is running, the results it has
    stashed by epoch, and the log of the requests made, as bytes. *)
Record BrokerState := mkBrokerState {
  b_queue : list BrokerTask;
  b_started : bool;
  b_up : bool;
  b_cur : option BrokerTask;
  b_results : gmap Z PeerPollResult;
  b_http : list (list byte);
}.

(** [w_reads] counts the reads of the outside, [w_batches] logs the batches handed to the title,
    [w_session] is the first address the current session could allocate (a session ends at
    [PartyCleanup] and starts at [PartyInitialize]). *)
Record World := mkWorld {
  w_handle : option Handle;
  w_heap : Heap;
  w_counters : Counters;
  w_outbox : Outbox;
  w_broker : BrokerState;
  w_reads : nat;
  w_batches : list (list StateChange);
  w_session : Z;
}.

Definition world_init : World :=
  mkWorld None (mkHeap ∅ ∅ ∅ 1) (mkCounters 1 1 1 1) (mkOutbox [] false false [] [] [])
    (mkBrokerState [] false false None ∅ []) 0 [] 1.

(** ** Field updates *)

Definition set_addr (ip : string) (port : Z) (e : Endpoint) : Endpoint :=
  mkEndpoint (e_entity e) (e_uid e) (e_network e) ip port (e_tx e) (e_rx e).
Definition set_tx (tx : Sender) (e : Endpoint) : Endpoint :=
  mkEndpoint (e_entity e) (e_uid e) (e_network e) (e_ip e) (e_port e) tx (e_rx e).
Definition set_rx (rx : Receiver) (e : Endpoint) : Endpoint :=
  mkEndpoint (e_entity e) (e_uid e) (e_network e) (e_ip e) (e_port e) (e_tx e) rx.

Definition set_local (local user : Z) (n : Network) : Network :=
  mkNetwork (n_desc n) user local (n_remotes n) (n_udp n) (n_port n) (n_connected n)
    (n_last_register n) (n_pending_rx n) (n_pending_peers n) (n_type10 n) (n_type12 n)
    (n_hold_start n) (n_poll_requested n) (n_epoch n) (n_inflight n) (n_poll_sent n) (n_applied n).
Definition set_remotes (r : gmap string Z) (n : Network) : Network :=
  mkNetwork (n_desc n) (n_user n) (n_local n) r (n_udp n) (n_port n) (n_connected n)
    (n_last_register n) (n_pending_rx n) (n_pending_peers n) (n_type10 n) (n_type12 n)
    (n_hold_start n) (n_poll_requested n) (n_epoch n) (n_inflight n) (n_poll_sent n) (n_applied n).
Definition set_udp (s : option (list Datagram)) (n : Network) : Network :=
  mkNetwork (n_desc n) (n_user n) (n_local n) (n_remotes n) s (n_port n) (n_connected n)
    (n_last_register n) (n_pending_rx n) (n_pending_peers n) (n_type10 n) (n_type12 n)
    (n_hold_start n) (n_poll_requested n) (n_epoch n) (n_inflight n) (n_poll_sent n) (n_applied n).
Definition set_connected (c : bool) (n : Network) : Network :=
  mkNetwork (n_desc n) (n_user n) (n_local n) (n_remotes n) (n_udp n) (n_port n) c
    (n_last_register n) (n_pending_rx n) (n_pending_peers n) (n_type10 n) (n_type12 n)
    (n_hold_start n) (n_poll_requested n) (n_epoch n) (n_inflight n) (n_poll_sent n) (n_applied n).
Definition set_last_register (t : Z) (n : Network) : Network :=
  mkNetwork (n_desc n) (n_user n) (n_local n) (n_remotes n) (n_udp n) (n_port n) (n_connected n) t
    (n_pending_rx n) (n_pending_peers n) (n_type10 n) (n_type12 n) (n_hold_start n)
    (n_poll_requested n) (n_epoch n) (n_inflight n) (n_poll_sent n) (n_applied n).
Definition set_pending_rx (q : list Frame) (n : Network) : Network :=
  mkNetwork (n_desc n) (n_user n) (n_local n) (n_remotes n) (n_udp n) (n_port n) (n_connected n)
    (n_last_register n) q (n_pending_peers n) (n_type10 n) (n_type12 n) (n_hold_start n)
    (n_poll_requested n) (n_epoch n) (n_inflight n) (n_poll_sent n) (n_applied n).
Definition set_pending_peers (q : list PeerEntry) (n : Network) : Network :=
  mkNetwork (n_desc n) (n_user n) (n_local n) (n_remotes n) (n_udp n) (n_port n) (n_connected n)
    (n_last_register n) (n_pending_rx n) q (n_type10 n) (n_type12 n) (n_hold_start n)
    (n_poll_requested n) (n_epoch n) (n_inflight n) (n_poll_sent n) (n_applied n).
Definition set_hold_start (t : option Z) (n : Network) : Network :=
  mkNetwork (n_desc n) (n_user n) (n_local n) (n_remotes n) (n_udp n) (n_port n) (n_connected n)
    (n_last_register n) (n_pending_rx n) (n_pending_peers n) (n_type10 n) (n_type12 n) t
    (n_poll_requested n) (n_epoch n) (n_inflight n) (n_poll_sent n) (n_applied n).
Definition set_poll_requested (b : bool) (n : Network) : Network :=
  mkNetwork (n_desc n) (n_user n) (n_local n) (n_remotes n) (n_udp n) (n_port n) (n_connected n)
    (n_last_register n) (n_pending_rx n) (n_pending_peers n) (n_type10 n) (n_type12 n)
    (n_hold_start n) b (n_epoch n) (n_inflight n) (n_poll_sent n) (n_applied n).
Definition set_inflight (b : bool) (n : Network) : Network :=
  mkNetwork (n_desc n) (n_user n) (n_local n) (n_remotes n) (n_udp n) (n_port n) (n_connected n)
    (n_last_register n) (n_pending_rx n) (n_pending_peers n) (n_type10 n) (n_type12 n)
    (n_hold_start n) (n_poll_requested n) (n_epoch n) b (n_poll_sent n) (n_applied n).
Definition set_poll_sent (t : Z) (n : Network) : Network :=
  mkNetwork (n_desc n) (n_user n) (n_local n) (n_remotes n) (n_udp n) (n_port n) (n_connected n)
    (n_last_register n) (n_pending_rx n) (n_pending_peers n) (n_type10 n) (n_type12 n)
    (n_hold_start n) (n_poll_requested n) (n_epoch n) (n_inflight n) t (n_applied n).
Definition set_applied (sq : Z) (n : Network) : Network :=
  mkNetwork (n_desc n) (n_user n) (n_local n) (n_remotes n) (n_udp n) (n_port n) (n_connected n)
    (n_last_register n) (n_pending_rx n) (n_pending_peers n) (n_type10 n) (n_type12 n)
    (n_hold_start n) (n_poll_requested n) (n_epoch n) (n_inflight n) (n_poll_sent n) sq.
Definition set_type10 (n : Network) : Network :=
  mkNetwork (n_desc n) (n_user n) (n_local n) (n_remotes n) (n_udp n) (n_port n) (n_connected n)
    (n_last_register n) (n_pending_rx n) (n_pending_peers n) true (n_type12 n) (n_hold_start n)
    (n_poll_requested n) (n_epoch n) (n_inflight n) (n_poll_sent n) (n_applied n).
Definition set_type12 (n : Network) : Network :=
  mkNetwork (n_desc n) (n_user n) (n_local n) (n_remotes n) (n_udp n) (n_port n) (n_connected n)
    (n_last_register n) (n_pending_rx n) (n_pending_peers n) (n_type10 n) true (n_hold_start n)
    (n_poll_requested n) (n_epoch n) (n_inflight n) (n_poll_sent n) (n_applied n).

Definition set_users (l : list Z) (h : Handle) : Handle :=
  mkHandle l (h_networks h) (h_pending h) (h_in_flight h) (h_ledger h) (h_outstanding h)
    (h_last_poll h).
Definition set_networks (l : list Z) (h : Handle) : Handle :=
  mkHandle (h_users h) l (h_pending h) (h_in_flight h) (h_ledger h) (h_outstanding h)
    (h_last_poll h).
Definition set_pending (q : list StateChange) (h : Handle) : Handle :=
  mkHandle (h_users h) (h_networks h) q (h_in_flight h) (h_ledger h) (h_outstanding h)
    (h_last_poll h).
Definition set_ledger (l : Ledger) (h : Handle) : Handle :=
  mkHandle (h_users h) (h_networks h) (h_pending h) (h_in_flight h) l (h_outstanding h)
    (h_last_poll h).
Definition set_last_poll (t : Z) (h : Handle) : Handle :=
  mkHandle (h_users h) (h_networks h) (h_pending h) (h_in_flight h) (h_ledger h) (h_outstanding h)
    t.
Definition set_batch (b : list StateChange) (o : bool) (h : Handle) : Handle :=
  mkHandle (h_users h) (h_networks h) (h_pending h) b (h_ledger h) o (h_last_poll h).

Definition w_set_handle (h : option Handle) (w : World) : World :=
  mkWorld h (w_heap w) (w_counters w) (w_outbox w) (w_broker w) (w_reads w) (w_batches w)
    (w_session w).
Definition w_set_heap (hp : Heap) (w : World) : World :=
  mkWorld (w_handle w) hp (w_counters w) (w_outbox w) (w_broker w) (w_reads w) (w_batches w)
    (w_session w).
Definition w_set_counters (c : Counters) (w : World) : World :=
  mkWorld (w_handle w) (w_heap w) c (w_outbox w) (w_broker w) (w_reads w) (w_batches w)
    (w_session w).
Definition w_set_outbox (ob : Outbox) (w : World) : World :=
  mkWorld (w_handle w) (w_heap w) (w_counters w) ob (w_broker w) (w_reads w) (w_batches w)
    (w_session w).
Definition w_set_broker (br : BrokerState) (w : World) : World :=
  mkWorld (w_handle w) (w_heap w) (w_counters w) (w_outbox w) br (w_reads w) (w_batches w)
    (w_session w).
Definition w_set_reads (k : nat) (w : World) : World :=
  mkWorld (w_handle w) (w_heap w) (w_counters w) (w_outbox w) (w_broker w) k (w_batches w) (w_session w).
Definition w_set_batches (l : list (list StateChange)) (w : World) : World :=
  mkWorld (w_handle w) (w_heap w) (w_counters w) (w_outbox w) (w_broker w) (w_reads w) l (w_session w).
Definition w_set_session (z : Z) (w : World) : World :=
  mkWorld (w_handle w) (w_heap w) (w_counters w) (w_outbox w) (w_broker w) (w_reads w) (w_batches w) z.

Definition set_nets (m : gmap Z Network) (hp : Heap) : Heap :=
  mkHeap (hp_users hp) m (hp_eps hp) (hp_next hp).
Definition set_eps (m : gmap Z Endpoint) (hp : Heap) : Heap :=
  mkHeap (hp_users hp) (hp_nets hp) m (hp_next hp).
Definition set_uid (z : Z) (c : Counters) : Counters :=
  mkCounters z (c_ident c) (c_epoch c) (c_pollseq c).
Definition set_ident (z : Z) (c : Counters) : Counters :=
  mkCounters (c_uid c) z (c_epoch c) (c_pollseq c).
Definition set_epoch (z : Z) (c : Counters) : Counters :=
  mkCounters (c_uid c) (c_ident c) z (c_pollseq c).
Definition set_pollseq (z : Z) (c : Counters) : Counters :=
  mkCounters (c_uid c) (c_ident c) (c_epoch c) z.
Definition set_up (started b : bool) (ob : Outbox) : Outbox :=
  mkOutbox (o_queue ob) started b (o_accepted ob) (o_done ob) (o_sent ob).
Definition set_sent (l : list (Z * SockAddr * list byte)) (ob : Outbox) : Outbox :=
  mkOutbox (o_queue ob) (o_started ob) (o_up ob) (o_accepted ob) (o_done ob) l.
Definition set_queue (q : list BrokerTask) (br : BrokerState) : BrokerState :=
  mkBrokerState q (b_started br) (b_up br) (b_cur br) (b_results br) (b_http br).
Definition set_broker_up (started b : bool) (br : BrokerState) : BrokerState :=
  mkBrokerState (b_queue br) started b (b_cur br) (b_results br) (b_http br).
Definition set_cur (t : option BrokerTask) (br : BrokerState) : BrokerState :=
  mkBrokerState (b_queue br) (b_started br) (b_up br) t (b_results br) (b_http br).
Definition set_results (m : gmap Z PeerPollResult) (br : BrokerState) : BrokerState :=
  mkBrokerState (b_queue br) (b_started br) (b_up br) (b_cur br) m (b_http br).
Definition set_http (l : list (list byte)) (br : BrokerState) : BrokerState :=
  mkBrokerState (b_queue br) (b_started br) (b_up br) (b_cur br) (b_results br) l.

(** ** The outside *)

(** What the shim reads from the machine, the game and the broker, by the number of reads so far,
    and its configuration: [now_ms] (milliseconds since the epoch), the same clock in nanoseconds,
    [Instant::now] (nanoseconds), the game's live member list, the local address of a TCP
    connection to the broker and of a UDP socket connected outwards, the port a UDP bind to a port
    obtains, whether a thread starts, how an HTTP exchange with the broker goes, given the bytes of
    the request; the configuration [lan_cfg] and [force_inline_threads]; and the one address parser of the standard library that is not written
    out, for IPv6 literals. *)
Class Env := {
  now_at : nat → Z;
  nanos_at : nat → Z;
  inst_at : nat → Z;
  member_at : nat → string → bool;
  stub_local_at : nat → option SockAddr;
  probe_local_at : nat → option SockAddr;
  bind_at : nat → Z → option Z;
  spawn_at : nat → bool;
  http_at : nat → list byte → Reply;
  lan_cfg : LanCfg;
  force_inline_threads : bool;
  is_ipv6 : string → bool;
}.

(** ** Computations *)

(** The computations of [Comp] over the world. *)
Abbreviation M := (comp World).
#[local] Open Scope comp_scope.

(** One read of the outside. *)
Definition observe {A} (f : nat → A) : M A := λ w,
  Some (f (w_reads w), w_set_reads (S (w_reads w)) w).

(** *** The heap *)

Definition get_net (p : Z) : M Network := λ w, n ← hp_nets (w_heap w) !! p; Some (n, w).
Definition get_ep (p : Z) : M Endpoint := λ w, e ← hp_eps (w_heap w) !! p; Some (e, w).
Definition get_user (p : Z) : M string := λ w, u ← hp_users (w_heap w) !! p; Some (u, w).

Definition heap_upd (f : Heap → Heap) (w : World) : World := w_set_heap (f (w_heap w)) w.

(** [p->field = v]. *)
Definition mod_net (p : Z) (f : Network → Network) : M unit :=
  let* n := get_net p in
  modify (heap_upd (λ hp, set_nets (<[p := f n]> (hp_nets hp)) hp)).
Definition mod_ep (p : Z) (f : Endpoint → Endpoint) : M unit :=
  let* e := get_ep p in
  modify (heap_upd (λ hp, set_eps (<[p := f e]> (hp_eps hp)) hp)).

(** [Box::into_raw(Box::new(..))]; the addresses are never reused. *)
Definition new_net (n : Network) : M Z :=
  let* p := gets (λ w, hp_next (w_heap w)) in
  modify (heap_upd (λ hp, mkHeap (hp_users hp) (<[p := n]> (hp_nets hp)) (hp_eps hp) (p + 1)));;
  mret p.
Definition new_ep (e : Endpoint) : M Z :=
  let* p := gets (λ w, hp_next (w_heap w)) in
  modify (heap_upd (λ hp, mkHeap (hp_users hp) (hp_nets hp) (<[p := e]> (hp_eps hp)) (p + 1)));;
  mret p.
Definition new_user (u : string) : M Z :=
  let* p := gets (λ w, hp_next (w_heap w)) in
  modify (heap_upd (λ hp, mkHeap (<[p := u]> (hp_users hp)) (hp_nets hp) (hp_eps hp) (p + 1)));;
  mret p.

(** The handle inside [with_handle]. *)
Definition get_h : M Handle := λ w, h ← w_handle w; Some (h, w).
Definition mod_h (f : Handle → Handle) : M unit :=
  let* h := get_h in modify (w_set_handle (Some (f h))).
Definition with_handle {A} (f : M A) (default : A) : M A :=
  let* h := gets w_handle in
  match h with Some _ => f | None => mret default end.

(** *** Reading the outside *)

Section env.
Context `{E : Env}.

Definition now_ms : M Z := observe now_at.
Definition instant_now : M Z := observe inst_at.
Definition member_list_has_entity (eid : string) : M bool := observe (λ k, member_at k eid).

Definition is_loopback (ip : ipv4) : bool := let '(a, _, _, _) := ip in a =? 127.
Definition is_unspecified (ip : ipv4) : bool := bool_decide (ip = (0, 0, 0, 0)).
(** A V4 local address that is not loopback. *)
Definition outward (a : option SockAddr) : option ipv4 :=
  match a with
  | Some (V4 ip _) => if is_loopback ip then None else Some ip
  | _ => None
  end.

(** [lan_ip]: the configured address, then the one used to reach the broker, then the one used
    to reach the outside, then loopback. *)
Definition lan_ip : M ipv4 :=
  let cfg :=
    match advertise_ip lan_cfg ≫= parse_ipv4 with
    | Some ip => if is_loopback ip || is_unspecified ip then None else Some ip
    | None => None
    end in
  match cfg with
  | Some ip => mret ip
  | None =>
      let* a := observe stub_local_at in
      match outward a with
      | Some ip => mret ip
      | None =>
          let* a := observe probe_local_at in
          mret (default (127, 0, 0, 1) (outward a))
      end
  end.

(** [bind_udp]: the configured port, or an ephemeral one when that is busy. *)
Definition bind_udp : M (option Z) :=
  let* p := observe (λ k, bind_at k (udp_port lan_cfg)) in
  match p with
  | Some p => mret (Some p)
  | None => if udp_port lan_cfg =? 0 then mret None else observe (λ k, bind_at k 0)
  end.

(** [NEXT_x.fetch_add(1)]; [NEXT_UID] is 16 bits wide, the others 64. *)
Definition fetch_counter (get : Counters → Z) (set : Z → Counters → Counters) (width : Z) : M Z :=
  let* c := gets w_counters in
  modify (w_set_counters (set ((get c + 1) mod width) c));;
  mret (get c).
Definition fetch_uid : M Z := fetch_counter c_uid set_uid U16.
Definition fetch_ident : M Z := fetch_counter c_ident set_ident U64.
Definition fetch_epoch : M Z := fetch_counter c_epoch set_epoch U64.
Definition fetch_pollseq : M Z := fetch_counter c_pollseq set_pollseq U64.

(** [Instant::elapsed], which saturates at zero, in nanoseconds. *)
Definition elapsed (since : Z) : M Z := let* t := instant_now in mret (saturating_sub t since).
Definition NS_PER_MS : Z := 1000000.

Definition local_entity (n : Network) : M string :=
  if n_user n =? 0 then mret ""%string else get_user (n_user n).

(** [CString::new(..)], with its fallback for an interior NUL. *)
Definition cstring (s fallback : string) : string :=
  if bool_decide (x00 ∈ sbytes s) then fallback else s.

(** *** The queue of state changes *)

Definition ledger_queued (ty : Z) (l : Ledger) : Ledger :=
  mkLedger (bump ty 1 (l_queued l)) (l_handed l) (l_reclaimed l) (l_batches l) (l_last_batch l)
    (l_last_reclaimed l) (l_deferred21 l) (l_cap_hits l) (l_dropped l).
Definition ledger_dropped (l : Ledger) : Ledger :=
  mkLedger (l_queued l) (l_handed l) (l_reclaimed l) (l_batches l) (l_last_batch l)
    (l_last_reclaimed l) (l_deferred21 l) (l_cap_hits l) (l_dropped l + 1).

(** [pending_cap_drop]: true when a message is to be dropped. *)
Definition pending_cap_drop : M bool :=
  let* h := get_h in
  if (length (h_pending h) <? MESH_PENDING_CAP)%nat then mret false
  else mod_h (λ h, set_ledger (ledger_dropped (h_ledger h)) h);; mret true.

(** [queue_sc]; the allocation of the record is assumed to succeed. *)
Definition queue_sc (c : StateChange) : M unit :=
  let* drop := if is21 c then pending_cap_drop else mret false in
  if drop then mret tt
  else mod_h (λ h, set_pending (h_pending h ++ [c])
                     (set_ledger (ledger_queued (sc_type c) (h_ledger h)) h)).

(** [note_type12_hold] for one network at the instant [now], in milliseconds held: the hold start it
    leaves and, for a network that holds, how long it has. *)
Definition holds (n : Network) : bool :=
  n_type10 n && negb (n_type12 n) && negb (bool_decide (n_remotes n = ∅)).
Definition held_ms (now start : Z) : Z := saturating_sub now start / NS_PER_MS.

Fixpoint note_hold_loop (now : Z) (nets : list Z) (acc : bool * bool * Z) : M (bool * bool * Z) :=
  match nets with
  | [] => mret acc
  | p :: nets =>
      if p =? 0 then note_hold_loop now nets acc
      else
        let* n := get_net p in
        if negb (holds n) then mod_net p (set_hold_start None);; note_hold_loop now nets acc
        else
          let start := default now (n_hold_start n) in
          mod_net p (set_hold_start (Some start));;
          let '(holding, timed_out, oldest) := acc in
          let ms := held_ms now start in
          let oldest := Z.max oldest ms in
          note_hold_loop now nets
            (if TYPE12_HOLD_TIMEOUT_MS <=? ms then (holding, true, oldest)
             else (true, timed_out, oldest))
  end.

(** [(holding, timed_out, oldest_held_ms)]. *)
Definition note_type12_hold : M (bool * bool * Z) :=
  let* now := instant_now in
  let* h := get_h in
  note_hold_loop now (h_networks h) (false, false, 0).
End env.
