(* ===== verification/Outbox.v ===== *)
(** * Sending: [party-shim/src/lib.rs], the outbox and the outgoing half of the transport

    A send of the title is queued in the outbox and returns; the transport
    thread takes the jobs in bounded batches and puts one datagram on the wire
    for every remote with an address.  Retransmissions and stand-alone
    acknowledgements are produced by the thread's own clock.  A network's
    remotes are visited in the order of [map_to_list]: the source's [HashMap]
    has no order, and no theorem depends on it. *)

From S2P Require Import Prelude RustStr BTree Reliable Wire Descriptor Comp Mesh.
#[local] Open Scope Z_scope.
#[local] Open Scope comp_scope.

Section env.
Context `{E : Env}.

(** [ep_addr]: the text "ip:port" read as a socket address. *)
Definition ep_addr (e : Endpoint) : option SockAddr :=
  if e_port e =? 0 then None
  else match parse_ipv4 (e_ip e) with
       | Some ip => Some (V4 ip (e_port e))
       | None => if is_ipv6 (e_ip e) then Some (V6 (e_ip e) (e_port e)) else None
       end.

Definition remote_ptrs (n : Network) : list Z := (map_to_list (n_remotes n)).*2.

(** [udp_send_to]: the datagram is handed to the socket; whether the socket takes it only moves a
    counter. *)
Definition udp_send_to (net : Z) (pkt : list byte) (addr : SockAddr) : M unit :=
  modify (λ w, w_set_outbox (set_sent (o_sent (w_outbox w) ++ [(net, addr, pkt)]) (w_outbox w)) w).

Definition wire_packet (id : string) (local_ent : list byte) (kind options seq ack : Z)
    (payload : list byte) : list byte :=
  packet id local_ent kind options seq ack payload PARTY_RELIABLE.

(** One remote of [send_udp_all]: its own sequence spaces, its own acknowledgement. *)
Definition send_to_remote (net : Z) (id : string) (local_ent : list byte)
    (kind : Z) (payload : list byte) (options now ep : Z) : M unit :=
  let* e := get_ep ep in
  match ep_addr e with
  | None => mret tt
  | Some addr =>
      let '(ack, rx) := piggyback_ack (e_rx e) in
      if kind =? KIND_MSG then
        let '(out, tx) := send (e_tx e) payload options now in
        mod_ep ep (λ e, set_rx rx (set_tx tx e));;
        udp_send_to net (wire_packet id local_ent kind options (o_seq out) ack (o_payload out)) addr
      else
        mod_ep ep (set_rx rx);;
        udp_send_to net (wire_packet id local_ent kind options 0 ack payload) addr
  end.

Definition send_udp_all (net kind : Z) (payload : list byte) (options : Z) : M unit :=
  let* n := get_net net in
  match n_udp n with
  | None => mret tt
  | Some _ =>
      let* ent := local_entity n in
      let* now := now_ms in
      for_each (remote_ptrs n) (send_to_remote net (id_str (n_desc n)) (sbytes ent) kind payload options now)
  end.

(** [enqueue_out]. *)
Definition enqueue_out (j : OutJob) : M unit :=
  modify (λ w, let ob := w_outbox w in
    w_set_outbox (mkOutbox (o_queue ob ++ [j]) (o_started ob) (o_up ob) (o_accepted ob ++ [j]) (o_done ob) (o_sent ob)) w).

Definition send_transport_msg (net ep : Z) (payload : list byte) (options : Z) : M unit :=
  let* up := gets (λ w, o_up (w_outbox w)) in
  if up then enqueue_out (mkOutJob net ep KIND_MSG options payload)
  else send_udp_all net KIND_MSG payload options.

Definition send_transport_control (net kind : Z) : M unit :=
  let* up := gets (λ w, o_up (w_outbox w)) in
  if up then enqueue_out (mkOutJob net 0 kind 0 [])
  else send_udp_all net kind [] 0.

Definition process_out_job (j : OutJob) : M unit :=
  if j_net j =? 0 then mret tt
  else send_udp_all (j_net j) (j_kind j) (j_payload j) (j_options j).

(** The queue is left with [rest], and [jobs] are logged as taken. *)
Definition take_jobs (jobs rest : list OutJob) : M unit :=
  modify (λ w, let ob := w_outbox w in
    w_set_outbox (mkOutbox rest (o_started ob) (o_up ob) (o_accepted ob) (o_done ob ++ jobs) (o_sent ob)) w).

Definition service_outbox : M unit :=
  let* q := gets (λ w, o_queue (w_outbox w)) in
  let jobs := take OUTBOX_BATCH q in
  take_jobs jobs (drop OUTBOX_BATCH q);;
  for_each jobs process_out_job.

(** The jobs of one network, in order, before its socket closes. *)
Definition drain_outbox_for (net : Z) : M unit :=
  let* q := gets (λ w, o_queue (w_outbox w)) in
  let jobs := filter (λ j, j_net j = net) q in
  take_jobs jobs (filter (λ j, j_net j ≠ net) q);;
  for_each jobs process_out_job.

(** ** Timers *)

(** The retransmissions of one remote, then its stand-alone acknowledgement. *)
Definition resend_one (net : Z) (id : string) (local_ent : list byte) (addr : SockAddr) (ep : Z)
    (r : Retransmit) : M unit :=
  if r_gave_up r then mret tt
  else
    let* e := get_ep ep in
    let '(ack, rx) := piggyback_ack (e_rx e) in
    mod_ep ep (set_rx rx);;
    udp_send_to net (wire_packet id local_ent KIND_MSG (r_options r) (r_seq r) ack (r_payload r)) addr.

Definition service_remote (net : Z) (id : string) (local_ent : list byte) (now ep : Z) : M unit :=
  let* e := get_ep ep in
  match ep_addr e with
  | None => mret tt
  | Some addr =>
      let '(resends, tx) := due (e_tx e) now in
      mod_ep ep (set_tx tx);;
      for_each resends (resend_one net id local_ent addr ep);;
      let* e := get_ep ep in
      let '(ack, rx) := forced_ack (e_rx e) now in
      mod_ep ep (set_rx rx);;
      match ack with
      | Some ack => udp_send_to net (wire_packet id local_ent KIND_ACK 0 0 ack []) addr
      | None => mret tt
      end
  end.

Definition reliable_service (now : Z) : M unit :=
  let* h := get_h in
  for_each (h_networks h) (λ net,
    let* n := get_net net in
    match n_udp n with
    | None => mret tt
    | Some _ =>
        let* ent := local_entity n in
        for_each (remote_ptrs n) (service_remote net (id_str (n_desc n)) (sbytes ent) now)
    end).

(** The earliest deadline of the endpoints of [nets], and how long the thread may sleep. *)
Definition best_deadline (l : list Z) (best : option Z) : option Z :=
  fold_left (λ b d, Some (match b with Some b => Z.min b d | None => d end)) l best.

Definition ep_deadlines (e : Endpoint) : list Z :=
  option_list (next_rto_ms (e_tx e)) ++ option_list (next_ack_due_ms (e_rx e)).

Fixpoint deadlines_eps (eps : list Z) (best : option Z) : M (option Z) :=
  match eps with
  | [] => mret best
  | p :: eps =>
      if p =? 0 then deadlines_eps eps best
      else let* e := get_ep p in deadlines_eps eps (best_deadline (ep_deadlines e) best)
  end.

Fixpoint deadlines_nets (nets : list Z) (best : option Z) : M (option Z) :=
  match nets with
  | [] => mret best
  | p :: nets =>
      if p =? 0 then deadlines_nets nets best
      else
        let* n := get_net p in
        let* best := deadlines_eps (remote_ptrs n) best in
        deadlines_nets nets best
  end.

Definition next_transport_wait_ms (now : Z) : M Z :=
  let* h := get_h in
  let* best := deadlines_nets (h_networks h) None in
  mret (clamp (match best with Some d => saturating_sub d now | None => TRANSPORT_POLL_MS end)
          1 TRANSPORT_POLL_MS).
End env.
