(* ===== verification/Peers.v ===== *)
(** * Peers: [party-shim/src/lib.rs], the broker thread and the remote set

    Requests to the broker are queued and run by a thread of their own; the
    answer to a peer poll is stashed and applied by the title's next tick, by
    the network box that asked.  [ensure_remote] decides when a peer becomes a
    remote endpoint and the title is told. *)

From S2P Require Import Prelude RustStr Http LanCfg BTree Reliable Wire Descriptor Json Comp Mesh Outbox.
#[local] Open Scope Z_scope.
#[local] Open Scope comp_scope.

Section env.
Context `{E : Env}.

Definition broker_upd (f : BrokerState → BrokerState) : M unit :=
  modify (λ w, w_set_broker (f (w_broker w)) w).

(** ** The broker thread *)

(** The members of a [/party/peers] response. *)
Definition poll_members (text : option string) : list PeerEntry :=
  match text with
  | None => []
  | Some text =>
      omap (λ obj,
        eid ← json_str obj "entity_id";
        Some (mkPeerEntry eid (default "127.0.0.1"%string (json_str obj "ip"))
                (default 0 (json_str obj "udp_port" ≫= parse_u16))))
        (json_arr_objects text "members")
  end.

(** [http_json]: one exchange with the broker; the text of the response. *)
Definition http_json (method path body : string) : M (option string) :=
  let req := request_bytes (host lan_cfg) (port lan_cfg) method path body None in
  broker_upd (λ b, set_http (b_http b ++ [req]) b);;
  let* r := observe (λ k, http_at k req) in
  mret match exchange r with
       | Ok resp => Some (hr_body resp)
       | Err _ => None
       end.

(** The bodies [broker_run] formats; the texts are not escaped. *)
Definition register_body (network_id entity : string) (udp_port : Z) (ip : ipv4) : string :=
  "{" +:+ text_field "network_id" network_id +:+ "," +:+ text_field "entity_id" entity +:+ "," +:+
  quoted_text "udp_port" +:+ ":" +:+ fmt_dec udp_port +:+ "," +:+ text_field "ip" (ip_string ip) +:+ "}".
Definition leave_body (network_id entity : string) : string :=
  "{" +:+ text_field "network_id" network_id +:+ "," +:+ text_field "entity_id" entity +:+ "}".

Definition broker_run (t : BrokerTask) : M unit :=
  match t with
  | Register nid ent port _ =>
      let* ip := lan_ip in
      let* _ := http_json "POST" "/party/join" (register_body nid ent port ip) in
      mret tt
  | Leave nid ent => let* _ := http_json "POST" "/party/leave" (leave_body nid ent) in mret tt
  | PollPeers nid epoch seq =>
      let* text := http_json "GET" ("/party/peers?network_id=" +:+ nid) "" in
      broker_upd (λ b, set_results (<[epoch := mkPeerPollResult seq (poll_members text)]> (b_results b)) b)
  end.

(** A registration replaces a queued one of the same network and entity where that stands. *)
Definition same_register (network_id entity : string) (t : BrokerTask) : bool :=
  match t with
  | Register nid ent _ _ => bool_decide (nid = network_id) && bool_decide (ent = entity)
  | _ => false
  end.
Definition is_register (t : BrokerTask) : bool :=
  match t with Register _ _ _ _ => true | _ => false end.

(** The queue after a task is handed to a live broker thread. *)
Definition broker_enqueue (task : BrokerTask) (q : list BrokerTask) : list BrokerTask :=
  match task with
  | Register nid ent _ _ =>
      if existsb (same_register nid ent) q then update_first (same_register nid ent) (λ _, task) q
      else
        (if (BROKER_QUEUE_CAP <=? length q)%nat then
           match position is_register q with
           | Some i => take i q ++ drop (S i) q
           | None => q
           end
         else q) ++ [task]
  | _ => q ++ [task]
  end.

Definition dispatch_broker (task : BrokerTask) : M unit :=
  let* b := gets w_broker in
  if b_up b then broker_upd (λ b, set_queue (broker_enqueue task (b_queue b)) b)
  else
    broker_upd (set_queue []);;
    for_each (b_queue b) broker_run;;
    broker_run task.

(** [broker_loop], in its two halves: a task is taken, and run. *)
Definition broker_take : M unit :=
  let* b := gets w_broker in
  match b_queue b with
  | [] => mret tt
  | t :: q => broker_upd (λ b, set_cur (Some t) (set_queue q b))
  end.
Definition broker_finish : M unit :=
  let* b := gets w_broker in
  match b_cur b with
  | None => mret tt
  | Some t => broker_run t;; broker_upd (set_cur None)
  end.

Definition take_peer_result (epoch : Z) : M (option PeerPollResult) :=
  let* b := gets w_broker in
  broker_upd (set_results (delete epoch (b_results b)));;
  mret (b_results b !! epoch).

Definition drop_stale_peer_results (live : list Z) : M unit :=
  broker_upd (λ b, set_results (filter (λ kv, kv.1 ∈ live) (b_results b)) b).

Definition register_member_impl (n : Network) (entity : string) (quiet : bool) : M unit :=
  dispatch_broker (Register (id_str (n_desc n)) entity (n_port n) quiet).
Definition register_member (n : Network) (entity : string) : M unit :=
  register_member_impl n entity false.

(** ** The remote set *)

(** The address refresh of a peer already registered. *)
Definition refresh_addr (ep : Z) (ip : string) (udp_port : Z) : M unit :=
  if ep =? 0 then mret tt
  else
    let* e := get_ep ep in
    if negb (udp_port =? 0) && (negb (bool_decide (e_ip e = ip)) || negb (e_port e =? udp_port))
    then mod_ep ep (set_addr ip udp_port)
    else mret tt.

(** The peer becomes a remote: its box, a HELLO, and the type-12 change. *)
Definition add_remote (net : Z) (eid ip : string) (udp_port : Z) : M unit :=
  let* uid := fetch_uid in
  let* ep := new_ep (mkEndpoint (cstring eid "x") uid net ip udp_port Sender_new Receiver_new) in
  mod_net net (λ n, set_remotes (<[eid := ep]> (n_remotes n)) n);;
  send_transport_control net KIND_HELLO;;
  queue_sc (ScEndpointCreated net ep).

(** [ensure_remote]: true when the peer was added. *)
Definition ensure_remote (net : Z) (eid ip : string) (udp_port : Z) : M bool :=
  if (net =? 0) || bool_decide (eid = ""%string) then mret false
  else
    let* n := get_net net in
    if negb (n_connected n) then mret false
    else
      let* ent := local_entity n in
      if bool_decide (eid = ent) then mret false
      else if (n_local n =? 0) || negb (n_type10 n) then mret false
      else match n_remotes n !! eid with
      | Some ep => refresh_addr ep ip udp_port;; mret false
      | None =>
          let* known := member_list_has_entity eid in
          if negb known then mret false
          else if (REMOTE_CAP <=? size (n_remotes n))%nat then mret false
          else add_remote net eid ip udp_port;; mret true
      end.

(** ** Polling *)

(** [poll_peers_request]: the 10 s keep-alive, the watchdog, and one poll in flight. *)
Definition keep_alive (net : Z) : M unit :=
  let* n := get_net net in
  let* age := elapsed (n_last_register n) in
  if 10000 * NS_PER_MS <=? age then
    let* t := instant_now in
    mod_net net (set_last_register t);;
    let* ent := local_entity n in
    if bool_decide (ent = ""%string) then mret tt else register_member_impl n ent true
  else mret tt.

(** Whether a poll may be sent: none is in flight, or the one in flight is given up. *)
Definition poll_due (net : Z) : M bool :=
  let* n := get_net net in
  if n_inflight n then
    let* age := elapsed (n_poll_sent n) in
    if age <? PEER_POLL_TIMEOUT_MS * NS_PER_MS then mret false
    else mod_net net (set_inflight false);; mret true
  else mret true.

Definition poll_peers_request (net : Z) : M unit :=
  if net =? 0 then mret tt
  else
    let* n := get_net net in
    if negb (n_connected n) then mret tt
    else
      keep_alive net;;
      let* go := poll_due net in
      if negb go then mret tt
      else
        let* t := instant_now in
        mod_net net (λ n, set_poll_sent t (set_inflight true n));;
        let* seq := fetch_pollseq in
        dispatch_broker (PollPeers (id_str (n_desc n)) (n_epoch n) seq).

Definition poll_peers_apply (net : Z) : M unit :=
  if net =? 0 then mret tt
  else
    let* n := get_net net in
    if negb (n_connected n) then mret tt
    else
      let* res := take_peer_result (n_epoch n) in
      match res with
      | None => mret tt
      | Some res =>
          mod_net net (set_inflight false);;
          if pr_seq res <=? n_applied n then mret tt
          else
            mod_net net (set_applied (pr_seq res));;
            for_each (pr_members res) (λ m,
              let* _ := ensure_remote net (p_entity m) (rewrite_peer_ip (p_ip m) (n_desc n)) (p_port m) in
              mret tt)
      end.

(** ** Candidates from the wire *)

Definition queue_pending_peer (net : Z) (eid ip : string) (udp_port : Z) : M unit :=
  if net =? 0 then mret tt
  else
    let* n := get_net net in
    if existsb (λ p, bool_decide (p_entity p = eid)) (n_pending_peers n) then mret tt
    else if (PENDING_PEERS_CAP <=? length (n_pending_peers n))%nat then mret tt
    else mod_net net (set_pending_peers (n_pending_peers n ++ [mkPeerEntry eid ip udp_port])).

(** Every candidate is taken from the queue and offered; nothing offered adds another. *)
Fixpoint drain_peers_loop (net : Z) (fuel : nat) : M unit :=
  match fuel with
  | O => mret tt
  | S fuel =>
      let* n := get_net net in
      match n_pending_peers n with
      | [] => mret tt
      | p :: q =>
          mod_net net (set_pending_peers q);;
          let* _ := ensure_remote net (p_entity p) (p_ip p) (p_port p) in
          drain_peers_loop net fuel
      end
  end.
Definition drain_pending_peers (net : Z) : M unit :=
  if net =? 0 then mret tt
  else let* n := get_net net in drain_peers_loop net (S (length (n_pending_peers n))).
End env.
