(* ===== verification/Inbound.v ===== *)
(** * Receiving: [party-shim/src/lib.rs], the incoming half of the transport

    Datagrams are parsed, acknowledgements are fed to the sender of their
    peer, and messages go through the peer's reliable receiver to the title's
    queue.  Messages that cannot be handed over yet wait in [n_pending_rx]. *)

From S2P Require Import Prelude RustStr BTree Reliable Wire Descriptor Comp Mesh Outbox Peers.
#[local] Open Scope Z_scope.
#[local] Open Scope comp_scope.

Section env.
Context `{E : Env}.

(** [recv_opts_for]: what the library did, of what the sender asked for. *)
Definition recv_opts_for (send_opts : Z) : Z :=
  if PARTY_RELIABLE then Z.land send_opts (Z.lor RECV_GUARANTEED RECV_SEQUENTIAL)
  else if has_bit send_opts SEND_SEQUENTIAL then RECV_SEQUENTIAL else 0.

Definition deliver_type21 (net ep : Z) (payload : list byte) (recv_opts : Z) : M unit :=
  let* drop := pending_cap_drop in
  if drop then mret tt
  else
    let* n := get_net net in
    queue_sc (ScMessage net ep (n_local n) recv_opts payload).

(** [deliver_reliable]: every payload the receiver releases, in order. *)
Definition deliver_reliable (net ep seq send_opts : Z) (payload : list byte) : M bool :=
  let* e := get_ep ep in
  let* now := now_ms in
  let '(outcome, rx) := on_message (e_rx e) seq send_opts payload now in
  mod_ep ep (set_rx rx);;
  match outcome with
  | Delivered msgs =>
      for_each msgs (λ m, deliver_type21 net ep (m_payload m) (recv_opts_for (m_options m)));;
      mret true
  | _ => mret false
  end.

(** [flush_pending_rx]: from the front, up to the first frame whose sender is not registered. *)
Fixpoint flush_loop (net : Z) (fuel : nat) : M unit :=
  match fuel with
  | O => mret tt
  | S fuel =>
      let* n := get_net net in
      if (n_local n =? 0) || negb (n_type12 n) then mret tt
      else match n_pending_rx n with
      | [] => mret tt
      | f :: q =>
          let ep := default 0 (n_remotes n !! f_entity f) in
          if ep =? 0 then mret tt
          else
            mod_net net (set_pending_rx q);;
            let* _ := deliver_reliable net ep (f_seq f) (f_options f) (f_payload f) in
            flush_loop net fuel
      end
  end.
Definition flush_pending_rx (net : Z) : M unit :=
  if net =? 0 then mret tt
  else let* n := get_net net in flush_loop net (S (length (n_pending_rx n))).

(** [request_peer_poll]. *)
Definition request_peer_poll (net : Z) : M unit :=
  if net =? 0 then mret tt else mod_net net (set_poll_requested true).

(** The address half of a datagram: a known peer's address is refreshed, a new peer is a candidate
    for the title's thread. *)
Definition note_source (net : Z) (ent : string) (src : SockAddr) : M unit :=
  match src with
  | V6 _ _ => mret tt
  | V4 ip port =>
      let* n := get_net net in
      if negb (n_connected n) then mret tt
      else if bool_decide (is_Some (n_remotes n !! ent))
      then let* _ := ensure_remote net ent (ip_string ip) port in mret tt
      else queue_pending_peer net ent (ip_string ip) port
  end.

(** Acknowledgements ride on every kind of packet. *)
Definition note_ack (net : Z) (ent : string) (ack : Z) : M unit :=
  if negb PARTY_RELIABLE || (ack =? 0) then mret tt
  else
    let* n := get_net net in
    let ep := default 0 (n_remotes n !! ent) in
    if ep =? 0 then mret tt
    else
      let* e := get_ep ep in
      mod_ep ep (set_tx (on_ack (e_tx e) ack).2).

(** A message: delivered, or kept until it can be. *)
Definition recv_message (net : Z) (ent : string) (payload : list byte) (send_opts seq : Z) : M unit :=
  let* n := get_net net in
  let ep := default 0 (n_remotes n !! ent) in
  when (ep =? 0) (request_peer_poll net);;
  let* n := get_net net in
  let frame := mkFrame ent payload send_opts seq in
  if (ep =? 0) || (n_local n =? 0) || negb (n_type12 n) then
    let kept := if (PENDING_RX_CAP <=? length (n_pending_rx n))%nat
                then drop 1 (n_pending_rx n) else n_pending_rx n in
    mod_net net (set_pending_rx (kept ++ [frame]))
  else match n_pending_rx n with
  | _ :: _ =>
      mod_net net (set_pending_rx (n_pending_rx n ++ [frame]));;
      flush_pending_rx net
  | [] => let* _ := deliver_reliable net ep seq send_opts payload in mret tt
  end.

(** One datagram of [recv_udp]. *)
Definition recv_datagram (net : Z) (d : Datagram) : M unit :=
  let '(src, buf) := d in
  match parse buf PARTY_RELIABLE with
  | Err _ => mret tt
  | Ok p =>
      let ent := entity buf in
      note_source net ent src;;
      note_ack net ent (ack p);;
      if kind p =? KIND_HELLO then request_peer_poll net
      else if kind p =? KIND_ACK then mret tt
      else if negb (kind p =? KIND_MSG) then mret tt
      else recv_message net ent
             (slice (header_len PARTY_RELIABLE) (Z.to_nat (payload_len p)) buf) (options p) (Wire.seq p)
  end.

(** The socket is read until it has nothing more or the budget is spent; what is left of the budget. *)
Fixpoint recv_loop (net : Z) (budget : nat) : M nat :=
  match budget with
  | O => mret O
  | S rest =>
      let* n := get_net net in
      match n_udp n with
      | Some (d :: q) =>
          mod_net net (set_udp (Some q));;
          recv_datagram net d;;
          recv_loop net rest
      | _ => mret budget
      end
  end.

Fixpoint recv_nets (nets : list Z) (budget : nat) : M unit :=
  match nets with
  | [] => mret tt
  | net :: nets =>
      flush_pending_rx net;;
      let* n := get_net net in
      match n_udp n with
      | None => recv_nets nets budget
      | Some _ => let* budget := recv_loop net budget in recv_nets nets budget
      end
  end.

Definition recv_udp : M unit :=
  let* h := get_h in recv_nets (h_networks h) RECV_BATCH.

(** One turn of [transport_loop] under the handle mutex; how long the thread may sleep after it. *)
Definition transport_cycle : M Z :=
  let* now := now_ms in
  with_handle
    (service_outbox;;
     recv_udp;;
     reliable_service now;;
     next_transport_wait_ms now)
    TRANSPORT_POLL_MS.
End env.
