(* ===== verification/PartyApi.v ===== *)
(** * The Party exports: [party-shim/src/lib.rs], the functions the title calls

    Network and endpoint creation, sending, the state-change pump
    ([PartyStartProcessingStateChanges] and [PartyFinishProcessingStateChanges])
    and teardown.  An export returns its code and what it writes through its
    out parameters. *)

From S2P Require Import Prelude RustStr BTree Reliable Wire Descriptor Comp Mesh Outbox Peers Inbound.
#[local] Open Scope Z_scope.
#[local] Open Scope comp_scope.

Section env.
Context `{E : Env}.

(** ** Threads *)

(** [ensure_transport_thread] and [ensure_broker_thread]: one attempt per process. *)
Definition ensure_transport_thread : M unit :=
  let* ob := gets w_outbox in
  if force_inline_threads || o_started ob then mret tt
  else
    let* ok := observe spawn_at in
    modify (λ w, w_set_outbox (set_up true ok (w_outbox w)) w).
Definition ensure_broker_thread : M unit :=
  let* b := gets w_broker in
  if force_inline_threads || b_started b then mret tt
  else
    let* ok := observe spawn_at in
    broker_upd (set_broker_up true ok).
Definition note_party_thread : M unit := ensure_transport_thread;; ensure_broker_thread.

(** A worker thread panics: its flag is cleared, the task it ran is lost. *)
Definition transport_dies : M unit :=
  modify (λ w, w_set_outbox (set_up (o_started (w_outbox w)) false (w_outbox w)) w).
Definition broker_dies : M unit :=
  broker_upd (λ b, set_cur None (set_broker_up (b_started b) false b)).

(** ** Setup *)

Definition PartyInitialize (out_null : bool) : M Z :=
  note_party_thread;;
  if out_null then mret ERR
  else
    let* t := instant_now in
    modify (w_set_handle (Some (mkHandle [] [] [] [] Ledger_default false (t - 10000 * NS_PER_MS))));;
    modify (λ w, w_set_session (hp_next (w_heap w)) w);;
    mret SUCCESS.

Definition PartyCreateLocalUser (entity_id : option (list byte)) (out_null : bool) : M (Z * Z) :=
  note_party_thread;;
  if out_null then mret (ERR, 0)
  else
    let* p := new_user (cstring (read_cstr entity_id) "user") in
    with_handle (mod_h (λ h, set_users (h_users h ++ [p]) h)) tt;;
    mret (SUCCESS, p).

(** The box of a new network. *)
Definition fresh_network (desc : Descriptor) (user port : Z) : M Z :=
  let* registered := instant_now in
  let* epoch := fetch_epoch in
  let* sent := instant_now in
  new_net (mkNetwork desc user 0 ∅ (Some []) port false registered [] [] false false None
             false epoch false sent 0).

Definition PartyCreateNewNetwork (local_user : Z) : M (Z * option Descriptor) :=
  note_party_thread;;
  let* k := fetch_ident in
  let* nanos := observe nanos_at in
  let ident := uuid_ident k nanos in
  let* bound := bind_udp in
  match bound with
  | None => mret (ERR, None)
  | Some port =>
      let desc := Descriptor_new ident in
      let desc := mkDescriptor (identifier desc) (region desc) (write_at 0 (to_le 2 port) (opaque desc)) in
      let* advert := lan_ip in
      let desc := desc_set_advert_ip desc advert in
      let* net := fresh_network desc local_user port in
      let* n := get_net net in
      let* ent := local_entity n in
      (if bool_decide (ent = ""%string) then mret tt else register_member n ent);;
      with_handle
        (mod_h (λ h, set_networks (h_networks h ++ [net]) h);;
         queue_sc (ScCreateNetwork local_user desc)) tt;;
      mret (SUCCESS, Some desc)
  end.

Definition emit_connect_completed (net : Z) : M unit :=
  if net =? 0 then mret tt
  else
    let* n := get_net net in
    if n_connected n then mret tt
    else
      mod_net net (set_connected true);;
      queue_sc (ScConnect (n_desc n) net).

(** The first network of the list with the identifier. *)
Fixpoint find_network (ident : string) (nets : list Z) : M (option Z) :=
  match nets with
  | [] => mret None
  | p :: nets =>
      let* n := get_net p in
      if bool_decide (id_str (n_desc n) = ident) then mret (Some p) else find_network ident nets
  end.

(** The network joined; the null pointer when no socket could be bound. *)
Definition connect_network (desc : Descriptor) : M Z :=
  let* h := get_h in
  let* found := find_network (id_str desc) (h_networks h) in
  match found with
  | Some net => emit_connect_completed net;; poll_peers_request net;; mret net
  | None =>
      let* bound := bind_udp in
      match bound with
      | None => mret 0
      | Some port =>
          let user := default 0 (last (h_users h)) in
          let* net := fresh_network desc user port in
          let* n := get_net net in
          (if user =? 0 then mret tt
           else let* ent := get_user user in register_member n ent);;
          mod_h (λ h, set_networks (h_networks h ++ [net]) h);;
          emit_connect_completed net;;
          poll_peers_request net;;
          send_transport_control net KIND_HELLO;;
          mret net
      end
  end.

Definition PartyConnectToNetwork (descriptor : option Descriptor) : M (Z * Z) :=
  note_party_thread;;
  match descriptor with
  | None => mret (ERR, 0)
  | Some desc =>
      let* net := with_handle (connect_network desc) 0 in
      mret (if net =? 0 then (ERR, 0) else (SUCCESS, net))
  end.

Definition PartyNetworkAuthenticateLocalUser (network local_user : Z) : M Z :=
  note_party_thread;;
  let* _ := if local_user =? 0 then mret ""%string else get_user local_user in
  with_handle
    (let* h := get_h in
     (if bool_decide (network ∈ h_networks h) then mret tt
      else mod_h (λ h, set_networks (h_networks h ++ [network]) h));;
     queue_sc (ScAuthenticate network local_user)) tt;;
  mret SUCCESS.

Definition PartyNetworkCreateEndpoint (network local_user : Z) : M (Z * Z) :=
  note_party_thread;;
  let* uid := fetch_uid in
  let* ent := if local_user =? 0 then mret "ep"%string else get_user local_user in
  let* ep := new_ep (mkEndpoint ent uid network "" 0 Sender_new Receiver_new) in
  with_handle
    ((if network =? 0 then mret tt else mod_net network (set_local ep local_user));;
     queue_sc (ScCreateEndpoint network local_user ep);;
     (if network =? 0 then mret tt else flush_pending_rx network)) tt;;
  mret (SUCCESS, ep).

(** ** Sending *)

(** [buffers] is the array the title passes, [None] for the null pointer; a buffer is its bytes, or
    [None] where its pointer is null.  Only the first is read. *)
Definition PartyEndpointSendMessage (local_endpoint target_count options : Z)
    (buffers : option (list (option (list byte)))) : M Z :=
  note_party_thread;;
  match buffers with
  | None => mret ERR
  | Some bufs =>
      if (local_endpoint =? 0) || (length bufs =? 0)%nat || (8 <? length bufs)%nat then mret ERR
      else if 8 <? target_count then mret ERR
      else match bufs with
      | Some payload :: _ =>
          if (length payload =? 0)%nat || (64 * 1024 <? Z.of_nat (length payload)) then mret ERR
          else
            let* e := get_ep local_endpoint in
            if e_network e =? 0 then mret ERR
            else send_transport_msg (e_network e) local_endpoint payload options;; mret SUCCESS
      | _ => mret ERR
      end
  end.

(** ** The pump *)

(** A network that asks for a poll now. *)
Fixpoint any_announce (nets : list Z) : M bool :=
  match nets with
  | [] => mret false
  | p :: nets =>
      let* n := get_net p in
      if (n_type10 n && bool_decide (n_remotes n = ∅) && negb (n_local n =? 0)) || n_poll_requested n
      then mret true
      else any_announce nets
  end.

Definition poll_tick : M unit :=
  let* h := get_h in
  let* announce := any_announce (h_networks h) in
  let* go :=
    if announce then mret true
    else let* age := elapsed (h_last_poll h) in mret (200 * NS_PER_MS <? age) in
  if negb go then mret tt
  else
    let* t := instant_now in
    mod_h (set_last_poll t);;
    for_each (h_networks h) (λ p,
      (if p =? 0 then mret tt else mod_net p (set_poll_requested false));;
      poll_peers_request p).

Fixpoint live_epochs (nets : list Z) : M (list Z) :=
  match nets with
  | [] => mret []
  | p :: nets =>
      if p =? 0 then live_epochs nets
      else
        let* n := get_net p in
        let* l := live_epochs nets in
        mret (n_epoch n :: l)
  end.

Definition apply_tick : M unit :=
  let* b := gets w_broker in
  if (size (b_results b) =? 0)%nat then mret tt
  else
    let* h := get_h in
    let* live := live_epochs (h_networks h) in
    drop_stale_peer_results live;;
    for_each (h_networks h) (λ p, if p =? 0 then mret tt else poll_peers_apply p).

Definition candidates_tick : M unit :=
  let* h := get_h in for_each (h_networks h) drain_pending_peers.

(** The drain loop: the batch, what is left of the queue, the messages deferred, and whether the
    batch cap was hit.  [hold] defers the messages. *)
Fixpoint drain_loop (hold : bool) (pending batch deferred : list StateChange)
    : list StateChange * list StateChange * list StateChange * bool :=
  match pending with
  | [] => (batch, [], deferred, false)
  | c :: rest =>
      if (BATCH_CAP <=? length batch)%nat then (batch, c :: rest, deferred, true)
      else if is21 c && (existsb is12 batch || hold) then drain_loop hold rest batch (deferred ++ [c])
      else if is12 c then (batch ++ [c], rest, deferred, false)
      else drain_loop hold rest (batch ++ [c]) deferred
  end.

Definition ledger_batch (batch deferred : list StateChange) (cap : bool) (l : Ledger) : Ledger :=
  mkLedger (l_queued l) (foldr (λ c, bump (sc_type c) 1) (l_handed l) batch) (l_reclaimed l)
    (l_batches l + if bool_decide (batch = []) then 0 else 1) (Z.of_nat (length batch))
    (l_last_reclaimed l) (l_deferred21 l + Z.of_nat (length deferred))
    (l_cap_hits l + if cap then 1 else 0) (l_dropped l).

Definition build_batch : M unit :=
  let* hold := note_type12_hold in
  let '(holding, timed_out, _) := hold in
  let* h := get_h in
  let '(batch, rest, deferred, cap) := drain_loop (holding && negb timed_out) (h_pending h) [] [] in
  mod_h (λ h, set_batch batch (negb (bool_decide (batch = [])))
                (set_ledger (ledger_batch batch deferred cap (h_ledger h))
                   (set_pending (deferred ++ rest) h)));;
  when (negb (bool_decide (batch = []))) (modify (λ w, w_set_batches (w_batches w ++ [batch]) w)).

(** What runs under [with_handle]: the array given to the title. *)
Definition start_processing : M (list StateChange) :=
  let* now := now_ms in
  let* up := gets (λ w, o_up (w_outbox w)) in
  when (negb up) (service_outbox;; recv_udp;; reliable_service now);;
  poll_tick;;
  apply_tick;;
  candidates_tick;;
  let* h := get_h in
  when (negb (h_outstanding h)) build_batch;;
  let* h := get_h in
  mret (h_in_flight h).

(** The array is [None] where the handle does not exist: the out parameters are not written. *)
Definition PartyStartProcessingStateChanges (out_null : bool) : M (Z * option (list StateChange)) :=
  note_party_thread;;
  if out_null then mret (ERR, None)
  else
    let* l := with_handle (let* l := start_processing in mret (Some l)) None in
    mret (SUCCESS, l).

Definition ledger_reclaimed (back : list StateChange) (l : Ledger) : Ledger :=
  mkLedger (l_queued l) (l_handed l) (foldr (λ c, bump (sc_type c) 1) (l_reclaimed l) back)
    (l_batches l) (l_last_batch l) (Z.of_nat (length back)) (l_deferred21 l) (l_cap_hits l) (l_dropped l).

(** The networks that finished a type-10, or a type-12. *)
Definition finished10 (c : StateChange) : option Z :=
  match c with ScCreateEndpoint net _ _ => if net =? 0 then None else Some net | _ => None end.
Definition finished12 (c : StateChange) : option Z :=
  match c with ScEndpointCreated net _ => if net =? 0 then None else Some net | _ => None end.

(** [changes] is the array the title returns, [None] for the null pointer. *)
Definition PartyFinishProcessingStateChanges (changes : option (list (option StateChange))) : M Z :=
  note_party_thread;;
  match changes with
  | None | Some [] => mret SUCCESS
  | Some l =>
      let back := omap id (take 64 l) in
      with_handle
        (for_each (omap finished10 back) (λ net, mod_net net set_type10);;
         for_each (omap finished12 back) (λ net, mod_net net set_type12);;
         mod_h (λ h, set_batch [] false (set_ledger (ledger_reclaimed back (h_ledger h)) h))) tt;;
      mret SUCCESS
  end.

(** ** Teardown *)

(** The socket is closed and every pairing starts over; the box stays. *)
Definition reset_endpoint (ep : Z) : M unit :=
  if ep =? 0 then mret tt
  else mod_ep ep (λ e, set_rx Receiver_new (set_tx (drop_all (e_tx e)).2 e)).
Definition close_network (net : Z) : M unit :=
  mod_net net (λ n, set_connected false (set_udp None n));;
  let* n := get_net net in
  for_each (remote_ptrs n) reset_endpoint.

Definition leave_network (network : Z) : M unit :=
  queue_sc (ScLeave network);;
  let* h := get_h in
  (if bool_decide (network ∈ h_networks h) then
     let* n := get_net network in
     let* ent := local_entity n in
     (if bool_decide (ent = ""%string) then mret tt
      else dispatch_broker (Leave (id_str (n_desc n)) ent));;
     drain_outbox_for network;;
     close_network network
   else mret tt);;
  mod_h (λ h, set_networks (filter (λ p, p ≠ network) (h_networks h)) h).

Definition PartyNetworkLeaveNetwork (network : Z) : M Z :=
  note_party_thread;; with_handle (leave_network network) tt;; mret SUCCESS.

Definition PartyDestroyLocalUser (user : Z) : M Z :=
  note_party_thread;;
  with_handle (mod_h (λ h, set_users (filter (λ p, p ≠ user) (h_users h)) h)) tt;;
  mret SUCCESS.

Definition PartyCleanup : M Z :=
  note_party_thread;;
  with_handle
    (let* h := get_h in
     for_each (h_networks h) (λ p, if p =? 0 then mret tt else drain_outbox_for p);;
     for_each (h_networks h) (λ p, if p =? 0 then mret tt else close_network p)) tt;;
  modify (w_set_handle None);;
  modify (λ w, w_set_session (hp_next (w_heap w)) w);;
  mret SUCCESS.

(** ** Getters *)

Definition PartyLocalUserGetEntityId (user : Z) (out_null : bool) : M (Z * option string) :=
  note_party_thread;;
  if (user =? 0) || out_null then mret (ERR, None)
  else let* u := get_user user in mret (SUCCESS, Some u).
Definition PartyEndpointGetEntityId (ep : Z) (out_null : bool) : M (Z * option string) :=
  note_party_thread;;
  if (ep =? 0) || out_null then mret (ERR, None)
  else let* e := get_ep ep in mret (SUCCESS, Some (e_entity e)).
Definition PartyEndpointGetUniqueIdentifier (ep : Z) (out_null : bool) : M (Z * option Z) :=
  note_party_thread;;
  if (ep =? 0) || out_null then mret (ERR, None)
  else let* e := get_ep ep in mret (SUCCESS, Some (e_uid e)).
Definition PartyNetworkGetNetworkDescriptor (net : Z) (out_null : bool) : M (Z * option Descriptor) :=
  note_party_thread;;
  if (net =? 0) || out_null then mret (ERR, None)
  else let* n := get_net net in mret (SUCCESS, Some (n_desc n)).
(** The count is capped at eight, the array is the handle's own. *)
Definition PartyGetNetworks : M (Z * option (Z * list Z)) :=
  note_party_thread;;
  let* l := with_handle (let* h := get_h in mret (Some (h_networks h))) None in
  mret (SUCCESS, (λ l, (Z.min (Z.of_nat (length l)) 8, l)) <$> l).

(** ** Descriptors and constants *)

(** The address of the machine is only looked up when the descriptor advertises none. *)
Definition PartySerializeNetworkDescriptor (descriptor : option Descriptor) (out_null : bool)
    : M (Z * option (list byte)) :=
  note_party_thread;;
  match descriptor with
  | None => mret (ERR, None)
  | Some d =>
      if out_null then mret (serialize_desc d true (127, 0, 0, 1))
      else match desc_advert_ip d with
      | Some ip => mret (serialize_desc d false ip)
      | None => let* ip := lan_ip in mret (serialize_desc d false ip)
      end
  end.

(** [out] is what the pointer holds before, [None] for the null pointer; success also arms a
    diagnostic that nothing else reads. *)
Definition PartyDeserializeNetworkDescriptor (serialized : option (list byte)) (out : option Descriptor)
    : M (Z * option Descriptor) :=
  note_party_thread;; mret (deserialize_desc serialized out).

Definition PartySetWorkMode (thread mode : Z) : M Z := note_party_thread;; mret SUCCESS.

Definition PartyGetErrorMessage (error : Z) (out_null : bool) : M (Z * option string) :=
  note_party_thread;;
  if out_null then mret (ERR, None) else mret (SUCCESS, Some "lan party stub"%string).
End env.
