(* ===== verification/Wiring.v ===== *)
(** * What one component writes and another reads

    The broker prints [serde_json] values; the shims scan the bytes.  Which
    text the printer writes is not fixed: a value is related to every document
    it may print, with the fields of an object in any order and any spelling
    of the strings that decodes to them.  The theorems follow a reply of the
    broker through the HTTP framing and the scanner into the shim that asked. *)

From S2P Require Import Prelude RustStr F64 Value Json Http LobbyFilter App Party Server JsonDoc.
From S2P Require Mesh Peers.
#[local] Open Scope Z_scope.
#[local] Set Warnings "-register-all".

(** ** Printed values *)

Section printed.
Context `{SerdeJson}.

Inductive printed : Value Number → Doc → Prop :=
  | pr_null : printed VNull (DScalar (sbytes "null"))
  | pr_bool b : printed (VBool b) (DScalar (sbytes (if b : bool then "true" else "false")))
  | pr_number n : printed (VNumber n) (DScalar (sbytes (num_to_string n)))
  | pr_string s raw : token raw (sbytes s) → printed (VString s) (DStr raw (sbytes s))
  | pr_array l ds : Forall2 printed l ds → printed (VArray l) (DArr [] ds)
  | pr_object m kvs fs : kvs ≡ₚ map_to_list m → Forall2 printed_field kvs fs → printed (VObject m) (DObj [] fs)
with printed_field : string * Value Number → Field → Prop :=
  | pr_field k v raw d : token raw (sbytes k) → printed v d → printed_field (k, v) (mkField [] raw (sbytes k) [] d).

(** What a printer of [serde_json]'s kind may write for [v]. *)
Definition prints (v : Value Number) (text : list byte) : Prop :=
  ∃ d, printed v d ∧ wf d ∧ utf8_valid text = true ∧ text = render d.

Lemma printed_core v d : printed v d → core d = d.
Proof. by destruct 1. Qed.

(** [absent k v]: no text printed for [v] has a field [k]. *)
Definition absent (k : string) (v : Value Number) : Prop := ∀ d, printed v d → find_doc (sbytes k) d = None.

Definition leaf (v : Value Number) : Prop :=
  match v with VArray _ | VObject _ => False | _ => True end.

Lemma absent_leaf k v : leaf v → absent k v.
Proof. intros Hl d Hp. by destruct Hp. Qed.

(** Two names that differ are spelt by different bytes. *)
Lemma sbytes_ne k k' : k ≠ k' → sbytes k ≠ sbytes k'.
Proof. intros Hn E. apply Hn. by rewrite <- (bstr_sbytes k), <- (bstr_sbytes k'), E. Qed.

(** Only the field [k0] of a run of fields counts for the search of [k]. *)
Lemma find_fields k k0 v0 kvs fs (look : Doc → option Doc) :
  Forall2 printed_field kvs fs → NoDup kvs.*1 → (k0, v0) ∈ kvs →
  (∀ f d0, printed_field (k0, v0) f → f_value f = d0 → find_field (sbytes k) f = look d0) →
  (∀ k' v', (k', v') ∈ kvs → k' ≠ k0 → k' ≠ k ∧ absent k v') →
  ∃ d0, printed v0 d0 ∧ find_map (find_field (sbytes k)) fs = look d0.
Proof.
  intros Hf Hnd Hin Hl Ho. induction Hf as [|[k1 v1] f kvs fs Hx Hf IH]; [by apply elem_of_nil in Hin|].
  cbn [fmap list_fmap] in Hnd. apply NoDup_cons in Hnd as [Hn Hnd]. cbn [find_map].
  destruct (decide (k1 = k0)) as [->|Hne].
  - assert (v1 = v0) as ->.
    { apply elem_of_cons in Hin as [[= ->]|Hin]; [done|]. exfalso. apply Hn. cbn [fst]. apply list_elem_of_fmap. by exists (k0, v0). }
    assert (Hrest : find_map (find_field (sbytes k)) fs = None).
    { apply find_map_None. intros g Hg. clear IH Hnd Hin. assert (Hall : ∀ p, p ∈ kvs → p.1 ≠ k0).
      { intros p Hp E. apply Hn. cbn [fst]. rewrite <- E. by apply list_elem_of_fmap_2. }
      assert (Ho' : ∀ k' v', (k', v') ∈ kvs → k' ≠ k ∧ absent k v').
      { intros k' v' Hp. apply Ho; [by right|]. apply (Hall _ Hp). }
      clear -Hf Hg Ho'. induction Hf as [|[k2 v2] g' kvs fs Hx Hf IH]; [by apply elem_of_nil in Hg|].
      apply elem_of_cons in Hg as [->|Hg]; [|apply IH; [done|]; intros; apply Ho'; by right].
      inversion Hx as [? ? raw d Ht Hd]; subst. cbn [find_field]. destruct (Ho' k2 v2 ltac:(left)) as [Hk Ha].
      rewrite bool_decide_false by by apply sbytes_ne. by apply Ha. }
    inversion Hx as [? ? raw d Ht Hd]; subst. exists d. split; [done|]. rewrite Hrest.
    rewrite (Hl _ d Hx eq_refl). by destruct (look d).
  - apply elem_of_cons in Hin as [[= ->]|Hin]; [done|].
    inversion Hx as [? ? raw d Ht Hd]; subst. destruct (Ho k1 v1 ltac:(left) Hne) as [Hk Ha].
    cbn [find_field]. rewrite bool_decide_false by by apply sbytes_ne. rewrite (Ha d Hd).
    apply IH; [done|done|]. intros k' v' Hp. apply Ho. by right.
Qed.

(** A field of the object itself. *)
Lemma find_own (m : gmap string (Value Number)) d k v : printed (VObject m) d → m !! k = Some v →
  (∀ k' v', m !! k' = Some v' → k' ≠ k → absent k v') →
  ∃ d0, printed v d0 ∧ find_doc (sbytes k) d = Some d0.
Proof.
  intros Hp Hv Ho. inversion Hp as [| | | | |? kvs fs Hperm Hf]; subst. cbn [find_doc].
  destruct (find_fields k k v kvs fs Some Hf) as (d0 & Hd & E); [| | | |by exists d0].
  - rewrite Hperm. apply NoDup_fst_map_to_list.
  - rewrite Hperm. by apply elem_of_map_to_list.
  - intros f d0 Hx <-. inversion Hx as [? ? raw d1 Ht Hd1]; subst. cbn [find_field f_value].
    rewrite bool_decide_true by done. f_equal. by eapply printed_core.
  - intros k' v' Hin Hne. split; [done|]. apply (Ho k' v'); [|done]. rewrite Hperm in Hin. by apply elem_of_map_to_list.
Qed.

(** A field of the value of the field [k0]. *)
Lemma find_below (m : gmap string (Value Number)) d k k0 v0 : printed (VObject m) d → m !! k = None → m !! k0 = Some v0 →
  (∀ k' v', m !! k' = Some v' → k' ≠ k0 → absent k v') →
  ∃ d0, printed v0 d0 ∧ find_doc (sbytes k) d = find_doc (sbytes k) d0.
Proof.
  intros Hp Hk Hv Ho. inversion Hp as [| | | | |? kvs fs Hperm Hf]; subst. cbn [find_doc].
  apply (find_fields k k0 v0 kvs fs (find_doc (sbytes k)) Hf).
  - rewrite Hperm. apply NoDup_fst_map_to_list.
  - rewrite Hperm. by apply elem_of_map_to_list.
  - intros f d0 Hx <-. inversion Hx as [? ? raw d1 Ht Hd1]; subst. cbn [find_field f_value].
    rewrite bool_decide_false; [done|]. apply sbytes_ne. intros ->. congruence.
  - intros k' v' Hin Hne. rewrite Hperm in Hin. apply elem_of_map_to_list in Hin.
    split; [congruence|by apply (Ho k')].
Qed.

Lemma absent_object (m : gmap string (Value Number)) k : m !! k = None → (∀ k' v', m !! k' = Some v' → absent k v') → absent k (VObject m).
Proof.
  intros Hk Ho d Hp. inversion Hp as [| | | | |? kvs fs Hperm Hf]; subst. cbn [find_doc].
  apply find_map_None. intros f Hin.
  assert (Ho' : ∀ k' v', (k', v') ∈ kvs → k' ≠ k ∧ absent k v').
  { intros k' v' Hx. rewrite Hperm in Hx. apply elem_of_map_to_list in Hx. split; [congruence|by apply (Ho k')]. }
  clear -Hf Hin Ho'. induction Hf as [|[k2 v2] g kvs fs Hx Hf IH]; [by apply elem_of_nil in Hin|].
  apply elem_of_cons in Hin as [->|Hg]; [|apply IH; [done|]; intros; apply Ho'; by right].
  inversion Hx as [? ? raw d Ht Hd]; subst. cbn [find_field]. destruct (Ho' k2 v2 ltac:(left)) as [Hk Ha].
  rewrite bool_decide_false by by apply sbytes_ne. by apply Ha.
Qed.

(** The fields of a [json!] object. *)
Lemma jobj_elem fields k v : (list_to_map (rev fields) : gmap string (Value Number)) !! k = Some v → (k, v) ∈ fields.
Proof. intros H1%elem_of_list_to_map_2. by rewrite list_elem_of_In, <- in_rev, <- list_elem_of_In in H1. Qed.
End printed.

(** A reply of the broker, cut into any chunks, is read whole by the shims' client. *)
Section reply.
Context `{SerdeJson}.

Definition on_the_wire (reply : Reply) (code : Z) (bytes : list byte) : Prop :=
  rp_connected reply = true ∧ rp_written reply = true ∧ chunks_ok (rp_chunks reply) ∧
  concat (rp_chunks reply) = send_http code "application/json" bytes ∧
  Z.of_nat (length (send_http code "application/json" bytes)) <= MAX_RESPONSE_BYTES.

Lemma reply_read reply code v : 0 <= code < U16 → prints v (json_bytes v) → on_the_wire reply code (json_bytes v) →
  ∃ resp, exchange reply = Ok resp ∧ hr_status resp = code ∧ prints v (sbytes (hr_body resp)).
Proof.
  intros Hcode Hprint (Hc & Hwr & Hch & Hcat & Hlim). exists (mkHttpResponse code (from_utf8_lossy (json_bytes v))). split.
  - unfold exchange, request, request_capped. rewrite Hc, Hwr. cbn [negb]. unfold read_response.
    rewrite collect_all; [|done|cbn [Datatypes.app]; by rewrite Hcat]. cbn [Datatypes.app]. rewrite Hcat.
    apply response_parse; [done|done|by apply one_line_forallb].
  - split; [done|]. destruct Hprint as (d & Hd & Hwd & Hutf & E). cbn [hr_body].
    rewrite from_utf8_lossy_valid by (by rewrite E in *). exists d. rewrite sbytes_bstr. by rewrite E in *.
Qed.
End reply.

(** Finishes a condition on the fields of a [json!] object by going through them. *)
Ltac each_field := let H := fresh in
  intros ? ? H%jobj_elem; rewrite ?elem_of_cons, ?elem_of_nil in H; destruct_or? H; simplify_eq.

(** ** The peers of a network *)

Section peers.
Context `{SerdeJson} `{HashOrder} `{Crypto}.
Context (Hnum : ∀ z, 0 <= z < U64 → num_to_string (num_of_int z) = fmt_dec z).

Definition peer_entry (m : PartyMember) : Mesh.PeerEntry := Mesh.mkPeerEntry (pm_entity_id m) (pm_ip m) (pm_udp_port m).

(** What the broker answers about a network. *)
Definition peers_data (nid : string) (net : gmap string PartyMember) : Value Number :=
  jobj [("network_id", VString nid); ("members", VArray (member_rows net))]%string.
Definition envelope (data : Value Number) : Value Number :=
  jobj [("code", jint 200); ("status", VString "OK"); ("data", data)]%string.

Lemma find_doc_wf d key v : wf d → find_doc key d = Some v → wf v.
Proof. intros Hd E. pose proof (span_doc d key Hd) as Hs. rewrite E in Hs. by destruct Hs as (i & (c & s & _ & _ & Hv & _) & _). Qed.

Lemma fmt_dec_not_null z : 0 <= z → sbytes (fmt_dec z) ≠ sbytes "null".
Proof.
  intros Hz E. destruct (fmt_dec_digits z Hz) as (_ & Hd & _). rewrite E in Hd. by inversion Hd.
Qed.

(** One row of the reply, as [poll_members] reads it. *)
Lemma row_read m d : printed (member_row m) d → wf d → is_u16 (pm_udp_port m) →
  let obj := bstr (render d) in
  Json.json_str obj "entity_id" = Some (pm_entity_id m) ∧ Json.json_str obj "ip" = Some (pm_ip m) ∧
  Json.json_str obj "udp_port" ≫= parse_u16 = Some (pm_udp_port m).
Proof using Hnum.
  intros Hp Hd Hport obj. unfold member_row, jobj in Hp.
  assert (Hstr : ∀ k s, (list_to_map (rev [("entity_id", VString (pm_entity_id m)); ("ip", VString (pm_ip m));
        ("udp_port", jint (pm_udp_port m)); ("seen", jf64 (pm_seen m)); ("member_seq", jint (pm_member_seq m))]%string)
        : gmap string (Value Number)) !! k = Some s → ∃ d0, printed s d0 ∧ find_doc (sbytes k) d = Some d0).
  { intros k s Hk. apply (find_own _ d k s Hp Hk). each_field; intros _; apply absent_leaf; try done.
    unfold jf64. by destruct (num_of_f64 _). }
  unfold obj. rewrite <- (bstr_sbytes "entity_id"), <- (bstr_sbytes "ip"), <- (bstr_sbytes "udp_port"), !json_str_doc by done.
  split_and!.
  - destruct (Hstr "entity_id" (VString (pm_entity_id m)) eq_refl) as (d0 & Hd0 & ->). inversion Hd0; subst. by rewrite bstr_sbytes.
  - destruct (Hstr "ip" (VString (pm_ip m)) eq_refl) as (d0 & Hd0 & ->). inversion Hd0; subst. by rewrite bstr_sbytes.
  - destruct (Hstr "udp_port" (jint (pm_udp_port m)) eq_refl) as (d0 & Hd0 & ->). inversion Hd0; subst.
    unfold is_u16 in Hport. rewrite Hnum by (unfold U16, U64 in *; lia). rewrite bool_decide_false by (apply fmt_dec_not_null; lia).
    cbn [mbind option_bind]. rewrite bstr_sbytes. unfold parse_u16. apply parse_fmt_dec. unfold U16 in *. lia.
Qed.

Lemma rows_read net ds : Forall2 printed (map member_row net) ds → Forall wf ds → Forall (λ m, is_u16 (pm_udp_port m)) net →
  omap (λ obj,
      eid ← Json.json_str obj "entity_id";
      Some (Mesh.mkPeerEntry eid (default "127.0.0.1"%string (Json.json_str obj "ip"))
              (default 0 (Json.json_str obj "udp_port" ≫= parse_u16))))
    (map text_of ds) = map peer_entry net.
Proof using Hnum.
  revert ds. induction net as [|m net IH]; intros ds Hp Hw Hport; cbn [map] in Hp.
  - inversion Hp; subst. done.
  - inversion Hp as [|? d ? ds' Hd Hds]; subst. inversion Hw as [|? ? Hw1 Hw2]; inversion Hport as [|? ? Hp1 Hp2]; subst. cbn [map omap list_omap].
    destruct (row_read m d Hd Hw1 Hp1) as (E1 & E2 & E3). unfold text_of at 1 2 3. rewrite (printed_core _ _ Hd), E1, E2, E3.
    cbn [mbind option_bind default from_option Datatypes.id]. by rewrite IH.
Qed.

Lemma length_hash_values {A} (m : gmap string A) : length (hash_values m) = size m.
Proof. unfold hash_values. rewrite length_fmap, hash_order_perm. apply length_map_to_list. Qed.

Lemma peers_read nid net text : (size net ≤ ARRAY_CAP)%nat → map_Forall (λ _ m, is_u16 (pm_udp_port m)) net →
  prints (envelope (peers_data nid net)) (sbytes text) → Peers.poll_members (Some text) = map peer_entry (hash_values net).
Proof using Hnum.
  intros Hsize Hport (d & Hp & Hd & _ & E). rewrite <- (bstr_sbytes text), E. unfold Peers.poll_members.
  rewrite <- (bstr_sbytes "members"), json_arr_objects_doc by done.
  destruct (find_below _ d "members" "data" (peers_data nid net) Hp eq_refl eq_refl) as (d1 & Hp1 & E1).
  { each_field; intros Hne; first [done|by apply absent_leaf]. }
  destruct (find_own _ d1 "members" (VArray (member_rows net)) Hp1 eq_refl) as (d2 & Hp2 & Ef).
  { each_field; intros Hne; first [done|by apply absent_leaf]. }
  rewrite E1, Ef. rewrite Ef in E1. inversion Hp2 as [| | | |? ds Hds|]; subst. pose proof (find_doc_wf _ _ _ Hd E1) as Hw.
  inversion Hw as [| |? ? _ Hws| |]; subst.
  rewrite take_ge. { apply rows_read; [done|done|]. apply Forall_forall. intros m (k & Hk)%elem_of_hash_values. by apply (Hport k). }
  rewrite length_map, <- (Forall2_length _ _ _ Hds). unfold member_rows. by rewrite length_map, length_hash_values.
Qed.

(** The ports the registry holds are ports. *)
Definition ports_ok (app : App) : Prop :=
  map_Forall (λ _ net, map_Forall (λ _ m, is_u16 (pm_udp_port m)) net) (a_party app).

Lemma ports_insert app nid (net : gmap string PartyMember) :
  ports_ok app → map_Forall (λ _ m, is_u16 (pm_udp_port m)) net → ports_ok (set_party (<[nid := net]> (a_party app)) app).
Proof. intros Ha Hn. by apply map_Forall_insert_2. Qed.

Lemma ports_retain now net : map_Forall (λ _ m, is_u16 (pm_udp_port m)) net → map_Forall (λ _ m, is_u16 (pm_udp_port m)) (retain_live now net).
Proof. intros Hn k m [Hm _]%map_lookup_filter_Some. by apply (Hn k). Qed.

Lemma ports_default app nid : ports_ok app → map_Forall (λ _ m, is_u16 (pm_udp_port m)) (default ∅ (a_party app !! nid)).
Proof. intros Ha. destruct (a_party app !! nid) eqn:E; [exact (Ha nid _ E)|apply map_Forall_empty]. Qed.

Lemma ports_refresh now net eid : map_Forall (λ _ m, is_u16 (pm_udp_port m)) net → map_Forall (λ _ m, is_u16 (pm_udp_port m)) (refresh now net eid).
Proof.
  intros Hn. unfold refresh. case_if; [done|]. destruct (net !! eid) as [m|] eqn:E; [|done].
  apply map_Forall_insert_2; [|done]. exact (Hn eid _ E).
Qed.

(** Every route of the registry keeps the ports in range. *)
Lemma handle_party_ports app path body headers now r app' :
  ports_ok app → handle_party app path body headers now = Some (r, app') → ports_ok app'.
Proof.
  intros Ha. unfold handle_party. destruct (party_path path) as [p qs].
  case_if; [|case_if; [|case_if; [|case_if; [by intros [= _ <-]|done]]]].
  - unfold party_join. cbv zeta. pose proof (ports_retain now _ (ports_default app (join_network body qs now) Ha)) as Hn.
    destruct (register _ _ _ _ _ _ _) as [net|] eqn:Hr; intros [= _ <-]; apply ports_insert; try done.
    unfold register in Hr. pose proof (Z.mod_pos_bound (default 0 (json_i64 body "udp_port")) U16 ltac:(done)).
    destruct (retain_live _ _ !! _) as [m|] eqn:E; [|case_if_in Hr; [done|]]; injection Hr as <-;
      (apply map_Forall_insert_2; [|done]); [case_if; [exact (Hn _ _ E)|done]|done].
  - unfold party_leave. cbv zeta. intros [= _ <-]. destruct (a_party app !! _) as [net|] eqn:Hn; [|done].
    case_if; [done|]. apply ports_insert; [done|]. apply map_Forall_delete. exact (Ha _ _ Hn).
  - unfold party_peers. cbv zeta. destruct (a_party app !! _) as [net|] eqn:Hn; [|by intros [= _ <-]].
    intros [= _ <-]. apply ports_insert; [done|]. apply ports_retain, ports_refresh. exact (Ha _ _ Hn).
Qed.

End peers.

(** ** A printer, and a reply on its way *)

Fixpoint print_doc (fuel : nat) (v : Value SimpleNumber) : Doc :=
  match fuel, v with
  | O, _ | _, VNull => dnum "null"
  | S n, VBool b => dnum (if b then "true" else "false")
  | S n, VNumber x => dnum (num_to_string x)
  | S n, VString s => dstr s
  | S n, VArray l => DArr [] (map (print_doc n) l)
  | S n, VObject m => DObj [] (map (λ f, dfield f.1 (print_doc n f.2)) (map_to_list m))
  end.

(** Values of a nesting below [fuel], with valid strings and plain numbers. *)
Fixpoint printable (fuel : nat) (v : Value SimpleNumber) : bool :=
  match fuel, v with
  | O, _ => false
  | S n, (VNull | VBool _) => true
  | S n, VNumber x => wfb (dnum (num_to_string x))
  | S n, VString s => utf8_valid (sbytes s)
  | S n, VArray l => forallb (printable n) l
  | S n, VObject m => forallb (λ f, utf8_valid (sbytes f.1) && printable n f.2) (map_to_list m)
  end.

#[local] Instance printing_serde : SerdeJson := {|
  Number := SimpleNumber;
  num_as_i64 := num_as_i64 (SerdeJson := simple_serde);
  num_as_u64 := num_as_u64 (SerdeJson := simple_serde);
  num_as_f64 := num_as_f64 (SerdeJson := simple_serde);
  num_to_string := num_to_string (SerdeJson := simple_serde);
  num_of_int := NInt;
  num_of_f64 := num_of_f64 (SerdeJson := simple_serde);
  to_vec v := if printable 8 v then Some (render (print_doc 8 v)) else None;
  from_slice _ := None;
|}.

Lemma print_doc_printed n : ∀ v, printable n v = true → printed v (print_doc n v) ∧ wf (print_doc n v).
Proof.
  induction n as [|n IH]; intros [| b | x | s | l | m] Hv; cbn [printable print_doc] in *; try done.
  - split; [constructor|by apply wfb_sound].
  - split; [constructor|destruct b; by apply wfb_sound].
  - split; [constructor|by apply wfb_sound].
  - split; constructor; by apply token_escape.
  - rewrite forallb_forall in Hv. split.
    + constructor. apply Forall2_fmap_r, Forall_Forall2_diag, Forall_forall. intros x Hx. apply IH, Hv. by apply list_elem_of_In.
    + constructor; [constructor|]. apply Forall_fmap, Forall_forall. intros x Hx. apply IH, Hv. by apply list_elem_of_In.
  - rewrite forallb_forall in Hv.
    assert (Hf : ∀ f, f ∈ map_to_list m → utf8_valid (sbytes f.1) = true ∧ printed f.2 (print_doc n f.2) ∧ wf (print_doc n f.2)).
    { intros f Hf%list_elem_of_In%Hv. apply andb_true_iff in Hf as [H1 H2]. split; [done|]. by apply IH. }
    split.
    + apply (@pr_object printing_serde m (map_to_list m)); [done|]. apply Forall2_fmap_r, Forall_Forall2_diag, Forall_forall.
      intros [k v] Hx. destruct (Hf _ Hx) as (H1 & H2 & _). constructor; [by apply token_escape|done].
    + constructor; [constructor|]. apply Forall_fmap, Forall_forall. intros [k v] Hx. destruct (Hf _ Hx) as (H1 & _ & H3).
      constructor; [constructor|constructor|by apply token_escape|done].
Qed.

Lemma json_bytes_prints v : printable 8 v = true → utf8_valid (render (print_doc 8 v)) = true → prints v (json_bytes v).
Proof.
  intros Hv Hu. destruct (print_doc_printed 8 v Hv) as [Hp Hw]. exists (print_doc 8 v). unfold json_bytes.
  cbn [to_vec printing_serde]. rewrite Hv. by split_and!.
Qed.

(** Two members; the name of the second contains what looks like a field. *)
Definition tricky : string := js "b','entity_id':'x".
Definition demo_mesh : App :=
  mkApp "T" 8080 8081 4 false ∅ ∅
    {["n"%string := {["a"%string := mkPartyMember "a" "10.0.0.2" 7777 (f64_of_Z 8) 5;
                      tricky := mkPartyMember tricky "10.0.0.3" 65535 (f64_of_Z 9) 6]}]}.

Definition demo_poll : Response * App := party_peers demo_mesh (jobj []) "network_id=n" (f64_of_Z 10).
Definition demo_wire : list byte := send_http demo_poll.1.1.1 demo_poll.1.1.2 demo_poll.1.2.

