(* ===== verification/MeshInv.v ===== *)
(** * The invariant of the mesh state

    A calculus of weakest preconditions for the shim's computations (a
    computation that satisfies one never follows a null or dangling pointer),
    the invariant every export and every turn of a worker thread keeps, and
    its preservation by the operations of [Mesh], [Outbox], [Peers] and
    [Inbound]. *)

From S2P Require Import Prelude RustStr BTree Reliable Wire Descriptor Comp Mesh Outbox Peers Inbound PartyApi.
#[local] Open Scope Z_scope.
#[local] Open Scope comp_scope.

(** ** Abbreviations *)

Abbreviation nets w := (hp_nets (w_heap w)).
Abbreviation eps w := (hp_eps (w_heap w)).
Abbreviation users w := (hp_users (w_heap w)).

(** ** What was announced to the title *)

(** Every state change handed to the title or queued for it, in order. *)
Definition pending_of (w : World) : list StateChange :=
  match w_handle w with Some h => h_pending h | None => [] end.
Definition history (w : World) : list StateChange := concat (w_batches w) ++ pending_of w.

(** The type-12 change of a remote endpoint was queued. *)
Definition announced (net ep : Z) (w : World) : Prop := ScEndpointCreated net ep ∈ history w.

(** A message comes after the type-12 change of its sender. *)
Definition introduced (seen : list StateChange) (c : StateChange) : Prop :=
  match c with ScMessage net ep _ _ _ => ScEndpointCreated net ep ∈ seen | _ => True end.

Fixpoint ok_queue (seen q : list StateChange) : Prop :=
  match q with
  | [] => True
  | c :: q => introduced seen c ∧ ok_queue (seen ++ [c]) q
  end.

(** [seen] is covered by [seen'] as far as type-12 changes go. *)
Definition covers (seen seen' : list StateChange) : Prop :=
  ∀ net ep, ScEndpointCreated net ep ∈ seen → ScEndpointCreated net ep ∈ seen'.

Lemma introduced_covers seen seen' c : covers seen seen' → introduced seen c → introduced seen' c.
Proof. intros Hc. destruct c; simpl; auto. Qed.

Lemma covers_snoc seen seen' c : covers seen seen' → covers (seen ++ [c]) (seen' ++ [c]).
Proof. intros Hc net ep. rewrite !elem_of_app. intros [?|?]; eauto. Qed.

Lemma ok_queue_covers q : ∀ seen seen', covers seen seen' → ok_queue seen q → ok_queue seen' q.
Proof.
  induction q as [|c q IH]; intros seen seen' Hc; simpl; [done|].
  intros [? ?]. eauto using introduced_covers, covers_snoc.
Qed.

Lemma ok_queue_app q1 q2 : ∀ seen, ok_queue seen (q1 ++ q2) ↔ ok_queue seen q1 ∧ ok_queue (seen ++ q1) q2.
Proof.
  induction q1 as [|c q1 IH]; intros seen; simpl.
  - rewrite app_nil_r. tauto.
  - rewrite IH, <- app_assoc. simpl. tauto.
Qed.

(** A batch: at most 32 changes, a type-12 change only in last place. *)
Definition batch_shape (b : list StateChange) : Prop :=
  b ≠ [] ∧ (length b ≤ BATCH_CAP)%nat ∧ Forall (λ c, is12 c = false) (removelast b).

Definition ok_batch (before b : list StateChange) : Prop :=
  Forall (introduced before) b ∧ batch_shape b.

(** Counts by type in the queue. *)
Definition of_type (ty : Z) (q : list StateChange) : Z :=
  Z.of_nat (length (filter (λ c, sc_type c = ty) q)).

(** ** The invariant *)

(** A network of the current session. *)
Definition session_net (w : World) (p : Z) : Prop := w_session w <= p ∧ is_Some (nets w !! p).

(** Between the moment a remote enters the remote set and the moment its type-12 change is queued the
    announcement is owed; [debt] names that remote, and is [None] between operations. *)
Section debt.
Context (debt : option (Z * Z)).

Record net_fine (w : World) (p : Z) (n : Network) : Prop := {
  nf_user : n_user n = 0 ∨ is_Some (users w !! n_user n);
  nf_local : n_local n = 0 ∨ is_Some (eps w !! n_local n);
  nf_eps : ∀ k e, n_remotes n !! k = Some e → is_Some (eps w !! e);
  nf_announced : w_session w <= p → ∀ k e, n_remotes n !! k = Some e →
    announced p e w ∨ debt = Some (p, e);
  nf_remotes : (size (n_remotes n) ≤ REMOTE_CAP)%nat;
  nf_peers : (length (n_pending_peers n) ≤ PENDING_PEERS_CAP)%nat;
  nf_frames : Forall (λ f, is_u32 (f_seq f)) (n_pending_rx n);
}.

Record ep_fine (w : World) (e : Endpoint) : Prop := {
  ef_network : e_network e = 0 ∨ is_Some (nets w !! e_network e);
  ef_tx : rtc sender_step Sender_new (e_tx e);
  ef_rx : rtc receiver_step Receiver_new (e_rx e);
}.

Record handle_fine (w : World) (h : Handle) : Prop := {
  hf_nets : Forall (session_net w) (h_networks h);
  hf_users : Forall (λ u, is_Some (users w !! u)) (h_users h);
  hf_queue : ok_queue (concat (w_batches w)) (h_pending h);
  hf_cap : (length (filter (λ c, sc_type c = 21%Z) (h_pending h)) ≤ MESH_PENDING_CAP)%nat;
  hf_ledger : ∀ ty, count_of ty (l_queued (h_ledger h)) =
                    count_of ty (l_handed (h_ledger h)) + of_type ty (h_pending h);
  hf_out : h_outstanding h = negb (bool_decide (h_in_flight h = []));
  hf_last : h_in_flight h ≠ [] → last (w_batches w) = Some (h_in_flight h);
}.

Definition of_net (net : Z) (l : list OutJob) : list OutJob := filter (λ j, j_net j = net) l.

Record jobs_fine (w : World) (ob : Outbox) : Prop := {
  jf_nets : Forall (λ j, j_net j = 0 ∨ is_Some (nets w !! j_net j)) (o_queue ob);
  jf_fifo : ∀ net, of_net net (o_accepted ob) = of_net net (o_done ob) ++ of_net net (o_queue ob);
}.

Record Inv (w : World) : Prop := {
  i_next : 1 <= w_session w <= hp_next (w_heap w);
  i_users : ∀ p, is_Some (users w !! p) → 1 <= p;
  i_nets : ∀ p n, nets w !! p = Some n → 1 <= p < hp_next (w_heap w) ∧ net_fine w p n;
  i_eps : ∀ p e, eps w !! p = Some e → 1 <= p ∧ ep_fine w e;
  i_handle : ∀ h, w_handle w = Some h → handle_fine w h;
  i_jobs : jobs_fine w (w_outbox w);
  i_batches : ∀ i b, w_batches w !! i = Some b → ok_batch (concat (take i (w_batches w))) b;
}.

(** What no operation between [PartyInitialize] and [PartyCleanup] takes back; a batch in the title's
    hands stays as it is. *)
Record grows (w w' : World) : Prop := {
  gr_users : ∀ p, is_Some (users w !! p) → is_Some (users w' !! p);
  gr_nets : ∀ p, is_Some (nets w !! p) → is_Some (nets w' !! p);
  gr_eps : ∀ p, is_Some (eps w !! p) → is_Some (eps w' !! p);
  gr_flight : ∀ h, w_handle w = Some h → ∃ h', w_handle w' = Some h' ∧
    (h_outstanding h = true → h_in_flight h' = h_in_flight h ∧ h_outstanding h' = true);
  gr_session : w_session w' = w_session w;
  gr_announced : ∀ net ep, announced net ep w → announced net ep w';
}.
Infix "⊑" := grows (at level 70) : comp_scope.

#[export] Instance grows_preorder : PreOrder grows.
Proof.
  split.
  - intros w. split; eauto.
  - intros w1 w2 w3 H1 H2. split; intros; try (apply H2, H1; done).
    + destruct (gr_flight _ _ H1 h) as (h' & Hh' & Hf1); [done|].
      destruct (gr_flight _ _ H2 h') as (h'' & Hh'' & Hf2); [done|].
      exists h''. split; [done|]. intros [Hi Ho]%Hf1. destruct (Hf2 Ho). split; congruence.
    + rewrite (gr_session _ _ H2). apply H1.
Qed.

Lemma gr_handle w w' : w ⊑ w' → is_Some (w_handle w) → is_Some (w_handle w').
Proof. intros G [h Hh]. destruct (gr_flight _ _ G h Hh) as (h' & ? & _). eauto. Qed.

Lemma net_fine_grows w w' p n : w ⊑ w' → net_fine w p n → net_fine w' p n.
Proof.
  intros G H. split; try apply H.
  - destruct (nf_user _ _ _ H); [by left|right]. by apply G.
  - destruct (nf_local _ _ _ H); [by left|right]. by apply G.
  - intros k e Hk. apply G. by eapply H.
  - rewrite (gr_session _ _ G). intros Hs k e Hk.
    destruct (nf_announced _ _ _ H Hs k e Hk); [left; by apply G|by right].
Qed.

Lemma ep_fine_grows w w' e : w ⊑ w' → ep_fine w e → ep_fine w' e.
Proof.
  intros G H. split; try apply H. destruct (ef_network _ _ H); [by left|right]. by apply G.
Qed.

Lemma session_net_grows w w' p : w ⊑ w' → session_net w p → session_net w' p.
Proof. intros G [? ?]. split; [by rewrite (gr_session _ _ G)|by apply G]. Qed.

Lemma handle_fine_grows w w' h :
  w ⊑ w' → w_batches w' = w_batches w → handle_fine w h → handle_fine w' h.
Proof.
  intros G Hb H. split; rewrite ?Hb; try apply H.
  - eapply Forall_impl; [apply H|]. eauto using session_net_grows.
  - eapply Forall_impl; [apply H|]. intros u. apply G.
Qed.

Lemma jobs_fine_grows w w' ob : w ⊑ w' → jobs_fine w ob → jobs_fine w' ob.
Proof.
  intros G H. split; [|apply H]. eapply Forall_impl; [apply H|]. intros j [?|?]; [by left|right].
  by apply G.
Qed.

(** ** Operations that keep the invariant *)

Definition good {A} (m : M A) (Q : A → World → Prop) (w : World) : Prop :=
  wp m (λ x w', Inv w' ∧ w ⊑ w' ∧ Q x w') w.
#[local] Abbreviation ok_ m w := (good m (λ _ _, True) w).

Lemma good_ret {A} (x : A) (Q : A → World → Prop) w : Inv w → Q x w → good (mret x) Q w.
Proof. intros. split; [done|]. split; [reflexivity|done]. Qed.

Lemma good_bind {A B} (m : M A) (f : A → M B) R Q w :
  good m R w → (∀ x w', Inv w' → w ⊑ w' → R x w' → good (f x) Q w') → good (mbind m f) Q w.
Proof.
  unfold good. intros Hm Hf. apply wp_bind. eapply wp_mono; [exact Hm|].
  intros x w' (? & Hg & ?). eapply wp_mono; [by apply Hf|].
  intros y w'' (? & ? & ?). split; [done|split; [by etrans|done]].
Qed.

Lemma good_mono {A} (m : M A) (Q R : A → World → Prop) w :
  good m Q w → (∀ x w', w ⊑ w' → Q x w' → R x w') → good m R w.
Proof. intros Hm Hq. eapply wp_mono; [exact Hm|]. intros ? ? (? & ? & ?). auto. Qed.

Lemma good_for_each {A} (l : list A) (f : A → M unit) w :
  Inv w → (∀ x w', x ∈ l → Inv w' → w ⊑ w' → ok_ (f x) w') → ok_ (for_each l f) w.
Proof.
  revert w. induction l as [|x l IH]; intros w Hi Hf; simpl; [by apply good_ret|].
  eapply good_bind; [apply Hf; [left|done..]|]. intros _ w' ? ? _. apply IH; [done|].
  intros y w'' ? ? ?. apply Hf; [by right|done|by etrans].
Qed.

Lemma good_when b m w : Inv w → (b = true → ok_ m w) → ok_ (when b m) w.
Proof. intros. destruct b; simpl; [auto|by apply good_ret]. Qed.

Lemma good_gets {A} (f : World → A) w : Inv w → good (gets f) (λ x w', x = f w ∧ w' = w) w.
Proof. intros. split; [done|]. split; [reflexivity|done]. Qed.

(** Worlds that differ in nothing the invariant speaks of. *)
Lemma same_ok w w' :
  w_heap w' = w_heap w → w_handle w' = w_handle w → w_batches w' = w_batches w →
  w_session w' = w_session w → w ⊑ w'.
Proof.
  intros H1 H2 H3 H4. split; unfold announced, history, pending_of;
    rewrite ?H1, ?H2, ?H3, ?H4; eauto.
Qed.

Lemma same_inv w w' :
  w_heap w' = w_heap w → w_handle w' = w_handle w → w_batches w' = w_batches w →
  w_session w' = w_session w → jobs_fine w (w_outbox w') → Inv w → Inv w'.
Proof.
  intros H1 H2 H3 H4 Hj Hi. assert (G : w ⊑ w') by by apply same_ok.
  destruct Hi. split; rewrite ?H1, ?H2, ?H3, ?H4; auto.
  - intros p n Hp. destruct (i_nets0 p n Hp). split; [done|]. by eapply net_fine_grows.
  - intros p e Hp. destruct (i_eps0 p e Hp). split; [done|]. by eapply ep_fine_grows.
  - intros h Hh. eapply handle_fine_grows; eauto.
  - by eapply jobs_fine_grows.
Qed.

(** *** Primitives *)

Lemma good_observe {A} (f : nat → A) w :
  Inv w → good (observe f) (λ _ w', w_heap w' = w_heap w ∧ w_handle w' = w_handle w) w.
Proof.
  intros Hi. split; [|split; [by apply same_ok|done]].
  apply (same_inv w); try done. apply Hi.
Qed.

Lemma good_get_net p w :
  Inv w → is_Some (nets w !! p) → good (get_net p) (λ n w', w' = w ∧ nets w !! p = Some n) w.
Proof.
  intros Hi [n Hn]. unfold good, wp, get_net. rewrite Hn. simpl. split; [done|].
  split; [reflexivity|done].
Qed.

Lemma good_get_ep p w :
  Inv w → is_Some (eps w !! p) → good (get_ep p) (λ e w', w' = w ∧ eps w !! p = Some e) w.
Proof.
  intros Hi [n Hn]. unfold good, wp, get_ep. rewrite Hn. simpl. split; [done|].
  split; [reflexivity|done].
Qed.

Lemma good_get_h w :
  Inv w → is_Some (w_handle w) → good get_h (λ h w', w' = w ∧ w_handle w = Some h) w.
Proof.
  intros Hi [n Hn]. unfold good, wp, get_h. rewrite Hn. simpl. split; [done|].
  split; [reflexivity|done].
Qed.

Lemma good_local_entity n p w :
  Inv w → nets w !! p = Some n → good (local_entity n) (λ _ w', w' = w) w.
Proof.
  intros Hi Hn. unfold local_entity. destruct (n_user n =? 0) eqn:Hu; bool_props; [by apply good_ret|].
  destruct (i_nets _ Hi p n Hn) as [_ Hf]. destruct (nf_user _ _ _ Hf) as [|[u Hu']]; [done|].
  unfold good, wp, get_user. rewrite Hu'. simpl. split; [done|]. split; [reflexivity|done].
Qed.

(** A change of the heap alone. *)
Lemma heap_grows w hp :
  (∀ p, is_Some (users w !! p) → is_Some (hp_users hp !! p)) →
  (∀ p, is_Some (nets w !! p) → is_Some (hp_nets hp !! p)) →
  (∀ p, is_Some (eps w !! p) → is_Some (hp_eps hp !! p)) →
  w ⊑ w_set_heap hp w.
Proof. intros. split; simpl; eauto. Qed.

Lemma heap_inv w hp :
  Inv w → w ⊑ w_set_heap hp w → hp_next (w_heap w) <= hp_next hp →
  (∀ p, is_Some (hp_users hp !! p) → 1 <= p) →
  (∀ p n, hp_nets hp !! p = Some n → nets w !! p = Some n ∨
     1 <= p < hp_next hp ∧ net_fine (w_set_heap hp w) p n) →
  (∀ p e, hp_eps hp !! p = Some e → eps w !! p = Some e ∨ 1 <= p ∧ ep_fine w e) →
  Inv (w_set_heap hp w).
Proof.
  intros Hi G Hnx Hu Hn He. destruct Hi. split; simpl; auto.
  - lia.
  - intros p n [Hp|?]%Hn; [|done]. destruct (i_nets0 p n Hp) as [? ?]. split; [lia|].
    by eapply net_fine_grows.
  - intros p e [Hp|[? ?]]%He.
    + destruct (i_eps0 p e Hp). split; [done|]. by eapply ep_fine_grows.
    + split; [done|]. by eapply ep_fine_grows.
  - intros h Hh. eapply handle_fine_grows; eauto.
  - by eapply jobs_fine_grows.
Qed.

Lemma is_Some_insert_mono {A} (m : gmap Z A) p x q : is_Some (m !! q) → is_Some (<[p := x]> m !! q).
Proof. intros ?. destruct (decide (p = q)) as [->|]; [rewrite lookup_insert_eq|rewrite lookup_insert_ne]; eauto. Qed.

(** [p->f]: the network stays fine. *)
Lemma good_mod_net p f n w :
  Inv w → nets w !! p = Some n → (net_fine w p n → net_fine w p (f n)) →
  good (mod_net p f) (λ _ w', w_handle w' = w_handle w ∧ eps w' = eps w ∧ nets w' = <[p := f n]> (nets w)) w.
Proof.
  intros Hi Hn Hf. unfold good, wp, mod_net, mbind, get_net. rewrite Hn. simpl.
  destruct (i_nets _ Hi p n Hn) as [? Hfine]. apply Hf in Hfine.
  assert (G : w ⊑ heap_upd (λ hp, set_nets (<[p := f n]> (hp_nets hp)) hp) w).
  { apply heap_grows; simpl; auto using is_Some_insert_mono. }
  split; [|by split]. apply heap_inv; simpl; auto; [lia|apply Hi|].
  intros q m Hq. destruct (decide (p = q)) as [<-|].
  - rewrite lookup_insert_eq in Hq. injection Hq as <-. right. split; [done|].
    by eapply net_fine_grows.
  - rewrite lookup_insert_ne in Hq by done. by left.
Qed.

Lemma good_mod_ep p f e w :
  Inv w → eps w !! p = Some e → (ep_fine w e → ep_fine w (f e)) →
  good (mod_ep p f) (λ _ w', w_handle w' = w_handle w ∧ nets w' = nets w) w.
Proof.
  intros Hi Hn Hf. unfold good, wp, mod_ep, mbind, get_ep. rewrite Hn. simpl.
  destruct (i_eps _ Hi p e Hn) as [? Hfine]. apply Hf in Hfine.
  assert (G : w ⊑ heap_upd (λ hp, set_eps (<[p := f e]> (hp_eps hp)) hp) w).
  { apply heap_grows; simpl; auto using is_Some_insert_mono. }
  split; [|by split]. apply heap_inv; simpl; auto; [lia|apply Hi|].
  intros q m Hq. destruct (decide (p = q)) as [<-|].
  - rewrite lookup_insert_eq in Hq. injection Hq as <-. by right.
  - rewrite lookup_insert_ne in Hq by done. by left.
Qed.

Lemma good_new_ep e w :
  Inv w → ep_fine w e →
  good (new_ep e) (λ p w', 1 <= p ∧ is_Some (eps w' !! p) ∧ nets w' = nets w ∧ w_handle w' = w_handle w) w.
Proof.
  intros Hi He. unfold good, wp, new_ep, mbind. simpl.
  pose proof (i_next _ Hi).
  split; [|split; [|rewrite lookup_insert_eq; repeat split; eauto; lia]].
  - apply heap_inv; simpl; auto; [|lia|apply Hi|].
    + apply heap_grows; simpl; auto using is_Some_insert_mono.
    + intros q m Hq. destruct (decide (hp_next (w_heap w) = q)) as [<-|].
      * rewrite lookup_insert_eq in Hq. injection Hq as <-. right. split; [lia|done].
      * rewrite lookup_insert_ne in Hq by done. by left.
  - apply heap_grows; simpl; auto using is_Some_insert_mono.
Qed.

Lemma good_new_user u w :
  Inv w → good (new_user u) (λ p w', is_Some (users w' !! p) ∧ w_handle w' = w_handle w) w.
Proof.
  intros Hi. unfold good, wp, new_user, mbind. simpl. pose proof (i_next _ Hi).
  assert (G : w ⊑ heap_upd (λ hp, mkHeap (<[hp_next (w_heap w) := u]> (hp_users hp)) (hp_nets hp)
                      (hp_eps hp) (hp_next (w_heap w) + 1)) w).
  { apply heap_grows; simpl; auto using is_Some_insert_mono. }
  split; [|split; [done|rewrite lookup_insert_eq; eauto]].
  apply heap_inv; simpl; auto; [lia|].
  intros p. destruct (decide (hp_next (w_heap w) = p)) as [<-|]; [lia|].
  rewrite lookup_insert_ne by done. apply Hi.
Qed.

Lemma good_new_net n w :
  Inv w → net_fine w (hp_next (w_heap w)) n →
  good (new_net n) (λ p w', session_net w' p ∧ p ≠ 0 ∧ nets w' !! p = Some n ∧ w_handle w' = w_handle w) w.
Proof.
  intros Hi Hn. unfold good, wp, new_net, mbind. simpl. pose proof (i_next _ Hi).
  assert (G : w ⊑ heap_upd (λ hp, mkHeap (hp_users hp) (<[hp_next (w_heap w) := n]> (hp_nets hp))
                      (hp_eps hp) (hp_next (w_heap w) + 1)) w).
  { apply heap_grows; simpl; auto using is_Some_insert_mono. }
  split; [|split; [done|]].
  - apply heap_inv; simpl; auto; [lia|apply Hi|].
    intros q m Hq. destruct (decide (hp_next (w_heap w) = q)) as [<-|].
    + rewrite lookup_insert_eq in Hq. injection Hq as <-. right. split; [lia|]. by eapply net_fine_grows.
    + rewrite lookup_insert_ne in Hq by done. by left.
  - unfold session_net. simpl. rewrite lookup_insert_eq. repeat split; eauto; lia.
Qed.

Lemma good_fetch get set width w :
  Inv w → good (fetch_counter get set width) (λ _ w', w_heap w' = w_heap w ∧ w_handle w' = w_handle w) w.
Proof.
  intros Hi. unfold good, wp, fetch_counter, mbind. simpl.
  split; [|split; [by apply same_ok|done]]. apply (same_inv w); try done. apply Hi.
Qed.

(** A change of the broker's state alone. *)
Lemma good_broker_upd f w :
  Inv w → good (broker_upd f) (λ _ w', w_heap w' = w_heap w ∧ w_handle w' = w_handle w) w.
Proof.
  intros Hi. unfold good, wp, broker_upd. simpl.
  split; [|split; [by apply same_ok|done]]. apply (same_inv w); try done. apply Hi.
Qed.

(** *** Sending *)

Lemma elem_of_remote_ptrs n x : x ∈ remote_ptrs n → ∃ k, n_remotes n !! k = Some x.
Proof.
  unfold remote_ptrs. intros ([k y] & -> & Hin)%list_elem_of_fmap.
  exists k. by apply elem_of_map_to_list in Hin.
Qed.

Lemma remote_valid w p n x :
  Inv w → nets w !! p = Some n → x ∈ remote_ptrs n → is_Some (eps w !! x).
Proof.
  intros Hi Hn [k Hk]%elem_of_remote_ptrs. destruct (i_nets _ Hi p n Hn) as [_ Hf]. by eapply nf_eps.
Qed.

Lemma ep_fine_tx w e tx : sender_step (e_tx e) tx → ep_fine w e → ep_fine w (set_tx tx e).
Proof. intros Hs [? ? ?]. split; simpl; [done| |done]. by eapply rtc_r. Qed.
Lemma ep_fine_rx w e rx : receiver_step (e_rx e) rx → ep_fine w e → ep_fine w (set_rx rx e).
Proof. intros Hs [? ? ?]. split; simpl; [done|done|]. by eapply rtc_r. Qed.
Lemma ep_fine_addr w e ip port : ep_fine w e → ep_fine w (set_addr ip port e).
Proof. by intros [? ? ?]. Qed.

Lemma good_udp_send_to net pkt addr w :
  Inv w → good (udp_send_to net pkt addr) (λ _ w', w_heap w' = w_heap w ∧ w_handle w' = w_handle w) w.
Proof.
  intros Hi. unfold good, wp, udp_send_to. simpl. split; [|split; [by apply same_ok|done]].
  apply (same_inv w); try done. destruct (i_jobs _ Hi). by split.
Qed.

Lemma good_send_to_remote `{E : Env} net id ent kind payload options now ep w :
  Inv w → is_Some (eps w !! ep) →
  good (send_to_remote net id ent kind payload options now ep) (λ _ w', nets w' = nets w ∧ w_handle w' = w_handle w) w.
Proof.
  intros Hi Hep. unfold send_to_remote.
  eapply good_bind; [by apply good_get_ep|]. intros e _ _ _ [-> He].
  destruct (ep_addr e) as [addr|]; [|by apply good_ret].
  destruct (piggyback_ack (e_rx e)) as [ack rx] eqn:Ha.
  assert (Hrx : receiver_step (e_rx e) rx).
  { replace rx with (piggyback_ack (e_rx e)).2 by by rewrite Ha. constructor. }
  destruct (kind =? KIND_MSG).
  - destruct (send (e_tx e) payload options now) as [out tx] eqn:Ht.
    assert (Htx : sender_step (e_tx e) tx).
    { replace tx with (send (e_tx e) payload options now).2 by by rewrite Ht. constructor. }
    eapply good_bind.
    + eapply good_mod_ep; [done..|]. intros. apply ep_fine_rx; [done|]. by apply ep_fine_tx.
    + intros _ w1 Hi1 _ [Hh1 Hn1]. eapply good_mono; [by apply good_udp_send_to|].
      intros _ w2 _ [Hh2 ?]. by rewrite Hh2, Hn1, H.
  - eapply good_bind.
    + eapply good_mod_ep; [done..|]. intros. by apply ep_fine_rx.
    + intros _ w1 Hi1 _ [Hh1 Hn1]. eapply good_mono; [by apply good_udp_send_to|].
      intros _ w2 _ [Hh2 ?]. by rewrite Hh2, Hn1, H.
Qed.

(** [for_each] for operations that leave [nets] and the handle alone. *)
Lemma good_for_each_same {A} (l : list A) (f : A → M unit) w :
  Inv w →
  (∀ x w', x ∈ l → Inv w' → w ⊑ w' →
     good (f x) (λ _ w'', nets w'' = nets w' ∧ w_handle w'' = w_handle w') w') →
  good (for_each l f) (λ _ w', nets w' = nets w ∧ w_handle w' = w_handle w) w.
Proof.
  revert w. induction l as [|x l IH]; intros w Hi Hf; simpl; [by apply good_ret|].
  eapply good_bind; [apply Hf; [left|done|reflexivity]|].
  intros _ w1 Hi1 G1 [Hn1 Hh1]. eapply good_mono.
  - apply IH; [done|]. intros y w2 Hy Hi2 G2. apply Hf; [by right|done|by etrans].
  - simpl. intros _ w2 _ [Hn2 Hh2]. by rewrite Hn2, Hh2.
Qed.

Lemma good_send_udp_all `{E : Env} net kind payload options w :
  Inv w → is_Some (nets w !! net) →
  good (send_udp_all net kind payload options) (λ _ w', nets w' = nets w ∧ w_handle w' = w_handle w) w.
Proof.
  intros Hi Hnet. unfold send_udp_all.
  eapply good_bind; [by apply good_get_net|]. intros n _ _ _ [-> Hn].
  destruct (n_udp n); [|by apply good_ret].
  eapply good_bind; [by eapply good_local_entity|]. intros ent _ _ _ ->.
  eapply good_bind; [by apply good_observe|]. intros now w1 Hi1 G1 [Hh1 Hd1].
  eapply good_mono.
  - apply good_for_each_same; [done|]. intros x w2 Hx Hi2 G2.
    apply good_send_to_remote; [done|]. apply G2, G1. by eapply remote_valid.
  - simpl. intros _ w2 _ [Hn2 Hh2]. by rewrite Hn2, Hh2, Hh1.
Qed.

Lemma of_net_app net l k : of_net net (l ++ k) = of_net net l ++ of_net net k.
Proof. apply filter_app. Qed.

Lemma good_enqueue_out j w :
  Inv w → (j_net j = 0 ∨ is_Some (nets w !! j_net j)) →
  good (enqueue_out j) (λ _ w', nets w' = nets w ∧ w_handle w' = w_handle w) w.
Proof.
  intros Hi Hj. unfold good, wp, enqueue_out. simpl. split; [|split; [by apply same_ok|done]].
  apply (same_inv w); try done. destruct (i_jobs _ Hi) as [Hq Hf]. split; simpl.
  - apply Forall_app. auto.
  - intros net. rewrite !of_net_app, Hf. by app_norm.
Qed.

Lemma good_send_transport_control `{E : Env} net kind w :
  Inv w → is_Some (nets w !! net) →
  good (send_transport_control net kind) (λ _ w', nets w' = nets w ∧ w_handle w' = w_handle w) w.
Proof.
  intros Hi Hn. unfold send_transport_control.
  eapply good_bind; [by apply good_gets|]. intros up _ _ _ [_ ->].
  destruct up; [apply good_enqueue_out; simpl; auto|by apply good_send_udp_all].
Qed.
End debt.

Infix "⊑" := grows (at level 70) : comp_scope.
Abbreviation ok m w := (good None m (λ _ _, True) w).

(** ** The queue *)

Lemma count_of_bump ty ty' k m :
  count_of ty (bump ty' k m) = count_of ty m + (if (ty' <? 32) && (ty' =? ty) then k else 0).
Proof.
  unfold bump, count_of. destruct (ty' <? 32); simpl; [|lia].
  destruct (ty' =? ty) eqn:He; bool_props.
  - subst. by rewrite lookup_insert_eq.
  - rewrite lookup_insert_ne by done. lia.
Qed.

Lemma of_type_app ty q1 q2 : of_type ty (q1 ++ q2) = of_type ty q1 + of_type ty q2.
Proof. unfold of_type. rewrite filter_app, length_app. lia. Qed.

Lemma of_type_one ty c : of_type ty [c] = if sc_type c =? ty then 1 else 0.
Proof.
  unfold of_type. rewrite filter_cons. destruct (sc_type c =? ty) eqn:He; bool_props.
  - by rewrite decide_True.
  - by rewrite decide_False.
Qed.

Lemma of_type_perm ty q1 q2 : q1 ≡ₚ q2 → of_type ty q1 = of_type ty q2.
Proof. unfold of_type. by intros ->. Qed.

Lemma sc_type_small c : (sc_type c <? 32) = true.
Proof. by destruct c. Qed.

(** The handle changes, nothing is taken from the history. *)
Lemma handle_grows w h h' :
  w_handle w = Some h →
  (h_outstanding h = true → h_in_flight h' = h_in_flight h ∧ h_outstanding h' = true) →
  (∀ net ep, ScEndpointCreated net ep ∈ h_pending h → ScEndpointCreated net ep ∈ h_pending h') →
  w ⊑ w_set_handle (Some h') w.
Proof.
  intros Hh Ho Ha. split; simpl; eauto.
  - intros h0. rewrite Hh. intros [= <-]. eauto.
  - intros net ep. unfold announced, history, pending_of. rewrite Hh. simpl. rewrite !elem_of_app.
    intros [?|?]; eauto.
Qed.

Lemma handle_inv debt debt' w h :
  Inv debt w → w ⊑ w_set_handle (Some h) w → handle_fine (w_set_handle (Some h) w) h →
  (∀ p e, debt = Some (p, e) → debt' = debt ∨ announced p e (w_set_handle (Some h) w)) →
  Inv debt' (w_set_handle (Some h) w).
Proof.
  intros Hi G Hh Hd. destruct Hi. split; simpl; auto.
  - intros p n Hp. destruct (i_nets0 p n Hp) as [? Hf]. split; [done|].
    eapply net_fine_grows in Hf; [|done]. destruct Hf. split; auto.
    intros Hs k e Hk. destruct (nf_announced0 Hs k e Hk) as [?|Hdebt]; [by left|].
    destruct (Hd _ _ Hdebt) as [->|]; [by right|by left].
  - intros p e Hp. destruct (i_eps0 p e Hp). split; [done|]. by eapply ep_fine_grows.
  - by intros ? [= <-].
  - by eapply jobs_fine_grows.
Qed.

Lemma pending_cap_drop_spec w h :
  w_handle w = Some h →
  pending_cap_drop w = Some
    (if (length (h_pending h) <? MESH_PENDING_CAP)%nat then (false, w)
     else (true, w_set_handle (Some (set_ledger (ledger_dropped (h_ledger h)) h)) w)).
Proof.
  intros Hh. unfold pending_cap_drop, mod_h, mbind, get_h, modify. rewrite Hh. simpl.
  destruct (_ <? _)%nat; [done|]. simpl. by rewrite Hh.
Qed.

Lemma mod_h_spec w h f : w_handle w = Some h → mod_h f w = Some (tt, w_set_handle (Some (f h)) w).
Proof. intros Hh. unfold mod_h, mbind, get_h. by rewrite Hh. Qed.

Lemma handle_fine_dropped w h :
  handle_fine w h → handle_fine w (set_ledger (ledger_dropped (h_ledger h)) h).
Proof. intros []. by split. Qed.

Lemma good_pending_cap_drop w :
  Inv None w → is_Some (w_handle w) →
  good None pending_cap_drop
    (λ b w', w_heap w' = w_heap w ∧
       (b = false → ∃ h, w_handle w' = Some h ∧ (length (h_pending h) < MESH_PENDING_CAP)%nat)) w.
Proof.
  intros Hi [h Hh]. unfold good, wp. rewrite (pending_cap_drop_spec w h Hh).
  destruct (_ <? _)%nat eqn:Hl; bool_props.
  - split; [done|]. split; [reflexivity|]. split; [done|]. eauto.
  - assert (G : w ⊑ w_set_handle (Some (set_ledger (ledger_dropped (h_ledger h)) h)) w).
    { by apply (handle_grows w h). }
    split; [|split; [done|done]]. eapply handle_inv; [done|done| |done].
    eapply handle_fine_grows; [done|done|]. apply handle_fine_dropped. by apply Hi.
Qed.

(** The change at the end of the queue. *)
Definition queued (c : StateChange) (h : Handle) : Handle :=
  set_pending (h_pending h ++ [c]) (set_ledger (ledger_queued (sc_type c) (h_ledger h)) h).

Lemma handle_fine_queued w h c :
  handle_fine w h → introduced (concat (w_batches w) ++ h_pending h) c →
  (is21 c = true → (length (h_pending h) < MESH_PENDING_CAP)%nat) → handle_fine w (queued c h).
Proof.
  intros [] Hc Hcap. split; simpl; auto.
  - apply ok_queue_app. simpl. auto.
  - rewrite filter_app, length_app, filter_cons. unfold is21 in Hcap.
    destruct (decide (sc_type c = 21)) as [He|He]; simpl; [|lia].
    rewrite He in Hcap. specialize (Hcap eq_refl).
    pose proof (length_filter_le (λ c, sc_type c = 21) (h_pending h)). lia.
  - intros ty. rewrite count_of_bump, sc_type_small, of_type_app, of_type_one, hf_ledger0. simpl. lia.
Qed.

Lemma history_queued w h c :
  w_handle w = Some h → history (w_set_handle (Some (queued c h)) w) = history w ++ [c].
Proof. intros Hh. unfold history, pending_of. rewrite Hh. simpl. by rewrite app_assoc. Qed.

Lemma wp_queue_sc debt c w :
  Inv debt w → is_Some (w_handle w) → introduced (history w) c →
  (∀ p e, debt = Some (p, e) → c = ScEndpointCreated p e) →
  wp (queue_sc c) (λ _ w', Inv None w' ∧ w ⊑ w' ∧ w_heap w' = w_heap w) w.
Proof.
  intros Hi [h Hh] Hc Hd. pose proof (i_handle _ _ Hi h Hh) as Hfine.
  assert (Hnew : (is21 c = true → (length (h_pending h) < MESH_PENDING_CAP)%nat) →
    Inv None (w_set_handle (Some (queued c h)) w) ∧ w ⊑ w_set_handle (Some (queued c h)) w).
  { intros Hcap.
    assert (G : w ⊑ w_set_handle (Some (queued c h)) w).
    { apply (handle_grows w h); [done|done|]. simpl. intros. apply elem_of_app. by left. }
    split; [|done]. eapply handle_inv; [done|done| |].
    - eapply handle_fine_grows; [done|done|]. apply handle_fine_queued; [done| |done].
      unfold history, pending_of in Hc. by rewrite Hh in Hc.
    - intros p e Hpe. right. unfold announced. rewrite history_queued by done.
      rewrite (Hd _ _ Hpe). apply elem_of_app. right. by left. }
  unfold wp, queue_sc, mbind. destruct (is21 c) eqn:H21.
  - rewrite (pending_cap_drop_spec w h Hh). destruct (_ <? _)%nat eqn:Hl; bool_props.
    + rewrite (mod_h_spec w h) by done. destruct Hnew; auto.
    + destruct debt as [[p e]|]; [by rewrite (Hd p e eq_refl) in H21|].
      assert (G : w ⊑ w_set_handle (Some (set_ledger (ledger_dropped (h_ledger h)) h)) w).
      { by apply (handle_grows w h). }
      split; [|done]. eapply handle_inv; [done|done| |done].
      eapply handle_fine_grows; [done|done|]. by apply handle_fine_dropped.
  - simpl. rewrite (mod_h_spec w h) by done. destruct Hnew; auto; done.
Qed.

Lemma good_queue_sc c w :
  Inv None w → is_Some (w_handle w) → introduced (history w) c →
  good None (queue_sc c) (λ _ w', w_heap w' = w_heap w) w.
Proof.
  intros. eapply wp_mono; [by apply (wp_queue_sc None)|]. by intros ? ? (? & ? & ?).
Qed.

(** ** Computations that touch neither boxes nor handle *)

Definition same (w w' : World) : Prop := w_heap w' = w_heap w ∧ w_handle w' = w_handle w.
#[export] Instance same_preorder : PreOrder same.
Proof. split; [by intros w|]. intros w1 w2 w3 [? ?] [? ?]. split; congruence. Qed.

Definition quiet {A} (m : M A) : Prop := ∀ w, Inv None w → good None m (λ _ w', same w w') w.

Lemma quiet_ret {A} (x : A) : quiet (mret x).
Proof. intros w Hi. by apply good_ret. Qed.
Lemma quiet_bind {A B} (m : M A) (f : A → M B) : quiet m → (∀ x, quiet (f x)) → quiet (mbind m f).
Proof.
  intros Hm Hf w Hi. eapply good_bind; [by apply Hm|]. intros x w1 Hi1 _ Hs1. simpl in Hs1.
  eapply good_mono; [by apply Hf|]. simpl. intros _ w2 _ ?. by etrans.
Qed.
Lemma quiet_for_each {A} (l : list A) (f : A → M unit) : (∀ x, quiet (f x)) → quiet (for_each l f).
Proof. intros Hf. induction l; simpl; auto using quiet_ret, quiet_bind. Qed.
Lemma quiet_gets {A} (f : World → A) : quiet (gets f).
Proof. intros w Hi. split; [done|]. by split. Qed.
Lemma quiet_observe {A} (f : nat → A) : quiet (observe f).
Proof. intros w Hi. by apply good_observe. Qed.
Lemma quiet_broker_upd f : quiet (broker_upd f).
Proof. intros w Hi. by apply good_broker_upd. Qed.
Lemma quiet_fetch get set width : quiet (fetch_counter get set width).
Proof. intros w Hi. by apply good_fetch. Qed.

Create HintDb quiet discriminated.
#[export] Hint Resolve quiet_ret quiet_gets quiet_observe quiet_broker_upd quiet_fetch : quiet.

(** [quiet]: follow the binds and tests of the goal down to the primitives. *)
Ltac quiet :=
  repeat first
    [ solve [auto with quiet]
    | apply quiet_bind; [|intros ?]
    | apply quiet_for_each; intros ?
    | match goal with |- quiet (match ?x with _ => _ end) => destruct x end
    | match goal with |- quiet ?m => progress unfold m end ].

Section env.
Context `{E : Env}.

Lemma quiet_lan_ip : quiet lan_ip.
Proof. unfold lan_ip. quiet. Qed.
Lemma quiet_bind_udp : quiet bind_udp.
Proof. unfold bind_udp. quiet. Qed.
Lemma quiet_elapsed t : quiet (elapsed t).
Proof. unfold elapsed, instant_now. quiet. Qed.
Lemma quiet_broker_run t : quiet (broker_run t).
Proof. unfold broker_run, http_json. pose proof quiet_lan_ip. quiet. Qed.
Lemma quiet_dispatch_broker t : quiet (dispatch_broker t).
Proof. unfold dispatch_broker. pose proof quiet_broker_run. quiet. Qed.
Lemma quiet_take_peer_result e : quiet (take_peer_result e).
Proof. unfold take_peer_result. quiet. Qed.
Lemma quiet_drop_stale l : quiet (drop_stale_peer_results l).
Proof. unfold drop_stale_peer_results. quiet. Qed.
Lemma quiet_register n ent q : quiet (register_member_impl n ent q).
Proof. apply quiet_dispatch_broker. Qed.

End env.
