(* ===== verification/MeshKeeps.v ===== *)
(** * Every operation of the mesh keeps the invariant

    The peers, the receive path, the exports and the worker threads, from the
    bottom up; then the calls the title may make and the runs they form. *)

From S2P Require Import Prelude RustStr BTree Reliable Wire Descriptor Comp Mesh Outbox Peers Inbound PartyApi.
From S2P Require Import MeshInv.
#[local] Open Scope Z_scope.
#[local] Open Scope comp_scope.

Create HintDb mesh discriminated.
#[export] Hint Resolve gr_nets gr_eps gr_users gr_handle gr_announced good_ret : mesh.
#[export] Hint Extern 0 True => exact I : mesh.
Ltac mesh := solve [eauto 8 with mesh].

Definition null_or_net (w : World) (p : Z) : Prop := p = 0 ∨ is_Some (nets w !! p).
Definition null_or_ep (w : World) (p : Z) : Prop := p = 0 ∨ is_Some (eps w !! p).

Lemma null_or_net_grows w w' p : w ⊑ w' → null_or_net w p → null_or_net w' p.
Proof. intros G [?|?]; [by left|right; by apply G]. Qed.
Lemma null_or_ep_grows w w' p : w ⊑ w' → null_or_ep w p → null_or_ep w' p.
Proof. intros G [?|?]; [by left|right; by apply G]. Qed.
#[export] Hint Resolve null_or_net_grows null_or_ep_grows session_net_grows : mesh.

(** One step of a computation whose result does not matter. *)
Lemma ok_seq {A B} (m : M A) (f : A → M B) Q w :
  ok m w → (∀ x w', Inv None w' → w ⊑ w' → good None (f x) Q w') → good None (mbind m f) Q w.
Proof. intros Hm Hf. eapply good_bind; [exact Hm|]. auto. Qed.
Lemma ok_weaken {A} (m : M A) Q w : good None m Q w → ok m w.
Proof. intros H. eapply good_mono; [exact H|]. auto. Qed.
Lemma ok_quiet {A} (m : M A) w : quiet m → Inv None w → ok m w.
Proof. intros H Hi. eapply ok_weaken. by apply H. Qed.

Lemma ok_mod_net p f w :
  Inv None w → is_Some (nets w !! p) → (∀ n, net_fine None w p n → net_fine None w p (f n)) →
  ok (mod_net p f) w.
Proof. intros Hi [n Hn] Hf. eapply ok_weaken, good_mod_net; eauto. Qed.
Lemma ok_mod_ep p f w :
  Inv None w → is_Some (eps w !! p) → (∀ e, ep_fine w e → ep_fine w (f e)) → ok (mod_ep p f) w.
Proof. intros Hi [e He] Hf. eapply ok_weaken, good_mod_ep; eauto. Qed.

(** Field updates the invariant does not look at. *)
Definition neutral (f : Network → Network) : Prop :=
  ∀ d w p n, net_fine d w p n → net_fine d w p (f n).
Lemma neutral_all :
  (∀ t, neutral (set_last_register t)) ∧ (∀ b, neutral (set_inflight b)) ∧ (∀ t, neutral (set_poll_sent t)) ∧
  (∀ s, neutral (set_applied s)) ∧ (∀ b, neutral (set_poll_requested b)) ∧ (∀ q, neutral (set_udp q)) ∧
  (∀ b, neutral (set_connected b)) ∧ neutral set_type10 ∧ neutral set_type12 ∧ (∀ t, neutral (set_hold_start t)).
Proof. repeat match goal with |- _ ∧ _ => split end; intros; intros d w p n []; by split. Qed.

(** The entity of a network read earlier. *)
Lemma ok_local_entity n p w0 w :
  Inv None w0 → nets w0 !! p = Some n → w0 ⊑ w → Inv None w → ok (local_entity n) w.
Proof.
  intros Hi0 Hn G Hi. unfold local_entity. destruct (n_user n =? 0) eqn:Hu; bool_props; [mesh|].
  destruct (i_nets _ _ Hi0 p n Hn) as [_ Hf]. destruct (nf_user _ _ _ _ Hf) as [|Hus]; [done|].
  apply G in Hus as [u Hus]. unfold good, wp, get_user. rewrite Hus. simpl. split; [done|]. by split.
Qed.

Section env.
Context `{E : Env}.

(** ** The remote set *)

Lemma ok_refresh_addr ep ip port w : Inv None w → null_or_ep w ep → ok (refresh_addr ep ip port) w.
Proof.
  intros Hi Hep. unfold refresh_addr. destruct (ep =? 0) eqn:H0; bool_props; [mesh|].
  destruct Hep as [|Hep]; [done|].
  eapply good_bind; [by apply good_get_ep|]. intros e _ _ _ [-> He].
  destruct (_ && _); [|mesh]. apply ok_mod_ep; [done..|]. intros. by apply ep_fine_addr.
Qed.

Lemma Inv_owe d w : Inv None w → Inv d w.
Proof.
  intros []. split; auto. intros p n Hp. destruct (i_nets p n Hp) as [? Hf]. split; [done|].
  destruct Hf. split; auto. intros Hs k e Hk. destruct (nf_announced Hs k e Hk); [by left|done].
Qed.

Lemma net_fine_add w net n eid ep :
  net_fine None w net n → is_Some (eps w !! ep) → n_remotes n !! eid = None →
  (size (n_remotes n) < REMOTE_CAP)%nat →
  net_fine (Some (net, ep)) w net (set_remotes (<[eid := ep]> (n_remotes n)) n).
Proof.
  intros [] Hep Hnew Hsize. split; simpl; auto.
  - intros k e. rewrite lookup_insert_Some. intros [[_ <-]|[_ ?]]; eauto.
  - intros Hs k e. rewrite lookup_insert_Some. intros [[_ <-]|[_ Hk]]; [by right|].
    destruct (nf_announced Hs k e Hk); [by left|done].
  - rewrite map_size_insert_None by done. lia.
Qed.

Lemma ok_add_remote net n eid ip port w :
  Inv None w → is_Some (w_handle w) → nets w !! net = Some n → n_remotes n !! eid = None →
  (size (n_remotes n) < REMOTE_CAP)%nat → ok (add_remote net eid ip port) w.
Proof.
  intros Hi Hh Hn Hnew Hsize. unfold add_remote.
  eapply good_bind; [by apply quiet_fetch|]. intros uid w1 Hi1 G1 [Hheap1 _].
  assert (Hn1 : nets w1 !! net = Some n) by by rewrite Hheap1.
  eapply good_bind.
  { apply good_new_ep; [done|]. split; simpl; [right; eauto|done|done]. }
  intros ep w2 Hi2 G2 (_ & Hep & Hnets2 & _).
  assert (Hn2 : nets w2 !! net = Some n) by by rewrite Hnets2.
  unfold good. rewrite wp_bind.
  eapply wp_mono.
  { apply (good_mod_net (Some (net, ep)) net _ n w2); [by apply Inv_owe|done|].
    intros _. apply net_fine_add; [|done..]. by destruct (i_nets _ _ Hi2 net n Hn2). }
  intros _ w3 (Hi3 & G3 & _). rewrite wp_bind.
  eapply wp_mono.
  { apply good_send_transport_control; [exact Hi3|]. mesh. }
  intros _ w4 (Hi4 & G4 & _). eapply wp_mono.
  { eapply (wp_queue_sc (Some (net, ep))); [exact Hi4|mesh|done|by intros ? ? [= <- <-]]. }
  intros _ w5 (Hi5 & G5 & _). split; [done|]. split; [|done]. etrans; [exact G3|]. by etrans.
Qed.

Lemma ok_ensure_remote net eid ip port w :
  Inv None w → is_Some (w_handle w) → null_or_net w net → ok (ensure_remote net eid ip port) w.
Proof.
  intros Hi Hh Hnet. unfold ensure_remote. destruct (net =? 0) eqn:H0; bool_props; cbn [orb]; [mesh|].
  destruct Hnet as [|Hnet]; [done|]. destruct (bool_decide (eid = _)); [mesh|].
  eapply good_bind; [by apply good_get_net|]. intros n _ _ _ [-> Hn].
  destruct (negb (n_connected n)); [mesh|].
  eapply good_bind; [by eapply good_local_entity|]. intros ent _ _ _ ->.
  destruct (bool_decide (eid = ent)); [mesh|]. destruct (_ || _); [mesh|].
  destruct (i_nets _ _ Hi net n Hn) as [_ Hf].
  destruct (n_remotes n !! eid) as [ep|] eqn:Hr.
  - eapply ok_seq; [apply ok_refresh_addr; [done|]|intros; mesh]. right. by eapply nf_eps.
  - eapply good_bind; [by apply quiet_observe|]. intros known w1 Hi1 G1 [Hheap1 Hh1].
    destruct (negb known); [mesh|]. destruct (_ <=? _)%nat eqn:Hsz; bool_props; [mesh|].
    eapply ok_seq; [|intros; mesh]. eapply (ok_add_remote net n); rewrite ?Hheap1, ?Hh1; try done.
Qed.

(** ** Polling *)

Lemma ok_keep_alive net w : Inv None w → is_Some (nets w !! net) → ok (keep_alive net) w.
Proof.
  intros Hi Hnet. unfold keep_alive.
  eapply good_bind; [by apply good_get_net|]. intros n _ _ _ [-> Hn].
  eapply good_bind; [by apply quiet_elapsed|]. intros age w1 Hi1 G1 [Hheap1 Hh1].
  destruct (_ <=? _); [|mesh].
  eapply good_bind; [by apply quiet_observe|]. intros t w2 Hi2 G2 [Hheap2 Hh2].
  assert (Hn2 : nets w2 !! net = Some n) by by rewrite Hheap2, Hheap1.
  eapply good_bind; [by eapply (good_mod_net _ _ _ n); [|done|apply neutral_all]|].
  intros _ w3 Hi3 G3 (_ & _ & Hnets3).
  eapply ok_seq.
  { eapply (ok_local_entity n net w); [done|done| |done]. etrans; [exact G1|]. by etrans. }
  intros ent w4 Hi4 G4. destruct (bool_decide _); [mesh|].
  apply ok_quiet; [apply quiet_register|done].
Qed.

Lemma good_poll_due net w : Inv None w → is_Some (nets w !! net) → ok (poll_due net) w.
Proof.
  intros Hi Hnet. unfold poll_due.
  eapply good_bind; [by apply good_get_net|]. intros n _ _ _ [-> Hn].
  destruct (n_inflight n); [|mesh].
  eapply good_bind; [by apply quiet_elapsed|]. intros age w1 Hi1 G1 [Hheap1 Hh1].
  destruct (_ <? _); [mesh|]. eapply ok_seq; [|intros; mesh].
  apply ok_mod_net; [done|mesh|intros; by apply neutral_all].
Qed.

Lemma ok_poll_peers_request net w : Inv None w → null_or_net w net → ok (poll_peers_request net) w.
Proof.
  intros Hi Hnet. unfold poll_peers_request. destruct (net =? 0) eqn:H0; bool_props; [mesh|].
  destruct Hnet as [|Hnet]; [done|].
  eapply good_bind; [by apply good_get_net|]. intros n _ _ _ [-> Hn].
  destruct (negb _); [mesh|].
  eapply ok_seq; [by apply ok_keep_alive|]. intros _ w1 Hi1 G1.
  eapply ok_seq; [apply good_poll_due; mesh|]. intros go w2 Hi2 G2. destruct (negb go); [mesh|].
  eapply ok_seq; [by apply ok_quiet; [apply quiet_observe|]|]. intros t w3 Hi3 G3.
  eapply ok_seq.
  { apply ok_mod_net; [done|mesh|]. intros m Hm. apply neutral_all. by apply neutral_all. }
  intros _ w4 Hi4 G4.
  eapply ok_seq; [by apply ok_quiet; [apply quiet_fetch|]|]. intros seq w5 Hi5 G5.
  by apply ok_quiet; [apply quiet_dispatch_broker|].
Qed.

Lemma ok_ensure_all {A} (l : list A) (f : A → string * string * Z) net w :
  Inv None w → is_Some (w_handle w) → null_or_net w net →
  ok (for_each l (λ m, let* _ := ensure_remote net (f m).1.1 (f m).1.2 (f m).2 in mret tt)) w.
Proof.
  intros Hi Hh Hnet. apply good_for_each; [done|]. intros m w1 _ Hi1 G1.
  eapply ok_seq; [apply ok_ensure_remote; mesh|intros; mesh].
Qed.

Lemma ok_poll_peers_apply net w :
  Inv None w → is_Some (w_handle w) → null_or_net w net → ok (poll_peers_apply net) w.
Proof.
  intros Hi Hh Hnet. unfold poll_peers_apply. destruct (net =? 0) eqn:H0; bool_props; [mesh|].
  assert (Hnet' : is_Some (nets w !! net)) by by destruct Hnet.
  eapply good_bind; [by apply good_get_net|]. intros n _ _ _ [-> Hn].
  destruct (negb _); [mesh|].
  eapply ok_seq; [by apply ok_quiet; [apply quiet_take_peer_result|]|]. intros [res|] w1 Hi1 G1; [|mesh].
  eapply ok_seq; [apply ok_mod_net; [done|mesh|intros; by apply neutral_all]|]. intros _ w2 Hi2 G2.
  destruct (_ <=? _); [mesh|].
  eapply ok_seq; [apply ok_mod_net; [done|mesh|intros; by apply neutral_all]|]. intros _ w3 Hi3 G3.
  apply (ok_ensure_all _ (λ m, (p_entity m, rewrite_peer_ip (p_ip m) (n_desc n), p_port m))); mesh.
Qed.

(** ** Candidates *)

Lemma ok_queue_pending_peer net eid ip port w :
  Inv None w → null_or_net w net → ok (queue_pending_peer net eid ip port) w.
Proof.
  intros Hi Hnet. unfold queue_pending_peer. destruct (net =? 0) eqn:H0; bool_props; [mesh|].
  destruct Hnet as [|Hnet]; [done|].
  eapply good_bind; [by apply good_get_net|]. intros n _ _ _ [-> Hn].
  destruct (existsb _ _); [mesh|]. destruct (_ <=? _)%nat eqn:Hl; bool_props; [mesh|].
  eapply ok_weaken, good_mod_net; [done..|]. intros []. split; simpl; auto.
  rewrite length_app. simpl. lia.
Qed.

Lemma ok_drain_peers_loop net fuel : ∀ w,
  Inv None w → is_Some (w_handle w) → is_Some (nets w !! net) → ok (drain_peers_loop net fuel) w.
Proof.
  induction fuel as [|fuel IH]; intros w Hi Hh Hnet; simpl; [mesh|].
  eapply good_bind; [by apply good_get_net|]. intros n _ _ _ [-> Hn].
  destruct (n_pending_peers n) as [|p q] eqn:Hq; [mesh|].
  eapply ok_seq.
  { eapply ok_weaken, good_mod_net; [done..|]. intros []. split; simpl; auto.
    rewrite Hq in nf_peers. simpl in nf_peers. lia. }
  intros _ w1 Hi1 G1.
  eapply ok_seq; [apply ok_ensure_remote; [done|mesh|right; mesh]|]. intros _ w2 Hi2 G2.
  apply IH; mesh.
Qed.

Lemma ok_drain_pending_peers net w :
  Inv None w → is_Some (w_handle w) → null_or_net w net → ok (drain_pending_peers net) w.
Proof.
  intros Hi Hh Hnet. unfold drain_pending_peers. destruct (net =? 0) eqn:H0; bool_props; [mesh|].
  destruct Hnet as [|Hnet]; [done|].
  eapply good_bind; [by apply good_get_net|]. intros n _ _ _ [-> Hn]. by apply ok_drain_peers_loop.
Qed.

(** ** Receiving *)

Lemma ok_deliver_type21 net ep payload opts w :
  Inv None w → is_Some (w_handle w) → is_Some (nets w !! net) → announced net ep w →
  ok (deliver_type21 net ep payload opts) w.
Proof.
  intros Hi Hh Hnet Ha. unfold deliver_type21.
  eapply ok_seq; [by eapply ok_weaken, good_pending_cap_drop|]. intros [] w1 Hi1 G1; [mesh|].
  eapply good_bind; [apply good_get_net; mesh|]. intros n _ _ _ [-> Hn].
  eapply ok_weaken, good_queue_sc; [done|mesh|]. by apply (gr_announced _ _ G1).
Qed.

Lemma ok_deliver_reliable net ep seq opts payload w :
  Inv None w → is_Some (w_handle w) → is_Some (nets w !! net) → is_Some (eps w !! ep) →
  announced net ep w → is_u32 seq → ok (deliver_reliable net ep seq opts payload) w.
Proof.
  intros Hi Hh Hnet Hep Ha Hs. unfold deliver_reliable.
  eapply good_bind; [by apply good_get_ep|]. intros e _ _ _ [-> He].
  eapply good_bind; [by apply quiet_observe|]. intros now w1 Hi1 G1 [Hheap1 Hh1].
  destruct (on_message (e_rx e) seq opts payload now) as [o rx] eqn:Hm.
  eapply ok_seq.
  { eapply ok_weaken, (good_mod_ep None ep _ e); [done|by rewrite Hheap1|].
    intros. apply ep_fine_rx; [|done].
    replace rx with (on_message (e_rx e) seq opts payload now).2 by by rewrite Hm. by constructor. }
  intros _ w2 Hi2 G2. destruct o; [|mesh..].
  eapply ok_seq; [|intros; mesh]. apply good_for_each; [done|].
  intros m w3 _ Hi3 G3. apply ok_deliver_type21; mesh.
Qed.

(** A remote of a network of this session was announced. *)
Lemma remote_announced w net n k ep :
  Inv None w → session_net w net → nets w !! net = Some n → n_remotes n !! k = Some ep →
  announced net ep w ∧ is_Some (eps w !! ep).
Proof.
  intros Hi [Hs _] Hn Hk. destruct (i_nets _ _ Hi net n Hn) as [_ []].
  split; [|by eapply nf_eps]. by destruct (nf_announced Hs k ep Hk).
Qed.

Lemma default_remote w net n k :
  Inv None w → session_net w net → nets w !! net = Some n → default 0 (n_remotes n !! k) ≠ 0 →
  announced net (default 0 (n_remotes n !! k)) w ∧ is_Some (eps w !! default 0 (n_remotes n !! k)).
Proof.
  intros Hi Hs Hn Hd. destruct (n_remotes n !! k) eqn:Hk; simpl in *; [|done].
  by eapply remote_announced.
Qed.

Lemma session_is_net w net : session_net w net → is_Some (nets w !! net).
Proof. by intros []. Qed.
#[local] Hint Resolve session_is_net : mesh.

Lemma ok_flush_loop net fuel : ∀ w,
  Inv None w → is_Some (w_handle w) → session_net w net → ok (flush_loop net fuel) w.
Proof.
  induction fuel as [|fuel IH]; intros w Hi Hh Hnet; simpl; [mesh|].
  eapply good_bind; [by apply good_get_net; mesh|]. intros n _ _ _ [-> Hn].
  destruct (_ || _); [mesh|]. destruct (n_pending_rx n) as [|f q] eqn:Hq; [mesh|].
  destruct (_ =? 0) eqn:H0; bool_props; [mesh|].
  destruct (default_remote w net n (f_entity f)) as [Ha He]; [done..|].
  destruct (i_nets _ _ Hi net n Hn) as [_ Hf]. pose proof (nf_frames _ _ _ _ Hf) as Hfr.
  rewrite Hq in Hfr. apply Forall_cons in Hfr as [Hseq Hfr].
  eapply ok_seq.
  { eapply ok_weaken, good_mod_net; [done..|]. intros []. by split. }
  intros _ w1 Hi1 G1.
  eapply ok_seq; [apply ok_deliver_reliable; mesh|]. intros _ w2 Hi2 G2. apply IH; mesh.
Qed.

Lemma ok_flush_pending_rx net w :
  Inv None w → is_Some (w_handle w) → session_net w net → ok (flush_pending_rx net) w.
Proof.
  intros Hi Hh Hnet. unfold flush_pending_rx. destruct (net =? 0); [mesh|].
  eapply good_bind; [by apply good_get_net; mesh|]. intros n _ _ _ [-> Hn]. by apply ok_flush_loop.
Qed.

Lemma ok_request_peer_poll net w : Inv None w → null_or_net w net → ok (request_peer_poll net) w.
Proof.
  intros Hi Hnet. unfold request_peer_poll. destruct (net =? 0) eqn:H0; bool_props; [mesh|].
  destruct Hnet as [|]; [done|]. apply ok_mod_net; [done..|]. intros; by apply neutral_all.
Qed.

Lemma ok_note_source net ent src w :
  Inv None w → is_Some (w_handle w) → session_net w net → ok (note_source net ent src) w.
Proof.
  intros Hi Hh Hnet. destruct src as [ip port|]; simpl; [|mesh].
  eapply good_bind; [by apply good_get_net; mesh|]. intros n _ _ _ [-> Hn].
  destruct (negb _); [mesh|]. assert (null_or_net w net) by (right; mesh).
  destruct (bool_decide _).
  - eapply ok_seq; [by apply ok_ensure_remote|intros; mesh].
  - by apply ok_queue_pending_peer.
Qed.

Lemma ok_note_ack net ent a w : Inv None w → session_net w net → ok (note_ack net ent a) w.
Proof.
  intros Hi Hnet. unfold note_ack. destruct (_ || _); [mesh|].
  eapply good_bind; [by apply good_get_net; mesh|]. intros n _ _ _ [-> Hn].
  destruct (_ =? 0) eqn:H0; bool_props; [mesh|].
  destruct (default_remote w net n ent) as [_ He]; [done..|].
  eapply good_bind; [by apply good_get_ep|]. intros e _ _ _ [-> He'].
  eapply ok_weaken, good_mod_ep; [done..|]. intros. apply ep_fine_tx; [constructor|done].
Qed.

Lemma net_fine_pending_rx w net n q :
  Forall (λ f, is_u32 (f_seq f)) q → net_fine None w net n → net_fine None w net (set_pending_rx q n).
Proof. intros Hq []. by split. Qed.

Lemma ok_recv_message net ent payload opts seq w :
  Inv None w → is_Some (w_handle w) → session_net w net → is_u32 seq →
  ok (recv_message net ent payload opts seq) w.
Proof.
  intros Hi Hh Hnet Hs. unfold recv_message.
  eapply good_bind; [by apply good_get_net; mesh|]. intros n0 _ _ _ [-> Hn0].
  set (ep := default 0 (n_remotes n0 !! ent)).
  assert (Hep : ep ≠ 0 → announced net ep w ∧ is_Some (eps w !! ep)) by by apply default_remote.
  eapply ok_seq.
  { apply good_when; [done|]. intros _. apply ok_request_peer_poll; [done|right; mesh]. }
  intros _ w1 Hi1 G1.
  eapply good_bind; [apply good_get_net; mesh|]. intros n _ _ _ [-> Hn].
  destruct (i_nets _ _ Hi1 net n Hn) as [_ Hf]. pose proof (nf_frames _ _ _ _ Hf) as Hfr.
  destruct (ep =? 0) eqn:H0; bool_props; cbn [orb].
  - eapply ok_weaken, good_mod_net; [done..|]. apply net_fine_pending_rx.
    apply Forall_app; split; [destruct (_ <=? _)%nat; auto using Forall_drop|by constructor].
  - destruct (Hep H0) as [Ha He]. destruct (_ || _).
    + eapply ok_weaken, good_mod_net; [done..|]. apply net_fine_pending_rx.
      apply Forall_app; split; [destruct (_ <=? _)%nat; auto using Forall_drop|by constructor].
    + destruct (n_pending_rx n) as [|f q] eqn:Hq.
      * eapply ok_seq; [apply ok_deliver_reliable; mesh|intros; mesh].
      * eapply ok_seq.
        { eapply ok_weaken, good_mod_net; [done..|]. apply net_fine_pending_rx.
          apply Forall_app; split; [done|by constructor]. }
        intros _ w2 Hi2 G2. apply ok_flush_pending_rx; mesh.
Qed.

Lemma u32le_range data off : is_u32 (default 0 (u32le data off)).
Proof.
  unfold u32le, slice_get. destruct (_ && _) eqn:Hb; simpl; [|by unfold is_u32, U32].
  pose proof (from_le_range (slice off (off + 4 - off) data)) as Hr. unfold slice in *.
  rewrite length_take in Hr. unfold is_u32, U32.
  assert (256 ^ Z.of_nat ((off + 4 - off) `min` length (drop off data)) <= 256 ^ 4).
  { apply Z.pow_le_mono_r; lia. }
  change (256 ^ 4) with 4294967296 in H. lia.
Qed.

Lemma parse_seq buf rel p : parse buf rel = Ok p → is_u32 (Wire.seq p).
Proof.
  unfold parse. repeat (case_if; [done|]). destruct (u32le _ _); [|done]. case_if; [done|].
  intros [= <-]. simpl. apply u32le_range.
Qed.

Lemma ok_recv_datagram net d w :
  Inv None w → is_Some (w_handle w) → session_net w net → ok (recv_datagram net d) w.
Proof.
  intros Hi Hh Hnet. destruct d as [src buf]. unfold recv_datagram.
  destruct (parse buf PARTY_RELIABLE) as [p|] eqn:Hp; [|mesh]. apply parse_seq in Hp.
  eapply ok_seq; [by apply ok_note_source|]. intros _ w1 Hi1 G1.
  eapply ok_seq; [apply ok_note_ack; mesh|]. intros _ w2 Hi2 G2.
  destruct (kind p =? KIND_HELLO); [apply ok_request_peer_poll; [done|right; mesh]|].
  destruct (kind p =? KIND_ACK); [mesh|]. destruct (negb _); [mesh|]. apply ok_recv_message; mesh.
Qed.

Lemma ok_recv_loop net budget : ∀ w,
  Inv None w → is_Some (w_handle w) → session_net w net → ok (recv_loop net budget) w.
Proof.
  induction budget as [|budget IH]; intros w Hi Hh Hnet; simpl; [mesh|].
  eapply good_bind; [by apply good_get_net; mesh|]. intros n _ _ _ [-> Hn].
  destruct (n_udp n) as [[|d q]|]; [mesh| |mesh].
  eapply ok_seq; [apply ok_mod_net; [done|mesh|intros; by apply neutral_all]|]. intros _ w1 Hi1 G1.
  eapply ok_seq; [apply ok_recv_datagram; mesh|]. intros _ w2 Hi2 G2. apply IH; mesh.
Qed.

Lemma ok_recv_nets l : ∀ budget w,
  Inv None w → is_Some (w_handle w) → Forall (session_net w) l → ok (recv_nets l budget) w.
Proof.
  induction l as [|net l IH]; intros budget w Hi Hh Hl; simpl; [mesh|].
  apply Forall_cons in Hl as [Hnet Hl].
  assert (Hl' : ∀ w', w ⊑ w' → Forall (session_net w') l).
  { intros w' G. eapply Forall_impl; [exact Hl|]. intros; by eapply session_net_grows. }
  eapply ok_seq; [by apply ok_flush_pending_rx|]. intros _ w1 Hi1 G1.
  eapply good_bind; [apply good_get_net; mesh|]. intros n _ _ _ [-> Hn].
  destruct (n_udp n); [|apply IH; mesh].
  eapply ok_seq; [apply ok_recv_loop; mesh|]. intros b w2 Hi2 G2. apply IH; [mesh..|].
  apply Hl'. by etrans.
Qed.

Lemma ok_recv_udp w : Inv None w → is_Some (w_handle w) → ok recv_udp w.
Proof.
  intros Hi Hh. unfold recv_udp.
  eapply good_bind; [by apply good_get_h|]. intros h _ _ _ [-> Hh'].
  apply ok_recv_nets; [done..|]. by apply (i_handle _ _ Hi).
Qed.

(** ** The transport thread *)

Lemma ok_take_jobs jobs rest w :
  Inv None w → (∀ net, of_net net (o_queue (w_outbox w)) = of_net net jobs ++ of_net net rest) →
  (∀ j, j ∈ rest → j ∈ o_queue (w_outbox w)) → ok (take_jobs jobs rest) w.
Proof.
  intros Hi Hq Hsub. unfold good, wp, take_jobs. simpl.
  split; [|split; [by apply same_ok|done]]. apply (same_inv None w); try done.
  destruct (i_jobs _ _ Hi) as [Hv Hf]. split; simpl.
  - rewrite Forall_forall in Hv |- *. auto.
  - intros net. rewrite of_net_app, Hf, Hq. by app_norm.
Qed.

Lemma ok_process_jobs jobs w :
  Inv None w → Forall (λ j, null_or_net w (j_net j)) jobs → ok (for_each jobs process_out_job) w.
Proof.
  intros Hi Hv. rewrite Forall_forall in Hv. apply good_for_each; [done|].
  intros j w1 Hj Hi1 G1. unfold process_out_job. destruct (_ =? 0) eqn:H0; bool_props; [mesh|].
  destruct (Hv j Hj) as [|]; [done|]. eapply ok_weaken, good_send_udp_all; mesh.
Qed.

Lemma ok_service_outbox w : Inv None w → ok service_outbox w.
Proof.
  intros Hi. unfold service_outbox.
  eapply good_bind; [by apply good_gets|]. intros q _ _ _ [-> ->].
  pose proof (jf_nets _ _ (i_jobs _ _ Hi)) as Hv.
  eapply ok_seq.
  { apply ok_take_jobs; [done| |].
    - intros net. by rewrite <- of_net_app, take_drop.
    - intros j Hj. rewrite <- (take_drop OUTBOX_BATCH). apply elem_of_app. by right. }
  intros _ w1 Hi1 G1. apply ok_process_jobs; [done|].
  apply Forall_take. eapply Forall_impl; [exact Hv|]. intros j Hj. by eapply null_or_net_grows.
Qed.

Lemma of_net_filter net net' l :
  of_net net' l = of_net net' (filter (λ j, j_net j = net) l) ++ of_net net' (filter (λ j, j_net j ≠ net) l).
Proof.
  unfold of_net. rewrite !list_filter_filter. destruct (decide (net' = net)) as [->|Hne].
  - rewrite (filter_none (λ j, j_net j = net ∧ j_net j ≠ net)) by (apply Forall_forall; tauto).
    rewrite app_nil_r. apply list_filter_iff. tauto.
  - rewrite (filter_none (λ j, j_net j = net' ∧ j_net j = net)) by (apply Forall_forall; intros ? _ [??]; congruence).
    apply list_filter_iff. intros j. split; [intros <-|]; tauto.
Qed.

Lemma ok_drain_outbox_for net w : Inv None w → ok (drain_outbox_for net) w.
Proof.
  intros Hi. unfold drain_outbox_for.
  eapply good_bind; [by apply good_gets|]. intros q _ _ _ [-> ->].
  pose proof (jf_nets _ _ (i_jobs _ _ Hi)) as Hv. rewrite Forall_forall in Hv.
  eapply ok_seq.
  { apply ok_take_jobs; [done| |].
    - intros net'. apply of_net_filter.
    - intros j [_ ?]%list_elem_of_filter. done. }
  intros _ w1 Hi1 G1. apply ok_process_jobs; [done|]. apply Forall_forall.
  intros j [_ Hj]%list_elem_of_filter. eapply null_or_net_grows; [done|]. by apply Hv.
Qed.

Lemma ok_resend_one net id ent addr ep r w :
  Inv None w → is_Some (eps w !! ep) → ok (resend_one net id ent addr ep r) w.
Proof.
  intros Hi Hep. unfold resend_one. destruct (r_gave_up r); [mesh|].
  eapply good_bind; [by apply good_get_ep|]. intros e _ _ _ [-> He].
  destruct (piggyback_ack (e_rx e)) as [a rx] eqn:Ha.
  eapply ok_seq; [|intros; by eapply ok_weaken, good_udp_send_to].
  eapply ok_weaken, good_mod_ep; [done..|]. intros. apply ep_fine_rx; [|done].
  replace rx with (piggyback_ack (e_rx e)).2 by by rewrite Ha. constructor.
Qed.

Lemma ok_service_remote net id ent now ep w :
  Inv None w → is_Some (eps w !! ep) → ok (service_remote net id ent now ep) w.
Proof.
  intros Hi Hep. unfold service_remote.
  eapply good_bind; [by apply good_get_ep|]. intros e _ _ _ [-> He].
  destruct (ep_addr e) as [addr|]; [|mesh].
  destruct (due (e_tx e) now) as [rs tx] eqn:Hd.
  eapply ok_seq.
  { eapply ok_weaken, good_mod_ep; [done..|]. intros. apply ep_fine_tx; [|done].
    replace tx with (due (e_tx e) now).2 by by rewrite Hd. constructor. }
  intros _ w1 Hi1 G1. eapply ok_seq.
  { apply good_for_each; [done|]. intros. apply ok_resend_one; mesh. }
  intros _ w2 Hi2 G2. eapply good_bind; [apply good_get_ep; mesh|]. intros e2 _ _ _ [-> He2].
  destruct (forced_ack (e_rx e2) now) as [a rx] eqn:Ha.
  eapply ok_seq; [|intros _ w3 Hi3 G3; destruct a; [by eapply ok_weaken, good_udp_send_to|mesh]].
  eapply ok_weaken, good_mod_ep; [done..|]. intros. apply ep_fine_rx; [|done].
  replace rx with (forced_ack (e_rx e2) now).2 by by rewrite Ha. constructor.
Qed.

Lemma ok_reliable_service now w : Inv None w → is_Some (w_handle w) → ok (reliable_service now) w.
Proof.
  intros Hi Hh. unfold reliable_service.
  eapply good_bind; [by apply good_get_h|]. intros h _ _ _ [-> Hh'].
  pose proof (hf_nets _ _ (i_handle _ _ Hi h Hh')) as Hnets. rewrite Forall_forall in Hnets.
  apply good_for_each; [done|]. intros net w1 Hnet%Hnets Hi1 G1.
  eapply good_bind; [apply good_get_net; mesh|]. intros n _ _ _ [-> Hn].
  destruct (n_udp n); [|mesh].
  eapply good_bind; [by eapply good_local_entity|]. intros ent _ _ _ ->.
  apply good_for_each; [done|]. intros ep w2 Hep Hi2 G2. apply ok_service_remote; [done|].
  apply G2. by eapply remote_valid.
Qed.

Lemma ok_deadlines_eps l : ∀ best w,
  Inv None w → Forall (λ p, is_Some (eps w !! p)) l → ok (deadlines_eps l best) w.
Proof.
  induction l as [|p l IH]; intros best w Hi Hl; simpl; [mesh|].
  apply Forall_cons in Hl as [Hp Hl]. destruct (p =? 0); [by apply IH|].
  eapply good_bind; [by apply good_get_ep|]. intros e _ _ _ [-> _]. by apply IH.
Qed.

Lemma ok_deadlines_nets l : ∀ best w,
  Inv None w → Forall (λ p, is_Some (nets w !! p)) l → ok (deadlines_nets l best) w.
Proof.
  induction l as [|p l IH]; intros best w Hi Hl; simpl; [mesh|].
  apply Forall_cons in Hl as [Hp Hl]. destruct (p =? 0); [by apply IH|].
  eapply good_bind; [by apply good_get_net|]. intros n _ _ _ [-> Hn].
  eapply ok_seq.
  { apply ok_deadlines_eps; [done|]. apply Forall_forall. intros x ?. by eapply remote_valid. }
  intros b w1 Hi1 G1. apply IH; [done|]. eapply Forall_impl; [exact Hl|]. intros; by apply G1.
Qed.

Lemma ok_next_transport_wait now w :
  Inv None w → is_Some (w_handle w) → ok (next_transport_wait_ms now) w.
Proof.
  intros Hi Hh. unfold next_transport_wait_ms.
  eapply good_bind; [by apply good_get_h|]. intros h _ _ _ [-> Hh'].
  eapply ok_seq; [|intros; mesh]. apply ok_deadlines_nets; [done|].
  eapply Forall_impl; [apply (i_handle _ _ Hi h Hh')|]. by intros ? [].
Qed.

Lemma ok_with_handle {A} (m : M A) d w :
  Inv None w → (is_Some (w_handle w) → ok m w) → ok (with_handle m d) w.
Proof.
  intros Hi Hm. unfold with_handle. eapply good_bind; [by apply good_gets|].
  intros oh _ _ _ [-> ->]. destruct (w_handle w); [by apply Hm|mesh].
Qed.

Lemma ok_transport_cycle w : Inv None w → ok transport_cycle w.
Proof.
  intros Hi. unfold transport_cycle.
  eapply ok_seq; [by apply ok_quiet; [apply quiet_observe|]|]. intros now w1 Hi1 G1.
  apply ok_with_handle; [done|]. intros Hh.
  eapply ok_seq; [by apply ok_service_outbox|]. intros _ w2 Hi2 G2.
  eapply ok_seq; [apply ok_recv_udp; mesh|]. intros _ w3 Hi3 G3.
  eapply ok_seq; [apply ok_reliable_service; mesh|]. intros _ w4 Hi4 G4.
  apply ok_next_transport_wait; mesh.
Qed.
End env.

(** ** The drain *)

(** What the drain loop does with the queue: nothing is lost, at most 32 changes are handed out, a
    type-12 change ends its batch. *)
Lemma drain_loop_perm hold q : ∀ batch deferred b r d cap,
  drain_loop hold q batch deferred = (b, r, d, cap) → b ++ d ++ r ≡ₚ batch ++ deferred ++ q.
Proof.
  induction q as [|c q IH]; intros batch deferred b r d cap; cbn [drain_loop].
  - intros [= <- <- <- <-]. by rewrite app_nil_r.
  - repeat case_if.
    + by intros [= <- <- <- <-].
    + intros ->%IH. by rewrite <- app_assoc.
    + intros [= <- <- <- <-]. rewrite <- !app_assoc. apply Permutation_app_head.
      simpl. apply Permutation_middle.
    + intros ->%IH. rewrite <- !app_assoc. apply Permutation_app_head.
      simpl. apply Permutation_middle.
Qed.

Definition no12 (l : list StateChange) : Prop := Forall (λ c, is12 c = false) l.

Lemma drain_loop_shape hold q : ∀ batch deferred b r d cap,
  drain_loop hold q batch deferred = (b, r, d, cap) →
  (length batch ≤ BATCH_CAP)%nat → no12 batch → (length b ≤ BATCH_CAP)%nat ∧ no12 (removelast b).
Proof.
  assert (Hrl : ∀ l, no12 l → no12 (removelast l)).
  { induction l as [|c l IH]; [done|]. intros [? Hl]%Forall_cons. destruct l; [constructor|].
    cbn [removelast]. constructor; [done|by apply IH]. }
  induction q as [|c q IH]; intros batch deferred b r d cap; cbn [drain_loop].
  - intros [= <- <- <- <-] ? ?. auto.
  - repeat case_if; intros Hd Hl H12.
    + injection Hd as <- <- <- <-. auto.
    + by apply IH in Hd.
    + injection Hd as <- <- <- <-. rewrite removelast_last, length_app. simpl. split; [lia|done].
    + apply IH in Hd; [done| |apply Forall_app; split; [done|by constructor]].
      rewrite length_app. simpl. lia.
Qed.

Lemma no12_covers seen l : no12 l → covers (seen ++ l) seen.
Proof.
  intros Hl net ep [?|Hin]%elem_of_app; [done|]. unfold no12 in Hl. rewrite Forall_forall in Hl.
  by apply Hl in Hin.
Qed.

(** Messages handed out were introduced before the batch; those left still are introduced in time. *)
Lemma drain_loop_introduced seen hold q : ∀ batch deferred b r d cap,
  drain_loop hold q batch deferred = (b, r, d, cap) → no12 batch → no12 deferred →
  Forall (introduced seen) batch → Forall (introduced seen) deferred → ok_queue seen q →
  Forall (introduced seen) b ∧ Forall (introduced seen) d ∧ ok_queue (seen ++ b) r.
Proof.
  induction q as [|c q IH]; intros batch deferred b r d cap; cbn [drain_loop].
  - by intros [= <- <- <- <-].
  - intros Hd Hb Hdf Hbi Hdi [Hc Hq].
    assert (Hq' : is12 c = false → ok_queue seen q).
    { intros Hc12. eapply ok_queue_covers; [|exact Hq]. apply no12_covers. by constructor. }
    repeat case_if_in Hd.
    + injection Hd as <- <- <- <-. split; [done|]. split; [done|].
      eapply ok_queue_covers; [|by split]. intros ? ? ?. apply elem_of_app. by left.
    + assert (is12 c = false) by by destruct c.
      apply IH in Hd; auto; apply Forall_app; split; auto; by constructor.
    + injection Hd as <- <- <- <-. split; [|split; [done|]].
      * apply Forall_app; split; [done|by constructor].
      * eapply ok_queue_covers; [|exact Hq]. intros net ep. rewrite !elem_of_app. tauto.
    + apply IH in Hd; auto; apply Forall_app; split; auto; by constructor.
Qed.

Lemma ok_queue_introduced seen q : Forall (introduced seen) q → ok_queue seen q.
Proof.
  intros Hq. assert (Hall : ∀ s, covers seen s → ok_queue s q).
  { induction Hq as [|c q Hc Hq IH]; intros s Hs; simpl; [done|].
    split; [by eapply introduced_covers|]. apply IH. intros ? ? ?. apply elem_of_app. left. by apply Hs. }
  by apply Hall; intros ? ?.
Qed.

(** ** The pump *)

Section env.
Context `{E : Env}.

Lemma ok_note_hold_loop now l : ∀ acc w,
  Inv None w → Forall (λ p, is_Some (nets w !! p)) l →
  good None (note_hold_loop now l acc) (λ _ w', w_handle w' = w_handle w ∧ w_batches w' = w_batches w) w.
Proof.
  induction l as [|p l IH]; intros acc w Hi Hl; cbn [note_hold_loop]; [by apply good_ret|].
  apply Forall_cons in Hl as [Hp Hl]. destruct (p =? 0); [by apply IH|].
  eapply good_bind; [by apply good_get_net|]. intros n _ _ _ [-> Hn].
  assert (Hset : ∀ t, good None (mod_net p (set_hold_start t))
      (λ _ w', w_handle w' = w_handle w ∧ w_batches w' = w_batches w ∧ Forall (λ p, is_Some (nets w' !! p)) l) w).
  { intros t. assert (Hg := good_mod_net None p (set_hold_start t) n w Hi Hn).
    unfold good, wp, mod_net, mbind, get_net in *. rewrite Hn in *. simpl in *.
    destruct Hg as (Hi' & G & ?); [apply neutral_all|]. split; [done|]. split; [done|]. split; [done|].
    split; [done|]. eapply Forall_impl; [exact Hl|]. intros; by apply G. }
  destruct (negb (holds n)).
  - eapply good_bind; [apply Hset|]. intros _ w1 Hi1 G1 (Hh1 & Hb1 & Hl1).
    eapply good_mono; [by apply IH|]. simpl. intros _ w2 _ [-> ->]. done.
  - eapply good_bind; [apply Hset|]. intros _ w1 Hi1 G1 (Hh1 & Hb1 & Hl1).
    destruct acc as [[holding timed_out] oldest]. destruct (_ <=? _);
      (eapply good_mono; [by apply IH|]; simpl; intros _ w2 _ [-> ->]; done).
Qed.

(** The handle and the log of batches change together. *)
Definition pumped (h : Handle) (bs : list (list StateChange)) (w : World) : World :=
  w_set_batches bs (w_set_handle (Some h) w).

Lemma pumped_inv w h0 h bs :
  Inv None w → w_handle w = Some h0 → h_outstanding h0 = false →
  (∀ net ep, announced net ep w → ScEndpointCreated net ep ∈ concat bs ++ h_pending h) →
  (w ⊑ pumped h bs w → handle_fine (pumped h bs w) h) →
  (∀ i b, bs !! i = Some b → ok_batch (concat (take i bs)) b) →
  Inv None (pumped h bs w) ∧ w ⊑ pumped h bs w.
Proof.
  intros Hi Hh Ho Ha Hf Hb. assert (G : w ⊑ pumped h bs w).
  { split; simpl; eauto. intros h1. rewrite Hh. intros [= <-]. exists h. split; [done|]. by rewrite Ho. }
  split; [|done]. specialize (Hf G). destruct Hi. split; simpl; auto.
  - intros p n Hp. destruct (i_nets p n Hp). split; [done|]. by eapply net_fine_grows.
  - intros p e Hp. destruct (i_eps p e Hp). split; [done|]. by eapply ep_fine_grows.
  - by intros ? [= <-].
  - by eapply jobs_fine_grows.
Qed.

Lemma count_of_foldr ty l m :
  count_of ty (foldr (λ c, bump (sc_type c) 1) m l) = count_of ty m + of_type ty l.
Proof.
  induction l as [|c l IH]; simpl; [unfold of_type; simpl; lia|].
  rewrite count_of_bump, IH, sc_type_small. change (c :: l) with ([c] ++ l).
  rewrite of_type_app, of_type_one. simpl. lia.
Qed.

(** The handle after a batch was built. *)
Definition batch_handle (h : Handle) (b r d : list StateChange) (cap : bool) : Handle :=
  set_batch b (negb (bool_decide (b = [])))
    (set_ledger (ledger_batch b d cap (h_ledger h)) (set_pending (d ++ r) h)).

Lemma concat_snoc {A} (ls : list (list A)) l : concat (ls ++ [l]) = concat ls ++ l.
Proof. rewrite concat_app. simpl. by rewrite app_nil_r. Qed.

Lemma batch_built w h hold b r d cap :
  Inv None w → w_handle w = Some h → h_outstanding h = false →
  drain_loop hold (h_pending h) [] [] = (b, r, d, cap) →
  let bs := if bool_decide (b = []) then w_batches w else w_batches w ++ [b] in
  Inv None (pumped (batch_handle h b r d cap) bs w) ∧ w ⊑ pumped (batch_handle h b r d cap) bs w.
Proof.
  intros Hi Hh Ho Hd bs. pose proof (i_handle _ _ Hi h Hh) as Hf.
  pose proof (drain_loop_perm _ _ _ _ _ _ _ _ Hd) as Hp. cbn [app] in Hp.
  destruct (drain_loop_shape _ _ _ _ _ _ _ _ Hd) as [Hlen H12]; [simpl; unfold BATCH_CAP; lia|constructor|].
  destruct (drain_loop_introduced (concat (w_batches w)) _ _ _ _ _ _ _ _ Hd) as (Hib & Hid & Hir);
    [constructor..|apply Hf|].
  assert (Hbs : concat bs = concat (w_batches w) ++ b).
  { unfold bs. case_bool_decide as Hb; [subst; by rewrite app_nil_r|apply concat_snoc]. }
  apply (pumped_inv w h); [done..| | |].
  - intros net ep. unfold announced, history, pending_of. rewrite Hh, Hbs. simpl.
    rewrite !elem_of_app. intros [?|Hin]; [tauto|]. rewrite <- Hp, !elem_of_app in Hin. tauto.
  - intros G. destruct Hf. split; simpl; rewrite ?Hbs.
    + eapply Forall_impl; [exact hf_nets|]. intros ? [? ?]. split; [done|]. by apply G.
    + done.
    + apply ok_queue_app. split.
      * eapply ok_queue_covers; [|by apply ok_queue_introduced]. intros ? ? ?. apply elem_of_app. by left.
      * eapply ok_queue_covers; [|exact Hir]. intros ? ?. rewrite !elem_of_app. tauto.
    + assert (Hl : ∀ P `{∀ x, Decision (P x)}, (length (filter P (d ++ r)) ≤ length (filter P (h_pending h)))%nat).
      { intros P ?. rewrite <- Hp, !filter_app, !length_app. lia. }
      specialize (Hl (λ c, sc_type c = 21) _). lia.
    + intros ty. rewrite count_of_foldr, hf_ledger, <- (of_type_perm ty _ _ Hp), !of_type_app. lia.
    + done.
    + intros Hb. unfold bs. rewrite bool_decide_false by done. apply last_snoc.
  - intros i c. unfold bs. case_bool_decide as Hb; [apply (i_batches _ _ Hi)|].
    intros [Hc|[-> [= <-]]]%lookup_snoc_Some.
    + destruct Hc as [Hlt Hc]. rewrite take_app_le by lia. by apply (i_batches _ _ Hi).
    + rewrite take_app_length. by split.
Qed.

Lemma ok_build_batch w h :
  Inv None w → w_handle w = Some h → h_outstanding h = false → ok build_batch w.
Proof.
  intros Hi Hh Ho. unfold build_batch, note_type12_hold.
  eapply good_bind with (R := λ _ w', w_handle w' = Some h).
  { eapply good_bind; [by apply quiet_observe|]. intros now w1 Hi1 G1 [Hheap1 Hh1].
    eapply good_bind; [apply good_get_h; [done|]; rewrite Hh1; eauto|].
    intros h' _ _ _ [-> Hh']. eapply good_mono; [apply ok_note_hold_loop; [done|]|].
    - eapply Forall_impl; [apply (i_handle _ _ Hi1 h' Hh')|]. by intros ? [].
    - simpl. intros _ w2 _ [-> _]. by rewrite Hh1. }
  intros [[holding timed_out] oldest] w1 Hi1 G1 Hh1. clear w Hi Hh G1.
  eapply good_bind; [apply good_get_h; [done|eauto]|].
  intros h' _ _ _ [-> Hh']. rewrite Hh1 in Hh'. injection Hh' as <-.
  destruct (drain_loop _ _ _ _) as [[[b r] d] cap] eqn:Hd.
  pose proof (batch_built w1 h _ _ _ _ _ Hi1 Hh1 Ho Hd) as [Hi2 G2].
  unfold good, wp, mbind. rewrite (mod_h_spec w1 h) by done.
  destruct w1 as [wh ? ? ? ? ? bs ?]. simpl in *.
  revert Hi2 G2. unfold batch_handle.
  destruct (bool_decide (b = [])); intros Hi2 G2; (split; [exact Hi2|split; [exact G2|done]]).
Qed.
End env.
