(* ===== verification/MeshRun.v ===== *)
(** * Runs of the Party shim

    The calls the title may make, the turns of the two worker threads and what
    arrives from the network, as a step relation; the invariant holds in every
    reachable world, and the safety properties follow. *)

From S2P Require Import Prelude RustStr Http LanCfg BTree Reliable Wire Descriptor Comp Mesh Outbox Peers Inbound PartyApi.
From S2P Require Import MeshInv MeshKeeps.
#[local] Open Scope Z_scope.
#[local] Open Scope comp_scope.

(** ** Calls and steps *)

Inductive Call :=
  | CInitialize (out_null : bool)
  | CCreateLocalUser (entity_id : option (list byte)) (out_null : bool)
  | CCreateNewNetwork (user : Z)
  | CConnect (desc : option Descriptor)
  | CAuthenticate (net user : Z)
  | CCreateEndpoint (net user : Z)
  | CSend (ep target_count options : Z) (buffers : option (list (option (list byte))))
  | CStart (out_null : bool)
  | CFinish (changes : option (list (option StateChange)))
  | CLeave (net : Z)
  | CDestroyLocalUser (user : Z)
  | CCleanup
  | CUserEntity (user : Z) (out_null : bool)
  | CEndpointEntity (ep : Z) (out_null : bool)
  | CEndpointUid (ep : Z) (out_null : bool)
  | CNetworkDescriptor (net : Z) (out_null : bool)
  | CGetNetworks
  | CSerialize (desc : option Descriptor) (out_null : bool)
  | CDeserialize (text : option (list byte)) (out : option Descriptor)
  | CSetWorkMode (thread mode : Z)
  | CErrorMessage (error : Z) (out_null : bool)
  | TTransport
  | TTransportDies
  | TBrokerTake
  | TBrokerFinish
  | TBrokerDies
  | EArrive (net : Z) (d : Datagram).

Section env.
Context `{E : Env}.

(** A datagram reaches a network's socket; nothing listens behind a closed one. *)
Definition arrive (net : Z) (d : Datagram) : M unit :=
  mod_net net (λ n, match n_udp n with Some q => set_udp (Some (q ++ [d])) n | None => n end).

Definition exec (c : Call) : M unit :=
  match c with
  | CInitialize o => PartyInitialize o;; mret tt
  | CCreateLocalUser e o => PartyCreateLocalUser e o;; mret tt
  | CCreateNewNetwork u => PartyCreateNewNetwork u;; mret tt
  | CConnect d => PartyConnectToNetwork d;; mret tt
  | CAuthenticate n u => PartyNetworkAuthenticateLocalUser n u;; mret tt
  | CCreateEndpoint n u => PartyNetworkCreateEndpoint n u;; mret tt
  | CSend e t o b => PartyEndpointSendMessage e t o b;; mret tt
  | CStart o => PartyStartProcessingStateChanges o;; mret tt
  | CFinish l => PartyFinishProcessingStateChanges l;; mret tt
  | CLeave n => PartyNetworkLeaveNetwork n;; mret tt
  | CDestroyLocalUser u => PartyDestroyLocalUser u;; mret tt
  | CCleanup => PartyCleanup;; mret tt
  | CUserEntity u o => PartyLocalUserGetEntityId u o;; mret tt
  | CEndpointEntity e o => PartyEndpointGetEntityId e o;; mret tt
  | CEndpointUid e o => PartyEndpointGetUniqueIdentifier e o;; mret tt
  | CNetworkDescriptor n o => PartyNetworkGetNetworkDescriptor n o;; mret tt
  | CGetNetworks => PartyGetNetworks;; mret tt
  | CSerialize d o => PartySerializeNetworkDescriptor d o;; mret tt
  | CDeserialize t o => PartyDeserializeNetworkDescriptor t o;; mret tt
  | CSetWorkMode t m => PartySetWorkMode t m;; mret tt
  | CErrorMessage e o => PartyGetErrorMessage e o;; mret tt
  | TTransport => transport_cycle;; mret tt
  | TTransportDies => transport_dies
  | TBrokerTake => broker_take
  | TBrokerFinish => broker_finish
  | TBrokerDies => broker_dies
  | EArrive n d => arrive n d
  end.

Definition null_or_user (w : World) (u : Z) : Prop := u = 0 ∨ is_Some (users w !! u).

(** The pointers the title passes are null where the API allows it, or pointers the shim gave it; a
    network is used in the session that created it. *)
Definition allowed (w : World) (c : Call) : Prop :=
  match c with
  | CCreateNewNetwork u | CUserEntity u _ => null_or_user w u
  | CAuthenticate n u => session_net w n ∧ null_or_user w u
  | CCreateEndpoint n u => (n = 0 ∨ session_net w n) ∧ null_or_user w u
  | CSend e _ _ _ | CEndpointEntity e _ | CEndpointUid e _ => null_or_ep w e
  | CFinish (Some l) => ∀ c, Some c ∈ l → ∀ n, finished10 c = Some n ∨ finished12 c = Some n → is_Some (nets w !! n)
  | CNetworkDescriptor n _ => null_or_net w n
  | TTransport => o_up (w_outbox w) = true
  | TBrokerTake | TBrokerFinish => b_up (w_broker w) = true
  | EArrive n _ => is_Some (nets w !! n)
  | _ => True
  end.

Definition mesh_step (w w' : World) : Prop := ∃ c, allowed w c ∧ exec c w = Some (tt, w').

(** ** Threads *)

Lemma quiet_outbox_flags f :
  (∀ ob, o_queue (f ob) = o_queue ob ∧ o_accepted (f ob) = o_accepted ob ∧ o_done (f ob) = o_done ob) →
  quiet (modify (λ w, w_set_outbox (f (w_outbox w)) w)).
Proof.
  intros Hf w Hi. unfold good, wp, modify. split; [|split; [by apply same_ok|done]].
  apply (same_inv None w); try done. simpl. destruct (i_jobs _ _ Hi).
  destruct (Hf (w_outbox w)) as (Hq & Ha & Hd). by split; rewrite ?Hq, ?Ha, ?Hd.
Qed.

Lemma quiet_note_party_thread : quiet note_party_thread.
Proof.
  unfold note_party_thread, ensure_transport_thread, ensure_broker_thread. quiet.
  by apply quiet_outbox_flags.
Qed.

Lemma quiet_transport_dies : quiet transport_dies.
Proof. unfold transport_dies. apply (quiet_outbox_flags (λ ob, set_up (o_started ob) false ob)). done. Qed.
Lemma quiet_broker_take : quiet broker_take.
Proof. unfold broker_take. quiet. Qed.
Lemma quiet_broker_finish : quiet broker_finish.
Proof. unfold broker_finish. pose proof quiet_broker_run. quiet. Qed.
Lemma quiet_broker_dies : quiet broker_dies.
Proof. unfold broker_dies. quiet. Qed.

(** Every export starts by making sure the threads run. *)
Lemma ok_export {A} (m : M A) w :
  Inv None w → (∀ w', Inv None w' → w ⊑ w' → ok m w') → ok (note_party_thread;; m) w.
Proof. intros Hi Hm. eapply ok_seq; [by apply ok_quiet; [apply quiet_note_party_thread|]|]. auto. Qed.

(** ** Setup *)

Lemma ok_mod_h f w :
  Inv None w → is_Some (w_handle w) →
  (∀ h, w_handle w = Some h →
     (h_pending (f h) = h_pending h ∧ h_in_flight (f h) = h_in_flight h ∧ h_outstanding (f h) = h_outstanding h) ∧
     (handle_fine w h → handle_fine w (f h))) →
  ok (mod_h f) w.
Proof.
  intros Hi [h Hh] Hf. unfold good, wp. rewrite (mod_h_spec w h) by done.
  destruct (Hf h Hh) as [(Hp & Hfl & Ho) Hfine].
  assert (G : w ⊑ w_set_handle (Some (f h)) w).
  { apply (handle_grows w h); [done| |by rewrite Hp]. rewrite Ho. auto. }
  split; [|by split]. eapply handle_inv; [done|done| |done].
  eapply handle_fine_grows; [done|done|]. by apply Hfine, Hi.
Qed.

Lemma handle_fine_networks w h l :
  Forall (session_net w) l → handle_fine w h → handle_fine w (set_networks l h).
Proof. intros Hl []. by split. Qed.

Lemma ok_push_network p w :
  Inv None w → is_Some (w_handle w) → session_net w p →
  ok (mod_h (λ h, set_networks (h_networks h ++ [p]) h)) w.
Proof.
  intros Hi Hh Hp. apply ok_mod_h; [done..|]. intros h _. split; [done|]. intros Hf.
  apply handle_fine_networks; [|done]. apply Forall_app. split; [apply Hf|by constructor].
Qed.

Lemma null_or_user_grows w w' u : w ⊑ w' → null_or_user w u → null_or_user w' u.
Proof. intros G [?|?]; [by left|right; by apply G]. Qed.
#[local] Hint Resolve null_or_user_grows session_is_net : mesh.

Lemma ok_create_local_user e o w : Inv None w → ok (PartyCreateLocalUser e o) w.
Proof.
  intros Hi0. apply ok_export; [done|]. intros w' Hi _. destruct o; [mesh|].
  eapply good_bind; [by apply good_new_user|]. intros p w1 Hi1 G1 [Hp _].
  eapply ok_seq; [|intros; mesh]. apply ok_with_handle; [done|]. intros Hh.
  apply ok_mod_h; [done..|]. intros h _. split; [done|]. intros []. split; simpl; auto.
  apply Forall_app. split; [done|by constructor].
Qed.

Lemma good_fresh_network desc user port w :
  Inv None w → null_or_user w user →
  good None (fresh_network desc user port)
    (λ p w', session_net w' p ∧ p ≠ 0 ∧ ∃ n, nets w' !! p = Some n ∧ n_user n = user ∧ n_desc n = desc) w.
Proof.
  intros Hi Hu. unfold fresh_network.
  eapply good_bind; [by apply quiet_observe|]. intros t1 w1 Hi1 G1 _.
  eapply good_bind; [by apply quiet_fetch|]. intros ep w2 Hi2 G2 _.
  eapply good_bind; [by apply quiet_observe|]. intros t2 w3 Hi3 G3 _.
  eapply good_mono; [apply good_new_net; [done|]|].
  - split; simpl.
    + apply (null_or_user_grows w2); [done|]. apply (null_or_user_grows w1); [done|]. by apply (null_or_user_grows w).
    + by left.
    + intros k e. by rewrite lookup_empty.
    + intros _ k e. by rewrite lookup_empty.
    + rewrite map_size_empty. unfold REMOTE_CAP. lia.
    + unfold PENDING_PEERS_CAP. lia.
    + constructor.
  - simpl. intros p w4 _ (? & ? & Hp & _). split; [done|]. split; [done|]. eexists. by split; [exact Hp|].
Qed.

Lemma ok_register_member n ent w : Inv None w → ok (register_member n ent) w.
Proof. intros. by apply ok_quiet; [apply quiet_register|]. Qed.

Lemma ok_create_new_network user w :
  Inv None w → null_or_user w user → ok (PartyCreateNewNetwork user) w.
Proof.
  intros Hi0 Hu0. apply ok_export; [done|]. intros w0 Hi G0.
  assert (Hu : null_or_user w0 user) by mesh.
  eapply ok_seq; [by apply ok_quiet; [apply quiet_fetch|]|]. intros k w1 Hi1 G1.
  eapply ok_seq; [by apply ok_quiet; [apply quiet_observe|]|]. intros nanos w2 Hi2 G2. cbv zeta.
  eapply ok_seq; [by apply ok_quiet; [apply quiet_bind_udp|]|]. intros [port|] w3 Hi3 G3; [|mesh].
  eapply ok_seq; [by apply ok_quiet; [apply quiet_lan_ip|]|]. intros advert w4 Hi4 G4.
  eapply good_bind; [apply good_fresh_network; mesh|]. intros net w5 Hi5 G5 (Hnet & H0 & _).
  eapply good_bind; [apply good_get_net; mesh|]. intros n _ _ _ [-> Hn].
  eapply good_bind; [by eapply good_local_entity|]. intros ent _ _ _ ->.
  eapply ok_seq; [destruct (bool_decide _); [mesh|by apply ok_register_member]|]. intros _ w6 Hi6 G6.
  eapply ok_seq; [|intros; mesh]. apply ok_with_handle; [done|]. intros Hh.
  eapply ok_seq; [apply ok_push_network; mesh|]. intros _ w7 Hi7 G7.
  eapply ok_weaken, good_queue_sc; [done|mesh|done].
Qed.

Lemma ok_emit_connect_completed net w :
  Inv None w → is_Some (w_handle w) → null_or_net w net → ok (emit_connect_completed net) w.
Proof.
  intros Hi Hh Hnet. unfold emit_connect_completed. destruct (net =? 0) eqn:H0; bool_props; [mesh|].
  destruct Hnet as [|Hnet]; [done|].
  eapply good_bind; [by apply good_get_net|]. intros n _ _ _ [-> Hn].
  destruct (n_connected n); [mesh|].
  eapply ok_seq; [apply ok_mod_net; [done..|intros; by apply neutral_all]|]. intros _ w1 Hi1 G1.
  eapply ok_weaken, good_queue_sc; [done|mesh|done].
Qed.

Lemma good_find_network ident l w :
  Inv None w → Forall (λ p, is_Some (nets w !! p)) l →
  good None (find_network ident l) (λ r w', w' = w ∧ ∀ p, r = Some p → p ∈ l) w.
Proof.
  intros Hi. induction l as [|p l IH]; intros Hl; simpl; [by apply good_ret|].
  apply Forall_cons in Hl as [Hp Hl].
  eapply good_bind; [by apply good_get_net|]. intros n _ _ _ [-> Hn].
  destruct (bool_decide _).
  - apply good_ret; [done|]. split; [done|]. intros ? [= <-]. by left.
  - eapply good_mono; [by apply IH|]. simpl. intros r w' _ [-> Hr]. split; [done|].
    intros q ?. right. by apply Hr.
Qed.

Lemma ok_connect_network desc w :
  Inv None w → is_Some (w_handle w) → ok (connect_network desc) w.
Proof.
  intros Hi Hh. unfold connect_network.
  eapply good_bind; [by apply good_get_h|]. intros h _ _ _ [-> Hh'].
  pose proof (i_handle _ _ Hi h Hh') as Hf.
  assert (Hv : Forall (λ p, is_Some (nets w !! p)) (h_networks h)).
  { eapply Forall_impl; [apply Hf|]. by intros ? []. }
  eapply good_bind; [by apply good_find_network|]. intros [net|] _ _ _ [-> Hfound].
  - rewrite Forall_forall in Hv. specialize (Hv net (Hfound net eq_refl)).
    eapply ok_seq; [apply ok_emit_connect_completed; [done..|by right]|]. intros _ w1 Hi1 G1.
    eapply ok_seq; [apply ok_poll_peers_request; [done|right; mesh]|]. intros; mesh.
  - eapply ok_seq; [by apply ok_quiet; [apply quiet_bind_udp|]|]. intros [port|] w1 Hi1 G1; [|mesh].
    set (user := default 0 (last (h_users h))).
    assert (Hu : null_or_user w1 user).
    { unfold user. destruct (last (h_users h)) as [u|] eqn:Hl; [right|by left]. simpl. apply G1.
      pose proof (hf_users _ _ Hf) as Hus. rewrite Forall_forall in Hus. apply Hus.
      apply last_Some in Hl as [l' ->]. apply elem_of_app. right. by left. }
    eapply good_bind; [by apply good_fresh_network|]. intros net w2 Hi2 G2 (Hnet & H0 & _).
    eapply good_bind; [apply good_get_net; mesh|]. intros n _ _ _ [-> Hn].
    eapply ok_seq.
    { destruct (user =? 0) eqn:Hu0; bool_props; [mesh|]. destruct Hu as [|Hu]; [done|].
      apply G2 in Hu as [u Hu]. eapply ok_seq; [|intros; by apply ok_register_member].
      unfold good, wp, get_user. rewrite Hu. simpl. split; [done|]. by split. }
    intros _ w3 Hi3 G3.
    eapply ok_seq; [apply ok_push_network; mesh|]. intros _ w4 Hi4 G4.
    assert (is_Some (nets w4 !! net)) by mesh.
    eapply ok_seq; [apply ok_emit_connect_completed; [done|mesh|by right]|]. intros _ w5 Hi5 G5.
    eapply ok_seq; [apply ok_poll_peers_request; [done|right; mesh]|]. intros _ w6 Hi6 G6.
    eapply ok_seq; [eapply ok_weaken, good_send_transport_control; mesh|]. intros; mesh.
Qed.

Lemma ok_connect desc w : Inv None w → ok (PartyConnectToNetwork desc) w.
Proof.
  intros Hi0. apply ok_export; [done|]. intros w0 Hi G0. destruct desc as [desc|]; [|mesh].
  eapply ok_seq; [|intros; destruct (_ =? 0); mesh].
  apply ok_with_handle; [done|]. intros. by apply ok_connect_network.
Qed.

Lemma ok_user_entity user d w : Inv None w → null_or_user w user →
  ok (if user =? 0 then mret d else get_user user) w.
Proof.
  intros Hi Hu. destruct (user =? 0) eqn:H0; bool_props; [mesh|].
  destruct Hu as [|[u Hu]]; [done|]. unfold good, wp, get_user. rewrite Hu. simpl.
  split; [done|]. by split.
Qed.

Lemma ok_authenticate net user w :
  Inv None w → session_net w net → null_or_user w user → ok (PartyNetworkAuthenticateLocalUser net user) w.
Proof.
  intros Hi0 Hn0 Hu0. apply ok_export; [done|]. intros w0 Hi G0.
  eapply ok_seq; [apply ok_user_entity; mesh|]. intros _ w1 Hi1 G1.
  eapply ok_seq; [|intros; mesh]. apply ok_with_handle; [done|]. intros Hh.
  eapply good_bind; [by apply good_get_h|]. intros h _ _ _ [-> Hh'].
  eapply ok_seq; [destruct (bool_decide _); [mesh|apply ok_push_network; mesh]|]. intros _ w2 Hi2 G2.
  eapply ok_weaken, good_queue_sc; [done|mesh|done].
Qed.

Lemma ok_create_endpoint net user w :
  Inv None w → net = 0 ∨ session_net w net → null_or_user w user → ok (PartyNetworkCreateEndpoint net user) w.
Proof.
  intros Hi0 Hn0 Hu0. apply ok_export; [done|]. intros w0 Hi G0.
  eapply ok_seq; [by apply ok_quiet; [apply quiet_fetch|]|]. intros uid w1 Hi1 G1.
  eapply ok_seq; [apply ok_user_entity; mesh|]. intros ent w2 Hi2 G2.
  assert (Hn : net = 0 ∨ session_net w2 net) by (destruct Hn0; [by left|right; mesh]).
  eapply good_bind.
  { apply good_new_ep; [done|]. split; simpl; [|done|done]. destruct Hn as [|[]]; [by left|by right]. }
  intros ep w3 Hi3 G3 (_ & Hep & _). eapply ok_seq; [|intros; mesh].
  apply ok_with_handle; [done|]. intros Hh.
  assert (Hus : null_or_user w3 user) by mesh.
  destruct (net =? 0) eqn:H0; bool_props.
  - eapply ok_seq; [mesh|]. intros _ w4 Hi4 G4.
    eapply ok_seq; [eapply ok_weaken, good_queue_sc; [done|mesh|done]|]. intros; mesh.
  - destruct Hn as [|Hn]; [done|]. eapply ok_seq.
    { apply ok_mod_net; [done|mesh|]. intros n []. split; simpl; auto. }
    intros _ w4 Hi4 G4.
    eapply ok_seq; [eapply ok_weaken, good_queue_sc; [done|mesh|done]|]. intros _ w5 Hi5 G5.
    apply ok_flush_pending_rx; mesh.
Qed.

(** ** Sending *)

Lemma ok_send_message ep tc opts bufs w :
  Inv None w → null_or_ep w ep → ok (PartyEndpointSendMessage ep tc opts bufs) w.
Proof.
  intros Hi0 He0. apply ok_export; [done|]. intros w0 Hi G0. destruct bufs as [bufs|]; [|mesh].
  destruct (ep =? 0) eqn:H0; bool_props; cbn [orb]; [mesh|]. destruct (_ || _); [mesh|].
  destruct (8 <? tc); [mesh|]. destruct bufs as [|[payload|] bufs]; [mesh| |mesh].
  destruct (_ || _); [mesh|].
  assert (He : is_Some (eps w0 !! ep)) by (destruct He0; [done|mesh]).
  eapply good_bind; [by apply good_get_ep|]. intros e _ _ _ [-> He'].
  destruct (i_eps _ _ Hi ep e He') as [_ [Hnet _ _]].
  destruct (e_network e =? 0) eqn:Hz; bool_props; [mesh|]. destruct Hnet as [|Hnet]; [done|].
  eapply ok_seq; [|intros; mesh]. unfold send_transport_msg.
  eapply good_bind; [by apply good_gets|]. intros up _ _ _ [_ ->].
  destruct up; [eapply ok_weaken, good_enqueue_out; [done|by right]|].
  by eapply ok_weaken, good_send_udp_all.
Qed.

(** ** The pump *)

Lemma ok_any_announce l w :
  Inv None w → Forall (λ p, is_Some (nets w !! p)) l → good None (any_announce l) (λ _ w', w' = w) w.
Proof.
  intros Hi. induction l as [|p l IH]; intros Hl; simpl; [by apply good_ret|].
  apply Forall_cons in Hl as [Hp Hl].
  eapply good_bind; [by apply good_get_net|]. intros n _ _ _ [-> Hn].
  destruct (_ || _); [by apply good_ret|by apply IH].
Qed.

Lemma networks_valid w h :
  Inv None w → w_handle w = Some h → Forall (λ p, is_Some (nets w !! p)) (h_networks h).
Proof. intros Hi Hh. eapply Forall_impl; [apply (i_handle _ _ Hi h Hh)|]. by intros ? []. Qed.

Lemma ok_poll_tick w : Inv None w → is_Some (w_handle w) → ok poll_tick w.
Proof.
  intros Hi Hh. unfold poll_tick.
  eapply good_bind; [by apply good_get_h|]. intros h _ _ _ [-> Hh'].
  pose proof (networks_valid w h Hi Hh') as Hv.
  eapply good_bind; [by apply ok_any_announce|]. intros announce _ _ _ ->.
  eapply ok_seq.
  { destruct announce; [mesh|]. eapply ok_seq; [by apply ok_quiet; [apply quiet_elapsed|]|]. intros; mesh. }
  intros go w1 Hi1 G1. destruct (negb go); [mesh|].
  eapply ok_seq; [by apply ok_quiet; [apply quiet_observe|]|]. intros t w2 Hi2 G2.
  eapply ok_seq.
  { apply ok_mod_h; [done|mesh|]. intros h' _. split; [done|]. intros []. by split. }
  intros _ w3 Hi3 G3. rewrite Forall_forall in Hv.
  apply good_for_each; [done|]. intros p w4 Hp%Hv Hi4 G4.
  assert (is_Some (nets w4 !! p)) by mesh.
  eapply ok_seq.
  { destruct (p =? 0); [mesh|]. apply ok_mod_net; [done..|intros; by apply neutral_all]. }
  intros _ w5 Hi5 G5. apply ok_poll_peers_request; [done|right; mesh].
Qed.

Lemma ok_live_epochs l w :
  Inv None w → Forall (λ p, is_Some (nets w !! p)) l → ok (live_epochs l) w.
Proof.
  intros Hi. induction l as [|p l IH]; intros Hl; simpl; [mesh|].
  apply Forall_cons in Hl as [Hp Hl]. destruct (p =? 0); [by apply IH|].
  eapply good_bind; [by apply good_get_net|]. intros n _ _ _ [-> Hn].
  eapply ok_seq; [by apply IH|]. intros; mesh.
Qed.

Lemma ok_apply_tick w : Inv None w → is_Some (w_handle w) → ok apply_tick w.
Proof.
  intros Hi Hh. unfold apply_tick. eapply good_bind; [by apply good_gets|]. intros b _ _ _ [_ ->].
  destruct (_ =? _)%nat; [mesh|].
  eapply good_bind; [by apply good_get_h|]. intros h _ _ _ [-> Hh'].
  pose proof (networks_valid w h Hi Hh') as Hv.
  eapply ok_seq; [by apply ok_live_epochs|]. intros live w1 Hi1 G1.
  eapply ok_seq; [by apply ok_quiet; [apply quiet_drop_stale|]|]. intros _ w2 Hi2 G2.
  rewrite Forall_forall in Hv. apply good_for_each; [done|]. intros p w3 Hp%Hv Hi3 G3.
  destruct (p =? 0); [mesh|]. apply ok_poll_peers_apply; [done|mesh|right; mesh].
Qed.

Lemma ok_candidates_tick w : Inv None w → is_Some (w_handle w) → ok candidates_tick w.
Proof.
  intros Hi Hh. unfold candidates_tick.
  eapply good_bind; [by apply good_get_h|]. intros h _ _ _ [-> Hh'].
  pose proof (networks_valid w h Hi Hh') as Hv. rewrite Forall_forall in Hv.
  apply good_for_each; [done|]. intros p w1 Hp%Hv Hi1 G1.
  apply ok_drain_pending_peers; [done|mesh|right; mesh].
Qed.

(** The array given to the title is the handle's. *)
Lemma good_start_processing w :
  Inv None w → is_Some (w_handle w) →
  good None start_processing (λ l w', ∃ h, w_handle w' = Some h ∧ l = h_in_flight h) w.
Proof.
  intros Hi Hh. unfold start_processing.
  eapply ok_seq; [by apply ok_quiet; [apply quiet_observe|]|]. intros now w1 Hi1 G1.
  eapply good_bind; [by apply good_gets|]. intros up _ _ _ [_ ->].
  eapply ok_seq.
  { apply good_when; [done|]. intros _.
    eapply ok_seq; [by apply ok_service_outbox|]. intros _ w2 Hi2 G2.
    eapply ok_seq; [apply ok_recv_udp; mesh|]. intros _ w3 Hi3 G3. apply ok_reliable_service; mesh. }
  intros _ w2 Hi2 G2.
  eapply ok_seq; [apply ok_poll_tick; mesh|]. intros _ w3 Hi3 G3.
  eapply ok_seq; [apply ok_apply_tick; mesh|]. intros _ w4 Hi4 G4.
  eapply ok_seq; [apply ok_candidates_tick; mesh|]. intros _ w5 Hi5 G5.
  eapply good_bind; [apply good_get_h; mesh|]. intros h _ _ _ [-> Hh'].
  eapply ok_seq; [apply good_when; [done|]; intros Hb; bool_props; by eapply ok_build_batch|]. intros _ w6 Hi6 G6.
  eapply good_bind; [apply good_get_h; mesh|]. intros h6 _ _ _ [-> Hh6].
  apply good_ret; [done|]. eauto.
Qed.

Lemma good_start w :
  Inv None w →
  good None (PartyStartProcessingStateChanges false)
    (λ r w', r = (SUCCESS, h_in_flight <$> w_handle w')) w.
Proof.
  intros Hi0. unfold PartyStartProcessingStateChanges.
  eapply good_bind; [by apply quiet_note_party_thread|]. intros _ w0 Hi _ _.
  eapply good_bind with (R := λ l w', l = h_in_flight <$> w_handle w').
  - unfold with_handle. eapply good_bind; [by apply good_gets|]. intros oh _ _ _ [-> ->].
    destruct (w_handle w0) as [h|] eqn:Hh; [|apply good_ret; [done|]; by rewrite Hh].
    eapply good_bind; [apply good_start_processing; [done|]; rewrite Hh; eauto|].
    intros l w1 Hi1 _ (h1 & Hh1 & ->). apply good_ret; [done|]. by rewrite Hh1.
  - intros l w1 Hi1 _ ->. by apply good_ret.
Qed.

Lemma ok_start o w : Inv None w → ok (PartyStartProcessingStateChanges o) w.
Proof.
  intros Hi. destruct o; [|by eapply ok_weaken, good_start].
  apply ok_export; [done|]. intros; mesh.
Qed.

(** The flags, then the reclaim of the batch. *)
Lemma ok_finish_flags (back : list StateChange) w :
  Inv None w →
  (∀ c n, c ∈ back → finished10 c = Some n ∨ finished12 c = Some n → is_Some (nets w !! n)) →
  ok (for_each (omap finished10 back) (λ net, mod_net net set_type10);;
      for_each (omap finished12 back) (λ net, mod_net net set_type12)) w.
Proof.
  intros Hi Hback. eapply ok_seq.
  { apply good_for_each; [done|]. intros n w1 (x & Hx & Hn)%list_elem_of_omap Hi1 G1.
    apply ok_mod_net; [done|apply G1; eauto|intros; by apply neutral_all]. }
  intros _ w1 Hi1 G1. apply good_for_each; [done|]. intros n w2 (x & Hx & Hn)%list_elem_of_omap Hi2 G2.
  apply ok_mod_net; [done|apply G2, G1; eauto|intros; by apply neutral_all].
Qed.

Lemma finish_inv l w :
  Inv None w → allowed w (CFinish l) →
  wp (PartyFinishProcessingStateChanges l) (λ _ w', Inv None w') w.
Proof.
  intros Hi0 Ha. unfold PartyFinishProcessingStateChanges. rewrite wp_bind.
  eapply wp_mono; [by apply quiet_note_party_thread|]. intros _ w0 (Hi & G0 & _).
  destruct l as [[|c l]|]; [done| |done]. cbv zeta. set (back := omap id (take 64 (c :: l))).
  assert (Hback : ∀ c0 n, c0 ∈ back → finished10 c0 = Some n ∨ finished12 c0 = Some n → is_Some (nets w0 !! n)).
  { intros c0 n Hin Hn. apply G0. apply (Ha c0); [|done].
    unfold back in Hin. apply list_elem_of_omap in Hin as (x & Hx & Hid).
    unfold id in Hid. subst x.
    rewrite <- (take_drop 64 (c :: l)). apply elem_of_app. by left. }
  rewrite wp_bind. unfold with_handle. rewrite wp_bind, wp_gets.
  destruct (w_handle w0) as [h0|] eqn:Hh0; [|exact Hi].
  pose proof (ok_finish_flags back w0 Hi Hback) as Hflags. unfold good in Hflags.
  rewrite wp_bind in Hflags. rewrite wp_bind. eapply wp_mono; [exact Hflags|]. simpl.
  intros _ w1 H1. rewrite wp_bind. eapply wp_mono; [exact H1|]. simpl.
  intros _ w2 (Hi2 & G2 & _). destruct (gr_flight _ _ G2 h0 Hh0) as (h2 & Hh2 & _).
  unfold wp. rewrite (mod_h_spec w2 h2) by done. cbn [mret].
  destruct (i_handle _ _ Hi2 h2 Hh2). destruct Hi2. split; simpl; auto.
  - intros p n Hp. destruct (i_nets p n Hp) as [? []]. split; [done|]. split; auto.
    intros Hs k e Hk. destruct (nf_announced Hs k e Hk) as [Hann|]; [left|done].
    revert Hann. unfold announced, history, pending_of. simpl. by rewrite Hh2.
  - intros p e Hp. destruct (i_eps p e Hp) as [? []]. split; [done|]. by split.
  - intros ? [= <-]. split; try eassumption; done.
  - destruct i_jobs. by split.
Qed.

(** ** Teardown *)

Lemma ok_reset_endpoint ep w : Inv None w → null_or_ep w ep → ok (reset_endpoint ep) w.
Proof.
  intros Hi He. unfold reset_endpoint. destruct (ep =? 0) eqn:H0; bool_props; [mesh|].
  destruct He as [|He]; [done|]. apply ok_mod_ep; [done..|]. intros e []. by split.
Qed.

Lemma ok_close_network net w : Inv None w → is_Some (nets w !! net) → ok (close_network net) w.
Proof.
  intros Hi Hn. unfold close_network.
  eapply ok_seq.
  { apply ok_mod_net; [done..|]. intros n Hf. apply neutral_all. by apply neutral_all. }
  intros _ w1 Hi1 G1.
  eapply good_bind; [apply good_get_net; mesh|]. intros n _ _ _ [-> Hn1].
  apply good_for_each; [done|]. intros ep w2 Hep Hi2 G2.
  apply ok_reset_endpoint; [done|]. right. apply G2. by eapply remote_valid.
Qed.

Lemma ok_leave net w : Inv None w → ok (PartyNetworkLeaveNetwork net) w.
Proof.
  intros Hi0. apply ok_export; [done|]. intros w0 Hi G0.
  eapply ok_seq; [|intros; mesh]. apply ok_with_handle; [done|]. intros Hh. unfold leave_network.
  eapply ok_seq; [eapply ok_weaken, good_queue_sc; [done|mesh|done]|]. intros _ w1 Hi1 G1.
  eapply good_bind; [apply good_get_h; mesh|]. intros h _ _ _ [-> Hh1].
  eapply ok_seq.
  { case_bool_decide as Hin; [|mesh].
    pose proof (networks_valid w1 h Hi1 Hh1) as Hv. rewrite Forall_forall in Hv. specialize (Hv net Hin).
    eapply good_bind; [by apply good_get_net|]. intros n _ _ _ [-> Hn].
    eapply good_bind; [by eapply good_local_entity|]. intros ent _ _ _ ->.
    eapply ok_seq; [destruct (bool_decide _); [mesh|by apply ok_quiet; [apply quiet_dispatch_broker|]]|].
    intros _ w2 Hi2 G2.
    eapply ok_seq; [by apply ok_drain_outbox_for|]. intros _ w3 Hi3 G3. apply ok_close_network; mesh. }
  intros _ w2 Hi2 G2. apply ok_mod_h; [done|mesh|]. intros h2 Hh2. split; [done|].
  apply handle_fine_networks. pose proof (hf_nets _ _ (i_handle _ _ Hi2 h2 Hh2)) as Hf.
  rewrite Forall_forall in Hf |- *. intros p [_ ?]%list_elem_of_filter. by apply Hf.
Qed.

Lemma ok_destroy_local_user user w : Inv None w → ok (PartyDestroyLocalUser user) w.
Proof.
  intros Hi0. apply ok_export; [done|]. intros w0 Hi G0.
  eapply ok_seq; [|intros; mesh]. apply ok_with_handle; [done|]. intros Hh.
  apply ok_mod_h; [done..|]. intros h _. split; [done|]. intros []. split; simpl; auto.
  rewrite Forall_forall in *. intros p [_ ?]%list_elem_of_filter. auto.
Qed.

(** A session starts or ends: no network of it exists yet. *)
Definition new_session (oh : option Handle) (w : World) : World :=
  w_set_session (hp_next (w_heap w)) (w_set_handle oh w).

Lemma new_session_inv oh w :
  Inv None w → (∀ h, oh = Some h → h_networks h = [] ∧ h_users h = [] ∧ h_pending h = [] ∧
    h_in_flight h = [] ∧ h_outstanding h = false ∧ h_ledger h = Ledger_default) →
  Inv None (new_session oh w).
Proof.
  intros Hi Hoh. pose proof (i_next _ _ Hi). destruct Hi. split; simpl; auto; try lia.
  - intros p n Hp. destruct (i_nets p n Hp) as [? []]. split; [done|]. split; auto. simpl. lia.
  - intros p e Hp. destruct (i_eps p e Hp) as [? []]. split; [done|]. by split.
  - intros h Hh. destruct (Hoh h Hh) as (Hn & Hu & Hp & Hf & Ho & Hl).
    split; rewrite ?Hn, ?Hu, ?Hp, ?Hf, ?Ho, ?Hl; try done. simpl. unfold MESH_PENDING_CAP. lia.
  - destruct i_jobs. by split.
Qed.

Lemma ok_cleanup_flush w : Inv None w →
  ok (with_handle
    (let* h := get_h in
     for_each (h_networks h) (λ p, if p =? 0 then mret tt else drain_outbox_for p);;
     for_each (h_networks h) (λ p, if p =? 0 then mret tt else close_network p)) tt) w.
Proof.
  intros Hi. apply ok_with_handle; [done|]. intros Hh.
  eapply good_bind; [by apply good_get_h|]. intros h _ _ _ [-> Hh'].
  pose proof (networks_valid w h Hi Hh') as Hv. rewrite Forall_forall in Hv.
  eapply ok_seq.
  { apply good_for_each; [done|]. intros p w1 _ Hi1 G1. destruct (p =? 0); [mesh|]. by apply ok_drain_outbox_for. }
  intros _ w1 Hi1 G1. apply good_for_each; [done|]. intros p w2 Hp%Hv Hi2 G2.
  destruct (p =? 0); [mesh|]. apply ok_close_network; mesh.
Qed.

(** ** The invariant of every run *)

Lemma ok_user_getter u o w : Inv None w → null_or_user w u → ok (PartyLocalUserGetEntityId u o) w.
Proof.
  intros Hi Hu. apply ok_export; [done|]. intros w0 Hi0 G0. destruct (u =? 0) eqn:H0; bool_props; cbn [orb]; [mesh|].
  destruct o; [mesh|]. destruct Hu as [|Hu]; [done|]. pose proof (gr_users _ _ G0 _ Hu) as [x Hx].
  eapply ok_seq; [|intros; mesh]. unfold good, wp, get_user. simpl. rewrite Hx. split; [done|]. by split.
Qed.

Lemma ok_ep_getter {A} (f : Endpoint → A) ep o w :
  Inv None w → null_or_ep w ep →
  ok (note_party_thread;;
      (if (ep =? 0) || o then mret (ERR, None) else let* e := get_ep ep in mret (SUCCESS, Some (f e)))) w.
Proof.
  intros Hi He. apply ok_export; [done|]. intros w0 Hi0 G0. destruct (ep =? 0) eqn:H0; bool_props; cbn [orb]; [mesh|].
  destruct o; [mesh|]. destruct He as [|He]; [done|].
  eapply good_bind; [apply good_get_ep; mesh|]. intros; mesh.
Qed.

Lemma ok_net_getter net o w : Inv None w → null_or_net w net → ok (PartyNetworkGetNetworkDescriptor net o) w.
Proof.
  intros Hi He. apply ok_export; [done|]. intros w0 Hi0 G0. destruct (net =? 0) eqn:H0; bool_props; cbn [orb]; [mesh|].
  destruct o; [mesh|]. destruct He as [|He]; [done|].
  eapply good_bind; [apply good_get_net; mesh|]. intros; mesh.
Qed.

Lemma ok_get_networks w : Inv None w → ok PartyGetNetworks w.
Proof.
  intros Hi. apply ok_export; [done|]. intros w0 Hi0 G0. eapply ok_seq; [|intros; mesh].
  apply ok_with_handle; [done|]. intros Hh. eapply good_bind; [by apply good_get_h|]. intros; mesh.
Qed.

Lemma ok_serialize d o w : Inv None w → ok (PartySerializeNetworkDescriptor d o) w.
Proof.
  intros Hi. apply ok_export; [done|]. intros w0 Hi0 G0. destruct d as [d|]; [|mesh]. destruct o; [mesh|].
  destruct (desc_advert_ip d); [mesh|].
  eapply good_bind; [by apply quiet_lan_ip|]. intros; mesh.
Qed.

Lemma initialize_inv o w : Inv None w → wp (PartyInitialize o) (λ _ w', Inv None w') w.
Proof.
  intros Hi0. unfold PartyInitialize. rewrite wp_bind.
  eapply wp_mono; [by apply quiet_note_party_thread|]. intros _ w0 (Hi & _). destruct o; [done|].
  rewrite wp_bind. eapply wp_mono; [by apply quiet_observe|]. intros t w1 (Hi1 & _).
  unfold wp. simpl. apply (new_session_inv (Some _)); [done|]. by intros h [= <-].
Qed.

Lemma cleanup_inv w : Inv None w → wp PartyCleanup (λ _ w', Inv None w') w.
Proof.
  intros Hi0. unfold PartyCleanup. rewrite wp_bind.
  eapply wp_mono; [by apply quiet_note_party_thread|]. intros _ w0 (Hi & _).
  rewrite wp_bind. eapply wp_mono; [by apply ok_cleanup_flush|]. intros _ w1 (Hi1 & _).
  unfold wp. simpl. by apply (new_session_inv None).
Qed.

Lemma ok_arrive net d w : Inv None w → is_Some (nets w !! net) → ok (arrive net d) w.
Proof.
  intros Hi Hn. apply ok_mod_net; [done..|]. intros n Hf. destruct (n_udp n); [by apply neutral_all|done].
Qed.

(** The calls that neither return a batch nor start or end a session. *)
Definition ordinary (c : Call) : bool :=
  match c with CInitialize _ | CCleanup | CFinish _ => false | _ => true end.

Lemma ok_exec c w : Inv None w → allowed w c → ordinary c = true → ok (exec c) w.
Proof.
  intros Hi Ha Ho.
  assert (Hseq : ∀ A (m : M A), ok m w → ok (m;; mret tt) w).
  { intros A m Hm. eapply ok_seq; [exact Hm|]. intros; mesh. }
  destruct c; simpl in *; try done; try apply Hseq.
  - by apply ok_create_local_user.
  - by apply ok_create_new_network.
  - by apply ok_connect.
  - destruct Ha. by apply ok_authenticate.
  - destruct Ha. by apply ok_create_endpoint.
  - by apply ok_send_message.
  - by apply ok_start.
  - by apply ok_leave.
  - by apply ok_destroy_local_user.
  - by apply ok_user_getter.
  - by apply (ok_ep_getter e_entity).
  - by apply (ok_ep_getter e_uid).
  - by apply ok_net_getter.
  - by apply ok_get_networks.
  - by apply ok_serialize.
  - by apply ok_export; [|intros; mesh].
  - by apply ok_export; [|intros; mesh].
  - apply ok_export; [done|]. intros w0 Hi0 G0. destruct out_null; mesh.
  - by apply ok_transport_cycle.
  - by apply ok_quiet; [apply quiet_transport_dies|].
  - by apply ok_quiet; [apply quiet_broker_take|].
  - by apply ok_quiet; [apply quiet_broker_finish|].
  - by apply ok_quiet; [apply quiet_broker_dies|].
  - by apply ok_arrive.
Qed.

Lemma exec_inv c w : Inv None w → allowed w c → wp (exec c) (λ _ w', Inv None w') w.
Proof.
  intros Hi Ha. destruct (ordinary c) eqn:Ho.
  - eapply wp_mono; [by apply ok_exec|]. by intros _ w' (? & _).
  - destruct c; try done; simpl; rewrite wp_bind.
    + eapply wp_mono; [by apply initialize_inv|]. auto.
    + eapply wp_mono; [by apply finish_inv|]. auto.
    + eapply wp_mono; [by apply cleanup_inv|]. auto.
Qed.

Lemma world_init_inv : Inv None world_init.
Proof.
  split; simpl.
  - lia.
  - by intros p [? ?%lookup_empty_Some].
  - by intros p n ?%lookup_empty_Some.
  - by intros p e ?%lookup_empty_Some.
  - done.
  - by split.
  - intros i b. by rewrite lookup_nil.
Qed.

Lemma reachable_inv w : rtc mesh_step world_init w → Inv None w.
Proof.
  intros Hr. apply (rtc_invariant mesh_step (Inv None)) with world_init; [|done|apply world_init_inv].
  clear w Hr. intros w w' (c & Ha & He) Hi. pose proof (exec_inv c w Hi Ha) as Hw.
  unfold wp in Hw. by rewrite He in Hw.
Qed.

(** *** Concrete runs *)

Definition session_netb (w : World) (p : Z) : bool :=
  (w_session w <=? p) && bool_decide (is_Some (nets w !! p)).
Definition null_or {A} (m : gmap Z A) (p : Z) : bool := (p =? 0) || bool_decide (is_Some (m !! p)).

Definition finished_valid (w : World) (c : StateChange) : bool :=
  match finished10 c with Some n => bool_decide (is_Some (nets w !! n)) | None => true end &&
  match finished12 c with Some n => bool_decide (is_Some (nets w !! n)) | None => true end.

Definition allowedb (w : World) (c : Call) : bool :=
  match c with
  | CCreateNewNetwork u | CUserEntity u _ => null_or (users w) u
  | CAuthenticate n u => session_netb w n && null_or (users w) u
  | CCreateEndpoint n u => ((n =? 0) || session_netb w n) && null_or (users w) u
  | CSend e _ _ _ | CEndpointEntity e _ | CEndpointUid e _ => null_or (eps w) e
  | CFinish (Some l) => forallb (finished_valid w) (omap id l)
  | CNetworkDescriptor n _ => null_or (nets w) n
  | TTransport => o_up (w_outbox w)
  | TBrokerTake | TBrokerFinish => b_up (w_broker w)
  | EArrive n _ => bool_decide (is_Some (nets w !! n))
  | _ => true
  end.

Lemma null_or_true {A} (m : gmap Z A) p : null_or m p = true → p = 0 ∨ is_Some (m !! p).
Proof.
  unfold null_or. intros [?|?]%orb_true_iff; bool_props; [by left|right]. by apply bool_decide_eq_true in H.
Qed.
Lemma session_netb_true w p : session_netb w p = true → session_net w p.
Proof. unfold session_netb. intros ?. bool_props. split; [done|]. by apply bool_decide_eq_true in H0. Qed.

Lemma allowedb_true w c : allowedb w c = true → allowed w c.
Proof.
  destruct c; simpl; try done; try apply null_or_true.
  - intros [? ?]%andb_true_iff. split; [by apply session_netb_true|by apply null_or_true].
  - intros [Hn ?]%andb_true_iff. split; [|by apply null_or_true].
    apply orb_true_iff in Hn as [?|?]; bool_props; [by left|right; by apply session_netb_true].
  - destruct changes as [l|]; [|done]. rewrite forallb_forall. intros Hall c Hc n Hn.
    assert (Hin : In c (omap id l)).
    { apply list_elem_of_In, list_elem_of_omap. exists (Some c). by split. }
    specialize (Hall c Hin). unfold finished_valid in Hall. apply andb_true_iff in Hall as [H10 H12].
    destruct Hn as [Hn|Hn]; [rewrite Hn in H10; by apply bool_decide_eq_true in H10|].
    rewrite Hn in H12. by apply bool_decide_eq_true in H12.
  - by intros ?%bool_decide_eq_true.
Qed.

(** A list of calls run one after the other, each checked first. *)
Fixpoint run (cs : list Call) (w : World) : option World :=
  match cs with
  | [] => Some w
  | c :: cs =>
      if allowedb w c then match exec c w with Some (_, w) => run cs w | None => None end else None
  end.

Lemma run_reachable cs : ∀ w w', run cs w = Some w' → rtc mesh_step w w'.
Proof.
  induction cs as [|c cs IH]; intros w w'; simpl; [intros [= ->]; reflexivity|].
  destruct (allowedb w c) eqn:Ha; [|done]. destruct (exec c w) as [[[] w1]|] eqn:He; [|done].
  intros Hr. eapply rtc_l; [|by apply IH]. exists c. split; [by apply allowedb_true|done].
Qed.
End env.

(** A host and a guest: the scenario the examples run. *)
#[export] Instance demo_env : Env := {|
  now_at k := 1000 + Z.of_nat k; nanos_at _ := 5; inst_at k := Z.of_nat k * 300000000;
  member_at _ _ := true; stub_local_at _ := Some (V4 (10, 0, 0, 1) 5); probe_local_at _ := None;
  bind_at _ p := Some (if p =? 0 then 40000 else p); spawn_at _ := true; http_at _ _ := mkReply false false [] Eof;
  lan_cfg := mkLanCfg "127.0.0.1" 8080 8081 None 27015 false; force_inline_threads := false; is_ipv6 _ := false |}.

Definition demo_hello : Datagram :=
  (V4 (10, 0, 0, 2) 27015, packet "id" (sbytes "GUEST") KIND_MSG 3 1 0 (sbytes "hello") true).

(** The host creates a network (box 2) and its endpoint (box 3), the guest's first message arrives,
    the guest becomes endpoint 4, and the message is handed over. *)
Definition demo_setup : list Call :=
  [ CInitialize false; CCreateLocalUser (Some (sbytes "HOST")) false; CCreateNewNetwork 1;
    CStart false; CFinish (Some [None]);
    CConnect (Some (Descriptor_new "00000000-0000-4005-8001-000000009e37"));
    CCreateEndpoint 2 1; CStart false; CFinish (Some [Some (ScCreateEndpoint 2 1 3)]) ].
Definition demo_calls : list Call :=
  demo_setup ++
  [ EArrive 2 demo_hello; TTransport; CStart false; CFinish (Some [Some (ScEndpointCreated 2 4)]);
    TTransport; CSend 3 1 3 (Some [Some (sbytes "welcome")]); CStart false ].
Definition demo_world : World := default world_init (run demo_calls world_init).

Lemma run_default (cs : list Call) :
  is_Some (run cs world_init) → rtc mesh_step world_init (default world_init (run cs world_init)).
Proof. intros [w Hw]. rewrite Hw. simpl. by eapply run_reachable. Qed.

Lemma mesh_demo_reachable : rtc mesh_step world_init demo_world.
Proof. apply run_default. vm_compute. by eexists. Qed.
