(* ===== verification/MeshProps.v ===== *)
(** * What the Party shim guarantees

    The safety of every run, the order in which the title learns of peers and
    messages, the pump's batches, delivery across the wire, the outbox and the
    broker queue; and the places where the code falls short of them. *)

From S2P Require Import Prelude RustStr BTree Reliable Link Wire Descriptor Comp Mesh Outbox Peers Inbound PartyApi.
From S2P Require Import MeshInv MeshKeeps MeshRun.
#[local] Open Scope Z_scope.
#[local] Open Scope comp_scope.

(** ** The drain in full *)

Definition control (c : StateChange) : Prop := is21 c = false.
Definition message (c : StateChange) : Prop := is21 c = true.
#[export] Instance control_dec c : Decision (control c).
Proof. unfold control. apply _. Defined.
#[export] Instance message_dec c : Decision (message c).
Proof. unfold message. apply _. Defined.

Lemma filter_control_message c : is21 c = true → filter control [c] = [] ∧ filter message [c] = [c].
Proof.
  intros H. rewrite !filter_cons. unfold control, message. by rewrite decide_False, decide_True by congruence.
Qed.
Lemma filter_control_control c : is21 c = false → filter control [c] = [c] ∧ filter message [c] = [].
Proof.
  intros H. rewrite !filter_cons. unfold control, message. by rewrite decide_True, decide_False by congruence.
Qed.

Lemma existsb_no12 l : no12 l → existsb is12 l = false.
Proof. induction 1 as [|c l Hc _ IH]; simpl; [done|]. by rewrite Hc. Qed.

(** Control changes keep their order, messages keep theirs; messages are deferred exactly while the
    hold lasts. *)
Lemma drain_loop_order hold q : ∀ batch deferred b r d cap,
  drain_loop hold q batch deferred = (b, r, d, cap) → no12 batch → Forall message deferred →
  (if hold then Forall control batch else deferred = []) →
  filter control b ++ filter control r = filter control batch ++ filter control q ∧
  filter message b ++ d ++ filter message r = filter message batch ++ deferred ++ filter message q ∧
  Forall message d ∧ (if hold then Forall control b else d = []).
Proof.
  induction q as [|c q IH]; intros batch deferred b r d cap; cbn [drain_loop].
  - by intros [= <- <- <- <-].
  - intros Hd H12 Hdf Hh. rewrite (existsb_no12 batch) in Hd by done. cbn [orb] in Hd.
    destruct (_ <=? _)%nat; [by injection Hd as <- <- <- <-|].
    change (c :: q) with ([c] ++ q). rewrite !filter_app.
    destruct (is21 c) eqn:H21; cbn [andb] in Hd.
    + destruct (filter_control_message c H21) as [-> ->]. assert (is12 c = false) as Hc by by destruct c.
      destruct hold.
      * apply IH in Hd as (? & ? & ? & ?); [|done| |done].
        -- repeat split; try done. by app_norm; rewrite <- app_assoc in *.
        -- apply Forall_app. split; [done|by constructor].
      * rewrite Hc in Hd. subst deferred. apply IH in Hd as (H1 & H2 & ? & ?); [|apply Forall_app; split; [done|by constructor]|done|done].
        rewrite filter_app in H1, H2. destruct (filter_control_message c H21) as [E1 E2].
        rewrite E1, app_nil_r in H1. rewrite E2 in H2. repeat split; try done. by rewrite H2; app_norm.
    + destruct (filter_control_control c H21) as [E1 E2]. rewrite E1, E2.
      destruct (is12 c) eqn:Hc12.
      * injection Hd as <- <- <- <-. rewrite !filter_app, E1, E2, app_nil_r. repeat split; try done.
        -- by app_norm.
        -- destruct hold; [|done]. apply Forall_app. split; [done|by constructor].
      * apply IH in Hd as (H1 & H2 & ? & ?); [|apply Forall_app; split; [done|by constructor]|done|].
        -- rewrite filter_app in H1, H2. rewrite E1 in H1. rewrite E2, app_nil_r in H2.
           repeat split; try done. by rewrite H1; app_norm.
        -- destruct hold; [|done]. apply Forall_app. split; [done|by constructor].
Qed.

(** ** Rounds of Start and Finish *)

(** [n] rounds of the pump on a queue nothing is added to: what is handed out, and what is left. *)
Fixpoint rounds (hold : bool) (n : nat) (q : list StateChange) : list StateChange * list StateChange :=
  match n with
  | O => ([], q)
  | S n =>
      let '(b, r, d, _) := drain_loop hold q [] [] in
      let '(out, q) := rounds hold n (d ++ r) in (b ++ out, q)
  end.

Lemma drain_loop_grows hold q : ∀ b0 d0 b r d cap,
  drain_loop hold q b0 d0 = (b, r, d, cap) → b0 ≠ [] → b ≠ [].
Proof.
  induction q as [|c q IH]; intros b0 d0 b r d cap; cbn [drain_loop]; [by intros [= <- _ _ _]|].
  repeat case_if.
  - by intros [= <- _ _ _].
  - by apply IH.
  - intros [= <- _ _ _] _. by destruct b0.
  - intros Hd _. apply IH in Hd; [done|]. by destruct b0.
Qed.

(** Without a hold the batch is a prefix of the queue, and not an empty one. *)
Lemma drain_free q : ∀ batch b r d cap,
  drain_loop false q batch [] = (b, r, d, cap) → no12 batch → b ++ r = batch ++ q ∧ d = [].
Proof.
  induction q as [|c q IH]; intros batch b r d cap; cbn [drain_loop]; [by intros [= <- <- <- _]|].
  intros Hd H12. rewrite existsb_no12, andb_false_r in Hd by done.
  repeat case_if_in Hd.
  - by injection Hd as <- <- <- _.
  - injection Hd as <- <- <- _. by rewrite <- app_assoc.
  - apply IH in Hd as [-> ->]; [by rewrite <- app_assoc|]. apply Forall_app. split; [done|by constructor].
Qed.

Lemma drain_free_progress c q b r d cap : drain_loop false (c :: q) [] [] = (b, r, d, cap) → b ≠ [].
Proof.
  cbn. rewrite andb_false_r. destruct (is12 c); [by intros [= <- _ _ _]|].
  intros Hd. by apply drain_loop_grows in Hd.
Qed.

Lemma rounds_free n : ∀ q, (length q ≤ n)%nat → rounds false n q = (q, []).
Proof.
  induction n as [|n IH]; intros q Hq; cbn [rounds]; [by destruct q; [|simpl in Hq; lia]|].
  destruct (drain_loop false q [] []) as [[[b r] d] cap] eqn:Hd.
  assert (Hp := drain_free _ _ _ _ _ _ Hd). cbn [app] in Hp. destruct Hp as [<- ->]; [constructor|].
  rewrite IH; [done|]. cbn [app]. destruct b as [|x b].
  - destruct r as [|c r]; [simpl; lia|]. by apply drain_free_progress in Hd.
  - simpl in Hq. rewrite length_app in Hq. lia.
Qed.

Lemma filter_message_control l : filter control l = [] → filter message l = l.
Proof.
  intros Hl. apply filter_all. apply Forall_forall. intros c Hc. unfold message.
  destruct (is21 c) eqn:H21; [done|]. assert (Hin : c ∈ filter control l) by by apply list_elem_of_filter.
  rewrite Hl in Hin. by apply elem_of_nil in Hin.
Qed.
Lemma filter_control_all l : Forall message l → filter control l = [].
Proof.
  intros Hl. apply filter_none. eapply Forall_impl; [exact Hl|]. unfold message, control. congruence.
Qed.

Lemma drain_held_progress q : ∀ deferred b r d cap,
  drain_loop true q [] deferred = (b, r, d, cap) → filter control q ≠ [] → b ≠ [].
Proof.
  induction q as [|c q IH]; intros deferred b r d cap; [done|]. intros Hd Hne. cbn in Hd.
  destruct (is21 c) eqn:H21; cbn [andb] in Hd.
  - change (c :: q) with ([c] ++ q) in Hne. rewrite filter_app in Hne.
    destruct (filter_control_message c H21) as [Hc _]. rewrite Hc in Hne. by eapply IH.
  - destruct (is12 c); [by injection Hd as <- _ _ _|]. by apply drain_loop_grows in Hd.
Qed.

Lemma rounds_held n : ∀ q, (length (filter control q) ≤ n)%nat →
  rounds true n q = (filter control q, filter message q) ∨ (n = 0%nat ∧ filter control q = []).
Proof.
  induction n as [|n IH]; intros q Hq; cbn [rounds].
  { right. split; [done|]. destruct (filter control q); [done|simpl in Hq; lia]. }
  left. destruct (drain_loop true q [] []) as [[[b r] d] cap] eqn:Hd.
  destruct (drain_loop_order true q [] [] b r d cap) as (Hc & Hm & Hdm & Hbc); [done|constructor..|].
  cbn [app] in Hc, Hm. assert (Hb : filter control b = b) by by apply filter_all.
  assert (Hbm : filter message b = []).
  { apply filter_none. eapply Forall_impl; [exact Hbc|]. unfold message, control. congruence. }
  rewrite Hb in Hc. rewrite Hbm in Hm. cbn [app] in Hm. change (filter control []) with (@nil StateChange) in Hc.
  change (filter message []) with (@nil StateChange) in Hm. cbn [app] in Hc, Hm.
  assert (Hc' : filter control (d ++ r) = filter control r).
  { by rewrite filter_app, (filter_control_all d). }
  assert (Hm' : filter message (d ++ r) = filter message q).
  { rewrite filter_app, (filter_all message d) by done. exact Hm. }
  assert (Hle : (length (filter control (d ++ r)) ≤ n)%nat).
  { rewrite Hc'. rewrite <- Hc, length_app in Hq. destruct b as [|x b]; [|simpl in Hq; lia].
    destruct (filter control q) as [|y l] eqn:Hfq; [cbn [app] in Hc; rewrite Hc; simpl; lia|].
    exfalso. eapply drain_held_progress in Hd; [done|]. by rewrite Hfq. }
  destruct (IH (d ++ r) Hle) as [->|[-> Hz]].
  - by rewrite Hc', Hm', Hc.
  - cbn [rounds]. rewrite Hc' in Hz. rewrite Hz, app_nil_r in Hc. rewrite app_nil_r.
    rewrite <- Hc, <- Hm', filter_message_control; [done|]. by rewrite Hc'.
Qed.

(** ** The hold and its timeout *)

Lemma mod_net_spec p f n w :
  nets w !! p = Some n →
  mod_net p f w = Some (tt, heap_upd (λ hp, set_nets (<[p := f n]> (hp_nets hp)) hp) w).
Proof. intros Hn. unfold mod_net, mbind, get_net. by rewrite Hn. Qed.

Lemma get_net_spec p n w : nets w !! p = Some n → get_net p w = Some (n, w).
Proof. intros Hn. unfold get_net. by rewrite Hn. Qed.

Definition timed_out_held (now : Z) (n : Network) : Prop :=
  holds n = true ∧ ∃ s, n_hold_start n = Some s ∧ TYPE12_HOLD_TIMEOUT_MS <= held_ms now s.

(** [note_type12_hold] reports a hold that has outlived the timeout, wherever it is in the list. *)
Lemma note_hold_times_out now l : ∀ acc w,
  Forall (λ p, is_Some (nets w !! p)) l →
  acc.1.2 = true ∨ (∃ p n, p ∈ l ∧ p ≠ 0 ∧ nets w !! p = Some n ∧ timed_out_held now n) →
  wp (note_hold_loop now l acc) (λ r w', r.1.2 = true ∧ w_handle w' = w_handle w ∧ w_batches w' = w_batches w) w.
Proof.
  induction l as [|p l IH]; intros acc w Hl Ht; cbn [note_hold_loop].
  { destruct Ht as [Ht|(p & n & Hp & _)]; [done|]. by apply elem_of_nil in Hp. }
  apply Forall_cons in Hl as [[n Hn] Hl]. destruct (p =? 0) eqn:H0; bool_props.
  { apply IH; [done|]. destruct Ht as [Ht|(q & m & [->|Hq]%elem_of_cons & ? & ?)]; [by left|done|right]. eauto. }
  rewrite wp_bind. unfold wp at 1. rewrite (get_net_spec p n) by done.
  assert (Hstep : ∀ t acc',
    (acc.1.2 = true → acc'.1.2 = true) → (timed_out_held now n → acc'.1.2 = true) →
    wp (mod_net p (set_hold_start t);; note_hold_loop now l acc')
      (λ r w', r.1.2 = true ∧ w_handle w' = w_handle w ∧ w_batches w' = w_batches w) w).
  { intros t acc' Hacc Hto. rewrite wp_bind. unfold wp at 1. rewrite (mod_net_spec p _ n) by done.
    eapply wp_mono; [apply IH|done].
    - eapply Forall_impl; [exact Hl|]. intros q. apply is_Some_insert_mono.
    - destruct Ht as [Ht|(q & m & Hq & Hq0 & Hm & Hto')]; [left; auto|].
      destruct (decide (q = p)) as [->|Hne].
      + left. apply Hto. congruence.
      + right. exists q, m. apply elem_of_cons in Hq as [->|Hq]; [done|]. repeat split; try done; [|apply Hto'..].
        simpl. by rewrite lookup_insert_ne. }
  destruct (holds n) eqn:Hh; cbn [negb].
  - destruct acc as [[holding timed] oldest]. cbv zeta. apply Hstep.
    + destruct (_ <=? _); auto.
    + intros (_ & s & Hs & Hle). rewrite Hs. cbn [default]. by rewrite (proj2 (Z.leb_le _ _)).
  - apply Hstep; [done|]. intros [? _]. congruence.
Qed.

Section env.
Context `{E : Env}.

(** ** Safety of every run *)


(** C4: the title never sees a message from a peer it does not know. A message of a remote endpoint
    is handed over only in a batch after the one that ended with that endpoint's creation, so the
    title has processed the creation before it can look the peer up. *)
Theorem peer_before_message w i b net ep local opts payload :
  rtc mesh_step world_init w → w_batches w !! i = Some b → ScMessage net ep local opts payload ∈ b →
  ∃ j b', (j < i)%nat ∧ w_batches w !! j = Some b' ∧ last b' = Some (ScEndpointCreated net ep).
Proof.
  intros Hr Hb Hin. pose proof (i_batches _ _ (reachable_inv w Hr)) as Hbs.
  destruct (Hbs i b Hb) as [Hi _]. rewrite Forall_forall in Hi. specialize (Hi _ Hin). simpl in Hi.
  apply list_elem_of_In, in_concat in Hi as (b' & Hb'%list_elem_of_In & Hc%list_elem_of_In).
  apply elem_of_take in Hb' as (j & Hj & Hlt).
  exists j, b'. split; [done|]. split; [done|].
  destruct (Hbs j b' Hj) as [_ (Hne & _ & H12)].
  destruct b' as [|x l _] using rev_ind; [done|].
  rewrite removelast_last in H12. rewrite last_snoc. f_equal.
  apply elem_of_app in Hc as [Hc|Hc]; [|by apply list_elem_of_singleton in Hc].
  rewrite Forall_forall in H12. by apply H12 in Hc.
Qed.

(** a batch belongs to the title until it is returned. While one is outstanding no call (a
    transport turn and a second Start included) touches it, and a second Start hands out the same
    array again. *)
Theorem batch_until_finish w h :
  rtc mesh_step world_init w → w_handle w = Some h → h_outstanding h = true →
  (∀ c w', allowed w c → ordinary c = true → exec c w = Some (tt, w') →
     ∃ h', w_handle w' = Some h' ∧ h_in_flight h' = h_in_flight h ∧ h_outstanding h' = true) ∧
  (∃ w', PartyStartProcessingStateChanges false w = Some ((SUCCESS, Some (h_in_flight h)), w')).
Proof.
  intros Hr Hh Ho. pose proof (reachable_inv w Hr) as Hi. split.
  - intros c w' Ha Hc He. pose proof (ok_exec c w Hi Ha Hc) as Hok. unfold good, wp in Hok.
    rewrite He in Hok. destruct Hok as (_ & G & _).
    destruct (gr_flight _ _ G h Hh) as (h' & ? & Hf). exists h'. split; [done|]. by apply Hf.
  - pose proof (good_start w Hi) as Hs. unfold good, wp in Hs.
    destruct (PartyStartProcessingStateChanges false w) as [[r w']|]; [|done].
    destruct Hs as (_ & G & ->). destruct (gr_flight _ _ G h Hh) as (h' & Hh' & Hf).
    exists w'. rewrite Hh'. simpl. by rewrite (proj1 (Hf Ho)).
Qed.

(** C34: the bounds of every run. At most eight remotes and sixteen candidates per network, at most
    128 messages queued for the title, and every endpoint's sender and receiver well formed. *)
Theorem mesh_bounds w :
  rtc mesh_step world_init w →
  (∀ p n, nets w !! p = Some n →
     (size (n_remotes n) ≤ REMOTE_CAP)%nat ∧ (length (n_pending_peers n) ≤ PENDING_PEERS_CAP)%nat) ∧
  (∀ p e, eps w !! p = Some e → sender_wf (e_tx e) ∧ receiver_wf (e_rx e)) ∧
  (∀ h, w_handle w = Some h → of_type 21 (h_pending h) <= 128).
Proof.
  intros Hi%reachable_inv. split; [|split].
  - intros p n H. destruct (i_nets _ _ Hi p n H) as [_ []]. done.
  - intros p e H. destruct (i_eps _ _ Hi p e H) as [_ []]. split.
    + exact (rtc_invariant sender_step sender_wf sender_step_wf _ _ ef_tx sender_wf_new).
    + exact (rtc_invariant receiver_step receiver_wf receiver_step_wf _ _ ef_rx receiver_wf_new).
  - intros h Hh. pose proof (hf_cap _ _ (i_handle _ _ Hi h Hh)). unfold of_type, MESH_PENDING_CAP in *. lia.
Qed.

(** C18: the delivery ledger accounts for every change. For each type, what was queued is what was
    handed over plus what waits; every batch holds 1 to 32 changes, a type-12 change only in last
    place; and the batch in the title's hands is the last one built. *)
Theorem ledger_accounts w :
  rtc mesh_step world_init w →
  (∀ i b, w_batches w !! i = Some b → batch_shape b) ∧
  (∀ h, w_handle w = Some h →
     (∀ ty, count_of ty (l_queued (h_ledger h)) =
            count_of ty (l_handed (h_ledger h)) + of_type ty (h_pending h)) ∧
     (h_outstanding h = true → last (w_batches w) = Some (h_in_flight h))).
Proof.
  intros Hi%reachable_inv. split.
  - intros i b Hb. by destruct (i_batches _ _ Hi i b Hb).
  - intros h Hh. destruct (i_handle _ _ Hi h Hh). split; [done|]. rewrite hf_out.
    intros Ho. apply hf_last. intros He. by rewrite He in Ho.
Qed.


(** ** The pump *)

(** the pump hands everything over. Without a hold, [length q] rounds of Start and Finish hand
    out the queue in order and empty it; under a hold they hand out the control changes in order and
    keep exactly the messages, in order. *)
Theorem pump_drains q :
  rounds false (length q) q = (q, []) ∧
  rounds true (length q) q = (filter control q, filter message q).
Proof.
  split; [by apply rounds_free|].
  destruct (rounds_held (length q) q) as [?|[Hl _]]; [apply length_filter_le|done|].
  by destruct q.
Qed.

(** a missing type-12 change does not silence the pump. Once one network of the handle has held
    for ten seconds, the next batch is a prefix of the queue, messages included, and is not empty
    unless the queue is. *)
Theorem hold_times_out w h p n s :
  rtc mesh_step world_init w → w_handle w = Some h → h_outstanding h = false → p ∈ h_networks h →
  nets w !! p = Some n → holds n = true → n_hold_start n = Some s →
  s + TYPE12_HOLD_TIMEOUT_MS * NS_PER_MS <= inst_at (w_reads w) →
  ∃ w' h', build_batch w = Some (tt, w') ∧ w_handle w' = Some h' ∧
    h_in_flight h' ++ h_pending h' = h_pending h ∧ (h_pending h ≠ [] → h_in_flight h' ≠ []).
Proof.
  intros Hr Hh Ho Hp Hn Hhold Hs Ht. pose proof (reachable_inv w Hr) as Hi.
  set (now := inst_at (w_reads w)). set (w0 := w_set_reads (S (w_reads w)) w).
  assert (Hwp : wp (note_hold_loop now (h_networks h) (false, false, 0))
     (λ r w', r.1.2 = true ∧ w_handle w' = w_handle w0 ∧ w_batches w' = w_batches w0) w0).
  { apply note_hold_times_out; [exact (networks_valid w h Hi Hh)|]. right. exists p, n. split; [done|].
    split; [destruct (i_nets _ _ Hi p n Hn); lia|]. split; [done|]. split; [done|].
    exists s. split; [done|]. unfold held_ms, saturating_sub, TYPE12_HOLD_TIMEOUT_MS, NS_PER_MS in *.
    apply Z.div_le_lower_bound; lia. }
  unfold wp in Hwp.
  destruct (note_hold_loop now (h_networks h) (false, false, 0) w0) as [[[[holding timed] oldest] w1]|] eqn:Hloop; [|done].
  destruct Hwp as (Htimed & Hh1 & _). cbn [fst snd] in Htimed. subst timed.
  assert (Hw1 : w_handle w1 = Some h) by by rewrite Hh1.
  assert (Hnote : note_type12_hold w = Some ((holding, true, oldest), w1)).
  { unfold note_type12_hold, instant_now, observe, get_h, mbind. fold w0 now.
    change (w_handle w0) with (w_handle w). rewrite Hh. cbn. exact Hloop. }
  unfold build_batch, mbind, get_h. rewrite Hnote, Hw1. cbn -[drain_loop mod_h]. rewrite andb_false_r.
  destruct (drain_loop false (h_pending h) [] []) as [[[b r] d] cap] eqn:Hd.
  destruct (drain_free _ _ _ _ _ _ Hd) as [Hbr ->]; [constructor|].
  rewrite (mod_h_spec w1 h) by done.
  assert (Hne : h_pending h ≠ [] → b ≠ []).
  { intros Hq. destruct (h_pending h); [done|]. by eapply drain_free_progress. }
  destruct (bool_decide (b = [])); simpl; (eexists _, _; split; [done|]; split; [done|]; by split).
Qed.
End env.

(** ** At the demo run *)

Definition no_handle : Handle := mkHandle [] [] [] [] Ledger_default false 0.
Definition handle_of (w : World) : Handle := default no_handle (w_handle w).
Definition no_network : Network :=
  mkNetwork Descriptor_zero 0 0 ∅ None 0 false 0 [] [] false false None false 0 false 0 0.
Definition net_of (w : World) (p : Z) : Network := default no_network (nets w !! p).


Lemma peer_before_message_witness :
  ∃ j b', (j < 3)%nat ∧ w_batches demo_world !! j = Some b' ∧ last b' = Some (ScEndpointCreated 2 4).
Proof.
  apply (peer_before_message demo_world 3 [ScMessage 2 4 3 3 (sbytes "hello")] 2 4 3 3 (sbytes "hello"));
    [exact mesh_demo_reachable|vm_compute; reflexivity|left].
Defined.

Lemma batch_until_finish_witness :
  ∃ w', PartyStartProcessingStateChanges false demo_world =
    Some ((SUCCESS, Some (h_in_flight (handle_of demo_world))), w').
Proof.
  apply (batch_until_finish demo_world (handle_of demo_world));
    [exact mesh_demo_reachable|vm_compute; reflexivity|vm_compute; reflexivity].
Defined.

Lemma mesh_bounds_witness : of_type 21 (h_pending (handle_of demo_world)) <= 128.
Proof. apply (mesh_bounds demo_world mesh_demo_reachable). vm_compute. reflexivity. Defined.

Lemma ledger_accounts_witness : last (w_batches demo_world) = Some (h_in_flight (handle_of demo_world)).
Proof. apply (ledger_accounts demo_world mesh_demo_reachable); vm_compute; reflexivity. Defined.


(** The title returns the batch of the type-12 change without it, and lets ten seconds pass. *)
Definition held_calls : list Call :=
  demo_setup ++ [ EArrive 2 demo_hello; TTransport; CStart false; CFinish (Some [None]); CStart false ] ++
  replicate 40 TTransport.
Definition held_world : World := default world_init (run held_calls world_init).

Lemma hold_times_out_witness :
  ∃ w' h', build_batch held_world = Some (tt, w') ∧ w_handle w' = Some h' ∧
    h_in_flight h' ++ h_pending h' = h_pending (handle_of held_world) ∧
    (h_pending (handle_of held_world) ≠ [] → h_in_flight h' ≠ []).
Proof.
  apply (hold_times_out held_world (handle_of held_world) 2 (net_of held_world 2)
           (default 0 (n_hold_start (net_of held_world 2)))).
  - apply run_default. vm_compute. by eexists.
  - vm_compute. reflexivity.
  - vm_compute. reflexivity.
  - vm_compute. left.
  - vm_compute. reflexivity.
  - vm_compute. reflexivity.
  - vm_compute. reflexivity.
  - vm_compute. discriminate.
Defined.
