(* ===== verification/MeshDelivery.v ===== *)
(** * Delivery across the wire

    What one datagram does to the title's queue: a peer's message reaches it
    through the parser, the reliable receiver and the queue bound, in the order
    the receiver releases it.  Then the three ways a message can be stopped
    (a frame of an unknown peer ahead of it, a full queue, a type-12 change the
    title never finishes) and the order of the two work queues. *)

From S2P Require Import Prelude RustStr BTree Reliable Link Wire Descriptor Comp Mesh Outbox Peers Inbound PartyApi.
From S2P Require Import MeshInv MeshKeeps MeshRun.
#[local] Open Scope Z_scope.
#[local] Open Scope comp_scope.

(** ** Steps of the receive path, computed *)

(** A network whose messages can be handed over, and the remote endpoint of an entity in it. *)
Record ready (w : World) (net : Z) (n : Network) (ent : string) (ep : Z) (e : Endpoint) : Prop := {
  rd_net : nets w !! net = Some n;
  rd_local : n_local n ≠ 0;
  rd_type12 : n_type12 n = true;
  rd_remote : n_remotes n !! ent = Some ep;
  rd_null : ep ≠ 0;
  rd_ep : eps w !! ep = Some e;
}.

(** The world after an endpoint is replaced. *)
Definition put_ep (ep : Z) (e : Endpoint) (w : World) : World :=
  heap_upd (λ hp, set_eps (<[ep := e]> (hp_eps hp)) hp) w.
Definition put_net (p : Z) (n : Network) (w : World) : World :=
  heap_upd (λ hp, set_nets (<[p := n]> (hp_nets hp)) hp) w.
Definition put_handle (h : Handle) (w : World) : World := w_set_handle (Some h) w.

Lemma mod_net_put p f n w : nets w !! p = Some n → mod_net p f w = Some (tt, put_net p (f n) w).
Proof. intros Hn. unfold mod_net, mbind, get_net. by rewrite Hn. Qed.
Lemma mod_ep_put p f e w : eps w !! p = Some e → mod_ep p f w = Some (tt, put_ep p (f e) w).
Proof. intros Hn. unfold mod_ep, mbind, get_ep. by rewrite Hn. Qed.
Lemma get_net_put p n w : nets w !! p = Some n → get_net p w = Some (n, w).
Proof. intros Hn. unfold get_net. by rewrite Hn. Qed.
Lemma get_ep_put p e w : eps w !! p = Some e → get_ep p w = Some (e, w).
Proof. intros Hn. unfold get_ep. by rewrite Hn. Qed.
Lemma bind_put {A B} (m : M A) (f : A → M B) w x w' : m w = Some (x, w') → mbind m f w = f x w'.
Proof. intros Hm. unfold mbind. by rewrite Hm. Qed.

(** The handle after [c] is queued, and after a list of changes is. *)
Definition queue_all (cs : list StateChange) (h : Handle) : Handle := fold_left (λ h c, queued c h) cs h.

Lemma queue_all_pending cs : ∀ h, h_pending (queue_all cs h) = h_pending h ++ cs.
Proof.
  induction cs as [|c cs IH]; intros h; simpl; [by rewrite app_nil_r|].
  rewrite IH. simpl. by rewrite <- app_assoc.
Qed.

Lemma queue_sc_put c h w :
  w_handle w = Some h → (length (h_pending h) < MESH_PENDING_CAP)%nat →
  queue_sc c w = Some (tt, put_handle (queued c h) w).
Proof.
  intros Hh Hl. unfold queue_sc, mbind.
  destruct (is21 c); [rewrite (pending_cap_drop_spec w h), (proj2 (Nat.ltb_lt _ _)) by done|simpl];
    by rewrite (mod_h_spec w h) by done.
Qed.

(** [deliver_type21] with room in the queue, and without. *)
Definition msg_of (net ep : Z) (n : Network) (m : RecvMsg) : StateChange :=
  ScMessage net ep (n_local n) (recv_opts_for (m_options m)) (m_payload m).

Lemma deliver_type21_put net ep n m h w :
  w_handle w = Some h → nets w !! net = Some n → (length (h_pending h) < MESH_PENDING_CAP)%nat →
  deliver_type21 net ep (m_payload m) (recv_opts_for (m_options m)) w =
    Some (tt, put_handle (queued (msg_of net ep n m) h) w).
Proof.
  intros Hh Hn Hl. unfold deliver_type21.
  rewrite (bind_put _ _ w false w).
  - rewrite (bind_put _ _ w n w) by by apply get_net_put. by apply queue_sc_put.
  - by rewrite (pending_cap_drop_spec w h), (proj2 (Nat.ltb_lt _ _)).
Qed.

Lemma deliver_all_put net ep n ms : ∀ h w,
  w_handle w = Some h → nets w !! net = Some n →
  (length (h_pending h) + length ms ≤ MESH_PENDING_CAP)%nat →
  ∃ w', for_each ms (λ m, deliver_type21 net ep (m_payload m) (recv_opts_for (m_options m))) w = Some (tt, w') ∧
    w_heap w' = w_heap w ∧ ∃ h', w_handle w' = Some h' ∧ h_pending h' = h_pending h ++ map (msg_of net ep n) ms.
Proof.
  induction ms as [|m ms IH]; intros h w Hh Hn Hl; cbn [for_each length] in *.
  { exists w. split; [done|]. split; [done|]. exists h. split; [done|]. by rewrite app_nil_r. }
  rewrite (bind_put _ _ w tt (put_handle (queued (msg_of net ep n m) h) w))
    by (apply deliver_type21_put; [done..|lia]).
  destruct (IH (queued (msg_of net ep n m) h) (put_handle (queued (msg_of net ep n m) h) w))
    as (w' & Hw & Hheap & h' & Hh' & Hp); [done|done| |].
  { simpl. rewrite length_app. simpl. lia. }
  exists w'. split; [done|]. split; [done|]. exists h'. split; [done|].
  rewrite Hp. simpl. by rewrite <- app_assoc.
Qed.

(** A full queue: the message is counted and dropped. *)
Lemma deliver_all_full net ep ms : ∀ h w,
  w_handle w = Some h → (MESH_PENDING_CAP ≤ length (h_pending h))%nat →
  ∃ w', for_each ms (λ m, deliver_type21 net ep (m_payload m) (recv_opts_for (m_options m))) w = Some (tt, w') ∧
    w_heap w' = w_heap w ∧ ∃ h', w_handle w' = Some h' ∧ h_pending h' = h_pending h ∧
      l_dropped (h_ledger h') = l_dropped (h_ledger h) + Z.of_nat (length ms).
Proof.
  induction ms as [|m ms IH]; intros h w Hh Hl; cbn [for_each].
  { exists w. split; [done|]. split; [done|]. exists h. split; [done|]. split; [done|]. simpl. lia. }
  set (h1 := set_ledger (ledger_dropped (h_ledger h)) h).
  rewrite (bind_put _ _ w tt (put_handle h1 w)).
  - destruct (IH h1 (put_handle h1 w)) as (w' & Hw & Hheap & h' & Hh' & Hp & Hd); [done|done|].
    exists w'. split; [done|]. split; [done|]. exists h'. split; [done|]. split; [done|].
    rewrite Hd. simpl. lia.
  - unfold deliver_type21. rewrite (bind_put _ _ w true (put_handle h1 w)); [done|].
    by rewrite (pending_cap_drop_spec w h), (proj2 (Nat.ltb_ge _ _)).
Qed.

Section env.
Context `{E : Env}.

(** The clock read and the receiver's step of [deliver_reliable]. *)
Definition after_read (w : World) : World := w_set_reads (S (w_reads w)) w.

Lemma deliver_reliable_put net ep seq opts payload e w :
  eps w !! ep = Some e →
  deliver_reliable net ep seq opts payload w =
    let '(o, rx) := on_message (e_rx e) seq opts payload (now_at (w_reads w)) in
    match o with
    | Delivered ms =>
        (for_each ms (λ m, deliver_type21 net ep (m_payload m) (recv_opts_for (m_options m)));; mret true)
          (put_ep ep (set_rx rx e) (after_read w))
    | _ => Some (false, put_ep ep (set_rx rx e) (after_read w))
    end.
Proof.
  intros He. unfold deliver_reliable. rewrite (bind_put _ _ w e w) by by apply get_ep_put.
  rewrite (bind_put _ _ w (now_at (w_reads w)) (after_read w)) by done.
  destruct (on_message _ _ _ _ _) as [o rx].
  rewrite (bind_put _ _ (after_read w) tt (put_ep ep (set_rx rx e) (after_read w))) by by apply mod_ep_put.
  by destruct o.
Qed.

(** A message of a registered peer with nothing waiting ahead of it goes to the receiver. *)
Lemma recv_message_ready net n ent ep e payload opts seq w :
  ready w net n ent ep e → n_pending_rx n = [] →
  recv_message net ent payload opts seq w = (let* _ := deliver_reliable net ep seq opts payload in mret tt) w.
Proof.
  intros [Hn Hl H12 Hr H0 He] Hq. unfold recv_message.
  rewrite (bind_put _ _ w n w) by by apply get_net_put. rewrite Hr. change (default 0 (Some ep)) with ep.
  rewrite (proj2 (Z.eqb_neq ep 0)) by done. cbn [when].
  rewrite (bind_put _ _ w tt w) by done. rewrite (bind_put _ _ w n w) by by apply get_net_put.
  rewrite (proj2 (Z.eqb_neq _ _)) by done. by rewrite H12, Hq.
Qed.
End env.

(** *** One datagram of a registered peer *)

Section datagram.
Context `{E : Env}.

(** An entity the wire carries unchanged: at most 20 bytes of UTF-8 without NUL. *)
Record entity_ok (ent : string) : Prop := {
  eo_len : (length (sbytes ent) ≤ ENT_LEN - 1)%nat;
  eo_nul : x00 ∉ sbytes ent;
  eo_utf8 : utf8_valid (sbytes ent) = true;
}.

Lemma until_nul_id l : x00 ∉ l → until_nul l = l.
Proof.
  intros Hl. unfold until_nul. replace (position _ l) with (@None nat); [apply firstn_all|].
  symmetry. apply position_None, Forall_forall. intros b Hb. apply Z.eqb_neq. intros Hz.
  apply Hl. replace x00 with b; [done|]. by apply bz_inj.
Qed.

Lemma entity_wire ent : entity_ok ent → from_utf8_lossy (until_nul (take (ENT_LEN - 1) (sbytes ent))) = ent.
Proof.
  intros []. rewrite take_ge by done. rewrite until_nul_id by done.
  rewrite from_utf8_lossy_valid by done. apply bstr_sbytes.
Qed.

(** The own entity can be read. *)
Definition user_ok (w : World) (n : Network) : Prop := n_user n = 0 ∨ is_Some (users w !! n_user n).

Lemma local_entity_put n w : user_ok w n → ∃ ent, local_entity n w = Some (ent, w).
Proof.
  unfold local_entity, user_ok. intros [->|[u Hu]]; [by eexists|].
  destruct (_ =? 0); [by eexists|]. exists u. unfold get_user. by rewrite Hu.
Qed.

(** The peer's box changed, in nothing but its address or its sender. *)
Definition same_peer (ep : Z) (w w' : World) (e e' : Endpoint) : Prop :=
  e_rx e' = e_rx e ∧ eps w' !! ep = Some e' ∧ nets w' = nets w ∧ users w' = users w ∧
  w_handle w' = w_handle w ∧ w_reads w' = w_reads w.

Lemma same_peer_put ep f e w :
  eps w !! ep = Some e → e_rx (f e) = e_rx e → same_peer ep w (put_ep ep (f e) w) e (f e).
Proof. intros He Hf. split; [done|]. split; [|done]. simpl. by rewrite lookup_insert_eq. Qed.

Lemma same_peer_refl ep e w : eps w !! ep = Some e → same_peer ep w w e e.
Proof. done. Qed.

Lemma refresh_addr_put ep ip port e w :
  eps w !! ep = Some e →
  ∃ e' w', refresh_addr ep ip port w = Some (tt, w') ∧ same_peer ep w w' e e'.
Proof.
  intros He. unfold refresh_addr. destruct (ep =? 0); [by exists e, w|].
  rewrite (bind_put _ _ w e w) by by apply get_ep_put.
  destruct (_ && _); [|by exists e, w].
  exists (set_addr ip port e), (put_ep ep (set_addr ip port e) w). split; [by apply mod_ep_put|].
  by apply same_peer_put.
Qed.

Lemma ensure_remote_known net n ent ep e ip port w :
  ready w net n ent ep e → user_ok w n →
  ∃ b e' w', ensure_remote net ent ip port w = Some (b, w') ∧ same_peer ep w w' e e'.
Proof.
  intros [Hn Hl H12 Hr H0 He] Hu. unfold ensure_remote.
  destruct (_ || _); [by exists false, e, w|].
  rewrite (bind_put _ _ w n w) by by apply get_net_put.
  destruct (negb (n_connected n)); [by exists false, e, w|].
  destruct (local_entity_put n w Hu) as [me Hme]. rewrite (bind_put _ _ w me w) by done.
  destruct (bool_decide _); [by exists false, e, w|].
  destruct (_ || _); [by exists false, e, w|]. rewrite Hr.
  destruct (refresh_addr_put ep ip port e w He) as (e' & w' & Hw & Hs).
  rewrite (bind_put _ _ w tt w') by done. by exists false, e', w'.
Qed.

Lemma note_source_known net n ent ep e src w :
  ready w net n ent ep e → user_ok w n →
  ∃ e' w', note_source net ent src w = Some (tt, w') ∧ same_peer ep w w' e e'.
Proof.
  intros Hr Hu. pose proof (rd_ep _ _ _ _ _ _ Hr) as He. destruct src as [ip port|]; simpl; [|by exists e, w].
  rewrite (bind_put _ _ w n w) by (apply get_net_put, Hr).
  destruct (negb _); [by exists e, w|].
  rewrite bool_decide_true by (rewrite (rd_remote _ _ _ _ _ _ Hr); eauto).
  destruct (ensure_remote_known net n ent ep e (ip_string ip) port w Hr Hu) as (b & e' & w' & Hw & Hs).
  rewrite (bind_put _ _ w b w') by done. by exists e', w'.
Qed.

Lemma note_ack_known net n ent ep e a w :
  ready w net n ent ep e → ∃ e' w', note_ack net ent a w = Some (tt, w') ∧ same_peer ep w w' e e'.
Proof.
  intros [Hn Hl H12 Hr H0 He]. unfold note_ack. destruct (_ || _); [by exists e, w|].
  rewrite (bind_put _ _ w n w) by by apply get_net_put. rewrite Hr.
  change (default 0 (Some ep)) with ep. rewrite (proj2 (Z.eqb_neq ep 0)) by done.
  rewrite (bind_put _ _ w e w) by by apply get_ep_put.
  exists (set_tx (on_ack (e_tx e) a).2 e), (put_ep ep (set_tx (on_ack (e_tx e) a).2 e) w).
  split; [by rewrite (mod_ep_put _ _ e)|]. by apply (same_peer_put ep (set_tx _)).
Qed.

Lemma ready_same w w' net n ent ep e e' :
  ready w net n ent ep e → same_peer ep w w' e e' → ready w' net n ent ep e'.
Proof. intros [] (Hrx & He & Hn & _). split; try done. by rewrite Hn. Qed.

(** A packet of a registered peer reaches [recv_message] with its fields, the peer's receiver, the
    title's queue and the clock untouched. *)
Lemma recv_datagram_msg net n ent ep e id opts seq a payload src w :
  ready w net n ent ep e → user_ok w n → entity_ok ent →
  is_u32 opts → is_u32 seq → is_u32 a → Z.of_nat (length payload) <= MAX_PAYLOAD →
  ∃ e' w', recv_datagram net (src, wire_packet id (sbytes ent) KIND_MSG opts seq a payload) w =
      recv_message net ent payload opts seq w' ∧
    ready w' net n ent ep e' ∧ e_rx e' = e_rx e ∧ w_handle w' = w_handle w ∧ w_reads w' = w_reads w.
Proof.
  intros Hr Hu Hent Ho Hs Ha Hp.
  destruct (packet_parses id (sbytes ent) KIND_MSG opts seq a payload PARTY_RELIABLE)
    as (Hparse & Hslice & Hwent & _); [unfold KIND_MSG; lia|done..|].
  fold (wire_packet id (sbytes ent) KIND_MSG opts seq a payload) in Hparse, Hslice, Hwent.
  rewrite entity_wire in Hwent by done. unfold recv_datagram. rewrite Hparse, Hwent.
  destruct (note_source_known net n ent ep e src w Hr Hu) as (e1 & w1 & Hw1 & Hs1).
  rewrite (bind_put _ _ w tt w1) by done.
  pose proof (ready_same _ _ _ _ _ _ _ _ Hr Hs1) as Hr1.
  destruct (note_ack_known net n ent ep e1 a w1 Hr1) as (e2 & w2 & Hw2 & Hs2).
  cbn [ack kind options Wire.seq payload_len]. change (if PARTY_RELIABLE then a else 0) with a.
  rewrite (bind_put _ _ w1 tt w2) by done.
  exists e2, w2. split; [|split; [by eapply ready_same|]].
  - change (KIND_MSG =? KIND_HELLO) with false. change (KIND_MSG =? KIND_ACK) with false.
    change (negb (KIND_MSG =? KIND_MSG)) with false. cbv iota. by rewrite Nat2Z.id, Hslice.
  - destruct Hs1 as (? & _ & _ & _ & ? & ?), Hs2 as (? & _ & _ & _ & ? & ?). repeat split; congruence.
Qed.
End datagram.

(** ** Properties of delivery *)

Section delivery.
Context `{E : Env}.


(** a full queue loses acknowledged messages. When 128 changes wait for the title, an in-order
    guaranteed message is accepted by the receiver, which will acknowledge it, and is dropped: it is
    neither queued nor kept, and its retransmissions are refused as duplicates. *)
Theorem full_queue_loses_acked net n ent ep e opts seq payload h w :
  ready w net n ent ep e → n_pending_rx n = [] → w_handle w = Some h →
  (MESH_PENDING_CAP ≤ length (h_pending h))%nat →
  guaranteed opts = true → sequential opts = true → payload ≠ [] →
  g_next (e_rx e) = seq → g_buf (e_rx e) = [] → 1 <= seq < I32 - 1 →
  ∃ w' h' e', recv_message net ent payload opts seq w = Some (tt, w') ∧
    w_handle w' = Some h' ∧ h_pending h' = h_pending h ∧ nets w' = nets w ∧
    eps w' !! ep = Some e' ∧ ack_value (e_rx e') = seq ∧
    ∀ now, (on_message (e_rx e') seq opts payload now).1 = DroppedDuplicate.
Proof.
  intros Hr Hq Hh Hfull Hg Hsq Hpay Hnext Hbuf Hrange.
  rewrite (recv_message_ready net n ent ep e) by done.
  pose proof (rd_ep _ _ _ _ _ _ Hr) as He. unfold mbind at 1. rewrite (deliver_reliable_put _ _ _ _ _ e) by done.
  assert (Hm : ∃ ms rx, on_message (e_rx e) seq opts payload (now_at (w_reads w)) = (Delivered ms, rx) ∧
                g_next rx = seq + 1 ∧ g_buf rx = []).
  { unfold on_message. rewrite Hg. cbn [negb orb]. change (negb PARTY_RELIABLE) with false. cbn [orb].
    rewrite (proj2 (Z.eqb_neq seq 0)) by lia. unfold on_guaranteed. cbn [g_next g_buf].
    assert (Hle : seq_le seq (wrapping_sub32 seq 1) = false).
    { replace (wrapping_sub32 seq 1) with (seq - 1) by (unfold I32 in *; ulia).
      rewrite seq_le_near by (unfold I32 in *; ulia). apply Z.leb_gt. lia. }
    rewrite Hsq, Hbuf, Hnext, Hle. cbn. rewrite Z.eqb_refl.
    eexists _, _. split; [done|]. cbn. split; [|done]. unfold I32 in *. ulia. }
  destruct Hm as (ms & rx & -> & Hrx & Hrxb).
  set (w1 := put_ep ep (set_rx rx e) (after_read w)).
  destruct (deliver_all_full net ep ms h w1) as (w2 & Hw2 & Hheap & h2 & Hh2 & Hp2 & _); [done|done|].
  rewrite (bind_put _ _ w1 tt w2) by done. exists w2, h2, (set_rx rx e).
  split; [done|]. split; [done|]. split; [done|]. split; [by rewrite Hheap|].
  split; [rewrite Hheap; simpl; by rewrite lookup_insert_eq|].
  assert (Hack : ack_value rx = seq) by (unfold ack_value; rewrite Hrx; unfold I32 in *; ulia).
  split; [done|]. intros now. unfold on_message. rewrite Hg. change (negb PARTY_RELIABLE) with false. cbn [negb orb].
  rewrite (proj2 (Z.eqb_neq seq 0)) by lia. unfold on_guaranteed. cbn [set_rx e_rx g_next g_buf]. fold (ack_value rx). rewrite Hack.
  rewrite seq_le_near by (unfold I32 in *; ulia). by rewrite Z.leb_refl.
Qed.

(** one frame of an unknown peer stops every other peer. While the first frame that waits is
    from an entity that is not a remote, each further message of a registered peer is appended
    behind it, whatever the number: the wait queue outgrows its 128-frame cap and the title's queue
    gets nothing. *)
Theorem unknown_head_blocks net n f q fs w :
  nets w !! net = Some n → net ≠ 0 → n_local n ≠ 0 → n_type12 n = true →
  n_pending_rx n = f :: q → n_remotes n !! f_entity f = None →
  Forall (λ g, ∃ ep, n_remotes n !! f_entity g = Some ep ∧ ep ≠ 0) fs →
  ∃ w' n', for_each fs (λ g, recv_message net (f_entity g) (f_payload g) (f_options g) (f_seq g)) w = Some (tt, w') ∧
    nets w' !! net = Some n' ∧ n_pending_rx n' = n_pending_rx n ++ fs ∧ w_handle w' = w_handle w.
Proof.
  intros Hn Hnet Hl H12 Hq Hf Hfs. revert n q w Hn Hl H12 Hq Hf Hfs.
  induction fs as [|g fs IH]; intros n q w Hn Hl H12 Hq Hf Hfs; cbn [for_each].
  { exists w, n. by rewrite app_nil_r. }
  apply Forall_cons in Hfs as [(ep & Hep & Hep0) Hfs].
  set (n1 := set_pending_rx (n_pending_rx n ++ [g]) n). set (w1 := put_net net n1 w).
  assert (Hn1 : nets w1 !! net = Some n1) by (simpl; by rewrite lookup_insert_eq).
  assert (Hg : recv_message net (f_entity g) (f_payload g) (f_options g) (f_seq g) w = Some (tt, w1)).
  { unfold recv_message. rewrite (bind_put _ _ w n w) by by apply get_net_put. rewrite Hep.
    change (default 0 (Some ep)) with ep. rewrite (proj2 (Z.eqb_neq ep 0)) by done. cbn [when].
    rewrite (bind_put _ _ w tt w) by done. rewrite (bind_put _ _ w n w) by by apply get_net_put.
    rewrite (proj2 (Z.eqb_neq _ _)), H12 by done. cbn [orb negb]. rewrite Hq.
    rewrite (bind_put _ _ w tt w1).
    2:{ unfold w1, n1. rewrite Hq. destruct g. by apply mod_net_put. }
    unfold flush_pending_rx. rewrite (proj2 (Z.eqb_neq _ _)) by done.
    rewrite (bind_put _ _ w1 n1 w1) by by apply get_net_put. cbn [flush_loop].
    rewrite (bind_put _ _ w1 n1 w1) by by apply get_net_put.
    change (n_local n1) with (n_local n). change (n_type12 n1) with (n_type12 n).
    rewrite (proj2 (Z.eqb_neq _ _)), H12 by done. cbn [orb negb].
    change (n_pending_rx n1) with (n_pending_rx n ++ [g]). rewrite Hq. cbn [app].
    change (n_remotes n1) with (n_remotes n). by rewrite Hf. }
  rewrite (bind_put _ _ w tt w1) by done.
  destruct (IH n1 (q ++ [g]) w1) as (w' & n' & Hw' & Hn' & Hp & Hh); try done.
  { unfold n1. simpl. by rewrite Hq. }
  exists w', n'. split; [done|]. split; [done|]. split; [|done].
  rewrite Hp. unfold n1. simpl. by rewrite <- app_assoc.
Qed.

(** the hold's timeout releases nothing of the network it is about. As long as a network's
    type-12 change is not finished, no datagram and no replay moves a message of it to the title's
    queue, however long the hold has lasted. *)
Theorem held_network_waits net n w :
  nets w !! net = Some n → n_type12 n = false →
  flush_pending_rx net w = Some (tt, w) ∧
  ∀ ent payload opts seq, ∃ w' n', recv_message net ent payload opts seq w = Some (tt, w') ∧
    w_handle w' = w_handle w ∧ nets w' !! net = Some n' ∧ n_type12 n' = false ∧
    last (n_pending_rx n') = Some (mkFrame ent payload opts seq) ∧
    (length (n_pending_rx n') ≤ length (n_pending_rx n) `max` PENDING_RX_CAP)%nat.
Proof.
  intros Hn H12. split.
  - unfold flush_pending_rx. destruct (net =? 0); [done|].
    rewrite (bind_put _ _ w n w) by by apply get_net_put. cbn [flush_loop].
    rewrite (bind_put _ _ w n w) by by apply get_net_put. by rewrite H12, orb_true_r.
  - intros ent payload opts seq. unfold recv_message. rewrite (bind_put _ _ w n w) by by apply get_net_put.
    set (ep := default 0 (n_remotes n !! ent)).
    assert (Hreq : ∃ w1 n1, when (ep =? 0) (request_peer_poll net) w = Some (tt, w1) ∧
      nets w1 !! net = Some n1 ∧ n_type12 n1 = false ∧ n_pending_rx n1 = n_pending_rx n ∧ w_handle w1 = w_handle w).
    { destruct (ep =? 0); cbn [when]; [|by exists w, n]. unfold request_peer_poll.
      destruct (net =? 0); [by exists w, n|].
      exists (put_net net (set_poll_requested true n) w), (set_poll_requested true n).
      split; [by apply mod_net_put|]. simpl. by rewrite lookup_insert_eq. }
    destruct Hreq as (w1 & n1 & Hw1 & Hn1 & H121 & Hq1 & Hh1).
    rewrite (bind_put _ _ w tt w1) by done. rewrite (bind_put _ _ w1 n1 w1) by by apply get_net_put.
    rewrite H121, orb_true_r. rewrite (mod_net_put net _ n1) by done.
    eexists _, _. split; [reflexivity|]. split; [exact Hh1|].
    split; [apply lookup_insert_eq|]. split; [done|]. cbn [n_pending_rx set_pending_rx].
    rewrite last_snoc. split; [done|]. rewrite Hq1, length_app.
    destruct (PENDING_RX_CAP <=? _)%nat eqn:Hc; bool_props; rewrite ?length_drop; simpl;
      unfold PENDING_RX_CAP in *; lia.
Qed.
End delivery.

(** ** The broker queue *)

Definition reg_key (t : BrokerTask) : option (string * string) :=
  match t with Register nid ent _ _ => Some (nid, ent) | _ => None end.
Definition other_task (t : BrokerTask) : Prop := is_register t = false.
#[export] Instance other_task_dec t : Decision (other_task t).
Proof. unfold other_task. apply _. Defined.

Lemma same_register_key nid ent t : same_register nid ent t = true ↔ reg_key t = Some (nid, ent).
Proof.
  destruct t; simpl; [|split; discriminate..]. rewrite andb_true_iff, !bool_decide_eq_true.
  split; [by intros [-> ->]|by intros [= -> ->]].
Qed.

Lemma keys_update nid ent t q :
  reg_key t = Some (nid, ent) → omap reg_key (update_first (same_register nid ent) (λ _, t) q) = omap reg_key q.
Proof.
  intros Ht. induction q as [|x q IH]; cbn [update_first]; [done|].
  destruct (same_register nid ent x) eqn:Hx; csimpl; [|by rewrite IH].
  apply same_register_key in Hx. by rewrite Ht, Hx.
Qed.

Lemma others_update nid ent t q :
  is_register t = true →
  filter other_task (update_first (same_register nid ent) (λ _, t) q) = filter other_task q.
Proof.
  intros Ht. induction q as [|x q IH]; simpl; [done|].
  destruct (same_register nid ent x) eqn:Hx; rewrite !filter_cons; [|by rewrite IH].
  rewrite !decide_False; [done| |].
  - destruct x; [by unfold other_task|done..].
  - unfold other_task. congruence.
Qed.

Lemma update_first_in {A} (p : A → bool) (f : A → A) l :
  existsb p l = true → ∃ x, p x = true ∧ f x ∈ update_first p f l.
Proof.
  induction l as [|x l IH]; simpl; [done|]. destruct (p x) eqn:Hp; simpl.
  - intros _. exists x. split; [done|left].
  - intros (y & ? & ?)%IH. exists y. split; [done|by right].
Qed.

(** The queue after the oldest registration is dropped. *)
Lemma evict_register q i :
  position is_register q = Some i →
  filter other_task (take i q ++ drop (S i) q) = filter other_task q ∧
  omap reg_key (take i q ++ drop (S i) q) `sublist_of` omap reg_key q ∧
  length (take i q ++ drop (S i) q) = Nat.pred (length q).
Proof.
  intros (x & Hx & Hreg & _)%position_Some. pose proof (take_drop_middle q i x Hx) as Hq.
  pose proof (lookup_lt_Some _ _ _ Hx) as Hlt.
  split; [|split].
  - rewrite <- Hq at 3. rewrite !filter_app, filter_cons, decide_False; [done|]. unfold other_task. congruence.
  - rewrite <- Hq at 3. rewrite !omap_app. apply sublist_app; [done|]. simpl.
    destruct (reg_key x); [by apply sublist_cons|done].
  - rewrite length_app, length_take, length_drop. lia.
Qed.

(** the broker queue. Leaves and polls are never dropped and keep their order; the task handed
    over is in the queue; no two queued registrations are for the same member; and a queue at its
    cap does not grow by a registration as long as it holds one it can drop. *)
Theorem broker_queue_spec t q :
  filter other_task (broker_enqueue t q) = filter other_task q ++ (if is_register t then [] else [t]) ∧
  t ∈ broker_enqueue t q ∧
  (NoDup (omap reg_key q) → NoDup (omap reg_key (broker_enqueue t q))) ∧
  (is_register t = true → existsb is_register q = true →
     (length (broker_enqueue t q) ≤ length q `max` BROKER_QUEUE_CAP)%nat).
Proof.
  destruct t as [nid ent port quiet|nid ent|nid epoch seq]; cbn [broker_enqueue is_register].
  2,3: split; [by rewrite filter_app|]; split; [apply elem_of_app; right; by left|]; split; [|done];
    rewrite omap_app; simpl; by rewrite app_nil_r.
  set (t := Register nid ent port quiet).
  destruct (existsb (same_register nid ent) q) eqn:Hex.
  - split; [rewrite app_nil_r; by apply others_update|]. split.
    { by apply (update_first_in _ (λ _, t)) in Hex as (x & _ & ?). }
    rewrite (keys_update nid ent t) by done. split; [done|]. intros _ _. rewrite length_update_first. lia.
  - match goal with |- context [?l ++ [t]] => set (q' := l) end.
    assert (Hq' : filter other_task q' = filter other_task q ∧ omap reg_key q' `sublist_of` omap reg_key q ∧
      (existsb is_register q = true → (length q' < length q `max` BROKER_QUEUE_CAP)%nat)).
    { unfold q'. destruct (BROKER_QUEUE_CAP <=? length q)%nat eqn:Hcap; bool_props.
      2:{ split; [done|]. split; [done|]. unfold BROKER_QUEUE_CAP in *. lia. }
      destruct (position is_register q) as [i|] eqn:Hp.
      - destruct (evict_register q i Hp) as (? & ? & Hl). split; [done|]. split; [done|].
        intros _. rewrite Hl. unfold BROKER_QUEUE_CAP in *. lia.
      - split; [done|]. split; [done|]. intros (x & Hx & Hreg)%existsb_exists.
        apply position_None in Hp. rewrite Forall_forall in Hp. apply list_elem_of_In in Hx.
        by rewrite Hp in Hreg. }
    destruct Hq' as (Hf & Hsub & Hlen). split; [|split; [|split]].
    + rewrite filter_app, Hf, app_nil_r. simpl. by rewrite app_nil_r.
    + apply elem_of_app. right. by left.
    + intros Hnd. rewrite omap_app. simpl. apply NoDup_app. split; [by eapply sublist_NoDup|].
      split; [|apply NoDup_singleton]. intros k Hk ->%list_elem_of_singleton.
      eapply elem_of_sublist in Hk; [|exact Hsub]. apply list_elem_of_omap in Hk as (x & Hx & Hkey).
      apply same_register_key in Hkey. assert (existsb (same_register nid ent) q = true); [|congruence].
      apply existsb_exists. exists x. split; [by apply list_elem_of_In|done].
    + intros _ Hreg. rewrite length_app. simpl. specialize (Hlen Hreg). lia.
Qed.

(** a member that leaves and joins again while its first registration still waits is gone.  The
    new registration takes the place of the old one, ahead of the leave, so the last request the
    broker gets about the member is the leave, although the shim's last word was to join. *)
Theorem rejoin_overtaken_by_leave nid ent p0 q0 port quiet l1 l2 :
  Forall (λ t, same_register nid ent t = false) l1 →
  NoDup (omap reg_key (l1 ++ Register nid ent p0 q0 :: l2)) → Leave nid ent ∈ l2 →
  broker_enqueue (Register nid ent port quiet) (l1 ++ Register nid ent p0 q0 :: l2) =
    l1 ++ Register nid ent port quiet :: l2 ∧
  Forall (λ t, same_register nid ent t = false) l2.
Proof.
  intros Hl1 Hnd Hleave. split.
  - cbn [broker_enqueue].
    assert (Hself : same_register nid ent (Register nid ent p0 q0) = true) by by apply same_register_key.
    rewrite existsb_app. cbn [existsb]. rewrite Hself, orb_true_r.
    clear Hnd. induction Hl1 as [|x l1 Hx Hl1 IH]; cbn [app update_first]; [by rewrite Hself|].
    by rewrite Hx, IH.
  - apply Forall_forall. intros t Ht. apply not_true_is_false. intros Hk%same_register_key.
    rewrite omap_app in Hnd. simpl in Hnd. apply NoDup_app in Hnd as (_ & _ & Hnd).
    apply NoDup_cons in Hnd as [Hnot _]. apply Hnot. apply list_elem_of_omap. eauto.
Qed.

(** ** Two runs that go wrong *)

(** What a datagram carries: its sequence number and payload. *)
Definition carried (d : Z * SockAddr * list byte) : option (Z * list byte) :=
  match parse d.2 PARTY_RELIABLE with
  | Ok p => Some (Wire.seq p, slice HDR_LEN (Z.to_nat (payload_len p)) d.2)
  | Err _ => None
  end.

(** What the calls put on the wire, when they all complete. *)
Definition sent_by (cs : list Call) (w : World) : option (list (Z * list byte)) :=
  w' ← run cs w; Some (omap carried (drop (length (o_sent (w_outbox w))) (o_sent (w_outbox w')))).

(** when the transport thread dies with a message in the outbox, the next message overtakes it:
    the export sends inline without draining the queue, as [dispatch_broker] does for its own, so
    the later message leaves first and takes the lower sequence number. *)
Theorem inline_send_overtakes :
  sent_by [ CSend 3 1 3 (Some [Some (sbytes "first")]); TTransportDies;
            CSend 3 1 3 (Some [Some (sbytes "second")]); CStart false ] demo_world =
    Some [(1, sbytes "second"); (2, sbytes "welcome"); (3, sbytes "first")].
Proof. vm_compute. reflexivity. Qed.

(** a null network passed to [PartyNetworkAuthenticateLocalUser] is stored among the networks,
    and the next turn of the transport thread dereferences it. *)
Theorem null_network_crashes :
  ∃ w w', rtc mesh_step world_init w ∧ exec (CAuthenticate 0 0) w = Some (tt, w') ∧
    o_up (w_outbox w') = true ∧ exec TTransport w' = None.
Proof.
  exists (default world_init (run [CInitialize false] world_init)).
  eexists. split; [apply run_default; vm_compute; by eexists|].
  split; [vm_compute; reflexivity|]. split; vm_compute; reflexivity.
Qed.

(** ** At the demo run *)

Definition demo_net : Network := default (mkNetwork Descriptor_zero 0 0 ∅ None 0 false 0 [] [] false false None false 0 false 0 0) (nets demo_world !! 2).
Definition demo_ep : Endpoint := default (mkEndpoint "" 0 0 "" 0 Sender_new Receiver_new) (eps demo_world !! 4).
Definition demo_handle : Handle := default (mkHandle [] [] [] [] Ledger_default false 0) (w_handle demo_world).

Lemma demo_ready : ready demo_world 2 demo_net "GUEST" 4 demo_ep.
Proof. split; vm_compute; first [reflexivity|discriminate]. Qed.


Lemma ready_put_handle h w net n ent ep e : ready w net n ent ep e → ready (put_handle h w) net n ent ep e.
Proof. destruct 1. by split. Qed.

(** The demo world with a full queue. *)
Definition full_handle : Handle := set_pending (replicate 128 (ScLeave 0)) demo_handle.

Lemma full_queue_loses_acked_witness :
  ∃ w' h' e', recv_message 2 "GUEST" (sbytes "lost") 3 2 (put_handle full_handle demo_world) = Some (tt, w') ∧
    w_handle w' = Some h' ∧ h_pending h' = h_pending full_handle ∧ nets w' = nets (put_handle full_handle demo_world) ∧
    eps w' !! 4 = Some e' ∧ ack_value (e_rx e') = 2 ∧
    ∀ now, (on_message (e_rx e') 2 3 (sbytes "lost") now).1 = DroppedDuplicate.
Proof.
  apply (full_queue_loses_acked 2 demo_net "GUEST" 4 demo_ep 3 2 (sbytes "lost") full_handle).
  - apply ready_put_handle, demo_ready.
  - vm_compute. reflexivity.
  - reflexivity.
  - unfold full_handle, MESH_PENDING_CAP. cbn [h_pending set_pending]. by rewrite length_replicate.
  - reflexivity.
  - reflexivity.
  - discriminate.
  - vm_compute. reflexivity.
  - vm_compute. reflexivity.
  - unfold I32. lia.
Defined.

(** The demo world with a frame of a stranger ahead. *)
Definition stranger : Frame := mkFrame "STRANGER" (sbytes "?") 0 0.
Definition blocked_net : Network := set_pending_rx [stranger] demo_net.
Definition blocked_world : World := put_net 2 blocked_net demo_world.
Definition guest_frames : list Frame := replicate 200 (mkFrame "GUEST" (sbytes "ping") 0 0).

Lemma unknown_head_blocks_witness :
  ∃ w' n', for_each guest_frames (λ g, recv_message 2 (f_entity g) (f_payload g) (f_options g) (f_seq g)) blocked_world = Some (tt, w') ∧
    nets w' !! 2 = Some n' ∧ n_pending_rx n' = [stranger] ++ guest_frames ∧ w_handle w' = w_handle blocked_world.
Proof.
  apply (unknown_head_blocks 2 blocked_net stranger [] guest_frames blocked_world).
  - apply lookup_insert_eq.
  - discriminate.
  - vm_compute. discriminate.
  - vm_compute. reflexivity.
  - reflexivity.
  - vm_compute. reflexivity.
  - apply Forall_replicate. exists 4. split; [vm_compute; reflexivity|discriminate].
Defined.

(** The demo world with its type-12 change never finished. *)
Definition waiting_net : Network := default demo_net (nets (default world_init (run demo_setup world_init)) !! 2).

Lemma held_network_waits_witness :
  flush_pending_rx 2 (put_net 2 waiting_net demo_world) = Some (tt, put_net 2 waiting_net demo_world).
Proof. apply (held_network_waits 2 waiting_net); [apply lookup_insert_eq|vm_compute; reflexivity]. Defined.

Lemma broker_queue_spec_witness :
  NoDup (omap reg_key (broker_enqueue (Register "n" "b" 1 true) [Register "n" "a" 1 false])).
Proof. apply (broker_queue_spec (Register "n" "b" 1 true) [Register "n" "a" 1 false]). apply NoDup_singleton. Defined.

Lemma rejoin_overtaken_by_leave_witness :
  broker_enqueue (Register "n" "e" 2 false) ([] ++ [Register "n" "e" 1 false; Leave "n" "e"]) =
    [] ++ [Register "n" "e" 2 false; Leave "n" "e"] ∧
  Forall (λ t, same_register "n" "e" t = false) [Leave "n" "e"].
Proof.
  apply (rejoin_overtaken_by_leave "n" "e" 1 false 2 false [] [Leave "n" "e"]);
    [constructor|apply NoDup_singleton|left].
Defined.
