(* ===== verification/MpState.v ===== *)
(** * The lobby state: [playfab-mp-shim/src/lib.rs], its data

    The records behind the [PFMultiplayer] and [PFLobby] exports: lobbies, the
    state changes queued for the title, the jobs of the broker worker, and the
    computations over them.

    Lobbies are boxes the shim never frees; they live in a heap of the
    [MpWorld] and are named by their address, 0 being the null pointer.  A C
    string is the list of its bytes, or nothing for the null pointer; a
    [CString] the shim owns is its text.  A computation has no result where the
    code would follow a bad pointer or panic.  What the shim reads from outside
    (the clock, the broker, the allocator's address of a batch) is a class of
    oracles indexed by the number of reads made so far.  Log lines, and the
    counters and gates that only they read, are left out. *)

From S2P Require Import Prelude RustStr Http LanCfg Descriptor Json Value Comp.
#[local] Open Scope Z_scope.

(** ** Result codes *)

Definition S_OK : Z := 0.
Definition E_FAIL : Z := as_i32 0x80004005.
Definition E_PF_NOT_INITIALIZED : Z := as_i32 0x89236400.
Definition E_PF_INSTANCE_ALREADY_EXISTS : Z := as_i32 0x89236401.
Definition E_PF_ENTITY_KEY_MALFORMED : Z := as_i32 0x89236404.
Definition E_PF_ENTITY_TOKEN_MALFORMED : Z := as_i32 0x89236213.
Definition E_PF_OBJECT_STILL_PENDING : Z := as_i32 0x89236205.
Definition E_PF_LOBBY_NOT_FOUND : Z := as_i32 0x89236226.
Definition E_PF_LOBBY_NOT_JOINABLE : Z := as_i32 0x89236227.
Definition E_PF_LOBBY_ALREADY_MEMBER : Z := as_i32 0x89236225.
Definition E_PF_LOBBY_FULL : Z := as_i32 0x89236206.
Definition E_PF_LOBBY_MEMBER_NOT_IN_LOBBY : Z := as_i32 0x89236220.
Definition E_PF_LOBBY_EMPTY_UPDATE : Z := as_i32 0x89236222.
Definition E_PF_LOBBY_UPDATE_AFTER_DISCONNECT : Z := as_i32 0x89236223.
Definition E_PF_SERVICE_BAD_REQUEST : Z := as_i32 0x8923621e.
Definition E_PF_SERVICE_UNEXPECTED : Z := as_i32 0x89236208.
Definition E_PF_SERVICE_MALFORMED_RESPONSE : Z := as_i32 0x89236221.
Definition E_PF_SERVICE_4XX : Z := as_i32 0x89236409.
Definition E_PF_SERVICE_5XX : Z := as_i32 0x8923640a.

Definition BROKER_POLL_MS : Z := 250.

(** ** Strings across the interface *)

(** A C string passed by pointer: its bytes, or [None] for the null pointer. *)
Definition CPtr : Type := option (list byte).

(** The text a [CString] made from [s] holds; an interior NUL falls back to the empty string. *)
Definition ctext (s : string) : string := if bool_decide (x00 ∈ sbytes s) then "" else s.
Definition intern (s : string) : CPtr := Some (sbytes (ctext s)).

Record EntityKey := mkEntityKey { ek_id : CPtr; ek_type : CPtr }.

#[export] Instance EntityKey_eq_dec : EqDecision EntityKey.
Proof. solve_decision. Defined.

(** A key the shim makes for the entity [id]. *)
Definition player_key (id : string) : EntityKey := mkEntityKey (intern id) (intern "title_player_account").

Definition intern_entity (src : option EntityKey) : EntityKey :=
  match src with
  | None => mkEntityKey (intern "lan-user") (intern "title_player_account")
  | Some e =>
      let id := read_cstr (ek_id e) in
      let ty := read_cstr (ek_type e) in
      mkEntityKey (intern (if bool_decide (id = ""%string) then "lan-user" else id))
        (intern (if bool_decide (ty = ""%string) then "title_player_account" else ty))
  end.

Definition entity_eq (a b : EntityKey) : bool :=
  bool_decide (read_cstr (ek_id a) = read_cstr (ek_id b)) &&
  bool_decide (read_cstr (ek_type a) = read_cstr (ek_type b)).

(** ** Lobbies *)

(** A [HashMap<String, CString>], each value as its text. *)
Definition Props : Type := gmap string string.

Record Lobby := mkLobby {
  l_id : string;
  l_connection : string;
  l_owner : EntityKey;
  l_has_owner : bool;
  l_max : Z;
  l_props : Props;
  l_search : Props;
  l_member_props : gmap string Props;
  l_members : list EntityKey;
  l_lock : Z;
  l_access : Z;
  l_lock_known : bool;
  l_announced : gset string;
  l_pending : bool;
  l_left : bool;
}.

Definition set_owner (o : EntityKey) (has : bool) (l : Lobby) : Lobby :=
  mkLobby (l_id l) (l_connection l) o has (l_max l) (l_props l) (l_search l) (l_member_props l)
    (l_members l) (l_lock l) (l_access l) (l_lock_known l) (l_announced l) (l_pending l) (l_left l).
Definition set_ids (id connection : string) (l : Lobby) : Lobby :=
  mkLobby id connection (l_owner l) (l_has_owner l) (l_max l) (l_props l) (l_search l)
    (l_member_props l) (l_members l) (l_lock l) (l_access l) (l_lock_known l) (l_announced l)
    (l_pending l) (l_left l).
Definition set_bags (props search : Props) (l : Lobby) : Lobby :=
  mkLobby (l_id l) (l_connection l) (l_owner l) (l_has_owner l) (l_max l) props search
    (l_member_props l) (l_members l) (l_lock l) (l_access l) (l_lock_known l) (l_announced l)
    (l_pending l) (l_left l).
Definition set_scalars (max access lock : Z) (l : Lobby) : Lobby :=
  mkLobby (l_id l) (l_connection l) (l_owner l) (l_has_owner l) max (l_props l) (l_search l)
    (l_member_props l) (l_members l) lock access (l_lock_known l) (l_announced l)
    (l_pending l) (l_left l).
Definition set_roster (members : list EntityKey) (mp : gmap string Props) (l : Lobby) : Lobby :=
  mkLobby (l_id l) (l_connection l) (l_owner l) (l_has_owner l) (l_max l) (l_props l) (l_search l)
    mp members (l_lock l) (l_access l) (l_lock_known l) (l_announced l) (l_pending l) (l_left l).
Definition set_announced (a : gset string) (l : Lobby) : Lobby :=
  mkLobby (l_id l) (l_connection l) (l_owner l) (l_has_owner l) (l_max l) (l_props l) (l_search l)
    (l_member_props l) (l_members l) (l_lock l) (l_access l) (l_lock_known l) a
    (l_pending l) (l_left l).
Definition set_lock_known (l : Lobby) : Lobby :=
  mkLobby (l_id l) (l_connection l) (l_owner l) (l_has_owner l) (l_max l) (l_props l) (l_search l)
    (l_member_props l) (l_members l) (l_lock l) (l_access l) true (l_announced l)
    (l_pending l) (l_left l).
Definition set_flags (pending left : bool) (l : Lobby) : Lobby :=
  mkLobby (l_id l) (l_connection l) (l_owner l) (l_has_owner l) (l_max l) (l_props l) (l_search l)
    (l_member_props l) (l_members l) (l_lock l) (l_access l) (l_lock_known l) (l_announced l)
    pending left.

(** What an Updated compares. *)
Record LobbySnapshot := mkSnapshot {
  s_owner : EntityKey;
  s_has_owner : bool;
  s_max : Z;
  s_access : Z;
  s_lock : Z;
  s_props : Props;
  s_search : Props;
  s_member_props : gmap string Props;
}.

Record MemberUpdate := mkMemberUpdate {
  mu_member : EntityKey;
  mu_connection : bool;
  mu_keys : list string;
}.

(** What an Updated reports. *)
Record LobbyDelta := mkDelta {
  d_owner : bool;
  d_max : bool;
  d_access : bool;
  d_lock : bool;
  d_search_keys : list string;
  d_lobby_keys : list string;
  d_members : list MemberUpdate;
}.
Definition no_delta : LobbyDelta := mkDelta false false false false [] [] [].
Definition with_lock (d : LobbyDelta) : LobbyDelta :=
  mkDelta (d_owner d) (d_max d) (d_access d) true (d_search_keys d) (d_lobby_keys d) (d_members d).

Definition delta_empty (d : LobbyDelta) : bool :=
  negb (d_owner d) && negb (d_max d) && negb (d_access d) && negb (d_lock d) &&
  bool_decide (d_search_keys d = []) && bool_decide (d_lobby_keys d = []) &&
  match d_members d with [] => true | _ => false end.

(** ** State changes and jobs *)

Record SearchResult := mkSearchResult {
  sr_lobby : CPtr;
  sr_connection : CPtr;
  sr_owner : option EntityKey;
  sr_max : Z;
  sr_current : Z;
  sr_search : list (CPtr * CPtr);
}.

Inductive Change :=
  | CreateCompleted (code ctx lobby : Z)
  | JoinCompleted (code : Z) (joiner : CPtr) (lobby : Z)
  | MemberAdded (lobby : Z) (member : EntityKey)
  | MemberRemoved (lobby : Z) (member : EntityKey)
  | LeaveCompleted (code : Z)
  | Updated (lobby : Z) (delta : LobbyDelta)
  | PostCompleted (code lobby : Z) (member : option EntityKey) (ctx : Z)
  | Disconnected (lobby : Z)
  | FindCompleted (code : Z) (entity : EntityKey) (ctx : Z) (rows : list SearchResult).

(** The tag in the first four bytes of the record. *)
Definition change_type (c : Change) : Z :=
  match c with
  | CreateCompleted _ _ _ => 0
  | JoinCompleted _ _ _ => 1
  | MemberAdded _ _ => 2
  | MemberRemoved _ _ => 4
  | LeaveCompleted _ => 6
  | Updated _ _ => 7
  | PostCompleted _ _ _ _ => 8
  | Disconnected _ => 10
  | FindCompleted _ _ _ _ => 12
  end.

Record CreateJob := mkCreateJob {
  cj_generation : Z;
  cj_body : string;
  cj_owner : EntityKey;
  cj_lobby : Z;
  cj_ctx : Z;
  cj_max : Z;
  cj_lobby_data : gmap string string;
  cj_search : gmap string string;
}.
Record JoinJob := mkJoinJob {
  jj_generation : Z;
  jj_body : string;
  jj_joiner : EntityKey;
  jj_member_kv : gmap string string;
  jj_lobby : Z;
  jj_ctx : Z;
}.
Record FindJob := mkFindJob {
  fj_generation : Z;
  fj_body : string;
  fj_entity : EntityKey;
  fj_ctx : Z;
}.
Record LeaveJob := mkLeaveJob { lj_generation : Z; lj_body : string; lj_lobby : Z }.
Record PostJob := mkPostJob {
  pj_generation : Z;
  pj_body : string;
  pj_lobby : Z;
  pj_member : option EntityKey;
  pj_ctx : Z;
  pj_delta : LobbyDelta;
}.

Inductive BrokerJob :=
  | Create (j : CreateJob)
  | Join (j : JoinJob)
  | Find (j : FindJob)
  | LeaveLobby (j : LeaveJob)
  | PostUpdate (j : PostJob).

Record PendingJoin := mkPendingJoin {
  pd_lobby : Z;
  pd_joiner : EntityKey;
  pd_ctx : Z;
  pd_emitted : bool;
}.

(** A job whose requests are answered, waiting to be applied under the lock. *)
Inductive Outcome :=
  | OCreate (j : CreateJob) (status : Z) (text : string)
  | OJoinFailed (j : JoinJob) (code : Z)
  | OJoined (j : JoinJob) (got : string)
  | OFound (j : FindJob) (status : Z) (text : string) (rows : list string)
  | OLeft (j : LeaveJob) (code : Z)
  | OPosted (j : PostJob) (code : Z).

(** Where the broker worker stands: between jobs, between a job's requests and its critical
    section, or in a poll round with the lobbies still to poll. *)
Inductive Worker :=
  | WIdle
  | WApply (o : Outcome)
  | WPolling (targets : list (Z * string))
  | WPolled (lobby : Z) (resp : option (Z * string)) (targets : list (Z * string)).

(** ** The world *)

(** [m_array] is the address of the batch array the title was given last. The last two fields are
    logs: where the instance starts in the log of the world, and the batches it gave out. *)
Record Mp := mkMp {
  m_token : option string;
  m_entity : option EntityKey;
  m_generation : Z;
  m_lobbies : list Z;
  m_pending : list Change;
  m_in_flight : list Change;
  m_outstanding : bool;
  m_joins : list PendingJoin;
  m_array : Z;
  m_start : nat;
  m_batches : list (list Change);
}.

Definition set_identity (token : option string) (e : option EntityKey) (m : Mp) : Mp :=
  mkMp token e (m_generation m) (m_lobbies m) (m_pending m) (m_in_flight m) (m_outstanding m)
    (m_joins m) (m_array m) (m_start m) (m_batches m).
Definition set_lobbies (l : list Z) (m : Mp) : Mp :=
  mkMp (m_token m) (m_entity m) (m_generation m) l (m_pending m) (m_in_flight m) (m_outstanding m)
    (m_joins m) (m_array m) (m_start m) (m_batches m).
Definition set_queue (pending in_flight : list Change) (outstanding : bool) (array : Z) (m : Mp) : Mp :=
  mkMp (m_token m) (m_entity m) (m_generation m) (m_lobbies m) pending in_flight outstanding
    (m_joins m) array (m_start m) (m_batches m).
Definition set_batches (bs : list (list Change)) (m : Mp) : Mp :=
  mkMp (m_token m) (m_entity m) (m_generation m) (m_lobbies m) (m_pending m) (m_in_flight m)
    (m_outstanding m) (m_joins m) (m_array m) (m_start m) bs.
Definition set_joins (l : list PendingJoin) (m : Mp) : Mp :=
  mkMp (m_token m) (m_entity m) (m_generation m) (m_lobbies m) (m_pending m) (m_in_flight m)
    (m_outstanding m) l (m_array m) (m_start m) (m_batches m).

(** The globals [INSTANCE_GEN], [AUTH], [LOCAL_ENTITY], the worker's queue and state, and two logs:
    the requests made, as bytes, and every state change ever queued. *)
Record MpWorld := mkMpWorld {
  w_mp : option Mp;
  w_gen : Z;
  w_auth : string;
  w_local : string;
  w_lobbies : gmap Z Lobby;
  w_next : Z;
  w_queue : list BrokerJob;
  w_started : bool;
  w_worker : Worker;
  w_next_poll : Z;
  w_reads : nat;
  w_http : list (list byte);
  w_log : list Change;
}.

Definition mp_world_init : MpWorld :=
  mkMpWorld None 0 "" "" ∅ 1 [] false WIdle 0 0 [] [].

Definition w_set_mp (m : option Mp) (w : MpWorld) : MpWorld :=
  mkMpWorld m (w_gen w) (w_auth w) (w_local w) (w_lobbies w) (w_next w) (w_queue w) (w_started w)
    (w_worker w) (w_next_poll w) (w_reads w) (w_http w) (w_log w).
Definition w_set_gen (g : Z) (w : MpWorld) : MpWorld :=
  mkMpWorld (w_mp w) g (w_auth w) (w_local w) (w_lobbies w) (w_next w) (w_queue w) (w_started w)
    (w_worker w) (w_next_poll w) (w_reads w) (w_http w) (w_log w).
Definition w_set_identity (auth loc : string) (w : MpWorld) : MpWorld :=
  mkMpWorld (w_mp w) (w_gen w) auth loc (w_lobbies w) (w_next w) (w_queue w) (w_started w)
    (w_worker w) (w_next_poll w) (w_reads w) (w_http w) (w_log w).
Definition w_set_heap (ls : gmap Z Lobby) (next : Z) (w : MpWorld) : MpWorld :=
  mkMpWorld (w_mp w) (w_gen w) (w_auth w) (w_local w) ls next (w_queue w) (w_started w)
    (w_worker w) (w_next_poll w) (w_reads w) (w_http w) (w_log w).
Definition w_set_queue (q : list BrokerJob) (started : bool) (w : MpWorld) : MpWorld :=
  mkMpWorld (w_mp w) (w_gen w) (w_auth w) (w_local w) (w_lobbies w) (w_next w) q started
    (w_worker w) (w_next_poll w) (w_reads w) (w_http w) (w_log w).
Definition w_set_worker (k : Worker) (w : MpWorld) : MpWorld :=
  mkMpWorld (w_mp w) (w_gen w) (w_auth w) (w_local w) (w_lobbies w) (w_next w) (w_queue w)
    (w_started w) k (w_next_poll w) (w_reads w) (w_http w) (w_log w).
Definition w_set_next_poll (t : Z) (w : MpWorld) : MpWorld :=
  mkMpWorld (w_mp w) (w_gen w) (w_auth w) (w_local w) (w_lobbies w) (w_next w) (w_queue w)
    (w_started w) (w_worker w) t (w_reads w) (w_http w) (w_log w).
Definition w_set_reads (k : nat) (w : MpWorld) : MpWorld :=
  mkMpWorld (w_mp w) (w_gen w) (w_auth w) (w_local w) (w_lobbies w) (w_next w) (w_queue w)
    (w_started w) (w_worker w) (w_next_poll w) k (w_http w) (w_log w).
Definition w_set_http (h : list (list byte)) (w : MpWorld) : MpWorld :=
  mkMpWorld (w_mp w) (w_gen w) (w_auth w) (w_local w) (w_lobbies w) (w_next w) (w_queue w)
    (w_started w) (w_worker w) (w_next_poll w) (w_reads w) h (w_log w).
Definition w_set_log (l : list Change) (w : MpWorld) : MpWorld :=
  mkMpWorld (w_mp w) (w_gen w) (w_auth w) (w_local w) (w_lobbies w) (w_next w) (w_queue w)
    (w_started w) (w_worker w) (w_next_poll w) (w_reads w) (w_http w) l.

(** ** The outside *)

(** The clock in milliseconds, an HTTP exchange with the broker, the address of a batch array, and
    the configuration. *)
Class MpEnv := {
  clock_at : nat → Z;
  reply_at : nat → list byte → Reply;
  array_at : nat → Z;
  mp_cfg : LanCfg;
}.

Abbreviation MC := (comp MpWorld).
#[local] Open Scope comp_scope.

Definition observe {A} (f : nat → A) : MC A := λ w,
  Some (f (w_reads w), w_set_reads (S (w_reads w)) w).

(** [&mut *lobby]. *)
Definition get_lobby (p : Z) : MC Lobby := λ w, l ← w_lobbies w !! p; Some (l, w).
Definition put_lobby (p : Z) (l : Lobby) (w : MpWorld) : MpWorld :=
  w_set_heap (<[p := l]> (w_lobbies w)) (w_next w) w.
Definition mod_lobby (p : Z) (f : Lobby → Lobby) : MC unit :=
  let* l := get_lobby p in modify (put_lobby p (f l)).

(** [Box::into_raw(Box::new(lobby))]. *)
Definition new_lobby (l : Lobby) : MC Z :=
  let* p := gets w_next in
  modify (λ w, w_set_heap (<[p := l]> (w_lobbies w)) (p + 1) w);;
  mret p.

(** The instance inside [with_mp]. *)
Definition get_mp : MC Mp := λ w, m ← w_mp w; Some (m, w).
Definition mod_mp (f : Mp → Mp) : MC unit := let* m := get_mp in modify (w_set_mp (Some (f m))).
Definition with_mp {A} (f : MC A) (default : A) : MC A :=
  let* m := gets w_mp in
  match m with Some _ => f | None => mret default end.

(** [queue]; the allocation of the record is assumed to succeed. *)
Definition queue (c : Change) : MC unit :=
  mod_mp (λ m, set_queue (m_pending m ++ [c]) (m_in_flight m) (m_outstanding m) (m_array m) m);;
  modify (λ w, w_set_log (w_log w ++ [c]) w).
