(* ===== verification/MpJson.v ===== *)
(** * Lobby texts: [playfab-mp-shim/src/lib.rs], requests and responses

    The request bodies the exports build, and what is read out of the broker's
    responses.  A [HashMap] is visited in the order of the class [HashOrder]. *)

From S2P Require Import Prelude RustStr Http Descriptor Json Value Comp MpState.
#[local] Open Scope string_scope.
#[local] Open Scope list_scope.
#[local] Open Scope Z_scope.

(** ** Values *)

Definition broker_error_code (status : Z) (body : string) : Z :=
  if contains "LobbyNotFound" body then E_PF_LOBBY_NOT_FOUND
  else if contains "LobbyMemberLimitExceeded" body || contains "PartyMemberLimitExceeded" body
  then E_PF_LOBBY_FULL
  else if contains "LobbyNotJoinable" body then E_PF_LOBBY_NOT_JOINABLE
  else if contains "LobbyPlayerAlreadyJoined" body || contains "LobbyAlreadyMember" body
  then E_PF_LOBBY_ALREADY_MEMBER
  else if status =? 400 then E_PF_SERVICE_BAD_REQUEST
  else if status =? 404 then E_PF_LOBBY_NOT_FOUND
  else if status =? 409 then E_PF_SERVICE_UNEXPECTED
  else if (500 <=? status) && (status <? 600) then E_PF_SERVICE_5XX
  else if (400 <=? status) && (status <? 500) then E_PF_SERVICE_4XX
  else E_PF_SERVICE_UNEXPECTED.

Definition json_max_players (blob : string) : Z :=
  clamp (default 8 (json_u32 blob "MaxPlayers" or_else json_u32 blob "max_member")) 2 32.

Definition parse_membership_lock (s : string) : Z :=
  if eq_ignore_ascii_case s "locked" || bool_decide (s = "1") then 1 else 0.

Definition parse_access_policy (s : string) : Z :=
  let s := to_ascii_lowercase s in
  if bool_decide (s = "friends") then 1 else if bool_decide (s = "private") then 2 else 0.

Definition access_policy_name (v : Z) : string :=
  if v =? 1 then "Friends" else if v =? 2 then "Private" else "Public".

Definition numeric (s : string) : bool :=
  negb (bool_decide (s = "")) && forallb is_ascii_digit (sbytes s).

Definition decimal_account_id (entity_id : string) : string :=
  if numeric entity_id then entity_id
  else
    let n := fold_left (λ n b, (Z.lxor n (bz b) * 16777619) mod U64) (sbytes entity_id) 2166136261 in
    fmt_dec (if n =? 0 then 1 else n).

Definition is_real_network_descriptor (s : string) : bool :=
  starts_with "LAN1." s && (5 <? length (sbytes s))%nat.

Definition lan1_network_id (desc : string) : option string :=
  rest ← strip_prefix "LAN1." desc;
  let nid := default [] (head (split_b x2e (sbytes rest))) in
  if (8 <=? length nid)%nat then Some (bstr nid) else None.

Section env.
Context `{HashOrder}.

(** The elements of a [HashSet], in iteration order. *)
Definition set_order (X : gset string) : list string := (hash_order (gset_to_gmap () X)).*1.

(** ** Property bags *)

(** [for (k, v) in src { dst.insert(k, CString::new(v)) }]. *)
Definition apply_props (dst : Props) (src : gmap string string) : Props := (ctext <$> src) ∪ dst.
Definition drop_props (dst : Props) (keys : list string) : Props := foldl (λ d k, delete k d) dst keys.
Definition ensure_cstr_map (m : gmap string string) : Props := ctext <$> m.

Definition ensure_member_props (mp : Props) (entity_id : string) : Props :=
  let plat := default "" (mp !! "member_platform") in
  let mp := if bool_decide (plat = "") || bool_decide (plat = "1")
            then <["member_platform" := "Steam"]> mp else mp in
  let account :=
    match mp !! "member_platform_account_id" with
    | Some s => if numeric s then Some s else None
    | None => None
    end or_else (if numeric entity_id then Some entity_id else None) in
  let account := default (decimal_account_id entity_id) account in
  let mp := <["member_platform_account_id" :=
               if bool_decide (x00 ∈ sbytes account) then "1" else account]> mp in
  match mp !! "member_platform_user_name" with
  | Some _ => mp
  | None => <["member_platform_user_name" := "LAN"]> mp
  end.

(** A bag as a JSON object: the values are escaped, the keys are not. *)
Definition bag_json (m : Props) : string :=
  text_object (map (λ f, (f.1, json_escape f.2)) (hash_order m)).

Definition member_data_json (entity_id : string) (extra : gmap string string) : string :=
  bag_json (ensure_member_props (apply_props ∅ extra) entity_id).

Definition member_props_json_for (lobby : Lobby) (eid : string) : option string :=
  member_data_json eid <$> l_member_props lobby !! eid.

(** The [*ToDelete] arrays. *)
Definition q_str_list (keys : list string) : string :=
  join "," (map (λ k, quoted_text (json_escape k)) keys).

(** ** Request bodies *)

(** ["key":{...}] and other fields whose value is not a string. *)
Definition raw_field (key val : string) : string := quoted_text key +:+ ":" +:+ val.
Definition key_json (id type : string) : string :=
  "{" +:+ text_field "Id" id +:+ "," +:+ text_field "Type" type +:+ "}".

Definition build_create_body (max owner_migration_policy : Z) (lobby_data search : gmap string string)
    (owner_id : string) (member_kv : gmap string string) : string :=
  let owner := if bool_decide (owner_id = "") then ""
    else "," +:+ raw_field "Owner" (key_json (json_escape owner_id) "title_player_account") in
  "{" +:+ raw_field "MaxPlayers" (fmt_dec max) +:+ "," +:+
  raw_field "OwnerMigrationPolicy" (fmt_dec owner_migration_policy) +:+ "," +:+
  raw_field "LobbyData" (bag_json lobby_data) +:+ "," +:+
  raw_field "SearchData" (bag_json search) +:+ owner +:+ "," +:+
  raw_field "MemberData" (member_data_json owner_id member_kv) +:+ "}".

Definition build_join_body (conn joiner_id : string) (member_kv : gmap string string) : string :=
  let member := if bool_decide (joiner_id = "") then ""
    else "," +:+ raw_field "MemberEntity" (key_json (json_escape joiner_id) "title_player_account") +:+
         "," +:+ raw_field "MemberData" (member_data_json joiner_id member_kv) in
  "{" +:+ text_field "ConnectionString" (json_escape conn) +:+ member +:+ "}".

(** [PFLobbyDataUpdate]'s scalar fields, where the title gave them. *)
Record PostUpdateScalars := mkScalars {
  u_owner : option EntityKey;
  u_max : option Z;
  u_access : option Z;
  u_lock : option Z;
}.
Definition no_scalars : PostUpdateScalars := mkScalars None None None None.

(** A piece of the body that is there when [x] is. *)
Definition opt_text {A} (x : option A) (f : A → string) : string :=
  match x with Some x => f x | None => "" end.
Definition delete_field (key : string) (keys : list string) : string :=
  match keys with [] => "" | _ => "," +:+ raw_field key ("[" +:+ q_str_list keys +:+ "]") end.

(** [local_entity] is the global [LOCAL_ENTITY]. *)
Definition build_update_body (local_entity : string) (lobby : Lobby)
    (search_delete lobby_delete : list string) (member_target : option string)
    (member_delete : list string) (scalars : PostUpdateScalars) : string :=
  let target := member_target or_else
    (if bool_decide (local_entity = "") then None else Some local_entity) in
  let md := opt_text target (λ eid, opt_text (member_props_json_for lobby eid) (λ s,
    "," +:+ raw_field "MemberData" s +:+
    opt_text member_target (λ _,
      "," +:+ raw_field "MemberEntity" (key_json (json_escape eid) "title_player_account")))) in
  let extras :=
    delete_field "SearchDataToDelete" search_delete +:+
    delete_field "LobbyDataToDelete" lobby_delete +:+
    opt_text (u_owner scalars) (λ o,
      "," +:+ raw_field "Owner" (key_json (json_escape (read_cstr (ek_id o)))
                                          (json_escape (read_cstr (ek_type o))))) +:+
    opt_text (u_max scalars) (λ m, "," +:+ raw_field "MaxPlayers" (fmt_dec m)) +:+
    opt_text (u_access scalars) (λ a, "," +:+ text_field "AccessPolicy" (access_policy_name a)) +:+
    opt_text (u_lock scalars) (λ k,
      "," +:+ text_field "MembershipLock" (if k =? 1 then "Locked" else "Unlocked")) +:+
    opt_text member_target (λ _, delete_field "MemberDataToDelete" member_delete) in
  "{" +:+ text_field "LobbyId" (l_id lobby) +:+ "," +:+
  raw_field "LobbyData" (bag_json (l_props lobby)) +:+ "," +:+
  raw_field "SearchData" (bag_json (l_search lobby)) +:+ md +:+ extras +:+ "}".

(** The friends filter of a search: two flags and a token. *)
Record FriendsFilter := mkFriends { ff_steam : Z; ff_facebook : Z; ff_token : CPtr }.

Definition fmt_bool (b : bool) : string := if b then "true" else "false".

Definition build_find_body (eid filter sort : string) (count : option Z)
    (friends : option FriendsFilter) : string :=
  let text key s := if bool_decide (s = "") then [] else [text_field key (json_escape s)] in
  "{" +:+ join "," (
    text "EntityId" eid ++ text "Filter" filter ++ text "Sort" sort ++
    option_list ((λ c, raw_field "ClientSearchResultCount" (fmt_dec c)) <$> count) ++
    option_list ((λ f, raw_field "FriendsFilter"
      ("{" +:+ raw_field "IncludeSteamFriends" (fmt_bool (negb (ff_steam f =? 0))) +:+ "," +:+
       raw_field "IncludeFacebookFriends" (fmt_bool (negb (ff_facebook f =? 0))) +:+ "," +:+
       text_field "IncludeXboxFriendsToken" (json_escape (read_cstr (ff_token f))) +:+ "}")) <$> friends)
  ) +:+ "}".

(** The bodies that carry a lobby identifier as it stands. *)
Definition lobby_id_body (id : string) : string := "{" +:+ text_field "LobbyId" id +:+ "}".
Definition build_leave_body (id eid : string) : string :=
  if bool_decide (eid = "") then lobby_id_body id
  else "{" +:+ text_field "LobbyId" id +:+ "," +:+ text_field "EntityId" (json_escape eid) +:+ "}".

(** ** Responses *)

(** [s.split(pat).nth(1)]: what follows the first occurrence, up to the second. *)
Definition split_nth1 (pat s : list byte) : option (list byte) :=
  i ← find_sub pat s;
  let rest := drop (i + length pat) s in
  Some (match find_sub pat rest with Some j => take j rest | None => rest end).

(** The text up to the first byte [c]. *)
Definition before_byte (c : byte) (l : list byte) : list byte := default [] (head (split_b c l)).

Definition member_id_of (m : string) : option string :=
  json_str m "Id" or_else json_str m "id"
  or_else (match json_obj m "MemberEntity" !! "Id" with
           | Some s => if bool_decide (s = "") then None else Some s
           | None => None
           end)
  or_else ((λ s, bstr (before_byte x22 s)) <$>
             split_nth1 (sbytes (quoted_text "Id" +:+ ":") ++ [x22]) (sbytes m)).

(** One element of [Members]: the roster and the property bags so far. *)
Definition read_member (acc : list EntityKey * gmap string Props) (m : string)
    : list EntityKey * gmap string Props :=
  match member_id_of m with
  | None => acc
  | Some eid =>
      (acc.1 ++ [player_key eid],
       <[eid := ensure_member_props (apply_props ∅ (json_obj m "MemberData")) eid]> acc.2)
  end.

Definition lobby_from_json (text : string) : option Lobby :=
  id ← json_str text "LobbyId";
  let conn := default ("lan." +:+ id) (json_str text "ConnectionString") in
  let '(members, member_props) := foldl read_member ([], ∅) (json_arr_objects text "Members") in
  let owner_id :=
    match json_obj text "Owner" !! "Id" with
    | Some s => if bool_decide (s = "") then None else Some s
    | None => None
    end in
  if bool_decide (x00 ∈ sbytes id) || bool_decide (x00 ∈ sbytes conn) then None
  else Some (mkLobby id conn (player_key (default "owner" owner_id)) (bool_decide (is_Some owner_id))
    (json_max_players text)
    (ensure_cstr_map (json_obj text "LobbyData")) (ensure_cstr_map (json_obj text "SearchData"))
    member_props members
    (default 0 (parse_membership_lock <$> json_str text "MembershipLock"))
    (default 0 (parse_access_policy <$> json_str text "AccessPolicy"))
    false ∅ false false).

Definition lobby_ready_for_guest (lobby : Lobby) : bool :=
  match l_props lobby !! "network_descriptor" with
  | None => false
  | Some desc =>
      is_real_network_descriptor desc &&
      match l_props lobby !! "invitation_identifier" with
      | Some s => negb (bool_decide (s = "")) && negb (bool_decide (s = "dummy"))
      | None => false
      end
  end.

(** ** Search rows *)

Definition intern_owner_key (row : string) : option EntityKey :=
  let owner := json_obj row "Owner" in
  let id := default "" ((owner !! "Id") or_else json_str row "Owner") in
  if bool_decide (id = "") then None
  else Some (mkEntityKey (intern id) (intern (default "title_player_account" (owner !! "Type")))).

(** At most 32 pairs. *)
Definition intern_kv_arrays (m : gmap string string) : list (CPtr * CPtr) :=
  map (λ f, (intern f.1, intern f.2)) (take 32 (hash_order m)).

Fixpoint take_while {A} (p : A → bool) (l : list A) : list A :=
  match l with [] => [] | x :: l => if p x then x :: take_while p l else [] end.

Definition current_players (row : string) (max_member : Z) : Z :=
  clamp (default 1 ((json_str row "CurrentPlayers" ≫= parse_u32)
    or_else (s ← split_nth1 (sbytes (quoted_text "CurrentPlayers" +:+ ":")) (sbytes row);
             parse_u32 (bstr (take_while is_ascii_digit s)))))
    1 max_member.

Definition search_result (row : string) : SearchResult :=
  let max_member := json_max_players row in
  mkSearchResult (intern (default "" (json_str row "LobbyId")))
    (intern (default "" (json_str row "ConnectionString")))
    (intern_owner_key row) max_member (current_players row max_member)
    (intern_kv_arrays (json_obj row "SearchData")).
End env.
