(* ===== verification/MpLayout.v ===== *)
(** * The bytes the title reads: [playfab-mp-shim/src/lib.rs], the records of the state changes

    [MpState] queues a state change as a value; the shim queues the address of
    a record it fills byte by byte, with arrays and C strings behind it.  Here
    the records are written into a memory of blocks, and read back the way the
    title reads them.

    A block is what one allocation returned: it is named by its address, and a
    write outside it is a fault.  An allocation may return null; where the code
    goes on without the block it does so here, where Rust's own containers end
    the process ([CString], [Box]) the run is [Aborted].  [m_oom] remembers that
    some allocation returned null. *)

From S2P Require Import Prelude RustStr Http Wire Descriptor Json Value MpState MpJson.
#[local] Open Scope string_scope.
#[local] Open Scope list_scope.
#[local] Open Scope Z_scope.

(** ** Memory *)

Abbreviation Heap := (gmap Z (list byte)).
Record Mem := mkMem { m_heap : Heap; m_oom : bool }.

Inductive res (A : Type) :=
  | Ret (x : A)
  | Aborted
  | Fault.
Arguments Ret {A} x.
Arguments Aborted {A}.
Arguments Fault {A}.

Definition MM (A : Type) : Type := Mem → res A * Mem.

(** The allocator: null, or a range of addresses that meets no block there is. *)
Class Allocator := {
  alloc_at : Heap → nat → Z;
  alloc_law h n :
    alloc_at h n = 0 ∨
    0 < alloc_at h n ∧ alloc_at h n + Z.of_nat n <= U64 ∧ h !! alloc_at h n = None ∧
    ∀ b l, h !! b = Some l → alloc_at h n + Z.of_nat n <= b ∨ b + Z.of_nat (length l) <= alloc_at h n
}.

Definition ret {A} (x : A) : MM A := λ w, (Ret x, w).
Definition bind {A B} (m : MM A) (f : A → MM B) : MM B := λ w,
  match m w with
  | (Ret x, w') => f x w'
  | (Aborted, w') => (Aborted, w')
  | (Fault, w') => (Fault, w')
  end.

Declare Scope mem_scope.
Notation "'let!' x := m 'in' k" := (bind m (λ x, k))
  (at level 10, x pattern, m at level 100, k at level 200) : mem_scope.
Notation "m >>> k" := (bind m (λ _, k)) (at level 100, k at level 200, right associativity) : mem_scope.
#[local] Open Scope mem_scope.

Fixpoint each_from {X} (f : nat → X → MM unit) (i : nat) (l : list X) : MM unit :=
  match l with [] => ret tt | x :: l => f i x >>> each_from f (S i) l end.

(** *** Little-endian fields *)

Definition ptr (a : Z) : list byte := to_le 8 a.
Definition u32 (z : Z) : list byte := to_le 4 z.
Definition i32 (z : Z) : list byte := to_le 4 (z mod U32).
Definition u8 (b : bool) : list byte := [if b then x01 else x00].

(** An [EntityKey] in memory: the addresses of its two strings. *)
Record RawKey := mkRawKey { rk_id : Z; rk_type : Z }.
Definition key_bytes (k : RawKey) : list byte := ptr (rk_id k) ++ ptr (rk_type k).

(** [MemberUpdate] and [LobbyDelta], the keys by address. *)
Record RawUpdate := mkRawUpdate { ru_member : RawKey; ru_connection : bool; ru_keys : list string }.
Record RawDelta := mkRawDelta {
  rd_owner : bool; rd_max : bool; rd_access : bool; rd_lock : bool;
  rd_search_keys : list string; rd_lobby_keys : list string; rd_members : list RawUpdate
}.

Section writers.
Context `{A : Allocator} `{O : HashOrder}.

Definition alloc_zeroed (n : nat) : MM Z := λ w,
  let a := alloc_at (m_heap w) n in
  if a =? 0 then (Ret 0, mkMem (m_heap w) true)
  else (Ret a, mkMem (<[a := replicate n x00]> (m_heap w)) (m_oom w)).

(** [Box::new], [CString::new]: no null is returned. *)
Definition boxed (l : list byte) : MM Z := λ w,
  let a := alloc_at (m_heap w) (length l) in
  if a =? 0 then (Aborted, mkMem (m_heap w) true)
  else (Ret a, mkMem (<[a := l]> (m_heap w)) (m_oom w)).

(** [ptr::write_unaligned]. *)
Definition store (p : Z) (off : nat) (l : list byte) : MM unit := λ w,
  match m_heap w !! p with
  | Some b =>
      if (off + length l <=? length b)%nat then (Ret tt, mkMem (<[p := write_at off l b]> (m_heap w)) (m_oom w))
      else (Fault, w)
  | None => (Fault, w)
  end.

(** ** Strings and arrays *)

Definition intern_at (s : string) : MM Z := boxed (sbytes (ctext s) ++ [x00]).

Definition intern_cstr_list (items : list string) : MM (Z * Z) :=
  match items with
  | [] => ret (0, 0)
  | _ =>
      let! arr := alloc_zeroed (8 * length items) in
      if arr =? 0 then ret (0, 0)
      else
        each_from (λ i s, let! q := intern_at s in store arr (i * 8) (ptr q)) 0 items >>>
        ret (Z.of_nat (length items) mod U32, arr)
  end.

Definition STRIDE : nat := 32.
Definition member_update_entry (base : Z) (i : nat) (u : RawUpdate) : MM unit :=
  let e := (i * STRIDE)%nat in
  store base e (key_bytes (ru_member u)) >>>
  store base (e + 16) (u8 (ru_connection u)) >>>
  let! (n, keys) := intern_cstr_list (ru_keys u) in
  store base (e + 20) (u32 n) >>>
  store base (e + 24) (ptr keys).
Definition member_update_entries (updates : list RawUpdate) : MM (Z * Z) :=
  match updates with
  | [] => ret (0, 0)
  | _ =>
      let! base := alloc_zeroed (length updates * STRIDE) in
      if base =? 0 then ret (0, 0)
      else
        each_from (member_update_entry base) 0 updates >>>
        ret (Z.of_nat (length updates) mod U32, base)
  end.

Definition intern_kv_arrays_at (m : gmap string string) : MM (Z * Z * Z) :=
  let n := (length (hash_order m) `min` 32)%nat in
  if (n =? 0)%nat then ret (0, 0, 0)
  else
    let! keys := alloc_zeroed (8 * n) in
    let! vals := alloc_zeroed (8 * n) in
    if (keys =? 0) || (vals =? 0) then ret (0, 0, 0)
    else
      each_from (λ i f,
        let! k := intern_at f.1 in store keys (i * 8) (ptr k) >>>
        let! v := intern_at f.2 in store vals (i * 8) (ptr v)) 0 (take n (hash_order m)) >>>
      ret (Z.of_nat n, keys, vals).

Definition intern_owner_key_at (row : string) : MM Z :=
  let owner := json_obj row "Owner" in
  let id := default "" ((owner !! "Id") or_else json_str row "Owner") in
  if bool_decide (id = "") then ret 0
  else
    let! i := intern_at id in
    let! t := intern_at (default "title_player_account" (owner !! "Type")) in
    boxed (key_bytes (mkRawKey i t)).

(** ** The records *)

Definition alloc_sc (size : nat) (ty : Z) : MM Z :=
  let! p := alloc_zeroed (size `max` 8) in
  if p =? 0 then ret p else store p 0 (u32 ty) >>> ret p.

(** A record that is filled when there is one; the address is given to [queue], which ignores null. *)
Definition record (size : nat) (ty : Z) (fill : Z → MM unit) : MM Z :=
  let! p := alloc_sc size ty in
  if p =? 0 then ret 0 else fill p >>> ret p.

Definition create_completed_at (code ctx lobby : Z) : MM Z :=
  record 32 0 (λ sc, store sc 4 (i32 code) >>> store sc 8 (ptr ctx) >>> store sc 16 (ptr lobby)).
Definition join_completed_at (code : Z) (joiner : RawKey) (lobby : Z) : MM Z :=
  record 40 1 (λ sc, store sc 4 (i32 code) >>> store sc 8 (ptr (rk_id joiner)) >>> store sc 32 (ptr lobby)).
Definition member_added_at (lobby : Z) (member : RawKey) : MM Z :=
  record 40 2 (λ sc, store sc 8 (ptr lobby) >>> store sc 16 (key_bytes member)).
Definition member_removed_at (lobby : Z) (eid : string) : MM Z :=
  record 40 4 (λ sc,
    store sc 4 (i32 0) >>> store sc 8 (ptr lobby) >>>
    let! i := intern_at eid in
    let! t := intern_at "title_player_account" in
    store sc 16 (key_bytes (mkRawKey i t)) >>> store sc 32 (u32 0)).
Definition leave_completed_at (code : Z) : MM Z := record 24 6 (λ sc, store sc 4 (i32 code)).
Definition updated_at (lobby : Z) (d : RawDelta) : MM Z :=
  record 88 7 (λ sc,
    store sc 8 (ptr lobby) >>>
    store sc 16 (u8 (rd_owner d)) >>> store sc 17 (u8 (rd_max d)) >>>
    store sc 18 (u8 (rd_access d)) >>> store sc 19 (u8 (rd_lock d)) >>>
    let! (sn, sk) := intern_cstr_list (rd_search_keys d) in
    store sc 20 (u32 sn) >>> store sc 24 (ptr sk) >>>
    let! (ln, lk) := intern_cstr_list (rd_lobby_keys d) in
    store sc 32 (u32 ln) >>> store sc 40 (ptr lk) >>>
    let! (mn, me) := member_update_entries (rd_members d) in
    store sc 48 (u32 mn) >>> store sc 56 (ptr me)).
Definition post_completed_at (code lobby : Z) (member : option RawKey) (ctx : Z) : MM Z :=
  record 40 8 (λ sc,
    store sc 4 (i32 code) >>> store sc 8 (ptr lobby) >>>
    match member with Some m => store sc 16 (key_bytes m) | None => ret tt end >>>
    store sc 32 (ptr ctx)).
Definition disconnected_at (lobby : Z) : MM Z :=
  record 24 10 (λ sc, store sc 4 (i32 0) >>> store sc 8 (ptr lobby)).

(** One [SearchResult], 80 bytes. *)
Definition ROW : nat := 80.
Definition row_bytes (id conn owner max cur count keys vals : Z) : list byte :=
  ptr id ++ ptr conn ++ ptr owner ++ u32 max ++ u32 cur ++ u32 count ++ u32 0 ++
  ptr keys ++ ptr vals ++ u32 0 ++ u32 0 ++ ptr 0 ++ i32 0 ++ u32 0.
Definition write_row (results : Z) (i : nat) (row : string) : MM unit :=
  let max_member := json_max_players row in
  let cur := current_players row max_member in
  let! (c, keys, vals) := intern_kv_arrays_at (json_obj row "SearchData") in
  let! id := intern_at (default "" (json_str row "LobbyId")) in
  let! conn := intern_at (default "" (json_str row "ConnectionString")) in
  let! owner := intern_owner_key_at row in
  store results (i * ROW) (row_bytes id conn owner max_member cur c keys vals).
Definition find_completed_at (code : Z) (entity : RawKey) (ctx : Z) (rows : list string) : MM Z :=
  let n := (length rows `min` 16)%nat in
  let! results := (if (n =? 0)%nat then ret 0 else alloc_zeroed (n * ROW)) in
  each_from (write_row results) 0 (take n rows) >>>
  record 56 12 (λ sc,
    store sc 4 (i32 code) >>> store sc 8 (key_bytes entity) >>> store sc 24 (ptr ctx) >>>
    store sc 32 (u32 (Z.of_nat n)) >>> store sc 40 (ptr results)).

(** What the shim holds when it queues a change. *)
Inductive RawChange :=
  | RCreateCompleted (code ctx lobby : Z)
  | RJoinCompleted (code : Z) (joiner : RawKey) (lobby : Z)
  | RMemberAdded (lobby : Z) (member : RawKey)
  | RMemberRemoved (lobby : Z) (eid : string)
  | RLeaveCompleted (code : Z)
  | RUpdated (lobby : Z) (delta : RawDelta)
  | RPostCompleted (code lobby : Z) (member : option RawKey) (ctx : Z)
  | RDisconnected (lobby : Z)
  | RFindCompleted (code : Z) (entity : RawKey) (ctx : Z) (rows : list string).

Definition write_change (c : RawChange) : MM Z :=
  match c with
  | RCreateCompleted code ctx lobby => create_completed_at code ctx lobby
  | RJoinCompleted code joiner lobby => join_completed_at code joiner lobby
  | RMemberAdded lobby member => member_added_at lobby member
  | RMemberRemoved lobby eid => member_removed_at lobby eid
  | RLeaveCompleted code => leave_completed_at code
  | RUpdated lobby d => updated_at lobby d
  | RPostCompleted code lobby member ctx => post_completed_at code lobby member ctx
  | RDisconnected lobby => disconnected_at lobby
  | RFindCompleted code entity ctx rows => find_completed_at code entity ctx rows
  end.

(** [queue] one change after the other: the addresses pending. *)
Fixpoint queue_records (cs : list RawChange) : MM (list Z) :=
  match cs with
  | [] => ret []
  | c :: cs =>
      let! p := write_change c in
      let! ps := queue_records cs in
      ret (if p =? 0 then ps else p :: ps)
  end.
End writers.

(** ** What the title reads

    The offsets are those of the SDK's structures and of the code in the
    executable that the comments of the source cite. *)

Definition load (h : Heap) (p : Z) (off n : nat) : option Z :=
  b ← h !! p; if (off + n <=? length b)%nat then Some (from_le (slice off n b)) else None.
Definition load_i32 (h : Heap) (p : Z) (off : nat) : option Z := as_i32 <$> load h p off 4.
Definition load_bool (h : Heap) (p : Z) (off : nat) : option bool := (λ z, negb (z =? 0)) <$> load h p off 1.

(** A C string: null, or the bytes up to the NUL, which has to be there. *)
Definition load_cstr (h : Heap) (a : Z) : option CPtr :=
  if a =? 0 then Some None
  else b ← h !! a; if bool_decide (x00 ∈ b) then Some (Some (until_nul b)) else None.
Definition key_value (h : Heap) (k : RawKey) : option EntityKey :=
  i ← load_cstr h (rk_id k); t ← load_cstr h (rk_type k); Some (mkEntityKey i t).
Definition load_key (h : Heap) (p : Z) (off : nat) : option EntityKey :=
  i ← load h p off 8; t ← load h p (off + 8) 8; key_value h (mkRawKey i t).

(** An array of [n] elements: each by its index. *)
Definition load_array {X} (f : nat → option X) (n : Z) : option (list X) := mapM f (List.seq 0 (Z.to_nat n)).

Definition load_cstr_at (h : Heap) (arr : Z) (i : nat) : option CPtr :=
  q ← load h arr (i * 8) 8; load_cstr h q.
(** The keys of a change are never null. *)
Definition load_string_at (h : Heap) (arr : Z) (i : nat) : option string :=
  p ← load_cstr_at h arr i; s ← p; Some (bstr s).
Definition load_strings (h : Heap) (n arr : Z) : option (list string) := load_array (load_string_at h arr) n.

Definition load_update (h : Heap) (base : Z) (i : nat) : option MemberUpdate :=
  let e := (i * STRIDE)%nat in
  member ← load_key h base e;
  conn ← load_bool h base (e + 16);
  n ← load h base (e + 20) 4;
  arr ← load h base (e + 24) 8;
  keys ← load_strings h n arr;
  Some (mkMemberUpdate member conn keys).

Definition load_delta (h : Heap) (p : Z) : option LobbyDelta :=
  o ← load_bool h p 16; m ← load_bool h p 17; a ← load_bool h p 18; l ← load_bool h p 19;
  sn ← load h p 20 4; sk ← load h p 24 8; search ← load_strings h sn sk;
  ln ← load h p 32 4; lk ← load h p 40 8; lobby ← load_strings h ln lk;
  mn ← load h p 48 4; me ← load h p 56 8; members ← load_array (load_update h me) mn;
  Some (mkDelta o m a l search lobby members).

Definition load_row (h : Heap) (results : Z) (i : nat) : option SearchResult :=
  let e := (i * ROW)%nat in
  id ← load h results e 8; id ← load_cstr h id;
  conn ← load h results (e + 8) 8; conn ← load_cstr h conn;
  op ← load h results (e + 16) 8;
  owner ← (if op =? 0 then Some None else Some <$> load_key h op 0);
  max ← load h results (e + 24) 4; cur ← load h results (e + 28) 4;
  n ← load h results (e + 32) 4;
  keys ← load h results (e + 40) 8; vals ← load h results (e + 48) 8;
  ks ← load_array (load_cstr_at h keys) n; vs ← load_array (load_cstr_at h vals) n;
  Some (mkSearchResult id conn owner max cur (zip ks vs)).

Definition load_change (h : Heap) (p : Z) : option Change :=
  ty ← load h p 0 4;
  match ty with
  | 0 => code ← load_i32 h p 4; ctx ← load h p 8 8; lobby ← load h p 16 8; Some (CreateCompleted code ctx lobby)
  | 1 => code ← load_i32 h p 4; q ← load h p 8 8; joiner ← load_cstr h q; lobby ← load h p 32 8;
         Some (JoinCompleted code joiner lobby)
  | 2 => lobby ← load h p 8 8; member ← load_key h p 16; Some (MemberAdded lobby member)
  | 4 => lobby ← load h p 8 8; member ← load_key h p 16; Some (MemberRemoved lobby member)
  | 6 => code ← load_i32 h p 4; Some (LeaveCompleted code)
  | 7 => lobby ← load h p 8 8; d ← load_delta h p; Some (Updated lobby d)
  | 8 => code ← load_i32 h p 4; lobby ← load h p 8 8; member ← load_key h p 16; ctx ← load h p 32 8;
         Some (PostCompleted code lobby (if bool_decide (member = mkEntityKey None None) then None else Some member) ctx)
  | 10 => lobby ← load h p 8 8; Some (Disconnected lobby)
  | 12 => code ← load_i32 h p 4; entity ← load_key h p 8; ctx ← load h p 24 8;
          n ← load h p 32 4; results ← load h p 40 8; rows ← load_array (load_row h results) n;
          Some (FindCompleted code entity ctx rows)
  | _ => None
  end.

(** The change as a value, the keys read where they are; the title sees a key up to its NUL, which
    [CString::new] makes the empty string. *)
Definition update_value (h : Heap) (u : RawUpdate) : option MemberUpdate :=
  m ← key_value h (ru_member u); Some (mkMemberUpdate m (ru_connection u) (ctext <$> ru_keys u)).
Definition delta_value (h : Heap) (d : RawDelta) : option LobbyDelta :=
  ms ← mapM (update_value h) (rd_members d);
  Some (mkDelta (rd_owner d) (rd_max d) (rd_access d) (rd_lock d)
          (ctext <$> rd_search_keys d) (ctext <$> rd_lobby_keys d) ms).
Definition change_value `{HashOrder} (h : Heap) (c : RawChange) : option Change :=
  match c with
  | RCreateCompleted code ctx lobby => Some (CreateCompleted code ctx lobby)
  | RJoinCompleted code joiner lobby => j ← load_cstr h (rk_id joiner); Some (JoinCompleted code j lobby)
  | RMemberAdded lobby member => m ← key_value h member; Some (MemberAdded lobby m)
  | RMemberRemoved lobby eid => Some (MemberRemoved lobby (player_key eid))
  | RLeaveCompleted code => Some (LeaveCompleted code)
  | RUpdated lobby d => d ← delta_value h d; Some (Updated lobby d)
  | RPostCompleted code lobby None ctx => Some (PostCompleted code lobby None ctx)
  | RPostCompleted code lobby (Some k) ctx =>
      m ← key_value h k;
      Some (PostCompleted code lobby (if bool_decide (m = mkEntityKey None None) then None else Some m) ctx)
  | RDisconnected lobby => Some (Disconnected lobby)
  | RFindCompleted code entity ctx rows =>
      e ← key_value h entity; Some (FindCompleted code e ctx (search_result <$> take 16 rows))
  end.

(** The numbers fit their fields. *)
Definition is_i32 (z : Z) : Prop := - I32 <= z < I32.
Definition key_fits (k : RawKey) : Prop := is_u64 (rk_id k) ∧ is_u64 (rk_type k).
Definition keys_fit {X} (l : list X) : Prop := Z.of_nat (length l) < U32.
Definition change_fits (c : RawChange) : Prop :=
  match c with
  | RCreateCompleted code ctx lobby => is_i32 code ∧ is_u64 ctx ∧ is_u64 lobby
  | RJoinCompleted code joiner lobby => is_i32 code ∧ key_fits joiner ∧ is_u64 lobby
  | RMemberAdded lobby member => is_u64 lobby ∧ key_fits member
  | RMemberRemoved lobby _ | RDisconnected lobby => is_u64 lobby
  | RLeaveCompleted code => is_i32 code
  | RUpdated lobby d =>
      is_u64 lobby ∧ keys_fit (rd_search_keys d) ∧ keys_fit (rd_lobby_keys d) ∧ keys_fit (rd_members d) ∧
      Forall (λ u, key_fits (ru_member u) ∧ keys_fit (ru_keys u)) (rd_members d)
  | RPostCompleted code lobby member ctx =>
      is_i32 code ∧ is_u64 lobby ∧ from_option key_fits True member ∧ is_u64 ctx
  | RFindCompleted code entity ctx _ => is_i32 code ∧ key_fits entity ∧ is_u64 ctx
  end.

(** A list whose array could not be allocated is missing; nothing else differs. *)
Definition dropped {X} (l' l : list X) : Prop := l' = l ∨ l' = [].
Definition update_less (u' u : MemberUpdate) : Prop :=
  mu_member u' = mu_member u ∧ mu_connection u' = mu_connection u ∧ dropped (mu_keys u') (mu_keys u).
Definition row_less (r' r : SearchResult) : Prop :=
  ∃ l, dropped l (sr_search r) ∧
       r' = mkSearchResult (sr_lobby r) (sr_connection r) (sr_owner r) (sr_max r) (sr_current r) l.
Inductive understates : Change → Change → Prop :=
  | understates_refl c : understates c c
  | understates_updated lobby o m a l sk' sk lk' lk ms' ms :
      dropped sk' sk → dropped lk' lk → Forall2 update_less ms' ms ∨ ms' = [] →
      understates (Updated lobby (mkDelta o m a l sk' lk' ms')) (Updated lobby (mkDelta o m a l sk lk ms))
  | understates_found code e ctx rows' rows :
      Forall2 row_less rows' rows → understates (FindCompleted code e ctx rows') (FindCompleted code e ctx rows).
