(* ===== verification/MpRecords.v ===== *)
(** * The records of the state changes read back: [MpLayout]

    What the title reads at the offsets of the SDK is what the shim queued.  The
    writers are verified in a small separation logic: [owns] says what a run does
    with the blocks it owns and that it leaves the others alone, [fills] what it
    does with one block it is filling.  An allocation that fails makes a list
    empty or a record missing ([understates], [records]). *)

From S2P Require Import Prelude RustStr Http Wire Descriptor Json Value MpState MpJson MpLayout.
#[local] Open Scope string_scope.
#[local] Open Scope list_scope.
#[local] Open Scope Z_scope.
#[local] Open Scope mem_scope.

(** ** A separation logic, small

    [owns φ B m Q]: run where the blocks [B] and any others are, [m] leaves the others as they are,
    changes [B] into some [B'], and ends with [Q o B' x]; [o] says that an allocation failed
    meanwhile. It aborts only when one has failed, and faults only when one has and [φ] allows it.
    There is no block at null. *)

Section logic.
Context `{A : Allocator} `{O : HashOrder} (φ : Prop).
#[local] Abbreviation Post X := (bool → Heap → X → Prop) (only parsing).

Definition ends {X} (M : Heap) (oom : bool) (Q : Post X) (out : res X * Mem) : Prop :=
  let '(r, w') := out in
  ∃ B' o, m_heap w' = B' ∪ M ∧ B' ##ₘ M ∧ m_heap w' !! 0 = None ∧ m_oom w' = oom || o ∧
    match r with Ret x => Q o B' x | Aborted => m_oom w' = true | Fault => φ ∧ m_oom w' = true end.
Definition owns {X} (B : Heap) (m : MM X) (Q : Post X) : Prop := ∀ M w,
  m_heap w = B ∪ M → B ##ₘ M → m_heap w !! 0 = None → ends M (m_oom w) Q (m w).
(** The same after a failed allocation. *)
Definition owns_failed {X} (B : Heap) (m : MM X) (Q : Post X) : Prop := ∀ M w,
  m_heap w = B ∪ M → B ##ₘ M → m_heap w !! 0 = None → m_oom w = true → ends M true Q (m w).

Lemma owns_failed_of {X} B (m : MM X) Q : owns B m Q → owns_failed B m Q.
Proof. intros H M w Hw HB H0 Ho. rewrite <- Ho. by apply H. Qed.

Lemma owns_ret {X} (x : X) B (Q : Post X) : Q false B x → owns B (ret x) Q.
Proof. intros HQ M w Hw HB H0. exists B, false. by rewrite orb_false_r. Qed.

Lemma ends_bind {X Y} M oom (f : X → MM Y) (P : Post X) (Q : Post Y) out :
  ends M oom P out → (∀ o B1 x, P o B1 x → (oom || o = true → owns_failed B1 (f x) (λ o', Q (o || o'))) ∧
    (oom || o = false → owns B1 (f x) (λ o', Q (o || o')))) →
  ends M oom Q (match out with (Ret x, w') => f x w' | (Aborted, w') => (Aborted, w') | (Fault, w') => (Fault, w') end).
Proof.
  intros Hm Hf. destruct out as [[x| |] w1]; destruct Hm as (B1 & o & Hw1 & HB1 & H0 & Ho & Hx);
    [|by exists B1, o..].
  destruct (Hf o B1 x Hx) as [Hft Hff].
  assert (He : ends M (oom || o) (λ o', Q (o || o')) (f x w1)).
  { destruct (oom || o) eqn:Hoo; [by apply Hft|]. rewrite <- Ho. by apply Hff. }
  destruct (f x w1) as [r w2]. destruct He as (B2 & o' & Hw2 & HB2 & H02 & Ho' & Hr).
  exists B2, (o || o'). by rewrite orb_assoc.
Qed.

Lemma owns_bind {X Y} B (m : MM X) (f : X → MM Y) (P : Post X) (Q : Post Y) :
  owns B m P → (∀ o B1 x, P o B1 x → owns B1 (f x) (λ o', Q (o || o'))) → owns B (bind m f) Q.
Proof.
  intros Hm Hf M w Hw HB H0. apply (ends_bind M (m_oom w) f P); [by apply Hm|].
  intros o B1 x HP. split; intros _; [apply owns_failed_of|]; by apply Hf.
Qed.
Lemma owns_failed_bind {X Y} B (m : MM X) (f : X → MM Y) (P : Post X) (Q : Post Y) :
  owns B m P → (∀ o B1 x, P o B1 x → owns_failed B1 (f x) (λ o', Q (o || o'))) → owns_failed B (bind m f) Q.
Proof.
  intros Hm Hf M w Hw HB H0 Ho. apply (ends_bind M true f P); [rewrite <- Ho; by apply Hm|].
  intros o B1 x HP. split; [intros _; by apply Hf|done].
Qed.

Lemma owns_mono {X} B (m : MM X) (P Q : Post X) :
  owns B m P → (∀ o B' x, P o B' x → Q o B' x) → owns B m Q.
Proof.
  intros Hm HPQ M w Hw HB H0. specialize (Hm M w Hw HB H0). destruct (m w) as [[x| |] w1];
    destruct Hm as (B1 & o & Hw1 & HB1 & Hz & Ho & Hx); exists B1, o; (do 4 (split; [done|])); [by apply HPQ|done|done].
Qed.

(** What owns nothing only adds blocks. *)
Lemma owns_frame {X} B (m : MM X) (P : Post X) :
  owns ∅ m P → owns B m (λ o B' x, ∃ K, B' = B ∪ K ∧ B ##ₘ K ∧ P o K x).
Proof.
  intros Hm M w Hw HB H0. specialize (Hm (B ∪ M) w). rewrite map_empty_union in Hm.
  specialize (Hm Hw (map_disjoint_empty_l _) H0). destruct (m w) as [r w1].
  destruct Hm as (K & o & Hw1 & HK & Hz & Ho & Hx).
  apply map_disjoint_union_r in HK as [HKB HKM]. exists (B ∪ K), o.
  split_and!; [|by apply map_disjoint_union_l|done|done|destruct r; eauto].
  rewrite Hw1, map_union_assoc. f_equal. by apply map_union_comm.
Qed.
Lemma owns_call {X Y} (m : MM X) (f : X → MM Y) (P : Post X) (Q : Post Y) :
  owns ∅ m P → (∀ o K x, P o K x → owns ∅ (f x) (λ o' K' y, K ##ₘ K' → Q (o || o') (K ∪ K') y)) →
  owns ∅ (bind m f) Q.
Proof.
  intros Hm Hf. eapply owns_bind; [exact Hm|]. intros o K x HP.
  eapply owns_mono; [by apply owns_frame, Hf|]. intros o' B' y (K' & -> & HK & HQ). auto.
Qed.

Lemma owns_new {X} M w B a l (f : MM X) (Q : Post X) :
  m_heap w = B ∪ M → B ##ₘ M → m_heap w !! 0 = None → 0 < a → m_heap w !! a = None →
  (B !! a = None → owns (<[a := l]> B) f Q) →
  ends M (m_oom w) Q (f (mkMem (<[a := l]> (m_heap w)) (m_oom w))).
Proof.
  intros Hw HB H0 Ha Hf Hown. rewrite Hw in Hf. apply lookup_union_None in Hf as [HfB HfM].
  apply (Hown HfB M (mkMem _ (m_oom w))); cbn [m_heap m_oom].
  - by rewrite Hw, insert_union_l.
  - by apply map_disjoint_insert_l.
  - by rewrite lookup_insert_ne by lia.
Qed.

Lemma owns_alloc {X} B n (f : Z → MM X) (Q : Post X) :
  (0 < n)%nat → owns_failed B (f 0) (λ _, Q true) →
  (∀ a, 0 < a < U64 → B !! a = None → owns (<[a := replicate n x00]> B) (f a) Q) →
  owns B (bind (alloc_zeroed n) f) Q.
Proof.
  intros Hn Hfail Ha M w Hw HB H0. unfold bind, alloc_zeroed.
  destruct (alloc_law (m_heap w) n) as [Hz|(Hp & Hu & Hf & _)].
  - rewrite Hz. cbn [Z.eqb]. specialize (Hfail M (mkMem (m_heap w) true) Hw HB H0 eq_refl).
    destruct (f 0 _) as [r w1]. destruct Hfail as (B' & o & H1 & H2 & H3 & H4 & H5).
    exists B', true. by rewrite orb_true_r.
  - rewrite (proj2 (Z.eqb_neq _ _)) by lia. apply (owns_new M w B); [done..|]. apply Ha. lia.
Qed.

Lemma owns_boxed {X} B l (f : Z → MM X) (Q : Post X) :
  (0 < length l)%nat →
  (∀ a, 0 < a < U64 → B !! a = None → owns (<[a := l]> B) (f a) Q) →
  owns B (bind (boxed l) f) Q.
Proof.
  intros Hn Ha M w Hw HB H0. unfold bind, boxed.
  destruct (alloc_law (m_heap w) (length l)) as [Hz|(Hp & Hu & Hf & _)].
  - rewrite Hz. cbn [Z.eqb]. exists B, true. by rewrite orb_true_r.
  - rewrite (proj2 (Z.eqb_neq _ _)) by lia. apply (owns_new M w B); [done..|]. apply Ha. lia.
Qed.

Lemma owns_store {X} B p off l b (f : unit → MM X) (Q : Post X) :
  B !! p = Some b → (off + length l ≤ length b)%nat →
  owns (<[p := write_at off l b]> B) (f tt) Q → owns B (bind (store p off l) f) Q.
Proof.
  intros Hp Hl Hf M w Hw HB H0. unfold bind, store.
  assert (Hwp : m_heap w !! p = Some b) by by rewrite Hw, (lookup_union_Some_l _ _ _ _ Hp).
  rewrite Hwp, (proj2 (Nat.leb_le _ _)) by done.
  apply (Hf M (mkMem _ (m_oom w))); cbn [m_heap m_oom].
  - by rewrite Hw, insert_union_l.
  - apply map_disjoint_insert_l_2; [|done]. by eapply map_disjoint_Some_l.
  - rewrite lookup_insert_ne; [done|]. intros ->. by rewrite Hwp in H0.
Qed.

(** A store through null, which only a failed allocation can explain. *)
Lemma owns_null_store {X} B off l (f : unit → MM X) (Q : Post X) :
  φ → owns_failed B (bind (store 0 off l) f) Q.
Proof. intros Hφ M w Hw HB H0 Ho. unfold bind, store. rewrite H0. by exists B, false. Qed.
End logic.

(** *** One block being filled

    [fills φ p b m P]: [m] runs where the block at [p] holds [b]; it leaves [b'] of the same length
    there, adds the blocks [K], and nothing else. *)

Section fills.
Context `{A : Allocator} `{O : HashOrder} (φ : Prop).

Definition fills {X} (p : Z) (b : list byte) (m : MM X) (P : bool → list byte → Heap → X → Prop) : Prop :=
  ∀ F, F !! p = None →
  owns φ (<[p := b]> F) m (λ o B' x, ∃ b' K,
    B' = <[p := b']> (F ∪ K) ∧ F ##ₘ K ∧ K !! p = None ∧ length b' = length b ∧ P o b' K x).

Lemma bind_ret {X} (m : MM X) w : bind m ret w = m w.
Proof. unfold bind. by destruct (m w) as [[]]. Qed.

Lemma owns_unbind {X} B (m : MM X) Q : owns φ B (bind m ret) Q → owns φ B m Q.
Proof. intros H M w Hw HB H0. specialize (H M w Hw HB H0). by rewrite bind_ret in H. Qed.

Lemma fills_ret {X} p b (x : X) (P : bool → list byte → Heap → X → Prop) : P false b ∅ x → fills p b (ret x) P.
Proof.
  intros HP F HF. apply owns_ret. exists b, ∅. rewrite map_union_empty.
  split_and!; [done|apply map_disjoint_empty_r|apply lookup_empty|done..].
Qed.

Lemma fills_bind {X Y} p b (m : MM X) (f : X → MM Y) (P : bool → list byte → Heap → X → Prop) Q :
  fills p b m P →
  (∀ o b1 K x, P o b1 K x → length b1 = length b → K !! p = None →
    fills p b1 (f x) (λ o' b' K' y, K ##ₘ K' → Q (o || o') b' (K ∪ K') y)) →
  fills p b (bind m f) Q.
Proof.
  intros Hm Hf F HF. eapply owns_bind; [by apply Hm|].
  intros o B1 x (b1 & K & -> & HFK & HK & Hl & HP).
  eapply owns_mono; [apply (Hf o b1 K x HP Hl HK (F ∪ K)); by apply lookup_union_None|].
  intros o' B' y (b' & K' & -> & HFK' & HK' & Hl' & HQ).
  apply map_disjoint_union_l in HFK' as [HFK' HKK]. exists b', (K ∪ K').
  split_and!; [by rewrite map_union_assoc|by apply map_disjoint_union_r|by apply lookup_union_None|congruence|auto].
Qed.

Lemma fills_unbind {X} p b (m : MM X) P : fills p b (bind m ret) P → fills p b m P.
Proof. intros H F HF. by apply owns_unbind, H. Qed.

Lemma fills_mono {X} p b (m : MM X) (P Q : bool → list byte → Heap → X → Prop) :
  fills p b m P → (∀ o b' K x, P o b' K x → length b' = length b → K !! p = None → Q o b' K x) → fills p b m Q.
Proof.
  intros Hm HPQ F HF. eapply owns_mono; [by apply Hm|].
  intros o B' x (b' & K & ? & ? & ? & ? & HP). exists b', K. split_and!; auto.
Qed.

Lemma fills_call {X} p b (m : MM X) (P : bool → Heap → X → Prop) :
  owns φ ∅ m P → fills p b m (λ o b' K x, b' = b ∧ P o K x).
Proof.
  intros Hm F HF. eapply owns_mono; [by apply owns_frame|].
  intros o B' x (K & -> & HK & HP). apply map_disjoint_insert_l in HK as [HKp HK].
  exists b, K. by rewrite insert_union_l.
Qed.

Lemma fills_store p b off l :
  (off + length l ≤ length b)%nat →
  fills p b (store p off l) (λ o b' K _, o = false ∧ b' = write_at off l b ∧ K = ∅).
Proof.
  intros Hl F HF. apply owns_unbind. eapply owns_store; [by apply lookup_insert_eq|done|].
  apply owns_ret. exists (write_at off l b), ∅. rewrite insert_insert_eq, map_union_empty.
  split_and!; [done|apply map_disjoint_empty_r|apply lookup_empty|by rewrite length_write_at|done..].
Qed.

(** A call, or a store, and the rest. *)
Lemma fills_call_then {X Y} p b (m : MM X) (f : X → MM Y) (P : bool → Heap → X → Prop) Q :
  owns φ ∅ m P →
  (∀ o K x, P o K x → fills p b (f x) (λ o' b' K' y, K ##ₘ K' → Q (o || o') b' (K ∪ K') y)) →
  fills p b (bind m f) Q.
Proof. intros Hm Hf. eapply fills_bind; [by apply fills_call|]. intros o b1 K x [-> HP] _ _. auto. Qed.

Lemma fills_store_then {Y} p b off l (f : unit → MM Y) Q :
  (off + length l ≤ length b)%nat → fills p (write_at off l b) (f tt) Q →
  fills p b (bind (store p off l) f) Q.
Proof.
  intros Hl Hf. eapply fills_bind; [by apply fills_store|]. intros o b1 K [] (-> & -> & ->) _ _.
  eapply fills_mono; [exact Hf|]. intros o' b' K' y HQ _ _ _. by rewrite map_empty_union.
Qed.

(** The same, the new contents given by what they hold. *)
Lemma fills_put {Y} p b off n l (f : unit → MM Y) Q :
  length l = n → (off + n ≤ length b)%nat →
  (∀ b1, length b1 = length b → slice off n b1 = l →
     (∀ a m, (a + m ≤ off ∨ off + n ≤ a)%nat → slice a m b1 = slice a m b) → fills p b1 (f tt) Q) →
  fills p b (bind (store p off l) f) Q.
Proof.
  intros <- Hl Hf. apply fills_store_then; [done|]. apply Hf; [by apply length_write_at|by apply slice_write_same|].
  intros a m Ha. by apply slice_write_other.
Qed.

Lemma fills_ret_then {X Y} p b (x : X) (f : X → MM Y) Q : fills p b (f x) Q → fills p b (bind (ret x) f) Q.
Proof. done. Qed.

(** A block allocated and filled. *)
Lemma owns_block {X} n (f : Z → MM X) (Q : bool → Heap → X → Prop) :
  (0 < n)%nat → owns_failed φ ∅ (f 0) (λ _, Q true) →
  (∀ p, 0 < p < U64 →
    fills p (replicate n x00) (f p) (λ o b K x, length b = n → K !! p = None → Q o (<[p := b]> K) x)) →
  owns φ ∅ (bind (alloc_zeroed n) f) Q.
Proof.
  intros Hn H0 Hf. apply owns_alloc; [done|done|]. intros p Hp _.
  eapply owns_mono; [by apply Hf|]. intros o B' x (b & K & -> & _ & HK & Hl & HQ).
  rewrite map_empty_union. apply HQ; [|done]. by rewrite Hl, length_replicate.
Qed.

(** Slot after slot. *)
Lemma fills_each_in {X} p stride (f : nat → X → MM unit) (P : bool → Heap → list byte → X → Prop) l :
  (∀ o o' K K' s x, P o K s x → (o = true → o' = true) → K ⊆ K' → P o' K' s x) →
  (∀ i x b, x ∈ l → ((i + 1) * stride ≤ length b)%nat → slice (i * stride) stride b = replicate stride x00 →
    fills p b (f i x) (λ o b' K _,
      (∀ j, j ≠ i → ((j + 1) * stride ≤ length b)%nat → slice (j * stride) stride b' = slice (j * stride) stride b) ∧
      P o K (slice (i * stride) stride b') x)) →
  ∀ i b, ((i + length l) * stride ≤ length b)%nat →
  (∀ j, (i ≤ j < i + length l)%nat → slice (j * stride) stride b = replicate stride x00) →
  fills p b (each_from f i l) (λ o b' K _,
    (∀ j, (j < i)%nat → ((j + 1) * stride ≤ length b)%nat →
       slice (j * stride) stride b' = slice (j * stride) stride b) ∧
    ∀ j x, l !! j = Some x → P o K (slice ((i + j) * stride) stride b') x).
Proof.
  intros Hmono. induction l as [|x l IH]; intros Hf i b Hb Hz; cbn [each_from length] in *.
  { apply fills_ret. split; [done|]. intros j x Hj. by rewrite lookup_nil in Hj. }
  eapply fills_bind; [apply Hf; [left|nia|apply Hz; lia]|]. intros o b1 K _ [Hother HP] Hl1 _.
  eapply fills_mono; [apply (IH ltac:(intros; apply Hf; [by right|done..]) (S i) b1); [rewrite Hl1; nia|]|].
  { intros j Hj. rewrite Hother by nia. apply Hz. lia. }
  intros o' b2 K' _ [Hlow Hall] Hl2 _ HKK. split.
  - intros j Hj Hjb. rewrite Hlow by (rewrite ?Hl1; nia). apply Hother; nia.
  - intros [|j] y Hj; cbn in Hj.
    + injection Hj as ->. rewrite Nat.add_0_r, Hlow by (rewrite ?Hl1; nia).
      eapply Hmono; [exact HP|by intros ->|by apply map_union_subseteq_l].
    + replace (i + S j)%nat with (S i + j)%nat by lia.
      eapply Hmono; [by apply Hall|intros ->; by rewrite orb_true_r|by apply map_union_subseteq_r].
Qed.
End fills.

(** ** Reading back *)

Lemma load_block h p b off n :
  h !! p = Some b → (off + n ≤ length b)%nat → load h p off n = Some (from_le (slice off n b)).
Proof. intros Hp Hl. unfold load. rewrite Hp. cbn. by rewrite (proj2 (Nat.leb_le _ _)). Qed.

Lemma load_slot h p b i stride off n :
  h !! p = Some b → ((i + 1) * stride ≤ length b)%nat → (off + n ≤ stride)%nat →
  load h p (i * stride + off) n = Some (from_le (slice off n (slice (i * stride) stride b))).
Proof. intros Hp Hl Ho. rewrite (load_block _ _ b) by (done || nia). by rewrite slice_slice by lia. Qed.

Lemma load_array_rel {X Y} (R : X → Y → Prop) (f : nat → option X) (l : list Y) n :
  Z.of_nat (length l) = n → (∀ j y, l !! j = Some y → ∃ x, f j = Some x ∧ R x y) →
  ∃ l', load_array f n = Some l' ∧ Forall2 R l' l.
Proof.
  intros <- Hf. unfold load_array. rewrite Nat2Z.id.
  assert (H : ∀ i, (∀ j y, l !! j = Some y → ∃ x, f (i + j)%nat = Some x ∧ R x y) →
    ∃ l', mapM f (List.seq i (length l)) = Some l' ∧ Forall2 R l' l).
  { clear Hf. induction l as [|y l IH]; intros i Hf; cbn [length List.seq mapM]; [by exists []|].
    destruct (Hf 0%nat y eq_refl) as (x & Hx & HR). rewrite Nat.add_0_r in Hx. rewrite Hx. cbn.
    destruct (IH (S i)) as (l' & Hl' & HRs).
    { intros j z Hj. destruct (Hf (S j) z Hj) as (x' & ? & ?).
      exists x'. by replace (S i + j)%nat with (i + S j)%nat by lia. }
    rewrite Hl'. cbn. eauto. }
  exact (H 0%nat Hf).
Qed.

Lemma load_array_eq {X} (f : nat → option X) l n :
  Z.of_nat (length l) = n → (∀ j x, l !! j = Some x → f j = Some x) → load_array f n = Some l.
Proof.
  intros Hn Hf. destruct (load_array_rel eq f l n Hn) as (l' & Hl' & HR); [eauto|].
  rewrite Hl'. f_equal. by apply list_eq_Forall2.
Qed.

Lemma load_cstr_block h q l :
  h !! q = Some (l ++ [x00]) → q ≠ 0 → x00 ∉ l → load_cstr h q = Some (Some l).
Proof.
  intros Hq Hz Hl. unfold load_cstr. rewrite (proj2 (Z.eqb_neq _ _)), Hq by done. cbn.
  rewrite bool_decide_eq_true_2 by (apply elem_of_app; right; left).
  rewrite until_nul_clean; [done|]. apply Forall_forall. intros b Hb. apply Z.eqb_neq. intros H0.
  apply Hl. by rewrite <- (zb_bz b), H0 in Hb.
Qed.

Lemma ctext_clean s : x00 ∉ sbytes (ctext s).
Proof. unfold ctext. case_bool_decide; [apply not_elem_of_nil|done]. Qed.

Lemma load_cstr_mono h h' a p : h ⊆ h' → load_cstr h a = Some p → load_cstr h' a = Some p.
Proof.
  intros Hs. unfold load_cstr. destruct (a =? 0); [done|].
  destruct (h !! a) as [b|] eqn:Ha; cbn; [|done]. by rewrite (lookup_weaken _ _ _ _ Ha Hs).
Qed.

Lemma key_value_mono h h' k e : h ⊆ h' → key_value h k = Some e → key_value h' k = Some e.
Proof.
  intros Hs. unfold key_value.
  destruct (load_cstr h (rk_id k)) as [i|] eqn:Hi; cbn; [|done].
  destruct (load_cstr h (rk_type k)) as [t|] eqn:Ht; cbn; [|done].
  by rewrite (load_cstr_mono _ _ _ _ Hs Hi), (load_cstr_mono _ _ _ _ Hs Ht).
Qed.

Lemma change_value_mono `{HashOrder} h h' c v :
  h ⊆ h' → change_value h c = Some v → change_value h' c = Some v.
Proof.
  intros Hs. destruct c as [|? j ?|? m|?|?|? d|? ? [m|] ?| |? e]; cbn; try done.
  - destruct (load_cstr h _) eqn:Hj; cbn; [|done]. by rewrite (load_cstr_mono _ _ _ _ Hs Hj).
  - destruct (key_value h m) eqn:Hj; cbn; [|done]. by rewrite (key_value_mono _ _ _ _ Hs Hj).
  - unfold delta_value. destruct (mapM (update_value h) (rd_members d)) as [ms|] eqn:Hm; cbn; [|done].
    assert (mapM (update_value h') (rd_members d) = Some ms) as ->; [|done].
    apply mapM_Some in Hm. apply mapM_Some. eapply Forall2_impl; [exact Hm|]. intros u u' Hu. cbn in Hu.
    unfold update_value in *. destruct (key_value h _) eqn:Hk; cbn in *; [|done].
    by rewrite (key_value_mono _ _ _ _ Hs Hk).
  - destruct (key_value h m) eqn:Hj; cbn; [|done]. by rewrite (key_value_mono _ _ _ _ Hs Hj).
  - destruct (key_value h e) eqn:Hj; cbn; [|done]. by rewrite (key_value_mono _ _ _ _ Hs Hj).
Qed.

(** ** What the writers leave *)

Lemma from_le_u8 (b : bool) : from_le (u8 b) = if b then 1 else 0.
Proof. by destruct b. Qed.

Section written.
Context `{A : Allocator} `{O : HashOrder} (φ : Prop).

Lemma owns_intern s :
  owns φ ∅ (intern_at s) (λ _ K q, 0 < q < U64 ∧ ∀ h, K ⊆ h → load_cstr h q = Some (intern s)).
Proof.
  unfold intern_at. apply owns_unbind, owns_boxed; [rewrite length_app; cbn; lia|]. intros q Hq _.
  apply owns_ret. split; [done|]. intros h Hh. apply load_cstr_block; [|lia|apply ctext_clean].
  eapply lookup_weaken; [|done]. apply lookup_insert_eq.
Qed.

(** One pointer stored into its slot. *)
Lemma string_slot p i b s :
  ((i + 1) * 8 ≤ length b)%nat →
  fills φ p b (let! q := intern_at s in store p (i * 8) (ptr q)) (λ o b' K _,
    (∀ j, j ≠ i → ((j + 1) * 8 ≤ length b)%nat → slice (j * 8) 8 b' = slice (j * 8) 8 b) ∧
    ∀ h, K ⊆ h → load_cstr h (from_le (slice (i * 8) 8 b')) = Some (intern s)).
Proof.
  intros Hb. eapply fills_call_then; [apply owns_intern|]. intros o K q [Hq HK].
  eapply fills_mono; [apply fills_store; unfold ptr; rewrite length_to_le; nia|].
  intros o' b' K' _ (-> & -> & ->) _ _ _. rewrite map_union_empty. unfold ptr. split.
  - intros j Hj Hjb. apply slice_write_other; rewrite length_to_le; nia.
  - intros h Hh. rewrite slice_write_same, from_le_u64 by (rewrite ?length_to_le; unfold is_u64; lia || nia).
    by apply HK.
Qed.
End written.

Lemma write_at_app {X} off (l1 l2 b : list X) :
  (off + length l1 + length l2 ≤ length b)%nat →
  write_at off (l1 ++ l2) b = write_at (off + length l1) l2 (write_at off l1 b).
Proof.
  intros Hb. unfold write_at. rewrite take_app_ge by (rewrite length_take; lia).
  rewrite !length_take, Nat.min_l by lia.
  replace (off + length l1 - off)%nat with (length l1) by lia.
  rewrite take_app_length, !length_app, <- !app_assoc. do 2 f_equal. f_equal.
  rewrite drop_app_ge by (rewrite length_take; lia). rewrite length_take, Nat.min_l by lia.
  rewrite drop_app_ge by lia. rewrite drop_drop. f_equal. lia.
Qed.

(** Fields of a block that is a chain of stores. *)
Ltac field_len :=
  repeat rewrite ?length_write_at, ?length_replicate, ?length_app, ?length_to_le; cbn [length]; lia.
Ltac fields :=
  unfold key_bytes, ptr, u32, i32, u8;
  repeat first [rewrite slice_write_same by field_len | rewrite slice_write_other by field_len].

Section arrays.
Context `{A : Allocator} `{O : HashOrder} (φ : Prop).

Lemma owns_cstr_list l :
  keys_fit l →
  owns φ ∅ (intern_cstr_list l) (λ o K r, is_u32 r.1 ∧ is_u64 r.2 ∧
    ∃ l', dropped l' (ctext <$> l) ∧ (o = false → l' = ctext <$> l) ∧
          ∀ h, K ⊆ h → load_strings h r.1 r.2 = Some l').
Proof.
  intros Hfit. destruct l as [|s0 l0]; cbn [intern_cstr_list].
  { apply owns_ret. split; [cbn; ulia|split; [cbn; ulia|]]. exists []. split_and!; [by left|done|done]. }
  set (l := s0 :: l0) in *. apply owns_block; [cbn; lia| |].
  { cbn. apply owns_failed_of, owns_ret. split; [cbn; ulia|split; [cbn; ulia|]]. exists []. split_and!; [by right|done|done]. }
  intros p Hp. rewrite (proj2 (Z.eqb_neq _ _)) by lia. eapply fills_bind.
  { apply (fills_each_in φ p 8 _ (λ _ K s x, ∀ h, K ⊆ h → load_cstr h (from_le s) = Some (intern x))).
    - intros o o' K K' s x HK _ HKK h Hh. apply HK. by etrans.
    - intros i x b _ Hb _. eapply fills_mono; [apply string_slot; lia|]. intros o b' K _ [H1 H2] _ _. split; [|done].
      intros j Hj Hjb. apply H1; lia.
    - rewrite length_replicate. lia.
    - intros j Hj. apply slice_replicate. lia. }
  intros o b K [] [_ Hall] Hl HK. rewrite length_replicate in Hl.
  apply fills_ret. intros _ Hlb HKp. rewrite map_union_empty in *. cbn [fst snd].
  rewrite Z.mod_small by (unfold keys_fit in Hfit; lia).
  split; [unfold keys_fit in Hfit; ulia|split; [ulia|]]. exists (ctext <$> l).
  split_and!; [by left|done|]. intros h Hh.
  assert (Hb : h !! p = Some b) by (eapply lookup_weaken; [|exact Hh]; apply lookup_insert_eq).
  assert (HKh : K ⊆ h) by (etrans; [|exact Hh]; by apply insert_subseteq).
  apply load_array_eq; [by rewrite length_map|].
  intros j x Hj. rewrite list_lookup_fmap in Hj. destruct (l !! j) as [y|] eqn:Hy; [|done].
  injection Hj as <-. pose proof (lookup_lt_Some _ _ _ Hy) as Hlt.
  unfold load_string_at, load_cstr_at. rewrite (load_block _ _ b) by (done || lia). cbn.
  pose proof (Hall j y Hy h HKh) as Hc. rewrite Nat.add_0_l in Hc. rewrite Hc. cbn. by rewrite bstr_sbytes.
Qed.

(** One entry of the array of member updates: what its 32 bytes say. *)
Definition entry_ok (o : bool) (K : Heap) (s : list byte) (u : RawUpdate) : Prop :=
  from_le (slice 0 8 s) = rk_id (ru_member u) ∧ from_le (slice 8 8 s) = rk_type (ru_member u) ∧
  from_le (slice 16 1 s) = (if ru_connection u then 1 else 0) ∧
  ∃ l', dropped l' (ctext <$> ru_keys u) ∧ (o = false → l' = ctext <$> ru_keys u) ∧
        ∀ h, K ⊆ h → load_strings h (from_le (slice 20 4 s)) (from_le (slice 24 8 s)) = Some l'.

Lemma member_entry_written p i u b :
  key_fits (ru_member u) → keys_fit (ru_keys u) → ((i + 1) * STRIDE ≤ length b)%nat →
  fills φ p b (member_update_entry p i u) (λ o b' K _,
    (∀ j, j ≠ i → ((j + 1) * STRIDE ≤ length b)%nat → slice (j * STRIDE) STRIDE b' = slice (j * STRIDE) STRIDE b) ∧
    entry_ok o K (slice (i * STRIDE) STRIDE b') u).
Proof.
  intros [Hi Ht] Hk Hb. unfold member_update_entry. cbv zeta.
  assert (He : ∀ j, j ≠ i → (j * STRIDE + STRIDE ≤ i * STRIDE ∨ i * STRIDE + STRIDE ≤ j * STRIDE)%nat)
    by (unfold STRIDE; lia).
  assert (Hb' : (i * STRIDE + 32 ≤ length b)%nat) by (unfold STRIDE in *; lia).
  set (e := (i * STRIDE)%nat) in *. clearbody e. change STRIDE with 32%nat in He |- *. clear Hb.
  apply fills_store_then; [unfold key_bytes, ptr; field_len|].
  apply fills_store_then; [unfold key_bytes, ptr, u8; field_len|].
  eapply fills_call_then; [by apply owns_cstr_list|]. intros o K [n arr] (Hn & Ha & l' & Hd & Ho & HK).
  cbn [fst snd] in *.
  apply fills_store_then; [unfold key_bytes, ptr, u8, u32; field_len|].
  eapply fills_mono; [apply fills_store; unfold key_bytes, ptr, u8, u32; field_len|].
  intros o' b' K' _ (-> & -> & ->) _ _ _. rewrite map_union_empty, orb_false_r. split.
  - intros j Hj _. specialize (He j Hj). by fields.
  - unfold entry_ok. rewrite !slice_slice by lia. rewrite Nat.add_0_r.
    unfold key_bytes, ptr, u32, u8. rewrite !write_at_app by field_len. rewrite !length_to_le.
    fields. rewrite !from_le_u64, from_le_to_le_u32 by done.
    split_and!; [done|done|by destruct (ru_connection u)|]. by exists l'.
Qed.

Lemma entry_read o K h base b i u m :
  h !! base = Some b → ((i + 1) * STRIDE ≤ length b)%nat → K ⊆ h →
  entry_ok o K (slice (i * STRIDE) STRIDE b) u → update_value h u = Some m →
  ∃ m', load_update h base i = Some m' ∧ update_less m' m ∧ (o = false → m' = m).
Proof.
  intros Hb Hl HK (Hi & Ht & Hc & l' & Hd & Ho & Hs) Hu. unfold update_value in Hu.
  destruct (key_value h (ru_member u)) as [k|] eqn:Hk; cbn in Hu; [injection Hu as <-|done].
  exists (mkMemberUpdate k (ru_connection u) l'). unfold load_update, load_key, load_bool. cbv zeta.
  rewrite <- (Nat.add_0_r (i * STRIDE)), <- !Nat.add_assoc. cbn [Nat.add].
  rewrite !(load_slot _ _ b _ STRIDE) by (done || (unfold STRIDE; lia)). rewrite Hi, Ht, Hc.
  specialize (Hs h HK). set (n := from_le (slice 20 4 _)) in *. set (arr := from_le (slice 24 8 _)) in *.
  clearbody n arr. cbn. destruct (ru_member u) as [q1 q2]. cbn [rk_id rk_type]. rewrite Hk. cbn.
  rewrite Hs. cbn. split_and!; [by destruct (ru_connection u)|done|]. intros Hof. by rewrite Ho.
Qed.

Lemma owns_member_updates us :
  keys_fit us → Forall (λ u, key_fits (ru_member u) ∧ keys_fit (ru_keys u)) us →
  owns φ ∅ (member_update_entries us) (λ o K r, is_u32 r.1 ∧ is_u64 r.2 ∧
    ∀ h ms, K ⊆ h → mapM (update_value h) us = Some ms →
    ∃ ms', load_array (load_update h r.2) r.1 = Some ms' ∧
           (Forall2 update_less ms' ms ∨ ms' = []) ∧ (o = false → ms' = ms)).
Proof.
  intros Hfit Hus. destruct us as [|u0 us0]; cbn [member_update_entries].
  { apply owns_ret. split; [cbn; ulia|split; [cbn; ulia|]]. intros h ms _ [= <-]. exists []. auto. }
  set (us := u0 :: us0) in *. apply owns_block; [cbn; lia| |].
  { cbn. apply owns_failed_of, owns_ret. split; [cbn; ulia|split; [cbn; ulia|]]. intros h ms _ _. exists []. naive_solver. }
  intros p Hp. rewrite (proj2 (Z.eqb_neq _ _)) by lia. eapply fills_bind.
  { apply (fills_each_in φ p STRIDE _ entry_ok us).
    - intros o o' K K' s x (? & ? & ? & l' & ? & Hl' & HK) Ho HKK. split_and!; [done..|]. exists l'.
      split_and!; [done| |intros h Hh; apply HK; by etrans]. intros ->. apply Hl'. destruct o; [by rewrite Ho|done].
    - intros i x b Hx Hb _. rewrite Forall_forall in Hus. destruct (Hus x Hx). by apply member_entry_written.
    - rewrite length_replicate. lia.
    - intros j Hj. apply slice_replicate. unfold STRIDE. lia. }
  intros o b K [] [_ Hall] Hl HK. rewrite length_replicate in Hl.
  apply fills_ret. intros _ Hlb HKp. rewrite map_union_empty in *. cbn [fst snd].
  rewrite Z.mod_small by (unfold keys_fit in Hfit; lia).
  split; [unfold keys_fit in Hfit; ulia|split; [ulia|]]. intros h ms Hh Hms.
  assert (Hb : h !! p = Some b) by (eapply lookup_weaken; [|exact Hh]; apply lookup_insert_eq).
  assert (HKh : K ⊆ h) by (etrans; [|exact Hh]; by apply insert_subseteq).
  rewrite orb_false_r. apply mapM_Some in Hms.
  destruct (load_array_rel (λ m' m, update_less m' m ∧ (o = false → m' = m)) (load_update h p) ms
    (Z.of_nat (length us))) as (ms' & Hms' & HR); [by rewrite (Forall2_length _ _ _ Hms)| |].
  { intros j m Hj. destruct (Forall2_lookup_r _ _ _ _ _ Hms Hj) as (u & Hu & Hm).
    pose proof (lookup_lt_Some _ _ _ Hu) as Hlt.
    apply (entry_read o K h p b j u m); [done|unfold STRIDE in *; lia|done| |done].
    specialize (Hall j u Hu). by rewrite Nat.add_0_l in Hall. }
  exists ms'. split_and!; [done|left; eapply Forall2_impl; [exact HR|]; naive_solver|].
  intros Hof. apply list_eq_Forall2. eapply Forall2_impl; [exact HR|]. naive_solver.
Qed.
End arrays.

(** ** The records read back *)

Lemma from_le_i32 z : is_i32 z → as_i32 (from_le (to_le 4 (z mod U32))) = z.
Proof. intros Hz. rewrite from_le_to_le_u32 by ulia. unfold is_i32 in Hz. unfold as_i32. case_if; ulia. Qed.

Lemma load_i32_block h p b off z :
  h !! p = Some b → (off + 4 ≤ length b)%nat → slice off 4 b = i32 z → is_i32 z → load_i32 h p off = Some z.
Proof. intros Hp Hl Hs Hz. unfold load_i32. rewrite (load_block _ _ b) by done. rewrite Hs. unfold i32. cbn [fmap option_fmap option_map]. by rewrite from_le_i32. Qed.
Lemma load_ptr_block h p b off a :
  h !! p = Some b → (off + 8 ≤ length b)%nat → slice off 8 b = ptr a → is_u64 a → load h p off 8 = Some a.
Proof. intros Hp Hl Hs Ha. rewrite (load_block _ _ b) by done. rewrite Hs. unfold ptr. by rewrite from_le_u64. Qed.
Lemma load_u32_block h p b off a :
  h !! p = Some b → (off + 4 ≤ length b)%nat → slice off 4 b = u32 a → is_u32 a → load h p off 4 = Some a.
Proof. intros Hp Hl Hs Ha. rewrite (load_block _ _ b) by done. rewrite Hs. unfold u32. by rewrite from_le_to_le_u32. Qed.
Lemma load_bool_block h p b off v :
  h !! p = Some b → (off + 1 ≤ length b)%nat → slice off 1 b = u8 v → load_bool h p off = Some v.
Proof. intros Hp Hl Hs. unfold load_bool. rewrite (load_block _ _ b) by done. rewrite Hs. by destruct v. Qed.
Lemma slice_key off b k :
  slice off 16 b = key_bytes k → slice off 8 b = ptr (rk_id k) ∧ slice (off + 8) 8 b = ptr (rk_type k).
Proof.
  intros H. split.
  - rewrite <- (Nat.add_0_r off), <- (slice_slice off 16 0 8 b), H by lia.
    unfold key_bytes, slice. rewrite drop_0. by apply take_app_length'.
  - rewrite <- (slice_slice off 16 8 8 b), H by lia.
    unfold key_bytes, slice. rewrite drop_app_length' by done. by rewrite take_ge.
Qed.
Lemma load_key_block h p b off k :
  h !! p = Some b → (off + 16 ≤ length b)%nat → slice off 16 b = key_bytes k → key_fits k →
  load_key h p off = key_value h k.
Proof.
  intros Hp Hl Hk [Hki Hkt]. destruct (slice_key _ _ _ Hk) as [Hi Ht]. unfold load_key.
  rewrite (load_ptr_block h p b off (rk_id k)) by (done || lia). cbn.
  rewrite (load_ptr_block h p b (off + 8) (rk_type k)) by (done || lia). cbn. by destruct k.
Qed.

(** A record is filled store by store, and read field by field: each store says what its field
    holds and that the others are as before. *)
Ltac put_len :=
  unfold key_bytes, ptr, u32, i32, u8; rewrite ?length_app, ?length_to_le; cbn [length Nat.add]; reflexivity.
Ltac put :=
  eapply fills_put; [put_len|lia|];
  let b := fresh "b" in let Hl := fresh "Hl" in let Hs := fresh "Hs" in let Ho := fresh "Ho" in
  intros b Hl Hs Ho.
Ltac put_last := apply fills_unbind; put; apply fills_ret.
Ltac field_at :=
  repeat match goal with
  | H : slice ?a ?n ?b = _ |- slice ?a ?n ?b = _ => exact H
  | H : ∀ a n, _ → slice a n ?b = _ |- slice _ _ ?b = _ => rewrite H by lia
  end; reflexivity.
Ltac read_type b :=
  erewrite (load_u32_block _ _ b 0) by first [eassumption | lia | field_at | ulia];
  cbn [mbind option_bind].
Ltac read_fields b :=
  repeat (first
    [ erewrite (load_u32_block _ _ b) by first [eassumption | lia | field_at | ulia]
    | erewrite (load_ptr_block _ _ b) by first [eassumption | lia | field_at | ulia]
    | erewrite (load_i32_block _ _ b) by first [eassumption | lia | field_at | done]
    | erewrite (load_bool_block _ _ b) by first [eassumption | lia | field_at]
    | erewrite (load_key_block _ _ b) by first [eassumption | lia | field_at] ];
    cbn [mbind option_bind]).
Ltac read_more := match goal with Hp : _ !! _ = Some ?b |- _ => read_fields b end.
Ltac read_back := unfold load_change; match goal with Hp : _ !! _ = Some ?b |- _ => read_type b end; read_more.
Ltac exactly := eexists; split; [|split; [constructor|done]].

Section records.
Context `{A : Allocator} `{O : HashOrder} (φ : Prop).

Definition reads_back (rc : RawChange) (o : bool) (K : Heap) (p : Z) : Prop := ∀ h c,
  K ⊆ h → change_value h rc = Some c →
  p = 0 ∧ o = true ∨
  p ≠ 0 ∧ ∃ c', load_change h p = Some c' ∧ understates c' c ∧ (o = false → c' = c).

Lemma owns_record_gen (R : bool → Heap → Z → Prop) size ty fill :
  (8 ≤ size)%nat → is_u32 ty →
  (∀ p b0, length b0 = size → slice 0 4 b0 = u32 ty →
    (∀ a n, (4 ≤ a)%nat ∧ (a + n ≤ size)%nat → slice a n b0 = replicate n x00) →
    fills φ p b0 (fill p) (λ o b K _, ∀ h, h !! p = Some b → K ⊆ h → R o h p)) →
  owns φ ∅ (record size ty fill) (λ o K p, ∀ h, K ⊆ h → p = 0 ∧ o = true ∨ p ≠ 0 ∧ R o h p).
Proof.
  intros Hs Hty Hf.
  assert (Heq : ∀ w, record size ty fill w =
    (let! p := alloc_zeroed size in if p =? 0 then ret 0 else store p 0 (u32 ty) >>> fill p >>> ret p) w).
  { intros w. unfold record, alloc_sc. rewrite Nat.max_l by lia. unfold bind.
    destruct (alloc_zeroed size w) as [[p| |] w1]; [|done..]. destruct (p =? 0) eqn:Hp; [cbn; by rewrite Hp|].
    destruct (store p 0 (u32 ty) w1) as [[[]| |] w2]; [|done..]. cbn. by rewrite Hp. }
  intros M w Hw HB H0. rewrite Heq. revert M w Hw HB H0. apply owns_block; [lia| |].
  { cbn. apply owns_failed_of, owns_ret. intros h _. by left. }
  intros p Hp. rewrite (proj2 (Z.eqb_neq _ _)) by lia.
  eapply fills_put; [put_len|rewrite length_replicate; lia|]. intros b0 Hl0 Hs0 Ho0.
  eapply fills_bind; [apply Hf; [by rewrite Hl0, length_replicate|done|]|].
  { intros a n [Ha1 Ha2]. rewrite Ho0 by lia. by apply slice_replicate. }
  intros o b K [] HP Hl _.
  apply fills_ret. intros _ Hlb HK h Hh. right. split; [lia|]. rewrite map_union_empty, orb_false_r in *.
  apply HP.
  - eapply lookup_weaken; [|exact Hh]. apply lookup_insert_eq.
  - etrans; [|exact Hh]. by apply insert_subseteq.
Qed.

Lemma owns_record rc size ty fill :
  (8 ≤ size)%nat → is_u32 ty →
  (∀ p b0, length b0 = size → slice 0 4 b0 = u32 ty →
    (∀ a n, (4 ≤ a)%nat ∧ (a + n ≤ size)%nat → slice a n b0 = replicate n x00) →
    fills φ p b0 (fill p) (λ o b K _,
      ∀ h, h !! p = Some b → K ⊆ h → ∀ c, change_value h rc = Some c →
      ∃ c', load_change h p = Some c' ∧ understates c' c ∧ (o = false → c' = c))) →
  owns φ ∅ (record size ty fill) (reads_back rc).
Proof.
  intros Hs Hty Hf. eapply owns_mono; [by apply (owns_record_gen _ _ _ _ Hs Hty Hf)|].
  intros o K p HR h c Hh Hc. destruct (HR h Hh) as [|[Hp H]]; [by left|]. right. split; [done|]. by apply H.
Qed.

(** A record made of stores only. *)
Ltac start := apply owns_record; [lia|ulia|]; intros p b0 Hl0 Hs0 Ho0.
Ltac stores := repeat put; put_last; intros h Hp _ c Hc.

Lemma create_completed_written code ctx lobby :
  change_fits (RCreateCompleted code ctx lobby) →
  owns φ ∅ (create_completed_at code ctx lobby) (reads_back (RCreateCompleted code ctx lobby)).
Proof.
  intros (H1 & H2 & H3). start. stores. injection Hc as <-.
  exactly. by read_back.
Qed.

Lemma join_completed_written code joiner lobby :
  change_fits (RJoinCompleted code joiner lobby) →
  owns φ ∅ (join_completed_at code joiner lobby) (reads_back (RJoinCompleted code joiner lobby)).
Proof.
  intros (H1 & [H2 _] & H3). start. stores. cbn in Hc.
  destruct (load_cstr h (rk_id joiner)) as [j|] eqn:Hj; cbn in Hc; [injection Hc as <-|done].
  exactly. read_back. rewrite Hj. cbn [mbind option_bind]. by read_more.
Qed.

Lemma member_added_written lobby member :
  change_fits (RMemberAdded lobby member) →
  owns φ ∅ (member_added_at lobby member) (reads_back (RMemberAdded lobby member)).
Proof.
  intros (H1 & H2). start. stores. cbn in Hc.
  destruct (key_value h member) as [k|] eqn:Hk; cbn in Hc; [injection Hc as <-|done].
  exactly. read_back. by rewrite Hk.
Qed.

Lemma leave_completed_written code :
  change_fits (RLeaveCompleted code) →
  owns φ ∅ (leave_completed_at code) (reads_back (RLeaveCompleted code)).
Proof.
  intros H1. start. stores. injection Hc as <-. exactly. by read_back.
Qed.

Lemma disconnected_written lobby :
  change_fits (RDisconnected lobby) → owns φ ∅ (disconnected_at lobby) (reads_back (RDisconnected lobby)).
Proof.
  intros H1. start. stores. injection Hc as <-. exactly. by read_back.
Qed.

Lemma key_interned K1 K2 h i t id ty :
  K1 ∪ K2 ⊆ h → K1 ##ₘ K2 →
  (∀ h, K1 ⊆ h → load_cstr h i = Some (intern id)) → (∀ h, K2 ⊆ h → load_cstr h t = Some (intern ty)) →
  key_value h (mkRawKey i t) = Some (mkEntityKey (intern id) (intern ty)).
Proof.
  intros Hh HK Hi Ht. unfold key_value. cbn [rk_id rk_type].
  rewrite Hi by (etrans; [by apply map_union_subseteq_l|exact Hh]). cbn.
  by rewrite Ht by (etrans; [by apply map_union_subseteq_r|exact Hh]).
Qed.

Lemma member_removed_written lobby eid :
  change_fits (RMemberRemoved lobby eid) →
  owns φ ∅ (member_removed_at lobby eid) (reads_back (RMemberRemoved lobby eid)).
Proof.
  intros H1. cbn in H1. start. put. put.
  eapply fills_call_then; [apply owns_intern|]. intros o1 K1 i [Hi HK1].
  eapply fills_call_then; [apply owns_intern|]. intros o2 K2 t [Ht HK2].
  put. put_last. intros _ HK h Hp Hh c [= <-]. rewrite !map_union_empty in *.
  exactly. assert (Hk : key_fits (mkRawKey i t)) by (split; cbn; ulia).
  read_back. by rewrite (key_interned K1 K2 h i t eid "title_player_account").
Qed.

Lemma post_completed_written code lobby member ctx :
  change_fits (RPostCompleted code lobby member ctx) →
  owns φ ∅ (post_completed_at code lobby member ctx) (reads_back (RPostCompleted code lobby member ctx)).
Proof.
  intros (H1 & H2 & H3 & H4). start.
  put. put. destruct member as [k|]; cbn in H3.
  - stores. cbn in Hc. destruct (key_value h k) as [m|] eqn:Hk; cbn in Hc; [injection Hc as <-|done].
    exactly. read_back. rewrite Hk. cbn [mbind option_bind]. by read_more.
  - apply fills_ret_then. stores. injection Hc as <-. exactly. read_back.
    match type of Hp with _ = Some ?b =>
      rewrite (load_key_block h p b 16 (mkRawKey 0 0)) by first [exact Hp | lia | field_at | split; cbn; ulia]
    end.
    cbn [mbind option_bind key_value load_cstr rk_id rk_type Z.eqb]. by read_more.
Qed.

Lemma updated_written lobby d :
  change_fits (RUpdated lobby d) → owns φ ∅ (updated_at lobby d) (reads_back (RUpdated lobby d)).
Proof.
  intros (H1 & H2 & H3 & H4 & H5). start.
  put. put. put. put. put.
  eapply fills_call_then; [by apply owns_cstr_list|]. intros o1 K1 [sn sk] (Hu1 & Ha1 & l1 & Hd1 & Hx1 & HK1).
  put. put.
  eapply fills_call_then; [by apply owns_cstr_list|]. intros o2 K2 [ln lk] (Hu2 & Ha2 & l2 & Hd2 & Hx2 & HK2).
  put. put.
  eapply fills_call_then; [by apply owns_member_updates|]. intros o3 K3 [mn me] (Hu3 & Ha3 & HK3).
  put. put_last. cbn [fst snd] in *. intros HK3d HK2d HK1d h Hp Hh c Hc.
  rewrite !map_union_empty, !orb_false_r in *. cbn in Hc. unfold delta_value in Hc.
  destruct (mapM (update_value h) (rd_members d)) as [ms|] eqn:Hms; cbn in Hc; [injection Hc as <-|done].
  assert (Hsub1 : K1 ⊆ h) by (etrans; [by apply map_union_subseteq_l|exact Hh]).
  assert (Hsub23 : K2 ∪ K3 ⊆ h) by (etrans; [by apply map_union_subseteq_r|exact Hh]).
  assert (Hsub2 : K2 ⊆ h) by (etrans; [by apply map_union_subseteq_l|exact Hsub23]).
  assert (Hsub3 : K3 ⊆ h) by (etrans; [by apply map_union_subseteq_r|exact Hsub23]).
  destruct (HK3 h ms Hsub3 Hms) as (ms' & Hms' & Hless & Hx3).
  exists (Updated lobby (mkDelta (rd_owner d) (rd_max d) (rd_access d) (rd_lock d) l1 l2 ms')). split_and!.
  - unfold load_change, load_delta. match type of Hp with _ = Some ?b => read_type b end. read_more.
    rewrite (HK1 h Hsub1). cbn [mbind option_bind]. read_more.
    rewrite (HK2 h Hsub2). cbn [mbind option_bind]. read_more. by rewrite Hms'.
  - by constructor.
  - intros Hof. destruct o1, o2, o3; try discriminate. by rewrite Hx1, Hx2, Hx3.
Qed.
End records.

(** ** Search rows *)

Section rows.
Context `{A : Allocator} `{O : HashOrder} (φ : Prop).

Definition kv_body (k v : Z) (i : nat) (f : string * string) : MM unit :=
  let! q := intern_at f.1 in store k (i * 8) (ptr q) >>>
  let! q := intern_at f.2 in store v (i * 8) (ptr q).

Definition pair_at (K : Heap) (bk bv : list byte) (i : nat) (f : string * string) : Prop := ∀ h, K ⊆ h →
  load_cstr h (from_le (slice (i * 8) 8 bk)) = Some (intern f.1) ∧
  load_cstr h (from_le (slice (i * 8) 8 bv)) = Some (intern f.2).

Lemma kv_loop k v l : k ≠ v → ∀ i bk bv F,
  F !! k = None → F !! v = None →
  ((i + length l) * 8 ≤ length bk)%nat → length bv = length bk →
  owns φ (<[k := bk]> (<[v := bv]> F)) (each_from (kv_body k v) i l) (λ o B' _, ∃ bk' bv' K,
    B' = <[k := bk']> (<[v := bv']> (F ∪ K)) ∧ F ##ₘ K ∧ K !! k = None ∧ K !! v = None ∧
    length bk' = length bk ∧ length bv' = length bk ∧
    (∀ j, (j < i)%nat → slice (j * 8) 8 bk' = slice (j * 8) 8 bk ∧ slice (j * 8) 8 bv' = slice (j * 8) 8 bv) ∧
    ∀ j f, l !! j = Some f → pair_at K bk' bv' (i + j) f).
Proof.
  intros Hkv. induction l as [|f l IH]; intros i bk bv F Hk Hv Hl Hlv; cbn [each_from length] in *.
  { apply owns_ret. exists bk, bv, ∅. rewrite map_union_empty.
    split_and!; try done. apply map_disjoint_empty_r. }
  unfold kv_body at 1. eapply owns_bind.
  - eapply owns_bind; [apply owns_frame, owns_intern|]. intros o1 B1 q1 (K1 & -> & HB1 & Hq1 & HK1).
    apply map_disjoint_insert_l in HB1 as [HK1k HB1]. apply map_disjoint_insert_l in HB1 as [HK1v HF1].
    rewrite <- !insert_union_l.
    eapply owns_store; [by apply lookup_insert_eq|unfold ptr; rewrite length_to_le; lia|].
    rewrite insert_insert_eq.
    eapply owns_bind; [apply owns_frame, owns_intern|]. intros o2 B2 q2 (K2 & -> & HB2 & Hq2 & HK2).
    apply map_disjoint_insert_l in HB2 as [HK2k HB2]. apply map_disjoint_insert_l in HB2 as [HK2v HF2].
    rewrite <- !insert_union_l. apply owns_unbind.
    eapply owns_store; [rewrite lookup_insert_ne by done; by apply lookup_insert_eq|unfold ptr; rewrite length_to_le; lia|].
    rewrite insert_insert_ne, insert_insert_eq by done. apply owns_ret.
    instantiate (1 := λ o B' _, ∃ q1 q2 K, B' = <[k := write_at (i * 8) (ptr q1) bk]> (<[v := write_at (i * 8) (ptr q2) bv]> (F ∪ K)) ∧
      F ##ₘ K ∧ K !! k = None ∧ K !! v = None ∧ 0 < q1 < U64 ∧ 0 < q2 < U64 ∧
      ∀ h, K ⊆ h → load_cstr h q1 = Some (intern f.1) ∧ load_cstr h q2 = Some (intern f.2)).
    apply map_disjoint_union_l in HF2 as [HF2 HK12].
    exists q1, q2, (K1 ∪ K2). rewrite map_union_assoc.
    split_and!; [done|by apply map_disjoint_union_r|by apply lookup_union_None|by apply lookup_union_None|lia..|].
    intros h Hh. split; [apply HK1; etrans; [by apply map_union_subseteq_l|done]|].
    apply HK2. etrans; [by apply map_union_subseteq_r|done].
  - intros o B1 _ (q1 & q2 & K & -> & HFK & HKk & HKv & Hq1 & Hq2 & HK).
    set (bk1 := write_at (i * 8) (ptr q1) bk). set (bv1 := write_at (i * 8) (ptr q2) bv).
    assert (Hlk1 : length bk1 = length bk) by (apply length_write_at; unfold ptr; rewrite length_to_le; lia).
    assert (Hlv1 : length bv1 = length bk) by (unfold bv1; rewrite length_write_at; [done|]; unfold ptr; rewrite length_to_le; lia).
    eapply owns_mono; [apply (IH (S i) bk1 bv1 (F ∪ K)); [by apply lookup_union_None..|lia|lia]|].
    intros o' B' _ (bk' & bv' & K' & -> & HFK' & HKk' & HKv' & Hlk' & Hlv' & Hlow & Hall).
    apply map_disjoint_union_l in HFK' as [HFK' HKK'].
    exists bk', bv', (K ∪ K'). rewrite map_union_assoc.
    split_and!; [done|by apply map_disjoint_union_r|by apply lookup_union_None|by apply lookup_union_None|lia|lia| |].
    + intros j Hj. destruct (Hlow j ltac:(lia)) as [-> ->].
      split; apply slice_write_other; unfold ptr; rewrite length_to_le; lia.
    + intros [|j] g Hj; cbn in Hj.
      * injection Hj as ->. rewrite Nat.add_0_r. intros h Hh. destruct (Hlow i ltac:(lia)) as [-> ->].
        unfold bk1, bv1. rewrite !slice_write_same by (unfold ptr; rewrite ?length_to_le; lia).
        unfold ptr. rewrite !from_le_u64 by ulia. apply HK. etrans; [by apply map_union_subseteq_l|done].
      * replace (i + S j)%nat with (S i + j)%nat by lia. intros h Hh. apply Hall; [done|].
        etrans; [by apply map_union_subseteq_r|done].
Qed.

(** A list of strings, by the pointers of one block. *)
Lemma load_cstrs h p b (l : list CPtr) n :
  h !! p = Some b → Z.of_nat (length l) = n → (length l * 8 ≤ length b)%nat →
  (∀ j s, l !! j = Some s → load_cstr h (from_le (slice (j * 8) 8 b)) = Some s) →
  load_array (load_cstr_at h p) n = Some l.
Proof.
  intros Hp Hn Hl Hs. apply load_array_eq; [done|]. intros j s Hj. pose proof (lookup_lt_Some _ _ _ Hj).
  unfold load_cstr_at. rewrite (load_block _ _ b) by (done || lia). cbn [mbind option_bind]. by apply Hs.
Qed.

Lemma owns_kv_arrays m :
  owns φ ∅ (intern_kv_arrays_at m) (λ o K r, is_u32 r.1.1 ∧ is_u64 r.1.2 ∧ is_u64 r.2 ∧
    ∃ l', dropped l' (intern_kv_arrays m) ∧ (o = false → l' = intern_kv_arrays m) ∧
      ∀ h, K ⊆ h → load_array (load_cstr_at h r.1.2) r.1.1 = Some l'.*1 ∧
                   load_array (load_cstr_at h r.2) r.1.1 = Some l'.*2).
Proof.
  assert (Hnone : ∀ o K, (o = true ∨ intern_kv_arrays m = []) →
    is_u32 0 ∧ is_u64 0 ∧ is_u64 0 ∧ ∃ l', dropped l' (intern_kv_arrays m) ∧ (o = false → l' = intern_kv_arrays m) ∧
      ∀ h, K ⊆ h → load_array (load_cstr_at h 0) 0 = Some l'.*1 ∧ load_array (load_cstr_at h 0) 0 = Some l'.*2).
  { intros o K Ho. split; [ulia|split; [ulia|split; [ulia|]]]. exists [].
    split_and!; [by right| |done]. destruct Ho as [->| ->]; done. }
  unfold intern_kv_arrays_at. set (n := (length (hash_order m) `min` 32)%nat). case_if.
  { apply owns_ret, Hnone. right. unfold intern_kv_arrays. destruct (hash_order m); [done|]. cbn in *. lia. }
  assert (Hn : length (take n (hash_order m)) = n) by (rewrite length_take; lia).
  apply owns_alloc; [lia| |].
  { apply owns_failed_of, owns_alloc; [lia|apply owns_failed_of, owns_ret, Hnone; by left|].
    intros v _ _. apply owns_ret, Hnone. by left. }
  intros k Hk _. apply owns_alloc; [lia| |].
  { apply owns_failed_of. rewrite orb_true_r. apply owns_ret, Hnone. by left. }
  intros v Hv Hvk. rewrite lookup_insert_None in Hvk. destruct Hvk as [_ Hvk].
  rewrite (proj2 (orb_false_iff _ _)) by (rewrite !Z.eqb_neq; lia).
  rewrite insert_insert_ne by done.
  eapply owns_bind; [apply (kv_loop k v); [done|apply lookup_empty..|rewrite length_replicate, Hn; lia|done]|].
  intros o B' _ (bk & bv & K & -> & _ & HKk & HKv & Hlk & Hlv & _ & Hall).
  rewrite map_empty_union. rewrite length_replicate in *. apply owns_ret. cbn [fst snd].
  split; [unfold n; ulia|split; [ulia|split; [ulia|]]]. exists (intern_kv_arrays m).
  split_and!; [by left|done|]. intros h Hh.
  assert (Hbk : h !! k = Some bk) by (eapply lookup_weaken; [|exact Hh]; apply lookup_insert_eq).
  assert (Hbv : h !! v = Some bv).
  { eapply lookup_weaken; [|exact Hh]. rewrite lookup_insert_ne by done. apply lookup_insert_eq. }
  assert (HK : K ⊆ h).
  { etrans; [|exact Hh]. etrans; [by apply (insert_subseteq _ v bv)|]. apply insert_subseteq.
    rewrite lookup_insert_ne by done. done. }
  assert (Hkv : intern_kv_arrays m = (λ f, (intern f.1, intern f.2)) <$> take n (hash_order m)).
  { unfold intern_kv_arrays. change (map ?f ?l) with (f <$> l). f_equal. unfold n.
    destruct (decide (length (hash_order m) ≤ 32)%nat); [rewrite !take_ge by lia; done|].
    by rewrite Nat.min_r by lia. }
  rewrite Hkv. split.
  - apply (load_cstrs h k bk); [done|rewrite !length_map, Hn; done|rewrite !length_map; lia|].
    intros j s Hj. rewrite !list_lookup_fmap in Hj. destruct (_ !! j) as [f|] eqn:Hf; [|done].
    injection Hj as <-. by apply (Hall j f Hf h HK).
  - apply (load_cstrs h v bv); [done|rewrite !length_map, Hn; done|rewrite !length_map; lia|].
    intros j s Hj. rewrite !list_lookup_fmap in Hj. destruct (_ !! j) as [f|] eqn:Hf; [|done].
    injection Hj as <-. by apply (Hall j f Hf h HK).
Qed.

Definition load_owner (h : Heap) (a : Z) : option (option EntityKey) :=
  if a =? 0 then Some None else Some <$> load_key h a 0.

Lemma owns_owner_key row :
  owns φ ∅ (intern_owner_key_at row) (λ _ K a, is_u64 a ∧ ∀ h, K ⊆ h → load_owner h a = Some (intern_owner_key row)).
Proof.
  unfold intern_owner_key_at, intern_owner_key. cbv zeta. case_bool_decide; [apply owns_ret; split; [ulia|done]|].
  eapply owns_call; [apply owns_intern|]. intros o1 K1 i [Hi HK1].
  eapply owns_call; [apply owns_intern|]. intros o2 K2 t [Ht HK2]. apply owns_unbind, owns_boxed.
  { unfold key_bytes, ptr. rewrite length_app, !length_to_le. lia. }
  intros a Ha _. apply owns_ret. intros HKa HK. split; [ulia|]. intros h Hh.
  apply map_disjoint_union_r in HK as [HK12 HK1a].
  assert (Hha : h !! a = Some (key_bytes (mkRawKey i t))).
  { eapply lookup_weaken; [|exact Hh]. rewrite lookup_union_r, lookup_union_r; [apply lookup_insert_eq|..].
    - eapply map_disjoint_Some_r; [exact HKa|apply lookup_insert_eq].
    - eapply map_disjoint_Some_r; [exact HK1a|apply lookup_insert_eq]. }
  unfold load_owner. rewrite (proj2 (Z.eqb_neq _ _)) by lia.
  rewrite (load_key_block h a (key_bytes (mkRawKey i t)) 0 (mkRawKey i t)); [|done| | |split; cbn; ulia].
  - erewrite (key_interned K1 K2); [reflexivity| |exact HK12|exact HK1|exact HK2].
    etrans; [|exact Hh]. apply map_union_mono_l, map_union_subseteq_l.
  - unfold key_bytes, ptr. rewrite length_app, !length_to_le. lia.
  - replace 16%nat with (length (key_bytes (mkRawKey i t))) by (unfold key_bytes, ptr; by rewrite length_app, !length_to_le).
    apply slice_all.
Qed.

(** The 80 bytes of a row, and what they say. *)
Definition row_ok (o : bool) (K : Heap) (s : list byte) (row : string) : Prop :=
  ∃ id conn owner c keys vals l',
    s = row_bytes id conn owner (json_max_players row) (current_players row (json_max_players row)) c keys vals ∧
    is_u64 id ∧ is_u64 conn ∧ is_u64 owner ∧ is_u32 c ∧ is_u64 keys ∧ is_u64 vals ∧
    dropped l' (sr_search (search_result row)) ∧ (o = false → l' = sr_search (search_result row)) ∧
    ∀ h, K ⊆ h →
      load_cstr h id = Some (sr_lobby (search_result row)) ∧
      load_cstr h conn = Some (sr_connection (search_result row)) ∧
      load_owner h owner = Some (sr_owner (search_result row)) ∧
      load_array (load_cstr_at h keys) c = Some l'.*1 ∧ load_array (load_cstr_at h vals) c = Some l'.*2.

Lemma length_row_bytes id conn owner max cur c keys vals : length (row_bytes id conn owner max cur c keys vals) = ROW.
Proof. unfold row_bytes, ptr, u32, i32. by rewrite !length_app, !length_to_le. Qed.

Lemma row_written p i row b :
  ((i + 1) * ROW ≤ length b)%nat →
  fills φ p b (write_row p i row) (λ o b' K _,
    (∀ j, j ≠ i → ((j + 1) * ROW ≤ length b)%nat → slice (j * ROW) ROW b' = slice (j * ROW) ROW b) ∧
    row_ok o K (slice (i * ROW) ROW b') row).
Proof.
  intros Hb. unfold write_row. cbv zeta.
  eapply fills_call_then; [apply owns_kv_arrays|]. intros o1 K1 [[c keys] vals] (Hc & Hk & Hv & l' & Hd & Ho & HK1).
  eapply fills_call_then; [apply owns_intern|]. intros o2 K2 id [Hid HK2].
  eapply fills_call_then; [apply owns_intern|]. intros o3 K3 conn [Hconn HK3].
  eapply fills_call_then; [apply owns_owner_key|]. intros o4 K4 owner [Hown HK4].
  cbn [fst snd] in *. apply fills_unbind. eapply fills_put; [apply length_row_bytes|unfold ROW in *; lia|].
  intros b1 Hl1 Hs1 Ho1. apply fills_ret. intros _ HK34 HK234 HK1234. rewrite !map_union_empty in *. split.
  - intros j Hj Hjb. apply Ho1. unfold ROW in *. lia.
  - exists id, conn, owner, c, keys, vals, l'. split; [done|]. do 6 (split; [done || ulia|]).
    split; [done|]. split; [intros Hof; apply Ho; by destruct o1|]. intros h Hh.
    assert (Hh1 : K1 ⊆ h) by (etrans; [by apply map_union_subseteq_l|exact Hh]).
    assert (Hh' : K2 ∪ (K3 ∪ K4) ⊆ h) by (etrans; [by apply map_union_subseteq_r|exact Hh]).
    assert (Hh2 : K2 ⊆ h) by (etrans; [by apply map_union_subseteq_l|exact Hh']).
    assert (Hh34 : K3 ∪ K4 ⊆ h) by (etrans; [by apply map_union_subseteq_r|exact Hh']).
    assert (Hh3 : K3 ⊆ h) by (etrans; [by apply map_union_subseteq_l|exact Hh34]).
    assert (Hh4 : K4 ⊆ h) by (etrans; [by apply map_union_subseteq_r|exact Hh34]).
    destruct (HK1 h Hh1). unfold search_result. cbv zeta. cbn [sr_lobby sr_connection sr_owner].
    rewrite (HK2 h Hh2), (HK3 h Hh3), (HK4 h Hh4). done.
Qed.

Lemma max_fits row : is_u32 (json_max_players row) ∧ is_u32 (current_players row (json_max_players row)).
Proof.
  assert (H : 2 <= json_max_players row <= 32) by (unfold json_max_players, clamp; repeat case_if; lia).
  split; [ulia|]. unfold current_players. set (v := default 1 _). clearbody v. unfold clamp. repeat case_if; ulia.
Qed.

Lemma search_row_read o K h results b i row :
  h !! results = Some b → ((i + 1) * ROW ≤ length b)%nat → K ⊆ h →
  row_ok o K (slice (i * ROW) ROW b) row →
  ∃ r', load_row h results i = Some r' ∧ row_less r' (search_result row) ∧ (o = false → r' = search_result row).
Proof.
  intros Hb Hl HK (id & conn & owner & c & keys & vals & l' & Hs & H1 & H2 & H3 & H4 & H5 & H6 & Hd & Ho & Hall).
  destruct (Hall h HK) as (Hid & Hconn & Hown & Hks & Hvs). destruct (max_fits row) as [Hmax Hcur].
  exists (mkSearchResult (sr_lobby (search_result row)) (sr_connection (search_result row))
    (sr_owner (search_result row)) (json_max_players row) (current_players row (json_max_players row)) l').
  unfold load_row. cbv zeta. rewrite <- (Nat.add_0_r (i * ROW)), <- !Nat.add_assoc. cbn [Nat.add].
  rewrite !(load_slot _ _ b _ ROW) by (done || (unfold ROW; lia)). rewrite Hs. cbn [mbind option_bind].
  match goal with |- context [row_bytes ?a ?b ?c ?d ?e ?f ?g ?h] => set (rb := row_bytes a b c d e f g h) end.
  assert (slice 0 8 rb = ptr id ∧ slice 8 8 rb = ptr conn ∧ slice 16 8 rb = ptr owner ∧
    slice 24 4 rb = u32 (json_max_players row) ∧ slice 28 4 rb = u32 (current_players row (json_max_players row)) ∧
    slice 32 4 rb = u32 c ∧ slice 40 8 rb = ptr keys ∧ slice 48 8 rb = ptr vals)
    as (-> & -> & -> & -> & -> & -> & -> & ->) by (split_and!; reflexivity).
  unfold ptr, u32. rewrite !from_le_u64, !from_le_to_le_u32 by done.
  rewrite Hid. cbn [mbind option_bind]. rewrite Hconn. cbn [mbind option_bind].
  unfold load_owner in Hown. rewrite Hown. cbn [mbind option_bind].
  rewrite Hks. cbn [mbind option_bind]. rewrite Hvs. cbn [mbind option_bind]. rewrite zip_fst_snd.
  split_and!; [done|by exists l'|]. intros Hof. by rewrite (Ho Hof).
Qed.

(** A null array of rows. *)
Lemma null_row i row (f : unit → MM Z) (Q : bool → Heap → Z → Prop) :
  φ → owns_failed φ ∅ (bind (write_row 0 i row) f) Q.
Proof.
  intros Hφ.
  assert (Heq : ∀ w, bind (write_row 0 i row) f w =
    (let! r := intern_kv_arrays_at (json_obj row "SearchData") in
     let! id := intern_at (default "" (json_str row "LobbyId")) in
     let! conn := intern_at (default "" (json_str row "ConnectionString")) in
     let! owner := intern_owner_key_at row in
     bind (store 0 (i * ROW) (row_bytes id conn owner (json_max_players row)
       (current_players row (json_max_players row)) r.1.1 r.1.2 r.2)) f) w).
  { intros w. unfold write_row, bind.
    destruct (intern_kv_arrays_at _ w) as [[[[c k] v]| |] w1]; [|done..].
    destruct (intern_at _ w1) as [[id| |] w2]; [|done..].
    destruct (intern_at _ w2) as [[conn| |] w3]; [|done..].
    by destruct (intern_owner_key_at row w3) as [[owner| |] w4]. }
  intros M w Hw HB H0 Ho. rewrite Heq. revert M w Hw HB H0 Ho.
  eapply owns_failed_bind; [apply owns_kv_arrays|]. intros o1 B1 r _.
  eapply owns_failed_bind; [apply owns_frame, owns_intern|]. intros o2 B2 id _.
  eapply owns_failed_bind; [apply owns_frame, owns_intern|]. intros o3 B3 conn _.
  eapply owns_failed_bind; [apply owns_frame, owns_owner_key|]. intros o4 B4 owner _.
  by apply owns_null_store.
Qed.

Definition found_record (code : Z) (entity : RawKey) (ctx n results : Z) (sc : Z) : MM unit :=
  store sc 4 (i32 code) >>> store sc 8 (key_bytes entity) >>> store sc 24 (ptr ctx) >>>
  store sc 32 (u32 n) >>> store sc 40 (ptr results).

Lemma found_written code entity ctx n results :
  is_i32 code → key_fits entity → is_u64 ctx → is_u32 n → is_u64 results →
  owns φ ∅ (record 56 12 (found_record code entity ctx n results)) (λ o K p, ∀ h, K ⊆ h → p = 0 ∧ o = true ∨
    p ≠ 0 ∧ ∀ rows e, load_array (load_row h results) n = Some rows → key_value h entity = Some e →
      load_change h p = Some (FindCompleted code e ctx rows)).
Proof.
  intros H1 H2 H3 H4 H5. apply (owns_record_gen φ (λ _ h p, _)); [lia|ulia|]. intros p b0 Hl0 Hs0 Ho0.
  unfold found_record. repeat put. put_last. intros h Hp _ rows e Hr He.
  read_back. rewrite He. cbn [mbind option_bind]. read_more. by rewrite Hr.
Qed.

Lemma find_completed_written code entity ctx rows :
  change_fits (RFindCompleted code entity ctx rows) → (rows ≠ [] → φ) →
  owns φ ∅ (find_completed_at code entity ctx rows) (reads_back (RFindCompleted code entity ctx rows)).
Proof.
  intros (H1 & H2 & H3) Hφ. unfold find_completed_at. set (n := (length rows `min` 16)%nat).
  assert (Hn : length (take n rows) = n) by (rewrite length_take; lia).
  assert (Htake : take 16 rows = take n rows).
  { unfold n. destruct (decide (length rows ≤ 16)%nat); [rewrite !take_ge by lia; done|by rewrite Nat.min_r by lia]. }
  case_if.
  { assert (n = 0)%nat as Hz by lia. rewrite Hz in *. destruct rows; [|unfold n in Hz; cbn in Hz; lia].
    eapply owns_mono; [apply (found_written code entity ctx 0 0); [done..|ulia|ulia]|].
    intros o K p Hp h c Hh Hc. cbn in Hc. destruct (key_value h entity) as [e|] eqn:He; cbn in Hc; [injection Hc as <-|done].
    destruct (Hp h Hh) as [|[Hp0 Hload]]; [by left|right]. split; [done|]. exactly. by apply Hload. }
  apply owns_block; [unfold ROW; lia| |].
  { destruct (take n rows) as [|r l] eqn:Hr; [cbn in Hn; lia|]. cbn [each_from].
    intros M w Hw HB H0 Ho.
    pose proof (null_row 0 r (λ _, each_from (write_row 0) 1 l >>> record 56 12 (found_record code entity ctx (Z.of_nat n) 0))
      (λ _, reads_back (RFindCompleted code entity ctx rows) true)) as Hnull.
    specialize (Hnull ltac:(apply Hφ; by intros ->) M w Hw HB H0 Ho). revert Hnull. unfold bind, found_record.
    by destruct (write_row 0 0 r w) as [[[]| |] w1]. }
  intros p Hp. eapply fills_bind.
  { apply (fills_each_in φ p ROW _ row_ok (take n rows)).
    - intros o o' K K' s row (id & conn & owner & c & keys & vals & l' & ? & ? & ? & ? & ? & ? & ? & ? & Hl' & HK) Ho HKK.
      exists id, conn, owner, c, keys, vals, l'. split_and!; try done; [|intros h Hh; apply HK; by etrans].
      intros ->. apply Hl'. destruct o; [by rewrite Ho|done].
    - intros i row b _ Hb _. by apply row_written.
    - rewrite length_replicate. lia.
    - intros j Hj. apply slice_replicate. unfold ROW. lia. }
  intros o b K [] [_ Hall] Hl HK. rewrite length_replicate in Hl.
  eapply fills_mono; [apply fills_call, (found_written code entity ctx (Z.of_nat n) p); [done..|unfold n; ulia|ulia]|].
  intros o' b' K' sc [-> Hsc] _ HK'p HKK' _ HKp h c Hh Hc.
  assert (Hb : h !! p = Some b) by (eapply lookup_weaken; [|exact Hh]; apply lookup_insert_eq).
  assert (HKKh : K ∪ K' ⊆ h) by (etrans; [|exact Hh]; by apply insert_subseteq).
  assert (HKh : K ⊆ h) by (etrans; [by apply map_union_subseteq_l|exact HKKh]).
  assert (HK'h : K' ⊆ h) by (etrans; [by apply map_union_subseteq_r|exact HKKh]).
  cbn in Hc. destruct (key_value h entity) as [e|] eqn:He; cbn in Hc; [injection Hc as <-|done].
  destruct (Hsc h HK'h) as [[-> ->]|[Hsc0 Hload]]; [left; by rewrite orb_true_r|right]. split; [done|].
  destruct (load_array_rel (λ r' r, row_less r' r ∧ (o = false → r' = r)) (load_row h p)
    (search_result <$> take n rows) (Z.of_nat n)) as (rows' & Hrows & HR); [by rewrite length_map, Hn| |].
  { intros j r Hj. rewrite list_lookup_fmap in Hj. destruct (take n rows !! j) as [row|] eqn:Hrow; [|done].
    injection Hj as <-. pose proof (lookup_lt_Some _ _ _ Hrow) as Hlt.
    apply (search_row_read o K h p b j row); [done|unfold ROW in *; lia|done|].
    specialize (Hall j row Hrow). by rewrite Nat.add_0_l in Hall. }
  exists (FindCompleted code e ctx rows'). rewrite Htake. split_and!; [by apply Hload| |].
  - constructor. eapply Forall2_impl; [exact HR|]. naive_solver.
  - intros Hof. apply orb_false_iff in Hof as [Hof _]. f_equal. apply list_eq_Forall2.
    eapply Forall2_impl; [exact HR|]. naive_solver.
Qed.
End rows.

(** ** The queue *)

Section queue.
Context `{A : Allocator} `{O : HashOrder}.

(** A search with rows: its array is used without a test for null. *)
Definition has_rows (c : RawChange) : Prop :=
  match c with RFindCompleted _ _ _ rows => rows ≠ [] | _ => False end.

Lemma change_written (φ : Prop) c :
  change_fits c → (has_rows c → φ) → owns φ ∅ (write_change c) (reads_back c).
Proof.
  destruct c; intros Hc Hφ; cbn [write_change].
  - by apply create_completed_written.
  - by apply join_completed_written.
  - by apply member_added_written.
  - by apply member_removed_written.
  - by apply leave_completed_written.
  - by apply updated_written.
  - by apply post_completed_written.
  - by apply disconnected_written.
  - by apply find_completed_written.
Qed.

(** The records of [ps] say [vs], those whose record could not be allocated left out. *)
Inductive records (h : Heap) (oom : bool) : list Z → list Change → Prop :=
  | records_nil : records h oom [] []
  | records_cons p ps c c' cs :
      load_change h p = Some c' → understates c' c → (oom = false → c' = c) →
      records h oom ps cs → records h oom (p :: ps) (c :: cs)
  | records_lost ps c cs : oom = true → records h oom ps cs → records h oom ps (c :: cs).

Lemma records_oom h oom ps cs : records h false ps cs → records h oom ps cs.
Proof. induction 1; [constructor|econstructor; eauto|done]. Qed.

Lemma queue_records_read (φ : Prop) cs :
  Forall change_fits cs → Forall (λ c, has_rows c → φ) cs →
  owns φ ∅ (queue_records cs) (λ o K ps, ∀ h vs, K ⊆ h → mapM (change_value h) cs = Some vs → records h o ps vs).
Proof.
  intros Hfit Hφ. induction Hfit as [|c cs Hc _ IH]; cbn [queue_records].
  { apply owns_ret. intros h vs _ [= <-]. constructor. }
  apply Forall_cons in Hφ as [Hφc Hφ]. specialize (IH Hφ).
  eapply owns_call; [by apply change_written|]. intros o K p Hp.
  eapply owns_call; [exact IH|]. intros o' K' ps Hps. apply owns_ret.
  intros _ HKK h vs Hh Hvs. rewrite map_union_empty, orb_false_r in *. cbn in Hvs.
  destruct (change_value h c) as [v|] eqn:Hv; cbn in Hvs; [|done].
  destruct (mapM (change_value h) cs) as [vs'|] eqn:Hvs'; cbn in Hvs; [injection Hvs as <-|done].
  assert (Hrest : records h (o || o') ps vs').
  { assert (Hr : records h o' ps vs') by (apply Hps; [etrans; [by apply map_union_subseteq_r|exact Hh]|done]).
    destruct o'; [by rewrite orb_true_r|by apply records_oom]. }
  destruct (Hp h v) as [[-> ->]|(Hp0 & v' & Hl & Hu & Hof)];
    [etrans; [by apply map_union_subseteq_l|exact Hh]|done| |].
  - by apply records_lost.
  - rewrite (proj2 (Z.eqb_neq _ _)) by done. econstructor; [done..| |done].
    intros Hoo. apply Hof. by destruct o.
Qed.

(** C12: the title reads out of the pending records exactly the state changes the shim queued. Every
    record, array and C string is written inside its own allocation and everything that was in
    memory before is untouched; when no allocation fails, the addresses queued are those of records
    which, read at the offsets of the SDK's structures, say the changes one for one and in order. A
    failed allocation can only lose a record or leave a list of keys out of one, or end the process
    in [CString::new]; following the null array of a search with rows is the one fault. *)
Theorem title_reads_the_queue w cs vs :
  m_heap w !! 0 = None → m_oom w = false →
  Forall change_fits cs → mapM (change_value (m_heap w)) cs = Some vs →
  let '(r, w') := queue_records cs w in
  m_heap w ⊆ m_heap w' ∧
  (m_oom w' = false → ∃ ps, r = Ret ps ∧ load_change (m_heap w') <$> ps = Some <$> vs) ∧
  match r with
  | Ret ps => records (m_heap w') (m_oom w') ps vs
  | Aborted => m_oom w' = true
  | Fault => m_oom w' = true ∧ Exists has_rows cs
  end.
Proof.
  intros H0 Ho Hfit Hvs.
  assert (Hφ : Forall (λ c, has_rows c → Exists has_rows cs) cs).
  { apply Forall_forall. intros c Hc Hr. apply Exists_exists. eauto. }
  pose proof (queue_records_read (Exists has_rows cs) cs Hfit Hφ (m_heap w) w) as Hown.
  rewrite map_empty_union in Hown. specialize (Hown eq_refl (map_disjoint_empty_l _) H0).
  rewrite Ho in Hown. destruct (queue_records cs w) as [r w'].
  destruct Hown as (K & o & Hw' & HK & _ & Ho' & Hr). cbn in Ho'.
  assert (Hsub : m_heap w ⊆ m_heap w') by (rewrite Hw'; by apply map_union_subseteq_r).
  assert (HKw : K ⊆ m_heap w') by (rewrite Hw'; apply map_union_subseteq_l).
  assert (Hvs' : mapM (change_value (m_heap w')) cs = Some vs).
  { apply mapM_Some in Hvs. apply mapM_Some. eapply Forall2_impl; [exact Hvs|].
    intros c v Hc. by apply (change_value_mono (m_heap w)). }
  split_and!; [done| |].
  - intros Hoof. destruct r as [ps| |]; [|congruence|by destruct Hr; congruence].
    exists ps. split; [done|]. specialize (Hr _ vs HKw Hvs'). rewrite <- Ho', Hoof in Hr.
    clear -Hr. remember false as oom eqn:Hoom. revert Hoom.
    induction Hr as [|p ps c c' cs Hl _ Hx _ IH|]; intros ->; [done| |done].
    cbn. by rewrite Hl, Hx, IH.
  - destruct r as [ps| |]; [rewrite Ho'; by apply Hr|done|by destruct Hr].
Qed.

(** A search whose array of rows could not be allocated does not complete: [run_find] writes the
    rows through the null pointer. Every other array of the file is tested for null. *)
Theorem null_rows_followed w code entity ctx rows p w' :
  m_heap w !! 0 = None → rows ≠ [] → alloc_at (m_heap w) ((length rows `min` 16) * ROW) = 0 →
  find_completed_at code entity ctx rows w ≠ (Ret p, w').
Proof.
  intros H0 Hrows Hz. unfold find_completed_at. set (n := (length rows `min` 16)%nat) in *.
  assert (Hn : n ≠ 0%nat) by (destruct rows; [done|]; unfold n; cbn; lia).
  rewrite (proj2 (Nat.eqb_neq _ _)) by done. unfold bind at 1, alloc_zeroed. rewrite Hz. cbn [Z.eqb].
  destruct (take n rows) as [|r l] eqn:Hr.
  { assert (length (take n rows) = n) as Hl by (rewrite length_take; unfold n; lia). rewrite Hr in Hl. cbn in Hl. lia. }
  cbn [each_from]. intros Hret.
  pose proof (null_row True 0 r (λ _, each_from (write_row 0) 1 l >>> record 56 12 (found_record code entity ctx (Z.of_nat n) 0))
    (λ _ _ _, False) I (m_heap w) (mkMem (m_heap w) true)) as Hnull.
  rewrite map_empty_union in Hnull. specialize (Hnull eq_refl (map_disjoint_empty_l _) H0 eq_refl).
  replace (bind _ _ _) with (Ret p, w') in Hnull; [by destruct Hnull as (? & ? & ? & ? & ? & ? & ?)|].
  rewrite <- Hret. unfold bind, found_record. by destruct (write_row 0 0 r _) as [[[]| |] w1].
Qed.
End queue.

(** An allocator: the first address above every block. *)
Definition bump_top (h : Heap) : Z := map_fold (λ b l top, Z.max top (b + Z.of_nat (length l))) 16 h.

Lemma bump_top_above h : 16 <= bump_top h ∧ ∀ b l, h !! b = Some l → b + Z.of_nat (length l) <= bump_top h.
Proof.
  unfold bump_top. apply (map_fold_weak_ind (λ top h, 16 <= top ∧ ∀ b l, h !! b = Some l → b + Z.of_nat (length l) <= top)).
  - split; [done|]. intros b l Hb. by rewrite lookup_empty in Hb.
  - intros b l h' top _ [Ht Hall]. split; [lia|]. intros b' l' [[-> ->]|[? Hb]]%lookup_insert_Some; [lia|].
    specialize (Hall _ _ Hb). lia.
Qed.

#[export] Program Instance bump_allocator : Allocator := {|
  alloc_at h n := if bump_top h + Z.of_nat n + 1 <=? U64 then bump_top h + 1 else 0
|}.
Next Obligation.
  intros h n. destruct (bump_top_above h) as [H16 Hall]. case_if; [right|by left].
  split_and!; [lia|lia| |].
  - destruct (h !! _) as [l|] eqn:Hl; [|done]. specialize (Hall _ _ Hl). lia.
  - intros b l Hb. specialize (Hall _ _ Hb). lia.
Qed.

(** Two strings of a key, and a row as the broker sends it. *)
Definition demo_heap : Heap := {[ 16 := sbytes "Ann" ++ [x00]; 32 := sbytes "title_player_account" ++ [x00] ]}.
Definition demo_key : RawKey := mkRawKey 16 32.
Definition demo_changes : list RawChange :=
  [RMemberAdded 4096 demo_key;
   RUpdated 4096 (mkRawDelta false true false true ["mode"] [] [mkRawUpdate demo_key true ["level"; "name"]]);
   RFindCompleted 0 demo_key 77
     [js "{'LobbyId':'l1','ConnectionString':'c1','Owner':{'Id':'Ann'},'MaxPlayers':4,'CurrentPlayers':2,'SearchData':{'k':'v'}}"]].

Example demo_pending :
  let '(r, w') := queue_records demo_changes (mkMem demo_heap false) in
  m_oom w' = false ∧ match r with Ret ps => length ps = 3%nat | _ => False end.
Proof. vm_compute. auto. Qed.

Lemma title_reads_the_queue_witness :
  let w := mkMem demo_heap false in
  m_heap w !! 0 = None ∧ m_oom w = false ∧ Forall change_fits demo_changes ∧
  ∃ vs, mapM (change_value (m_heap w)) demo_changes = Some vs ∧ length vs = 3%nat ∧
  let '(r, w') := queue_records demo_changes w in
  m_heap w ⊆ m_heap w' ∧
  (m_oom w' = false → ∃ ps, r = Ret ps ∧ load_change (m_heap w') <$> ps = Some <$> vs) ∧
  match r with
  | Ret ps => records (m_heap w') (m_oom w') ps vs
  | Aborted => m_oom w' = true
  | Fault => m_oom w' = true ∧ Exists has_rows demo_changes
  end.
Proof.
  cbv zeta.
  assert (Hfit : Forall change_fits demo_changes).
  { repeat constructor; cbn; unfold keys_fit; cbn; ulia. }
  split; [vm_compute; reflexivity|]. split; [reflexivity|]. split; [exact Hfit|].
  eexists. split; [vm_compute; reflexivity|]. split; [reflexivity|].
  apply (title_reads_the_queue (mkMem demo_heap false) demo_changes); [vm_compute; reflexivity|reflexivity|exact Hfit|].
  vm_compute. reflexivity.
Defined.
