(* ===== verification/MpWorker.v ===== *)
(** * The broker worker: [playfab-mp-shim/src/lib.rs], refreshes and jobs

    What a lobby's refresh changes, the state changes that announce it, and the
    worker that runs the jobs of the exports and polls every lobby.  The worker
    makes its requests without the lock and applies the answers under it:
    [worker_turn] is one such half.  A job's requests are made in one turn, the
    exports run between the turns. *)

From S2P Require Import Prelude RustStr Http LanCfg Descriptor Json Value Comp MpState MpJson.
#[local] Open Scope string_scope.
#[local] Open Scope list_scope.
#[local] Open Scope Z_scope.
#[local] Open Scope comp_scope.

(** ** Differences *)

Definition snapshot (l : Lobby) : LobbySnapshot :=
  mkSnapshot (l_owner l) (l_has_owner l) (l_max l) (l_access l) (l_lock l) (l_props l) (l_search l)
    (l_member_props l).

(** [Vec::dedup]. *)
Fixpoint dedup (l : list string) : list string :=
  match l with
  | x :: ((y :: _) as r) => if bool_decide (x = y) then dedup r else x :: dedup r
  | l => l
  end.

Section env.
Context `{HO : HashOrder} `{E : MpEnv}.

(** The keys whose value was added, changed or removed. *)
Definition changed_keys (before after : Props) : list string :=
  let keys :=
    omap (λ f, match before !! f.1 with
               | Some old => if bool_decide (old = f.2) then None else Some f.1
               | None => Some f.1
               end) (hash_order after) ++
    filter (λ k, after !! k = None) (hash_order before).*1 in
  dedup (sort_by String.compare keys).

Definition member_key (members : list EntityKey) (eid : string) : EntityKey :=
  default (player_key eid) (find_map
    (λ m, if bool_decide (read_cstr (ek_id m) = eid) then Some m else None) members).

(** One member's bag against the snapshot. *)
Definition diff_member (before : LobbySnapshot) (after : Lobby) (m : string * Props)
    : option MemberUpdate :=
  let '(eid, props) := m in
  let new_member := negb (bool_decide (is_Some (s_member_props before !! eid))) in
  let keys := changed_keys (default ∅ (s_member_props before !! eid)) props in
  if new_member || negb (bool_decide (keys = []))
  then Some (mkMemberUpdate (member_key (l_members after) eid) new_member keys)
  else None.

Definition diff_lobby (before : LobbySnapshot) (after : Lobby) : LobbyDelta :=
  mkDelta
    (negb (Bool.eqb (s_has_owner before) (l_has_owner after)) || negb (entity_eq (s_owner before) (l_owner after)))
    (negb (s_max before =? l_max after))
    (negb (s_access before =? l_access after))
    (negb (s_lock before =? l_lock after))
    (changed_keys (s_search before) (l_search after))
    (changed_keys (s_props before) (l_props after))
    (omap (diff_member before after) (hash_order (l_member_props after))).

(** ** Refreshing a lobby *)

(** The bags the server gave, with what only the local view has: the server wins. *)
Definition merge_member (fresh : option Props) (eid : string) (mine : Props) : Props :=
  ensure_member_props (default ∅ fresh ∪ mine) eid.
Definition merge_members (fresh mine : gmap string Props) : gmap string Props :=
  let merged := foldl (λ acc f, <[f.1 := merge_member (acc !! f.1) f.1 f.2]> acc) fresh (hash_order mine) in
  map_imap (λ eid mp, Some (ensure_member_props mp eid)) merged.

(** The lobby with the fields a refresh takes over. *)
Definition refreshed (lobby fresh : Lobby) : Lobby :=
  let member_props := merge_members (l_member_props fresh) (l_member_props lobby) in
  let l := set_bags (l_props fresh) (l_search fresh)
             (set_ids (l_id lobby) (l_connection fresh)
                (set_owner (l_owner fresh) (l_has_owner fresh)
                   (set_scalars (l_max fresh) (l_access fresh) (l_lock fresh) lobby))) in
  if bool_decide (l_members fresh = []) && negb (bool_decide (l_members lobby = [])) then l
  else set_roster (l_members fresh) member_props l.

Definition live_ids (l : Lobby) : gset string :=
  list_to_set (map (λ m, read_cstr (ek_id m)) (l_members l)).

(** [apply_refresh]: the lobby, the announced entities that are gone, whether the lobby is, and the
    difference. *)
Definition apply_refresh (lobby : Lobby) (resp : option (Z * string))
    : Lobby * (list string * bool * LobbyDelta) :=
  match resp with
  | None => (lobby, ([], false, no_delta))
  | Some (status, text) =>
      if negb (status =? 200) then (lobby, ([], true, no_delta))
      else match lobby_from_json text with
      | None => (lobby, ([], false, no_delta))
      | Some fresh =>
          let l := refreshed lobby fresh in
          let departed :=
            if negb (bool_decide (l_members l = [])) || negb (bool_decide (l_announced l = ∅))
            then filter (λ e, e ∉ live_ids l) (set_order (l_announced l)) else [] in
          (l, (departed, false, diff_lobby (snapshot lobby) l))
      end
  end.

(** ** Announcing *)

Definition emit_member_added (lobby : Z) (member : EntityKey) : MC unit :=
  let id := read_cstr (ek_id member) in
  if bool_decide (id = "") || bool_decide (id = "owner") then mret tt
  else
    let* l := get_lobby lobby in
    if bool_decide (id ∈ l_announced l) then mret tt
    else
      mod_lobby lobby (λ l, set_announced ({[id]} ∪ l_announced l) l);;
      queue (MemberAdded lobby member).

Definition announce_lobby_members (lobby : Z) : MC unit :=
  let* l := get_lobby lobby in
  emit_member_added lobby (l_owner l);;
  for_each (l_members l) (emit_member_added lobby).

Definition emit_updated (lobby : Z) (delta : LobbyDelta) (force_lock : bool) : MC unit :=
  let* l := get_lobby lobby in
  let delta := if force_lock || negb (l_lock_known l) then with_lock delta else delta in
  if delta_empty delta then mret tt
  else
    mod_lobby lobby set_lock_known;;
    queue (Updated lobby delta).

(** The joiner's keys, sorted, when there are any. *)
Definition join_delta (joiner : EntityKey) (l : Lobby) : LobbyDelta :=
  match l_member_props l !! read_cstr (ek_id joiner) with
  | Some mp =>
      match sort_by String.compare (hash_order mp).*1 with
      | [] => no_delta
      | keys => mkDelta false false false false [] [] [mkMemberUpdate joiner true keys]
      end
  | None => no_delta
  end.

Definition emit_join_completed (lobby : Z) (joiner : EntityKey) : MC unit :=
  mod_lobby lobby (λ l, set_flags false (l_left l) l);;
  announce_lobby_members lobby;;
  emit_member_added lobby joiner;;
  let* l := get_lobby lobby in
  emit_updated lobby (join_delta joiner l) true;;
  queue (JoinCompleted 0 (ek_id joiner) lobby).

(** ** Polls *)

Definition untrack (lobby : Z) : MC unit :=
  mod_mp (λ m, set_lobbies (filter (λ p, p ≠ lobby) (m_lobbies m)) m).

(** The lobby's members that left, each announced once. *)
Definition remove_member (lobby : Z) (eid : string) : MC unit :=
  queue (MemberRemoved lobby (player_key eid));;
  mod_lobby lobby (λ l, set_announced (l_announced l ∖ {[eid]}) l).

Definition poll_lobby (lobby : Z) (resp : option (Z * string)) : MC unit :=
  let* l := get_lobby lobby in
  let '(l', (departed, gone, delta)) := apply_refresh l resp in
  modify (put_lobby lobby l');;
  for_each departed (remove_member lobby);;
  if gone then
    mod_lobby lobby (λ l, set_flags (l_pending l) true l);;
    queue (Disconnected lobby);;
    untrack lobby
  else
    let* m := get_mp in
    if existsb (λ pj, (pd_lobby pj =? lobby) && negb (pd_emitted pj)) (m_joins m) then mret tt
    else
      announce_lobby_members lobby;;
      emit_updated lobby delta false.

(** The indices of the parked joins that can be completed. *)
Fixpoint ready_joins (i : nat) (l : list PendingJoin) : MC (list nat) :=
  match l with
  | [] => mret []
  | pj :: rest =>
      let* ready :=
        if pd_emitted pj then mret false
        else let* l := get_lobby (pd_lobby pj) in mret (lobby_ready_for_guest l) in
      let* later := ready_joins (S i) rest in
      mret (if ready : bool then i :: later else later)
  end.

(** [pending_joins.remove(i)] and its completion; an index out of range panics. *)
Definition complete_join (i : nat) : MC unit :=
  let* m := get_mp in
  match m_joins m !! i with
  | None => undef
  | Some pj =>
      mod_mp (λ m, set_joins (take i (m_joins m) ++ drop (S i) (m_joins m)) m);;
      emit_join_completed (pd_lobby pj) (pd_joiner pj)
  end.

Definition service_pending_joins : MC unit :=
  let* m := get_mp in
  let* ready := ready_joins 0 (m_joins m) in
  for_each (rev ready) complete_join.

(** A create that has not answered has nothing to poll; neither has a lobby that was left. *)
Definition unpolled (l : Lobby) : bool := l_left l || (l_pending l && bool_decide (l_id l = "")).

Fixpoint poll_targets (lobbies : list Z) : MC (list (Z * string)) :=
  match lobbies with
  | [] => mret []
  | p :: rest =>
      let* l := get_lobby p in
      let* ts := poll_targets rest in
      mret (if unpolled l then ts else (p, l_id l) :: ts)
  end.

(** ** Requests *)

Definition auth_header (auth : string) : option string :=
  if bool_decide (auth = "") then None else Some ("X-EntityToken: " +:+ auth).

Definition http_json_status (method path body : string) : MC (option (Z * string)) :=
  let* auth := gets w_auth in
  let req := request_bytes (host mp_cfg) (port mp_cfg) method path body (auth_header auth) in
  modify (λ w, w_set_http (w_http w ++ [req]) w);;
  let* r := observe (λ k, reply_at k req) in
  mret match exchange r with
       | Ok resp => Some (hr_status resp, hr_body resp)
       | Err _ => None
       end.

Definition post (path body : string) : MC (Z * string) :=
  let* r := http_json_status "POST" path body in mret (default (0, "") r).

Definition party_has_entity (nid eid : string) : MC (option bool) :=
  if bool_decide (nid = "") || bool_decide (eid = "") then mret (Some false)
  else
    let* r := http_json_status "GET" ("/party/peers?network_id=" +:+ nid) "" in
    mret ((λ r, contains (text_field "entity_id" eid) r.2) <$> r).

Definition find_row_live (row : string) : MC bool :=
  let id := default "" (json_str row "LobbyId") in
  if bool_decide (id = "") then mret false
  else
    let* r := http_json_status "POST" "/Lobby/GetLobby" (lobby_id_body (json_escape id)) in
    match r with
    | None => mret true
    | Some (status, got) =>
        if negb (status =? 200) then mret false
        else
          match lan1_network_id (default "" (json_obj got "LobbyData" !! "network_descriptor")) with
          | None => mret false
          | Some nid =>
              let owner := default "" (json_obj got "Owner" !! "Id") in
              let* live := party_has_entity nid owner in
              mret (negb (bool_decide (live = Some false)))
          end
    end.

Fixpoint live_rows (rows : list string) : MC (list string) :=
  match rows with
  | [] => mret []
  | row :: rows =>
      let* live := find_row_live row in
      let* rest := live_rows rows in
      mret (if live : bool then row :: rest else rest)
  end.

(** ** Jobs *)

Definition code_of (status : Z) (text : string) : Z :=
  if status =? 200 then 0 else broker_error_code status text.

(** The requests of a job, made without the lock. *)
Definition run_requests (job : BrokerJob) : MC Outcome :=
  match job with
  | Create j =>
      let* r := post "/Lobby/CreateAndJoinLobby" (cj_body j) in mret (OCreate j r.1 r.2)
  | Join j =>
      let* r := post "/Lobby/JoinLobby" (jj_body j) in
      if negb (r.1 =? 200) then mret (OJoinFailed j (broker_error_code r.1 r.2))
      else match json_str r.2 "LobbyId" with
      | None => mret (OJoinFailed j E_PF_SERVICE_MALFORMED_RESPONSE)
      | Some id =>
          let* g := post "/Lobby/GetLobby" (lobby_id_body id) in
          mret (if g.1 =? 200 then OJoined j g.2 else OJoinFailed j (broker_error_code g.1 g.2))
      end
  | Find j =>
      let* r := post "/Lobby/FindLobbies" (fj_body j) in
      let* rows := if r.1 =? 200 then live_rows (json_arr_objects r.2 "Lobbies") else mret [] in
      mret (OFound j r.1 r.2 rows)
  | LeaveLobby j => let* r := post "/Lobby/LeaveLobby" (lj_body j) in mret (OLeft j (code_of r.1 r.2))
  | PostUpdate j => let* r := post "/Lobby/UpdateLobby" (pj_body j) in mret (OPosted j (code_of r.1 r.2))
  end.

Definition new_placeholder (owner : EntityKey) (max_players access_policy : Z) : Lobby :=
  mkLobby "" "" owner true max_players ∅ ∅ ∅ [] 0 access_policy false ∅ true false.

(** The fields [fresh] brings; the bookkeeping of the completion path stays. *)
Definition move_lobby_into (dst fresh : Lobby) : Lobby :=
  mkLobby (l_id fresh) (l_connection fresh) (l_owner fresh) (l_has_owner fresh) (l_max fresh)
    (l_props fresh) (l_search fresh) (l_member_props fresh) (l_members fresh) (l_lock fresh)
    (l_access fresh) (l_lock_known dst) (l_announced dst) (l_pending dst) (l_left dst).

Definition apply_create_response (d : Lobby) (text : string) (owner : EntityKey) (max_players : Z)
    (lobby_data search : gmap string string) : Lobby :=
  let id := default (l_id d) (ctext <$> json_str text "LobbyId") in
  let conn := default (l_connection d) (ctext <$> json_str text "ConnectionString") in
  set_flags false (l_left d)
    (set_bags (ensure_cstr_map lobby_data) (ensure_cstr_map search)
       (set_scalars (Z.max (json_max_players text) max_players) (l_access d) (l_lock d)
          (set_owner owner true (set_ids id conn d)))).

Definition apply_join_response (d : Lobby) (text : string) (joiner : EntityKey)
    (member_kv : gmap string string) : Lobby :=
  let d := match lobby_from_json text with Some fresh => move_lobby_into d fresh | None => d end in
  let mid := read_cstr (ek_id joiner) in
  let members := if existsb (λ m, bool_decide (read_cstr (ek_id m) = mid)) (l_members d)
                 then l_members d else l_members d ++ [joiner] in
  set_roster members
    (<[mid := ensure_member_props (apply_props (default ∅ (l_member_props d !! mid)) member_kv) mid]>
       (l_member_props d)) d.

(** The critical section of a job: nothing happens when another instance is live by now. *)
Definition apply_create (j : CreateJob) (status : Z) (text : string) : MC unit :=
  let lp := cj_lobby j in
  let* l := get_lobby lp in
  if l_left l then mret tt
  else if negb (status =? 200) || negb (bool_decide (is_Some (json_str text "LobbyId"))) then
    let code := if status =? 200 then E_PF_SERVICE_MALFORMED_RESPONSE else broker_error_code status text in
    mod_lobby lp (set_flags false true);;
    untrack lp;;
    queue (CreateCompleted code (cj_ctx j) lp)
  else
    mod_lobby lp (λ l, apply_create_response l text (cj_owner j) (cj_max j) (cj_lobby_data j) (cj_search j));;
    emit_member_added lp (cj_owner j);;
    queue (CreateCompleted 0 (cj_ctx j) lp).

Definition fail_join (j : JoinJob) (code : Z) : MC unit :=
  mod_lobby (jj_lobby j) (set_flags false true);;
  untrack (jj_lobby j);;
  queue (JoinCompleted code (ek_id (jj_joiner j)) (jj_lobby j)).

Definition apply_join (j : JoinJob) (got : string) : MC unit :=
  let lp := jj_lobby j in
  let* l := get_lobby lp in
  if l_left l then mret tt
  else
    mod_lobby lp (λ l, apply_join_response l got (jj_joiner j) (jj_member_kv j));;
    let* l := get_lobby lp in
    if lobby_ready_for_guest l then emit_join_completed lp (jj_joiner j)
    else mod_mp (λ m, set_joins (m_joins m ++ [mkPendingJoin lp (jj_joiner j) (jj_ctx j) false]) m).

Definition apply_find (j : FindJob) (status : Z) (text : string) (rows : list string) : MC unit :=
  queue (FindCompleted (code_of status text) (fj_entity j) (fj_ctx j) (map search_result (take 16 rows))).

Definition apply_post (j : PostJob) (code : Z) : MC unit :=
  queue (PostCompleted code (pj_lobby j) (pj_member j) (pj_ctx j));;
  if (code =? 0) && negb (delta_empty (pj_delta j)) then emit_updated (pj_lobby j) (pj_delta j) false
  else mret tt.

(** [if m.generation != job.generation { return }]. *)
Definition of_generation (g : Z) (f : MC unit) : MC unit :=
  with_mp (let* m := get_mp in if m_generation m =? g then f else mret tt) tt.

Definition apply_outcome (o : Outcome) : MC unit :=
  match o with
  | OCreate j status text => of_generation (cj_generation j) (apply_create j status text)
  | OJoinFailed j code => of_generation (jj_generation j) (fail_join j code)
  | OJoined j got => of_generation (jj_generation j) (apply_join j got)
  | OFound j status text rows => of_generation (fj_generation j) (apply_find j status text rows)
  | OLeft j code => of_generation (lj_generation j) (queue (LeaveCompleted code))
  | OPosted j code => of_generation (pj_generation j) (apply_post j code)
  end.

(** One lobby of a poll round: it may be gone from the instance by now. *)
Definition apply_poll (lobby : Z) (resp : option (Z * string)) : MC unit :=
  with_mp
    (let* m := get_mp in
     if bool_decide (lobby ∈ m_lobbies m) then
       let* l := get_lobby lobby in
       if unpolled l then mret tt else poll_lobby lobby resp
     else mret tt) tt.

(** ** The worker *)

Definition go (k : Worker) : MC unit := modify (w_set_worker k).

Definition worker_turn : MC unit :=
  let* k := gets w_worker in
  match k with
  | WIdle =>
      let* q := gets w_queue in
      match q with
      | job :: rest =>
          modify (λ w, w_set_queue rest (w_started w) w);;
          let* o := run_requests job in go (WApply o)
      | [] =>
          let* now := observe clock_at in
          let* due := gets w_next_poll in
          if now <? due then mret tt
          else
            let* now := observe clock_at in
            modify (w_set_next_poll (now + BROKER_POLL_MS));;
            let* ts := with_mp (let* m := get_mp in poll_targets (m_lobbies m)) [] in
            go (WPolling ts)
      end
  | WApply o => apply_outcome o;; go WIdle
  | WPolling [] => with_mp service_pending_joins tt;; go WIdle
  | WPolling ((lobby, id) :: ts) =>
      let* resp := http_json_status "POST" "/Lobby/GetLobby" (lobby_id_body id) in
      go (WPolled lobby resp ts)
  | WPolled lobby resp ts => apply_poll lobby resp;; go (WPolling ts)
  end.
End env.
