(* ===== verification/MpApi.v ===== *)
(** * The lobby exports: [playfab-mp-shim/src/lib.rs], the functions the title calls

    The instance, the operations that become jobs of the worker, the pump of
    lobby state changes, and the getters.  An export returns its code and what
    it writes through its out parameters; an export is one step. *)

From S2P Require Import Prelude RustStr Http LanCfg Descriptor Json Value Comp MpState MpJson MpWorker.
#[local] Open Scope string_scope.
#[local] Open Scope list_scope.
#[local] Open Scope Z_scope.
#[local] Open Scope comp_scope.

(** ** What the title passes *)

(** A property list: a count and the arrays of keys and values. *)
Record KvArgs := mkKvArgs {
  kv_count : Z;
  kv_keys : option (list CPtr);
  kv_vals : option (list CPtr);
}.

(** [PFLobbyCreateConfiguration], as far as it is read. *)
Record CreateConfig := mkCreateConfig {
  cc_max : Z;
  cc_owner_migration : Z;
  cc_access : Z;
  cc_search : KvArgs;
  cc_lobby : KvArgs;
}.

(** [PFLobbySearchConfiguration]. *)
Record SearchConfig := mkSearchConfig {
  sc_friends : option FriendsFilter;
  sc_filter : CPtr;
  sc_sort : CPtr;
  sc_count : option Z;
}.

(** [PFLobbyDataUpdate] and [PFLobbyMemberDataUpdate]. *)
Record LobbyUpdate := mkLobbyUpdate {
  lu_owner : option EntityKey;
  lu_max : option Z;
  lu_access : option Z;
  lu_lock : option Z;
  lu_search : KvArgs;
  lu_lobby : KvArgs;
}.
Record MemberDataUpdate := mkMemberDataUpdate { md_member : option EntityKey; md_props : KvArgs }.

(** The pairs of a list. Its arrays are read up to the count, which is 32 at most. *)
Definition kv_pairs (a : KvArgs) : MC (list (CPtr * CPtr)) :=
  match kv_keys a, kv_vals a with
  | Some keys, Some vals =>
      if (kv_count a =? 0) || (32 <? kv_count a) then mret []
      else
        let n := Z.to_nat (kv_count a) in
        if (length keys <? n)%nat || (length vals <? n)%nat then undef
        else mret (zip (take n keys) (take n vals))
  | _, _ => mret []
  end.

(** [kv_list]: a null value is the empty string. *)
Definition kv_list (a : KvArgs) : MC (gmap string string) :=
  let* l := kv_pairs a in
  mret (foldl (λ m f, let k := read_cstr f.1 in
    if bool_decide (k = "") then m else <[k := read_cstr f.2]> m) ∅ l).

(** [kv_list_split]: a null value deletes the key. *)
Definition kv_list_split (a : KvArgs) : MC (gmap string string * list string) :=
  let* l := kv_pairs a in
  mret (foldl (λ acc f, let k := read_cstr f.1 in
    if bool_decide (k = "") then acc
    else match f.2 with
         | None => (acc.1, acc.2 ++ [k])
         | Some v => (<[k := read_cstr (Some v)]> acc.1, acc.2)
         end) (∅, []) l).

Definition join_cfg_kv (cfg : option KvArgs) : MC (gmap string string) :=
  match cfg with None => mret ∅ | Some a => kv_list a end.

Section env.
Context `{HO : HashOrder} `{E : MpEnv}.

(** ** The instance *)

Definition mp_ready (handle : Z) : MC bool :=
  let* m := gets w_mp in mret (negb (handle =? 0) && bool_decide (is_Some m)).

(** [f] on a live instance, [E_PF_NOT_INITIALIZED] and [default] otherwise. *)
Definition guarded {A} (handle : Z) (default : A) (f : MC (Z * A)) : MC (Z * A) :=
  let* ready := mp_ready handle in
  if ready then f else mret (E_PF_NOT_INITIALIZED, default).

Definition enqueue_job (job : BrokerJob) : MC unit :=
  modify (λ w, w_set_queue (w_queue w ++ [job]) true w).

Definition current_generation : MC Z := with_mp (let* m := get_mp in mret (m_generation m)) 0.

Definition PFMultiplayerInitialize (out_null : bool) : MC Z :=
  if out_null then mret E_FAIL
  else
    let* m := gets w_mp in
    match m with
    | Some _ => mret E_PF_INSTANCE_ALREADY_EXISTS
    | None =>
        let* g := gets w_gen in
        let generation := (g + 1) mod U64 in
        modify (w_set_gen generation);;
        modify (λ w, w_set_mp (Some (mkMp None None generation [] [] [] false [] 0 (length (w_log w)) [])) w);;
        modify (λ w, w_set_queue (w_queue w) true w);;
        mret S_OK
    end.

Definition PFMultiplayerUninitialize (handle : Z) : MC Z :=
  let* r := guarded handle tt (modify (w_set_mp None);; mret (S_OK, tt)) in mret r.1.

(** [set_local_identity]: the token loses its line breaks. *)
Definition strip_newlines (s : string) : string :=
  bstr (filter (λ b, b ≠ x0d ∧ b ≠ x0a) (sbytes s)).

Definition PFMultiplayerSetEntityToken (handle : Z) (entity : option EntityKey) (token : CPtr) : MC Z :=
  let* r := guarded handle tt
    (match entity with
     | None => mret (E_PF_ENTITY_KEY_MALFORMED, tt)
     | Some e =>
         let id := read_cstr (ek_id e) in
         if bool_decide (id = "") || bool_decide (read_cstr (ek_type e) = "")
         then mret (E_PF_ENTITY_KEY_MALFORMED, tt)
         else
           let tok := read_cstr token in
           if bool_decide (tok = "") then mret (E_PF_ENTITY_TOKEN_MALFORMED, tt)
           else
             modify (w_set_identity (strip_newlines tok) id);;
             with_mp (mod_mp (set_identity (if bool_decide (x00 ∈ sbytes tok) then None else Some tok)
                                (Some (intern_entity entity)))) tt;;
             mret (S_OK, tt)
     end) in
  mret r.1.

(** [entity_id_of]: the local entity stands in. *)
Definition entity_id_of (entity : option EntityKey) : MC string :=
  let* loc := gets w_local in
  let id := match entity with Some e => read_cstr (ek_id e) | None => "" end in
  mret (if bool_decide (id = "") then loc else id).

(** ** Operations *)

Definition PFMultiplayerCreateAndJoinLobby (handle : Z) (creator : option EntityKey)
    (cfg : option CreateConfig) (join_cfg : option KvArgs) (ctx : Z) : MC (Z * Z) :=
  guarded handle 0
    (let max := match cfg with None => 8 | Some c => clamp (cc_max c) 1 32 end in
     let policy := match cfg with None => 0 | Some c => Z.min (cc_owner_migration c) 3 end in
     let access := match cfg with None => 0 | Some c => Z.min (cc_access c) 2 end in
     let* search := match cfg with None => mret ∅ | Some c => kv_list (cc_search c) end in
     let* lobby_data := match cfg with None => mret ∅ | Some c => kv_list (cc_lobby c) end in
     let owner := intern_entity creator in
     let* member_kv := join_cfg_kv join_cfg in
     let* generation := current_generation in
     let owner_id := read_cstr (ek_id owner) in
     let body := build_create_body max policy lobby_data search owner_id member_kv in
     let lobby := set_roster [owner]
       {[owner_id := ensure_member_props (apply_props ∅ member_kv) owner_id]}
       (set_bags (apply_props ∅ lobby_data) (apply_props ∅ search) (new_placeholder owner max access)) in
     let* lp := new_lobby lobby in
     with_mp (mod_mp (λ m, set_lobbies (m_lobbies m ++ [lp]) m)) tt;;
     enqueue_job (Create (mkCreateJob generation body owner lp ctx max lobby_data search));;
     mret (S_OK, lp)).

Definition PFMultiplayerJoinLobby (handle : Z) (joiner : option EntityKey) (connection : CPtr)
    (join_cfg : option KvArgs) (ctx : Z) : MC (Z * Z) :=
  guarded handle 0
    (let conn := read_cstr connection in
     let joiner := intern_entity joiner in
     let* member_kv := join_cfg_kv join_cfg in
     let* generation := current_generation in
     let body := build_join_body conn (read_cstr (ek_id joiner)) member_kv in
     let* lp := new_lobby (new_placeholder joiner 0 0) in
     with_mp (mod_mp (λ m, set_lobbies (m_lobbies m ++ [lp]) m)) tt;;
     enqueue_job (Join (mkJoinJob generation body joiner member_kv lp ctx));;
     mret (S_OK, lp)).

Definition PFMultiplayerFindLobbies (handle : Z) (entity : option EntityKey)
    (cfg : option SearchConfig) (ctx : Z) : MC Z :=
  let* r := guarded handle tt
    (let filter := match cfg with Some c => read_cstr (sc_filter c) | None => "" end in
     let sort := match cfg with Some c => read_cstr (sc_sort c) | None => "" end in
     let* eid := entity_id_of entity in
     let body := build_find_body eid filter sort (cfg ≫= sc_count) (cfg ≫= sc_friends) in
     let* generation := current_generation in
     enqueue_job (Find (mkFindJob generation body (intern_entity entity) ctx));;
     mret (S_OK, tt)) in
  mret r.1.

(** ** The pump *)

(** The array given to the title: its address (0 when it is empty) and its changes. *)
Definition PFMultiplayerStartProcessingLobbyStateChanges (handle : Z) (out_null : bool)
    : MC (Z * option (Z * list Change)) :=
  if out_null then mret (E_FAIL, None)
  else
    guarded handle (Some (0, []))
      (with_mp
         (let* m := get_mp in
          (if m_outstanding m then mret tt
           else
             let* array := observe array_at in
             mod_mp (λ m, set_queue [] (m_pending m) (negb (bool_decide (m_pending m = []))) array
                            (set_batches (m_batches m ++ [m_pending m]) m)));;
          let* m := get_mp in
          mret (S_OK, Some (if bool_decide (m_in_flight m = []) then 0 else m_array m, m_in_flight m)))
         (S_OK, None)).

(** The batch is taken back only with the count and the array Start gave out. *)
Definition PFMultiplayerFinishProcessingLobbyStateChanges (handle count changes : Z) : MC Z :=
  let* r := guarded handle tt
    (with_mp
       (let* m := get_mp in
        if m_outstanding m && (count =? Z.of_nat (length (m_in_flight m))) && (changes =? m_array m)
        then mod_mp (λ m, set_queue (m_pending m) [] false (m_array m) m)
        else mret tt) tt;;
     mret (S_OK, tt)) in
  mret r.1.

(** ** Getters *)

Definition identity_getter {A} (f : Lobby → A) (lobby : Z) (out_null : bool) : MC (Z * option A) :=
  if (lobby =? 0) || out_null then mret (E_FAIL, None)
  else
    let* l := get_lobby lobby in
    mret (if l_pending l then (E_PF_OBJECT_STILL_PENDING, None) else (S_OK, Some (f l))).
Definition PFLobbyGetLobbyId := identity_getter l_id.
Definition PFLobbyGetConnectionString := identity_getter l_connection.
Definition PFLobbyGetMembershipLock := identity_getter l_lock.
(** A lobby without an owner answers the null pointer. *)
Definition PFLobbyGetOwner :=
  identity_getter (λ l, if l_has_owner l then Some (l_owner l) else None).

(** [&v[..96]] panics inside a character. *)
Definition log_slice (v : string) : MC unit :=
  match sbytes v !! 96%nat with
  | Some c => if is_cont c then undef else mret tt
  | None => mret tt
  end.

Definition logged_property (k : string) : bool :=
  bool_decide (k ∈ ["network_descriptor"; "invitation_identifier"; "network_id"; "id_container"]).

Definition PFLobbyGetLobbyProperty (lobby : Z) (key : CPtr) (out_null : bool)
    : MC (Z * option (option string)) :=
  if (lobby =? 0) || out_null then mret (E_FAIL, None)
  else
    let k := read_cstr key in
    let* l := get_lobby lobby in
    let val := match l_props l !! k with
      | Some v =>
          if bool_decide (k = "network_descriptor") && l_pending l &&
             negb (is_real_network_descriptor (read_cstr (Some (sbytes v))))
          then None else Some v
      | None => None
      end in
    (match val with
     | Some v => if logged_property k then log_slice (read_cstr (Some (sbytes v))) else mret tt
     | None => mret tt
     end);;
    mret (S_OK, Some val).

Definition PFLobbyGetSearchProperty (lobby : Z) (key : CPtr) (out_null : bool)
    : MC (Z * option (option string)) :=
  if (lobby =? 0) || out_null then mret (E_FAIL, None)
  else
    let* l := get_lobby lobby in
    mret (S_OK, Some (l_search l !! read_cstr key)).

(** Neither on the roster nor in the property bags. *)
Definition not_a_member (l : Lobby) (mid : string) : bool :=
  negb (bool_decide (mid = "")) &&
  negb (existsb (λ m, bool_decide (read_cstr (ek_id m) = mid)) (l_members l)) &&
  negb (bool_decide (is_Some (l_member_props l !! mid))).

Definition PFLobbyGetMemberProperty (lobby : Z) (member : option EntityKey) (key : CPtr)
    (out_null : bool) : MC (Z * option (option string)) :=
  if (lobby =? 0) || out_null then mret (E_FAIL, None)
  else
    let* l := get_lobby lobby in
    match member with
    | None => mret (E_PF_ENTITY_KEY_MALFORMED, None)
    | Some e =>
        let mid := read_cstr (ek_id e) in
        mret (if l_pending l then (S_OK, Some None)
              else if not_a_member l mid then (E_PF_LOBBY_MEMBER_NOT_IN_LOBBY, Some None)
              else (S_OK, Some (mp ← l_member_props l !! mid; mp !! read_cstr key)))
    end.

(** 0 is NotConnected, 1 is Connected. *)
Definition PFLobbyGetMemberConnectionStatus (lobby : Z) (member : option EntityKey) (out_null : bool)
    : MC (Z * option Z) :=
  if out_null then mret (E_FAIL, None)
  else match member with
  | None => mret (E_FAIL, Some 0)
  | Some e =>
      if lobby =? 0 then mret (E_FAIL, Some 0)
      else
        let* l := get_lobby lobby in
        mret (if l_pending l then (S_OK, Some 0)
              else if not_a_member l (read_cstr (ek_id e)) then (E_PF_LOBBY_MEMBER_NOT_IN_LOBBY, Some 0)
              else (S_OK, Some 1))
  end.

Definition PFMultiplayerGetErrorMessage (hr : Z) : MC string := mret "lan playfab multiplayer stub".

(** ** Updates and leaving *)

(** The scalars the title gave; a new owner counts when it has an identifier. *)
Definition update_scalars (u : LobbyUpdate) : PostUpdateScalars :=
  mkScalars
    match lu_owner u with
    | Some o => let oid := read_cstr (ek_id o) in
        if bool_decide (oid = "") then None
        else Some (mkEntityKey (intern oid) (intern (read_cstr (ek_type o))))
    | None => None
    end
    (lu_max u) (Z.max 0 <$> lu_access u) (lu_lock u).

Definition apply_scalars (s : PostUpdateScalars) (l : Lobby) : Lobby :=
  let l := match u_owner s with Some o => set_owner o true l | None => l end in
  set_scalars (default (l_max l) (u_max s)) (default (l_access l) (u_access s))
    (default (l_lock l) (u_lock s)) l.

(** The log line names up to 16 keys, whatever the count. *)
Definition log_keys (a : KvArgs) : MC unit :=
  match kv_keys a with
  | Some keys => if (length keys <? Z.to_nat (Z.min (kv_count a) 16))%nat then undef else mret tt
  | None => mret tt
  end.

(** The lobby half of a post: the lobby, the deleted keys and the scalars. *)
Definition post_lobby (update : option LobbyUpdate) (l : Lobby)
    : MC (Lobby * (list string * list string * PostUpdateScalars)) :=
  match update with
  | None => mret (l, ([], [], no_scalars))
  | Some u =>
      let scalars := update_scalars u in
      let* search := kv_list_split (lu_search u) in
      let* lobby := kv_list_split (lu_lobby u) in
      let l := set_bags (drop_props (apply_props (l_props l) lobby.1) lobby.2)
                 (drop_props (apply_props (l_search l) search.1) search.2) l in
      log_keys (lu_search u);;
      log_keys (lu_lobby u);;
      mret (apply_scalars scalars l, (search.2, lobby.2, scalars))
  end.

(** The member half: the lobby, the member and the deleted keys when anything was posted. *)
Definition post_member (mid : string) (update : option MemberDataUpdate) (l : Lobby)
    : MC (Lobby * (option string * list string)) :=
  match update with
  | None => mret (l, (None, []))
  | Some u =>
      let id := match md_member u with Some e => read_cstr (ek_id e) | None => "" end in
      let mid := if bool_decide (id = "") then mid else id in
      let* kv := kv_list_split (md_props u) in
      if bool_decide (mid = "") || (bool_decide (kv.1 = ∅) && bool_decide (kv.2 = []))
      then mret (l, (None, []))
      else
        let entry := ensure_member_props
          (drop_props (apply_props (default ∅ (l_member_props l !! mid)) kv.1) kv.2) mid in
        mret (set_roster (l_members l) (<[mid := entry]> (l_member_props l)) l, (Some mid, kv.2))
  end.

Definition PFLobbyPostUpdate (lobby : Z) (member : option EntityKey) (update : option LobbyUpdate)
    (member_update : option MemberDataUpdate) (ctx : Z) : MC Z :=
  if lobby =? 0 then mret E_FAIL
  else match update, member_update with
  | None, None => mret E_PF_LOBBY_EMPTY_UPDATE
  | _, _ =>
      let* before := get_lobby lobby in
      if l_left before then mret E_PF_LOBBY_UPDATE_AFTER_DISCONNECT
      else
        let* r := post_lobby update before in
        let '(l, (search_del, lobby_del, scalars)) := r in
        let* mid := entity_id_of member in
        let* r := post_member mid member_update l in
        let '(l, (target, member_del)) := r in
        modify (put_lobby lobby l);;
        let* loc := gets w_local in
        let body := build_update_body loc l search_del lobby_del target member_del scalars in
        let* generation := current_generation in
        enqueue_job (PostUpdate (mkPostJob generation body lobby member ctx
                                   (diff_lobby (snapshot before) l)));;
        mret S_OK
  end.

Definition PFLobbyLeave (lobby : Z) : MC Z :=
  if lobby =? 0 then mret S_OK
  else
    let* l := get_lobby lobby in
    let* loc := gets w_local in
    let eid := if bool_decide (loc = "") then read_cstr (ek_id (l_owner l)) else loc in
    let* generation := current_generation in
    mod_lobby lobby (λ l, set_flags (l_pending l) true l);;
    with_mp (untrack lobby) tt;;
    enqueue_job (LeaveLobby (mkLeaveJob generation (build_leave_body (l_id l) eid) lobby));;
    mret S_OK.

(** Only the target is checked: there is no kick. *)
Definition PFLobbyForceRemoveMember (lobby : Z) (target : option EntityKey) : MC Z :=
  match target with
  | None => mret E_PF_ENTITY_KEY_MALFORMED
  | Some e =>
      if bool_decide (read_cstr (ek_id e) = "") then mret E_PF_ENTITY_KEY_MALFORMED
      else if lobby =? 0 then mret S_OK
      else let* _ := get_lobby lobby in mret S_OK
  end.
End env.
