(* ===== verification/MpInv.v ===== *)
(** * The invariant of the lobby state

    The log of every state change ever queued is the specification: each
    change is checked against the changes before it ([change_ok]), and the
    lobbies' bookkeeping is a function of it ([lobby_fine]).  A create or join
    owes its lobby one completion: the right to complete it is a token that
    stands in the job, the worker or the parked join, and is spent once. *)

From S2P Require Import Prelude RustStr Http LanCfg Descriptor Json Value Comp MpState MpJson MpWorker MpApi.
#[local] Open Scope string_scope.
#[local] Open Scope list_scope.
#[local] Open Scope Z_scope.
#[local] Open Scope comp_scope.

(** ** The log *)

Definition ident (k : EntityKey) : string := read_cstr (ek_id k).

(** The lobby a change is about, and the lobby it completes. *)
Definition completes (c : Change) : option Z :=
  match c with CreateCompleted _ _ p | JoinCompleted _ _ p => Some p | _ => None end.
Definition change_lobby (c : Change) : option Z :=
  match c with
  | CreateCompleted _ _ p | JoinCompleted _ _ p | MemberAdded p _ | MemberRemoved p _
  | Updated p _ | Disconnected p => Some p
  | _ => None
  end.

(** The title's roster of a lobby after a change. *)
Definition roster_step (p : Z) (X : gset string) (c : Change) : gset string :=
  match c with
  | MemberAdded q k => if decide (q = p) then {[ident k]} ∪ X else X
  | MemberRemoved q k => if decide (q = p) then X ∖ {[ident k]} else X
  | _ => X
  end.
Definition roster (p : Z) (log : list Change) : gset string := foldl (roster_step p) ∅ log.

(** Every identifier announced survives the round trip through a C string. *)
Definition clean_log (log : list Change) : Prop :=
  ∀ p k, MemberAdded p k ∈ log → ident (player_key (ident k)) = ident k.

Definition added (log : list Change) (p : Z) (id : string) : Prop :=
  ∃ k, MemberAdded p k ∈ log ∧ ident k = id.

(** What a change says, against the changes before it. *)
Definition change_ok (past : list Change) (c : Change) : Prop :=
  match c with
  | MemberAdded p k =>
      ident k ≠ "" ∧ ident k ≠ "owner" ∧ (clean_log past → ident k ∉ roster p past)
  | MemberRemoved p k =>
      ∃ id, k = player_key id ∧ added past p id ∧ (clean_log past → id ∈ roster p past)
  | Updated p d => delta_empty d = false ∧ ((∀ d', Updated p d' ∉ past) → d_lock d = true)
  | JoinCompleted code j p =>
      code = 0 →
      (∃ d, last past = Some (Updated p d) ∧ d_lock d = true) ∧
      (read_cstr j = "" ∨ read_cstr j = "owner" ∨ added past p (read_cstr j))
  | _ => True
  end.

Record lobby_fine (log : list Change) (p : Z) (l : Lobby) : Prop := {
  lb_added : ∀ id, id ∈ l_announced l → added log p id;
  lb_roster : clean_log log → l_announced l = roster p log;
  lb_lock : l_lock_known l = true → ∃ d, Updated p d ∈ log;
}.

Record log_fine (ls : gmap Z Lobby) (next : Z) (log : list Change) : Prop := {
  lf_changes : ∀ i c, log !! i = Some c → change_ok (take i log) c;
  lf_lobbies : ∀ p l, ls !! p = Some l → lobby_fine log p l;
  lf_fresh : ∀ c p, c ∈ log → change_lobby c = Some p → p < next;
}.

(** What happens to a lobby's bookkeeping when [c] is queued. *)
Record lobby_step (log : list Change) (p : Z) (c : Change) (l l' : Lobby) : Prop := {
  st_added : ∀ id, id ∈ l_announced l' →
    id ∈ l_announced l ∨ ∃ k, c = MemberAdded p k ∧ ident k = id;
  st_roster : clean_log (log ++ [c]) → l_announced l' = roster_step p (l_announced l) c;
  st_lock : l_lock_known l' = true → l_lock_known l = true ∨ ∃ d, c = Updated p d;
}.

Lemma clean_log_app log log' : clean_log (log ++ log') → clean_log log.
Proof. intros H p k Hk. apply (H p). apply elem_of_app. by left. Qed.

Lemma added_app log log' p id : added log p id → added (log ++ log') p id.
Proof. intros (k & ? & ?). exists k. split; [|done]. apply elem_of_app. by left. Qed.

Lemma added_prefix log log' p id : log `prefix_of` log' → added log p id → added log' p id.
Proof. intros [x ->]. apply added_app. Qed.

Lemma roster_snoc p log c : roster p (log ++ [c]) = roster_step p (roster p log) c.
Proof. unfold roster. by rewrite foldl_snoc. Qed.

(** A change about no lobby, or another one. *)
Lemma roster_step_other p X c : change_lobby c ≠ Some p → roster_step p X c = X.
Proof. intros Hc. destruct c; try done; simpl in *; destruct (decide _); congruence. Qed.

Lemma roster_fresh p log : (∀ c, c ∈ log → change_lobby c ≠ Some p) → roster p log = ∅.
Proof.
  induction log as [|c log IH] using rev_ind; [done|]. intros H. rewrite roster_snoc, IH.
  - apply roster_step_other, H, elem_of_app. right. by apply list_elem_of_singleton.
  - intros c' Hc'. apply H, elem_of_app. by left.
Qed.

Lemma lobby_step_fine log p c l l' :
  lobby_fine log p l → lobby_step log p c l l' → lobby_fine (log ++ [c]) p l'.
Proof.
  intros [Ha Hr Hl] [Sa Sr Sl]. split.
  - intros id [Hid|(k & -> & Hk)]%Sa; [by apply added_app, Ha|].
    exists k. split; [|done]. apply elem_of_app. right. by left.
  - intros Hc. rewrite roster_snoc, (Sr Hc), Hr; [done|]. by eapply clean_log_app.
  - intros [[d Hd]%Hl|[d ->]]%Sl; exists d; apply elem_of_app; [by left|right; by left].
Qed.

Lemma log_fine_push ls ls' next log c :
  log_fine ls next log → change_ok log c → (∀ p, change_lobby c = Some p → p < next) →
  (∀ p l', ls' !! p = Some l' → ∃ l, ls !! p = Some l ∧ lobby_step log p c l l') →
  log_fine ls' next (log ++ [c]).
Proof.
  intros [Hc Hl Hf] Hok Hp Hstep. split.
  - intros i c' [[Hlt Hi]|[Hi <-]]%lookup_snoc_Some.
    + rewrite take_app_le by lia. by apply Hc.
    + by rewrite Hi, take_app_length.
  - intros p l' (l & Hl' & Hs)%Hstep. eapply lobby_step_fine; [by apply Hl|done].
  - intros c' p [Hin|Hin]%elem_of_app; [by apply Hf|].
    apply list_elem_of_singleton in Hin as ->. apply Hp.
Qed.

Lemma lobby_step_other log q c l : change_lobby c ≠ Some q → lobby_step log q c l l.
Proof.
  intros Hc. split; [by left| |by left]. intros _. by rewrite roster_step_other.
Qed.

(** Changes that no bookkeeping is kept about. *)
Definition plain (c : Change) : bool :=
  match c with MemberAdded _ _ | MemberRemoved _ _ | Updated _ _ => false | _ => true end.
Lemma lobby_step_plain log q c l : plain c = true → lobby_step log q c l l.
Proof. intros Hc. by destruct c; split; auto. Qed.

(** Updates of a lobby that leave its bookkeeping alone. *)
Definition same_books (l l' : Lobby) : Prop :=
  l_announced l' = l_announced l ∧ l_lock_known l' = l_lock_known l.
#[export] Instance same_books_preorder : PreOrder same_books.
Proof. split; [done|]. intros x y z [] []. split; congruence. Qed.
Lemma same_books_fine log p l l' : same_books l l' → lobby_fine log p l → lobby_fine log p l'.
Proof. intros [Ha Hk] []. split; rewrite ?Ha, ?Hk; auto. Qed.

(** ** The instance and the tokens *)

Record mp_fine (log : list Change) (m : Mp) : Prop := {
  mf_start : (m_start m ≤ length log)%nat;
  mf_log : drop (m_start m) log = concat (m_batches m) ++ m_pending m;
  mf_out : m_outstanding m = true → last (m_batches m) = Some (m_in_flight m) ∧ m_in_flight m ≠ [];
  mf_idle : m_outstanding m = false → m_in_flight m = [];
}.

Definition job_token (j : BrokerJob) : list Z :=
  match j with Create j => [cj_lobby j] | Join j => [jj_lobby j] | _ => [] end.
Definition job_refs (j : BrokerJob) : list Z :=
  match j with PostUpdate j => [pj_lobby j] | _ => job_token j end.
Definition outcome_token (o : Outcome) : list Z :=
  match o with
  | OCreate j _ _ => [cj_lobby j]
  | OJoinFailed j _ | OJoined j _ => [jj_lobby j]
  | _ => []
  end.
Definition outcome_refs (o : Outcome) : list Z :=
  match o with OPosted j _ => [pj_lobby j] | _ => outcome_token o end.
Definition worker_token (k : Worker) : list Z := match k with WApply o => outcome_token o | _ => [] end.
Definition worker_refs (k : Worker) : list Z := match k with WApply o => outcome_refs o | _ => [] end.
Definition join_tokens (J : option (list PendingJoin)) : list Z := map pd_lobby (default [] J).
Definition completed (log : list Change) : list Z := omap completes log.

(** [D] holds the tokens of the computation that runs, [J] the parked joins. *)
Record Inv (D : list Z) (J : option (list PendingJoin)) (w : MpWorld) : Prop := {
  iv_next : 0 < w_next w;
  iv_heap : ∀ p, is_Some (w_lobbies w !! p) → 0 < p < w_next w;
  iv_log : log_fine (w_lobbies w) (w_next w) (w_log w);
  iv_joins : m_joins <$> w_mp w = J;
  iv_mp : ∀ m, w_mp w = Some m →
    mp_fine (w_log w) m ∧ ∀ p, p ∈ m_lobbies m → is_Some (w_lobbies w !! p);
  iv_parked : ∀ pj, pj ∈ default [] J → pd_emitted pj = false ∧ is_Some (w_lobbies w !! pd_lobby pj);
  iv_jobs : ∀ j p, j ∈ w_queue w → p ∈ job_refs j → is_Some (w_lobbies w !! p);
  iv_debt : ∀ p, p ∈ D → is_Some (w_lobbies w !! p);
  iv_tokens : NoDup (D ++ mjoin (job_token <$> w_queue w) ++ join_tokens J ++ completed (w_log w));
}.

(** The batch the title holds, and the ones before it. *)
Definition same_batch (m m' : Mp) : Prop :=
  m_outstanding m' = true ∧ m_in_flight m' = m_in_flight m ∧ m_array m' = m_array m ∧
  m_batches m' = m_batches m.
Definition keeps_batch (w w' : MpWorld) : Prop :=
  ∀ m, w_mp w = Some m → m_outstanding m = true → ∃ m', w_mp w' = Some m' ∧ same_batch m m'.

Lemma keeps_batch_same w w' : w_mp w' = w_mp w → keeps_batch w w'.
Proof. intros Hm m Hw Ho. exists m. split; [by rewrite Hm|]. by repeat split. Qed.
Lemma keeps_batch_trans x y z : keeps_batch x y → keeps_batch y z → keeps_batch x z.
Proof.
  intros Hxy Hyz m Hm Ho. destruct (Hxy m Hm Ho) as (m1 & Hm1 & Ho1 & ? & ? & ?).
  destruct (Hyz m1 Hm1 Ho1) as (m2 & Hm2 & ? & ? & ? & ?). exists m2. split; [done|].
  split; [done|]. split_and!; congruence.
Qed.

(** What every operation keeps, but Finish and Uninitialize: lobbies are never freed, the log only
    grows, the title's batch stays as it is. *)
Record evolves (w w' : MpWorld) : Prop := {
  ev_heap : ∀ p, is_Some (w_lobbies w !! p) → is_Some (w_lobbies w' !! p);
  ev_log : w_log w `prefix_of` w_log w';
  ev_batch : keeps_batch w w';
}.
#[export] Instance evolves_preorder : PreOrder evolves.
Proof.
  split; [by split; [| |apply keeps_batch_same]|]. intros x y z [] [].
  split; [auto|by etrans|by eapply keeps_batch_trans].
Qed.

Lemma evolves_same w w' :
  w_lobbies w' = w_lobbies w → w_log w' = w_log w → w_mp w' = w_mp w → evolves w w'.
Proof. intros H1 H2 H3. split; [by rewrite H1|by rewrite H2|by apply keeps_batch_same]. Qed.

(** Within a step of the title or a critical section, the worker stands still. *)
Record grows (w w' : MpWorld) : Prop := {
  gr_evolves : evolves w w';
  gr_worker : w_worker w' = w_worker w;
}.
#[export] Instance grows_preorder : PreOrder grows.
Proof. split; [by split|]. intros x y z [] []. split; [by etrans|congruence]. Qed.
Lemma gr_heap w w' : grows w w' → ∀ p, is_Some (w_lobbies w !! p) → is_Some (w_lobbies w' !! p).
Proof. intros [[]]. auto. Qed.
Lemma gr_log w w' : grows w w' → w_log w `prefix_of` w_log w'.
Proof. by intros [[]]. Qed.
(** The lobbies, the log, the instance and the worker are what they were. *)
Lemma grows_same w w' :
  w_lobbies w' = w_lobbies w → w_log w' = w_log w → w_mp w' = w_mp w → w_worker w' = w_worker w →
  grows w w'.
Proof. intros. split; [by apply evolves_same|done]. Qed.
Lemma grows_set_mp m m' w :
  w_mp w = Some m → (m_outstanding m = true → same_batch m m') → grows w (w_set_mp (Some m') w).
Proof.
  intros Hm Hb. split; [|done]. split; [done|done|]. intros m0 Hm0 Ho. exists m'. split; [done|].
  rewrite Hm in Hm0. injection Hm0 as <-. by apply Hb.
Qed.
Infix "⊑w" := grows (at level 70).

Abbreviation good D J := (keeps grows (Inv D J)).

(** ** Steps of a computation *)

Lemma mgood_ret D J {A} (x : A) (Q : A → MpWorld → Prop) w : Inv D J w → Q x w → good D J (mret x) Q w.
Proof. apply keeps_ret. apply _. Qed.

Lemma mgood_bind D J D' J' {A B} (m : MC A) (f : A → MC B) P Q w :
  good D J m P w → (∀ x w1, Inv D J w1 → w ⊑w w1 → P x w1 → good D' J' (f x) Q w1) →
  good D' J' (mbind m f) Q w.
Proof. apply keeps_bind. apply _. Qed.

(** One step whose result does not matter. *)
Lemma mgood_seq D J D' J' {A B} (m : MC A) (f : A → MC B) P Q w :
  good D J m P w → (∀ x w1, Inv D J w1 → w ⊑w w1 → good D' J' (f x) Q w1) →
  good D' J' (mbind m f) Q w.
Proof. intros Hm Hf. eapply mgood_bind; [exact Hm|]. auto. Qed.

Lemma mgood_mono D J {A} (m : MC A) (P Q : A → MpWorld → Prop) w :
  good D J m P w → (∀ x w', Inv D J w' → w ⊑w w' → P x w' → Q x w') → good D J m Q w.
Proof. intros Hm HQ. eapply keeps_mono; [exact Hm|]. auto. Qed.

Lemma mgood_weaken D J {A} (m : MC A) P w : good D J m P w → good D J m (λ _ _, True) w.
Proof. intros H. eapply mgood_mono; [exact H|]. auto. Qed.

(** Reading the world. *)
Lemma mgood_gets_bind D J {A B} (f : MpWorld → A) (k : A → MC B) Q w :
  good D J (k (f w)) Q w → good D J (mbind (gets f) k) Q w.
Proof. done. Qed.

Lemma good_get_lobby_bind D J {B} p l (k : Lobby → MC B) Q w :
  w_lobbies w !! p = Some l → good D J (k l) Q w → good D J (mbind (get_lobby p) k) Q w.
Proof. intros Hl H. unfold keeps, wp, mbind, get_lobby. rewrite Hl. exact H. Qed.

Lemma good_get_mp_bind D J {B} m (k : Mp → MC B) Q w :
  w_mp w = Some m → good D J (k m) Q w → good D J (mbind get_mp k) Q w.
Proof. intros Hm H. unfold keeps, wp, mbind, get_mp. rewrite Hm. exact H. Qed.

Lemma good_with_mp D J {A} (f : MC A) d Q w :
  (w_mp w = None → good D J (mret d) Q w) → (∀ m, w_mp w = Some m → good D J f Q w) →
  good D J (with_mp f d) Q w.
Proof.
  intros Hn Hs. apply mgood_gets_bind. destruct (w_mp w) as [m|] eqn:Hm; [by apply (Hs m)|by apply Hn].
Qed.

(** A change of the world that the invariant does not see. *)
Lemma good_modify D J f w : Inv D J (f w) → w ⊑w f w → good D J (modify f) (λ _ w', w' = f w) w.
Proof. intros Hi Hg. by split. Qed.

Lemma mgood_observe D J {A} (f : nat → A) w :
  Inv D J w → good D J (observe f) (λ _ w', w_lobbies w' = w_lobbies w ∧ w_mp w' = w_mp w) w.
Proof. intros []. split; [by split|]. split; [by apply grows_same|done]. Qed.

(** A lobby changes, its bookkeeping does not. *)
Lemma inv_put D J w p l l' :
  Inv D J w → w_lobbies w !! p = Some l → same_books l l' → Inv D J (put_lobby p l' w).
Proof.
  intros [Hn Hh Hl Hj Hm Hp Hq Hd Ht] Hp' Hb.
  assert (Hdom : ∀ q, is_Some (<[p:=l']> (w_lobbies w) !! q) ↔ is_Some (w_lobbies w !! q)).
  { intros q. rewrite lookup_insert_is_Some'. split; [intros [<-|?]; eauto|by right]. }
  split; simpl; auto.
  - intros q. rewrite Hdom. apply Hh.
  - destruct Hl as [Hc Hl Hf]. split; [done| |done]. intros q x.
    rewrite lookup_insert_Some. intros [[<- <-]|[_ Hx]]; [|by apply Hl].
    eapply same_books_fine; [done|by apply Hl].
  - intros m Hm'. destruct (Hm m Hm') as [? Hx]. split; [done|]. intros q Hq'. rewrite Hdom. by apply Hx.
  - intros pj Hpj. rewrite Hdom. by apply Hp.
  - intros j q Hj' Hr. rewrite Hdom. by eapply Hq.
  - intros q Hq'. rewrite Hdom. by apply Hd.
Qed.

Lemma grows_put p l l' w : w_lobbies w !! p = Some l → w ⊑w put_lobby p l' w.
Proof.
  intros Hp. split; [|done]. split; [|done|by apply keeps_batch_same].
  intros q Hq. simpl. rewrite lookup_insert_is_Some'. by right.
Qed.

Lemma good_put D J p l l' w :
  Inv D J w → w_lobbies w !! p = Some l → same_books l l' →
  good D J (modify (put_lobby p l')) (λ _ w', w_lobbies w' !! p = Some l' ∧ w_mp w' = w_mp w) w.
Proof.
  intros Hi Hp Hb. split; [by eapply inv_put|]. split; [by eapply grows_put|].
  simpl. by rewrite lookup_insert_eq.
Qed.

Lemma good_mod_lobby D J p l f w :
  Inv D J w → w_lobbies w !! p = Some l → same_books l (f l) →
  good D J (mod_lobby p f) (λ _ w', w_lobbies w' !! p = Some (f l) ∧ w_mp w' = w_mp w) w.
Proof. intros. eapply good_get_lobby_bind; [done|]. by eapply good_put. Qed.

(** ** Queueing a change *)

Definition pushed (c : Change) (m : Mp) (ls : gmap Z Lobby) (w : MpWorld) : MpWorld :=
  w_set_log (w_log w ++ [c])
    (w_set_mp (Some (set_queue (m_pending m ++ [c]) (m_in_flight m) (m_outstanding m) (m_array m) m))
       (w_set_heap ls (w_next w) w)).

Lemma mp_fine_push log m c :
  mp_fine log m →
  mp_fine (log ++ [c]) (set_queue (m_pending m ++ [c]) (m_in_flight m) (m_outstanding m) (m_array m) m).
Proof.
  intros [Hs Hl Ho Hi]. split; simpl; auto.
  - rewrite length_app. lia.
  - rewrite drop_app_le by done. by rewrite Hl, app_assoc.
Qed.

Lemma completed_snoc log c : completed (log ++ [c]) = completed log ++ option_list (completes c).
Proof. unfold completed. rewrite omap_app. simpl. by destruct (completes c). Qed.

Lemma inv_push D J w m c ls :
  Inv (option_list (completes c) ++ D) J w → w_mp w = Some m → change_ok (w_log w) c →
  (∀ p, change_lobby c = Some p → is_Some (w_lobbies w !! p)) →
  (∀ p l', ls !! p = Some l' → ∃ l, w_lobbies w !! p = Some l ∧ lobby_step (w_log w) p c l l') →
  (∀ p, is_Some (w_lobbies w !! p) → is_Some (ls !! p)) →
  Inv D J (pushed c m ls w).
Proof.
  intros [Hn Hh Hl Hj Hm Hp Hq Hd Ht] Hw Hok Hc Hstep Hls.
  destruct (Hm m Hw) as [Hfine Hrefs]. split; simpl; auto.
  - intros p [l' (l & Hl' & _)%Hstep]. apply Hh. by rewrite Hl'.
  - apply (log_fine_push (w_lobbies w)); [done..| |done]. intros p Hp'. by apply Hh, Hc.
  - rewrite <- Hj, Hw. done.
  - intros m' [= <-]. split; [by apply mp_fine_push|]. simpl. intros p Hp'. by apply Hls, Hrefs.
  - intros pj Hpj. destruct (Hp pj Hpj). auto.
  - intros j p Hj' Hr. by apply Hls, (Hq j).
  - intros p Hp'. apply Hls, Hd, elem_of_app. by right.
  - rewrite completed_snoc. by rewrite <- app_assoc, Permutation_app_comm, <- !app_assoc in Ht.
Qed.

Lemma grows_pushed c m ls w :
  w_mp w = Some m → (∀ p, is_Some (w_lobbies w !! p) → is_Some (ls !! p)) → w ⊑w pushed c m ls w.
Proof.
  intros Hm H. split; [|done]. split; [done|by exists [c]|].
  intros m' Hm' Ho. rewrite Hm in Hm'. injection Hm' as <-. eexists. split; [reflexivity|]. by split.
Qed.
