(* ===== verification/MpKeeps.v ===== *)
(** * Every operation of the lobby shim keeps the invariant

    The announcements, the polls, the worker's turns and the exports, from the
    bottom up. *)

From S2P Require Import Prelude RustStr Http LanCfg Descriptor Json Value Comp MpState MpJson MpWorker MpApi MpInv.
#[local] Open Scope string_scope.
#[local] Open Scope list_scope.
#[local] Open Scope Z_scope.
#[local] Open Scope comp_scope.

Create HintDb mp discriminated.
#[export] Hint Resolve gr_heap mgood_ret : mp.
#[export] Hint Extern 0 True => exact I : mp.
#[export] Hint Extern 1 (_ ⊑w _) => reflexivity : mp.
Ltac mp := solve [eauto 8 with mp].

Lemma live_mp D L w : Inv D (Some L) w → ∃ m, w_mp w = Some m ∧ m_joins m = L.
Proof. intros Hi. destruct (proj1 (fmap_Some _ _ _) (iv_joins _ _ _ Hi)) as (m & ? & ->). eauto. Qed.

(** A member the title was told of, or one it is never told of. *)
Definition told (w : MpWorld) (p : Z) (k : EntityKey) : Prop :=
  ident k = "" ∨ ident k = "owner" ∨ added (w_log w) p (ident k).
Lemma told_grows w w' p k : w ⊑w w' → told w p k → told w' p k.
Proof.
  intros G [?|[?|?]]; [by left|by right; left|right; right].
  eapply added_prefix; [by apply G|done].
Qed.
#[export] Hint Resolve told_grows : mp.

Section env.
Context `{HO : HashOrder} `{E : MpEnv}.

(** ** Queueing *)

Lemma good_queue_plain D L c w :
  Inv (option_list (completes c) ++ D) (Some L) w → plain c = true → change_ok (w_log w) c →
  (∀ p, change_lobby c = Some p → is_Some (w_lobbies w !! p)) →
  good D (Some L) (queue c) (λ _ w', w_lobbies w' = w_lobbies w ∧ w_log w' = w_log w ++ [c]) w.
Proof.
  intros Hi Hp Hok Hc. destruct (live_mp _ _ _ Hi) as (m & Hm & _).
  assert (Eq : queue c w = Some (tt, pushed c m (w_lobbies w) w)).
  { unfold queue, mod_mp, get_mp, mbind. by rewrite Hm. }
  unfold keeps, wp. rewrite Eq. split; [|by split; [apply grows_pushed|]].
  eapply inv_push; eauto. intros p l' Hl. exists l'. split; [done|]. by apply lobby_step_plain.
Qed.

(** A change about the lobby [p] and the bookkeeping that goes with it, in either order. *)
Lemma pushed_books D L c p l l' w :
  Inv D (Some L) w → completes c = None → change_lobby c = Some p → change_ok (w_log w) c →
  w_lobbies w !! p = Some l → lobby_step (w_log w) p c l l' →
  ∃ m, w_mp w = Some m ∧
    let w' := pushed c m (<[p := l']> (w_lobbies w)) w in Inv D (Some L) w' ∧ w ⊑w w'.
Proof.
  intros Hi Hn Hp Hok Hl Hs. destruct (live_mp _ _ _ Hi) as (m & Hm & _). exists m.
  assert (Hg : ∀ q, is_Some (w_lobbies w !! q) → is_Some (<[p:=l']> (w_lobbies w) !! q)).
  { intros q Hq. rewrite lookup_insert_is_Some'. by right. }
  split; [done|]. split; [|by apply grows_pushed]. apply inv_push; try done.
  - by rewrite Hn.
  - intros q [= <-]%(transitivity (eq_sym Hp)). by exists l.
  - intros q x. rewrite lookup_insert_Some. intros [[<- <-]|[Hq Hx]]; [by eauto|].
    exists x. split; [done|]. apply lobby_step_other. congruence.
Qed.

Definition pushes (c : Change) (p : Z) (l' : Lobby) (w w' : MpWorld) : Prop :=
  w_lobbies w' = <[p := l']> (w_lobbies w) ∧ w_log w' = w_log w ++ [c].

Lemma good_books_queue D L c p l f w :
  Inv D (Some L) w → completes c = None → change_lobby c = Some p → change_ok (w_log w) c →
  w_lobbies w !! p = Some l → lobby_step (w_log w) p c l (f l) →
  good D (Some L) (mod_lobby p f;; queue c) (λ _, pushes c p (f l) w) w ∧
  good D (Some L) (queue c;; mod_lobby p f) (λ _, pushes c p (f l) w) w.
Proof.
  intros Hi Hn Hp Hok Hl Hs.
  destruct (pushed_books D L c p l (f l) w) as (m & Hm & Hi' & Hg); try done.
  assert (E1 : (mod_lobby p f;; queue c) w = Some (tt, pushed c m (<[p := f l]> (w_lobbies w)) w)).
  { unfold queue, mod_mp, get_mp, mod_lobby, get_lobby, mbind. rewrite Hl. simpl. by rewrite Hm. }
  assert (E2 : (queue c;; mod_lobby p f) w = Some (tt, pushed c m (<[p := f l]> (w_lobbies w)) w)).
  { unfold queue, mod_mp, get_mp, mod_lobby, get_lobby, mbind. rewrite Hm. simpl. by rewrite Hl. }
  split; unfold keeps, wp; [rewrite E1|rewrite E2]; (split; [done|by split]).
Qed.

(** ** Announcements *)


Lemma inv_lobby_fine D J w p l : Inv D J w → w_lobbies w !! p = Some l → lobby_fine (w_log w) p l.
Proof. intros Hi. apply (lf_lobbies _ _ _ (iv_log _ _ _ Hi)). Qed.

Lemma good_emit_member_added D L p k w :
  Inv D (Some L) w → is_Some (w_lobbies w !! p) →
  good D (Some L) (emit_member_added p k) (λ _ w', told w' p k) w.
Proof.
  intros Hi [l Hl]. unfold emit_member_added.
  destruct (_ || _) eqn:Hid.
  { apply orb_true_iff in Hid. rewrite !bool_decide_eq_true in Hid. apply mgood_ret; [done|].
    destruct Hid; [by left|by right; left]. }
  apply orb_false_iff in Hid. rewrite !bool_decide_eq_false in Hid. destruct Hid as [H1 H2].
  eapply good_get_lobby_bind; [done|]. pose proof (inv_lobby_fine _ _ _ _ _ Hi Hl) as Hf.
  case_bool_decide as Ha; [apply mgood_ret; [done|]; right; right; by apply Hf|].
  eapply mgood_mono.
  - apply good_books_queue; [done..| | |].
    + simpl. split; [done|]. split; [done|]. intros Hc. by rewrite <- (lb_roster _ _ _ Hf Hc).
    + exact Hl.
    + split; simpl; [|intros _; by rewrite decide_True|by left].
      intros id [Hs|?]%elem_of_union; [|by left].
      apply elem_of_singleton in Hs as ->. right. by exists k.
  - intros _ w' _ _ [_ Hlog]. right. right. rewrite Hlog. exists k. split; [|done].
    apply elem_of_app. right. by left.
Qed.

Lemma good_announce D L p w :
  Inv D (Some L) w → is_Some (w_lobbies w !! p) →
  good D (Some L) (announce_lobby_members p) (λ _ _, True) w.
Proof.
  intros Hi Hp. destruct Hp as [l Hl]. unfold announce_lobby_members.
  eapply good_get_lobby_bind; [done|].
  eapply mgood_seq; [by apply good_emit_member_added|]. intros _ w1 Hi1 G1.
  apply keeps_for_each; [apply _|done|]. intros k w2 _ Hi2 G2.
  eapply mgood_weaken, good_emit_member_added; [done|]. apply G2, G1. by exists l.
Qed.

Lemma delta_empty_lock d : d_lock d = true → delta_empty d = false.
Proof. intros Hd. unfold delta_empty. rewrite Hd. simpl. by rewrite andb_false_r. Qed.

Lemma good_emit_updated D L p d force w :
  Inv D (Some L) w → is_Some (w_lobbies w !! p) →
  good D (Some L) (emit_updated p d force)
    (λ _ w', force = true → ∃ d, last (w_log w') = Some (Updated p d) ∧ d_lock d = true) w.
Proof.
  intros Hi [l Hl]. unfold emit_updated. eapply good_get_lobby_bind; [done|].
  set (d' := if _ || _ then _ else _). pose proof (inv_lobby_fine _ _ _ _ _ Hi Hl) as Hf.
  assert (Hforce : force = true → d_lock d' = true) by by intros ->.
  destruct (delta_empty d') eqn:He.
  { apply mgood_ret; [done|]. intros Hl'%Hforce%delta_empty_lock. congruence. }
  eapply mgood_mono.
  - apply good_books_queue; [done..| |exact Hl|].
    + simpl. split; [done|]. intros Hno. unfold d'. destruct force; [done|]. simpl.
      destruct (l_lock_known l) eqn:Hk; [|done]. destruct (lb_lock _ _ _ Hf Hk) as [x Hx]. by destruct (Hno x).
    + split; simpl; [by left|done|]. intros _. right. by exists d'.
  - intros _ w' _ _ [_ Hlog] Hl'%Hforce. exists d'. by rewrite Hlog, last_snoc.
Qed.

(** The completion of a join spends its token. *)
Lemma good_emit_join_completed D L p k w :
  Inv (p :: D) (Some L) w →
  good D (Some L) (emit_join_completed p k) (λ _ w', JoinCompleted 0 (ek_id k) p ∈ w_log w') w.
Proof.
  intros Hi. destruct (iv_debt _ _ _ Hi p ltac:(left)) as [l Hl]. unfold emit_join_completed.
  eapply mgood_seq; [eapply good_mod_lobby; [done..|]; done|]. intros _ w1 Hi1 G1.
  assert (Hp1 : is_Some (w_lobbies w1 !! p)) by (apply (gr_heap _ _ G1); by exists l).
  eapply mgood_seq; [by apply good_announce|]. intros _ w2 Hi2 G2.
  eapply mgood_bind; [apply good_emit_member_added; [done|by apply (gr_heap _ _ G2)]|]. intros ? w3 Hi3 G3 Htold.
  assert (Hp3 : is_Some (w_lobbies w3 !! p)) by by apply (gr_heap _ _ G3), (gr_heap _ _ G2).
  destruct Hp3 as [l3 Hl3]. eapply good_get_lobby_bind; [done|].
  eapply mgood_bind; [eapply good_emit_updated; [done|by exists l3]|]. intros ? w4 Hi4 G4 Hd.
  eapply mgood_mono; [apply good_queue_plain; [done..| |]|].
  - intros _. split; [by apply Hd|]. by apply (told_grows w3).
  - intros q [= <-]. apply (gr_heap _ _ G4). by exists l3.
  - intros _ w' _ _ [_ ->]. apply elem_of_app. right. by left.
Qed.

(** ** Polls *)

Lemma set_order_spec X : NoDup (set_order X) ∧ ∀ x, x ∈ set_order X ↔ x ∈ X.
Proof.
  unfold set_order. pose proof (hash_order_perm _ (gset_to_gmap () X)) as Hp.
  split; [rewrite Hp; apply NoDup_fst_map_to_list|]. intros x. rewrite Hp, list_elem_of_fmap. split.
  - intros ([y []] & -> & Hy). apply elem_of_map_to_list, lookup_gset_to_gmap_Some in Hy. apply Hy.
  - intros Hx. exists (x, ()). split; [done|]. by apply elem_of_map_to_list, lookup_gset_to_gmap_Some.
Qed.

Lemma apply_refresh_books l resp l' departed gone delta :
  apply_refresh l resp = (l', (departed, gone, delta)) →
  same_books l l' ∧ NoDup departed ∧ ∀ e, e ∈ departed → e ∈ l_announced l.
Proof.
  assert (Hnil : NoDup (@nil string) ∧ ∀ e, e ∈ [] → e ∈ l_announced l).
  { split; [constructor|]. by intros e ?%elem_of_nil. }
  unfold apply_refresh. destruct resp as [[status text]|]; [|intros [= <- <- <- <-]; done].
  destruct (negb _); [intros [= <- <- <- <-]; done|].
  destruct (lobby_from_json text) as [fresh|]; [|intros [= <- <- <- <-]; done].
  intros [= <- <- <- <-].
  assert (Hb : same_books l (refreshed l fresh)) by (unfold refreshed; by destruct (_ && _)).
  split; [done|]. destruct (_ || _); [|done]. destruct Hb as [Ha _]. rewrite Ha.
  destruct (set_order_spec (l_announced l)) as [Hnd Hel]. split; [by apply NoDup_filter|].
  intros e [_ ?]%list_elem_of_filter. by apply Hel.
Qed.

Lemma good_remove_member D L p l eid w :
  Inv D (Some L) w → w_lobbies w !! p = Some l → eid ∈ l_announced l →
  good D (Some L) (remove_member p eid)
    (λ _ w', w_lobbies w' !! p = Some (set_announced (l_announced l ∖ {[eid]}) l)) w.
Proof.
  intros Hi Hl He. unfold remove_member. pose proof (inv_lobby_fine _ _ _ _ _ Hi Hl) as Hf.
  destruct (lb_added _ _ _ Hf eid He) as (k & Hk & Hid).
  eapply mgood_mono; [apply good_books_queue; [done..| | |]|].
  - exists eid. split; [done|]. split; [by exists k|]. intros Hc. by rewrite <- (lb_roster _ _ _ Hf Hc).
  - exact Hl.
  - split; simpl; [intros id [? _]%elem_of_difference; by left| |by left]. intros Hc%clean_log_app.
    rewrite decide_True by done. assert (ident (player_key eid) = eid) as -> by by rewrite <- Hid; eapply Hc.
    done.
  - intros _ w' _ _ [Hw _]. by rewrite Hw, lookup_insert_eq.
Qed.

Lemma good_remove_members D L p departed l w :
  Inv D (Some L) w → w_lobbies w !! p = Some l → NoDup departed →
  (∀ e, e ∈ departed → e ∈ l_announced l) →
  good D (Some L) (for_each departed (remove_member p)) (λ _ _, True) w.
Proof.
  intros Hi Hl Hnd. revert l w Hi Hl. induction Hnd as [|e departed He Hnd IH]; intros l w Hi Hl Hin.
  { by apply mgood_ret. }
  cbn [for_each]. eapply mgood_bind; [apply good_remove_member; [done..|]; apply Hin; left|].
  intros ? w1 Hi1 G1 Hl1. apply (IH _ _ Hi1 Hl1). intros y Hy. simpl.
  apply elem_of_difference. split; [apply Hin; by right|]. intros ->%elem_of_singleton. done.
Qed.

Lemma good_mod_mp D L f w :
  Inv D (Some L) w → (∀ m, m_joins (f m) = m_joins m) →
  (∀ m, w_mp w = Some m → mp_fine (w_log w) m → mp_fine (w_log w) (f m)) →
  (∀ m p, w_mp w = Some m → p ∈ m_lobbies (f m) → is_Some (w_lobbies w !! p)) →
  (∀ m, w_mp w = Some m → m_outstanding m = true → same_batch m (f m)) →
  good D (Some L) (mod_mp f) (λ _ w', w_lobbies w' = w_lobbies w) w.
Proof.
  intros Hi Hj Hf Hp Hb. destruct (live_mp _ _ _ Hi) as (m & Hm & HL).
  eapply good_get_mp_bind; [done|]. split; [|split; [eapply grows_set_mp; [done|by apply Hb]|done]].
  destruct (iv_mp _ _ _ Hi m Hm) as [Hm' _]. destruct Hi. split; simpl; auto; [by rewrite Hj, HL|].
  intros ? [= <-]. split; [by apply Hf|]. intros p. by apply Hp.
Qed.

Lemma good_untrack D L p w : Inv D (Some L) w → good D (Some L) (untrack p) (λ _ _, True) w.
Proof.
  intros Hi. eapply mgood_weaken, good_mod_mp; [done..| | |].
  - intros m _ []. by split.
  - intros m q Hm. simpl. intros [_ Hq]%list_elem_of_filter. by apply (iv_mp _ _ _ Hi m Hm).
  - by split.
Qed.

Lemma good_poll_lobby D L p resp w :
  Inv D (Some L) w → is_Some (w_lobbies w !! p) → good D (Some L) (poll_lobby p resp) (λ _ _, True) w.
Proof.
  intros Hi [l Hl]. unfold poll_lobby. eapply good_get_lobby_bind; [done|].
  destruct (apply_refresh l resp) as [l' [[departed gone] delta]] eqn:Hr.
  apply apply_refresh_books in Hr as (Hb & Hnd & Hin).
  eapply mgood_bind; [by eapply good_put|]. intros ? w1 Hi1 G1 [Hl1 _].
  eapply mgood_seq; [apply (good_remove_members D L p departed l'); [done..|]|].
  { intros e He. destruct Hb as [-> _]. by apply Hin. }
  intros _ w2 Hi2 G2. assert (Hp2 : is_Some (w_lobbies w2 !! p)) by (apply G2; by exists l').
  destruct gone.
  - destruct Hp2 as [l2 Hl2].
    eapply mgood_seq; [eapply good_mod_lobby; [done..|]; done|]. intros _ w3 Hi3 G3.
    eapply (mgood_seq D (Some L)); [apply good_queue_plain; [done..|]|].
    { intros q [= <-]. apply G3. by exists l2. }
    intros _ w4 Hi4 G4. by apply good_untrack.
  - destruct (live_mp _ _ _ Hi2) as (m & Hm & _). eapply good_get_mp_bind; [done|].
    destruct (existsb _ _); [by apply mgood_ret|].
    eapply mgood_seq; [by apply good_announce|]. intros _ w3 Hi3 G3.
    eapply mgood_weaken, good_emit_updated; [done|]. by apply G3.
Qed.

(** ** Parked joins *)

Lemma parked_valid D L w pj : Inv D (Some L) w → pj ∈ L → is_Some (w_lobbies w !! pd_lobby pj).
Proof. intros Hi Hpj. by apply (iv_parked _ _ _ Hi). Qed.

(** The indices the search finds. *)
Fixpoint indices (rdy : PendingJoin → bool) (i : nat) (L : list PendingJoin) : list nat :=
  match L with
  | [] => []
  | pj :: L => if rdy pj then i :: indices rdy (S i) L else indices rdy (S i) L
  end.
Definition join_ready (w : MpWorld) (pj : PendingJoin) : bool :=
  match w_lobbies w !! pd_lobby pj with Some l => lobby_ready_for_guest l | None => false end.

Lemma indices_snoc rdy i L pj :
  indices rdy i (L ++ [pj]) = indices rdy i L ++ (if rdy pj then [(i + length L)%nat] else []).
Proof.
  revert i. induction L as [|x L IH]; intros i; simpl; [by rewrite Nat.add_0_r; destruct (rdy pj)|].
  rewrite !IH, <- Nat.add_succ_comm. by destruct (rdy x).
Qed.

Lemma ready_joins_indices L i w :
  (∀ pj, pj ∈ L → pd_emitted pj = false ∧ is_Some (w_lobbies w !! pd_lobby pj)) →
  ready_joins i L w = Some (indices (join_ready w) i L, w).
Proof.
  revert i. induction L as [|pj L IH]; intros i Hv; [done|]. cbn [ready_joins indices].
  destruct (Hv pj) as [He [l Hl]]; [by left|].
  assert (join_ready w pj = lobby_ready_for_guest l) as -> by (unfold join_ready; by rewrite Hl).
  unfold mbind, get_lobby, mret. rewrite He, Hl. simpl. rewrite IH by (intros; apply Hv; by right).
  by destruct (lobby_ready_for_guest l).
Qed.

Lemma good_complete_join D L i pj w :
  Inv D (Some L) w → L !! i = Some pj →
  good D (Some (take i L ++ drop (S i) L)) (complete_join i)
    (λ _ w', JoinCompleted 0 (ek_id (pd_joiner pj)) (pd_lobby pj) ∈ w_log w') w.
Proof.
  intros Hi Hpj. destruct (live_mp _ _ _ Hi) as (m & Hm & HL). unfold complete_join.
  eapply good_get_mp_bind; [done|]. rewrite HL, Hpj.
  assert (Hin : pj ∈ L) by by apply list_elem_of_lookup_2 in Hpj.
  set (L' := take i L ++ drop (S i) L).
  assert (HP : L ≡ₚ pj :: L').
  { rewrite <- (take_drop_middle L i pj Hpj) at 1. symmetry. apply Permutation_middle. }
  apply (mgood_seq (pd_lobby pj :: D) (Some L') _ _ _ _ (λ _ _, True));
    [|intros _ w1 Hi1 _; exact (good_emit_join_completed D L' _ _ w1 Hi1)].
  unfold mod_mp. eapply good_get_mp_bind; [done|].
  destruct Hi. split; [|split; [by eapply grows_set_mp|done]]. split; simpl; auto.
  - by rewrite HL.
  - intros ? [= <-]. destruct (iv_mp m Hm) as [[] ?]. by split; [split|].
  - intros x Hx. apply iv_parked. simpl. rewrite HP. by right.
  - intros p [->|Hp]%elem_of_cons; [by apply iv_parked|by apply iv_debt].
  - revert iv_tokens. unfold join_tokens. simpl. rewrite HP at 1. simpl. intros Ht.
    by rewrite <- Permutation_middle, <- Permutation_middle in Ht.
Qed.

(** Completed from the last one down, the ready joins are gone and the others keep their order. *)
Lemma good_complete_joins D rdy L : ∀ T w,
  Inv D (Some (L ++ T)) w →
  good D (Some (filter (λ pj, rdy pj = false) L ++ T)) (for_each (rev (indices rdy 0 L)) complete_join)
    (λ _ w', ∀ pj, pj ∈ L → rdy pj = true →
       JoinCompleted 0 (ek_id (pd_joiner pj)) (pd_lobby pj) ∈ w_log w') w.
Proof.
  induction L as [|x L IH] using rev_ind; intros T w Hi.
  { apply mgood_ret; [done|]. by intros pj ?%elem_of_nil. }
  rewrite indices_snoc, filter_app, <- app_assoc in *. destruct (rdy x) eqn:Hx.
  - rewrite rev_app_distr. cbn [rev app for_each]. rewrite filter_cons_False by congruence.
    rewrite filter_nil, app_nil_l.
    eapply mgood_bind.
    { apply (good_complete_join D (L ++ [x] ++ T) (0 + length L) x); [done|]. simpl. by rewrite list_lookup_middle. }
    intros ? w1 Hi1 G1 Hc. rewrite take_app_length' in Hi1 by done.
    rewrite (app_assoc L [x] T), drop_app_length' in Hi1 by (rewrite length_app; simpl; lia).
    eapply mgood_mono; [by apply IH|]. intros ? w2 _ G2 HL pj [Hin|Hin]%elem_of_app Hr; [by apply HL|].
    apply list_elem_of_singleton in Hin as ->. eapply elem_of_prefix; [exact Hc|]. apply (gr_log _ _ G2).
  - rewrite app_nil_r, filter_cons_True by done. eapply mgood_mono; [by apply (IH (x :: T))|].
    intros ? w2 _ G2 HL pj [Hin|Hin]%elem_of_app Hr; [by apply HL|].
    apply list_elem_of_singleton in Hin as ->. congruence.
Qed.

Lemma good_service_pending_joins D L w :
  Inv D (Some L) w →
  good D (Some (filter (λ pj, join_ready w pj = false) L)) service_pending_joins
    (λ _ w', ∀ pj, pj ∈ L → join_ready w pj = true →
       JoinCompleted 0 (ek_id (pd_joiner pj)) (pd_lobby pj) ∈ w_log w') w.
Proof.
  intros Hi. unfold service_pending_joins. destruct (live_mp _ _ _ Hi) as (m & Hm & HL).
  eapply good_get_mp_bind; [done|]. rewrite HL. unfold keeps, wp, mbind.
  rewrite ready_joins_indices by (intros pj Hpj; by apply (iv_parked _ _ _ Hi)).
  pose proof (good_complete_joins D (join_ready w) L [] w) as Hg. rewrite !app_nil_r in Hg. by apply Hg.
Qed.

(** The same with whatever joins are parked by the end. *)
Definition InvW (D : list Z) (w : MpWorld) : Prop := Inv D (m_joins <$> w_mp w) w.
Lemma InvW_of D J w : Inv D J w → InvW D w.
Proof. intros Hi. unfold InvW. by rewrite (iv_joins _ _ _ Hi). Qed.

Definition ok (D : list Z) {A} (m : MC A) (w : MpWorld) : Prop := keeps grows (InvW D) m (λ _ _, True) w.
Lemma ok_of D J {A} (m : MC A) Q w : good D J m Q w → ok D m w.
Proof. intros H. eapply keeps_mono; [exact H|]. intros. split; [by eapply InvW_of|done]. Qed.

Lemma ok_ret D J {A} (x : A) w : Inv D J w → ok D (mret x) w.
Proof. intros Hi. split; [by eapply InvW_of|]. by split. Qed.
Lemma ok_bind D J D' {A B} (m : MC A) (f : A → MC B) P w :
  good D J m P w → (∀ x w1, Inv D J w1 → w ⊑w w1 → P x w1 → ok D' (f x) w1) → ok D' (mbind m f) w.
Proof. intros Hm Hf. by eapply (keeps_bind grows). Qed.

(** ** Requests *)

(** A computation that only asks: the requests made and the reads so far are all it changes. *)
Definition asks {A} (m : MC A) (Q : A → Prop) : Prop :=
  ∀ w, wp m (λ x w', Q x ∧ ∃ k h, w' = w_set_http h (w_set_reads k w)) w.

Lemma asks_ret {A} (x : A) (Q : A → Prop) : Q x → asks (mret x) Q.
Proof. intros HQ w. split; [done|]. exists (w_reads w), (w_http w). by destruct w. Qed.

Lemma asks_bind {A B} (m : MC A) (f : A → MC B) P Q :
  asks m P → (∀ x, P x → asks (f x) Q) → asks (mbind m f) Q.
Proof.
  intros Hm Hf w. rewrite wp_bind. eapply wp_mono; [apply Hm|]. intros x w1 [Hx (k & h & ->)].
  eapply wp_mono; [by apply Hf|]. intros y w2 [Hy (k' & h' & ->)]. split; [done|]. by exists k', h'.
Qed.

Lemma asks_if {A} (b : bool) (m n : MC A) Q : asks m Q → asks n Q → asks (if b then m else n) Q.
Proof. by destruct b. Qed.

Lemma asks_http method path body : asks (http_json_status method path body) (λ _, True).
Proof.
  intros w. split; [done|]. eexists (S (w_reads w)), _. unfold w_set_http, w_set_reads. simpl. reflexivity.
Qed.

Lemma asks_good D J {A} (m : MC A) Q w :
  asks m Q → Inv D J w →
  good D J m (λ x w', Q x ∧ w_lobbies w' = w_lobbies w ∧ w_mp w' = w_mp w ∧ w_queue w' = w_queue w) w.
Proof.
  intros Hm Hi. eapply wp_mono; [apply Hm|]. intros x w' [HQ (k & h & ->)].
  split; [by destruct Hi; split|]. split; [by apply grows_same|]. by repeat split.
Qed.

Lemma asks_post path body : asks (post path body) (λ _, True).
Proof. eapply asks_bind; [apply asks_http|]. intros. by apply asks_ret. Qed.

Lemma asks_party_has_entity nid eid : asks (party_has_entity nid eid) (λ _, True).
Proof.
  unfold party_has_entity. apply asks_if; [by apply asks_ret|].
  eapply asks_bind; [apply asks_http|]. intros. by apply asks_ret.
Qed.

Lemma asks_find_row_live row : asks (find_row_live row) (λ _, True).
Proof.
  unfold find_row_live. apply asks_if; [by apply asks_ret|].
  eapply asks_bind; [apply asks_http|]. intros [[status got]|] _; [|by apply asks_ret].
  apply asks_if; [by apply asks_ret|]. destruct (lan1_network_id _); [|by apply asks_ret].
  eapply asks_bind; [apply asks_party_has_entity|]. intros. by apply asks_ret.
Qed.

Lemma asks_live_rows rows : asks (live_rows rows) (λ _, True).
Proof.
  induction rows as [|row rows IH]; cbn [live_rows]; [by apply asks_ret|].
  eapply asks_bind; [apply asks_find_row_live|]. intros live _.
  eapply asks_bind; [exact IH|]. intros. by apply asks_ret.
Qed.

Lemma broker_error_code_nonzero status body : broker_error_code status body ≠ 0.
Proof. unfold broker_error_code. repeat destruct (_ : bool); done. Qed.

(** A join that failed has an error to report. *)
Definition outcome_fine (o : Outcome) : Prop :=
  match o with OJoinFailed _ code => code ≠ 0 | _ => True end.

(** The outcome is owed what the job is. *)
Lemma asks_run_requests job :
  asks (run_requests job)
    (λ o, outcome_fine o ∧ outcome_token o = job_token job ∧ outcome_refs o = job_refs job).
Proof.
  destruct job; cbn [run_requests]; (eapply asks_bind; [apply asks_post|intros r _]);
    try by apply asks_ret.
  - assert (Hf : ∀ code, code ≠ 0 → asks (mret (OJoinFailed j code))
      (λ o, outcome_fine o ∧ outcome_token o = [jj_lobby j] ∧ outcome_refs o = [jj_lobby j])).
    { intros. by apply asks_ret. }
    apply asks_if; [apply Hf, broker_error_code_nonzero|]. destruct (json_str _ _); [|by apply Hf].
    eapply asks_bind; [apply asks_post|]. intros g _.
    destruct (g.1 =? 200); [by apply asks_ret|apply Hf, broker_error_code_nonzero].
  - apply (asks_bind _ _ (λ _, True)); [by apply asks_if; [apply asks_live_rows|apply asks_ret]|].
    intros. by apply asks_ret.
Qed.

(** ** Applying an answer *)

Lemma Inv_drop D D' J w : Inv (D ++ D') J w → Inv D' J w.
Proof.
  intros []. split; auto.
  - intros p Hp. apply iv_debt, elem_of_app. by right.
  - rewrite <- app_assoc in iv_tokens. by apply NoDup_app in iv_tokens as (_ & _ & ?).
Qed.

Lemma ok_complete D L c w :
  Inv (option_list (completes c) ++ D) (Some L) w → plain c = true → change_ok (w_log w) c →
  (∀ p, change_lobby c = Some p → is_Some (w_lobbies w !! p)) → ok D (queue c) w.
Proof. intros. by eapply ok_of, good_queue_plain. Qed.

Lemma ok_fail D L c p w :
  Inv (p :: D) (Some L) w → completes c = Some p → change_lobby c = Some p → plain c = true →
  (∀ past, change_ok past c) →
  ok D (mod_lobby p (set_flags false true);; untrack p;; queue c) w.
Proof.
  intros Hi Hc Hp Hpl Hok. destruct (iv_debt _ _ _ Hi p) as [l Hl]; [by left|].
  eapply ok_bind; [by eapply good_mod_lobby|]. intros _ w1 Hi1 G1 _.
  eapply ok_bind; [by apply good_untrack|]. intros _ w2 Hi2 G2 _.
  eapply ok_complete; [by rewrite Hc|done|done|].
  intros q [= <-]%(transitivity (eq_sym Hp)). apply G2, G1. by exists l.
Qed.

Lemma ok_apply_create L j status text w :
  Inv [cj_lobby j] (Some L) w → ok [] (apply_create j status text) w.
Proof.
  intros Hi. unfold apply_create. destruct (iv_debt _ _ _ Hi (cj_lobby j)) as [l Hl]; [by left|].
  eapply (ok_bind [cj_lobby j] (Some L) _ _ _ (λ x w', x = l ∧ w' = w)).
  { unfold keeps, wp, get_lobby. by rewrite Hl. }
  intros ? ? _ _ [-> ->]. destruct (l_left l); [eapply ok_ret, (Inv_drop [cj_lobby j]); done|].
  destruct (_ || _); [by eapply ok_fail|].
  eapply ok_bind; [eapply good_mod_lobby; [done..|]|].
  { done. }
  intros _ w1 Hi1 G1 _. assert (Hp1 : is_Some (w_lobbies w1 !! cj_lobby j)) by (apply G1; by exists l).
  eapply ok_bind; [by apply good_emit_member_added|]. intros _ w2 Hi2 G2 _.
  eapply ok_complete; [done..|]. intros q [= <-]. by apply G2.
Qed.

Lemma apply_join_books l text joiner kv : same_books l (apply_join_response l text joiner kv).
Proof. unfold apply_join_response. by destruct (lobby_from_json text). Qed.

Lemma good_park L p joiner ctx w :
  Inv [p] (Some L) w →
  good [] (Some (L ++ [mkPendingJoin p joiner ctx false]))
    (mod_mp (λ m, set_joins (m_joins m ++ [mkPendingJoin p joiner ctx false]) m)) (λ _ _, True) w.
Proof.
  intros Hi. destruct (live_mp _ _ _ Hi) as (m & Hm & HL). eapply good_get_mp_bind; [done|].
  destruct Hi. split; [|split; [by eapply grows_set_mp|done]]. split; simpl; auto.
  - by rewrite HL.
  - intros ? [= <-]. destruct (iv_mp m Hm) as [[] ?]. by split; [split|].
  - intros x [Hx|Hx]%elem_of_app; [by apply iv_parked|].
    apply list_elem_of_singleton in Hx as ->. split; [done|]. apply iv_debt. by left.
  - by intros q ?%elem_of_nil.
  - revert iv_tokens. unfold join_tokens. simpl. rewrite map_app. simpl. intros Ht.
    rewrite <- (app_assoc (map _ _)). simpl. by rewrite <- !Permutation_middle.
Qed.

Lemma ok_apply_join L j got w : Inv [jj_lobby j] (Some L) w → ok [] (apply_join j got) w.
Proof.
  intros Hi. unfold apply_join. destruct (iv_debt _ _ _ Hi (jj_lobby j)) as [l Hl]; [by left|].
  eapply (ok_bind [jj_lobby j] (Some L) _ _ _ (λ x w', x = l ∧ w' = w)).
  { unfold keeps, wp, get_lobby. by rewrite Hl. }
  intros ? ? _ _ [-> ->]. destruct (l_left l); [eapply ok_ret, (Inv_drop [jj_lobby j]); done|].
  eapply ok_bind; [eapply good_mod_lobby; [done..|apply apply_join_books]|].
  intros ? w1 Hi1 G1 [Hl1 _]. unfold ok, keeps, wp, mbind at 1, get_lobby at 1. rewrite Hl1. simpl.
  destruct (lobby_ready_for_guest _).
  - by eapply ok_of, good_emit_join_completed.
  - by eapply ok_of, good_park.
Qed.

Lemma ok_apply_post L j code w :
  Inv [] (Some L) w → is_Some (w_lobbies w !! pj_lobby j) → ok [] (apply_post j code) w.
Proof.
  intros Hi Hp. eapply ok_bind; [by apply (good_queue_plain [] L)|]. intros _ w1 Hi1 G1 _.
  destruct (_ && _); [|by eapply ok_ret]. eapply ok_of, good_emit_updated; [done|]. by apply G1.
Qed.

Lemma ok_of_generation D J g f w :
  Inv D J w → (∀ L, J = Some L → ok [] f w) → ok [] (of_generation g f) w.
Proof.
  intros Hi Hf. rewrite <- (app_nil_r D) in Hi. unfold of_generation, with_mp, ok, keeps, wp, mbind, gets.
  destruct (w_mp w) as [m|] eqn:Hm; [|by eapply (ok_ret [] J tt), (Inv_drop D)].
  unfold get_mp. rewrite Hm. simpl. destruct (_ =? _); [|by eapply (ok_ret [] J tt), (Inv_drop D)].
  apply (Hf (m_joins m)). by rewrite <- (iv_joins _ _ _ Hi), Hm.
Qed.

Lemma ok_apply_outcome J o w :
  Inv (outcome_token o) J w → outcome_fine o → (∀ p, p ∈ outcome_refs o → is_Some (w_lobbies w !! p)) →
  ok [] (apply_outcome o) w.
Proof.
  intros Hi Ho Hr. destruct o; cbn [apply_outcome]; (eapply ok_of_generation; [exact Hi|]); intros L ->.
  - by eapply ok_apply_create.
  - by eapply ok_fail; [..|intros past ?].
  - by eapply ok_apply_join.
  - by eapply ok_complete.
  - by eapply ok_complete.
  - eapply ok_apply_post; [done|]. apply Hr. by left.
Qed.

(** ** The worker *)

Record MpOk (w : MpWorld) : Prop := {
  ok_inv : InvW (worker_token (w_worker w)) w;
  ok_refs : ∀ p, p ∈ worker_refs (w_worker w) → is_Some (w_lobbies w !! p);
  ok_outcome : match w_worker w with WApply o => outcome_fine o | _ => True end;
}.

(** A computation from [w] that returns, keeps the invariant and takes nothing away. *)
Definition safe {A} (m : MC A) (w : MpWorld) : Prop := wp m (λ _ w', MpOk w' ∧ evolves w w') w.

(** A step of the worker moves on at its end, with what the last computation found. *)
Lemma wp_go {A} (m : MC A) (k : A → Worker) D Q w :
  keeps grows (InvW D) m Q w →
  (∀ x w', w ⊑w w' → Q x w' → worker_token (k x) = D ∧
     (∀ p, p ∈ worker_refs (k x) → is_Some (w_lobbies w' !! p)) ∧
     match k x with WApply o => outcome_fine o | _ => True end) →
  safe (mbind m (λ x, go (k x))) w.
Proof.
  intros Hm Hk. unfold safe. rewrite wp_bind. eapply wp_mono; [exact Hm|]. intros x w1 (Hi & G & HQ).
  destruct (Hk x w1 G HQ) as (Ht & Hr & Ho). split; [split; simpl; [|by apply Hr|done]|].
  - rewrite Ht. by destruct Hi; split.
  - etrans; [apply G|]. by apply evolves_same.
Qed.

(** It ends between jobs or in a poll round, where nothing is owed. *)
Definition carefree (k : Worker) : Prop := match k with WApply _ => False | _ => True end.
Lemma wp_go_carefree {A} (m : MC A) (k : A → Worker) w :
  ok [] m w → (∀ x, carefree (k x)) → safe (mbind m (λ x, go (k x))) w.
Proof.
  intros Hm Hk. eapply wp_go; [exact Hm|]. intros x w' _ _. specialize (Hk x).
  destruct (k x); try done; (split; [done|]; split; [by intros p ?%elem_of_nil|done]).
Qed.

Lemma InvW_same D w w' :
  InvW D w → w_mp w' = w_mp w → w_lobbies w' = w_lobbies w → w_next w' = w_next w →
  w_queue w' = w_queue w → w_log w' = w_log w → InvW D w'.
Proof. intros [] E1 E2 E3 E4 E5. split; rewrite ?E1, ?E2, ?E3, ?E4, ?E5; auto. Qed.

Lemma Inv_dequeue J job rest st w :
  Inv [] J w → w_queue w = job :: rest → Inv (job_token job) J (w_set_queue rest st w).
Proof.
  intros [] Hq. rewrite Hq in *. split; simpl; auto.
  - intros j p Hj. apply iv_jobs. by right.
  - intros p Hp. apply (iv_jobs job); [by left|]. destruct job; try done. by apply elem_of_nil in Hp.
  - rewrite fmap_cons in iv_tokens. simpl in iv_tokens. by rewrite <- app_assoc in iv_tokens.
Qed.

Lemma good_poll_targets D J ps w :
  Inv D J w → (∀ p, p ∈ ps → is_Some (w_lobbies w !! p)) →
  good D J (poll_targets ps) (λ _ _, True) w.
Proof.
  intros Hi Hp. induction ps as [|p ps IH]; cbn [poll_targets]; [by apply mgood_ret|].
  destruct (Hp p) as [l Hl]; [by left|]. eapply good_get_lobby_bind; [done|].
  eapply mgood_seq; [apply IH; intros; apply Hp; by right|]. intros ts w1 Hi1 _. by apply mgood_ret.
Qed.

Lemma good_apply_poll D J p resp w : Inv D J w → good D J (apply_poll p resp) (λ _ _, True) w.
Proof.
  intros Hi. apply good_with_mp; intros; [by apply mgood_ret|]. eapply good_get_mp_bind; [done|].
  case_bool_decide as Hp; [|by apply mgood_ret]. pose proof (iv_joins _ _ _ Hi) as HJ. rewrite H in HJ.
  destruct (iv_mp _ _ _ Hi m H) as [_ Hv]. destruct (Hv p Hp) as [l Hl].
  eapply good_get_lobby_bind; [done|]. destruct (unpolled l); [by apply mgood_ret|].
  simpl in HJ. subst J. apply good_poll_lobby; [done|by exists l].
Qed.

Lemma ok_start_poll w :
  InvW [] w →
  ok [] (with_mp (let* m := get_mp in poll_targets (m_lobbies m)) []) w.
Proof.
  intros Hi. apply (ok_of [] (m_joins <$> w_mp w) _ (λ _ _, True)), good_with_mp.
  { intros _. by apply mgood_ret. }
  intros m Hm. eapply good_get_mp_bind; [done|]. apply good_poll_targets; [exact Hi|].
  intros p. by apply (iv_mp _ _ _ Hi m Hm).
Qed.

Lemma ok_end_poll w : InvW [] w → ok [] (with_mp service_pending_joins tt) w.
Proof.
  intros Hi. destruct (w_mp w) as [m|] eqn:Hm.
  - unfold with_mp, ok, keeps, wp, mbind at 1, gets. rewrite Hm.
    eapply ok_of, (good_service_pending_joins [] (m_joins m)). unfold InvW in Hi. by rewrite Hm in Hi.
  - unfold with_mp, ok, keeps, wp, mbind, gets. rewrite Hm. by split.
Qed.

Lemma wp_observe_bind {A B} (f : nat → A) (k : A → MC B) Q w :
  wp (mbind (observe f) k) Q w = wp (k (f (w_reads w))) Q (w_set_reads (S (w_reads w)) w).
Proof. done. Qed.
Lemma wp_modify_bind {B} f (k : unit → MC B) Q w : wp (mbind (modify f) k) Q w = wp (k tt) Q (f w).
Proof. done. Qed.

Lemma safe_after {A} (m : MC A) w w1 :
  w_lobbies w1 = w_lobbies w → w_log w1 = w_log w → w_mp w1 = w_mp w →
  safe m w1 → wp m (λ _ w', MpOk w' ∧ evolves w w') w1.
Proof.
  intros H1 H2 H3 Hm. eapply wp_mono; [exact Hm|]. intros x w' [Hok Hev]. split; [done|].
  etrans; [by apply evolves_same|done].
Qed.

(** The worker never follows a bad pointer or an index out of range. *)
Lemma worker_turn_ok w : MpOk w → safe worker_turn w.
Proof.
  intros [Hi Hr Ho]. unfold safe, worker_turn. rewrite wp_bind, wp_gets.
  destruct (w_worker w) as [|o|ts|p resp ts] eqn:Hk; simpl in Hi.
  - rewrite wp_bind, wp_gets. destruct (w_queue w) as [|job rest] eqn:Hq.
    + rewrite wp_observe_bind, wp_bind, wp_gets. destruct (_ <? _) eqn:Hdue.
      * split; [|by apply evolves_same]. split; simpl; rewrite Hk; [by eapply InvW_same|by intros ? ?%elem_of_nil|done].
      * rewrite wp_observe_bind, wp_modify_bind. apply safe_after; [done..|].
        apply wp_go_carefree; [|done]. apply ok_start_poll. by eapply InvW_same.
    + assert (Hj : ∀ p, p ∈ job_refs job → is_Some (w_lobbies w !! p)).
      { intros p. apply (iv_jobs _ _ _ Hi). rewrite Hq. by left. }
      rewrite wp_modify_bind. apply safe_after; [done..|].
      apply (Inv_dequeue _ job rest (w_started w)) in Hi; [|done].
      eapply wp_go; [eapply keeps_mono; [apply asks_good; [apply asks_run_requests|exact Hi]|]|].
      * intros o w1 Hi1 _ HQ. split; [by eapply InvW_of|exact HQ].
      * intros o w1 G [(Hf & Ht & Href) _]. split; [done|]. split; [|done]. simpl. rewrite Href.
        intros p Hp. by apply (gr_heap _ _ G), Hj.
  - apply wp_go_carefree; [|done]. by eapply ok_apply_outcome.
  - destruct ts as [|[p id] ts]; apply wp_go_carefree; try done; [by apply ok_end_poll|].
    eapply ok_of, asks_good; [apply asks_http|exact Hi].
  - apply wp_go_carefree; [|done]. by eapply ok_of, good_apply_poll.
Qed.
End env.
