(* ===== verification/MpRun.v ===== *)
(** * Runs of the lobby shim

    The exports keep the invariant, so every run of calls and worker turns
    does: the calls the title may make, the step relation and its reachable
    worlds. *)

From S2P Require Import Prelude RustStr Http LanCfg Descriptor Json Value Comp.
From S2P Require Import MpState MpJson MpWorker MpApi MpInv MpKeeps.
#[local] Open Scope string_scope.
#[local] Open Scope list_scope.
#[local] Open Scope Z_scope.
#[local] Open Scope comp_scope.

(** ** What a caller owes *)

(** The arrays are as long as the count says, where they are read. *)
Definition kv_ok (a : KvArgs) : bool :=
  match kv_keys a, kv_vals a with
  | Some keys, Some vals =>
      (kv_count a =? 0) || (32 <? kv_count a) ||
      ((Z.to_nat (kv_count a) <=? length keys) && (Z.to_nat (kv_count a) <=? length vals))%nat
  | _, _ => true
  end.
Definition opt_ok {A} (f : A → bool) (x : option A) : bool := match x with Some x => f x | None => true end.
Definition create_cfg_ok (c : CreateConfig) : bool := kv_ok (cc_search c) && kv_ok (cc_lobby c).
(** A post reads up to 16 keys for its log even where the list itself is not read. *)
Definition logged_ok (a : KvArgs) : bool :=
  match kv_keys a with
  | Some keys => (Z.to_nat (Z.min (kv_count a) 16) <=? length keys)%nat
  | None => true
  end.
Definition lobby_update_ok (u : LobbyUpdate) : bool :=
  kv_ok (lu_search u) && kv_ok (lu_lobby u) && (logged_ok (lu_search u) && logged_ok (lu_lobby u)).

Definition lobby_ptr (w : MpWorld) (p : Z) : Prop := p = 0 ∨ is_Some (w_lobbies w !! p).

(** The log line of a property is cut at byte 96, which must not be inside a character. *)
Definition property_cut (w : MpWorld) (p : Z) (key : CPtr) : Prop :=
  ∀ l v c, w_lobbies w !! p = Some l → l_props l !! read_cstr key = Some v →
    logged_property (read_cstr key) = true →
    sbytes (read_cstr (Some (sbytes v))) !! 96%nat = Some c → is_cont c = false.

Section env.
Context `{HO : HashOrder} `{E : MpEnv}.

(** ** Small exports *)

Lemma mpok_keeps {A} (m : MC A) w :
  MpOk w → ok (worker_token (w_worker w)) m w → safe m w.
Proof.
  intros [Hi Hr Ho] Hm. eapply wp_mono; [exact Hm|]. intros x w' (Hi' & G & _). split; [|apply G].
  split; rewrite (gr_worker _ _ G); [done| |done]. intros p Hp. by apply (gr_heap _ _ G), Hr.
Qed.

Lemma okw_ret D {A} (x : A) w : InvW D w → ok D (mret x) w.
Proof. intros Hi. by eapply ok_ret. Qed.

Lemma okw_seq D D' {A B} (m : MC A) (f : A → MC B) w :
  ok D m w → (∀ x w1, InvW D w1 → w ⊑w w1 → ok D' (f x) w1) → ok D' (mbind m f) w.
Proof. intros Hm Hf. eapply (keeps_bind grows); [exact Hm|]. intros. by apply Hf. Qed.

Lemma okw_gets D {A B} (f : MpWorld → A) (k : A → MC B) w : ok D (k (f w)) w → ok D (mbind (gets f) k) w.
Proof. done. Qed.

Lemma okw_guarded D {A} h (d : A) f w :
  InvW D w → (is_Some (w_mp w) → ok D f w) → ok D (guarded h d f) w.
Proof.
  intros Hi Hf. unfold guarded, mp_ready. apply okw_gets. cbn -[ok].
  unfold ok, keeps, wp, mbind, mret, gets. destruct (negb (h =? 0)); simpl; [|by split].
  case_bool_decide as Hm; [by apply Hf|by split].
Qed.

Lemma okw_result D {A} (m : MC (Z * A)) w : ok D m w → ok D (let* r := m in mret r.1) w.
Proof. intros Hm. eapply okw_seq; [done|]. intros. by apply okw_ret. Qed.

Lemma okw_with_mp D {A} (f : MC A) d w :
  InvW D w → (∀ m, w_mp w = Some m → Inv D (Some (m_joins m)) w → ok D f w) → ok D (with_mp f d) w.
Proof.
  intros Hi Hf. unfold with_mp, ok, keeps, wp, mbind, gets. destruct (w_mp w) as [m|] eqn:Hm.
  - apply (Hf m eq_refl). unfold InvW in Hi. by rewrite Hm in Hi.
  - by split.
Qed.

Lemma InvW_parts D w w' :
  InvW D w → w_lobbies w' = w_lobbies w → w_next w' = w_next w → w_queue w' = w_queue w →
  w_log w' = w_log w →
  (∀ m, w_mp w' = Some m →
     mp_fine (w_log w) m ∧ (∀ p, p ∈ m_lobbies m → is_Some (w_lobbies w !! p)) ∧
     (m_joins m = [] ∨ ∃ m0, w_mp w = Some m0 ∧ m_joins m = m_joins m0)) →
  InvW D w'.
Proof.
  intros [] E2 E3 E4 E5 Hm.
  assert (HJ : default [] (m_joins <$> w_mp w') = [] ∨
               default [] (m_joins <$> w_mp w') = default [] (m_joins <$> w_mp w)).
  { destruct (w_mp w') as [m|] eqn:E1; simpl; [|by left].
    destruct (Hm m eq_refl) as (_ & _ & [->|(m0 & -> & ->)]); [by left|by right]. }
  split; rewrite ?E2, ?E3, ?E4, ?E5; auto.
  - intros m E1. by destruct (Hm m E1) as (? & ? & _).
  - intros pj Hpj. destruct HJ as [HJ|HJ]; rewrite HJ in Hpj; [by apply elem_of_nil in Hpj|by apply iv_parked].
  - unfold join_tokens in *. destruct HJ as [HJ|HJ]; rewrite HJ; [|done]. simpl. revert iv_tokens.
    rewrite (app_assoc D). rewrite (app_assoc (_ ++ _)). intros Ht.
    apply NoDup_app in Ht as (Hdq & Hx & Hc). apply NoDup_app in Hdq as (Hdq & Hy & _).
    rewrite app_assoc. apply NoDup_app. split; [done|]. split; [|done].
    intros p Hp. apply Hx, elem_of_app. by left.
Qed.

Lemma initialize_ok b w : MpOk w → safe (PFMultiplayerInitialize b) w.
Proof.
  intros Hok. apply mpok_keeps; [done|]. destruct Hok as [Hi _ _]. unfold PFMultiplayerInitialize.
  destruct b; [by apply okw_ret|]. apply okw_gets. destruct (w_mp w) eqn:Hm; [by apply okw_ret|].
  split; [|split; [split; [split|]|]; try done; by intros m Hw; rewrite Hm in Hw].
  eapply InvW_parts; [exact Hi|done..|]. simpl. intros m [= <-]. simpl.
  split; [|split; [by intros p ?%elem_of_nil|by left]]. split; simpl; try done; [].
  by rewrite drop_ge.
Qed.

(** The two exports that take a batch away: what they leave. *)
Lemma mpok_set_mp w m' :
  MpOk w →
  (∀ m, m' = Some m → ∃ m0, w_mp w = Some m0 ∧ m_joins m = m_joins m0 ∧ m_lobbies m = m_lobbies m0 ∧
     (mp_fine (w_log w) m0 → mp_fine (w_log w) m)) →
  MpOk (w_set_mp m' w).
Proof.
  intros [Hi Hr Ho] Hm. split; [|done..]. eapply InvW_parts; [exact Hi|done..|]. simpl.
  intros m (m0 & Hm0 & Hj & Hl & Hf)%Hm. destruct (iv_mp _ _ _ Hi m0 Hm0) as [? Hv].
  split; [auto|]. split; [by rewrite Hl|]. right. eauto.
Qed.

Lemma uninitialize_ok h w :
  MpOk w →
  wp (PFMultiplayerUninitialize h) (λ _ w', MpOk w' ∧ (h = 0 → w' = w)) w.
Proof.
  intros Hok. unfold PFMultiplayerUninitialize, guarded, mp_ready, wp, mbind, gets, mret, modify.
  destruct (h =? 0) eqn:H0; simpl; [done|]. case_bool_decide; [|done]. split; [by apply mpok_set_mp|].
  apply Z.eqb_neq in H0. done.
Qed.

Lemma set_entity_token_ok h e tok w :
  MpOk w → safe (PFMultiplayerSetEntityToken h e tok) w.
Proof.
  intros Hok. apply mpok_keeps; [done|]. destruct Hok as [Hi _ _]. apply okw_result, okw_guarded; [done|].
  intros Hm. destruct e as [e|]; [|by apply okw_ret]. cbv zeta. destruct (_ || _); [by apply okw_ret|].
  case_bool_decide; [by apply okw_ret|].
  eapply okw_seq; [split; [by eapply (InvW_same _ w)|by split; [apply grows_same|]]|]. intros _ w1 Hi1 G1.
  eapply okw_seq; [|intros; by apply okw_ret]. apply okw_with_mp; [done|].
  intros m1 Hm1 Hi2. eapply ok_of, good_mod_mp; [exact Hi2|done| | |by split].
  - intros m _ []. by split.
  - intros m p ?. simpl. by apply (iv_mp _ _ _ Hi1).
Qed.

(** ** Operations *)

Lemma kv_pairs_ok a : kv_ok a = true → ∃ l, ∀ w, kv_pairs a w = Some (l, w).
Proof.
  unfold kv_ok, kv_pairs. destruct (kv_keys a) as [keys|], (kv_vals a) as [vals|]; eauto.
  destruct ((kv_count a =? 0) || (32 <? kv_count a)); simpl; [eauto|]. intros [H1 H2]%andb_true_iff.
  apply Nat.leb_le in H1, H2. destruct (_ || _)%nat eqn:Hs; [|eauto].
  apply orb_true_iff in Hs as [Hs|Hs]; apply Nat.ltb_lt in Hs; lia.
Qed.

(** A reader of property lists that changes nothing. *)
Definition reads {A} (m : MC A) (Q : A → Prop) : Prop := ∃ x, Q x ∧ ∀ w, m w = Some (x, w).
Lemma reads_ret {A} (x : A) (Q : A → Prop) : Q x → reads (mret x) Q.
Proof. by exists x. Qed.
Lemma reads_bind {A B} (m : MC A) (f : A → MC B) P Q :
  reads m P → (∀ x, P x → reads (f x) Q) → reads (mbind m f) Q.
Proof.
  intros (x & Hx & Hm) Hf. destruct (Hf x Hx) as (y & Hy & Hfx). exists y. split; [done|].
  intros w. unfold mbind. by rewrite Hm.
Qed.
Lemma reads_kv_list a : kv_ok a = true → reads (kv_list a) (λ _, True).
Proof.
  intros [l Hl]%kv_pairs_ok. apply (reads_bind _ _ (λ _, True)); [by exists l|]. intros. by apply reads_ret.
Qed.
Lemma reads_kv_list_split a : kv_ok a = true → reads (kv_list_split a) (λ _, True).
Proof.
  intros [l Hl]%kv_pairs_ok. apply (reads_bind _ _ (λ _, True)); [by exists l|]. intros. by apply reads_ret.
Qed.
Lemma reads_join_cfg c : opt_ok kv_ok c = true → reads (join_cfg_kv c) (λ _, True).
Proof. destruct c; intros; [by apply reads_kv_list|by apply reads_ret]. Qed.
Lemma okw_reads D {A B} (m : MC A) (f : A → MC B) Q w :
  reads m Q → (∀ x, Q x → ok D (f x) w) → ok D (mbind m f) w.
Proof. intros (x & Hx & Hm) Hf. unfold ok, keeps, wp, mbind. rewrite Hm. by apply Hf. Qed.

(** A new lobby comes with the token that completes it. *)
Lemma tokens_below D J w p :
  Inv D J w → p ∈ D ++ mjoin (job_token <$> w_queue w) ++ join_tokens J ++ completed (w_log w) → p < w_next w.
Proof.
  intros Hi. rewrite !elem_of_app. intros [Hp|[Hp|[Hp|Hp]]].
  - by apply (iv_heap _ _ _ Hi), (iv_debt _ _ _ Hi).
  - apply list_elem_of_join in Hp as (ts & Hp & Hts). apply list_elem_of_fmap in Hts as (j & -> & Hj).
    apply (iv_heap _ _ _ Hi), (iv_jobs _ _ _ Hi j); [done|]. destruct j; try done. by apply elem_of_nil in Hp.
  - apply list_elem_of_fmap in Hp as (pj & -> & Hpj). by apply (iv_heap _ _ _ Hi), (iv_parked _ _ _ Hi).
  - apply list_elem_of_omap in Hp as (c & Hc & Hp). apply (lf_fresh _ _ _ (iv_log _ _ _ Hi) c p); [done|].
    by destruct c.
Qed.

Lemma lobby_fine_fresh log p l :
  (∀ c, c ∈ log → change_lobby c ≠ Some p) → l_announced l = ∅ → l_lock_known l = false →
  lobby_fine log p l.
Proof.
  intros Hf Ha Hk. split; [by rewrite Ha; intros id ?%elem_of_empty| |by rewrite Hk].
  intros _. by rewrite Ha, roster_fresh.
Qed.

Lemma good_new_lobby D J l w :
  Inv D J w → l_announced l = ∅ → l_lock_known l = false →
  good (w_next w :: D) J (new_lobby l) (λ p w', p = w_next w ∧ w_mp w' = w_mp w) w.
Proof.
  intros Hi Ha Hk. pose proof (tokens_below D J w (w_next w) Hi) as Hfresh.
  assert (Hsub : ∀ p, is_Some (w_lobbies w !! p) → is_Some (<[w_next w := l]> (w_lobbies w) !! p)).
  { intros p Hp. rewrite lookup_insert_is_Some'. by right. }
  destruct Hi. split; [|by split; [split; [split; [done|done|by apply keeps_batch_same]|]|]]. split; simpl; auto.
  - lia.
  - intros p. rewrite lookup_insert_is_Some'. intros [<-|Hp]; [lia|]. apply iv_heap in Hp. lia.
  - destruct iv_log as [Hc Hl Hf]. split; [done| |].
    + intros p l'. rewrite lookup_insert_Some. intros [[<- <-]|[_ Hp]]; [|by apply Hl].
      apply lobby_fine_fresh; [|done..]. intros c Hin Hp. specialize (Hf c _ Hin Hp). lia.
    + intros c p Hin Hp. specialize (Hf c p Hin Hp). lia.
  - intros m Hm. destruct (iv_mp m Hm). split; [done|]. auto.
  - intros pj Hpj. destruct (iv_parked pj Hpj). auto.
  - intros j p Hj Hp. by eapply Hsub, iv_jobs.
  - intros p [->|Hp]%elem_of_cons; [by rewrite lookup_insert_eq|by apply Hsub, iv_debt].
  - constructor; [|done]. intros Hx%Hfresh. lia.
Qed.

Lemma good_enqueue D J j w :
  Inv (job_token j ++ D) J w → (∀ p, p ∈ job_refs j → is_Some (w_lobbies w !! p)) →
  good D J (enqueue_job j) (λ _ _, True) w.
Proof.
  intros [] Hr. split; [|by split; [apply grows_same|]]. split; simpl; auto.
  - intros j' p [Hj|Hj]%elem_of_app; [by apply iv_jobs|]. apply list_elem_of_singleton in Hj as ->. apply Hr.
  - intros p Hp. apply iv_debt, elem_of_app. by right.
  - rewrite fmap_app, join_app. simpl. rewrite app_nil_r. revert iv_tokens.
    rewrite <- app_assoc. rewrite (Permutation_app_comm (mjoin _) (job_token j)).
    rewrite <- app_assoc. intros Ht. by rewrite Permutation_app_swap_app.
Qed.

(** A lobby of a create or a join, tracked, and its job. *)
Lemma okw_open D l job w :
  InvW D w → l_announced l = ∅ → l_lock_known l = false → (∀ p, job_token (job p) = [p]) →
  (∀ p, job_refs (job p) = [p]) →
  ok D (let* lp := new_lobby l in
        with_mp (mod_mp (λ m, set_lobbies (m_lobbies m ++ [lp]) m)) tt;;
        enqueue_job (job lp);;
        mret (S_OK, lp)) w.
Proof.
  intros Hi Ha Hk Ht Hr. eapply ok_bind; [apply (good_new_lobby _ _ _ _ Hi Ha Hk)|].
  intros p w1 Hi1 G1 [-> Hm1]. set (p := w_next w) in *.
  assert (Hp : is_Some (w_lobbies w1 !! p)) by (apply (iv_debt _ _ _ Hi1); by left).
  eapply (ok_bind (p :: D) (m_joins <$> w_mp w) _ _ _ (λ _ _, True)).
  { apply good_with_mp; [intros _; by apply mgood_ret|]. intros m Hm. rewrite <- Hm1, Hm in *.
    eapply mgood_weaken, good_mod_mp; [exact Hi1|done| | |by split].
    - intros m' _ []. by split.
    - intros m' q Hm' [Hq|Hq]%elem_of_app; [by apply (iv_mp _ _ _ Hi1 m' Hm')|].
      by apply list_elem_of_singleton in Hq as ->. }
  intros _ w2 Hi2 G2 _. eapply ok_bind; [apply (good_enqueue D); [by rewrite Ht|]|].
  - rewrite Hr. intros q ->%list_elem_of_singleton. by apply G2.
  - intros _ w3 Hi3 _ _. by eapply ok_ret.
Qed.

Lemma okw_generation D {B} (k : Z → MC B) w :
  InvW D w → (∀ g, ok D (k g) w) → ok D (let* g := current_generation in k g) w.
Proof.
  intros Hi Hk. unfold current_generation, with_mp, get_mp, ok, keeps, wp, mbind, gets.
  destruct (w_mp w) as [m|] eqn:Hm; [rewrite Hm|]; apply Hk.
Qed.

Lemma okw_entity D {B} e (k : string → MC B) w :
  (∀ x, ok D (k x) w) → ok D (mbind (entity_id_of e) k) w.
Proof. intros Hk. apply Hk. Qed.

Lemma create_ok h creator cfg join_cfg ctx w :
  MpOk w → opt_ok create_cfg_ok cfg = true → opt_ok kv_ok join_cfg = true →
  safe (PFMultiplayerCreateAndJoinLobby h creator cfg join_cfg ctx) w.
Proof.
  intros Hok Hc Hj. apply mpok_keeps; [done|]. destruct Hok as [Hi _ _]. apply okw_guarded; [done|].
  intros _. cbv zeta. apply (okw_reads _ _ _ (λ _, True)).
  { destruct cfg; [|by apply reads_ret]. apply andb_true_iff in Hc as [? _]. by apply reads_kv_list. }
  intros search _. apply (okw_reads _ _ _ (λ _, True)).
  { destruct cfg; [|by apply reads_ret]. apply andb_true_iff in Hc as [_ ?]. by apply reads_kv_list. }
  intros lobby_data _. eapply okw_reads; [by apply reads_join_cfg|]. intros member_kv _.
  apply okw_generation; [done|]. intros g. by eapply (okw_open _ _ (λ lp, Create _)).
Qed.

Lemma join_ok h joiner conn join_cfg ctx w :
  MpOk w → opt_ok kv_ok join_cfg = true →
  safe (PFMultiplayerJoinLobby h joiner conn join_cfg ctx) w.
Proof.
  intros Hok Hj. apply mpok_keeps; [done|]. destruct Hok as [Hi _ _]. apply okw_guarded; [done|].
  intros _. cbv zeta. eapply okw_reads; [by apply reads_join_cfg|]. intros member_kv _.
  apply okw_generation; [done|]. intros g. by eapply (okw_open _ _ (λ lp, Join _)).
Qed.

(** A job that completes nothing and names no lobby, or one that is there. *)
Lemma okw_enqueue D j w :
  InvW D w → job_token j = [] → (∀ p, p ∈ job_refs j → is_Some (w_lobbies w !! p)) →
  ok D (enqueue_job j) w.
Proof.
  intros Hi Ht Hr. eapply ok_of, good_enqueue; [|exact Hr]. rewrite Ht. exact Hi.
Qed.

Lemma find_ok h e cfg ctx w : MpOk w → safe (PFMultiplayerFindLobbies h e cfg ctx) w.
Proof.
  intros Hok. apply mpok_keeps; [done|]. destruct Hok as [Hi _ _]. apply okw_result, okw_guarded; [done|].
  intros _. cbv zeta. apply okw_entity. intros eid. apply okw_generation; [done|]. intros g.
  eapply okw_seq; [apply okw_enqueue; [done|done|by intros p ?%elem_of_nil]|]. intros. by apply okw_ret.
Qed.

(** ** The pump *)

Lemma mp_fine_start log m array :
  mp_fine log m → m_outstanding m = false →
  mp_fine log (set_queue [] (m_pending m) (negb (bool_decide (m_pending m = []))) array
                 (set_batches (m_batches m ++ [m_pending m]) m)).
Proof.
  intros [Hs Hl Ho Hi] Hno. split; simpl; [done| | |].
  - by rewrite Hl, concat_app, app_nil_r; simpl; rewrite app_nil_r.
  - intros Hb. apply negb_true_iff, bool_decide_eq_false in Hb. by rewrite last_snoc.
  - intros Hb. by apply negb_false_iff, bool_decide_eq_true in Hb.
Qed.

Lemma mp_fine_finish log m array :
  mp_fine log m → mp_fine log (set_queue (m_pending m) [] false array m).
Proof. intros []. by split. Qed.

Lemma start_ok h b w :
  MpOk w → safe (PFMultiplayerStartProcessingLobbyStateChanges h b) w.
Proof.
  intros Hok. apply mpok_keeps; [done|]. destruct Hok as [Hi _ _].
  unfold PFMultiplayerStartProcessingLobbyStateChanges. destruct b; [by apply okw_ret|].
  apply okw_guarded; [done|]. intros _. apply okw_with_mp; [done|]. intros m Hm Hi'.
  apply (ok_of (worker_token (w_worker w)) (Some (m_joins m)) _ (λ _ _, True)).
  eapply good_get_mp_bind; [done|].
  apply (mgood_seq (worker_token (w_worker w)) (Some (m_joins m)) _ _ _ _ (λ _ _, True)).
  - destruct (m_outstanding m) eqn:Ho; [by apply mgood_ret|].
    eapply mgood_bind; [by apply mgood_observe|]. intros a w1 Hi1 G1 [_ Hm1].
    eapply mgood_weaken, good_mod_mp; [done|done| | |].
    + intros m1 Hm2 Hf. rewrite Hm1, Hm in Hm2. injection Hm2 as <-. by apply mp_fine_start.
    + intros m1 p ?. simpl. by apply (iv_mp _ _ _ Hi1).
    + intros m1 Hm2. rewrite Hm1, Hm in Hm2. injection Hm2 as <-. by rewrite Ho.
  - intros _ w1 Hi1 _. destruct (live_mp _ _ _ Hi1) as (m1 & Hm1 & _).
    eapply good_get_mp_bind; [done|]. by apply mgood_ret.
Qed.

(** The call that takes the batch back: its count and array are those Start gave out. *)
Definition takes_batch (w : MpWorld) (count changes : Z) : bool :=
  match w_mp w with
  | Some m => m_outstanding m && (count =? Z.of_nat (length (m_in_flight m))) && (changes =? m_array m)
  | None => false
  end.

Lemma finish_ok h n c w :
  MpOk w →
  wp (PFMultiplayerFinishProcessingLobbyStateChanges h n c)
    (λ _ w', MpOk w' ∧ (h = 0 ∨ takes_batch w n c = false → w' = w)) w.
Proof.
  intros Hok. unfold PFMultiplayerFinishProcessingLobbyStateChanges, guarded, mp_ready, with_mp, takes_batch.
  unfold wp, mod_mp, get_mp, mbind, gets, mret, modify. destruct (h =? 0) eqn:H0; simpl; [done|].
  destruct (w_mp w) as [m|] eqn:Hm; simpl; [|by split]. repeat (rewrite Hm; simpl).
  destruct (_ && _); simpl; [|by split]. rewrite Hm. simpl. split; [|apply Z.eqb_neq in H0; by intros [?|?]].
  apply mpok_set_mp; [done|]. intros ? [= <-]. exists m. split_and!; [done..|]. apply mp_fine_finish.
Qed.

(** ** Getters *)

Lemma okw_get_lobby D {B} p l (k : Lobby → MC B) w :
  w_lobbies w !! p = Some l → ok D (k l) w → ok D (mbind (get_lobby p) k) w.
Proof. intros Hl H. unfold ok, keeps, wp, mbind, get_lobby. rewrite Hl. exact H. Qed.

(** An export that answers a null lobby at once and only reads it otherwise. *)
Lemma okw_lobby D {A} p (b : bool) (r : A) (k : Lobby → MC A) w :
  InvW D w → lobby_ptr w p → (∀ l, w_lobbies w !! p = Some l → ok D (k l) w) →
  ok D (if (p =? 0) || b then mret r else mbind (get_lobby p) k) w.
Proof.
  intros Hi [->|[l Hl]] Hk; [by apply okw_ret|]. destruct (_ || _); [by apply okw_ret|].
  eapply okw_get_lobby; [done|by apply Hk].
Qed.

Lemma identity_getter_ok {A} (f : Lobby → A) p b w :
  MpOk w → lobby_ptr w p → safe (identity_getter f p b) w.
Proof.
  intros Hok Hp. apply mpok_keeps; [done|]. destruct Hok as [Hi _ _]. apply okw_lobby; [done..|].
  intros l _. by apply okw_ret.
Qed.

Lemma lobby_property_ok p key b w :
  MpOk w → lobby_ptr w p → property_cut w p key →
  safe (PFLobbyGetLobbyProperty p key b) w.
Proof.
  intros Hok Hp Hcut. apply mpok_keeps; [done|]. destruct Hok as [Hi _ _].
  unfold PFLobbyGetLobbyProperty. cbv zeta. apply okw_lobby; [done..|]. intros l Hl.
  set (val := match l_props l !! _ with Some _ => _ | None => _ end).
  assert (Hval : ∀ v, val = Some v → l_props l !! read_cstr key = Some v).
  { intros v. unfold val. destruct (l_props l !! _) as [v'|]; [|done]. by destruct (_ && _); intros [= <-]. }
  eapply (okw_seq (worker_token (w_worker w))); [|intros; by apply okw_ret].
  destruct val as [v|]; [|by apply okw_ret]. destruct (logged_property _) eqn:Hlog; [|by apply okw_ret].
  unfold log_slice. destruct (sbytes _ !! 96%nat) as [c|] eqn:Hc; [|by apply okw_ret].
  rewrite (Hcut l v c Hl); [by apply okw_ret|by apply Hval|done..].
Qed.

Lemma search_property_ok p key b w :
  MpOk w → lobby_ptr w p → safe (PFLobbyGetSearchProperty p key b) w.
Proof.
  intros Hok Hp. apply mpok_keeps; [done|]. destruct Hok as [Hi _ _]. apply okw_lobby; [done..|].
  intros l _. by apply okw_ret.
Qed.

Lemma member_property_ok p e key b w :
  MpOk w → lobby_ptr w p → safe (PFLobbyGetMemberProperty p e key b) w.
Proof.
  intros Hok Hp. apply mpok_keeps; [done|]. destruct Hok as [Hi _ _]. apply okw_lobby; [done..|].
  intros l _. destruct e; by apply okw_ret.
Qed.

Lemma member_status_ok p e b w :
  MpOk w → lobby_ptr w p → safe (PFLobbyGetMemberConnectionStatus p e b) w.
Proof.
  intros Hok Hp. apply mpok_keeps; [done|]. destruct Hok as [Hi _ _].
  unfold PFLobbyGetMemberConnectionStatus. destruct b; [by apply okw_ret|].
  destruct e as [e|]; [|by apply okw_ret]. rewrite <- (orb_false_r (p =? 0)). apply okw_lobby; [done..|].
  intros l _. by apply okw_ret.
Qed.

(** ** Updates and leaving *)

Lemma reads_log_keys a : logged_ok a = true → reads (log_keys a) (λ _, True).
Proof.
  unfold logged_ok, log_keys. destruct (kv_keys a); [|by exists tt]. intros Hl%Nat.leb_le.
  destruct (_ <? _)%nat eqn:H; [apply Nat.ltb_lt in H; lia|by exists tt].
Qed.

Lemma apply_scalars_books s l : same_books l (apply_scalars s l).
Proof. by destruct s as [[] ? ? ?]. Qed.

Lemma reads_post_lobby u l :
  opt_ok lobby_update_ok u = true → reads (post_lobby u l) (λ r, same_books l r.1).
Proof.
  intros Hu. destruct u as [u|]; cbn [post_lobby]; [|by apply reads_ret].
  apply andb_true_iff in Hu as [[Hs Hl]%andb_true_iff [Hs' Hl']%andb_true_iff].
  eapply reads_bind; [by apply reads_kv_list_split|]. intros search _.
  eapply reads_bind; [by apply reads_kv_list_split|]. intros lobby _.
  eapply reads_bind; [by apply reads_log_keys|]. intros _ _.
  eapply reads_bind; [by apply reads_log_keys|]. intros _ _.
  apply reads_ret. simpl. by destruct (apply_scalars_books (update_scalars u) (set_bags
    (drop_props (apply_props (l_props l) lobby.1) lobby.2)
    (drop_props (apply_props (l_search l) search.1) search.2) l)).
Qed.

Lemma reads_post_member mid u l :
  opt_ok (λ u, kv_ok (md_props u)) u = true → reads (post_member mid u l) (λ r, same_books l r.1).
Proof.
  intros Hu. destruct u as [u|]; cbn [post_member]; [|by apply reads_ret].
  eapply reads_bind; [by apply reads_kv_list_split|]. intros kv _.
  destruct (_ || _); by apply reads_ret.
Qed.

Lemma okw_put D p l l' w :
  InvW D w → w_lobbies w !! p = Some l → same_books l l' → ok D (modify (put_lobby p l')) w.
Proof. intros. by eapply ok_of, good_put. Qed.

Lemma post_update_ok p e u mu ctx w :
  MpOk w → lobby_ptr w p → opt_ok lobby_update_ok u = true →
  opt_ok (λ u, kv_ok (md_props u)) mu = true →
  safe (PFLobbyPostUpdate p e u mu ctx) w.
Proof.
  intros Hok Hp Hu Hmu. apply mpok_keeps; [done|]. destruct Hok as [Hi _ _].
  unfold PFLobbyPostUpdate. destruct (p =? 0) eqn:H0; [by apply okw_ret|].
  destruct Hp as [->|[l Hl]]; [done|].
  set (k := mbind (get_lobby p) _). assert (Hk : ok (worker_token (w_worker w)) k w).
  { eapply okw_get_lobby; [done|]. destruct (l_left l); [by apply okw_ret|].
    eapply okw_reads; [by apply reads_post_lobby|]. intros [l1 [[sd ld] sc]] Hb1. simpl in Hb1.
    apply okw_entity. intros mid. eapply okw_reads; [by apply reads_post_member|]. intros [l2 [target md]] Hb2. simpl in Hb2.
    assert (Hb : same_books l l2) by by etrans.
    eapply okw_seq; [by eapply okw_put|]. intros _ w1 Hi1 G1. apply okw_gets.
    apply okw_generation; [done|]. intros g. eapply okw_seq; [|intros; by apply okw_ret].
    apply okw_enqueue; [done|done|]. intros q ->%list_elem_of_singleton. apply G1. by exists l. }
  destruct u, mu; by try apply okw_ret.
Qed.

Lemma leave_ok p w : MpOk w → lobby_ptr w p → safe (PFLobbyLeave p) w.
Proof.
  intros Hok Hp. apply mpok_keeps; [done|]. destruct Hok as [Hi _ _]. unfold PFLobbyLeave.
  destruct (p =? 0) eqn:H0; [by apply okw_ret|]. destruct Hp as [->|[l Hl]]; [done|].
  eapply okw_get_lobby; [done|]. apply okw_gets. cbv zeta. apply okw_generation; [done|]. intros g.
  eapply okw_seq; [eapply okw_get_lobby; [done|]; by eapply okw_put|]. intros _ w1 Hi1 G1.
  eapply okw_seq; [apply okw_with_mp; [done|]; intros m Hm Hi2; by eapply ok_of, good_untrack|].
  intros _ w2 Hi2 G2. eapply okw_seq; [|intros; by apply okw_ret].
  apply okw_enqueue; [done|done|]. by intros q ?%elem_of_nil.
Qed.

Lemma force_remove_ok p e w :
  MpOk w → lobby_ptr w p → safe (PFLobbyForceRemoveMember p e) w.
Proof.
  intros Hok Hp. apply mpok_keeps; [done|]. destruct Hok as [Hi _ _]. unfold PFLobbyForceRemoveMember.
  destruct e as [e|]; [|by apply okw_ret]. case_bool_decide; [by apply okw_ret|].
  destruct (p =? 0) eqn:H0; [by apply okw_ret|]. destruct Hp as [->|[l Hl]]; [done|].
  eapply okw_get_lobby; [done|]. by apply okw_ret.
Qed.

(** ** Runs *)

(** Everything that can happen next: a call of the title, or half a step of the worker. *)
Inductive MpCall :=
  | CInitialize (out_null : bool)
  | CUninitialize (h : Z)
  | CSetEntityToken (h : Z) (e : option EntityKey) (token : CPtr)
  | CCreateAndJoin (h : Z) (creator : option EntityKey) (cfg : option CreateConfig)
      (join_cfg : option KvArgs) (ctx : Z)
  | CJoinLobby (h : Z) (joiner : option EntityKey) (conn : CPtr) (join_cfg : option KvArgs) (ctx : Z)
  | CFindLobbies (h : Z) (e : option EntityKey) (cfg : option SearchConfig) (ctx : Z)
  | CStart (h : Z) (out_null : bool)
  | CFinish (h count changes : Z)
  | CGetLobbyId (p : Z) (out_null : bool)
  | CGetConnectionString (p : Z) (out_null : bool)
  | CGetMembershipLock (p : Z) (out_null : bool)
  | CGetOwner (p : Z) (out_null : bool)
  | CGetLobbyProperty (p : Z) (key : CPtr) (out_null : bool)
  | CGetSearchProperty (p : Z) (key : CPtr) (out_null : bool)
  | CGetMemberProperty (p : Z) (e : option EntityKey) (key : CPtr) (out_null : bool)
  | CGetMemberStatus (p : Z) (e : option EntityKey) (out_null : bool)
  | CGetErrorMessage (hr : Z)
  | CPostUpdate (p : Z) (e : option EntityKey) (u : option LobbyUpdate)
      (mu : option MemberDataUpdate) (ctx : Z)
  | CLeave (p : Z)
  | CForceRemove (p : Z) (e : option EntityKey)
  | CWorker.

Definition run {A} (m : MC A) : MC unit := m;; mret tt.

Definition exec (c : MpCall) : MC unit :=
  match c with
  | CInitialize b => run (PFMultiplayerInitialize b)
  | CUninitialize h => run (PFMultiplayerUninitialize h)
  | CSetEntityToken h e t => run (PFMultiplayerSetEntityToken h e t)
  | CCreateAndJoin h e cfg j ctx => run (PFMultiplayerCreateAndJoinLobby h e cfg j ctx)
  | CJoinLobby h e conn j ctx => run (PFMultiplayerJoinLobby h e conn j ctx)
  | CFindLobbies h e cfg ctx => run (PFMultiplayerFindLobbies h e cfg ctx)
  | CStart h b => run (PFMultiplayerStartProcessingLobbyStateChanges h b)
  | CFinish h n c => run (PFMultiplayerFinishProcessingLobbyStateChanges h n c)
  | CGetLobbyId p b => run (PFLobbyGetLobbyId p b)
  | CGetConnectionString p b => run (PFLobbyGetConnectionString p b)
  | CGetMembershipLock p b => run (PFLobbyGetMembershipLock p b)
  | CGetOwner p b => run (PFLobbyGetOwner p b)
  | CGetLobbyProperty p k b => run (PFLobbyGetLobbyProperty p k b)
  | CGetSearchProperty p k b => run (PFLobbyGetSearchProperty p k b)
  | CGetMemberProperty p e k b => run (PFLobbyGetMemberProperty p e k b)
  | CGetMemberStatus p e b => run (PFLobbyGetMemberConnectionStatus p e b)
  | CGetErrorMessage hr => run (PFMultiplayerGetErrorMessage hr)
  | CPostUpdate p e u mu ctx => run (PFLobbyPostUpdate p e u mu ctx)
  | CLeave p => run (PFLobbyLeave p)
  | CForceRemove p e => run (PFLobbyForceRemoveMember p e)
  | CWorker => run worker_turn
  end.

(** What the title must respect: lobbies it was given, arrays as long as it says. The worker runs
    once it was started. *)
Definition allowed (w : MpWorld) (c : MpCall) : Prop :=
  match c with
  | CCreateAndJoin _ _ cfg j _ => opt_ok create_cfg_ok cfg = true ∧ opt_ok kv_ok j = true
  | CJoinLobby _ _ _ j _ => opt_ok kv_ok j = true
  | CGetLobbyId p _ | CGetConnectionString p _ | CGetMembershipLock p _ | CGetOwner p _
  | CGetSearchProperty p _ _ | CGetMemberProperty p _ _ _ | CGetMemberStatus p _ _
  | CLeave p | CForceRemove p _ => lobby_ptr w p
  | CGetLobbyProperty p k _ => lobby_ptr w p ∧ property_cut w p k
  | CPostUpdate p _ u mu _ =>
      lobby_ptr w p ∧ opt_ok lobby_update_ok u = true ∧ opt_ok (λ u, kv_ok (md_props u)) mu = true
  | CWorker => w_started w = true
  | _ => True
  end.

Inductive mp_step (w w' : MpWorld) : Prop :=
  | mp_call c : allowed w c → exec c w = Some (tt, w') → mp_step w w'.

Inductive mp_reachable : MpWorld → Prop :=
  | mp_start : mp_reachable mp_world_init
  | mp_next w w' : mp_reachable w → mp_step w w' → mp_reachable w'.

Lemma safe_run {A} (m : MC A) w : safe m w → safe (run m) w.
Proof. intros Hm. unfold safe, run. by rewrite wp_bind. Qed.

(** The calls after which the title's batch is gone. *)
Definition takes_back (w : MpWorld) (c : MpCall) : bool :=
  match c with
  | CUninitialize h => negb (h =? 0)
  | CFinish h n a => negb (h =? 0) && takes_batch w n a
  | _ => false
  end.

Lemma wp_run_taking {A} (m : MC A) (b : bool) P w :
  wp m (λ _ w', MpOk w' ∧ (P → w' = w)) w → (b = false → P) →
  wp (run m) (λ _ w', MpOk w' ∧ (b = false → evolves w w')) w.
Proof.
  intros Hm Hb. unfold run. rewrite wp_bind. eapply wp_mono; [exact Hm|]. intros x w' [Hok Hw].
  split; [done|]. intros ->%Hb%Hw. done.
Qed.

Lemma exec_ok c w :
  MpOk w → allowed w c → wp (exec c) (λ _ w', MpOk w' ∧ (takes_back w c = false → evolves w w')) w.
Proof.
  intros Hok Ha.
  assert (Hs : safe (exec c) w → wp (exec c) (λ _ w', MpOk w' ∧ (takes_back w c = false → evolves w w')) w).
  { intros H. eapply wp_mono; [exact H|]. intros x w' [? ?]. by split. }
  destruct c; cbn [exec allowed] in *; destruct_and?;
    try (apply Hs, safe_run; first
      [by apply initialize_ok|by apply set_entity_token_ok|by apply create_ok|by apply join_ok
      |by apply find_ok|by apply start_ok|by apply identity_getter_ok|by apply lobby_property_ok
      |by apply search_property_ok|by apply member_property_ok|by apply member_status_ok
      |by apply post_update_ok|by apply leave_ok|by apply force_remove_ok|by apply worker_turn_ok|done]).
  - eapply wp_run_taking; [by apply uninitialize_ok|]. simpl. by intros ?%negb_false_iff%Z.eqb_eq.
  - eapply wp_run_taking; [by apply finish_ok|]. simpl.
    intros [?%negb_false_iff%Z.eqb_eq|?]%andb_false_iff; [by left|by right].
Qed.

Lemma mp_init_ok : MpOk mp_world_init.
Proof.
  split; simpl; [|by intros p ?%elem_of_nil|done]. split; simpl; try done.
  - intros p [l Hl]. by rewrite lookup_empty in Hl.
  - split; [done| |by intros c p ?%elem_of_nil]. intros p l. by rewrite lookup_empty.
  - by intros pj ?%elem_of_nil.
  - by intros j p ?%elem_of_nil.
  - by intros p ?%elem_of_nil.
  - constructor.
Qed.

Lemma mp_reachable_ok w : mp_reachable w → MpOk w.
Proof.
  induction 1 as [|w w' _ IH [c Ha He]]; [apply mp_init_ok|].
  pose proof (exec_ok c w IH Ha) as Hw. unfold wp in Hw. rewrite He in Hw. by apply Hw.
Qed.

(** ** Concrete runs *)

Definition lobby_ptrb (w : MpWorld) (p : Z) : bool := (p =? 0) || bool_decide (is_Some (w_lobbies w !! p)).
Definition property_cutb (w : MpWorld) (p : Z) (key : CPtr) : bool :=
  match l ← w_lobbies w !! p; l_props l !! read_cstr key with
  | Some v =>
      negb (logged_property (read_cstr key)) ||
      match sbytes (read_cstr (Some (sbytes v))) !! 96%nat with Some c => negb (is_cont c) | None => true end
  | None => true
  end.

Definition mp_allowedb (w : MpWorld) (c : MpCall) : bool :=
  match c with
  | CCreateAndJoin _ _ cfg j _ => opt_ok create_cfg_ok cfg && opt_ok kv_ok j
  | CJoinLobby _ _ _ j _ => opt_ok kv_ok j
  | CGetLobbyId p _ | CGetConnectionString p _ | CGetMembershipLock p _ | CGetOwner p _
  | CGetSearchProperty p _ _ | CGetMemberProperty p _ _ _ | CGetMemberStatus p _ _
  | CLeave p | CForceRemove p _ => lobby_ptrb w p
  | CGetLobbyProperty p k _ => lobby_ptrb w p && property_cutb w p k
  | CPostUpdate p _ u mu _ =>
      lobby_ptrb w p && (opt_ok lobby_update_ok u && opt_ok (λ u, kv_ok (md_props u)) mu)
  | CWorker => w_started w
  | _ => true
  end.

Lemma lobby_ptrb_true w p : lobby_ptrb w p = true → lobby_ptr w p.
Proof. by intros [?%Z.eqb_eq|?%bool_decide_eq_true]%orb_true_iff; [left|right]. Qed.
Lemma property_cutb_true w p key : property_cutb w p key = true → property_cut w p key.
Proof.
  unfold property_cutb. intros Hb l v c Hl Hv Hlog Hc. rewrite Hl in Hb.
  cbv [base.mbind option_bind] in Hb. rewrite Hv, Hlog, Hc in Hb. by apply negb_true_iff.
Qed.

Lemma mp_allowedb_true w c : mp_allowedb w c = true → allowed w c.
Proof.
  destruct c; simpl; try done; try apply lobby_ptrb_true.
  - by intros ?%andb_true_iff.
  - intros [?%lobby_ptrb_true ?%property_cutb_true]%andb_true_iff. done.
  - intros [?%lobby_ptrb_true ?%andb_true_iff]%andb_true_iff. done.
Qed.

Fixpoint mp_run (cs : list MpCall) (w : MpWorld) : option MpWorld :=
  match cs with
  | [] => Some w
  | c :: cs =>
      if mp_allowedb w c then match exec c w with Some (_, w) => mp_run cs w | None => None end else None
  end.

Lemma mp_run_reachable cs : ∀ w w', mp_reachable w → mp_run cs w = Some w' → mp_reachable w'.
Proof.
  induction cs as [|c cs IH]; intros w w' Hr; simpl; [by intros [= <-]|].
  destruct (mp_allowedb w c) eqn:Ha; [|done]. destruct (exec c w) as [[[] w1]|] eqn:He; [|done].
  apply IH. eapply mp_next; [exact Hr|]. exists c; [by apply mp_allowedb_true|done].
Qed.
Lemma mp_run_default cs :
  is_Some (mp_run cs mp_world_init) → mp_reachable (default mp_world_init (mp_run cs mp_world_init)).
Proof. intros [w Hw]. rewrite Hw. simpl. eapply mp_run_reachable; [apply mp_start|done]. Qed.
End env.

(** A broker with one lobby, of which the guest's first look finds no network yet, and which the
    host leaves later on. *)
Definition demo_member (id : string) : string :=
  "{" +:+ raw_field "MemberEntity" (key_json id "title_player_account") +:+ "}".
Definition demo_lobby (data : list (string * string)) (members : list string) : string :=
  "{" +:+ text_field "LobbyId" "L1" +:+ "," +:+
  raw_field "Owner" (key_json "HOST" "title_player_account") +:+ "," +:+
  raw_field "LobbyData" (text_object data) +:+ "," +:+
  raw_field "Members" ("[" +:+ join "," (map demo_member members) +:+ "]") +:+ "}".
Definition demo_reply (body : string) : Reply :=
  mkReply true true [sbytes "HTTP/1.1 200 OK" ++ CRLF ++ sbytes "Content-Length: " ++
    sbytes (fmt_dec (Z.of_nat (length (sbytes body)))) ++ CRLF ++ CRLF ++ sbytes body] Eof.
Definition demo_network : list (string * string) :=
  [("network_descriptor", "LAN1.0123456789"); ("invitation_identifier", "invite")].

#[export] Instance mp_demo_env : MpEnv := {|
  clock_at k := 1000 * Z.of_nat k;
  reply_at k req :=
    if contains_b (sbytes "/Lobby/GetLobby ") req then
      demo_reply (if (k <? 2)%nat then demo_lobby [] ["HOST"; "GUEST"]
                  else if (k <? 8)%nat then demo_lobby demo_network ["HOST"; "GUEST"]
                  else demo_lobby demo_network ["GUEST"])
    else demo_reply (text_object [("LobbyId", "L1")]);
  array_at _ := 4096;
  mp_cfg := mkLanCfg "127.0.0.1" 8080 8081 None 27015 false |}.

Definition demo_guest : EntityKey := mkEntityKey (Some (sbytes "GUEST")) (Some (sbytes "title_player_account")).

(** The guest joins; the join is parked, completed by the next poll round and handed over. *)
Definition demo_join : list MpCall :=
  [ CInitialize false; CSetEntityToken 1 (Some demo_guest) (Some (sbytes "token"));
    CJoinLobby 1 (Some demo_guest) (Some (sbytes "lan.L1")) None 77; CWorker; CWorker ].
Definition demo_poll : list MpCall := [CWorker; CWorker; CWorker; CWorker].
Definition demo_calls : list MpCall := demo_join ++ demo_poll ++ [CStart 1 false] ++ demo_poll.

Definition parked_world : MpWorld := default mp_world_init (mp_run demo_join mp_world_init).
Definition demo_world : MpWorld := default mp_world_init (mp_run demo_calls mp_world_init).

Lemma parked_reachable : mp_reachable parked_world.
Proof. apply mp_run_default. vm_compute. by eexists. Qed.
Lemma mp_demo_reachable : mp_reachable demo_world.
Proof. apply mp_run_default. vm_compute. by eexists. Qed.
