(* ===== verification/MpProps.v ===== *)
(** * What the lobby shim guarantees

    The safety of every run; the order in which the title learns of members,
    updates and completions; the pump; differences and refreshes; the jobs of
    the worker; and the places where the code falls short. *)

From Stdlib Require Import Sorted.
From S2P Require Import Prelude RustStr Http LanCfg Descriptor Json Value Comp.
From S2P Require Import MpState MpJson MpWorker MpApi MpInv MpKeeps MpRun.
#[local] Open Scope string_scope.
#[local] Open Scope list_scope.
#[local] Open Scope Z_scope.
#[local] Open Scope comp_scope.

(** ** The log *)

Lemma reachable_log w `{HashOrder} `{MpEnv} : mp_reachable w → log_fine (w_lobbies w) (w_next w) (w_log w).
Proof. intros Hr%mp_reachable_ok. apply (iv_log _ _ _ (ok_inv _ Hr)). Qed.

Lemma added_lookup log i p id :
  added (take i log) p id → ∃ j k, (j < i)%nat ∧ log !! j = Some (MemberAdded p k) ∧ ident k = id.
Proof.
  intros (k & Hk & Hid). apply list_elem_of_lookup in Hk as [j Hj]. exists j, k.
  apply lookup_take_Some in Hj as [Hj Hlt]. done.
Qed.

Lemma last_take {A} (l : list A) i c x :
  l !! i = Some c → last (take i l) = Some x → (0 < i)%nat ∧ l !! (i - 1)%nat = Some x.
Proof.
  intros Hi. rewrite last_lookup, length_take. assert (i < length l)%nat by (by eapply lookup_lt_Some).
  rewrite Nat.min_l by lia. intros Hx%lookup_take_Some. replace (Nat.pred i) with (i - 1)%nat in Hx by lia.
  destruct Hx. split; [lia|done].
Qed.

Lemma clean_log_take log i : clean_log log → clean_log (take i log).
Proof. rewrite <- (take_drop i log) at 1. apply clean_log_app. Qed.

Lemma NoDup_omap_lookup {A B} (f : A → option B) l i j x y b :
  NoDup (omap f l) → l !! i = Some x → l !! j = Some y → f x = Some b → f y = Some b → i = j.
Proof.
  revert i j. induction l as [|a l IH]; intros i j Hnd Hi Hj Hx Hy; [done|].
  assert (Hin : ∀ k z, l !! k = Some z → f z = Some b → b ∈ omap f l).
  { intros k z Hz%list_elem_of_lookup_2 Hf. apply list_elem_of_omap. eauto. }
  simpl in Hnd. destruct i as [|i], j as [|j]; simplify_eq/=; [done| | |].
  - rewrite Hx in Hnd. apply NoDup_cons in Hnd as [Hn _]. destruct Hn. by eapply Hin.
  - rewrite Hy in Hnd. apply NoDup_cons in Hnd as [Hn _]. destruct Hn. by eapply Hin.
  - f_equal. eapply IH; try done. destruct (f a); [by apply NoDup_cons in Hnd as [_ ?]|done].
Qed.

Lemma NoDup_omap_keys {A} (f : string * A → option string) l :
  (∀ x k, f x = Some k → x.1 = k) → NoDup l.*1 → NoDup (omap f l).
Proof.
  intros Hf. induction l as [|x l IH]; [constructor|]. rewrite fmap_cons. intros [Hx Hnd]%NoDup_cons.
  simpl. destruct (f x) as [k|] eqn:Hk; [|by apply IH]. constructor; [|by apply IH].
  intros (y & Hy & Hfy)%list_elem_of_omap. apply Hx, list_elem_of_fmap. exists y. split; [|done].
  by rewrite (Hf x k Hk), (Hf y k Hfy).
Qed.

Section env.
Context `{HO : HashOrder} `{E : MpEnv}.


(** C6: A successful JoinCompleted is never the first the title hears of its lobby. The change
    directly before it is an Updated of the same lobby that carries the membership lock, and before
    it stands the MemberAdded of the joiner, unless the joiner has no name or is called owner. *)
Theorem join_announced w i joiner p :
  mp_reachable w → w_log w !! i = Some (JoinCompleted 0 joiner p) →
  (∃ d, (0 < i)%nat ∧ w_log w !! (i - 1)%nat = Some (Updated p d) ∧ d_lock d = true) ∧
  (read_cstr joiner = "" ∨ read_cstr joiner = "owner" ∨
   ∃ j k, (j < i)%nat ∧ w_log w !! j = Some (MemberAdded p k) ∧ ident k = read_cstr joiner).
Proof.
  intros Hr Hi. pose proof (lf_changes _ _ _ (reachable_log w Hr) i _ Hi) as Hok. simpl in Hok.
  destruct (Hok eq_refl) as [(d & Hd & Hlock) Hj]. split.
  - exists d. by destruct (last_take _ _ _ _ Hi Hd).
  - destruct Hj as [?|[?|Hj]]; [by left|by right; left|right; right]. by apply added_lookup.
Qed.

(** C14: The shim's set of announced members is the title's. Replaying the MemberAdded and
    MemberRemoved of a lobby gives exactly the set the shim keeps; nobody is added who is on that
    roster, nobody removed who is not. It is assumed that the identifiers announced survive their
    trip through a C string (a NUL in one would cut it short). *)
Theorem roster_exact w p l :
  mp_reachable w → clean_log (w_log w) → w_lobbies w !! p = Some l →
  l_announced l = roster p (w_log w) ∧
  ∀ i k, (w_log w !! i = Some (MemberAdded p k) → ident k ∉ roster p (take i (w_log w))) ∧
         (w_log w !! i = Some (MemberRemoved p k) → ident k ∈ roster p (take i (w_log w))).
Proof.
  intros Hr Hc Hl. pose proof (reachable_log w Hr) as [Hch Hlob _].
  split; [by apply (lb_roster _ _ _ (Hlob p l Hl))|]. intros i k.
  pose proof (clean_log_take _ i Hc) as Hci. split; intros Hi; apply Hch in Hi.
  - destruct Hi as (_ & _ & Hi). by apply Hi.
  - destruct Hi as (id & -> & (k0 & Hk & <-) & Hi). rewrite (Hci _ _ Hk). by apply Hi.
Qed.

(** C13: Every create and every join is completed at most once: no two CreateCompleted or
    JoinCompleted of a run, successful or not, carry the same lobby. *)
Theorem completed_once w i j ci cj p :
  mp_reachable w → w_log w !! i = Some ci → w_log w !! j = Some cj →
  completes ci = Some p → completes cj = Some p → i = j.
Proof.
  intros Hr%mp_reachable_ok Hi Hj Hci Hcj.
  pose proof (iv_tokens _ _ _ (ok_inv _ Hr)) as Hnd. rewrite !app_assoc in Hnd.
  apply NoDup_app in Hnd as (_ & _ & Hnd). by eapply NoDup_omap_lookup.
Qed.

(** An Updated always reports something, and the first one of a lobby reports the membership
    lock, whatever queued it: a poll, a post or the completion of a join. *)
Theorem updates_say_something w i p d :
  mp_reachable w → w_log w !! i = Some (Updated p d) →
  delta_empty d = false ∧
  ((∀ j d', (j < i)%nat → w_log w !! j ≠ Some (Updated p d')) → d_lock d = true).
Proof.
  intros Hr Hi. destruct (lf_changes _ _ _ (reachable_log w Hr) i _ Hi) as [Hd Hf]. split; [done|].
  intros Hno. apply Hf. intros d' Hd'. apply list_elem_of_lookup in Hd' as [j [Hj Hlt]%lookup_take_Some].
  by eapply Hno.
Qed.

(** C17: The pump gives every state change of an instance to the title exactly once and in order:
    the batches it gave out, followed by what is still pending, are the changes queued since
    Initialize. The batch the title holds is the last one and is not empty. *)
Theorem pump_exact w m :
  mp_reachable w → w_mp w = Some m →
  drop (m_start m) (w_log w) = concat (m_batches m) ++ m_pending m ∧
  (if m_outstanding m then last (m_batches m) = Some (m_in_flight m) ∧ m_in_flight m ≠ []
   else m_in_flight m = []).
Proof.
  intros Hr%mp_reachable_ok Hm. destruct (iv_mp _ _ _ (ok_inv _ Hr) m Hm) as [[] _].
  split; [done|]. destruct (m_outstanding m); auto.
Qed.

(** Start gives out the changes that are pending, or the same array again while the title holds
    one; and a batch held survives every call but Uninitialize and the Finish that names its count
    and its array. *)
Theorem batch_held w m c w' :
  mp_reachable w → w_mp w = Some m → m_outstanding m = true → allowed w c → takes_back w c = false →
  exec c w = Some (tt, w') →
  PFMultiplayerStartProcessingLobbyStateChanges 1 false w' =
    Some ((S_OK, Some (m_array m, m_in_flight m)), w').
Proof.
  intros Hr Hm Ho Ha Ht He. pose proof (mp_reachable_ok w Hr) as Hok.
  pose proof (exec_ok c w Hok Ha) as Hw. unfold wp in Hw. rewrite He in Hw. destruct Hw as [_ [_ _ Hb]%(λ H, H Ht)].
  destruct (Hb m Hm Ho) as (m' & Hm' & Ho' & Hf & Har & _).
  destruct (iv_mp _ _ _ (ok_inv _ Hok) m Hm) as [[_ _ Hne _] _]. destruct (Hne Ho) as [_ Hin].
  unfold PFMultiplayerStartProcessingLobbyStateChanges, guarded, mp_ready, with_mp, get_mp, mbind, gets, mret.
  repeat (rewrite Hm'; simpl). rewrite Ho'. simpl. rewrite Hm'. simpl. rewrite Hf, Har. by case_bool_decide.
Qed.

(** ** Differences *)

Lemma dedup_NoDup l : NoDup l → dedup l = l.
Proof.
  induction 1 as [|x l Hx Hnd IH]; [done|]. cbn [dedup]. destruct l as [|y l]; [done|].
  rewrite bool_decide_false; [by rewrite IH|]. intros ->. apply Hx. left.
Qed.

Lemma elem_of_hash_order {A} (m : gmap string A) k x : (k, x) ∈ hash_order m ↔ m !! k = Some x.
Proof. rewrite hash_order_perm. apply elem_of_map_to_list. Qed.
Lemma NoDup_hash_keys {A} (m : gmap string A) : NoDup (hash_order m).*1.
Proof. rewrite hash_order_perm. apply NoDup_fst_map_to_list. Qed.

(** The two halves of the list: the keys of [after] with another value, and those it lacks. *)
Definition changed_in (before : Props) (f : string * string) : option string :=
  match before !! f.1 with
  | Some old => if bool_decide (old = f.2) then None else Some f.1
  | None => Some f.1
  end.
Lemma changed_in_Some before f k : changed_in before f = Some k ↔ f.1 = k ∧ before !! k ≠ Some f.2.
Proof.
  unfold changed_in. destruct (before !! f.1) as [old|] eqn:Hb; [case_bool_decide|];
    (split; [intros Hk; try discriminate Hk; injection Hk as <-; split; congruence
            |intros [<- Hk]; congruence]).
Qed.

Lemma changed_keys_perm before after :
  NoDup (omap (changed_in before) (hash_order after) ++ filter (λ k, after !! k = None) (hash_order before).*1) ∧
  ∀ k, k ∈ omap (changed_in before) (hash_order after) ++ filter (λ k, after !! k = None) (hash_order before).*1
       ↔ before !! k ≠ after !! k.
Proof.
  assert (H1 : ∀ k, k ∈ omap (changed_in before) (hash_order after) ↔
                    ∃ v, after !! k = Some v ∧ before !! k ≠ Some v).
  { intros k. rewrite list_elem_of_omap. split.
    - intros ([k' v] & Hin & [<- Hb]%changed_in_Some). apply elem_of_hash_order in Hin. eauto.
    - intros (v & Hv & Hb). exists (k, v). by rewrite elem_of_hash_order, changed_in_Some. }
  assert (H2 : ∀ k, k ∈ filter (λ k, after !! k = None) (hash_order before).*1 ↔
                    after !! k = None ∧ is_Some (before !! k)).
  { intros k. rewrite list_elem_of_filter, list_elem_of_fmap. split.
    - intros (Ha & [k' v] & -> & Hin%elem_of_hash_order). eauto.
    - intros (Ha & v & Hv). split; [done|]. exists (k, v). by rewrite elem_of_hash_order. }
  split.
  - apply NoDup_app. split; [|split; [|apply NoDup_filter, NoDup_hash_keys]].
    + eapply NoDup_omap_keys; [|apply NoDup_hash_keys]. by intros f k [? _]%changed_in_Some.
    + intros k (v & Hv & _)%H1 [Hn _]%H2. congruence.
  - intros k. rewrite elem_of_app, H1, H2.
    split; [intros [(v & -> & Hb)|[-> [v ->]]]; done|]. intros Hne.
    destruct (after !! k) as [v|]; [left; by exists v|right]. destruct (before !! k); [by eauto|done].
Qed.

Lemma changed_keys_spec before after :
  Sorted (λ x y, String.compare x y = Lt) (changed_keys before after) ∧
  ∀ k, k ∈ changed_keys before after ↔ before !! k ≠ after !! k.
Proof.
  destruct (changed_keys_perm before after) as [Hnd Hel].
  set (keys := omap (changed_in before) (hash_order after) ++ _) in *.
  change (changed_keys before after) with (dedup (sort_by String.compare keys)). rewrite <- (sort_by_perm String.compare keys) in Hnd.
  rewrite dedup_NoDup by done. split.
  - assert (Hs : Sorted (λ x y, String.compare x y ≠ Gt) (sort_by String.compare keys)).
    { apply sort_by_Sorted. intros x y Hxy. by rewrite String.compare_antisym, Hxy. }
    revert Hs. generalize dependent (sort_by String.compare keys). clear. intros l Hnd Hs.
    induction Hs as [|x l Hs IH Hh]; [constructor|]. apply NoDup_cons in Hnd as [Hx Hnd].
    constructor; [by apply IH|]. destruct Hh as [|y l Hxy]; constructor.
    destruct (String.compare x y) eqn:Hc; [|done..].
    apply String.compare_eq_iff in Hc as ->. destruct Hx. left.
  - intros k. by rewrite <- Hel, sort_by_perm.
Qed.

Lemma changed_keys_nil before after : changed_keys before after = [] ↔ before = after.
Proof.
  destruct (changed_keys_spec before after) as [_ Hel]. split.
  - intros Hn. apply map_eq. intros k. destruct (decide (before !! k = after !! k)) as [|Hk]; [done|].
    apply Hel in Hk. rewrite Hn in Hk. by apply elem_of_nil in Hk.
  - intros ->. destruct (changed_keys after after) as [|k ks]; [done|].
    destruct (proj1 (Hel k)); [by left|done].
Qed.

(** A member's bag is reported when it is not what it was. *)
Lemma diff_member_spec l l' eid bag u :
  diff_member (snapshot l) l' (eid, bag) = Some u ↔
  l_member_props l !! eid ≠ Some bag ∧
  u = mkMemberUpdate (member_key (l_members l') eid) (bool_decide (l_member_props l !! eid = None))
        (changed_keys (default ∅ (l_member_props l !! eid)) bag).
Proof.
  unfold diff_member. simpl. destruct (l_member_props l !! eid) as [old|] eqn:Ho; simpl.
  - case_bool_decide as Hk; simpl.
    + apply changed_keys_nil in Hk as ->. split; [done|]. by intros [? _].
    + split; [|by intros [_ ->]]. intros [= <-]. split; [|done]. intros [= ->]. by apply Hk, changed_keys_nil.
  - split; [by intros [= <-]|by intros [_ ->]].
Qed.

(** C30: An Updated reports the difference, all of it and nothing else: the flags that changed; the
    search and lobby keys whose value was added, changed or removed, each once and in the order of
    their bytes; the members whose bag is new or not what it was, with their keys. It is empty
    exactly when none of this happened. *)
Theorem diff_exact l l' :
  let d := diff_lobby (snapshot l) l' in
  (d_max d = true ↔ l_max l ≠ l_max l') ∧ (d_access d = true ↔ l_access l ≠ l_access l') ∧
  (d_lock d = true ↔ l_lock l ≠ l_lock l') ∧
  (d_owner d = true ↔ l_has_owner l ≠ l_has_owner l' ∨ entity_eq (l_owner l) (l_owner l') = false) ∧
  (Sorted (λ x y, String.compare x y = Lt) (d_search_keys d) ∧
   ∀ k, k ∈ d_search_keys d ↔ l_search l !! k ≠ l_search l' !! k) ∧
  (Sorted (λ x y, String.compare x y = Lt) (d_lobby_keys d) ∧
   ∀ k, k ∈ d_lobby_keys d ↔ l_props l !! k ≠ l_props l' !! k) ∧
  (∀ u, u ∈ d_members d ↔ ∃ eid bag,
     l_member_props l' !! eid = Some bag ∧ l_member_props l !! eid ≠ Some bag ∧
     u = mkMemberUpdate (member_key (l_members l') eid) (bool_decide (l_member_props l !! eid = None))
           (changed_keys (default ∅ (l_member_props l !! eid)) bag)) ∧
  (delta_empty d = true ↔
     d_max d = false ∧ d_access d = false ∧ d_lock d = false ∧ d_owner d = false ∧
     l_search l = l_search l' ∧ l_props l = l_props l' ∧
     ∀ eid bag, l_member_props l' !! eid = Some bag → l_member_props l !! eid = Some bag).
Proof.
  intros d.
  assert (Hm : ∀ u, u ∈ d_members d ↔ ∃ eid bag,
     l_member_props l' !! eid = Some bag ∧ l_member_props l !! eid ≠ Some bag ∧
     u = mkMemberUpdate (member_key (l_members l') eid) (bool_decide (l_member_props l !! eid = None))
           (changed_keys (default ∅ (l_member_props l !! eid)) bag)).
  { intros u. unfold d. simpl. rewrite list_elem_of_omap. split.
    - intros ([eid bag] & Hin%elem_of_hash_order & Hu%diff_member_spec). by exists eid, bag.
    - intros (eid & bag & Hb & Hu). exists (eid, bag). by rewrite elem_of_hash_order, diff_member_spec. }
  assert (Hneq : ∀ x y, negb (x =? y) = true ↔ x ≠ y).
  { intros x y. by rewrite negb_true_iff, Z.eqb_neq. }
  split; [apply Hneq|]. split; [apply Hneq|]. split; [apply Hneq|]. split.
  { simpl. rewrite orb_true_iff, !negb_true_iff. by rewrite eqb_false_iff. }
  split; [apply changed_keys_spec|]. split; [apply changed_keys_spec|]. split; [exact Hm|].
  unfold delta_empty. rewrite !andb_true_iff, !negb_true_iff, !bool_decide_eq_true.
  change (d_search_keys d) with (changed_keys (l_search l) (l_search l')).
  change (d_lobby_keys d) with (changed_keys (l_props l) (l_props l')).
  rewrite !changed_keys_nil. assert (Hnil : (match d_members d with [] => true | _ => false end) = true ↔
    ∀ eid bag, l_member_props l' !! eid = Some bag → l_member_props l !! eid = Some bag).
  { split.
    - intros Hn eid bag Hb. destruct (decide (l_member_props l !! eid = Some bag)) as [|Hne]; [done|].
      destruct (d_members d) eqn:Hd; [|done]. exfalso. eapply elem_of_nil, Hm; eauto.
    - intros Hall. destruct (d_members d) as [|u us]; [done|].
      destruct (proj1 (Hm u)) as (eid & bag & Hb & Hne & _); [left|]. by destruct Hne; apply Hall. }
  rewrite Hnil. tauto.
Qed.

(** ** Member properties and refreshes *)

Definition filled_keys : list string :=
  ["member_platform"; "member_platform_account_id"; "member_platform_user_name"].

Lemma numeric_nul s : numeric s = true → x00 ∉ sbytes s.
Proof.
  intros [_ Hd]%andb_true_iff Hin. rewrite forallb_forall in Hd. by apply list_elem_of_In, Hd in Hin.
Qed.

Lemma numeric_fmt_dec n : 0 <= n → numeric (fmt_dec n) = true.
Proof.
  intros Hn. destruct (fmt_dec_digits n Hn) as (Hne & Hd & _). apply andb_true_iff. split.
  - apply negb_true_iff, bool_decide_eq_false. by intros He; rewrite He in Hne.
  - apply forallb_forall. intros b Hb%list_elem_of_In. by apply (proj1 (Forall_forall _ _) Hd).
Qed.

Lemma numeric_account eid : numeric (decimal_account_id eid) = true.
Proof.
  unfold decimal_account_id. destruct (numeric eid) eqn:Hn; [done|]. apply numeric_fmt_dec.
  set (n := fold_left _ _ _). destruct (n =? 0); [done|]. subst n.
  assert (Hf : ∀ l n, 0 <= n → 0 <= fold_left (λ n b, (Z.lxor n (bz b) * 16777619) mod U64) l n).
  { induction l as [|b l IH]; intros n Hn'; simpl; [done|]. by apply IH, Z.mod_pos_bound. }
  by apply Hf.
Qed.

(** What a bag's three fields become. *)
Definition filled_platform (mp : Props) : string :=
  let p := default "" (mp !! "member_platform") in
  if bool_decide (p = "") || bool_decide (p = "1") then "Steam" else p.
Definition filled_account (mp : Props) (eid : string) : string :=
  match mp !! "member_platform_account_id" with
  | Some s => if numeric s then s else decimal_account_id eid
  | None => decimal_account_id eid
  end.

Lemma filled_account_spec mp eid :
  numeric (filled_account mp eid) = true ∧
  (mp !! "member_platform_account_id" = Some (filled_account mp eid) ∨
   filled_account mp eid = decimal_account_id eid).
Proof.
  unfold filled_account. destruct (mp !! "member_platform_account_id") as [s|];
    [destruct (numeric s) eqn:Hs|]; auto using numeric_account.
Qed.

Lemma filled_account_nul mp eid : x00 ∉ sbytes (filled_account mp eid).
Proof. apply numeric_nul, filled_account_spec. Qed.

Lemma ensure_unfold mp eid :
  ensure_member_props mp eid =
  <["member_platform_user_name" := default "LAN" (mp !! "member_platform_user_name")]>
    (<["member_platform_account_id" := filled_account mp eid]>
       (<["member_platform" := filled_platform mp]> mp)).
Proof.
  assert (Hp : (let plat := default "" (mp !! "member_platform") in
                if bool_decide (plat = "") || bool_decide (plat = "1")
                then <["member_platform" := "Steam"]> mp else mp) = <["member_platform" := filled_platform mp]> mp).
  { unfold filled_platform. cbv zeta. destruct (mp !! "member_platform") as [p|] eqn:Hm; [|done].
    cbn [default]. destruct (_ || _); [done|]. unfold Props. by rewrite insert_id. }
  unfold ensure_member_props. cbv zeta in *. rewrite Hp. clear Hp. unfold Props in *.
  set (mp1 := <["member_platform" := filled_platform mp]> mp).
  assert (Ha : mp1 !! "member_platform_account_id" = mp !! "member_platform_account_id") by by apply lookup_insert_ne.
  rewrite Ha.
  set (account := default _ _). assert (account = filled_account mp eid) as ->.
  { unfold account, filled_account, Props. destruct (mp !! "member_platform_account_id") as [s|].
    - destruct (numeric s); [done|]. unfold decimal_account_id. by destruct (numeric eid).
    - unfold decimal_account_id. by destruct (numeric eid). }
  rewrite bool_decide_false by apply filled_account_nul.
  rewrite lookup_insert_ne by done. unfold mp1 at 1. rewrite lookup_insert_ne by done.
  destruct (mp !! "member_platform_user_name") as [u|] eqn:Hu; [|done]. simpl.
  rewrite (insert_id _ _ u); [done|]. rewrite lookup_insert_ne by done. unfold mp1. by rewrite lookup_insert_ne.
Qed.

Lemma ensure_lookup mp eid :
  ensure_member_props mp eid !! "member_platform" = Some (filled_platform mp) ∧
  ensure_member_props mp eid !! "member_platform_account_id" = Some (filled_account mp eid) ∧
  ensure_member_props mp eid !! "member_platform_user_name" =
    Some (default "LAN" (mp !! "member_platform_user_name")) ∧
  ∀ k, k ∉ filled_keys → ensure_member_props mp eid !! k = mp !! k.
Proof.
  rewrite ensure_unfold. unfold Props, filled_keys. split_and!.
  - rewrite 2!lookup_insert_ne by done. by rewrite lookup_insert_eq.
  - rewrite lookup_insert_ne by done. by rewrite lookup_insert_eq.
  - by rewrite lookup_insert_eq.
  - intros k Hk. rewrite !not_elem_of_cons in Hk. destruct Hk as (H1 & H2 & H3 & _).
    by rewrite !lookup_insert_ne.
Qed.

Lemma ensure_idemp mp eid :
  ensure_member_props (ensure_member_props mp eid) eid = ensure_member_props mp eid.
Proof.
  destruct (ensure_lookup mp eid) as (Hp & Ha & Hu & _).
  rewrite (ensure_unfold (ensure_member_props mp eid)). unfold Props in *.
  assert (filled_platform (ensure_member_props mp eid) = filled_platform mp) as ->.
  { unfold filled_platform at 1. unfold Props in *. rewrite Hp. unfold filled_platform, Props. cbv zeta.
    set (p := default "" (mp !! "member_platform")). cbn [from_option id].
    destruct (bool_decide (p = "") || bool_decide (p = "1")) eqn:Hb; [done|by rewrite Hb]. }
  assert (filled_account (ensure_member_props mp eid) eid = filled_account mp eid) as ->.
  { unfold filled_account at 1. unfold Props in *. rewrite Ha.
    destruct (numeric (filled_account mp eid)) eqn:Hn; [done|]. unfold filled_account, Props in *.
    destruct (mp !! "member_platform_account_id") as [s|]; [|done].
    destruct (numeric s) eqn:Hs; [congruence|done]. }
  rewrite Hu. simpl. rewrite (insert_id _ "member_platform" _ Hp), (insert_id _ _ _ Ha). by rewrite insert_id.
Qed.

(** A member's bag the shim keeps is always complete: the platform is set and not the exe's
    placeholder, the account identifier is a decimal number, the user name is there; values that
    meet this stay, and so does everything else. Completing a bag twice is completing it once. *)
Theorem member_props_complete mp eid :
  (∃ p, ensure_member_props mp eid !! "member_platform" = Some p ∧ p ≠ "" ∧ p ≠ "1") ∧
  (∃ a, ensure_member_props mp eid !! "member_platform_account_id" = Some a ∧ numeric a = true ∧
     (mp !! "member_platform_account_id" = Some a ∨ a = decimal_account_id eid)) ∧
  is_Some (ensure_member_props mp eid !! "member_platform_user_name") ∧
  (∀ p, mp !! "member_platform" = Some p → p ≠ "" → p ≠ "1" →
     ensure_member_props mp eid !! "member_platform" = Some p) ∧
  (∀ a, mp !! "member_platform_account_id" = Some a → numeric a = true →
     ensure_member_props mp eid !! "member_platform_account_id" = Some a) ∧
  (∀ k, k ∉ filled_keys → ensure_member_props mp eid !! k = mp !! k) ∧
  ensure_member_props (ensure_member_props mp eid) eid = ensure_member_props mp eid.
Proof.
  destruct (ensure_lookup mp eid) as (Hp & Ha & Hu & Hk). rewrite Hp, Ha, Hu.
  split_and!; [..|done|apply ensure_idemp].
  - eexists. split; [done|]. unfold filled_platform. destruct (_ || _) eqn:Hb; [done|].
    apply orb_false_iff in Hb as [?%bool_decide_eq_false ?%bool_decide_eq_false]. done.
  - eexists. split; [done|]. apply filled_account_spec.
  - by eexists.
  - intros p Hm H1 H2. unfold filled_platform. rewrite Hm. simpl. by rewrite !bool_decide_false.
  - intros a Hm Hn. unfold filled_account. by rewrite Hm, Hn.
Qed.

(** Merging bag by bag, in whatever order. *)
Lemma merge_fold_lookup (l : list (string * Props)) (fresh : gmap string Props) eid :
  NoDup l.*1 →
  foldl (λ acc f, <[f.1 := merge_member (acc !! f.1) f.1 f.2]> acc) fresh l !! eid =
  match find_map (λ f, if bool_decide (f.1 = eid) then Some f.2 else None) l with
  | Some mine => Some (merge_member (fresh !! eid) eid mine)
  | None => fresh !! eid
  end.
Proof.
  revert fresh. induction l as [|[k mine] l IH]; intros fresh Hnd; [done|].
  rewrite fmap_cons in Hnd. apply NoDup_cons in Hnd as [Hk Hnd]. simpl. rewrite IH by done.
  case_bool_decide as He; [subst k|by rewrite lookup_insert_ne].
  rewrite lookup_insert_eq. rewrite (proj2 (find_map_None _ l)); [done|].
  intros [k v] Hin. simpl. rewrite bool_decide_false; [done|]. intros ->. apply Hk.
  apply list_elem_of_fmap. by exists (eid, v).
Qed.

Lemma find_hash_order {A} (m : gmap string A) k :
  find_map (λ f, if bool_decide (f.1 = k) then Some f.2 else None) (hash_order m) = m !! k.
Proof.
  destruct (m !! k) as [x|] eqn:Hm.
  - eapply (find_map_unique _ _ (k, x)); [by apply elem_of_hash_order|by rewrite bool_decide_true|].
    intros [k' y] y' Hin%elem_of_hash_order. simpl. case_bool_decide; [subst k'|done]. intros [= <-]. congruence.
  - apply find_map_None. intros [k' y] Hin%elem_of_hash_order. simpl. rewrite bool_decide_false; [done|].
    intros ->. congruence.
Qed.

Lemma merge_members_lookup fresh mine eid :
  merge_members fresh mine !! eid =
  match fresh !! eid, mine !! eid with
  | None, None => None
  | f, m => Some (ensure_member_props (default ∅ f ∪ default ∅ m) eid)
  end.
Proof.
  unfold merge_members. rewrite map_lookup_imap, merge_fold_lookup by apply NoDup_hash_keys.
  rewrite find_hash_order. unfold merge_member.
  destruct (mine !! eid) as [m|], (fresh !! eid) as [f|]; simpl; rewrite ?ensure_idemp; try done.
  by rewrite (right_id_L ∅ (∪) (f : gmap string string)).
Qed.

(** C21: A refresh takes over the server's view. Owner, bounds, lock, access and the lobby's and the
    search bag become the server's; a member's bag has the server's values, and the local ones only
    where the server has none; the roster becomes the server's unless that is empty. The entities
    reported as departed are exactly those announced and no longer on the roster, each once; the
    change reported is the difference to the lobby as it was. Identity and bookkeeping stay. *)
Theorem refresh_exact lobby text fresh :
  lobby_from_json text = Some fresh →
  let l := refreshed lobby fresh in
  ∃ departed,
    apply_refresh lobby (Some (200, text)) = (l, (departed, false, diff_lobby (snapshot lobby) l)) ∧
    NoDup departed ∧ (∀ e, e ∈ departed ↔ e ∈ l_announced lobby ∧ e ∉ live_ids l) ∧
    l_id l = l_id lobby ∧ l_announced l = l_announced lobby ∧ l_lock_known l = l_lock_known lobby ∧
    l_pending l = l_pending lobby ∧ l_left l = l_left lobby ∧
    l_props l = l_props fresh ∧ l_search l = l_search fresh ∧ l_max l = l_max fresh ∧
    l_access l = l_access fresh ∧ l_lock l = l_lock fresh ∧
    l_owner l = l_owner fresh ∧ l_has_owner l = l_has_owner fresh ∧
    (if bool_decide (l_members fresh = []) && negb (bool_decide (l_members lobby = []))
     then l_members l = l_members lobby ∧ l_member_props l = l_member_props lobby
     else l_members l = l_members fresh ∧ ∀ eid,
       l_member_props l !! eid =
       match l_member_props fresh !! eid, l_member_props lobby !! eid with
       | None, None => None
       | f, m => Some (ensure_member_props (default ∅ f ∪ default ∅ m) eid)
       end).
Proof.
  intros Hf l. unfold apply_refresh. simpl. rewrite Hf. fold l. eexists. split; [reflexivity|].
  assert (Ha : l_announced l = l_announced lobby) by (unfold l, refreshed; by destruct (_ && _)).
  destruct (set_order_spec (l_announced l)) as [Hnd Hel]. rewrite Ha in *.
  split; [destruct (_ || _); [by apply NoDup_filter|constructor]|]. split.
  { intros e. destruct (_ || _) eqn:Hb.
    - rewrite list_elem_of_filter, Hel. tauto.
    - apply orb_false_iff in Hb as [_ Hb%negb_false_iff%bool_decide_eq_true]. rewrite Hb.
      split; [by intros ?%elem_of_nil|by intros [?%elem_of_empty _]]. }
  unfold l, refreshed. destruct (_ && _); split_and!; try done. intros eid. apply merge_members_lookup.
Qed.

(** ** The worker's queue *)

(** A computation that leaves the queue alone. *)
Definition noq {A} (m : MC A) : Prop :=
  ∀ w, match m w with Some (_, w') => w_queue w' = w_queue w | None => True end.

Lemma noq_ret {A} (x : A) : noq (mret x).
Proof. done. Qed.
Lemma noq_bind {A B} (m : MC A) (f : A → MC B) : noq m → (∀ x, noq (f x)) → noq (mbind m f).
Proof.
  intros Hm Hf w. unfold mbind. specialize (Hm w). destruct (m w) as [[x w1]|]; [|done].
  specialize (Hf x w1). destruct (f x w1) as [[y w2]|]; [congruence|done].
Qed.
Lemma noq_gets {A} (f : MpWorld → A) : noq (gets f).
Proof. done. Qed.
Lemma noq_undef {A} : noq (undef : MC A).
Proof. done. Qed.
Lemma noq_get_lobby p : noq (get_lobby p).
Proof. intros w. unfold get_lobby. by destruct (w_lobbies w !! p). Qed.
Lemma noq_get_mp : noq get_mp.
Proof. intros w. unfold get_mp. by destruct (w_mp w). Qed.
Lemma noq_observe {A} (f : nat → A) : noq (observe f).
Proof. done. Qed.
Lemma noq_put p l : noq (modify (put_lobby p l)).
Proof. done. Qed.
Lemma noq_for_each {A} (l : list A) f : (∀ x, noq (f x)) → noq (for_each l f).
Proof. intros Hf. induction l; [done|]. by apply noq_bind. Qed.
Lemma noq_mod_mp f : noq (mod_mp f).
Proof. apply noq_bind; [apply noq_get_mp|done]. Qed.
Lemma noq_queue c : noq (queue c).
Proof. apply noq_bind; [apply noq_mod_mp|done]. Qed.
Lemma noq_with_mp {A} (f : MC A) d : noq f → noq (with_mp f d).
Proof. intros Hf. apply noq_bind; [done|]. by intros []. Qed.

(** [noq]: by the shape of the computation. *)
Ltac noq :=
  repeat first
    [ match goal with H : _ |- _ => solve [apply H] end
    | apply noq_ret | apply noq_undef | apply noq_gets | apply noq_get_lobby | apply noq_get_mp
    | apply noq_put | apply noq_queue | apply noq_mod_mp | apply noq_with_mp
    | (apply noq_for_each; intros ?) | (apply noq_bind; [|intros ?])
    | progress cbv zeta
    | match goal with |- noq (match ?x with _ => _ end) => destruct x end
    ].

Lemma noq_emit_member_added p k : noq (emit_member_added p k).
Proof. unfold emit_member_added, mod_lobby. noq. Qed.
Lemma noq_announce p : noq (announce_lobby_members p).
Proof. pose proof noq_emit_member_added. unfold announce_lobby_members. noq. Qed.
Lemma noq_emit_updated p d b : noq (emit_updated p d b).
Proof. unfold emit_updated, mod_lobby. noq. Qed.
Lemma noq_emit_join p k : noq (emit_join_completed p k).
Proof.
  pose proof noq_emit_member_added. pose proof noq_announce. pose proof noq_emit_updated.
  unfold emit_join_completed, mod_lobby. noq.
Qed.
Lemma noq_poll_lobby p resp : noq (poll_lobby p resp).
Proof.
  pose proof noq_announce. pose proof noq_emit_updated.
  unfold poll_lobby, remove_member, untrack, mod_lobby. noq.
Qed.
Lemma noq_complete_join i : noq (complete_join i).
Proof. pose proof noq_emit_join. unfold complete_join. noq. Qed.
Lemma noq_ready_joins L : ∀ i, noq (ready_joins i L).
Proof. induction L as [|pj L IH]; intros i; cbn [ready_joins]; noq. Qed.
Lemma noq_service : noq service_pending_joins.
Proof. pose proof noq_ready_joins. pose proof noq_complete_join. unfold service_pending_joins. noq. Qed.
Lemma noq_poll_targets ps : noq (poll_targets ps).
Proof. induction ps; cbn [poll_targets]; noq. Qed.

Lemma noq_apply_outcome o : noq (apply_outcome o).
Proof.
  pose proof noq_emit_member_added. pose proof noq_emit_updated. pose proof noq_emit_join.
  destruct o; cbn [apply_outcome]; unfold of_generation, apply_create, fail_join, apply_join, apply_find,
    apply_post, untrack, mod_lobby; noq.
Qed.
Lemma noq_apply_poll p resp : noq (apply_poll p resp).
Proof. pose proof noq_poll_lobby. unfold apply_poll. noq. Qed.

Fixpoint turns (n : nat) : MC unit :=
  match n with O => mret tt | S n => worker_turn;; turns n end.

(** The turns to the end of what is queued and of the round that runs. *)
Definition left_to_do (w : MpWorld) : nat :=
  2 * length (w_queue w) +
  match w_worker w with
  | WIdle => 0
  | WApply _ => 1
  | WPolling ts => 2 * length ts + 1
  | WPolled _ _ ts => 2 * length ts + 2
  end.

Lemma noq_go {A} (m : MC A) (k : A → Worker) w w' :
  noq m → mbind m (λ x, go (k x)) w = Some (tt, w') →
  ∃ x w1, m w = Some (x, w1) ∧ w_queue w' = w_queue w ∧ w_worker w' = k x.
Proof.
  intros Hm. unfold mbind. specialize (Hm w). destruct (m w) as [[x w1]|]; [|done].
  intros [= <-]. by exists x, w1.
Qed.
Lemma noq_asks {A} (m : MC A) Q : asks m Q → noq m.
Proof.
  intros Hm w. specialize (Hm w). unfold wp in Hm. destruct (m w) as [[x w']|]; [|done].
  by destruct Hm as [_ (k & h & ->)].
Qed.

Lemma turn_progress w w' n :
  worker_turn w = Some (tt, w') → left_to_do w = S n → left_to_do w' = n.
Proof.
  unfold worker_turn. unfold mbind at 1, gets at 1. unfold left_to_do.
  destruct (w_worker w) as [|o|[|[p id] ts]|p resp ts] eqn:Hk.
  - unfold mbind at 1, gets at 1. destruct (w_queue w) as [|job rest]; [done|]. simpl length. intros Ht Hn.
    unfold mbind at 1, modify at 1 in Ht. apply noq_go in Ht as (o & w1 & _ & -> & ->); simpl; [lia|].
    eapply noq_asks, asks_run_requests.
  - intros (x & w1 & _ & -> & ->)%noq_go; [lia|apply noq_apply_outcome].
  - intros (x & w1 & _ & -> & ->)%noq_go; [simpl; lia|apply noq_with_mp, noq_service].
  - intros (x & w1 & _ & -> & ->)%noq_go; [simpl; lia|]. eapply noq_asks, asks_http.
  - intros (x & w1 & _ & -> & ->)%noq_go; [lia|apply noq_apply_poll].
Qed.

(** C32: The worker gets to the end of its work. From every world the runs lead to, whatever the
    broker answers, two turns for each queued job and what is left of the poll round bring it to
    where the queue is empty and it stands between jobs; no turn fails on the way. *)
Theorem worker_drains w :
  mp_reachable w →
  ∃ w', turns (left_to_do w) w = Some (tt, w') ∧ w_queue w' = [] ∧ w_worker w' = WIdle.
Proof.
  intros Hr%mp_reachable_ok. remember (left_to_do w) as n eqn:Hn. revert w Hr Hn.
  induction n as [|n IH]; intros w Hr Hn.
  - exists w. split; [done|]. unfold left_to_do in Hn. symmetry in Hn. apply Nat.eq_add_0 in Hn as [Hq Hk].
    destruct (w_queue w); [|done]. split; [done|]. destruct (w_worker w); [done|lia..].
  - cbn [turns]. pose proof (worker_turn_ok w Hr) as Ht. unfold safe, wp in Ht. unfold mbind.
    destruct (worker_turn w) as [[[] w1]|] eqn:Hw; [|done]. destruct Ht as [Hok _].
    apply IH; [done|]. symmetry. by eapply turn_progress.
Qed.

(** C31: A parked join is completed by the end of the poll round that finds its lobby with a network
    descriptor and an invitation: its JoinCompleted is queued. The joins whose lobby is not ready
    stay parked, in order. *)
Theorem ready_joins_complete w m :
  mp_reachable w → w_mp w = Some m → w_worker w = WPolling [] →
  ∃ w' m', worker_turn w = Some (tt, w') ∧ w_mp w' = Some m' ∧
    m_joins m' = filter (λ pj, join_ready w pj = false) (m_joins m) ∧
    ∀ pj, pj ∈ m_joins m → join_ready w pj = true →
      JoinCompleted 0 (ek_id (pd_joiner pj)) (pd_lobby pj) ∈ w_log w'.
Proof.
  intros Hr%mp_reachable_ok Hm Hk. destruct Hr as [Hi _ _]. rewrite Hk in Hi. unfold InvW in Hi.
  rewrite Hm in Hi. pose proof (good_service_pending_joins [] (m_joins m) w Hi) as Hg.
  unfold keeps, wp in Hg. unfold worker_turn, mbind at 1, gets at 1. rewrite Hk. unfold with_mp, mbind, gets. rewrite Hm.
  destruct (service_pending_joins w) as [[[] w1]|]; [|done]. destruct Hg as (Hi1 & _ & Hc).
  destruct (live_mp _ _ _ Hi1) as (m1 & Hm1 & HL). exists (w_set_worker WIdle w1), m1. done.
Qed.

(** ** Answers *)

Lemma bind_run {A B} (m : MC A) x w1 (k : A → MC B) w :
  m w = Some (x, w1) → mbind m k w = k x w1.
Proof. intros Hm. unfold mbind. by rewrite Hm. Qed.
Lemma bind_get_lobby {B} p l (k : Lobby → MC B) w : w_lobbies w !! p = Some l → mbind (get_lobby p) k w = k l w.
Proof. intros Hl. apply bind_run. unfold get_lobby. by rewrite Hl. Qed.
Lemma mod_lobby_run p l f w : w_lobbies w !! p = Some l → mod_lobby p f w = Some (tt, put_lobby p (f l) w).
Proof. intros Hl. unfold mod_lobby. by rewrite (bind_get_lobby _ l). Qed.
Lemma bind_mod_lobby {B} p l f (k : unit → MC B) w :
  w_lobbies w !! p = Some l → mbind (mod_lobby p f) k w = k tt (put_lobby p (f l) w).
Proof. intros Hl. by apply bind_run, mod_lobby_run. Qed.
Lemma mod_mp_run m f w : w_mp w = Some m → mod_mp f w = Some (tt, w_set_mp (Some (f m)) w).
Proof. intros Hm. unfold mod_mp, mbind, get_mp. by rewrite Hm. Qed.
Lemma queue_run c m w : w_mp w = Some m → queue c w = Some (tt, pushed c m (w_lobbies w) w).
Proof. intros Hm. unfold queue. by rewrite (bind_run _ _ _ _ _ (mod_mp_run m _ w Hm)). Qed.

(** The fields an announcement does not touch. *)
Definition same_view (l l' : Lobby) : Prop :=
  l_id l' = l_id l ∧ l_pending l' = l_pending l ∧ l_left l' = l_left l ∧ l_props l' = l_props l ∧
  l_search l' = l_search l ∧ l_owner l' = l_owner l.

Definition announcement (p : Z) (k : EntityKey) (l : Lobby) : list Change :=
  if bool_decide (ident k = "") || bool_decide (ident k = "owner") || bool_decide (ident k ∈ l_announced l)
  then [] else [MemberAdded p k].

Lemma emit_added_run p k l m w :
  w_lobbies w !! p = Some l → w_mp w = Some m →
  ∃ w' m' l', emit_member_added p k w = Some (tt, w') ∧ w_mp w' = Some m' ∧ w_lobbies w' !! p = Some l' ∧
    w_log w' = w_log w ++ announcement p k l ∧ same_view l l' ∧ m_lobbies m' = m_lobbies m.
Proof.
  intros Hl Hm. unfold emit_member_added, announcement. fold (ident k).
  destruct (bool_decide (ident k = "") || bool_decide (ident k = "owner")); simpl.
  { exists w, m, l. by rewrite app_nil_r. }
  rewrite (bind_get_lobby _ l) by done. case_bool_decide; [exists w, m, l; by rewrite app_nil_r|].
  rewrite (bind_mod_lobby _ l) by done. rewrite (queue_run _ m) by done.
  eexists _, _, _. split; [reflexivity|]. split; [reflexivity|]. split; [apply lookup_insert_eq|]. done.
Qed.

Lemma create_fails p l m code ctx w :
  w_mp w = Some m → w_lobbies w !! p = Some l → code ≠ 0 →
  ∃ w' m' l', (mod_lobby p (set_flags false true);; untrack p;; queue (CreateCompleted code ctx p)) w = Some (tt, w') ∧
    w_mp w' = Some m' ∧ w_lobbies w' !! p = Some l' ∧
    ∃ code, code ≠ 0 ∧ w_log w' = w_log w ++ [CreateCompleted code ctx p] ∧
    l_pending l' = false ∧ l_left l' = true ∧ p ∉ m_lobbies m'.
Proof.
  intros Hm Hl Hc. rewrite (bind_mod_lobby _ l) by done. unfold untrack.
  rewrite (bind_run _ _ _ _ _ (mod_mp_run m _ (put_lobby p (set_flags false true l) w) Hm)).
  eexists _, _, _. split; [by apply queue_run|]. split; [reflexivity|]. split; [apply lookup_insert_eq|].
  exists code. split_and!; try done. simpl. by intros [? _]%list_elem_of_filter.
Qed.

(** C33: What the broker's answer to a create does, when its instance is still the one that runs and
    the lobby was not left. An answer of 200 with a LobbyId gives the lobby its identity and its
    bags, ends its pending state, announces the owner once and queues CreateCompleted with 0;
    anything else marks the lobby as left, stops polling it and queues CreateCompleted with an
    error. Nothing else is queued. *)
Theorem create_answered w m l j status text :
  w_mp w = Some m → m_generation m = cj_generation j → w_lobbies w !! cj_lobby j = Some l →
  l_left l = false →
  ∃ w' m' l', apply_outcome (OCreate j status text) w = Some (tt, w') ∧ w_mp w' = Some m' ∧
    w_lobbies w' !! cj_lobby j = Some l' ∧
    match (if status =? 200 then json_str text "LobbyId" else None) with
    | Some id =>
        w_log w' = w_log w ++ announcement (cj_lobby j) (cj_owner j) l ++ [CreateCompleted 0 (cj_ctx j) (cj_lobby j)] ∧
        l_id l' = ctext id ∧ l_pending l' = false ∧ l_left l' = false ∧
        l_props l' = ensure_cstr_map (cj_lobby_data j) ∧ l_search l' = ensure_cstr_map (cj_search j) ∧
        l_owner l' = cj_owner j ∧ m_lobbies m' = m_lobbies m
    | None =>
        ∃ code, code ≠ 0 ∧ w_log w' = w_log w ++ [CreateCompleted code (cj_ctx j) (cj_lobby j)] ∧
        l_pending l' = false ∧ l_left l' = true ∧ cj_lobby j ∉ m_lobbies m'
    end.
Proof.
  intros Hm Hg Hl Hleft. cbn [apply_outcome].
  assert (Hgen : of_generation (cj_generation j) (apply_create j status text) w = apply_create j status text w).
  { unfold of_generation, with_mp, mbind, gets. rewrite Hm. unfold get_mp. rewrite Hm. simpl.
    by rewrite Hg, Z.eqb_refl. }
  rewrite Hgen. unfold apply_create. rewrite (bind_get_lobby _ l), Hleft by done.
  destruct (status =? 200) eqn:Hs; cbn [negb orb].
  - destruct (json_str text "LobbyId") as [id|] eqn:Hid.
    + change (bool_decide (is_Some (Some id))) with true. cbn [negb].
      rewrite (bind_mod_lobby _ l) by done. set (l1 := apply_create_response _ _ _ _ _ _).
      destruct (emit_added_run (cj_lobby j) (cj_owner j) l1 m (put_lobby (cj_lobby j) l1 w))
        as (w2 & m2 & l2 & He & Hm2 & Hl2 & Hlog & Hsame & Hlob); [by apply lookup_insert_eq|done|].
      rewrite (bind_run _ tt w2) by done. rewrite (queue_run _ m2) by done.
      eexists _, _, l2. split; [reflexivity|]. split; [reflexivity|]. split; [done|]. simpl.
      rewrite Hlog, app_assoc. simpl. split; [done|]. rewrite Hlob. destruct Hsame as (-> & -> & -> & -> & -> & ->).
      unfold l1, apply_create_response. rewrite Hid. done.
    + change (bool_decide (is_Some (@None string))) with false. cbn [negb]. by eapply create_fails.
  - eapply create_fails; [done..|]. apply broker_error_code_nonzero.
Qed.
End env.

(** ** At the demo run *)

Definition clean_logb (log : list Change) : bool :=
  forallb (λ c, match c with
                | MemberAdded _ k => bool_decide (ident (player_key (ident k)) = ident k)
                | _ => true
                end) log.
Lemma clean_logb_true log : clean_logb log = true → clean_log log.
Proof.
  unfold clean_logb. rewrite forallb_forall. intros Hl p k Hin%list_elem_of_In%Hl. by apply bool_decide_eq_true in Hin.
Qed.

Definition no_mp : Mp := mkMp None None 0 [] [] [] false [] 0 0 [].
Definition no_lobby : Lobby := new_placeholder demo_guest 0 0.
Definition after (c : MpCall) (w : MpWorld) : MpWorld := match exec c w with Some (_, w) => w | None => w end.

Definition demo_mp : Mp := default no_mp (w_mp demo_world).
Definition demo_l : Lobby := default no_lobby (w_lobbies demo_world !! 1).


Lemma join_announced_witness :
  ∃ d, (0 < 3)%nat ∧ w_log demo_world !! (3 - 1)%nat = Some (Updated 1 d) ∧ d_lock d = true.
Proof.
  apply (join_announced demo_world 3 (Some (sbytes "GUEST")) 1); [exact mp_demo_reachable|vm_compute; reflexivity].
Defined.

Lemma roster_exact_witness : l_announced demo_l = roster 1 (w_log demo_world).
Proof.
  apply (roster_exact demo_world 1 demo_l);
    [exact mp_demo_reachable|apply clean_logb_true; vm_compute; reflexivity|vm_compute; reflexivity].
Defined.

Lemma completed_once_witness : 3%nat = 3%nat.
Proof.
  apply (completed_once demo_world 3 3 (JoinCompleted 0 (Some (sbytes "GUEST")) 1)
           (JoinCompleted 0 (Some (sbytes "GUEST")) 1) 1); [exact mp_demo_reachable|vm_compute; reflexivity..].
Defined.

Definition demo_update : LobbyDelta :=
  match w_log demo_world !! 2%nat with Some (Updated _ d) => d | _ => no_delta end.
Lemma updates_say_something_witness : delta_empty demo_update = false.
Proof.
  destruct (updates_say_something demo_world 2 1 demo_update mp_demo_reachable) as [H _];
    [vm_compute; reflexivity|exact H].
Defined.

Lemma pump_exact_witness :
  drop (m_start demo_mp) (w_log demo_world) = concat (m_batches demo_mp) ++ m_pending demo_mp.
Proof.
  destruct (pump_exact demo_world demo_mp mp_demo_reachable) as [H _]; [vm_compute; reflexivity|exact H].
Defined.

Lemma batch_held_witness :
  PFMultiplayerStartProcessingLobbyStateChanges 1 false (after (CLeave 1) demo_world) =
    Some ((S_OK, Some (4096, m_in_flight demo_mp)), after (CLeave 1) demo_world).
Proof.
  apply (batch_held demo_world demo_mp (CLeave 1)); [exact mp_demo_reachable|vm_compute; reflexivity..| | |].
  - apply lobby_ptrb_true. vm_compute. reflexivity.
  - vm_compute. reflexivity.
  - vm_compute. reflexivity.
Defined.

(** A join and a search are queued. *)
Definition queued_world : MpWorld := default mp_world_init (mp_run
  [ CInitialize false; CJoinLobby 1 (Some demo_guest) (Some (sbytes "lan.L1")) None 77;
    CFindLobbies 1 (Some demo_guest) None 78 ] mp_world_init).
Lemma queued_reachable : mp_reachable queued_world.
Proof. apply mp_run_default. vm_compute. by eexists. Qed.

Lemma worker_drains_witness :
  ∃ w', turns 4 queued_world = Some (tt, w') ∧ w_queue w' = [] ∧ w_worker w' = WIdle.
Proof. apply (worker_drains queued_world queued_reachable). Defined.

(** The poll round has seen the network; the parked join is next. *)
Definition seen_world : MpWorld :=
  default mp_world_init (mp_run (demo_join ++ [CWorker; CWorker; CWorker]) mp_world_init).
Definition seen_mp : Mp := default no_mp (w_mp seen_world).
Lemma seen_reachable : mp_reachable seen_world.
Proof. apply mp_run_default. vm_compute. by eexists. Qed.

Lemma ready_joins_complete_witness :
  ∃ w' m', worker_turn seen_world = Some (tt, w') ∧ w_mp w' = Some m' ∧
    JoinCompleted 0 (Some (sbytes "GUEST")) 1 ∈ w_log w'.
Proof.
  destruct (ready_joins_complete seen_world seen_mp seen_reachable) as (w' & m' & Ht & Hm & _ & Hc);
    [vm_compute; reflexivity..|].
  exists w', m'. split; [exact Ht|]. split; [exact Hm|].
  specialize (Hc (mkPendingJoin 1 demo_guest 77 false)). apply Hc; [|vm_compute; reflexivity].
  assert (Hj : m_joins seen_mp = [mkPendingJoin 1 demo_guest 77 false]) by (vm_compute; reflexivity).
  rewrite Hj. left.
Defined.

(** The guest creates a lobby; the broker has answered. *)
Definition demo_create : list MpCall :=
  [CInitialize false; CCreateAndJoin 1 (Some demo_guest) None None 7].
Definition created_world : MpWorld := default mp_world_init (mp_run (demo_create ++ [CWorker]) mp_world_init).
Definition created_mp : Mp := default no_mp (w_mp created_world).
Definition created_l : Lobby := default no_lobby (w_lobbies created_world !! 1).
Definition created_job : CreateJob :=
  match w_worker created_world with
  | WApply (OCreate j _ _) => j
  | _ => mkCreateJob 0 "" demo_guest 0 0 0 ∅ ∅
  end.
Definition created_text : string := text_object [("LobbyId", "L1")].

Lemma create_answered_witness :
  ∃ w', apply_outcome (OCreate created_job 200 created_text) created_world = Some (tt, w') ∧
    last (w_log w') = Some (CreateCompleted 0 (cj_ctx created_job) (cj_lobby created_job)).
Proof.
  destruct (create_answered created_world created_mp created_l created_job 200 created_text)
    as (w' & m' & l' & He & _ & _ & H); [vm_compute; reflexivity..|].
  assert (Ht : json_str created_text "LobbyId" = Some "L1") by (vm_compute; reflexivity).
  cbn [Z.eqb Pos.eqb] in H. rewrite Ht in H. destruct H as [H _]. exists w'. split; [exact He|].
  rewrite H, app_assoc. apply last_snoc.
Defined.

Definition demo_text : string := demo_lobby demo_network ["HOST"; "GUEST"].
Definition demo_fresh : Lobby := default no_lobby (lobby_from_json demo_text).
Lemma refresh_exact_witness :
  ∃ departed, apply_refresh no_lobby (Some (200, demo_text)) =
    (refreshed no_lobby demo_fresh,
     (departed, false, diff_lobby (snapshot no_lobby) (refreshed no_lobby demo_fresh))).
Proof.
  destruct (refresh_exact no_lobby demo_text demo_fresh) as (departed & H & _);
    [vm_compute; reflexivity|exists departed; exact H].
Defined.

(** ** Where the code falls short *)

(** A title that creates a lobby whose network_id is 95 letters and an accented one cannot read the
    property back: the log line of [PFLobbyGetLobbyProperty] is cut inside a character. *)
Definition long_value : string := bstr (replicate 95 x61) +:+ "é".
Definition long_props : KvArgs :=
  mkKvArgs 1 (Some [Some (sbytes "network_id")]) (Some [Some (sbytes long_value)]).
Definition no_props : KvArgs := mkKvArgs 0 None None.
Definition long_world : MpWorld := default mp_world_init (mp_run
  [ CInitialize false;
    CCreateAndJoin 1 (Some demo_guest) (Some (mkCreateConfig 4 1 0 no_props long_props)) None 7 ] mp_world_init).
Theorem property_log_panics :
  utf8_valid (sbytes long_value) = true ∧
  l_props (default no_lobby (w_lobbies long_world !! 1)) !! "network_id" = Some long_value ∧
  PFLobbyGetLobbyProperty 1 (Some (sbytes "network_id")) false long_world = None.
Proof. vm_compute. done. Qed.

(** A lobby that disappears while its join is parked: the title is told Disconnected, the join stays
    parked, it is never polled again, and the lobby answers that it is still pending. *)
Definition gone_env : MpEnv := {|
  clock_at k := 1000 * Z.of_nat k;
  reply_at k req :=
    if contains_b (sbytes "/Lobby/GetLobby ") req && (2 <=? k)%nat
    then mkReply true true [sbytes "HTTP/1.1 404 Not Found" ++ CRLF ++ sbytes "Content-Length: 0" ++ CRLF ++ CRLF] Eof
    else reply_at (MpEnv := mp_demo_env) k req;
  array_at _ := 4096;
  mp_cfg := mp_cfg (MpEnv := mp_demo_env) |}.
Definition gone_world : MpWorld :=
  default mp_world_init (mp_run (E := gone_env) (demo_join ++ demo_poll ++ demo_poll) mp_world_init).
Theorem parked_join_stuck :
  w_log gone_world = [Disconnected 1] ∧
  m_joins (default no_mp (w_mp gone_world)) = [mkPendingJoin 1 demo_guest 77 false] ∧
  m_lobbies (default no_mp (w_mp gone_world)) = [] ∧
  PFLobbyGetLobbyId 1 false gone_world = Some ((E_PF_OBJECT_STILL_PENDING, None), gone_world).
Proof. vm_compute. done. Qed.

(** A lobby left before its create is answered: the leave names no lobby, so the broker keeps the
    one it made, and the create is never completed. *)
Definition left_world : MpWorld := default mp_world_init (mp_run
  (demo_create ++ [CLeave 1; CWorker; CWorker; CWorker; CWorker]) mp_world_init).
Theorem left_create_orphaned :
  w_log left_world = [LeaveCompleted 0] ∧ w_queue left_world = [] ∧ w_worker left_world = WIdle ∧
  match w_http left_world with
  | [create; leave] =>
      contains_b (sbytes "/Lobby/CreateAndJoinLobby ") create = true ∧
      contains_b (sbytes "/Lobby/LeaveLobby ") leave = true ∧
      contains_b (sbytes (text_field "LobbyId" "")) leave = true
  | _ => False
  end.
Proof. vm_compute. done. Qed.

(** An owner who is not a member is removed and added again by every poll round. *)
Theorem absent_owner_flaps :
  let w := default mp_world_init (mp_run demo_poll demo_world) in
  w_log w = take 4 (w_log demo_world) ++
    [MemberRemoved 1 (player_key "HOST"); MemberAdded 1 (player_key "HOST");
     MemberRemoved 1 (player_key "HOST"); MemberAdded 1 (player_key "HOST")].
Proof. vm_compute. done. Qed.
