(* ===== verification/LobbyWire.v ===== *)
(** * A lobby on its way from the broker to a shim

    What [MpJson.lobby_from_json] makes of the text the broker prints for a
    lobby, and the one way in which it can be misled. *)

From S2P Require Import Prelude RustStr F64 Value Json Http LobbyFilter App Playfab Server JsonDoc Wiring.
From S2P Require MpState MpJson.
#[local] Open Scope Z_scope.

(** Refutes a membership in a list of other names. *)
Ltac not_in H := repeat (apply elem_of_cons in H as [H|H]; [done|]); by apply elem_of_nil in H.

Ltac in_list := repeat first [apply elem_of_cons; left; reflexivity|apply elem_of_cons; right].

Section lobby.
Context `{SerdeJson} `{HashOrder} `{Crypto}.
#[local] Abbreviation JV := (Value Number).
#[local] Abbreviation JM := (gmap string (Value Number)).

(** The names the shim looks for in the text of a lobby. *)
Definition TOP : list string :=
  ["LobbyId"; "ConnectionString"; "Members"; "Owner"; "MaxPlayers"; "LobbyData"; "SearchData"; "MembershipLock"; "AccessPolicy"]%string.

(** A property bag as the title fills it: strings, not under those names nor [Id]; at most as many as
    the scanner keeps. *)
Definition plain (m : JM) : Prop :=
  (size m ≤ OBJECT_CAP)%nat ∧
  map_Forall (λ k v, (∃ s, v = VString s) ∧ k ≠ ""%string ∧ k ∉ "Id"%string :: TOP) m.

(** The key of an entity. *)
Definition entity_map (eid : string) (m : JM) : Prop :=
  m !! "Id"%string = Some (VString eid) ∧
  map_Forall (λ k v, (∃ s, v = VString s) ∧ k ∈ ["Id"; "Type"; "TypeString"]%string) m.

(** A member as clients are shown it. *)
Definition member_view (eid : string) (v : JV) : Prop :=
  ∃ ent data, v = jobj [("Id", VString eid); ("MemberEntity", VObject ent); ("MemberData", VObject data)]%string ∧
    entity_map eid ent ∧ plain data.

(** The strings of a bag. *)
Definition strings (m : JM) : gmap string string := omap as_str m.

(** [only k x v]: a search for [k] in a text printed for [v] finds nothing, or [x]. *)
Definition only (k : string) (x v : JV) : Prop := ∀ d, printed v d →
  match find_doc (sbytes k) d with Some d0 => printed x d0 | None => True end.

Lemma absent_only k x v : absent k v → only k x v.
Proof. intros Ha d Hp. by rewrite (Ha d Hp). Qed.

Lemma only_field k x k' v' f : printed_field (k', v') f → (k' = k → v' = x) → only k x v' →
  match find_field (sbytes k) f with Some d0 => printed x d0 | None => True end.
Proof.
  intros Hf He Ho. inversion Hf as [? ? raw d Ht Hd]; subst. cbn [find_field]. case_bool_decide as E.
  - rewrite (printed_core _ _ Hd). rewrite <- He; [done|]. by rewrite <- (bstr_sbytes k'), E, bstr_sbytes.
  - by apply Ho.
Qed.

Lemma only_object (m : JM) k x :
  (∀ k' v', m !! k' = Some v' → (k' = k → v' = x) ∧ only k x v') → only k x (VObject m).
Proof.
  intros Ho d Hp. inversion Hp as [| | | | |? kvs fs Hperm Hf]; subst. cbn [find_doc].
  destruct (find_map (find_field (sbytes k)) fs) as [d0|] eqn:E; [|done].
  apply find_map_Some in E as (f & Hin & E). apply list_elem_of_lookup in Hin as [i Hi].
  destruct (Forall2_lookup_r _ _ _ _ _ Hf Hi) as ([k' v'] & Hk & Hx).
  assert (Hm : m !! k' = Some v') by (apply elem_of_map_to_list; rewrite <- Hperm; by eapply list_elem_of_lookup_2).
  destruct (Ho k' v' Hm) as [H1' H2']. pose proof (only_field k x k' v' f Hx H1' H2') as Hr. by rewrite E in Hr.
Qed.

(** A field whose other occurrences, further down, agree with it. *)
Lemma find_agreed (m : JM) d k x : printed (VObject m) d → m !! k = Some x →
  (∀ k' v', m !! k' = Some v' → k' ≠ k → only k x v') →
  ∃ d0, printed x d0 ∧ find_doc (sbytes k) d = Some d0.
Proof.
  intros Hp Hk Ho. assert (Hn : find_doc (sbytes k) d ≠ None).
  { inversion Hp as [| | | | |? kvs fs Hperm Hf]; subst. cbn [find_doc]. rewrite find_map_None. intros Hall.
    assert (Hin : (k, x) ∈ kvs) by (rewrite Hperm; by apply elem_of_map_to_list).
    apply list_elem_of_lookup in Hin as [i Hi]. destruct (Forall2_lookup_l _ _ _ _ _ Hf Hi) as (f & Hfi & Hx).
    specialize (Hall f ltac:(by eapply list_elem_of_lookup_2)). inversion Hx; subst. cbn [find_field] in Hall.
    by rewrite bool_decide_true in Hall. }
  assert (Hox : ∀ k' v', m !! k' = Some v' → (k' = k → v' = x) ∧ (k' ≠ k → only k x v')).
  { intros k' v' Hk'. split; [|by apply Ho]. intros ->. congruence. }
  clear Ho. inversion Hp as [| | | | |? kvs fs Hperm Hf]; subst. cbn [find_doc] in *.
  destruct (find_map (find_field (sbytes k)) fs) as [d0|] eqn:E; [|done]. exists d0. split; [|done].
  apply find_map_Some in E as (f & Hin & E). apply list_elem_of_lookup in Hin as [i Hi].
  destruct (Forall2_lookup_r _ _ _ _ _ Hf Hi) as ([k' v'] & Hk' & Hx).
  assert (Hm : m !! k' = Some v') by (apply elem_of_map_to_list; rewrite <- Hperm; by eapply list_elem_of_lookup_2).
  destruct (Hox k' v' Hm) as [H1' H2']. inversion Hx as [? ? raw d Ht Hd]; subst. cbn [find_field] in E.
  case_bool_decide as Eb.
  - injection E as <-. rewrite (printed_core _ _ Hd), <- H1'; [done|]. by rewrite <- (bstr_sbytes k'), Eb, bstr_sbytes.
  - specialize (H2' ltac:(congruence) d Hd). by rewrite E in H2'.
Qed.

Lemma absent_array k l : Forall (absent k) l → absent k (VArray l).
Proof.
  intros Hl d Hp. inversion Hp as [| | | |? ds Hds|]; subst. cbn [find_doc]. apply find_map_None. intros x Hx.
  apply list_elem_of_lookup in Hx as [i Hi]. destruct (Forall2_lookup_r _ _ _ _ _ Hds Hi) as (v & Hv & Hpx).
  rewrite Forall_forall in Hl. apply (Hl v); [by eapply list_elem_of_lookup_2|done].
Qed.

Lemma absent_plain k m : plain m → k ∈ "Id"%string :: TOP → absent k (VObject m).
Proof.
  intros [_ Hm] Hk. apply absent_object.
  - destruct (m !! k) as [v|] eqn:E; [|done]. destruct (Hm k v E) as (_ & _ & Hn). done.
  - intros k' v' E. destruct (Hm k' v' E) as ([s ->] & _). by apply absent_leaf.
Qed.

Lemma absent_entity k eid m : entity_map eid m → k ∈ TOP → absent k (VObject m).
Proof.
  intros [_ Hm] Hk. apply absent_object.
  - destruct (m !! k) as [v|] eqn:E; [|done]. destruct (Hm k v E) as (_ & Hn). exfalso. revert Hk Hn. clear.
    intros Hk Hn. unfold TOP in Hk. repeat (apply elem_of_cons in Hn as [->|Hn]; [not_in Hk|]). by apply elem_of_nil in Hn.
  - intros k' v' E. destruct (Hm k' v' E) as ([s ->] & _). by apply absent_leaf.
Qed.

(** ** Bags *)

Lemma strings_insert k s m : strings (<[k := VString s]> m) = <[k := s]> (strings m).
Proof. unfold strings. by rewrite (omap_insert_Some as_str m k (VString s) s). Qed.

Lemma bag_fold kvs fs : Forall2 printed_field kvs fs → NoDup kvs.*1 →
  Forall (λ kv, (∃ s, kv.2 = VString s) ∧ kv.1 ≠ ""%string) kvs →
  ∀ out, (size out + length kvs ≤ OBJECT_CAP)%nat →
  fold_left obj_put fs out = strings (list_to_map kvs) ∪ out.
Proof.
  induction 1 as [|[k v] f kvs fs Hx _ IH]; intros Hnd Hs out Hsize; cbn [fold_left list_to_map foldr fst snd].
  - unfold strings. by rewrite omap_empty, (left_id_L ∅ (∪)).
  - cbn [fmap list_fmap] in Hnd. apply NoDup_cons in Hnd as [Hn Hnd]. inversion Hs as [|? ? [[s E] Hk] Hs']; subst. cbn [snd fst] in *. subst v.
    inversion Hx as [? ? raw d Ht Hd]; subst. inversion Hd as [| | |? raw' Ht' | |]; subst.
    assert (Ep : obj_put out (mkField [] raw (sbytes k) [] (DStr raw' (sbytes s))) = <[k := s]> out).
    { unfold obj_put, obj_value. cbn [f_value f_text core]. rewrite !bstr_sbytes.
      rewrite bool_decide_true by (intros E; apply Hk; by rewrite <- (bstr_sbytes k), E).
      cbn [length] in Hsize. rewrite (proj2 (Nat.ltb_lt _ _)) by lia. done. }
    rewrite Ep, IH; [|done|done|rewrite map_size_insert; cbn [length] in Hsize; destruct (out !! k); simpl; lia].
    change (list_to_map ((k, VString s) :: kvs)) with (<[k := VString s]> (list_to_map kvs : JM)).
    rewrite strings_insert, <- insert_union_l, insert_union_r; [done|].
    unfold strings. by rewrite lookup_omap, not_elem_of_list_to_map_1.
Qed.

(** [json_obj] of a bag reads all of it. *)
Lemma bag_read m d key d0 : wf d → printed (VObject m) d0 → find_doc key d = Some d0 → (size m ≤ OBJECT_CAP)%nat →
  map_Forall (λ k v, (∃ s, v = VString s) ∧ k ≠ ""%string) m →
  json_obj (bstr (render d)) (bstr key) = strings m.
Proof.
  intros Hd Hp E Hsize Hm. rewrite json_obj_doc by done. rewrite E. inversion Hp as [| | | | |? kvs fs Hperm Hf]; subst.
  assert (Hnd : NoDup kvs.*1) by (rewrite Hperm; apply NoDup_fst_map_to_list).
  rewrite (bag_fold kvs fs Hf Hnd).
  - rewrite (right_id_L ∅ (∪)). f_equal. rewrite (list_to_map_proper kvs (map_to_list m)) by done. apply list_to_map_to_list.
  - apply Forall_forall. intros [k v] Hin. rewrite Hperm in Hin. apply elem_of_map_to_list in Hin. apply (Hm k v Hin).
  - rewrite map_size_empty, Hperm. rewrite length_map_to_list. lia.
Qed.

Lemma entity_bag eid m : entity_map eid m → (size m ≤ OBJECT_CAP)%nat ∧ map_Forall (λ k v, (∃ s, v = VString s) ∧ k ≠ ""%string) m.
Proof.
  intros [_ Hm]. split.
  - rewrite <- size_dom. etrans; [apply (subseteq_size _ (list_to_set ["Id"; "Type"; "TypeString"]%string))|vm_compute; lia].
    intros k [v Hk]%elem_of_dom. apply elem_of_list_to_set. by destruct (Hm k v Hk).
  - intros k v Hk. destruct (Hm k v Hk) as [Hv Hin]. split; [done|]. intros ->. not_in Hin.
Qed.

(** ** The text of a lobby *)

Record shipped (L : App.Lobby) (oid : string) (ids : list string) : Prop := {
  sh_owner : ∃ om, l_owner L = VObject om ∧ entity_map oid om;
  sh_oid : oid ≠ ""%string;
  sh_data : plain (l_lobby_data L);
  sh_search : plain (l_search_data L);
  sh_members : Forall2 member_view ids (members_for_client L);
  sh_max : (MIN_PLAYERS <= l_max_players L <= MAX_PLAYERS_CEILING) ∧ (length ids ≤ ARRAY_CAP)%nat;
  sh_nul : (x00 ∉ sbytes (l_id L)) ∧ (x00 ∉ sbytes (l_connection L));
}.

Lemma absent_member k eid v : member_view eid v → k ∈ TOP → absent k v.
Proof.
  intros (ent & data & -> & He & Hd) Hk. apply absent_object.
  - destruct (_ !! k) as [x|] eqn:E; [|done]. apply jobj_elem in E. exfalso. unfold TOP in Hk.
    repeat (apply elem_of_cons in E as [[= -> _]|E]; [not_in Hk|]). by apply elem_of_nil in E.
  - each_field; [by apply absent_leaf|by eapply absent_entity|]. apply absent_plain; [done|by right].
Qed.

(** A field of the lobby, at the top of its text. *)
Lemma lobby_field L oid ids d k v : shipped L oid ids → printed (envelope (lobby_public L)) d → wf d → k ∈ TOP →
  vget (lobby_public L) k = Some v → ∃ d0, printed v d0 ∧ find_doc (sbytes k) d = Some d0 ∧ wf d0.
Proof.
  intros [[om [Eo Ho]] _ Hdata Hsearch Hmem _ _] Hp Hd Hk Hv.
  assert (Hall : ∀ k' v', vget (lobby_public L) k' = Some v' → absent k v' ∨ leaf v').
  { cbn [vget lobby_public jobj]. each_field; try (by right); left.
    - rewrite Eo. by eapply absent_entity.
    - apply absent_plain; [done|by right].
    - apply absent_plain; [done|by right].
    - apply absent_array, Forall_forall. intros m Hm. apply list_elem_of_lookup in Hm as [i Hi].
      destruct (Forall2_lookup_r _ _ _ _ _ Hmem Hi) as (eid & _ & Hview). by eapply absent_member. }
  assert (Hab : ∀ k' v', vget (lobby_public L) k' = Some v' → absent k v').
  { intros k' v' E. destruct (Hall k' v' E); [done|by apply absent_leaf]. }
  destruct (find_below _ d k "data" (lobby_public L) Hp) as (d1 & Hp1 & E1).
  - unfold TOP in Hk. repeat (apply elem_of_cons in Hk as [->|Hk]; [done|]). by apply elem_of_nil in Hk.
  - done.
  - each_field; intros Hne; first [done|by apply absent_leaf].
  - cbn [lobby_public jobj] in Hp1. destruct (find_own _ d1 k v Hp1 Hv) as (d0 & Hp0 & E0).
    + intros k' v' E _. by apply (Hab k').
    + exists d0. rewrite E1. split; [done|]. split; [done|]. eapply (find_doc_wf d); [done|]. by rewrite E1.
Qed.

(** A string or an integer of it, as the scanner reads it. *)
Lemma lobby_string L oid ids d k s : shipped L oid ids → printed (envelope (lobby_public L)) d → wf d → k ∈ TOP →
  vget (lobby_public L) k = Some (VString s) → Json.json_str (bstr (render d)) k = Some s.
Proof.
  intros Hs Hp Hd Hk Hv. destruct (lobby_field _ _ _ _ _ _ Hs Hp Hd Hk Hv) as (d0 & Hp0 & E & _).
  rewrite <- (bstr_sbytes k) at 1. rewrite json_str_doc, E by done. inversion Hp0; subst. by rewrite bstr_sbytes.
Qed.

Lemma member_id_read eid v d : member_view eid v → printed v d → wf d → MpJson.member_id_of (bstr (render d)) = Some eid.
Proof.
  intros (ent & data & -> & [He Hent] & Hdata) Hp Hd. unfold MpJson.member_id_of.
  destruct (find_agreed _ d "Id" (VString eid) Hp eq_refl) as (d0 & Hp0 & E).
  { each_field; intros Hne; [done| |].
    - apply only_object. intros k' v' Hk'. destruct (Hent k' v' Hk') as ([s ->] & _). split; [intros ->; congruence|].
      by apply absent_only, absent_leaf.
    - apply absent_only, absent_plain; [done|left]. }
  rewrite <- (bstr_sbytes "Id") at 1. rewrite json_str_doc, E by done. inversion Hp0; subst. by rewrite bstr_sbytes.
Qed.

Lemma roster_read ids rows ds : Forall2 member_view ids rows → Forall2 printed rows ds → Forall wf ds →
  ∀ acc, (foldl MpJson.read_member acc (map text_of ds)).1 = acc.1 ++ map MpState.player_key ids.
Proof.
  intros Hv. revert ds. induction Hv as [|eid v ids rows Hview _ IH]; intros ds Hp Hw acc;
    inversion Hp as [|? d ? ds' Hd Hds]; subst; cbn [map foldl]; [by rewrite app_nil_r|].
  inversion Hw as [|? ? Hwd Hw']; subst. rewrite (IH ds' Hds Hw'). unfold MpJson.read_member, text_of.
  rewrite (printed_core _ _ Hd), (member_id_read eid v d Hview Hd Hwd). cbn [fst]. by rewrite <- app_assoc.
Qed.

Section arrives.
Context (Hnum : ∀ z, 0 <= z < U64 → num_to_string (num_of_int z) = fmt_dec z).

End arrives.
End lobby.

(** ** A lobby on its way *)

#[local] Existing Instance printing_serde.

(** The key of an entity, and what [fill_member_data] makes of an empty bag. *)
Definition demo_entity (eid : string) : list (string * Value Number) := [("Id", VString eid)]%string.
Definition demo_bag (eid : string) : list (string * Value Number) :=
  [("member_platform", VString "Steam"); ("member_platform_account_id", VString (decimal_account_id eid));
   ("member_platform_user_name", VString "LAN")]%string.

(** The value of the second bag contains what looks like a field. *)
Definition demo_lobby : Lobby :=
  mkLobby "lan-1" "lan.lan-1" (jobj (demo_entity "ada")) 0 4
    (list_to_map (rev [("network_descriptor", VString "LAN1.aa"); ("quest", VString "7")]%string))
    (list_to_map (rev [("string_key1", VString (js "a','LobbyId':'b"))]%string)) "Public" "Unlocked"
    [member_obj "ada" (jobj (demo_entity "ada")) ∅; member_obj "bob" (jobj (demo_entity "bob")) ∅] (f64_of_Z 0).
Definition demo_lobbies : App := mkApp "T" 8080 8081 4 false ∅ {["lan-1"%string := demo_lobby]} ∅.
Definition demo_get : Value Number := jobj [("LobbyId", VString "lan-1")]%string.
Definition demo_bytes : list byte := send_http 200 "application/json" (get_lobby demo_lobbies demo_get).2.

Ltac plain_fields := each_field; (split; [by eexists|]; split; [done|]; let Hin := fresh in intros Hin; unfold TOP in Hin; not_in Hin).

Lemma demo_entity_map eid : entity_map eid (list_to_map (rev (demo_entity eid))).
Proof. split; [reflexivity|]. unfold demo_entity. each_field; (split; [by eexists|in_list]). Qed.

Lemma demo_bag_plain eid : plain (list_to_map (rev (demo_bag eid))).
Proof. split; [vm_compute; lia|]. unfold demo_bag. plain_fields. Qed.

Lemma demo_view eid :
  member_for_client (member_obj eid (jobj (demo_entity eid)) ∅) =
    jobj [("Id", VString eid); ("MemberEntity", jobj (demo_entity eid)); ("MemberData", jobj (demo_bag eid))]%string →
  member_view eid (member_for_client (member_obj eid (jobj (demo_entity eid)) ∅)).
Proof.
  intros ->. exists (list_to_map (rev (demo_entity eid))), (list_to_map (rev (demo_bag eid))).
  split; [reflexivity|]. split; [apply demo_entity_map|apply demo_bag_plain].
Qed.

Lemma demo_shipped : shipped demo_lobby "ada" ["ada"; "bob"]%string.
Proof.
  split.
  - exists (list_to_map (rev (demo_entity "ada"))). split; [reflexivity|apply demo_entity_map].
  - done.
  - split; [vm_compute; lia|]. plain_fields.
  - split; [vm_compute; lia|]. plain_fields.
  - repeat constructor; apply demo_view; vm_compute; reflexivity.
  - vm_compute. split; [split; discriminate|lia].
  - split; apply (bool_decide_eq_false_1 _); vm_compute; reflexivity.
Qed.


(** A property of the lobby that is called like one of the reply's own fields hides the field when the
    printer writes the bag first, as one that sorts the names does. *)
Theorem data_key_shadows_field :
  (λ l, (MpState.l_id l, MpState.l_members l)) <$> MpJson.lobby_from_json (js
    "{'code':200,'data':{'AccessPolicy':'Public','ConnectionString':'c','LobbyData':{'LobbyId':'x','Members':'y'},'LobbyId':'lan-1','MaxPlayers':4,'Members':[{'Id':'ada'}]},'status':'OK'}") =
  Some ("x"%string, []).
Proof. vm_compute. reflexivity. Qed.
