(* ===== verification/SteamAbi.v ===== *)
(** * Layouts and strings of the Steam shim: [steam-http-shim/src/abi.rs]

    The wide strings given to and read from Windows, and the bytes of the two
    Steam structures the shim builds, with the theorems that say what a reader
    of them finds. *)

From S2P Require Import Prelude RustStr.
#[local] Open Scope Z_scope.

(** ** UTF-16 *)

(** The code units of a code point, and of a text. *)
Definition utf16_units (c : Z) : list Z :=
  if c <? 0x10000 then [c]
  else [0xD800 + (c - 0x10000) / 1024; 0xDC00 + (c - 0x10000) mod 1024].
Definition encode_utf16 (s : string) : list Z :=
  concat (map (λ c, utf16_units (code_point c)) (chars (sbytes s))).

Definition is_high (u : Z) : bool := (0xD800 <=? u) && (u <=? 0xDBFF).
Definition is_low (u : Z) : bool := (0xDC00 <=? u) && (u <=? 0xDFFF).
Definition push_char (c : Z) : list byte := default replacement (char_from_u32 c).

(** [String::from_utf16_lossy]: an unpaired surrogate becomes U+FFFD. *)
Fixpoint decode_utf16 (l : list Z) : list byte :=
  match l with
  | [] => []
  | u :: r =>
      if is_high u then
        match r with
        | v :: r' =>
            if is_low v
            then push_char (0x10000 + (u - 0xD800) * 1024 + (v - 0xDC00)) ++ decode_utf16 r'
            else replacement ++ decode_utf16 r
        | [] => replacement
        end
      else if is_low u then replacement ++ decode_utf16 r
      else push_char u ++ decode_utf16 r
  end.
Definition from_utf16_lossy (l : list Z) : string := bstr (decode_utf16 l).

Definition to_wide (s : string) : list Z := encode_utf16 s ++ [0].

(** [None] is the null pointer; the scan for the terminator stops after [cap] elements. *)
Fixpoint scan_nul {A} (is_nul : A → bool) (cap : nat) (l : list A) : list A :=
  match cap, l with
  | S cap, x :: l => if is_nul x then [] else x :: scan_nul is_nul cap l
  | _, _ => []
  end.
Definition from_wide (p : option (list Z)) : string :=
  match p with None => ""%string | Some l => from_utf16_lossy (scan_nul (λ u, u =? 0) 512 l) end.
Definition from_c (p : option (list byte)) : string :=
  match p with None => ""%string | Some l => from_utf8_lossy (scan_nul (byte_eqb x00) 4096 l) end.

(** ** The structures *)

Definition pack_http_completed (handle context : Z) (ok : bool) (status body_len : Z) : list byte :=
  let p := replicate 32 x00 in
  let p := write_at 0 (to_le 4 handle) p in
  let p := write_at 8 (to_le 8 context) p in
  let p := write_at 16 [if ok then x01 else x00] p in
  let p := write_at 20 (to_le 4 status) p in
  write_at 24 (to_le 4 body_len) p.

Definition pack_webapi_ticket (handle : Z) (ticket : list byte) (max : nat) : list byte :=
  let n := (length ticket `min` max)%nat in
  let p := replicate (12 + max) x00 in
  let p := write_at 0 (to_le 4 handle) p in
  let p := write_at 4 (to_le 4 1) p in
  let p := write_at 8 (to_le 4 (Z.of_nat n mod U32)) p in
  write_at 12 (take n ticket) p.

(** ** A text survives UTF-16 *)

(** The code point of a character, by its length. *)
Inductive char_code : list byte → Z → Prop :=
  | code1 a : bz a < 128 → char_code [a] (bz a)
  | code2 a b : 194 <= bz a <= 223 → 128 <= bz b <= 191 →
      char_code [a; b] ((bz a - 192) * 64 + (bz b - 128))
  | code3 a b c cp : 224 <= bz a <= 239 → 128 <= bz b <= 191 → 128 <= bz c <= 191 →
      cp = (bz a - 224) * 4096 + (bz b - 128) * 64 + (bz c - 128) →
      2048 <= cp → cp < 55296 ∨ 57343 < cp → char_code [a; b; c] cp
  | code4 a b c d cp : 240 <= bz a <= 244 → 128 <= bz b <= 191 → 128 <= bz c <= 191 → 128 <= bz d <= 191 →
      cp = (bz a - 240) * 262144 + (bz b - 128) * 4096 + (bz c - 128) * 64 + (bz d - 128) →
      65536 <= cp <= 1114111 → char_code [a; b; c; d] cp.

Lemma is_char_code c : is_char c → char_code c (code_point c).
Proof.
  intros [Hne Hs]. unfold utf8_step, is_cont, byte_in in Hs.
  destruct c as [|b0 [|b1 [|b2 [|b3 [|b4 c]]]]]; [done|..]; cbn [length] in Hs;
    [| | | |exfalso; repeat (case_if_in Hs; simplify_eq)]; cbn [code_point map];
    rewrite ?(Z.land_ones _ 6), ?(Z.land_ones _ 5), ?(Z.land_ones _ 4), ?(Z.land_ones _ 3) by lia;
    pose proof (bz_range b0); repeat rewrite (lor_shiftl _ _ 6) by (try apply Z.mod_pos_bound; lia).
  - constructor. by repeat (case_if_in Hs; simplify_eq).
  - replace (bz b0 mod 2 ^ 5 * 2 ^ 6 + bz b1 mod 2 ^ 6)
      with ((bz b0 - 192) * 64 + (bz b1 - 128))
      by (repeat (case_if_in Hs; simplify_eq); Z.to_euclidean_division_equations; lia).
    constructor; repeat (case_if_in Hs; simplify_eq); lia.
  - rewrite lor_shiftl by (Z.to_euclidean_division_equations; lia).
    repeat (case_if_in Hs; simplify_eq); constructor; Z.to_euclidean_division_equations; lia.
  - rewrite (lor_shiftl _ _ 12) by (Z.to_euclidean_division_equations; lia).
    rewrite lor_shiftl by (Z.to_euclidean_division_equations; lia).
    repeat (case_if_in Hs; simplify_eq); constructor; Z.to_euclidean_division_equations; lia.
Qed.

Lemma zb_eq z b : z = bz b → zb z = b.
Proof. intros ->. apply zb_bz. Qed.

Lemma char_code_scalar c cp : char_code c cp → 0 <= cp <= 1114111 ∧ (cp < 55296 ∨ 57343 < cp).
Proof. destruct 1; try pose proof (bz_range a); lia. Qed.

Lemma char_from_code c cp : char_code c cp → char_from_u32 cp = Some c.
Proof.
  intros Hc. pose proof (char_code_scalar _ _ Hc) as [H0 Hs]. unfold char_from_u32.
  destruct (_ || _) eqn:Hx; [exfalso; bool_props; rewrite !orb_true_iff, andb_true_iff in Hx; lia|].
  f_equal. clear Hx. destruct Hc; repeat (case_if; [try lia|]); try lia;
    repeat f_equal; apply zb_eq; Z.to_euclidean_division_equations; lia.
Qed.

Lemma decode_units c cp l : char_code c cp → decode_utf16 (utf16_units cp ++ l) = c ++ decode_utf16 l.
Proof.
  intros Hc. pose proof (char_code_scalar _ _ Hc) as [H0 Hs]. pose proof (char_from_code _ _ Hc) as Hp.
  unfold utf16_units. case_if; cbn [app decode_utf16]; unfold is_high, is_low.
  - rewrite (proj2 (andb_false_iff _ _)) by (rewrite !Z.leb_gt; lia).
    rewrite (proj2 (andb_false_iff _ _)) by (rewrite !Z.leb_gt; lia).
    unfold push_char. by rewrite Hp.
  - rewrite (proj2 (andb_true_iff _ _)) by (rewrite !Z.leb_le; Z.to_euclidean_division_equations; lia).
    rewrite (proj2 (andb_true_iff _ _)) by (rewrite !Z.leb_le; Z.to_euclidean_division_equations; lia).
    replace (65536 + _ + _) with cp by (Z.to_euclidean_division_equations; lia).
    unfold push_char. by rewrite Hp.
Qed.

Lemma decode_encode s : utf8_valid (sbytes s) = true → from_utf16_lossy (encode_utf16 s) = s.
Proof.
  intros Hv. unfold from_utf16_lossy, encode_utf16.
  rewrite <- (bstr_sbytes s) at 2. f_equal. rewrite <- (concat_chars (sbytes s)) at 2.
  induction (chars_valid _ Hv) as [|c cs Hc _ IH]; [done|]. cbn [map concat].
  rewrite (decode_units c) by (by apply is_char_code). by rewrite IH.
Qed.

Lemma scan_nul_app {A} (is_nul : A → bool) cap l z k :
  Forall (λ x, is_nul x = false) l → is_nul z = true → (length l ≤ cap)%nat → scan_nul is_nul cap (l ++ z :: k) = l.
Proof.
  intros Hl Hz. revert cap. induction Hl as [|x l Hx Hl IH]; intros cap Hc; cbn [app scan_nul].
  - destruct cap; cbn [scan_nul]; [done|]. by rewrite Hz.
  - destruct cap; cbn [length] in Hc; [lia|]. cbn [scan_nul]. rewrite Hx. f_equal. apply IH. lia.
Qed.

Lemma units_nonzero c cp : char_code c cp → x00 ∉ c → Forall (λ u, (u =? 0) = false) (utf16_units cp).
Proof.
  intros Hc Hz. unfold utf16_units. case_if; repeat constructor; apply Z.eqb_neq;
    [|pose proof (Z.div_pos (cp - 0x10000) 1024 ltac:(lia)); lia|pose proof (Z.mod_pos_bound (cp - 0x10000) 1024 eq_refl); lia].
  destruct Hc; try lia. intros Ha. apply Hz. rewrite <- (zb_bz a), Ha. left.
Qed.

(** the wide strings the shim passes to Windows say the text they were made from: [from_wide]
    reads back any text without a NUL whose UTF-16 form has at most 512 units, whatever follows the
    terminator in memory. A lone surrogate, which no Rust text has, reads as U+FFFD. *)
Theorem wide_roundtrip s tail :
  utf8_valid (sbytes s) = true → x00 ∉ sbytes s → (length (encode_utf16 s) ≤ 512)%nat →
  from_wide (Some (to_wide s ++ tail)) = s.
Proof.
  intros Hv Hz Hn. unfold from_wide, to_wide. rewrite <- app_assoc. cbn [app].
  rewrite scan_nul_app; [by apply decode_encode| |done|done].
  unfold encode_utf16. clear Hn. rewrite <- (concat_chars (sbytes s)) in Hz.
  induction (chars_valid _ Hv) as [|c cs Hc _ IH]; [constructor|]. cbn [map concat] in *.
  rewrite elem_of_app in Hz. apply Forall_app. split; [|apply IH; tauto].
  apply (units_nonzero c); [by apply is_char_code|tauto].
Qed.

Lemma wide_roundtrip_witness :
  from_wide (Some (to_wide (bstr [x47; xc3; xa9; xf0; x9f; x98; x80]) ++ [65; 66])) =
    bstr [x47; xc3; xa9; xf0; x9f; x98; x80].
Proof.
  apply wide_roundtrip; [reflexivity| |apply Nat.leb_le; reflexivity].
  intros H. repeat (apply elem_of_cons in H as [H|H]; [discriminate|]). by apply elem_of_nil in H.
Defined.

(** ** The layouts *)

(** Read back the field [slice a n] of a chain of writes. *)
Ltac read_field :=
  repeat first
    [ rewrite slice_write_same by (rewrite ?length_write_at, ?length_replicate; repeat rewrite ?length_to_le, ?length_write_at, ?length_replicate; cbn [length]; lia)
    | rewrite slice_write_other by (repeat rewrite ?length_to_le, ?length_write_at, ?length_replicate; cbn [length]; lia) ].

(** the title reads out of a completed request exactly what the shim put in: the handle, the
    context, the success flag, the status and the body size are at their documented offsets of the
    32 bytes, and every other byte of the structure is zero. *)
Theorem http_completed_layout handle context ok status body_len :
  is_u32 handle → is_u64 context → is_u32 status → is_u32 body_len →
  let p := pack_http_completed handle context ok status body_len in
  length p = 32%nat ∧ from_le (slice 0 4 p) = handle ∧ from_le (slice 8 8 p) = context ∧
  from_le (slice 16 1 p) = (if ok then 1 else 0) ∧ from_le (slice 20 4 p) = status ∧
  from_le (slice 24 4 p) = body_len ∧
  slice 4 4 p = replicate 4 x00 ∧ slice 17 3 p = replicate 3 x00 ∧ slice 28 4 p = replicate 4 x00.
Proof.
  intros Hh Hc Hs Hb. cbn zeta. unfold pack_http_completed.
  split; [repeat rewrite length_write_at; rewrite ?length_replicate; repeat rewrite ?length_to_le, ?length_write_at, ?length_replicate; cbn [length]; lia|].
  read_field.
  rewrite !from_le_to_le_u32, from_le_u64 by done. destruct ok; by rewrite !slice_replicate by lia.
Qed.

Lemma http_completed_layout_witness :
  let p := pack_http_completed 7 0x1122334455667788 true 200 1024 in
  length p = 32%nat ∧ from_le (slice 0 4 p) = 7 ∧ from_le (slice 8 8 p) = 0x1122334455667788 ∧
  from_le (slice 16 1 p) = 1 ∧ from_le (slice 20 4 p) = 200 ∧ from_le (slice 24 4 p) = 1024 ∧
  slice 4 4 p = replicate 4 x00 ∧ slice 17 3 p = replicate 3 x00 ∧ slice 28 4 p = replicate 4 x00.
Proof. exact (http_completed_layout 7 0x1122334455667788 true 200 1024 ltac:(ulia) ltac:(ulia) ltac:(ulia) ltac:(ulia)). Defined.

(** a ticket is delivered whole when it fits: the handle, [k_EResultOK], the ticket's length and
    its bytes are at their documented offsets of a structure of [12 + max] bytes, and the rest of the
    array is zero; a longer ticket is cut at [max] bytes, and the length says so. *)
Theorem webapi_ticket_layout handle ticket max :
  is_u32 handle → Z.of_nat max < U32 →
  let p := pack_webapi_ticket handle ticket max in
  let n := (length ticket `min` max)%nat in
  length p = (12 + max)%nat ∧ from_le (slice 0 4 p) = handle ∧ from_le (slice 4 4 p) = 1 ∧
  from_le (slice 8 4 p) = Z.of_nat n ∧ slice 12 n p = take max ticket ∧
  slice (12 + n) (max - n) p = replicate (max - n) x00.
Proof.
  intros Hh Hm. cbn zeta. unfold pack_webapi_ticket. set (n := (length ticket `min` max)%nat).
  assert (Hn : length (take n ticket) = n) by (rewrite length_take; lia).
  split; [repeat rewrite length_write_at; rewrite ?length_replicate;
    repeat rewrite ?length_to_le, ?Hn, ?length_write_at, ?length_replicate; cbn [length]; lia|].
  repeat first
    [ rewrite slice_write_same by (rewrite ?Hn; repeat rewrite ?length_to_le, ?length_write_at, ?length_replicate; cbn [length]; lia)
    | rewrite slice_write_other by (rewrite ?Hn; repeat rewrite ?length_to_le, ?length_write_at, ?length_replicate; cbn [length]; lia) ].
  rewrite !from_le_to_le_u32 by ulia. rewrite Z.mod_small by ulia.
  rewrite slice_replicate by lia. repeat split; try done. unfold n. apply take_length_min.
Qed.

Lemma webapi_ticket_layout_witness :
  let p := pack_webapi_ticket 3 [x41; x42; x43] 2 in
  length p = 14%nat ∧ from_le (slice 0 4 p) = 3 ∧ from_le (slice 4 4 p) = 1 ∧
  from_le (slice 8 4 p) = 2 ∧ slice 12 2 p = [x41; x42] ∧ slice 14 0 p = [].
Proof. exact (webapi_ticket_layout 3 [x41; x42; x43] 2 ltac:(ulia) ltac:(ulia)). Defined.
