(* ===== verification/SteamHttp.v ===== *)
(** * The Steam shim: [steam-http-shim/src/lib.rs], its state and its operations

    The shim answers the title's [ISteamHTTP] calls itself, carries them to the
    broker over WinHTTP, and hands the results back when the title runs its
    callbacks.  The [World] holds the shim's statics, the title's callback
    objects, and logs of what was called.  Memory is as in [MpState]: a
    computation has no result where the code would follow a null or dangling
    pointer, or panic.

    The title is the function [title]: given a run of one of its callbacks in a
    world it says what the callback writes into the buffer and which of the
    shim's functions it calls.  A callback does not run the callbacks again.
    WinHTTP, the emulator's functions that were hooked, and the iteration order
    of the map of calls are the other fields of [SteamEnv].  Exports that only
    read return the code and what they write. *)

From S2P Require Import Prelude RustStr SteamAbi LanCfg Pe Comp.
#[local] Open Scope string_scope.
#[local] Open Scope list_scope.
#[local] Open Scope Z_scope.
#[local] Open Scope comp_scope.

(** ** Constants *)

Definition WINHTTP_FLAG_SECURE : Z := 0x00800000.
Definition INTERNET_SCHEME_HTTPS : Z := 2.
Definition SECURITY_FLAGS : Z :=
  Z.lor (Z.lor (Z.lor 0x00000100 0x00000200) 0x00001000) 0x00002000.
Definition HTTP_CALLBACK_COMPLETED : Z := 2101.
Definition CB_STEAM_SERVERS_CONNECTED : Z := 101.
Definition CB_TICKET_FOR_WEBAPI : Z := 168.
Definition WEBAPI_TICKET_MAX : nat := Z.to_nat 2560.

(** ** Data *)

Record Request := mkRequest {
  q_method : Z;
  q_url : string;
  q_headers : list (string * string);
  q_body : list byte;
  q_context : Z;
  q_status : Z;
  q_response : list byte;
  q_ok : bool;
}.

Record Call := mkCall { c_request : Z; c_failed : bool }.

Record State := mkState {
  requests : gmap Z Request;
  calls : gmap Z Call;
  call_results : gmap Z Z;
  dispatched : gset Z;
  callbacks : list (Z * Z);
  pending_webapi : list Z;
  fired_connected : gset Z;
}.

Definition state_init : State := mkState ∅ ∅ ∅ ∅ [] [] ∅.

Definition set_context_q (v : Z) (r : Request) : Request :=
  mkRequest (q_method r) (q_url r) (q_headers r) (q_body r) v (q_status r) (q_response r) (q_ok r).
Definition add_header (n v : string) (r : Request) : Request :=
  mkRequest (q_method r) (q_url r) (q_headers r ++ [(n, v)]) (q_body r) (q_context r) (q_status r) (q_response r) (q_ok r).
Definition set_body (b : list byte) (r : Request) : Request :=
  mkRequest (q_method r) (q_url r) (q_headers r) b (q_context r) (q_status r) (q_response r) (q_ok r).
Definition set_result (status : Z) (response : list byte) (ok : bool) (r : Request) : Request :=
  mkRequest (q_method r) (q_url r) (q_headers r) (q_body r) (q_context r) status response ok.

Definition set_requests (m : gmap Z Request) (s : State) : State :=
  mkState m (calls s) (call_results s) (dispatched s) (callbacks s) (pending_webapi s) (fired_connected s).
Definition set_calls (m : gmap Z Call) (s : State) : State :=
  mkState (requests s) m (call_results s) (dispatched s) (callbacks s) (pending_webapi s) (fired_connected s).
Definition set_call_results (m : gmap Z Z) (s : State) : State :=
  mkState (requests s) (calls s) m (dispatched s) (callbacks s) (pending_webapi s) (fired_connected s).
Definition set_dispatched (d : gset Z) (s : State) : State :=
  mkState (requests s) (calls s) (call_results s) d (callbacks s) (pending_webapi s) (fired_connected s).
Definition set_callbacks (l : list (Z * Z)) (fired : gset Z) (s : State) : State :=
  mkState (requests s) (calls s) (call_results s) (dispatched s) l (pending_webapi s) fired.
Definition set_pending (l : list Z) (s : State) : State :=
  mkState (requests s) (calls s) (call_results s) (dispatched s) (callbacks s) l (fired_connected s).

(** A callback object of the title: the slots of its vtable, or [None] for a null vtable pointer.
    A slot is null or a function, of which the first bytes of its code are known. *)
Definition CbObj : Type := option (list (option (list byte))).

(** One run of a callback: the object, the slot called, the buffer, and for a call result the
    failure flag and the call. *)
Record Run := mkRun {
  r_obj : Z;
  r_slot : nat;
  r_data : list byte;
  r_call : option (Z * Z);
}.

(** ** WinHTTP *)

(** What an exchange meets: which calls succeed, the parts of the url, the status left by the query
    (0 when it fails), and what each read returns until one fails. *)
Record Cracked := mkCracked {
  u_https : Z;
  u_port : Z;
  u_host : list Z;
  u_path : list Z;
  u_extra : list Z;
}.
Record HttpAnswer := mkAnswer {
  ha_session : bool;
  ha_url : option Cracked;
  ha_connect : bool;
  ha_request : bool;
  ha_send : bool;
  ha_receive : bool;
  ha_status : Z;
  ha_chunks : list (list byte);
}.

Inductive WHandle := HSession | HConnect | HRequest.

Inductive WinOp :=
  | WOpen (ok : bool)
  | WCrackUrl (url : list Z)
  | WConnect (host : list Z) (port : Z) (ok : bool)
  | WOpenRequest (verb path : list Z) (flags : Z) (ok : bool)
  | WSetSecurity (flags : Z)
  | WAddHeader (line : list Z) (len : Z)
  | WSendRequest (body : list byte) (len : Z)
  | WReceiveResponse
  | WQueryStatus
  | WReadData
  | WClose (h : WHandle).

(** ** The hooked functions *)

Inductive Orig :=
  | OrUtils | OrRun | OrRegCall | OrUnregCall | OrRegCb | OrUnregCb | OrWebApi | OrSvcCfg
  | OrConnect | OrSend | OrOpen.

#[export] Instance Orig_eq_dec : EqDecision Orig.
Proof. solve_decision. Defined.

Inductive OrigCall :=
  | ORunCallbacks
  | ORegCall (cb call : Z)
  | OUnregCall (cb call : Z)
  | ORegCb (cb i_callback : Z)
  | OUnregCb (cb : Z)
  | OWebApi (identity : option (list byte))
  | OSvcCfg (endpoint : list byte) (title : option (list byte))
  | OConnect (session : Z) (host : list Z) (port reserved : Z)
  | OOpenRequest (connect verb object version referrer accept flags : Z)
  | OSendRequest (request headers hlen optional olen total context : Z)
  | OIsCompleted (call : Z)
  | OGetResult (call cub expected : Z).

Definition orig_of (c : OrigCall) : Orig :=
  match c with
  | ORunCallbacks => OrRun
  | ORegCall _ _ => OrRegCall
  | OUnregCall _ _ => OrUnregCall
  | ORegCb _ _ => OrRegCb
  | OUnregCb _ => OrUnregCb
  | OWebApi _ => OrWebApi
  | OSvcCfg _ _ => OrSvcCfg
  | OConnect _ _ _ _ => OrConnect
  | OOpenRequest _ _ _ _ _ _ _ => OrOpen
  | OSendRequest _ _ _ _ _ _ _ => OrSend
  | OIsCompleted _ | OGetResult _ _ _ => OrUtils
  end.

(** What a hooked function returns and writes. *)
Record OrigAnswer := mkOrig { a_ret : Z; a_failed : option Z; a_data : option (list byte) }.

(** ** The title's calls that change something *)

Inductive TitleCall :=
  | TCreate (method : Z) (url : option (list byte))
  | TSetContext (handle value : Z)
  | TSetHeader (handle : Z) (name value : option (list byte))
  | TSetBody (handle : Z) (data : option (list byte)) (len : Z)
  | TSend (handle : Z)
  | TRelease (handle : Z)
  | TRegCall (cb call : Z)
  | TUnregCall (cb call : Z)
  | TRegCb (cb i_callback : Z)
  | TUnregCb (cb : Z)
  | TTicket (identity : option (list byte))
  | TAlloc (obj : Z) (o : CbObj)
  | TFree (obj : Z).

(** ** The world

    The three counters are [NEXT_HANDLE], [NEXT_CALL] and [NEXT_TICKET]; [w_orig] the hooked
    functions that are known; [w_user_ini] and [w_computer] the file and the variable that name the
    machine.  The last five fields are logs: the runs of callbacks, the WinHTTP operations, the
    hooked functions called, and the handles and calls given out. *)
Record World := mkWorld {
  w_st : State;
  w_next_handle : Z;
  w_next_call : Z;
  w_next_ticket : Z;
  w_orig : list Orig;
  w_user_ini : option string;
  w_computer : option string;
  w_objs : gmap Z CbObj;
  w_exchanges : nat;
  w_runs : list Run;
  w_win : list WinOp;
  w_called : list OrigCall;
  w_handles : list Z;
  w_calls : list Z;
}.

Definition world_init (orig : list Orig) (ini computer : option string) : World :=
  mkWorld state_init 1 0x0BEE0001 1 orig ini computer ∅ 0 [] [] [] [] [].

Definition ws_st (s : State) (w : World) : World :=
  mkWorld s (w_next_handle w) (w_next_call w) (w_next_ticket w) (w_orig w) (w_user_ini w) (w_computer w)
    (w_objs w) (w_exchanges w) (w_runs w) (w_win w) (w_called w) (w_handles w) (w_calls w).
Definition ws_handle (next : Z) (given : list Z) (w : World) : World :=
  mkWorld (w_st w) next (w_next_call w) (w_next_ticket w) (w_orig w) (w_user_ini w) (w_computer w)
    (w_objs w) (w_exchanges w) (w_runs w) (w_win w) (w_called w) given (w_calls w).
Definition ws_call (next : Z) (given : list Z) (w : World) : World :=
  mkWorld (w_st w) (w_next_handle w) next (w_next_ticket w) (w_orig w) (w_user_ini w) (w_computer w)
    (w_objs w) (w_exchanges w) (w_runs w) (w_win w) (w_called w) (w_handles w) given.
Definition ws_ticket (next : Z) (w : World) : World :=
  mkWorld (w_st w) (w_next_handle w) (w_next_call w) next (w_orig w) (w_user_ini w) (w_computer w)
    (w_objs w) (w_exchanges w) (w_runs w) (w_win w) (w_called w) (w_handles w) (w_calls w).
Definition ws_outside (orig : list Orig) (ini computer : option string) (w : World) : World :=
  mkWorld (w_st w) (w_next_handle w) (w_next_call w) (w_next_ticket w) orig ini computer
    (w_objs w) (w_exchanges w) (w_runs w) (w_win w) (w_called w) (w_handles w) (w_calls w).
Definition ws_objs (o : gmap Z CbObj) (w : World) : World :=
  mkWorld (w_st w) (w_next_handle w) (w_next_call w) (w_next_ticket w) (w_orig w) (w_user_ini w) (w_computer w)
    o (w_exchanges w) (w_runs w) (w_win w) (w_called w) (w_handles w) (w_calls w).
Definition ws_run (r : Run) (w : World) : World :=
  mkWorld (w_st w) (w_next_handle w) (w_next_call w) (w_next_ticket w) (w_orig w) (w_user_ini w) (w_computer w)
    (w_objs w) (w_exchanges w) (w_runs w ++ [r]) (w_win w) (w_called w) (w_handles w) (w_calls w).
Definition ws_win (n : nat) (ops : list WinOp) (w : World) : World :=
  mkWorld (w_st w) (w_next_handle w) (w_next_call w) (w_next_ticket w) (w_orig w) (w_user_ini w) (w_computer w)
    (w_objs w) n (w_runs w) (w_win w ++ ops) (w_called w) (w_handles w) (w_calls w).
Definition ws_called (c : OrigCall) (w : World) : World :=
  mkWorld (w_st w) (w_next_handle w) (w_next_call w) (w_next_ticket w) (w_orig w) (w_user_ini w) (w_computer w)
    (w_objs w) (w_exchanges w) (w_runs w) (w_win w) (w_called w ++ [c]) (w_handles w) (w_calls w).

Class SteamEnv := {
  lan : LanCfg;
  net : nat → Request → HttpAnswer;
  original : nat → OrigCall → OrigAnswer;
  emulator : World → list TitleCall;
  title : World → Run → list byte * list TitleCall;
  call_order : gmap Z Call → list Z;
  call_order_perm : ∀ m, call_order m ≡ₚ (map_to_list m).*1;
}.

Definition SC (A : Type) : Type := comp World A.

(** [state_lock]: the state, and a change of it. *)
Definition get_st : SC State := gets w_st.
Definition mod_st (f : State → State) : SC unit := modify (λ w, ws_st (f (w_st w)) w).

Section env.
Context `{E : SteamEnv}.

(** Call a hooked function, if it is known. *)
Definition call_orig (c : OrigCall) : SC (option OrigAnswer) := λ w,
  if bool_decide (orig_of c ∈ w_orig w)
  then Some (Some (original (length (w_called w)) c), ws_called c w)
  else Some (None, w).

(** ** The ticket *)

Fixpoint find_steamid (ls : list string) : string :=
  match ls with
  | [] => "0"
  | l :: ls =>
      let line := trim (bstr (hd [] (split_b x23 (hd [] (split_b x3b (sbytes l)))))) in
      match split_once x3d line with
      | None => find_steamid ls
      | Some (k, v) =>
          if eq_ignore_ascii_case (trim k) "account_steamid" && negb (bool_decide (trim v = ""))
          then trim v else find_steamid ls
      end
  end.
Definition read_account_steamid (ini : option string) : string :=
  match ini with None => "0" | Some text => find_steamid (lines text) end.
Definition lan_steam_ticket (ini computer : option string) : list byte :=
  sbytes ("LANSTUB|" +:+ read_account_steamid ini +:+ "|" +:+ default "pc" computer).
Definition my_ticket : SC (list byte) := gets (λ w, lan_steam_ticket (w_user_ini w) (w_computer w)).

Definition get_auth_ticket_webapi (identity : option (list byte)) : SC Z :=
  let id := from_c identity in
  let* h :=
    if bool_decide (id ∈ ["playfab_services"; "server_auth_key_001"]) then mret 0
    else (let* a := call_orig (OWebApi identity) in
          mret (match a with Some a => a_ret a | None => 0 end)) in
  if negb (h =? 0) then mret h
  else
    let* handle := gets w_next_ticket in
    modify (ws_ticket ((handle + 1) mod U32));;
    mod_st (λ s, set_pending (pending_webapi s ++ [handle]) s);;
    mret handle.

(** ** Requests *)

Definition create_http (method : Z) (url : option (list byte)) : SC Z :=
  let url := rewrite_http_url_to_stub lan (from_c url) in
  if bool_decide (url = "") then mret 0
  else
    let* id := gets w_next_handle in
    let* given := gets w_handles in
    modify (ws_handle ((id + 1) mod U32) (given ++ [id]));;
    mod_st (λ s, set_requests (<[id := mkRequest method url [] [] 0 0 [] false]> (requests s)) s);;
    mret id.

(** Change a request, if there is one: the code says whether there is. *)
Definition on_request (handle : Z) (f : Request → Request) : SC Z :=
  let* s := get_st in
  match requests s !! handle with
  | Some r => mod_st (set_requests (<[handle := f r]> (requests s)));; mret 1
  | None => mret 0
  end.

Definition set_context (handle value : Z) : SC Z := on_request handle (set_context_q value).
Definition set_header (handle : Z) (name value : option (list byte)) : SC Z :=
  on_request handle (add_header (from_c name) (from_c value)).

(** [data] is what the title's pointer leads to: too short for [len], the read goes out of it. *)
Definition set_raw_body (handle : Z) (data : option (list byte)) (len : Z) : SC Z :=
  match data with
  | Some bytes =>
      if (0 <? len) && (len <=? 2 * 1024 * 1024) then
        let* s := get_st in
        if bool_decide (is_Some (requests s !! handle)) && (Z.of_nat (length bytes) <? len) then undef
        else on_request handle (set_body (take (Z.to_nat len) bytes))
      else on_request handle id
  | None => on_request handle id
  end.

Definition release (handle : Z) : SC Z :=
  mod_st (λ s, set_requests (delete handle (requests s)) s);; mret 1.

(** ** The exchange with the broker *)

Definition win (op : WinOp) : SC unit := modify (λ w, ws_win (w_exchanges w) [op] w).
Definition wins (ops : list WinOp) : SC unit := for_each ops win.

(** The chunks up to the first that is empty or fails; a chunk larger than the buffer is a panic. *)
Fixpoint read_body (chunks : list (list byte)) (body : list byte) : SC (list byte) :=
  win WReadData;;
  match chunks with
  | [] => mret body
  | chunk :: chunks =>
      if (length chunk =? 0)%nat then mret body
      else if 4096 <? Z.of_nat (length chunk) then undef
      else read_body chunks (body ++ chunk)
  end.

Definition not_ok (r : Request) : Request := set_result (q_status r) (q_response r) false r.

Definition verb_of (method : Z) : list Z := to_wide (if method =? 3 then "POST" else "GET").

Definition url_flags (u : Cracked) : Z :=
  if u_https u =? INTERNET_SCHEME_HTTPS then WINHTTP_FLAG_SECURE else 0.

Definition header_op (h : string * string) : WinOp :=
  let line := to_wide (h.1 +:+ ": " +:+ h.2) in WAddHeader line ((Z.of_nat (length line) - 1) mod U32).

(** From the open request on. *)
Definition winhttp_transfer (req : Request) (a : HttpAnswer) (u : Cracked) : SC Request :=
  when (negb (url_flags u =? 0)) (win (WSetSecurity SECURITY_FLAGS));;
  for_each (q_headers req) (λ h, win (header_op h));;
  win (WSendRequest (q_body req) (Z.of_nat (length (q_body req)) mod U32));;
  when (ha_send a) (win WReceiveResponse);;
  if negb (ha_send a && ha_receive a)
  then wins [WClose HRequest; WClose HConnect; WClose HSession];; mret (not_ok req)
  else
    win WQueryStatus;;
    let* body := read_body (ha_chunks a) [] in
    wins [WClose HRequest; WClose HConnect; WClose HSession];;
    mret (set_result (ha_status a) body ((200 <=? ha_status a) && (ha_status a <? 300)) req).

Definition winhttp_session (req : Request) (a : HttpAnswer) : SC Request :=
  win (WOpen (ha_session a));;
  if negb (ha_session a) then mret (set_result 0 (q_response req) false req)
  else
    win (WCrackUrl (to_wide (q_url req)));;
    match ha_url a with
    | None => win (WClose HSession);; mret (not_ok req)
    | Some u =>
        let host := scan_nul (λ c, c =? 0) 256 (u_host u) in
        let path := scan_nul (λ c, c =? 0) 2048 (u_path u) in
        let extra := scan_nul (λ c, c =? 0) 1024 (u_extra u) in
        win (WConnect host (u_port u) (ha_connect a));;
        if negb (ha_connect a) then win (WClose HSession);; mret (not_ok req)
        else
          win (WOpenRequest (verb_of (q_method req)) (path ++ extra ++ [0]) (url_flags u) (ha_request a));;
          if negb (ha_request a) then wins [WClose HConnect; WClose HSession];; mret (not_ok req)
          else winhttp_transfer req a u
    end.

Definition winhttp_execute (req : Request) : SC Request :=
  let* n := gets w_exchanges in
  modify (ws_win (S n) []);;
  winhttp_session req (net n req).

(** [send_http] in two critical sections, with the exchange in between: other threads may change the
    state while the exchange runs. *)
Definition send_begin (handle : Z) : SC (option Request) :=
  let* s := get_st in mret (set_result 0 [] false <$> requests s !! handle).

Definition send_finish (handle : Z) (req : Request) : SC Z :=
  let* call := gets w_next_call in
  let* given := gets w_calls in
  modify (ws_call ((call + 1) mod U64) (given ++ [call]));;
  mod_st (λ s,
    let s := match requests s !! handle with
      | Some stored => set_requests (<[handle := set_result (q_status req) (q_response req) (q_ok req) stored]> (requests s)) s
      | None => s
      end in
    set_calls (<[call := mkCall handle (negb (q_ok req) && (q_status req =? 0))]> (calls s)) s);;
  mret call.

(** The code, and the call when there is one. *)
Definition send_http (handle : Z) : SC (Z * option Z) :=
  let* r := send_begin handle in
  match r with
  | None => mret (0, None)
  | Some req =>
      let* req := winhttp_execute req in
      let* call := send_finish handle req in
      mret (1, Some call)
  end.
Definition send_stream (handle : Z) : SC (Z * option Z) := send_http handle.

(** ** Reading the response

    What is written through a non-null pointer is returned. *)

Definition content_type (name : option (list byte)) : bool :=
  bool_decide (to_ascii_lowercase (from_c name) = "content-type").
Definition header_size (name : option (list byte)) : Z * option Z :=
  if content_type name then (1, Some 17) else (0, None).
Definition header_value (name : option (list byte)) (buf_null : bool) (sz : Z) : Z * option (list byte) :=
  if negb (content_type name) || buf_null then (0, None)
  else
    let v := sbytes "application/json" ++ [x00] in
    if negb (sz =? Z.of_nat (length v)) then (0, None) else (1, Some v).

Definition body_size (handle : Z) : SC (Z * option Z) :=
  let* s := get_st in
  mret (match requests s !! handle with
        | Some r => (1, Some (Z.of_nat (length (q_response r)) mod U32))
        | None => (0, None)
        end).

Definition body_data (handle : Z) (buf_null : bool) (size : Z) : SC (Z * option (list byte)) :=
  let* s := get_st in
  mret (match requests s !! handle with
        | Some r => if negb (size =? Z.of_nat (length (q_response r))) || buf_null then (0, None)
                    else (1, Some (q_response r))
        | None => (0, None)
        end).

(** The exports that do nothing. *)
Definition set_timeout : Z := 1.
Definition set_param : Z := 1.
Definition bool_true : Z := 1.
Definition create_cookie_container : Z := 1.
Definition release_cookie_container : Z := 1.
Definition stream_body : Z := 0.
Definition progress : Z * Z := (1, 100).
Definition set_cookie : Z := 1.
Definition set_cookie_container : Z := 1.
Definition set_ua : Z := 1.
Definition set_verify : Z := 1.
Definition set_abs_timeout : Z := 1.
Definition was_timeout : Z * Z := (1, 0).
Definition blogged_on : Z := 1.

(** ** Call results *)

(** The code, and the failure flag written. *)
Definition utils_is_completed (call : Z) : SC (Z * option Z) :=
  let* s := get_st in
  match calls s !! call with
  | Some c => mret (1, Some (if c_failed c then 1 else 0))
  | None =>
      let* a := call_orig (OIsCompleted call) in
      mret (match a with Some a => (a_ret a, a_failed a) | None => (0, None) end)
  end.

(** The structure a call's result is reported with. *)
Definition packed_of (s : State) (c : Call) : list byte :=
  match requests s !! c_request c with
  | Some r => pack_http_completed (c_request c) (q_context r) (q_ok r) (q_status r)
                (Z.of_nat (length (q_response r)) mod U32)
  | None => pack_http_completed (c_request c) 0 false 0 0
  end.

(** The code, the failure flag and the bytes written. *)
Definition utils_get_result (call : Z) (callback_null : bool) (cub expected : Z)
    : SC (Z * option Z * option (list byte)) :=
  let* s := get_st in
  match calls s !! call with
  | None =>
      let* a := call_orig (OGetResult call cub expected) in
      mret (match a with Some a => (a_ret a, a_failed a, a_data a) | None => (0, None, None) end)
  | Some c =>
      let failed := Some (if c_failed c then 1 else 0) in
      mret (if negb (expected =? 0) && negb (expected =? HTTP_CALLBACK_COMPLETED) then (0, failed, None)
            else if callback_null || (cub <? 28) then (0, failed, None)
            else (1, failed, Some (take (Z.to_nat (Z.min cub 32)) (packed_of s c))))
  end.

(** ** Registration *)

Definition hook_reg_cb (cb i_callback : Z) : SC unit :=
  when (negb (cb =? 0)) (mod_st (λ s, set_callbacks (callbacks s ++ [(i_callback, cb)]) (fired_connected s) s));;
  let* _ := call_orig (ORegCb cb i_callback) in mret tt.

Definition hook_unreg_cb (cb : Z) : SC unit :=
  when (negb (cb =? 0)) (mod_st (λ s,
    set_callbacks (filter (λ p : Z * Z, p.2 ≠ cb) (callbacks s)) (fired_connected s ∖ {[cb]}) s));;
  let* _ := call_orig (OUnregCb cb) in mret tt.

Definition hook_reg_call (cb call : Z) : SC unit :=
  when (negb (cb =? 0) && negb (call =? 0))
    (mod_st (λ s, set_call_results (<[call := cb]> (call_results s)) s));;
  let* _ := call_orig (ORegCall cb call) in mret tt.

Definition hook_unreg_call (cb call : Z) : SC unit :=
  mod_st (λ s, set_call_results (delete call (call_results s)) s);;
  let* _ := call_orig (OUnregCall cb call) in mret tt.

(** ** Running callbacks *)

Definition do_call (c : TitleCall) : SC unit :=
  match c with
  | TCreate method url => let* _ := create_http method url in mret tt
  | TSetContext handle value => let* _ := set_context handle value in mret tt
  | TSetHeader handle name value => let* _ := set_header handle name value in mret tt
  | TSetBody handle data len => let* _ := set_raw_body handle data len in mret tt
  | TSend handle => let* _ := send_http handle in mret tt
  | TRelease handle => let* _ := release handle in mret tt
  | TRegCall cb call => hook_reg_call cb call
  | TUnregCall cb call => hook_unreg_call cb call
  | TRegCb cb i => hook_reg_cb cb i
  | TUnregCb cb => hook_unreg_cb cb
  | TTicket identity => let* _ := get_auth_ticket_webapi identity in mret tt
  | TAlloc obj o => modify (λ w, ws_objs (<[obj := o]> (w_objs w)) w)
  | TFree obj => modify (λ w, ws_objs (delete obj (w_objs w)) w)
  end.

(** The title's function runs: the run is logged, and the buffer is what it leaves there. *)
Definition run_title (r : Run) : SC (list byte) :=
  modify (ws_run r);;
  let* t := gets (λ w, title w r) in
  for_each t.2 do_call;;
  mret t.1.

(** The vtable of an object: [None] when its pointer is null. *)
Definition vtable (obj : Z) : SC CbObj := λ w,
  match w_objs w !! obj with Some o => Some (o, w) | None => None end.

(** The loop over the slots from [i]. *)
Fixpoint run_index_loop (slots : list (option (list byte))) (default : nat) (i fuel : nat) : SC nat :=
  match fuel with
  | O => mret default
  | S fuel =>
      match slots !! i with
      | None => undef
      | Some None => run_index_loop slots default (S i) fuel
      | Some (Some code) =>
          if (length code <? 16)%nat then undef
          else match mov_eax_imm (take 16 code) with
               | Some sz => if (1 <=? sz) && (sz <? 8192) && (2 <=? i)%nat then mret (i - 2)%nat
                            else run_index_loop slots default (S i) fuel
               | None => run_index_loop slots default (S i) fuel
               end
      end
  end.
Definition callback_run_index (obj : Z) (default : nat) : SC nat :=
  let* v := vtable obj in
  match v with None => mret default | Some slots => run_index_loop slots default 0 6 end.

(** Call a slot: a null function is a crash. *)
Definition call_slot (slots : list (option (list byte))) (r : Run) : SC (list byte) :=
  match slots !! r_slot r with Some (Some _) => run_title r | _ => undef end.

(** The buffer after the run. *)
Definition invoke_callback (obj : Z) (data : list byte) (default_run : nat) : SC (list byte) :=
  if obj =? 0 then mret data
  else
    let* v := vtable obj in
    match v with
    | None => mret data
    | Some slots =>
        let* idx := callback_run_index obj default_run in
        call_slot slots (mkRun obj idx data None)
    end.

(** The objects that have not been told of the connection, each marked. *)
Fixpoint newly_connected (cbs : list (Z * Z)) (fired : gset Z) : gset Z * list Z :=
  match cbs with
  | [] => (fired, [])
  | (id, p) :: cbs =>
      if (id =? CB_STEAM_SERVERS_CONNECTED) && negb (bool_decide (p ∈ fired))
      then let r := newly_connected cbs ({[p]} ∪ fired) in (r.1, p :: r.2)
      else newly_connected cbs fired
  end.

(** One ticket to the listeners in turn, all given the same buffer. *)
Fixpoint deliver_ticket (cbs : list (Z * Z)) (packed : list byte) : SC unit :=
  match cbs with
  | [] => mret tt
  | (id, p) :: cbs =>
      if id =? CB_TICKET_FOR_WEBAPI
      then let* packed := invoke_callback p packed 1 in deliver_ticket cbs packed
      else deliver_ticket cbs packed
  end.

Definition dispatch_steam_user_callbacks : SC unit :=
  let* s := get_st in
  let cbs := callbacks s in
  let '(fired, connected) := newly_connected cbs (fired_connected s) in
  mod_st (λ s, set_pending [] (set_callbacks cbs fired s));;
  for_each connected (λ p, let* _ := invoke_callback p (replicate 8 x00) 0 in mret tt);;
  for_each (pending_webapi s) (λ handle,
    let* t := my_ticket in deliver_ticket cbs (pack_webapi_ticket handle t WEBAPI_TICKET_MAX)).

(** A call result to deliver. *)
Record Job := mkJob { j_call : Z; j_cb : Z; j_packed : list byte; j_failed : Z }.

(** The calls that are complete, registered and not dispatched yet, each marked as dispatched. *)
Fixpoint collect_jobs (s : State) (keys : list Z) (done : gset Z) : gset Z * list Job :=
  match keys with
  | [] => (done, [])
  | call :: keys =>
      if bool_decide (call ∈ done) then collect_jobs s keys done
      else match call_results s !! call, calls s !! call with
           | Some cb, Some c =>
               let r := collect_jobs s keys ({[call]} ∪ done) in
               (r.1, mkJob call cb (packed_of s c) (if c_failed c then 1 else 0) :: r.2)
           | _, _ => collect_jobs s keys done
           end
  end.

Definition run_job (j : Job) : SC unit :=
  if j_cb j =? 0 then mret tt
  else
    let* v := vtable (j_cb j) in
    match v with
    | None => mret tt
    | Some slots =>
        let* _ := call_slot slots (mkRun (j_cb j) 1 (j_packed j) (Some (j_failed j, j_call j))) in mret tt
    end.

Definition dispatch_http_callresults : SC unit :=
  let* s := get_st in
  let '(done, jobs) := collect_jobs s (call_order (calls s)) (dispatched s) in
  mod_st (set_dispatched done);;
  for_each jobs run_job.

Definition hook_run_callbacks : SC unit :=
  let* a := call_orig ORunCallbacks in
  (match a with
   | Some _ => let* cs := gets emulator in for_each cs do_call
   | None => mret tt
   end);;
  dispatch_steam_user_callbacks;;
  dispatch_http_callresults.

(** ** The other hooks *)

(** The broker's address as a C string: a NUL in it is a panic. *)
Definition hook_svc_cfg (endpoint ttl : option (list byte)) : SC Z :=
  if bool_decide (x00 ∈ sbytes (origin lan)) then undef
  else
    let* a := call_orig (OSvcCfg (sbytes (origin lan)) ttl) in
    mret (match a with Some a => a_ret a | None => as_i32 0x80004005 end).

Definition hook_wh_connect (session : Z) (whost : option (list Z)) (wport reserved : Z) : SC Z :=
  let host_s := from_wide whost in
  let dest_host := if bool_decide (host_s = host lan) then host_s else host lan in
  let dest_port := if (wport =? 80) || (wport =? 443) then port lan else wport in
  let* a := call_orig (OConnect session (to_wide dest_host) dest_port reserved) in
  mret (match a with Some a => a_ret a | None => 0 end).

Definition hook_wh_open_request (connect verb object version referrer accept flags : Z) : SC Z :=
  let flags2 := Z.land flags (U32 - 1 - WINHTTP_FLAG_SECURE) in
  let* a := call_orig (OOpenRequest connect verb object version referrer accept flags2) in
  mret (match a with Some a => a_ret a | None => 0 end).

Definition hook_wh_send (request headers hlen optional olen total context : Z) : SC Z :=
  win (WSetSecurity SECURITY_FLAGS);;
  let* a := call_orig (OSendRequest request headers hlen optional olen total context) in
  mret (match a with Some a => a_ret a | None => 0 end).
End env.
