(* ===== verification/SteamInv.v ===== *)
(** * The Steam shim: its invariant

    What an exchange with the broker does, the rules the title and the
    environment keep, the invariant of the [World], and that each function of
    the shim returns and preserves it. *)

From S2P Require Import Prelude RustStr SteamAbi LanCfg Pe Comp SteamHttp.
#[local] Open Scope string_scope.
#[local] Open Scope list_scope.
#[local] Open Scope Z_scope.
#[local] Open Scope comp_scope.

(** ** An exchange *)

(** The body is what was read before the first read that fails or returns nothing. *)
Fixpoint body_of (chunks : list (list byte)) : list byte :=
  match chunks with
  | [] => []
  | c :: chunks => match c with [] => [] | _ => c ++ body_of chunks end
  end.
Fixpoint reads_of (chunks : list (list byte)) : nat :=
  match chunks with [] => 1 | c :: chunks => match c with [] => 1 | _ => S (reads_of chunks) end end.

Definition fetched (a : HttpAnswer) : bool :=
  ha_session a && bool_decide (is_Some (ha_url a)) && ha_connect a && ha_request a && ha_send a && ha_receive a.

Definition success (status : Z) : bool := (200 <=? status) && (status <? 300).

Definition exchange_result (req : Request) (a : HttpAnswer) : Request :=
  if fetched a then set_result (ha_status a) (body_of (ha_chunks a)) (success (ha_status a)) req
  else set_result (if ha_session a then q_status req else 0) (q_response req) false req.

Definition request_ops (req : Request) (a : HttpAnswer) (u : Cracked) : list WinOp :=
  (if u_https u =? INTERNET_SCHEME_HTTPS then [WSetSecurity SECURITY_FLAGS] else []) ++
  map header_op (q_headers req) ++
  [WSendRequest (q_body req) (Z.of_nat (length (q_body req)) mod U32)] ++
  (if ha_send a then [WReceiveResponse] else []) ++
  (if ha_send a && ha_receive a then WQueryStatus :: replicate (reads_of (ha_chunks a)) WReadData else []) ++
  [WClose HRequest].

Definition connect_ops (req : Request) (a : HttpAnswer) (u : Cracked) : list WinOp :=
  WOpenRequest (verb_of (q_method req))
    (scan_nul (λ c, c =? 0) 2048 (u_path u) ++ scan_nul (λ c, c =? 0) 1024 (u_extra u) ++ [0])
    (url_flags u) (ha_request a) ::
  (if ha_request a then request_ops req a u else []) ++ [WClose HConnect].

Definition session_ops (req : Request) (a : HttpAnswer) : list WinOp :=
  WCrackUrl (to_wide (q_url req)) ::
  match ha_url a with
  | None => []
  | Some u =>
      WConnect (scan_nul (λ c, c =? 0) 256 (u_host u)) (u_port u) (ha_connect a) ::
      (if ha_connect a then connect_ops req a u else [])
  end ++ [WClose HSession].

Definition exchange_ops (req : Request) (a : HttpAnswer) : list WinOp :=
  WOpen (ha_session a) :: (if ha_session a then session_ops req a else []).

(** [WinHttpReadData] returns no more than the 4096 bytes it is given room for. *)
Definition answer_ok (a : HttpAnswer) : Prop :=
  Forall (λ c : list byte, Z.of_nat (length c) <= 4096) (ha_chunks a) ∧ is_u32 (ha_status a).

Lemma ws_win_app n m a b w : ws_win n b (ws_win m a w) = ws_win n (a ++ b) w.
Proof. unfold ws_win. cbn. by rewrite <- app_assoc. Qed.

Lemma ws_win_nil w : ws_win (w_exchanges w) [] w = w.
Proof. unfold ws_win. rewrite app_nil_r. by destruct w. Qed.

(** Run the first command of a computation that only records operations. *)
Definition records {A} (m : SC A) (x : A) (ops : list WinOp) : Prop :=
  ∀ w, m w = Some (x, ws_win (w_exchanges w) ops w).

Lemma records_ret {A} (x : A) : records (mret x) x [].
Proof. intros w. by rewrite ws_win_nil. Qed.

Lemma records_win op : records (win op) tt [op].
Proof. done. Qed.

Lemma records_bind {A B} (m : SC A) (f : A → SC B) x y a b :
  records m x a → records (f x) y b → records (mbind m f) y (a ++ b).
Proof. intros Hm Hf w. unfold mbind. by rewrite Hm, Hf, ws_win_app. Qed.

Lemma records_for_each {A} (l : list A) (f : A → SC unit) (op : A → WinOp) :
  (∀ x, records (f x) tt [op x]) → records (for_each l f) tt (map op l).
Proof.
  intros Hf. induction l as [|x l IH]; [apply records_ret|].
  apply (records_bind (f x) _ tt tt [op x] (map op l)); auto.
Qed.

Lemma records_wins ops : records (wins ops) tt ops.
Proof. rewrite <- (map_id ops) at 2. by apply records_for_each. Qed.

Lemma records_when b op : records (when b (win op)) tt (if b then [op] else []).
Proof. destruct b; [apply records_win|apply records_ret]. Qed.

Lemma records_body chunks body :
  Forall (λ c : list byte, Z.of_nat (length c) <= 4096) chunks →
  records (read_body chunks body) (body ++ body_of chunks) (replicate (reads_of chunks) WReadData).
Proof.
  intros Hc. revert body. induction Hc as [|c chunks Hc Hcs IH]; intros body; cbn [read_body body_of reads_of].
  - rewrite app_nil_r. apply (records_bind _ _ tt _ [WReadData] []); [apply records_win|apply records_ret].
  - destruct c as [|b c].
    + rewrite app_nil_r. apply (records_bind _ _ tt _ [WReadData] []); [apply records_win|apply records_ret].
    + apply (records_bind _ _ tt _ [WReadData] _); [apply records_win|]. cbn [length Nat.eqb].
      rewrite (proj2 (Z.ltb_ge _ _)) by (cbn [length] in Hc; lia).
      rewrite app_assoc. apply IH.
Qed.

Lemma records_cons {A} op (m : SC A) x ops : records m x ops → records (win op;; m) x (op :: ops).
Proof. apply (records_bind (win op) (λ _, m) tt x [op] ops), records_win. Qed.

Section env.
Context `{E : SteamEnv}.

Lemma transfer_records req a u :
  Forall (λ c : list byte, Z.of_nat (length c) <= 4096) (ha_chunks a) →
  records (winhttp_transfer req a u)
    (if ha_send a && ha_receive a
     then set_result (ha_status a) (body_of (ha_chunks a)) (success (ha_status a)) req else not_ok req)
    (request_ops req a u ++ [WClose HConnect; WClose HSession]).
Proof.
  intros Hc. unfold winhttp_transfer, request_ops. rewrite <- !app_assoc.
  apply (records_bind _ _ tt).
  { unfold url_flags. case_if; apply (records_when true) || apply (records_when false). }
  apply (records_bind _ _ tt); [by apply records_for_each|]. cbn [app].
  apply records_cons. apply (records_bind _ _ tt); [apply records_when|].
  assert (Hclose : ∀ r : Request, records (wins [WClose HRequest; WClose HConnect; WClose HSession];; mret r) r
    ([WClose HRequest] ++ [WClose HConnect; WClose HSession])).
  { intros r. rewrite <- (app_nil_r (_ ++ _)).
    apply (records_bind _ _ tt); [apply records_wins|apply records_ret]. }
  destruct (ha_send a && ha_receive a); cbn [negb app]; [|apply Hclose].
  apply records_cons. apply (records_bind _ _ (body_of (ha_chunks a))); [by apply (records_body _ [])|].
  apply Hclose.
Qed.

Lemma session_records req a :
  answer_ok a → records (winhttp_session req a) (exchange_result req a) (exchange_ops req a).
Proof.
  intros [Hc _]. unfold winhttp_session, exchange_ops, session_ops, connect_ops, exchange_result, fetched.
  apply records_cons. destruct (ha_session a); cbn [negb andb]; [|apply records_ret].
  cbn [app]. apply records_cons. destruct (ha_url a) as [u|]; cbn [app]; [|apply records_cons, records_ret].
  rewrite (bool_decide_eq_true_2 (is_Some _)) by done. cbn [andb]. apply records_cons.
  destruct (ha_connect a); cbn [negb andb]; [|apply records_cons, records_ret]. cbn [app]. apply records_cons.
  destruct (ha_request a); cbn [negb andb app];
    [|apply (records_bind _ _ tt _ [WClose HConnect; WClose HSession] []); [apply records_wins|apply records_ret]].
  rewrite <- !app_assoc. by apply transfer_records.
Qed.

(** [winhttp_execute] does exactly the operations of [exchange_ops] and leaves [exchange_result]. *)
Lemma winhttp_execute_spec req w :
  answer_ok (net (w_exchanges w) req) →
  winhttp_execute req w =
    Some (exchange_result req (net (w_exchanges w) req),
          ws_win (S (w_exchanges w)) (exchange_ops req (net (w_exchanges w) req)) w).
Proof.
  intros Ha. pose proof (session_records req _ Ha (ws_win (S (w_exchanges w)) [] w)) as Hrec.
  rewrite ws_win_app in Hrec. exact Hrec.
Qed.
End env.

(** ** Counters *)

(** The numbers given out so far by a counter that wraps at [width], and its next one. *)
Definition counted (start width : Z) (given : list Z) (next : Z) : Prop :=
  given = map (λ i, (start + Z.of_nat i) mod width) (seq 0 (length given)) ∧
  next = (start + Z.of_nat (length given)) mod width.

Lemma counted_init start width : 0 <= start < width → counted start width [] start.
Proof. intros. split; [done|]. cbn [length]. rewrite Z.mod_small; lia. Qed.

Lemma counted_push start width given next :
  0 < width → counted start width given next → counted start width (given ++ [next]) ((next + 1) mod width).
Proof.
  intros Hw [Hg Hn]. unfold counted. rewrite length_app, Nat.add_1_r, seq_S, map_app, Nat.add_0_l. cbn [map].
  split; [by rewrite <- Hg, Hn|]. rewrite Hn, Z.add_mod_idemp_l by lia. f_equal. lia.
Qed.

Lemma counted_range start width given next x :
  0 < width → counted start width given next → x ∈ next :: given → 0 <= x < width.
Proof.
  intros Hw [Hg Hn] [->|Hx]%elem_of_cons.
  - subst. by apply Z.mod_pos_bound.
  - rewrite Hg in Hx. apply list_elem_of_fmap in Hx as (i & -> & _). by apply Z.mod_pos_bound.
Qed.

(** No number comes back before all [width] of them have been given out. *)
Lemma counted_fresh start width given next :
  counted start width given next → Z.of_nat (length given) < width → next ∉ given.
Proof.
  intros [Hg Hn] Hl Hin. rewrite Hg in Hin. apply list_elem_of_fmap in Hin as (i & Heq & Hi).
  apply elem_of_seq in Hi. rewrite Hn in Heq.
  assert (Hz : (Z.of_nat (length given) - Z.of_nat i) mod width = 0).
  { replace (Z.of_nat (length given) - Z.of_nat i)
      with ((start + Z.of_nat (length given)) - (start + Z.of_nat i)) by lia.
    rewrite Zminus_mod, Heq, Z.sub_diag. done. }
  rewrite Z.mod_small in Hz by lia. lia.
Qed.

(** ** The rules *)

(** An object has a null vtable pointer, or at least the six slots that are looked at, none of them
    null, each a function of at least 16 bytes. *)
Definition slot_ok (f : option (list byte)) : Prop :=
  match f with Some code => (16 ≤ length code)%nat | None => False end.
Definition obj_ok (o : CbObj) : Prop :=
  match o with Some slots => (6 ≤ length slots)%nat ∧ Forall slot_ok slots | None => True end.

Definition registered (s : State) (obj : Z) : Prop :=
  obj ∈ (callbacks s).*2 ∨ ∃ call, call_results s !! call = Some obj.

Definition run_calls (rs : list Run) : list Z := omap (λ r, snd <$> r_call r) rs.

Definition req_ok (r : Request) : Prop := is_u64 (q_context r) ∧ is_u32 (q_status r).

Record inv_of (s : State) (objs : gmap Z CbObj) (rs : list Run) (handles : list Z) (nh : Z)
    (given : list Z) (nc : Z) : Prop := {
  i_objs : ∀ obj o, objs !! obj = Some o → obj ≠ 0 ∧ obj_ok o;
  i_live : ∀ obj, registered s obj → is_Some (objs !! obj);
  i_runs : NoDup (run_calls rs);
  i_run_dispatched : ∀ c, c ∈ run_calls rs → c ∈ dispatched s;
  i_dispatched : ∀ c, c ∈ dispatched s → is_Some (calls s !! c);
  i_handles : counted 1 U32 handles nh;
  i_given : counted 0x0BEE0001 U64 given nc;
  i_requests : ∀ h r, requests s !! h = Some r → h ∈ handles ∧ req_ok r;
  i_calls : ∀ c, is_Some (calls s !! c) ↔ c ∈ given;
  i_call_request : ∀ c x, calls s !! c = Some x → is_u32 (c_request x);
}.
Definition inv (w : World) : Prop :=
  inv_of (w_st w) (w_objs w) (w_runs w) (w_handles w) (w_next_handle w) (w_calls w) (w_next_call w).

(** What a call may assume of the title: its buffers are as long as it says, it registers live
    objects, allocates where nothing is, and unregisters an object before it frees it. *)
Definition call_ok (c : TitleCall) (w : World) : Prop :=
  match c with
  | TSetContext _ v => is_u64 v
  | TSetBody _ (Some bytes) len => len <= Z.of_nat (length bytes)
  | TRegCall cb _ | TRegCb cb _ => cb = 0 ∨ is_Some (w_objs w !! cb)
  | TAlloc obj o => obj ≠ 0 ∧ w_objs w !! obj = None ∧ obj_ok o
  | TFree obj => ¬ registered (w_st w) obj
  | _ => True
  end.
Definition frees (c : TitleCall) : bool := match c with TFree _ => true | _ => false end.

(** Nothing is run and nothing outside changes. *)
Record calm (w w' : World) : Prop := {
  m_runs : w_runs w' = w_runs w;
  m_dispatched : dispatched (w_st w') = dispatched (w_st w);
  m_fired : fired_connected (w_st w') ⊆ fired_connected (w_st w);
  m_outside : w_orig w' = w_orig w ∧ w_user_ini w' = w_user_ini w ∧ w_computer w' = w_computer w;
}.

#[export] Instance calm_preorder : PreOrder calm.
Proof.
  split; [by split|]. intros w1 w2 w3 H1 H2. split.
  - by rewrite (m_runs _ _ H2), (m_runs _ _ H1).
  - by rewrite (m_dispatched _ _ H2), (m_dispatched _ _ H1).
  - by rewrite (m_fired _ _ H2), (m_fired _ _ H1).
  - destruct (m_outside _ _ H1) as (? & ? & ?), (m_outside _ _ H2) as (? & ? & ?). split_and!; congruence.
Qed.

(** A step that changes none of it. *)
Ltac calm_step := split; cbn; (done || reflexivity || apply subseteq_difference_l || idtac).

(** The objects that are there stay. *)
Definition held (w w' : World) : Prop := ∀ obj o, w_objs w !! obj = Some o → w_objs w' !! obj = Some o.

#[export] Instance held_preorder : PreOrder held.
Proof. split; [by intros w obj o|]. intros w1 w2 w3 H1 H2 obj o Ho. auto. Qed.

Section keeps.
Context `{E : SteamEnv}.

Lemma call_orig_keeps c w : inv w → keeps calm inv (call_orig c) (λ _ w', held w w') w.
Proof. intros Hi. unfold keeps, wp, call_orig. case_bool_decide; (split; [done|split; [calm_step|by intros ??]]). Qed.

(** A change of the state that leaves alone what the rest of the world relies on. *)
Lemma mod_st_keeps f w :
  inv w →
  inv_of (f (w_st w)) (w_objs w) (w_runs w) (w_handles w) (w_next_handle w) (w_calls w) (w_next_call w) →
  dispatched (f (w_st w)) = dispatched (w_st w) →
  fired_connected (f (w_st w)) ⊆ fired_connected (w_st w) →
  keeps calm inv (mod_st f) (λ _ w', held w w' ∧ w' = ws_st (f (w_st w)) w) w.
Proof. intros Hi Hf Hd Hc. split; [exact Hf|]. split; [split; done|]. split; [by intros ??|done]. Qed.

Lemma create_http_keeps method url w :
  inv w → keeps calm inv (create_http method url) (λ _ w', held w w') w.
Proof.
  intros [??????????]. unfold create_http. case_bool_decide; [by apply (keeps_ret calm)|].
  split; [|split; [calm_step|by intros ??]]. constructor; cbn; try done.
  - by apply counted_push.
  - intros h r. rewrite lookup_insert_Some. intros [[<- <-]|[? Hr]].
    + split; [apply elem_of_app; right; by left|]. split; done.
    + apply i_requests0 in Hr as [? ?]. split; [apply elem_of_app; by left|done].
Qed.

Lemma on_request_keeps h f w :
  inv w → (∀ r, req_ok r → req_ok (f r)) → keeps calm inv (on_request h f) (λ _ w', held w w') w.
Proof.
  intros [??????????] Hf. unfold on_request, get_st. unfold keeps. rewrite wp_bind, wp_gets.
  destruct (requests (w_st w) !! h) as [r|] eqn:Hr; [|by split; [|split; [calm_step|]]].
  split; [|split; [calm_step|by intros ??]]. constructor; cbn; try done.
  intros h' r'. rewrite lookup_insert_Some. intros [[<- <-]|[? Hr']]; [|by apply i_requests0].
  apply i_requests0 in Hr as [? ?]. auto.
Qed.

Lemma release_keeps h w : inv w → keeps calm inv (release h) (λ _ w', held w w') w.
Proof.
  intros [??????????]. split; [|split; [calm_step|by intros ??]]. constructor; cbn; try done.
  intros h' r' [? Hr]%lookup_delete_Some. by apply i_requests0.
Qed.

Definition net_ok : Prop := ∀ n r, answer_ok (net n r).

Lemma exchange_req_ok req a : answer_ok a → req_ok req → req_ok (exchange_result req a).
Proof.
  intros [_ Ha] [Hc Hs]. unfold exchange_result. destruct (fetched a); split; cbn; try done.
  destruct (ha_session a); [done|ulia].
Qed.

Lemma send_finish_keeps h req w :
  inv w → req_ok req → is_u32 h →
  keeps calm inv (send_finish h req) (λ _ w', held w w') w.
Proof.
  intros [??????????] [Hrc Hrs] Hh. split; [|split; [|by intros ??]]; cbn.
  2: { destruct (requests (w_st w) !! h); calm_step. }
  unfold inv. cbn. set (s := match requests (w_st w) !! h with Some _ => _ | None => _ end).
  assert (Hs : calls s = calls (w_st w) ∧ call_results s = call_results (w_st w) ∧
               dispatched s = dispatched (w_st w) ∧ callbacks s = callbacks (w_st w) ∧
               ∀ h' r, requests s !! h' = Some r → h' ∈ w_handles w ∧ req_ok r).
  { unfold s. destruct (requests (w_st w) !! h) as [r0|] eqn:Hr0; cbn; split_and!; try done.
    intros h' r. rewrite lookup_insert_Some. intros [[<- <-]|[? Hr']]; [|by apply i_requests0].
    apply i_requests0 in Hr0 as [? [? ?]]. by split. }
  destruct Hs as (Hc & Hcr & Hd & Hcb & Hreq).
  assert (Hnew : ∀ c, is_Some (<[w_next_call w:=mkCall h (negb (q_ok req) && (q_status req =? 0))]> (calls (w_st w)) !! c) ↔
                 c = w_next_call w ∨ is_Some (calls (w_st w) !! c)).
  { intros c. rewrite lookup_insert_is_Some'. split; (intros [?|?]; [left; congruence|by right]). }
  constructor; cbn; rewrite ?Hc, ?Hcr, ?Hd, ?Hcb; try done.
  - intros obj [Ho|[call Ho]]; apply i_live0; [left|right]; cbn in Ho; rewrite ?Hcb, ?Hcr in Ho; [done|by exists call].
  - intros c Hcd. apply Hnew. right. by apply i_dispatched0.
  - by apply counted_push.
  - intros c. rewrite Hnew, elem_of_app, list_elem_of_singleton, i_calls0. tauto.
  - intros c x. rewrite lookup_insert_Some. intros [[_ <-]|[_ Hx]]; [done|by eapply i_call_request0].
Qed.

Lemma send_http_keeps h w : net_ok → inv w → keeps calm inv (send_http h) (λ _ w', held w w') w.
Proof.
  intros Hn Hi. pose proof Hi as [??????????]. unfold keeps, send_http, send_begin, get_st.
  rewrite !wp_bind, wp_gets. unfold wp at 1. cbn [mret].
  destruct (requests (w_st w) !! h) as [r|] eqn:Hr; cbn; [|by split; [|split; [calm_step|]]].
  apply i_requests0 in Hr as [Hh [Hc _]].
  assert (Hh32 : is_u32 h) by (eapply counted_range; [done|exact i_handles0|by right]).
  rewrite wp_bind. unfold wp at 1. rewrite winhttp_execute_spec by apply Hn.
  set (req := set_result 0 [] false r). set (w1 := ws_win _ _ w).
  rewrite wp_bind. eapply wp_mono.
  { apply (send_finish_keeps h (exchange_result req (net (w_exchanges w) req)) w1); [exact Hi| |exact Hh32].
    apply exchange_req_ok; [apply Hn|]. split; cbn; [done|ulia]. }
  intros call w2 (Hi2 & Hm & Hh2). split; [done|]. split; [|exact Hh2].
  etrans; [|exact Hm]. calm_step.
Qed.
Lemma get_auth_ticket_webapi_keeps identity w :
  inv w → keeps calm inv (get_auth_ticket_webapi identity) (λ _ w', held w w') w.
Proof.
  intros Hi. unfold get_auth_ticket_webapi. eapply (keeps_bind calm inv _ _ _ (λ _ w', held w w')).
  - case_bool_decide; [by apply (keeps_ret calm)|].
    eapply (keeps_bind calm); [by apply call_orig_keeps|]. intros a w1 ? _ ?. by apply (keeps_ret calm).
  - intros h w1 Hi1 _ Hh. destruct (negb (h =? 0)); [by apply (keeps_ret calm)|].
    split; [|split; [calm_step|exact Hh]]. pose proof Hi1 as [??????????]. by constructor.
Qed.

Lemma orig_keeps c w : inv w → keeps calm inv (let* _ := call_orig c in mret tt) (λ _ w', held w w') w.
Proof.
  intros Hi. eapply (keeps_bind calm); [by apply call_orig_keeps|].
  intros y w1 Hi1 _ Hh1. by apply (keeps_ret calm).
Qed.

Lemma registration_keeps f c w :
  inv w →
  inv_of (f (w_st w)) (w_objs w) (w_runs w) (w_handles w) (w_next_handle w) (w_calls w) (w_next_call w) →
  dispatched (f (w_st w)) = dispatched (w_st w) →
  fired_connected (f (w_st w)) ⊆ fired_connected (w_st w) →
  keeps calm inv (mod_st f;; let* _ := call_orig c in mret tt) (λ _ w', held w w') w.
Proof.
  intros Hi Hf Hd Hc. eapply (keeps_bind calm); [by apply mod_st_keeps|].
  intros x w1 Hi1 _ [Hh _]. eapply (keeps_mono calm); [by apply orig_keeps|].
  intros y w2 Hi2 _ Hh2. split; [done|]. by etrans.
Qed.

Lemma do_call_keeps c w :
  net_ok → inv w → call_ok c w →
  keeps calm inv (do_call c) (λ _ w', frees c = false → held w w') w.
Proof.
  intros Hn Hi Hc.
  assert (Hthen : ∀ A (m : SC A), keeps calm inv m (λ _ w', held w w') w →
    keeps calm inv (let* _ := m in mret tt) (λ _ w', frees c = false → held w w') w).
  { intros A m Hm. eapply (keeps_bind calm); [exact Hm|]. intros x w1 ? _ ?. by apply (keeps_ret calm). }
  assert (Hplain : ∀ m : SC unit, keeps calm inv m (λ _ w', held w w') w →
    keeps calm inv m (λ _ w', frees c = false → held w w') w).
  { intros m Hm. eapply (keeps_mono calm); [exact Hm|]. auto. }
  pose proof Hi as [??????????]. destruct c; cbn [do_call call_ok] in *.
  - by apply Hthen, create_http_keeps.
  - apply Hthen, on_request_keeps; [done|]. intros r [_ ?]. by split.
  - by apply Hthen, on_request_keeps.
  - apply Hthen. unfold set_raw_body. destruct data as [bytes|]; [|by apply on_request_keeps].
    case_if; [|by apply on_request_keeps].
    unfold keeps, get_st. rewrite wp_bind, wp_gets. rewrite (proj2 (Z.ltb_ge _ _)) by lia.
    rewrite andb_false_r. by apply on_request_keeps.
  - by apply Hthen, send_http_keeps.
  - by apply Hthen, release_keeps.
  - apply Hplain. unfold hook_reg_call.
    destruct (negb (cb =? 0) && negb (call =? 0)) eqn:Hb; cbn [when].
    2: { by apply (orig_keeps _ w Hi). }
    bool_props. destruct Hc as [->|Hl]; [done|]. apply registration_keeps; cbn; try done.
    constructor; cbn; try done. intros obj [Ho|[call' Ho]]; [by apply i_live0; left|].
    cbn in Ho. apply lookup_insert_Some in Ho as [[_ <-]|[_ Ho]]; [done|]. apply i_live0. right. by exists call'.
  - apply Hplain. unfold hook_unreg_call. apply registration_keeps; cbn; try done.
    constructor; cbn; try done. intros obj [Ho|[call' Ho]]; [by apply i_live0; left|].
    cbn in Ho. apply lookup_delete_Some in Ho as [_ Ho]. apply i_live0. right. by exists call'.
  - apply Hplain. unfold hook_reg_cb. destruct (negb (cb =? 0)) eqn:Hb; cbn [when].
    2: { by apply (orig_keeps _ w Hi). }
    bool_props. destruct Hc as [->|Hl]; [done|]. apply registration_keeps; cbn; try done.
    constructor; cbn; try done. intros obj [Ho|Ho]; [|by apply i_live0; right].
    cbn in Ho. rewrite fmap_app, elem_of_app in Ho. destruct Ho as [Ho| ->%list_elem_of_singleton]; [by apply i_live0; left|done].
  - apply Hplain. unfold hook_unreg_cb. destruct (negb (cb =? 0)) eqn:Hb; cbn [when].
    2: { by apply (orig_keeps _ w Hi). }
    apply registration_keeps; cbn; try done; [|apply subseteq_difference_l; reflexivity].
    constructor; cbn; try done. intros obj [Ho|Ho]; [|by apply i_live0; right].
    cbn in Ho. apply i_live0. left. apply list_elem_of_fmap in Ho as (p & -> & [_ Hp]%list_elem_of_filter).
    apply list_elem_of_fmap. by exists p.
  - by apply Hthen, get_auth_ticket_webapi_keeps.
  - destruct Hc as (Hne & Hfree & Hok). split; [|split; [calm_step|]].
    + constructor; cbn; try done.
      * intros obj' o'. rewrite lookup_insert_Some. intros [[<- <-]|[_ ?]]; [done|by apply i_objs0].
      * intros obj' Ho. apply i_live0 in Ho as [o' Ho]. apply lookup_insert_is_Some'. right. by exists o'.
    + intros _ obj' o' Ho. cbn. rewrite lookup_insert_ne; congruence.
  - split; [|split; [calm_step|done]]. constructor; cbn; try done.
    + intros obj' o' [_ ?]%lookup_delete_Some. by apply i_objs0.
    + intros obj' Ho. destruct (decide (obj = obj')) as [->|Hne]; [done|].
      rewrite lookup_delete_ne by done. by apply i_live0.
Qed.
End keeps.
