(* ===== verification/SteamRun.v ===== *)
(** * The Steam shim: running callbacks

    The rules kept by what surrounds the shim, the invariant of [SteamInv]
    through the runs of the title's callbacks, and the exact runs of a
    dispatch. *)

From S2P Require Import Prelude RustStr SteamAbi LanCfg Pe Comp SteamHttp SteamInv.
#[local] Open Scope string_scope.
#[local] Open Scope list_scope.
#[local] Open Scope Z_scope.
#[local] Open Scope comp_scope.

(** [ran rs w w']: from [w] to [w'] the runs [rs] were made; no object was freed. *)
Record ran (rs : list Run) (w w' : World) : Prop := {
  n_runs : w_runs w' = w_runs w ++ rs;
  n_dispatched : dispatched (w_st w') = dispatched (w_st w);
  n_held : held w w';
  n_outside : w_orig w' = w_orig w ∧ w_user_ini w' = w_user_ini w ∧ w_computer w' = w_computer w;
}.

Lemma ran_refl w : ran [] w w.
Proof. split; [by rewrite app_nil_r|done|reflexivity|done]. Qed.

Lemma ran_trans a b w1 w2 w3 : ran a w1 w2 → ran b w2 w3 → ran (a ++ b) w1 w3.
Proof.
  intros H1 H2. split.
  - by rewrite (n_runs _ _ _ H2), (n_runs _ _ _ H1), app_assoc.
  - by rewrite (n_dispatched _ _ _ H2), (n_dispatched _ _ _ H1).
  - etrans; [apply (n_held _ _ _ H1)|apply (n_held _ _ _ H2)].
  - destruct (n_outside _ _ _ H1) as (? & ? & ?), (n_outside _ _ _ H2) as (? & ? & ?). split_and!; congruence.
Qed.

Lemma calm_ran w w' : calm w w' → held w w' → ran [] w w'.
Proof. intros H Hh. split; [by rewrite (m_runs _ _ H), app_nil_r|apply H|done|apply H]. Qed.

Section env.
Context `{E : SteamEnv}.

(** ** The rules *)

(** Each call is as [call_ok] allows where it is made. *)
Fixpoint calls_ok (cs : list TitleCall) (w : World) : Prop :=
  match cs with
  | [] => True
  | c :: cs => call_ok c w ∧ ∀ w', do_call c w = Some (tt, w') → calls_ok cs w'
  end.

(** WinHTTP keeps to its buffers; the callbacks the shim runs make only allowed calls and free no
    callback object; those the emulator runs make only allowed calls. *)
Record env_ok : Prop := {
  e_net : net_ok;
  e_title : ∀ w r, inv w → calls_ok (title w r).2 w;
  e_frees : ∀ w r, Forall (λ c, frees c = false) (title w r).2;
  e_emulator : ∀ w, inv w → calls_ok (emulator w) w;
}.

Lemma do_calls_keeps cs w :
  net_ok → inv w → calls_ok cs w →
  keeps calm inv (for_each cs do_call) (λ _ w', Forall (λ c, frees c = false) cs → held w w') w.
Proof.
  intros Hn. revert w. induction cs as [|c cs IH]; intros w Hi Hc; cbn [for_each]; [by apply (keeps_ret calm)|].
  destruct Hc as [Hc Hcs]. unfold keeps. rewrite wp_bind.
  pose proof (do_call_keeps c w Hn Hi Hc) as Hk. unfold keeps, wp in Hk |- *.
  destruct (do_call c w) as [[[] w1]|] eqn:Hd; [|done]. destruct Hk as (Hi1 & Hm1 & Hh1).
  specialize (IH w1 Hi1 (Hcs w1 eq_refl)). unfold keeps, wp in IH.
  destruct (for_each cs do_call w1) as [[[] w2]|]; [|done]. destruct IH as (Hi2 & Hm2 & Hh2).
  split; [done|]. split; [by etrans|]. intros [? ?]%Forall_cons. etrans; eauto.
Qed.

(** A run is of a call that is marked, and for the first time. *)
Definition run_fresh (r : Run) (w : World) : Prop :=
  match r_call r with
  | Some (_, c) => c ∈ dispatched (w_st w) ∧ c ∉ run_calls (w_runs w)
  | None => True
  end.

Lemma run_calls_app a b : run_calls (a ++ b) = run_calls a ++ run_calls b.
Proof. apply omap_app. Qed.

Lemma run_inv r w : inv w → run_fresh r w → inv (ws_run r w).
Proof.
  intros [??????????] Hr. constructor; cbn; try done.
  - rewrite run_calls_app. unfold run_fresh in Hr. cbn. destruct (r_call r) as [[f c]|]; cbn; [|by rewrite app_nil_r].
    apply NoDup_app. split; [done|]. split; [|apply NoDup_singleton].
    intros x Hx ->%list_elem_of_singleton. by apply Hr.
  - rewrite run_calls_app. unfold run_fresh in Hr. cbn. destruct (r_call r) as [[f c]|]; cbn; [|by rewrite app_nil_r].
    intros x [Hx| ->%list_elem_of_singleton]%elem_of_app; [by apply i_run_dispatched|by apply Hr].
Qed.

Lemma run_title_spec r w :
  env_ok → inv w → run_fresh r w →
  wp (run_title r) (λ b w', inv w' ∧ ran [r] w w' ∧ b = (title (ws_run r w) r).1) w.
Proof.
  intros He Hi Hr. unfold run_title. rewrite wp_bind. unfold wp at 1. cbn [modify].
  rewrite wp_bind, wp_gets, wp_bind.
  pose proof (run_inv r w Hi Hr) as Hi1. eapply wp_mono.
  { apply (do_calls_keeps (title (ws_run r w) r).2 (ws_run r w)); [apply He|done|by apply e_title]. }
  intros [] w' (Hi2 & Hm & Hh). unfold wp. cbn [mret]. split; [done|]. split; [|done].
  apply (ran_trans [r] [] w (ws_run r w)).
  - split; [done|done|by intros ??|done].
  - apply calm_ran; [done|]. apply Hh, He.
Qed.

(** ** A callback *)

(** The slot of [Run]: two before the one whose code returns a size. *)
Fixpoint run_index (slots : list (option (list byte))) (default : nat) (i fuel : nat) : nat :=
  match fuel with
  | O => default
  | S fuel =>
      match match slots !! i with Some (Some code) => mov_eax_imm (take 16 code) | _ => None end with
      | Some sz => if (1 <=? sz) && (sz <? 8192) && (2 <=? i)%nat then (i - 2)%nat
                   else run_index slots default (S i) fuel
      | None => run_index slots default (S i) fuel
      end
  end.

Lemma run_index_bound slots default i fuel :
  (i + fuel ≤ 6)%nat → (default < 6)%nat → (run_index slots default i fuel < 6)%nat.
Proof.
  revert i. induction fuel as [|fuel IH]; intros i Hf Hd; cbn [run_index]; [done|].
  destruct (match slots !! i with Some _ => _ | None => _ end); [case_if; [lia|]|]; apply IH; lia.
Qed.

Lemma run_index_loop_spec slots default i fuel w :
  obj_ok (Some slots) → (i + fuel ≤ 6)%nat →
  run_index_loop slots default i fuel w = Some (run_index slots default i fuel, w).
Proof.
  intros [Hl Hs]. revert i. induction fuel as [|fuel IH]; intros i Hf; cbn [run_index_loop run_index]; [done|].
  destruct (slots !! i) as [f|] eqn:Hi; [|apply lookup_ge_None in Hi; lia].
  pose proof (Forall_lookup_1 _ _ _ _ Hs Hi) as Hf'. destruct f as [code|]; [|done]. cbn [slot_ok] in Hf'.
  rewrite (proj2 (Nat.ltb_ge _ _)) by done.
  destruct (mov_eax_imm (take 16 code)); [case_if; [done|]|]; apply IH; lia.
Qed.

(** The run of an object, if its vtable pointer is not null. *)
Definition cb_run (objs : gmap Z CbObj) (obj : Z) (data : list byte) (dflt : nat) : list Run :=
  match default (None : CbObj) (objs !! obj) with
  | Some slots => [mkRun obj (run_index slots dflt 0 6) data None]
  | None => []
  end.

Lemma vtable_get obj o w : w_objs w !! obj = Some o → vtable obj w = Some (o, w).
Proof. unfold vtable. by intros ->. Qed.

Lemma call_slot_spec slots r w :
  env_ok → inv w → run_fresh r w → obj_ok (Some slots) → (r_slot r < 6)%nat →
  wp (call_slot slots r) (λ b w', inv w' ∧ ran [r] w w' ∧ b = (title (ws_run r w) r).1) w.
Proof.
  intros He Hi Hr [Hl Hs] Hslot. unfold call_slot.
  destruct (slots !! r_slot r) as [f|] eqn:Hf; [|apply lookup_ge_None in Hf; lia].
  pose proof (Forall_lookup_1 _ _ _ _ Hs Hf) as Hf'. destruct f; [|done]. by apply run_title_spec.
Qed.

(** The buffers are what the shim made them, if no callback writes into them. *)
Definition buffers_kept : Prop := ∀ w r, (title w r).1 = r_data r.

Lemma invoke_callback_spec obj data dflt w :
  env_ok → inv w → is_Some (w_objs w !! obj) → (dflt < 6)%nat →
  wp (invoke_callback obj data dflt)
    (λ b w', inv w' ∧ ran (cb_run (w_objs w) obj data dflt) w w' ∧ (buffers_kept → b = data)) w.
Proof.
  intros He Hi [o Ho] Hd. unfold invoke_callback. pose proof (i_objs _ _ _ _ _ _ _ Hi obj o Ho) as [Hne Hok].
  rewrite (proj2 (Z.eqb_neq _ _)) by done. rewrite wp_bind. unfold wp at 1.
  rewrite (vtable_get _ _ _ Ho). unfold cb_run. rewrite Ho. cbn [default].
  destruct o as [slots|].
  2: { unfold wp. cbn. split; [done|]. split; [apply ran_refl|done]. }
  rewrite wp_bind. unfold wp at 1, callback_run_index, mbind at 1. rewrite (vtable_get _ _ _ Ho).
  rewrite run_index_loop_spec by (done || lia).
  eapply wp_mono; [apply call_slot_spec; try done; apply run_index_bound; lia|].
  intros b w' (Hi' & Hran & ->). split; [done|]. split; [done|]. intros Hk. by rewrite Hk.
Qed.

Lemma cb_run_held w w' obj data dflt :
  held w w' → is_Some (w_objs w !! obj) →
  cb_run (w_objs w') obj data dflt = cb_run (w_objs w) obj data dflt.
Proof. intros Hh [o Ho]. unfold cb_run. by rewrite Ho, (Hh _ _ Ho). Qed.

Lemma held_live w w' obj : held w w' → is_Some (w_objs w !! obj) → is_Some (w_objs w' !! obj).
Proof. intros Hh [o Ho]. exists o. auto. Qed.

(** ** The user callbacks *)

Lemma newly_connected_spec cbs fired :
  let r := newly_connected cbs fired in
  NoDup r.2 ∧ r.1 = fired ∪ list_to_set r.2 ∧
  ∀ p, p ∈ r.2 ↔ (CB_STEAM_SERVERS_CONNECTED, p) ∈ cbs ∧ p ∉ fired.
Proof.
  revert fired. induction cbs as [|[id p] cbs IH]; intros fired; cbn [newly_connected].
  { split; [constructor|]. split; [cbn; set_solver|]. intros p. cbn. set_solver. }
  destruct ((id =? CB_STEAM_SERVERS_CONNECTED) && negb (bool_decide (p ∈ fired))) eqn:Hb.
  - bool_props. apply bool_decide_eq_false in H0. subst id.
    destruct (IH ({[p]} ∪ fired)) as (Hnd & Heq & Hin). cbn zeta in *. cbn [fst snd]. split_and!.
    + constructor; [|done]. rewrite Hin. set_solver.
    + rewrite Heq. set_solver.
    + intros q. rewrite elem_of_cons, Hin, elem_of_cons. split.
      * intros [->|[? ?]]; [by auto|]. split; [by right|set_solver].
      * intros [[Hq|Hq] Hf]; [injection Hq as ->; by left|]. destruct (decide (q = p)); [by left|right; set_solver].
  - destruct (IH fired) as (Hnd & Heq & Hin). cbn zeta in *. split_and!; [done..|].
    intros q. rewrite Hin, elem_of_cons. split; [intros [? ?]; auto|]. intros [[Hq|Hq] Hf]; [|done].
    injection Hq as <- <-. exfalso. apply andb_false_iff in Hb as [Hb|Hb]; [done|].
    apply negb_false_iff, bool_decide_eq_true in Hb. done.
Qed.

Lemma connect_loop_spec l w :
  env_ok → inv w → (∀ p, p ∈ l → is_Some (w_objs w !! p)) →
  wp (for_each l (λ p, let* _ := invoke_callback p (replicate 8 x00) 0 in mret tt))
    (λ _ w', inv w' ∧ ran (concat (map (λ p, cb_run (w_objs w) p (replicate 8 x00) 0) l)) w w') w.
Proof.
  intros He. revert w. induction l as [|p l IH]; intros w Hi Hl; cbn [for_each map concat].
  { unfold wp. cbn. split; [done|apply ran_refl]. }
  rewrite !wp_bind. eapply wp_mono; [apply invoke_callback_spec; [done|done|apply Hl; left|lia]|].
  intros b w1 (Hi1 & Hr1 & _). unfold wp at 1. cbn [mret].
  pose proof (n_held _ _ _ Hr1) as Hh. eapply wp_mono.
  { apply IH; [done|]. intros q Hq. apply (held_live w); [done|]. apply Hl. by right. }
  intros _ w2 (Hi2 & Hr2). split; [done|]. eapply ran_trans; [exact Hr1|].
  erewrite map_ext_in; [exact Hr2|]. intros q Hq. cbn. symmetry. apply cb_run_held; [done|].
  apply Hl. right. by apply list_elem_of_In.
Qed.

Definition listeners (cbs : list (Z * Z)) : list Z :=
  (filter (λ p : Z * Z, p.1 = CB_TICKET_FOR_WEBAPI) cbs).*2.

Lemma listeners_cons id p cbs :
  listeners ((id, p) :: cbs) = if decide (id = CB_TICKET_FOR_WEBAPI) then p :: listeners cbs else listeners cbs.
Proof. unfold listeners. rewrite filter_cons. cbn [fst]. by destruct (decide _). Qed.

(** The runs of one ticket: every listener in turn, and the same bytes to each unless one writes. *)
Lemma deliver_ticket_spec cbs packed w :
  env_ok → inv w → (∀ p, p ∈ listeners cbs → is_Some (w_objs w !! p)) →
  wp (deliver_ticket cbs packed)
    (λ _ w', inv w' ∧ ∃ rs, ran rs w w' ∧
       (buffers_kept → rs = concat (map (λ p, cb_run (w_objs w) p packed 1) (listeners cbs))) ∧
       map (λ r, (r_obj r, r_slot r)) rs =
         map (λ r, (r_obj r, r_slot r)) (concat (map (λ p, cb_run (w_objs w) p packed 1) (listeners cbs)))) w.
Proof.
  intros He. revert packed w. induction cbs as [|[id p] cbs IH]; intros packed w Hi Hl; cbn [deliver_ticket].
  { unfold wp. cbn. split; [done|]. exists []. split; [apply ran_refl|done]. }
  rewrite listeners_cons in *.
  destruct (decide (id = CB_TICKET_FOR_WEBAPI)) as [->|Hne].
  2: { rewrite (proj2 (Z.eqb_neq _ _)) by done. by apply IH. }
  rewrite Z.eqb_refl. cbn [map concat]. rewrite wp_bind.
  eapply wp_mono; [apply invoke_callback_spec; [done|done|apply Hl; left|lia]|].
  intros b w1 (Hi1 & Hr1 & Hb). pose proof (n_held _ _ _ Hr1) as Hh.
  assert (Hl1 : ∀ q, q ∈ listeners cbs → is_Some (w_objs w !! q))
    by (intros q Hq; apply Hl; by right).
  eapply wp_mono; [apply IH; [done|]; intros q Hq; apply (held_live w); auto|].
  intros _ w2 (Hi2 & rs & Hr2 & Heq & Hobj). split; [done|].
  exists (cb_run (w_objs w) p packed 1 ++ rs). split; [by eapply ran_trans|].
  assert (Hsame : ∀ d, map (λ q, cb_run (w_objs w1) q d 1) (listeners cbs) =
                       map (λ q, cb_run (w_objs w) q d 1) (listeners cbs)).
  { intros d. apply map_ext_in. intros q Hq%list_elem_of_In. apply cb_run_held; auto. }
  split.
  - intros Hk. rewrite Heq, Hb by done. by rewrite Hsame.
  - rewrite !map_app, Hobj, Hsame. f_equal. rewrite !concat_map, !map_map. f_equal. apply map_ext.
    intros q. unfold cb_run. by case_match.
Qed.
(** The runs that hand one ticket to the listeners, in their order of registration. *)
Definition ticket_runs (objs : gmap Z CbObj) (cbs : list (Z * Z)) (t : list byte) (handle : Z) : list Run :=
  concat (map (λ p, cb_run objs p (pack_webapi_ticket handle t WEBAPI_TICKET_MAX) 1) (listeners cbs)).
Definition connect_runs (objs : gmap Z CbObj) (ps : list Z) : list Run :=
  concat (map (λ p, cb_run objs p (replicate 8 x00) 0) ps).
Definition where_run (rs : list Run) : list (Z * nat) := map (λ r, (r_obj r, r_slot r)) rs.

Lemma ticket_runs_held w w' cbs t h :
  held w w' → (∀ p, p ∈ listeners cbs → is_Some (w_objs w !! p)) →
  ticket_runs (w_objs w') cbs t h = ticket_runs (w_objs w) cbs t h.
Proof.
  intros Hh Hl. unfold ticket_runs. f_equal. apply map_ext_in. intros p Hp%list_elem_of_In.
  apply cb_run_held; auto.
Qed.

Lemma tickets_loop_spec cbs t hs w :
  env_ok → inv w → (∀ p, p ∈ listeners cbs → is_Some (w_objs w !! p)) →
  t = lan_steam_ticket (w_user_ini w) (w_computer w) →
  wp (for_each hs (λ handle, let* t := my_ticket in deliver_ticket cbs (pack_webapi_ticket handle t WEBAPI_TICKET_MAX)))
    (λ _ w', inv w' ∧ ∃ rs, ran rs w w' ∧
       (buffers_kept → rs = concat (map (ticket_runs (w_objs w) cbs t) hs)) ∧
       where_run rs = where_run (concat (map (ticket_runs (w_objs w) cbs t) hs))) w.
Proof.
  intros He. revert w. induction hs as [|h hs IH]; intros w Hi Hl Ht; cbn [for_each map concat].
  { unfold wp. cbn. split; [done|]. exists []. split; [apply ran_refl|done]. }
  rewrite wp_bind, wp_bind. unfold my_ticket at 1. rewrite wp_gets, <- Ht.
  eapply wp_mono; [by apply deliver_ticket_spec|]. intros _ w1 (Hi1 & rs1 & Hr1 & Heq1 & Hw1).
  pose proof (n_held _ _ _ Hr1) as Hh. destruct (n_outside _ _ _ Hr1) as (_ & Hu & Hc).
  eapply wp_mono; [apply IH; [done| |congruence]; intros p Hp; apply (held_live w); auto|].
  intros _ w2 (Hi2 & rs2 & Hr2 & Heq2 & Hw2). split; [done|]. exists (rs1 ++ rs2).
  assert (Hsame : map (ticket_runs (w_objs w1) cbs t) hs = map (ticket_runs (w_objs w) cbs t) hs).
  { apply map_ext. intros h'. by apply ticket_runs_held. }
  rewrite Hsame in Heq2, Hw2. split; [by eapply ran_trans|]. split.
  - intros Hk. rewrite Heq2, Heq1 by done. done.
  - unfold where_run in *. rewrite !map_app, Hw2, Hw1. done.
Qed.

Lemma set_user_inv w fired :
  inv w → inv (ws_st (set_pending [] (set_callbacks (callbacks (w_st w)) fired (w_st w))) w).
Proof. intros [??????????]. by constructor. Qed.

Lemma listeners_in cbs p : p ∈ listeners cbs → p ∈ cbs.*2.
Proof.
  unfold listeners. rewrite !list_elem_of_fmap. intros (x & -> & [_ Hx]%list_elem_of_filter). by exists x.
Qed.

(** The callbacks of one dispatch: each object newly found under [CB_STEAM_SERVERS_CONNECTED], then
    each pending ticket to every listener. *)
Lemma dispatch_user_spec w :
  env_ok → inv w →
  let s := w_st w in
  let objs := w_objs w in
  let connected := (newly_connected (callbacks s) (fired_connected s)).2 in
  let t := lan_steam_ticket (w_user_ini w) (w_computer w) in
  let expected := connect_runs objs connected ++ concat (map (ticket_runs objs (callbacks s) t) (pending_webapi s)) in
  wp dispatch_steam_user_callbacks
    (λ _ w', inv w' ∧ ∃ rs, ran rs w w' ∧ (buffers_kept → rs = expected) ∧ where_run rs = where_run expected) w.
Proof.
  intros He Hi s objs connected t expected. unfold dispatch_steam_user_callbacks, get_st.
  rewrite wp_bind, wp_gets. fold s.
  pose proof (newly_connected_spec (callbacks s) (fired_connected s)) as (_ & _ & Hin).
  subst connected. destruct (newly_connected (callbacks s) (fired_connected s)) as [fired connected] eqn:Hc.
  cbn [snd] in *. rewrite wp_bind. unfold wp at 1, mod_st. cbn [modify].
  set (w1 := ws_st _ w). assert (Hi1 : inv w1) by (by apply set_user_inv).
  assert (Hlive : ∀ p, p ∈ (callbacks s).*2 → is_Some (w_objs w !! p)).
  { intros p Hp. apply (i_live _ _ _ _ _ _ _ Hi). by left. }
  assert (Hr1 : ran [] w w1) by (split; [cbn; by rewrite app_nil_r|done|by intros ??|done]).
  rewrite wp_bind. eapply wp_mono.
  { apply connect_loop_spec; [done|done|]. intros p Hp. apply Hlive, list_elem_of_fmap.
    exists (CB_STEAM_SERVERS_CONNECTED, p). split; [done|]. by apply Hin. }
  intros _ w2 (Hi2 & Hr2). pose proof (ran_trans _ _ _ _ _ Hr1 Hr2) as Hr. cbn [app] in Hr.
  destruct (n_outside _ _ _ Hr) as (_ & Hu & Hcm). pose proof (n_held _ _ _ Hr) as Hh.
  assert (Hll : ∀ p, p ∈ listeners (callbacks s) → is_Some (w_objs w !! p)).
  { intros p Hp. by apply Hlive, listeners_in. }
  eapply wp_mono.
  { apply (tickets_loop_spec (callbacks s) t); [done|done| |unfold t; congruence].
    intros p Hp. apply (held_live w); auto. }
  intros _ w3 (Hi3 & rs & Hr3 & Heq & Hw). split; [done|].
  assert (Hsame : map (ticket_runs (w_objs w2) (callbacks s) t) (pending_webapi s) =
                  map (ticket_runs objs (callbacks s) t) (pending_webapi s)).
  { apply map_ext. intros h. by apply ticket_runs_held. }
  rewrite Hsame in Heq, Hw. exists (connect_runs objs connected ++ rs).
  split; [by eapply ran_trans|]. unfold expected. split.
  - intros Hk. by rewrite Heq.
  - unfold where_run in *. by rewrite !map_app, Hw.
Qed.

(** ** The call results *)

(** The delivery of one call, when it is complete and registered. *)
Definition job_of (s : State) (call : Z) : option Job :=
  match call_results s !! call, calls s !! call with
  | Some cb, Some c => Some (mkJob call cb (packed_of s c) (if c_failed c then 1 else 0))
  | _, _ => None
  end.
Definition due (s : State) (call : Z) : option Job :=
  if bool_decide (call ∈ dispatched s) then None else job_of s call.

Lemma collect_jobs_spec s keys done :
  NoDup keys →
  let r := collect_jobs s keys done in
  r.2 = omap (λ call, if bool_decide (call ∈ done) then None else job_of s call) keys ∧
  r.1 = done ∪ list_to_set (map j_call r.2).
Proof.
  intros Hnd. revert done. induction Hnd as [|call keys Hc Hnd IH]; intros done; cbn [collect_jobs omap list_omap].
  { split; [done|]. cbn. set_solver. }
  assert (Hskip : ∀ d : gset Z, (∀ x, x ∈ keys → (x ∈ d ↔ x ∈ done)) →
    omap (λ c, if bool_decide (c ∈ d) then None else job_of s c) keys =
    omap (λ c, if bool_decide (c ∈ done) then None else job_of s c) keys).
  { intros d Hd. clear -Hd. induction keys as [|x keys IH]; [done|]. cbn [omap list_omap].
    rewrite (bool_decide_ext _ (x ∈ done)) by (apply Hd; left). rewrite IH; [done|]. intros y Hy. apply Hd. by right. }
  unfold job_of at 1. case_bool_decide; [apply IH|].
  destruct (call_results s !! call) as [cb|]; [|apply IH].
  destruct (calls s !! call) as [c|]; [|apply IH].
  destruct (IH ({[call]} ∪ done)) as [H2 H1]. cbn [fst snd map j_call].
  rewrite (Hskip ({[call]} ∪ done)) in H2 by (intros x Hx; set_solver). split; [by rewrite H2|].
  rewrite H1. cbn [list_to_set]. set_solver.
Qed.

Lemma due_call s keys : map j_call (omap (due s) keys) = filter (λ c, is_Some (due s c)) keys.
Proof.
  induction keys as [|c keys IH]; [done|]. cbn [omap list_omap]. rewrite filter_cons.
  destruct (due s c) as [j|] eqn:Hd; [|destruct (decide (is_Some None)) as [[? ?]|]; done].
  destruct (decide (is_Some (Some j))) as [_|Hn]; [|destruct Hn; by eexists]. cbn [map]. rewrite IH. f_equal.
  unfold due, job_of in Hd. by repeat (case_bool_decide || case_match); simplify_eq.
Qed.

(** The run of a job, if the object's vtable pointer is not null. *)
Definition job_run (objs : gmap Z CbObj) (j : Job) : list Run :=
  match default (None : CbObj) (objs !! j_cb j) with
  | Some _ => [mkRun (j_cb j) 1 (j_packed j) (Some (j_failed j, j_call j))]
  | None => []
  end.

Lemma run_job_spec j w :
  env_ok → inv w → is_Some (w_objs w !! j_cb j) →
  j_call j ∈ dispatched (w_st w) → j_call j ∉ run_calls (w_runs w) →
  wp (run_job j) (λ _ w', inv w' ∧ ran (job_run (w_objs w) j) w w') w.
Proof.
  intros He Hi [o Ho] Hd Hf. unfold run_job, job_run.
  pose proof (i_objs _ _ _ _ _ _ _ Hi _ o Ho) as [Hne Hok]. rewrite (proj2 (Z.eqb_neq _ _)) by done.
  rewrite Ho. cbn [default]. rewrite wp_bind. unfold wp at 1. rewrite (vtable_get _ _ _ Ho).
  destruct o as [slots|]; [|split; [done|apply ran_refl]].
  rewrite wp_bind. eapply wp_mono.
  { apply call_slot_spec; [done|done|by split|done|cbn; lia]. }
  intros b w' (Hi' & Hr & _). by split.
Qed.

Lemma run_jobs_spec js w :
  env_ok → inv w → (∀ j, j ∈ js → is_Some (w_objs w !! j_cb j) ∧ j_call j ∈ dispatched (w_st w)) →
  NoDup (map j_call js) → (∀ j, j ∈ js → j_call j ∉ run_calls (w_runs w)) →
  wp (for_each js run_job) (λ _ w', inv w' ∧ ran (concat (map (job_run (w_objs w)) js)) w w') w.
Proof.
  intros He. revert w. induction js as [|j js IH]; intros w Hi Hl Hnd Hf; cbn [for_each map concat].
  { unfold wp. cbn. split; [done|apply ran_refl]. }
  cbn [map] in Hnd. apply NoDup_cons in Hnd as [Hj Hnd]. destruct (Hl j) as [Ho Hd]; [left|].
  rewrite wp_bind. eapply wp_mono; [apply run_job_spec; try done; apply Hf; left|].
  intros [] w1 (Hi1 & Hr1). pose proof (n_held _ _ _ Hr1) as Hh. eapply wp_mono.
  { apply IH; [done| |done|].
    - intros k Hk. destruct (Hl k) as [Hok Hdk]; [by right|]. rewrite (n_dispatched _ _ _ Hr1).
      split; [by apply (held_live w)|done].
    - intros k Hk. rewrite (n_runs _ _ _ Hr1), run_calls_app, elem_of_app. intros [Hin|Hin].
      { apply (Hf k); [by right|done]. }
      unfold job_run in Hin. case_match; cbn in Hin; [|by apply elem_of_nil in Hin].
      apply list_elem_of_singleton in Hin. apply Hj. rewrite <- Hin.
      apply list_elem_of_fmap. by exists k. }
  intros [] w2 (Hi2 & Hr2). split; [done|]. eapply ran_trans; [exact Hr1|].
  erewrite map_ext_in; [exact Hr2|]. intros k Hk%list_elem_of_In. unfold job_run.
  destruct (Hl k) as [[o' Ho'] _]; [by right|]. by rewrite Ho', (Hh _ _ Ho').
Qed.

(** The deliveries of one dispatch: exactly the calls that are due, in the order of the map. *)
Lemma dispatch_results_spec w :
  env_ok → inv w →
  let s := w_st w in
  let jobs := omap (due s) (call_order (calls s)) in
  wp dispatch_http_callresults
    (λ _ w', inv w' ∧ w_runs w' = w_runs w ++ concat (map (job_run (w_objs w)) jobs) ∧
       dispatched (w_st w') = dispatched s ∪ list_to_set (map j_call jobs) ∧ held w w') w.
Proof.
  intros He Hi s jobs. unfold dispatch_http_callresults, get_st. rewrite wp_bind, wp_gets. fold s.
  assert (Hnd : NoDup (call_order (calls s))) by (rewrite call_order_perm; apply NoDup_fst_map_to_list).
  pose proof (collect_jobs_spec s _ (dispatched s) Hnd) as [H2 H1].
  destruct (collect_jobs _ _ _) as [d js]. cbn [fst snd] in *.
  assert (js = jobs) as -> by exact H2. subst d. clear H2.
  rewrite wp_bind. unfold wp at 1, mod_st. cbn [modify]. set (w1 := ws_st _ w).
  assert (Hjob : ∀ j, j ∈ jobs → call_results s !! j_call j = Some (j_cb j) ∧
                  is_Some (calls s !! j_call j) ∧ j_call j ∉ dispatched s).
  { intros j (c & Hc & Hj)%list_elem_of_omap. unfold due, job_of in Hj.
    case_bool_decide; [done|]. destruct (call_results s !! c) eqn:Hr; [|done].
    destruct (calls s !! c) eqn:Hx; [|done]. simplify_eq. cbn. rewrite Hx. auto. }
  assert (Hnj : NoDup (map j_call jobs)) by (unfold jobs; rewrite due_call; by apply NoDup_filter).
  assert (Hi1 : inv w1).
  { destruct Hi as [??????????]. constructor; cbn; try done.
    - intros c Hc. apply elem_of_union_l. by apply i_run_dispatched.
    - intros c [Hc|Hc]%elem_of_union; [by apply i_dispatched|].
      apply elem_of_list_to_set, list_elem_of_fmap in Hc as (j & -> & Hj). by apply Hjob. }
  eapply wp_mono.
  { apply run_jobs_spec; [done|done| |done|].
    - intros j Hj. destruct (Hjob j Hj) as (Hr & _ & _). split.
      + apply (i_live _ _ _ _ _ _ _ Hi). right. by exists (j_call j).
      + cbn. apply elem_of_union_r, elem_of_list_to_set, list_elem_of_fmap. by exists j.
    - intros j Hj Hin. destruct (Hjob j Hj) as (_ & _ & Hnd'). apply Hnd'.
      by apply (i_run_dispatched _ _ _ _ _ _ _ Hi). }
  intros [] w2 (Hi2 & Hr2). split; [done|]. split; [apply Hr2|]. split; [apply Hr2|]. apply Hr2.
Qed.

(** ** [SteamAPI_RunCallbacks] *)

Lemma hook_run_callbacks_inv w : env_ok → inv w → wp hook_run_callbacks (λ _ w', inv w') w.
Proof.
  intros He Hi. unfold hook_run_callbacks. rewrite wp_bind.
  eapply wp_mono; [by apply call_orig_keeps|]. intros a w1 (Hi1 & _ & _). rewrite wp_bind.
  assert (wp (match a with Some _ => let* cs := gets emulator in for_each cs do_call | None => mret tt end)
            (λ _ w', inv w') w1) as Hem.
  { destruct a; [|done]. rewrite wp_bind, wp_gets. eapply wp_mono.
    - apply do_calls_keeps; [apply He|done|by apply e_emulator].
    - by intros [] w2 [? _]. }
  eapply wp_mono; [exact Hem|]. intros x w2 Hi2. rewrite wp_bind.
  eapply wp_mono; [by apply dispatch_user_spec|]. intros _ w3 [Hi3 _].
  eapply wp_mono; [by apply dispatch_results_spec|]. by intros _ w4 [? _].
Qed.

(** ** Runs of the system

    The title calls the shim, runs the callbacks, and has requests sent from any number of threads:
    each [send_http] is the two critical sections around an exchange, and other steps come between. *)

Definition Sys : Type := World * list (Z * Request).

Inductive sstep : Sys → Sys → Prop :=
  | s_call c w w' fl : call_ok c w → do_call c w = Some (tt, w') → sstep (w, fl) (w', fl)
  | s_run w w' fl : hook_run_callbacks w = Some (tt, w') → sstep (w, fl) (w', fl)
  | s_send_begin h req w w' fl : send_begin h w = Some (Some req, w') → sstep (w, fl) (w', fl ++ [(h, req)])
  | s_send_end i h req req' call w w1 w2 fl :
      fl !! i = Some (h, req) → winhttp_execute req w = Some (req', w1) →
      send_finish h req' w1 = Some (call, w2) → sstep (w, fl) (w2, delete i fl)
  | s_outside orig ini computer w fl : sstep (w, fl) (ws_outside orig ini computer w, fl).

Definition sys_inv (s : Sys) : Prop :=
  inv s.1 ∧ Forall (λ x : Z * Request, is_u32 x.1 ∧ req_ok x.2) s.2.

Definition reachable (s : Sys) : Prop := ∃ orig ini computer, rtc sstep (world_init orig ini computer, []) s.

Lemma steam_init_inv orig ini computer : inv (world_init orig ini computer).
Proof.
  constructor; cbn; try done.
  - intros obj [Ho|[c Ho]]; [by apply elem_of_nil in Ho|done].
  - constructor.
  - by intros c Hc%elem_of_nil.
  - intros c. rewrite lookup_empty, elem_of_nil. split; [by intros []|done].
Qed.

Lemma sstep_inv s s' : env_ok → sys_inv s → sstep s s' → sys_inv s'.
Proof.
  intros He [Hi Hf] Hs. destruct Hs as [c w w' fl Hc Hd|w w' fl Hr|h req w w' fl Hb|i h' req req' call w w1 w2 fl Hl Hx Hsf|];
    cbn [fst snd] in *.
  - split; [|done]. pose proof (do_call_keeps c w (e_net He) Hi Hc) as Hk.
    unfold keeps, wp in Hk. rewrite Hd in Hk. apply Hk.
  - split; [|done]. pose proof (hook_run_callbacks_inv w He Hi) as Hk. unfold wp in Hk. by rewrite Hr in Hk.
  - unfold send_begin, get_st, mbind, gets, mret in Hb. injection Hb as Hreq <-.
    split; [done|]. apply Forall_app. split; [done|]. apply Forall_singleton. cbn.
    destruct (requests (w_st w) !! h) as [r|] eqn:Hr; [|done]. injection Hreq as <-.
    apply (i_requests _ _ _ _ _ _ _ Hi) in Hr as [Hh [Hc _]]. split.
    + eapply counted_range; [done|apply (i_handles _ _ _ _ _ _ _ Hi)|by right].
    + split; cbn; [done|ulia].
  - pose proof (Forall_lookup_1 _ _ _ _ Hf Hl) as [Hh Hq]. cbn in Hh, Hq.
    rewrite winhttp_execute_spec in Hx by apply He. injection Hx as <- <-.
    split; [|by apply Forall_delete]. cbn.
    pose proof (send_finish_keeps h' (exchange_result req (net (w_exchanges w) req))
      (ws_win (S (w_exchanges w)) (exchange_ops req (net (w_exchanges w) req)) w) Hi) as Hk.
    unfold keeps, wp in Hk. rewrite Hsf in Hk. apply Hk; [|done]. apply exchange_req_ok; [apply He|done].
  - by split.
Qed.

Lemma steam_reachable_inv s : env_ok → reachable s → sys_inv s.
Proof.
  intros He (orig & ini & computer & Hr).
  assert (∀ a b, rtc sstep a b → sys_inv a → sys_inv b) as H.
  { apply rtc_invariant. intros s1 s2 ??. by eapply sstep_inv. }
  apply (H _ _ Hr). split; [apply steam_init_inv|constructor].
Qed.
End env.
