(* ===== verification/SteamProps.v ===== *)
(** * The Steam shim: its properties *)

From S2P Require Import Prelude RustStr SteamAbi LanCfg Pe Comp SteamHttp SteamInv SteamRun.
#[local] Open Scope string_scope.
#[local] Open Scope list_scope.
#[local] Open Scope Z_scope.
#[local] Open Scope comp_scope.

(** ** An instance for examples

    One broker that answers 200 to everything, and a title that ends each call result by
    unregistering it and releasing its request. *)

Definition demo_answer : HttpAnswer :=
  mkAnswer true (Some (mkCracked 1 8080 (to_wide "127.0.0.1") (to_wide "/v1/x") [0])) true true true true 200
    [[x7b]; [x7d]; []].
Definition demo_title (w : World) (r : Run) : list byte * list TitleCall :=
  (r_data r, match r_call r with
             | Some (_, call) => [TUnregCall (r_obj r) call; TRelease (from_le (slice 0 4 (r_data r)))]
             | None => []
             end).

#[export] Program Instance demo_env : SteamEnv := {|
  lan := default_cfg;
  net n req := demo_answer;
  original n c := mkOrig 0 None None;
  emulator w := [];
  title := demo_title;
  call_order m := (map_to_list m).*1;
  call_order_perm m := reflexivity _;
|}.

Lemma demo_env_ok : env_ok (E := demo_env).
Proof.
  split.
  - intros n r. split; [|cbn; ulia]. repeat (apply Forall_cons; split; [cbn; lia|]). constructor.
  - intros w r _. cbn. destruct (r_call r) as [[f c]|]; cbn; repeat split.
  - intros w r. cbn. destruct (r_call r) as [[f c]|]; repeat constructor.
  - done.
Qed.

(** An object whose [Run] is at slot 0 and whose size is told at slot 2. *)
Definition nop_code : list byte := replicate 16 x90.
Definition size_code : list byte := [xb8; x20; x00; x00; x00] ++ replicate 11 xc3.
Definition demo_obj : CbObj :=
  Some [Some nop_code; Some nop_code; Some size_code; Some nop_code; Some nop_code; Some nop_code].

Definition demo_calls : list TitleCall :=
  [TAlloc 100 demo_obj; TCreate 1 (Some (sbytes "https://example.com/v1/x")); TSetContext 1 77;
   TSend 1; TRegCall 100 0x0BEE0001].

Section calls.
Context `{E : SteamEnv}.

(** A list of calls, by [do_call]; [None] where one has no result. *)
Definition run_calls_list (cs : list TitleCall) (w : World) : option World := snd <$> for_each cs do_call w.

Lemma reachable_calls cs w w' fl :
  reachable (w, fl) → calls_ok cs w → run_calls_list cs w = Some w' → reachable (w', fl).
Proof.
  intros (orig & ini & computer & Hr). unfold run_calls_list. revert w Hr.
  induction cs as [|c cs IH]; intros w Hr Hc Hw; cbn [for_each] in Hw.
  { injection Hw as <-. by exists orig, ini, computer. }
  destruct Hc as [Hc Hcs]. unfold mbind in Hw. destruct (do_call c w) as [[[] w1]|] eqn:Hd; [|done].
  apply (IH w1); [|by apply Hcs|exact Hw].
  eapply rtc_r; [exact Hr|]. by eapply s_call.
Qed.

(** [calls_ok], decided along the way. *)
Fixpoint allowed (cs : list TitleCall) (w : World) : Prop :=
  match cs with
  | [] => True
  | c :: cs => call_ok c w ∧ match do_call c w with Some (_, w') => allowed cs w' | None => False end
  end.

Lemma allowed_ok cs w : allowed cs w → calls_ok cs w.
Proof.
  revert w. induction cs as [|c cs IH]; intros w; cbn; [done|]. intros [Hc Hcs]. split; [done|].
  intros w' Hd. rewrite Hd in Hcs. by apply IH.
Qed.
End calls.

Definition demo_init : World := world_init [] None None.
Definition demo_world : World := default demo_init (run_calls_list (E := demo_env) demo_calls demo_init).

Lemma demo_obj_ok : obj_ok demo_obj.
Proof. split; [cbn; lia|]. repeat (apply Forall_cons; split; [cbn; lia|]). constructor. Qed.

Lemma steam_demo_reachable : reachable (E := demo_env) (demo_world, []).
Proof.
  apply (reachable_calls demo_calls demo_init).
  - exists [], None, None. reflexivity.
  - apply allowed_ok. pose proof demo_obj_ok as Hok. vm_compute in Hok |- *.
    split_and!; try done; [apply Hok|right; eauto].
  - by vm_compute.
Qed.

Section properties.
Context `{E : SteamEnv}.

(** ** Safety *)


(** no result is delivered twice: over any run of the system each call has at most one run of a
    call result, and only calls that [SendHTTPRequest] gave out have one. *)
Theorem result_once w fl :
  env_ok → reachable (w, fl) →
  NoDup (run_calls (w_runs w)) ∧ ∀ c, c ∈ run_calls (w_runs w) → c ∈ w_calls w.
Proof.
  intros He Hr. destruct (steam_reachable_inv _ He Hr) as [Hi _]. cbn [fst] in Hi. split; [apply Hi|].
  intros c Hc. apply (i_calls _ _ _ _ _ _ _ Hi), (i_dispatched _ _ _ _ _ _ _ Hi).
  by apply (i_run_dispatched _ _ _ _ _ _ _ Hi).
Qed.

(** ** Delivery *)



(** ** Requests and responses *)

(** What a [send_http] reports about its call. *)
Definition sent_failed (r : Request) : Z := if negb (q_ok r) && (q_status r =? 0) then 1 else 0.

(** C24: the title reads back exactly what the broker answered: after [SendHTTPRequest] on a request
    that exists, the body's size and bytes, the completion and failure of the call and the packed
    result are those of the exchange it made, whichever part of it failed; the body is written only
    into a buffer of its exact size; and the exchange on the wire is the one of [exchange_ops]. *)
Theorem response_read_back h r w fl :
  env_ok → reachable (w, fl) → requests (w_st w) !! h = Some r →
  let req := set_result 0 [] false r in
  let a := net (w_exchanges w) req in
  let got := exchange_result req a in
  let body := q_response got in
  ∃ call w', send_http h w = Some ((1, Some call), w') ∧
    w_win w' = w_win w ++ exchange_ops req a ∧
    requests (w_st w') = <[h := got]> (requests (w_st w)) ∧
    body_size h w' = Some ((1, Some (Z.of_nat (length body) mod U32)), w') ∧
    (∀ null size, body_data h null size w' =
       Some (if (size =? Z.of_nat (length body)) && negb null then (1, Some body) else (0, None), w')) ∧
    utils_is_completed call w' = Some ((1, Some (sent_failed got)), w') ∧
    (∀ cub expected, 28 <= cub → expected = 0 ∨ expected = HTTP_CALLBACK_COMPLETED →
       utils_get_result call false cub expected w' =
         Some ((1, Some (sent_failed got), Some (take (Z.to_nat (Z.min cub 32))
           (pack_http_completed h (q_context r) (q_ok got) (q_status got) (Z.of_nat (length body) mod U32)))), w')).
Proof.
  intros He Hr Hreq req a got body. destruct (steam_reachable_inv _ He Hr) as [Hi _]. cbn [fst] in Hi.
  unfold send_http, send_begin, get_st, mbind, gets, mret. rewrite Hreq. cbn [fmap option_fmap option_map].
  fold req. rewrite winhttp_execute_spec by apply He. fold a got.
  unfold send_finish, mbind, gets, modify, mod_st, mret. cbn -[exchange_ops]. rewrite Hreq. eexists _, _. split; [done|].
  assert (Hgot : set_result (q_status got) (q_response got) (q_ok got) r = got).
  { unfold got, exchange_result. by destruct (fetched a). }
  assert (Hctx : q_context got = q_context r) by (rewrite <- Hgot; done).
  rewrite Hgot. split; [done|]. split; [done|].
  unfold body_size, body_data, utils_is_completed, utils_get_result, get_st, mbind, gets, mret, packed_of.
  cbn -[exchange_ops]. rewrite !lookup_insert_eq. cbn -[exchange_ops].
  split; [done|]. split; [|split; [done|]].
  - intros null size. fold body. do 2 f_equal. by destruct null, (size =? Z.of_nat (length body)).
  - intros cub expected Hcub Hex. rewrite (proj2 (Z.ltb_ge _ _)) by done.
    rewrite Hctx. destruct Hex as [->| ->]; done.
Qed.
(** ** The handles of WinHTTP *)

(** The handles that are open, the last opened first, after an operation that may be done. *)
Definition op_after (op : WinOp) (open : list WHandle) : option (list WHandle) :=
  match op, open with
  | WOpen ok, [] => Some (if ok then [HSession] else [])
  | WCrackUrl _, _ => Some open
  | WConnect _ _ ok, [HSession] => Some (if ok then [HConnect; HSession] else [HSession])
  | WOpenRequest _ _ _ ok, [HConnect; HSession] =>
      Some (if ok then [HRequest; HConnect; HSession] else [HConnect; HSession])
  | (WSetSecurity _ | WAddHeader _ _ | WSendRequest _ _ | WReceiveResponse | WQueryStatus | WReadData), HRequest :: _ =>
      Some open
  | WClose HRequest, HRequest :: open => Some open
  | WClose HConnect, HConnect :: open => Some open
  | WClose HSession, HSession :: open => Some open
  | _, _ => None
  end.
Fixpoint ops_after (ops : list WinOp) (open : list WHandle) : option (list WHandle) :=
  match ops with [] => Some open | op :: ops => op_after op open ≫= ops_after ops end.

Lemma ops_after_app a b open : ops_after (a ++ b) open = ops_after a open ≫= ops_after b.
Proof.
  revert open. induction a as [|op a IH]; intros open; [done|]. cbn [app ops_after].
  destruct (op_after op open); cbn; [apply IH|done].
Qed.

Lemma ops_after_neutral ops open :
  Forall (λ op, op_after op open = Some open) ops → ops_after ops open = Some open.
Proof. induction 1 as [|op ops Hop _ IH]; [done|]. cbn [ops_after]. rewrite Hop. exact IH. Qed.

Lemma request_ops_after req a u :
  ops_after (request_ops req a u) [HRequest; HConnect; HSession] = Some [HConnect; HSession].
Proof.
  unfold request_ops. rewrite ops_after_app.
  rewrite (ops_after_neutral (if u_https u =? _ then _ else _)) by (case_if; repeat constructor). cbn [base.mbind option_bind].
  rewrite ops_after_app, (ops_after_neutral (map header_op _)) by (apply Forall_map, Forall_true; done).
  cbn [base.mbind option_bind]. rewrite ops_after_app. cbn [ops_after op_after base.mbind option_bind].
  rewrite ops_after_app, (ops_after_neutral (if ha_send a then _ else _)) by (case_if; repeat constructor).
  cbn [base.mbind option_bind]. rewrite ops_after_app, (ops_after_neutral (if ha_send a && _ then _ else _)); [done|].
  case_if; [|constructor]. constructor; [done|]. by apply Forall_replicate.
Qed.

(** C25: nothing of WinHTTP leaks and nothing is used after it is closed: on every path of an exchange,
    the failures included, each handle that was opened is closed exactly once, after the handles
    opened from it, and is used only while it is open; and what is sent is the request's body. *)
Theorem winhttp_handles_closed req w :
  answer_ok (net (w_exchanges w) req) →
  ∃ req' w' ops, winhttp_execute req w = Some (req', w') ∧ w_win w' = w_win w ++ ops ∧
    ops_after ops [] = Some [] ∧
    (∀ body len, WSendRequest body len ∈ ops → body = q_body req).
Proof.
  intros Ha. rewrite winhttp_execute_spec by done. set (a := net (w_exchanges w) req).
  exists (exchange_result req a). eexists _, (exchange_ops req a). split; [done|]. split; [done|].
  unfold exchange_ops, session_ops, connect_ops. split.
  - cbn [ops_after op_after base.mbind option_bind]. destruct (ha_session a); [|done].
    cbn [ops_after op_after base.mbind option_bind app]. destruct (ha_url a) as [u|]; [|done].
    cbn [ops_after op_after base.mbind option_bind app]. destruct (ha_connect a); [|done].
    cbn [ops_after op_after base.mbind option_bind app]. destruct (ha_request a); [|done].
    by rewrite <- app_assoc, ops_after_app, request_ops_after.
  - intros body len Hin. unfold request_ops in Hin.
    repeat first
      [ rewrite elem_of_cons in Hin | rewrite elem_of_app in Hin | rewrite elem_of_nil in Hin
      | discriminate Hin | by injection Hin | done
      | match type of Hin with
        | _ ∨ _ => destruct Hin as [Hin|Hin]
        | _ ∈ (if ?b then _ else _) => destruct b
        | _ ∈ match ?x with _ => _ end => destruct x
        | _ ∈ map _ _ => apply list_elem_of_fmap in Hin as (? & ? & _)
        | _ ∈ replicate _ _ => apply elem_of_replicate in Hin as [? _]
        end ].
Qed.

(** ** Handles of requests *)

(** a request handle is never shared: until 4,294,967,295 requests have been created, each gets a
    handle that is not 0, was never given out before and names no other request, with exactly the
    request that was asked for; the handle after those is 0, which tells the title that it failed.
    The calls that [SendHTTPRequest] gives out do not repeat either, below 2^64. *)
Theorem handles_fresh w fl method url :
  env_ok → reachable (w, fl) → rewrite_http_url_to_stub lan (from_c url) ≠ "" →
  ∃ id w', create_http method url w = Some (id, w') ∧ w_handles w' = w_handles w ++ [id] ∧
    requests (w_st w') =
      <[id := mkRequest method (rewrite_http_url_to_stub lan (from_c url)) [] [] 0 0 [] false]> (requests (w_st w)) ∧
    (Z.of_nat (length (w_handles w)) < U32 - 1 →
       id ≠ 0 ∧ (id ∉ w_handles w) ∧ requests (w_st w) !! id = None) ∧
    (Z.of_nat (length (w_handles w)) = U32 - 1 → id = 0) ∧
    (Z.of_nat (length (w_calls w)) < U64 → w_next_call w ∉ w_calls w).
Proof.
  intros He Hr Hu. destruct (steam_reachable_inv _ He Hr) as [Hi _]. cbn [fst] in Hi.
  unfold create_http. rewrite bool_decide_eq_false_2 by done.
  exists (w_next_handle w). eexists. split; [done|]. split; [done|]. split; [done|].
  pose proof (i_handles _ _ _ _ _ _ _ Hi) as Hc. pose proof Hc as [_ Hn].
  split; [|split].
  - intros Hl. assert (Hf : w_next_handle w ∉ w_handles w) by (eapply counted_fresh; [exact Hc|lia]).
    split; [|split; [exact Hf|]].
    + rewrite Hn, Z.mod_small; ulia.
    + destruct (requests (w_st w) !! w_next_handle w) eqn:Hq; [|done].
      by apply (i_requests _ _ _ _ _ _ _ Hi) in Hq as [? _].
  - intros Hl. rewrite Hn, Hl. done.
  - intros Hl. eapply counted_fresh; [apply (i_given _ _ _ _ _ _ _ Hi)|exact Hl].
Qed.

(** ** The redirection *)

Lemma land_clear_bit flags i :
  0 <= i → Z.testbit (Z.land flags (U32 - 1 - WINHTTP_FLAG_SECURE)) i =
    Z.testbit flags i && (i <? 32) && negb (i =? 23).
Proof.
  intros Hi. rewrite Z.land_spec, <- andb_assoc. f_equal.
  replace (U32 - 1 - WINHTTP_FLAG_SECURE) with (Z.lxor (Z.ones 32) (2 ^ 23)) by reflexivity.
  rewrite Z.lxor_spec, Z.testbit_ones_nonneg, Z.pow2_bits_eqb by lia.
  rewrite (Z.eqb_sym 23 i). destruct (Z.ltb_spec i 32), (Z.eqb_spec i 23); (done || lia).
Qed.

End properties.

(** ** Witnesses *)


(** The world after the callbacks were run once more. *)
Definition demo_after : World :=
  match hook_run_callbacks (E := demo_env) demo_world with Some (_, w) => w | None => demo_init end.

Lemma demo_after_reachable : reachable (E := demo_env) (demo_after, []).
Proof.
  destruct steam_demo_reachable as (orig & ini & computer & Hr). exists orig, ini, computer.
  eapply rtc_r; [exact Hr|]. apply s_run. by vm_compute.
Qed.

Lemma result_once_witness :
  run_calls (w_runs demo_after) = [0x0BEE0001] ∧ NoDup (run_calls (w_runs demo_after)).
Proof.
  destruct (result_once (E := demo_env) demo_after [] demo_env_ok demo_after_reachable) as [H _].
  split; [vm_compute; reflexivity|exact H].
Defined.


Definition ticket_calls : list TitleCall :=
  [TAlloc 300 demo_obj; TRegCb 300 CB_TICKET_FOR_WEBAPI; TAlloc 301 demo_obj;
   TRegCb 301 CB_STEAM_SERVERS_CONNECTED; TTicket (Some (sbytes "playfab_services"))].
Definition ticket_world : World := default demo_init (run_calls_list (E := demo_env) ticket_calls demo_init).

Lemma ticket_reachable : reachable (E := demo_env) (ticket_world, []).
Proof.
  apply (reachable_calls ticket_calls demo_init).
  - exists [], None, None. reflexivity.
  - apply allowed_ok. pose proof demo_obj_ok as Hok. vm_compute in Hok |- *.
    split_and!; try done; try apply Hok; right; eauto.
  - by vm_compute.
Qed.


Lemma response_read_back_witness :
  ∃ call w', send_http (E := demo_env) 1 demo_world = Some ((1, Some call), w') ∧
    body_data 1 false 2 w' = Some ((1, Some [x7b; x7d]), w').
Proof.
  destruct (response_read_back (E := demo_env) 1
    (mkRequest 1 "http://127.0.0.1:8080/v1/x" [] [] 77 200 [x7b; x7d] true) demo_world [] demo_env_ok
    steam_demo_reachable) as (call & w' & Hs & _ & _ & _ & Hb & _); [vm_compute; reflexivity|].
  exists call, w'. split; [exact Hs|]. rewrite (Hb false 2). vm_compute. reflexivity.
Defined.

Lemma winhttp_handles_closed_witness :
  ∃ req' w' ops,
    winhttp_execute (E := demo_env) (mkRequest 3 "http://127.0.0.1:8080/" [] [x7b; x7d] 0 0 [] false) demo_init =
      Some (req', w') ∧ w_win w' = w_win demo_init ++ ops ∧ ops_after ops [] = Some [].
Proof.
  destruct (winhttp_handles_closed (E := demo_env)
    (mkRequest 3 "http://127.0.0.1:8080/" [] [x7b; x7d] 0 0 [] false) demo_init
    (e_net (E := demo_env) demo_env_ok _ _)) as (req' & w' & ops & H1 & H2 & H3 & _).
  exists req', w', ops. split; [exact H1|]. split; [exact H2|exact H3].
Defined.

Lemma handles_fresh_witness :
  ∃ id w', create_http (E := demo_env) 1 (Some (sbytes "http://a/")) demo_world = Some (id, w') ∧ id ∉ w_handles demo_world.
Proof.
  destruct (handles_fresh (E := demo_env) demo_world [] 1 (Some (sbytes "http://a/")) demo_env_ok steam_demo_reachable)
    as (id & w' & Hc & _ & _ & Hf & _); [vm_compute; discriminate|].
  exists id, w'. split; [exact Hc|]. apply Hf. vm_compute. reflexivity.
Defined.

Definition hooked_init : World := world_init [OrConnect; OrOpen; OrSvcCfg] None None.


(** ** What the rules do not promise *)

(** A title whose first callback cancels the other result and frees its object, as the destructor of
    [CCallResult] does. *)
Definition cancel_title (w : World) (r : Run) : list byte * list TitleCall :=
  (r_data r, if r_obj r =? 100 then [TUnregCall 200 0x0BEE0002; TFree 200]
             else [TUnregCall 100 0x0BEE0001; TFree 100]).
#[local] Program Instance cancel_env : SteamEnv := {|
  lan := default_cfg;
  net n req := demo_answer;
  original n c := mkOrig 0 None None;
  emulator w := [];
  title := cancel_title;
  call_order m := (map_to_list m).*1;
  call_order_perm m := reflexivity _;
|}.
Definition cancel_calls : list TitleCall :=
  [TAlloc 100 demo_obj; TAlloc 200 demo_obj; TCreate 1 (Some (sbytes "http://a/")); TSend 1; TSend 1;
   TRegCall 100 0x0BEE0001; TRegCall 200 0x0BEE0002].
Definition cancel_world : World := default demo_init (run_calls_list (E := cancel_env) cancel_calls demo_init).

Lemma not_registered s obj :
  bool_decide (obj ∉ (callbacks s).*2) && bool_decide (map_Forall (λ _ x, x ≠ obj) (call_results s)) = true →
  ¬ registered s obj.
Proof.
  intros [Hc%bool_decide_eq_true Hr%bool_decide_eq_true]%andb_true_iff [H|[call H]]; [done|].
  by apply (Hr call obj H).
Qed.

(** A callback may cancel another call result and free it: every call is one that [call_ok] allows,
    yet the shim, which took the objects to run before it ran any, then calls the freed object. *)
Theorem cancelled_result_run :
  calls_ok (E := cancel_env) cancel_calls demo_init ∧
  run_calls_list (E := cancel_env) cancel_calls demo_init = Some cancel_world ∧
  (∀ r, calls_ok (E := cancel_env) (cancel_title cancel_world r).2 cancel_world) ∧
  hook_run_callbacks (E := cancel_env) cancel_world = None.
Proof.
  split; [|split; [by vm_compute|split; [|by vm_compute]]].
  - apply allowed_ok. pose proof demo_obj_ok as Hok. vm_compute in Hok |- *.
    split_and!; try done; try apply Hok; right; eauto.
  - intros r. apply allowed_ok. unfold cancel_title. cbn [snd].
    destruct (r_obj r =? 100); (split; [done|]; cbn [do_call]; unfold hook_unreg_call, mod_st, modify, call_orig, Comp.mbind, mret;
      rewrite bool_decide_eq_false_2 by (vm_compute; intros H; by apply elem_of_nil in H);
      split; [apply not_registered; vm_compute; reflexivity|done]).
Qed.

Section findings.
Context `{E : SteamEnv}.

(** [SetHTTPRequestRawPostBody] answers that it took a body it drops: one above 2 MiB, or empty. *)
Theorem raw_body_dropped h r data len w :
  requests (w_st w) !! h = Some r → len = 0 ∨ 2 * 1024 * 1024 < len →
  ∃ w', set_raw_body h (Some data) len w = Some (1, w') ∧
    (∃ r', requests (w_st w') !! h = Some r' ∧ q_body r' = q_body r).
Proof.
  intros Hr Hl. unfold set_raw_body.
  assert ((0 <? len) && (len <=? 2 * 1024 * 1024) = false) as ->.
  { apply andb_false_iff. rewrite Z.ltb_ge, Z.leb_gt. lia. }
  unfold on_request, get_st, Comp.mbind, gets. rewrite Hr. eexists. split; [done|].
  exists r. cbn. by rewrite lookup_insert_eq.
Qed.

(** Every method but POST goes out as GET: HEAD, PUT, DELETE, OPTIONS and PATCH too. *)
Theorem method_lost req a u :
  q_method req ≠ 3 → head (connect_ops req a u) =
    Some (WOpenRequest (to_wide "GET")
      (scan_nul (λ c, c =? 0) 2048 (u_path u) ++ scan_nul (λ c, c =? 0) 1024 (u_extra u) ++ [0])
      (url_flags u) (ha_request a)).
Proof. intros Hm. unfold connect_ops, verb_of. by rewrite (proj2 (Z.eqb_neq _ _)). Qed.

(** A result delivered after its request was released says nothing of what happened: no success, no
    status and no body, whatever the broker answered. *)
Theorem released_result_blank s c :
  requests s !! c_request c = None → packed_of s c = pack_http_completed (c_request c) 0 false 0 0.
Proof. intros H. unfold packed_of. by rewrite H. Qed.
End findings.
