(* ===== verification/SteamHook.v ===== *)
(** * The Steam HTTP shim: installing the hooks

    How [steam-http-shim/src/lib.rs] puts its functions in the way of the game:
    import slots through [Pe.replace], the vtable of ISteamHTTP, two slots of
    ISteamUtils and two of ISteamUser, the thread that waits for Steam, and the
    version.dll functions it forwards.

    The interface objects and their vtables are words of memory by address; the
    images whose import tables are patched are bytes by module, and the two do
    not overlap.  A word that is not there cannot be read or written. *)

From stdpp Require Import functions.
From S2P Require Import Prelude RustStr Comp SteamHttp.
From S2P Require Pe.

#[local] Open Scope Z_scope.
#[local] Open Scope comp_scope.

(** The functions that are installed; [VTable i] is the i-th method of the new ISteamHTTP. *)
Inductive Hooked :=
  | HkConnect | HkSend | HkOpen | HkRunCallbacks | HkRegCall | HkUnregCall | HkRegCb | HkUnregCb | HkSvcCfg
  | HkIsCompleted | HkGetResult | HkLoggedOn | HkWebApi | HkVTable (i : nat).

Definition UTILS_IS_CALL_COMPLETED : Z := 11.
Definition UTILS_GET_CALL_RESULT : Z := 13.
Definition USER_BLOGGED_ON : Z := 1.
Definition USER_GET_AUTH_TICKET_WEBAPI : Z := 14.
Definition PAGE_EXECUTE_READWRITE : Z := 0x40.
Definition DLL_PROCESS_ATTACH : Z := 1.

(** ** The process *)

(** [k_image] is the memory of each loaded module; [k_words] the interface objects and vtables, with
    the protection of each word's page in [k_prot]; [k_orig] and [k_utils] are the cells of the
    original functions; [k_spawned] counts the patch threads. *)
Record Hook := mkHook {
  k_time : nat;
  k_image : Z → Z → byte;
  k_words : gmap Z Z;
  k_prot : Z → Z;
  k_orig : Orig → option Z;
  k_utils : option (Z * Z);
  k_started : bool;
  k_iat_hooked : bool;
  k_patched : bool;
  k_sys_version : option Z;
  k_spawned : nat
}.

Definition k_set_time (t : nat) (w : Hook) : Hook :=
  mkHook t (k_image w) (k_words w) (k_prot w) (k_orig w) (k_utils w) (k_started w) (k_iat_hooked w)
    (k_patched w) (k_sys_version w) (k_spawned w).
Definition k_set_image (f : Z → Z → byte) (w : Hook) : Hook :=
  mkHook (k_time w) f (k_words w) (k_prot w) (k_orig w) (k_utils w) (k_started w) (k_iat_hooked w)
    (k_patched w) (k_sys_version w) (k_spawned w).
Definition k_set_words (m : gmap Z Z) (w : Hook) : Hook :=
  mkHook (k_time w) (k_image w) m (k_prot w) (k_orig w) (k_utils w) (k_started w) (k_iat_hooked w)
    (k_patched w) (k_sys_version w) (k_spawned w).
Definition k_set_prot (f : Z → Z) (w : Hook) : Hook :=
  mkHook (k_time w) (k_image w) (k_words w) f (k_orig w) (k_utils w) (k_started w) (k_iat_hooked w)
    (k_patched w) (k_sys_version w) (k_spawned w).
Definition k_set_origs (o : Orig → option Z) (u : option (Z * Z)) (w : Hook) : Hook :=
  mkHook (k_time w) (k_image w) (k_words w) (k_prot w) o u (k_started w) (k_iat_hooked w)
    (k_patched w) (k_sys_version w) (k_spawned w).
Definition k_set_flags (started iat patched : bool) (w : Hook) : Hook :=
  mkHook (k_time w) (k_image w) (k_words w) (k_prot w) (k_orig w) (k_utils w) started iat
    patched (k_sys_version w) (k_spawned w).
Definition k_set_threads (sys : option Z) (n : nat) (w : Hook) : Hook :=
  mkHook (k_time w) (k_image w) (k_words w) (k_prot w) (k_orig w) (k_utils w) (k_started w) (k_iat_hooked w)
    (k_patched w) sys n.

Definition hook_init (image : Z → Z → byte) (words : gmap Z Z) (prot : Z → Z) : Hook :=
  mkHook 0 image words prot (λ _, None) None false false false None 0.

(** The loader, Steam and the system, at an instant: the base of a module by name (the executable
    for [None]; 0 when it is not loaded), the address of one of its functions (0 when it has none),
    [SteamAPI_GetHSteamUser], [SteamInternal_FindOrCreateUserInterface], the outcomes of
    [VirtualProtect] and [VirtualAlloc], the system's version.dll; and where the shim's own functions
    are. *)
Class Loader := {
  module_at : nat → option string → Z;
  proc_at : nat → Z → string → Z;
  huser_at : nat → Z;
  find_at : nat → Z → string → Z;
  protect_at : nat → bool;
  alloc_at : nat → Z;
  sys_version_at : nat → Z;
  call_version : Z → list Z → Z;
  hook_addr : Hooked → Z
}.

Abbreviation K := (comp Hook).

Section hook.
Context `{L : Loader}.

Definition observe {A} (f : nat → A) : K A := λ w, Some (f (k_time w), k_set_time (S (k_time w)) w).
Definition GetModuleHandleA (name : option string) : K Z := observe (λ t, module_at t name).
Definition GetProcAddress (module : Z) (name : string) : K Z := observe (λ t, proc_at t module name).

(** A word of an interface object or of a vtable. *)
Definition read_word (p : Z) : K Z := λ w, v ← k_words w !! p; Some (v, w).
Definition write_word (p v : Z) : K unit := λ w,
  match k_words w !! p with
  | Some _ => Some (tt, k_set_words (<[p := v]> (k_words w)) w)
  | None => None
  end.

(** [OnceLock::set], whose result is ignored. *)
Definition set_orig (o : Orig) (f : Z) : K unit :=
  modify (λ w, match k_orig w o with
               | Some _ => w
               | None => k_set_origs (<[o := Some f]> (k_orig w)) (k_utils w) w
               end).
Definition orig_set (o : Orig) : K bool := gets (λ w, bool_decide (k_orig w o ≠ None)).

(** ** Slots of vtables *)

(** [VirtualProtect] on one word; gives the old protection. *)
Definition virtual_protect (p prot : Z) : K (option Z) :=
  let* ok := observe protect_at in
  if ok then
    let* old := gets (λ w, k_prot w p) in
    modify (λ w, k_set_prot (<[p := prot]> (k_prot w)) w);;
    mret (Some old)
  else mret None.

Definition patch_slot (vtable index : Z) (new : Hooked) : K bool :=
  if vtable =? 0 then mret false else
  let slot := vtable + 8 * index in
  let* old := virtual_protect slot PAGE_EXECUTE_READWRITE in
  match old with
  | None => mret false
  | Some old =>
      write_word slot (hook_addr new);;
      virtual_protect slot old;;
      let* v := read_word slot in
      mret (v =? hook_addr new)
  end.

(** ** Import slots *)

(** What [Pe.replace] stored in the image. *)
Definition apply_access (a : Pe.Access) (image : Z → byte) : Z → byte :=
  match a with
  | Pe.Read _ _ => image
  | Pe.Store off bytes => λ o,
      if (off <=? o) && (o <? off + Z.of_nat (length bytes)) then nth (Z.to_nat (o - off)) bytes x00 else image o
  end.

Definition iat_replace (module : Z) (dll func : string) (new : Hooked) : K (option Z) := λ w,
  let '(r, log) := Pe.replace (λ _, k_image w module) (λ t, protect_at (k_time w + t)) (module =? 0) dll func
                     (hook_addr new) 0%nat in
  let w := k_set_image (<[module := fold_left (λ i a, apply_access a i) log (k_image w module)]> (k_image w)) w in
  let w := k_set_time (k_time w + S (length log)) w in
  Some (result_ok r, w).

Definition hook_playfab_iat : K unit :=
  let* exe := GetModuleHandleA None in
  let* done := orig_set OrSvcCfg in
  if done then mret tt else
  let* old := iat_replace exe "playfabcore.win32.dll" "PFServiceConfigCreateHandle" HkSvcCfg in
  match old with Some old => set_orig OrSvcCfg old | None => mret tt end.

Definition WINHTTP_MODULES : list (option string) :=
  [Some "PlayFabCore.Win32.dll"; Some "libHttpClient.Win32.dll"; Some "PlayFabServices.Win32.dll"; None]%string.

Definition hook_winhttp_module (name : option string) : K unit :=
  let* m := GetModuleHandleA name in
  if m =? 0 then mret tt else
  iat_replace m "winhttp.dll" "WinHttpConnect" HkConnect;;
  iat_replace m "winhttp.dll" "WinHttpSendRequest" HkSend;;
  let* open := orig_set OrOpen in
  if open then iat_replace m "winhttp.dll" "WinHttpOpenRequest" HkOpen;; mret tt else mret tt.

Definition hook_winhttp_modules : K unit :=
  let* w := GetModuleHandleA (Some "winhttp.dll"%string) in
  if w =? 0 then mret tt else
  let* set := orig_set OrConnect in
  (if set then mret tt else
    let* c := GetProcAddress w "WinHttpConnect" in
    let* s := GetProcAddress w "WinHttpSendRequest" in
    let* o := GetProcAddress w "WinHttpOpenRequest" in
    when (negb (c =? 0)) (set_orig OrConnect c);;
    when (negb (s =? 0)) (set_orig OrSend s);;
    when (negb (o =? 0)) (set_orig OrOpen o));;
  let* connect := orig_set OrConnect in
  let* send := orig_set OrSend in
  if negb connect || negb send then mret tt else for_each WINHTTP_MODULES hook_winhttp_module.

Definition STEAM_IMPORTS : list (string * Hooked * Orig) :=
  [("SteamAPI_RunCallbacks", HkRunCallbacks, OrRun); ("SteamAPI_RegisterCallResult", HkRegCall, OrRegCall);
   ("SteamAPI_UnregisterCallResult", HkUnregCall, OrUnregCall); ("SteamAPI_RegisterCallback", HkRegCb, OrRegCb);
   ("SteamAPI_UnregisterCallback", HkUnregCb, OrUnregCb)]%string.

Definition hook_steam_import (exe : Z) (x : string * Hooked * Orig) : K unit :=
  let* old := iat_replace exe "steam_api64.dll" x.1.1 x.1.2 in
  match old with Some old => set_orig x.2 old | None => mret tt end.

Definition hook_steam_iat : K unit :=
  let* done := gets k_iat_hooked in
  modify (λ w, k_set_flags (k_started w) true (k_patched w) w);;
  if done then mret tt else
  let* exe := GetModuleHandleA None in
  for_each STEAM_IMPORTS (hook_steam_import exe).

(** ** The interfaces of Steam *)

Definition VTABLE_LEN : nat := 25.

(** [VirtualAlloc] gives zeroed words; the methods are written one after another. *)
Definition http_vtable : K Z :=
  let* mem := observe alloc_at in
  if mem =? 0 then undef else
  modify (λ w, k_set_words (list_to_map ((λ i, (mem + 8 * Z.of_nat i, 0)) <$> seq 0 32) ∪ k_words w) w);;
  for_each (seq 0 VTABLE_LEN) (λ i, write_word (mem + 8 * Z.of_nat i) (hook_addr (HkVTable i)));;
  mret mem.

(** The loop over the users for one pair of interfaces. *)
Fixpoint find_http_utils (users : list Z) (http utils : Z) : K (Z * Z) :=
  match users with
  | [] => mret (http, utils)
  | u :: users =>
      let* http := observe (λ t, find_at t u "STEAMHTTP_INTERFACE_VERSION003") in
      let* utils := observe (λ t, find_at t u "SteamUtils010") in
      let* utils := if utils =? 0 then observe (λ t, find_at t u "SteamUtils009") else mret utils in
      if negb (http =? 0) && negb (utils =? 0) then mret (http, utils) else find_http_utils users http utils
  end.

Fixpoint find_user (users : list Z) (ver : string) (user : Z) : K Z :=
  match users with
  | [] => mret user
  | u :: users =>
      let* user := observe (λ t, find_at t u ver) in
      if negb (user =? 0) then mret user else find_user users ver user
  end.

Definition USER_VERSIONS : list string := ["SteamUser023"; "SteamUser022"; "SteamUser021"]%string.

Fixpoint patch_user (users : list Z) (vers : list string) : K unit :=
  match vers with
  | [] => mret tt
  | ver :: vers =>
      let* user := find_user users ver 0 in
      if user =? 0 then patch_user users vers else
      let* uvt := read_word user in
      let* orig_web := read_word (uvt + 8 * USER_GET_AUTH_TICKET_WEBAPI) in
      when (negb (orig_web =? 0)) (set_orig OrWebApi orig_web);;
      patch_slot uvt USER_BLOGGED_ON HkLoggedOn;;
      patch_slot uvt USER_GET_AUTH_TICKET_WEBAPI HkWebApi;;
      mret tt
  end.

Definition try_patch : K bool :=
  let* steam := GetModuleHandleA (Some "steam_api64.dll"%string) in
  if steam =? 0 then mret false else
  let* init := GetProcAddress steam "SteamAPI_Init" in
  let* find := GetProcAddress steam "SteamInternal_FindOrCreateUserInterface" in
  let* huser_fn := GetProcAddress steam "SteamAPI_GetHSteamUser" in
  if (init =? 0) || (find =? 0) || (huser_fn =? 0) then mret false else
  let* reported := observe huser_at in
  let users := [reported; 1; 0] in
  let* (http, utils) := find_http_utils users 0 0 in
  if (http =? 0) || (utils =? 0) then mret false else
  let* ours := http_vtable in
  write_word http ours;;
  let* uv := read_word utils in
  let* is_c := read_word (uv + 8 * UTILS_IS_CALL_COMPLETED) in
  let* get_r := read_word (uv + 8 * UTILS_GET_CALL_RESULT) in
  modify (λ w, match k_utils w with
               | Some _ => w
               | None => k_set_origs (k_orig w) (Some (is_c, get_r)) w
               end);;
  patch_slot uv UTILS_IS_CALL_COMPLETED HkIsCompleted;;
  patch_slot uv UTILS_GET_CALL_RESULT HkGetResult;;
  patch_user users USER_VERSIONS;;
  hook_winhttp_modules;;
  mret true.

(** ** The patch thread and the proxy *)

Definition PATCH_PASSES : nat := Z.to_nat 6000.

Fixpoint patch_loop (n : nat) : K unit :=
  match n with
  | O => mret tt
  | S n =>
      let* patched := gets k_patched in
      if patched then mret tt else
      hook_winhttp_modules;;
      let* ok := try_patch in
      if ok then modify (λ w, k_set_flags (k_started w) (k_iat_hooked w) true w)
      else patch_loop n
  end.

Definition patch_thread : K unit :=
  hook_steam_iat;; hook_playfab_iat;; hook_winhttp_modules;; patch_loop PATCH_PASSES.

(** [STARTED] makes the second of the two callers do nothing. *)
Definition on_load : K unit :=
  let* started := gets k_started in
  modify (λ w, k_set_flags true (k_iat_hooked w) (k_patched w) w);;
  if started then mret tt else
  let* sys := observe sys_version_at in
  modify (λ w, k_set_threads (match k_sys_version w with Some h => Some h | None => Some sys end) (k_spawned w) w);;
  hook_steam_iat;; hook_playfab_iat;; hook_winhttp_modules;;
  modify (λ w, k_set_threads (k_sys_version w) (S (k_spawned w)) w).

Definition DllMain (reason : Z) : K Z :=
  (if reason =? DLL_PROCESS_ATTACH then on_load else mret tt);; mret 1.

Definition sys_proc (name : string) : K Z :=
  let* h := gets (λ w, default 0 (k_sys_version w)) in
  if h =? 0 then mret 0 else GetProcAddress h name.

(** The functions of version.dll: the arguments go to the system's function as they are. *)
Definition forward (name : string) (args : list Z) : K Z :=
  let* p := sys_proc name in
  if p =? 0 then mret 0 else mret (call_version p args).
Definition GetFileVersionInfoA (a b c d : Z) : K Z := forward "GetFileVersionInfoA" [a; b; c; d].
Definition GetFileVersionInfoW (a b c d : Z) : K Z := forward "GetFileVersionInfoW" [a; b; c; d].
Definition GetFileVersionInfoSizeA (a b : Z) : K Z := forward "GetFileVersionInfoSizeA" [a; b].
Definition GetFileVersionInfoSizeW (a b : Z) : K Z := forward "GetFileVersionInfoSizeW" [a; b].
Definition VerQueryValueA (a b c d : Z) : K Z := forward "VerQueryValueA" [a; b; c; d].
Definition VerQueryValueW (a b c d : Z) : K Z := forward "VerQueryValueW" [a; b; c; d].
Definition GetFileVersionInfoSizeExW (a b c : Z) : K Z := forward "GetFileVersionInfoSizeExW" [a; b; c].
Definition GetFileVersionInfoExW (a b c d e : Z) : K Z := forward "GetFileVersionInfoExW" [a; b; c; d; e].
End hook.
