(* ===== verification/SteamHookProps.v ===== *)
(** * The Steam HTTP shim: what the hooks install

    The import patches keep away from the interfaces, a slot is patched with its
    page's protection restored, a pass over Steam's interfaces changes nothing
    until Steam is ready and then the five slots the shim means to replace, and
    the patch thread stops after the pass that succeeds. *)

From stdpp Require Import functions.
From S2P Require Import Prelude RustStr Comp SteamHttp SteamHook.
From S2P Require Pe.

#[local] Open Scope Z_scope.
#[local] Open Scope comp_scope.

(** ** What import patches leave alone *)

(** [aside w w']: from [w] to [w'] only the images, the originals of imported functions and the time changed. *)
Record aside (w w' : Hook) : Prop := {
  a_words : k_words w' = k_words w;
  a_prot : k_prot w' = k_prot w;
  a_utils : k_utils w' = k_utils w;
  a_web : k_orig w' OrWebApi = k_orig w OrWebApi;
  a_started : k_started w' = k_started w;
  a_patched : k_patched w' = k_patched w;
  a_threads : k_sys_version w' = k_sys_version w ∧ k_spawned w' = k_spawned w;
  a_set : ∀ o f, k_orig w o = Some f → k_orig w' o = Some f;
}.

#[export] Instance aside_preorder : PreOrder aside.
Proof.
  split; [by split|]. intros w1 w2 w3 [? ? ? ? ? ? [? ?] ?] [? ? ? ? ? ? [? ?] ?].
  split; first [congruence|by split; congruence|by auto].
Qed.

Section hook.
Context `{L : Loader}.

(** [beside m]: [m] returns, with nothing else changed. *)
Definition beside {A} (m : K A) : Prop := ∀ w, wp m (λ _ w', aside w w') w.

Lemma beside_ret {A} (x : A) : beside (mret x).
Proof. intros w. unfold wp, mret. cbn. reflexivity. Qed.

Lemma beside_bind {A B} (m : K A) (f : A → K B) : beside m → (∀ x, beside (f x)) → beside (mbind m f).
Proof.
  intros Hm Hf w. rewrite wp_bind. eapply wp_mono; [apply Hm|]. intros x w1 H1.
  eapply wp_mono; [apply Hf|]. intros y w2 H2. cbn in *. exact (transitivity H1 H2).
Qed.

Lemma beside_gets {A} (f : Hook → A) : beside (gets f).
Proof. intros w. unfold wp, gets. cbn. reflexivity. Qed.

Lemma beside_observe {A} (f : nat → A) : beside (observe f).
Proof. intros w. by split. Qed.

Lemma beside_set_orig o f : o ≠ OrWebApi → beside (set_orig o f).
Proof.
  intros Ho w. unfold wp, set_orig, modify. destruct (k_orig w o) eqn:E; [reflexivity|]. split; try done; cbn.
  - by rewrite fn_lookup_insert_ne.
  - intros o' f' H. rewrite fn_lookup_insert_ne; [done|congruence].
Qed.

Lemma beside_iat module dll func new : beside (iat_replace module dll func new).
Proof. intros w. unfold wp, iat_replace. destruct (Pe.replace _ _ _ _ _ _ _) as [r log]. by split. Qed.

Lemma beside_if {A} (b : bool) (m n : K A) : beside m → beside n → beside (if b then m else n).
Proof. by destruct b. Qed.

Lemma beside_for_each {A} (l : list A) f : (∀ x, x ∈ l → beside (f x)) → beside (for_each l f).
Proof.
  induction l as [|x l IH]; intros H; cbn [for_each]; [apply beside_ret|].
  apply beside_bind; [apply H; left|]. intros _. apply IH. intros y Hy. apply H. by right.
Qed.

(** Takes a computation apart. *)
Ltac beside := repeat (first
  [ apply beside_ret | apply beside_gets | apply beside_observe | apply beside_iat
  | apply beside_set_orig; discriminate | apply beside_if
  | apply beside_bind; [|intros ?]
  | match goal with |- beside (match ?x with Some _ => _ | None => _ end) => destruct x end ]).

Lemma winhttp_modules_beside : beside hook_winhttp_modules.
Proof.
  unfold hook_winhttp_modules, GetModuleHandleA, GetProcAddress, orig_set, when. beside.
Qed.

Lemma playfab_iat_beside : beside hook_playfab_iat.
Proof. unfold hook_playfab_iat, GetModuleHandleA, orig_set. beside. Qed.

Lemma steam_iat_beside : beside hook_steam_iat.
Proof.
  intros w. unfold hook_steam_iat. rewrite wp_bind. unfold wp at 1, gets.
  rewrite wp_bind. unfold wp at 1, modify. destruct (k_iat_hooked w); [by split|].
  assert (H : beside (let* exe := GetModuleHandleA None in for_each STEAM_IMPORTS (hook_steam_import exe))).
  { unfold GetModuleHandleA. apply beside_bind; [apply beside_observe|]. intros exe.
    apply beside_for_each. intros [[s h] o] Hx. unfold hook_steam_import. cbn [fst snd].
    apply beside_bind; [apply beside_iat|]. intros [old|]; [|apply beside_ret]. apply beside_set_orig.
    unfold STEAM_IMPORTS in Hx. rewrite !elem_of_cons, elem_of_nil in Hx. intros ->. by destruct_or? Hx. }
  eapply wp_mono; [apply H|]. intros x w' Hw'. cbn in *. eapply transitivity; [|exact Hw']. by split.
Qed.

(** ** Slots *)

(** [patch_slot] on every branch. *)
Lemma patch_slot_run vtable index new w :
  let slot := vtable + 8 * index in let t := k_time w in
  patch_slot vtable index new w =
    if vtable =? 0 then Some (false, w) else
    if protect_at t then
      match k_words w !! slot with
      | Some _ => Some (true, mkHook (S (S t)) (k_image w) (<[slot := hook_addr new]> (k_words w))
                          (if protect_at (S t) then <[slot := k_prot w slot]> (<[slot := PAGE_EXECUTE_READWRITE]> (k_prot w))
                           else <[slot := PAGE_EXECUTE_READWRITE]> (k_prot w))
                          (k_orig w) (k_utils w) (k_started w) (k_iat_hooked w) (k_patched w)
                          (k_sys_version w) (k_spawned w))
      | None => None
      end
    else Some (false, k_set_time (S t) w).
Proof.
  intros slot t. unfold patch_slot. destruct (vtable =? 0); [done|]. fold slot.
  unfold mbind, virtual_protect, observe, mbind, gets, modify. fold t.
  destruct (protect_at t); [|done]. cbn. unfold mret, write_word. cbn.
  destruct (k_words w !! slot) as [v|]; [|done]. cbn. fold t.
  destruct (protect_at (S t)); cbn; unfold read_word; cbn; rewrite lookup_insert_eq; cbn; by rewrite Z.eqb_refl.
Qed.

(** When the system lets it: the word is replaced and the page has its protection back. *)
Lemma patch_slot_ok vtable index new w v (slot := vtable + 8 * index) :
  vtable ≠ 0 → (∀ t, protect_at t = true) → k_words w !! slot = Some v →
  ∃ prot, (∀ p, prot p = k_prot w p) ∧
    patch_slot vtable index new w =
      Some (true, k_set_prot prot (k_set_words (<[slot := hook_addr new]> (k_words w)) (k_set_time (S (S (k_time w))) w))).
Proof.
  intros Hn Hp Hv. rewrite patch_slot_run, !Hp. fold slot. rewrite Hv.
  rewrite (proj2 (Z.eqb_neq vtable 0) Hn). eexists. split; [|done].
  intros p. destruct (decide (p = slot)) as [->|Hne]; [by rewrite fn_lookup_insert|].
  by rewrite !fn_lookup_insert_ne by done.
Qed.

(** ** The interfaces *)

(** Steam is up: both interfaces are there, and of ISteamUser the version [ver] only. *)
Record Ready (w : Hook) (http utils user uv uvt ours : Z) (ver : string) : Prop := {
  y_steam : ∀ t, module_at t (Some "steam_api64.dll"%string) ≠ 0;
  y_procs : ∀ t m n, n ∈ ["SteamAPI_Init"; "SteamInternal_FindOrCreateUserInterface"; "SteamAPI_GetHSteamUser"]%string →
    proc_at t m n ≠ 0;
  y_http : ∀ t u, find_at t u "STEAMHTTP_INTERFACE_VERSION003" = http;
  y_utils : ∀ t u, find_at t u "SteamUtils010" = utils;
  y_user : ∀ t u v, v ∈ USER_VERSIONS → find_at t u v = if decide (v = ver) then user else 0;
  y_ver : ver ∈ USER_VERSIONS;
  y_some : Forall (λ p, p ≠ 0) [http; utils; user; uv; uvt; ours];
  y_protect : ∀ t, protect_at t = true;
  y_alloc : ∀ t, alloc_at t = ours;
  y_uv : k_words w !! utils = Some uv;
  y_uvt : k_words w !! user = Some uvt;
  y_slots : Forall (λ p, is_Some (k_words w !! p)) [http; uv + 88; uv + 104; uvt + 8; uvt + 112];
  y_distinct : NoDup [http; utils; user; uv + 88; uv + 104; uvt + 8; uvt + 112];
  y_fresh : ∀ p i, p ∈ [http; utils; user; uv + 88; uv + 104; uvt + 8; uvt + 112] → (i < 32)%nat → p ≠ ours + 8 * Z.of_nat i;
}.

Lemma hook_bind {A B} (m : K A) (f : A → K B) w x w1 : m w = Some (x, w1) → mbind m f w = f x w1.
Proof. intros H. unfold mbind. by rewrite H. Qed.

Lemma write_run p v w : is_Some (k_words w !! p) → write_word p v w = Some (tt, k_set_words (<[p := v]> (k_words w)) w).
Proof. intros [x H]. unfold write_word. by rewrite H. Qed.

Lemma read_run p v w : k_words w !! p = Some v → read_word p w = Some (v, w).
Proof. intros H. unfold read_word. by rewrite H. Qed.

Lemma methods_run mem n : ∀ j w,
  (∀ i, (j ≤ i < j + n)%nat → is_Some (k_words w !! (mem + 8 * Z.of_nat i))) →
  ∃ m', for_each (seq j n) (λ i, write_word (mem + 8 * Z.of_nat i) (hook_addr (HkVTable i))) w = Some (tt, k_set_words m' w) ∧
    (∀ i, (j ≤ i < j + n)%nat → m' !! (mem + 8 * Z.of_nat i) = Some (hook_addr (HkVTable i))) ∧
    (∀ p, (∀ i, (j ≤ i < j + n)%nat → p ≠ mem + 8 * Z.of_nat i) → m' !! p = k_words w !! p).
Proof.
  induction n as [|n IH]; intros j w Hw; cbn [seq for_each].
  - exists (k_words w). destruct w. split; [done|]. split; [lia|done].
  - rewrite (hook_bind _ _ _ _ _ (write_run _ _ _ (Hw j ltac:(lia)))).
    edestruct (IH (S j)) as (m' & -> & Hin & Hout).
    { intros i Hi. cbn. rewrite lookup_insert_ne by lia. apply Hw. lia. }
    exists m'. split; [done|]. split.
    + intros i Hi. destruct (decide (i = j)) as [->|]; [|apply Hin; lia].
      rewrite Hout by lia. cbn. by rewrite lookup_insert_eq.
    + intros p Hp. rewrite Hout by (intros; apply Hp; lia). cbn. rewrite lookup_insert_ne; [done|].
      intros <-. apply (Hp j); [lia|done].
Qed.

Lemma zeroed_lookup mem n i : (i < n)%nat →
  list_to_map (M := gmap Z Z) ((λ i, (mem + 8 * Z.of_nat i, 0)) <$> seq 0 n) !! (mem + 8 * Z.of_nat i) = Some 0.
Proof.
  intros Hi. apply elem_of_list_to_map.
  - rewrite <- list_fmap_compose. unfold compose. cbn. apply NoDup_fmap_2; [|apply NoDup_seq]. intros x y. lia.
  - apply list_elem_of_fmap. exists i. split; [done|]. apply elem_of_seq. lia.
Qed.

(** The new ISteamHTTP: 25 methods and seven null ones; nothing else changes. *)
Lemma vtable_run w mem : alloc_at (k_time w) = mem → mem ≠ 0 →
  ∃ m', http_vtable w = Some (mem, k_set_words m' (k_set_time (S (k_time w)) w)) ∧
    (∀ i, (i < 32)%nat → m' !! (mem + 8 * Z.of_nat i) = Some (if (i <? 25)%nat then hook_addr (HkVTable i) else 0)) ∧
    (∀ p, (∀ i, (i < 32)%nat → p ≠ mem + 8 * Z.of_nat i) → m' !! p = k_words w !! p).
Proof.
  intros Ha Hm. unfold http_vtable, observe, mbind, modify. rewrite Ha, (proj2 (Z.eqb_neq mem 0) Hm).
  set (w1 := k_set_words _ _).
  assert (H1 : ∀ i, (i < 32)%nat → k_words w1 !! (mem + 8 * Z.of_nat i) = Some 0).
  { intros i Hi. unfold w1. cbn [k_words k_set_words]. apply lookup_union_Some_l. by apply zeroed_lookup. }
  destruct (methods_run mem VTABLE_LEN 0 w1) as (m' & -> & Hin & Hout).
  { intros i Hi. rewrite H1; [done|]. unfold VTABLE_LEN in Hi. lia. }
  unfold VTABLE_LEN in *. exists m'. split; [done|]. split.
  - intros i Hi. destruct (Nat.ltb_spec i 25); [apply Hin; lia|]. rewrite Hout; [by apply H1|lia].
  - intros p Hp. rewrite Hout by (intros; apply Hp; lia). unfold w1. cbn [k_words k_set_words]. apply lookup_union_r.
    apply not_elem_of_list_to_map. intros (x & ? & Hx)%list_elem_of_fmap.
    apply list_elem_of_fmap in Hx as (i & -> & Hi%elem_of_seq). cbn in *. by apply (Hp i); [lia|].
Qed.

(** [OnceLock::set] of the ticket function, when there is one. *)
Definition keep_web (a : Z) (o : Orig → option Z) : Orig → option Z :=
  if a =? 0 then o else match o OrWebApi with Some _ => o | None => <[OrWebApi := Some a]> o end.

Lemma keep_web_other a o r : r ≠ OrWebApi → keep_web a o r = o r.
Proof.
  intros H. unfold keep_web. destruct (a =? 0); [done|]. destruct (o OrWebApi); [done|]. by rewrite fn_lookup_insert_ne.
Qed.

Section ready.
Context (w0 : Hook) (http utils user uv uvt ours : Z) (ver : string).
Hypothesis (R : Ready w0 http utils user uv uvt ours ver).

Lemma ready_neq0 p : p ∈ [http; utils; user; uv; uvt; ours] → (p =? 0) = false.
Proof. intros H. apply Z.eqb_neq. revert p H. apply Forall_forall, R. Qed.

Lemma find_http_utils_run u users a b w :
  find_http_utils (u :: users) a b w = Some ((http, utils), k_set_time (S (S (k_time w))) w).
Proof.
  cbn [find_http_utils]. unfold observe, mbind. cbn. rewrite (y_http _ _ _ _ _ _ _ _ R), (y_utils _ _ _ _ _ _ _ _ R).
  rewrite !ready_neq0 by set_solver. unfold mret. by rewrite !ready_neq0 by set_solver.
Qed.

Lemma find_user_run v u users a w : v ∈ USER_VERSIONS →
  ∃ t, find_user (u :: users) v a w = Some (if decide (v = ver) then user else 0, k_set_time t w).
Proof.
  intros Hv. revert u a w. induction users as [|u' users IH]; intros u a w; cbn [find_user]; unfold observe, mbind;
    cbn [k_time]; rewrite (y_user _ _ _ _ _ _ _ _ R) by done; destruct (decide (v = ver)) as [E|E].
  - rewrite ready_neq0 by set_solver. by eexists.
  - by eexists.
  - rewrite ready_neq0 by set_solver. by eexists.
  - cbn [negb Z.eqb]. destruct (IH u' 0 (k_set_time (S (k_time w)) w)) as [t Ht]. exists t. cbn [find_user] in Ht. exact Ht.
Qed.

Lemma patch_user_run u users vers a w :
  ver ∈ vers → (∀ v, v ∈ vers → v ∈ USER_VERSIONS) →
  k_words w !! user = Some uvt → is_Some (k_words w !! (uvt + 8)) → k_words w !! (uvt + 112) = Some a →
  ∃ t prot, (∀ p, prot p = k_prot w p) ∧ patch_user (u :: users) vers w =
    Some (tt, mkHook t (k_image w) (<[uvt + 112 := hook_addr HkWebApi]> (<[uvt + 8 := hook_addr HkLoggedOn]> (k_words w)))
      prot (keep_web a (k_orig w)) (k_utils w) (k_started w) (k_iat_hooked w) (k_patched w) (k_sys_version w) (k_spawned w)).
Proof.
  intros Hin Hall Hu [b Hb] Ha. revert w Hu Hb Ha.
  induction vers as [|v vers IH]; intros w Hu Hb Ha; [by apply elem_of_nil in Hin|]. cbn [patch_user].
  destruct (find_user_run v u users 0 w) as [t Hf]; [apply Hall; left|]. rewrite (hook_bind _ _ _ _ _ Hf).
  destruct (decide (v = ver)) as [E|E]; cbn [Z.eqb].
  2: { destruct (IH ltac:(set_solver) ltac:(set_solver) (k_set_time t w) Hu Hb Ha) as (t' & prot & Hp & H).
    exists t', prot. split; [exact Hp|exact H]. }
  clear IH. rewrite ready_neq0 by set_solver. set (w1 := k_set_time t w).
  rewrite (hook_bind _ _ _ _ _ (read_run user uvt w1 Hu)).
  rewrite (hook_bind _ _ _ _ _ (read_run (uvt + 8 * USER_GET_AUTH_TICKET_WEBAPI) a w1 Ha)).
  set (w2 := k_set_origs (keep_web a (k_orig w)) (k_utils w) w1).
  assert (Hw : when (negb (a =? 0)) (set_orig OrWebApi a) w1 = Some (tt, w2)).
  { unfold w2, w1, keep_web, when, set_orig, modify. destruct w as [? ? ? ? o]. cbn. destruct (a =? 0); [done|]. cbn.
    by destruct (o OrWebApi). }
  rewrite (hook_bind _ _ _ _ _ Hw).
  assert (Hn : uvt ≠ 0) by (apply Z.eqb_neq, ready_neq0; set_solver).
  destruct (patch_slot_ok uvt USER_BLOGGED_ON HkLoggedOn w2 b Hn (y_protect _ _ _ _ _ _ _ _ R) Hb) as (p1 & Hp1 & H1).
  rewrite (hook_bind _ _ _ _ _ H1). set (w3 := k_set_prot p1 _).
  assert (Ha3 : k_words w3 !! (uvt + 8 * USER_GET_AUTH_TICKET_WEBAPI) = Some a).
  { unfold w3. cbn [k_words k_set_prot k_set_words k_set_time]. rewrite lookup_insert_ne by (unfold USER_BLOGGED_ON, USER_GET_AUTH_TICKET_WEBAPI; lia). done. }
  destruct (patch_slot_ok uvt USER_GET_AUTH_TICKET_WEBAPI HkWebApi w3 a Hn (y_protect _ _ _ _ _ _ _ _ R) Ha3) as (p2 & Hp2 & H2).
  rewrite (hook_bind _ _ _ _ _ H2). eexists _, p2. split; [|done].
  intros p. by rewrite Hp2.
Qed.

End ready.

(** The words a pass replaces, with what it leaves there. *)
Definition installed (http uv uvt ours : Z) : list (Z * Z) :=
  [(http, ours);
   (uv + 8 * UTILS_IS_CALL_COMPLETED, hook_addr HkIsCompleted); (uv + 8 * UTILS_GET_CALL_RESULT, hook_addr HkGetResult);
   (uvt + 8 * USER_BLOGGED_ON, hook_addr HkLoggedOn); (uvt + 8 * USER_GET_AUTH_TICKET_WEBAPI, hook_addr HkWebApi)] ++
  ((λ i, (ours + 8 * Z.of_nat i, hook_addr (HkVTable i))) <$> seq 0 25) ++
  ((λ i, (ours + 8 * Z.of_nat i, 0)) <$> seq 25 7).

(** Five inserts over the vtable's words read back as [installed] says. *)
Lemma installed_words (m0 m : gmap Z Z) http uv uvt ours :
  NoDup [http; uv + 88; uv + 104; uvt + 8; uvt + 112] →
  (∀ p i, p ∈ [http; uv + 88; uv + 104; uvt + 8; uvt + 112] → (i < 32)%nat → p ≠ ours + 8 * Z.of_nat i) →
  (∀ i, (i < 32)%nat → m !! (ours + 8 * Z.of_nat i) = Some (if (i <? 25)%nat then hook_addr (HkVTable i) else 0)) →
  (∀ p, (∀ i, (i < 32)%nat → p ≠ ours + 8 * Z.of_nat i) → m !! p = m0 !! p) →
  let m' := <[uvt + 112 := hook_addr HkWebApi]> (<[uvt + 8 := hook_addr HkLoggedOn]>
    (<[uv + 104 := hook_addr HkGetResult]> (<[uv + 88 := hook_addr HkIsCompleted]> (<[http := ours]> m)))) in
  (∀ p v, (p, v) ∈ installed http uv uvt ours → m' !! p = Some v) ∧
  (∀ p, p ∉ (installed http uv uvt ours).*1 → m' !! p = m0 !! p).
Proof.
  intros Hnd Hfresh Hin Hout m'.
  assert (Hr : ∀ i, (i < 32)%nat → m' !! (ours + 8 * Z.of_nat i) = m !! (ours + 8 * Z.of_nat i)).
  { intros i Hi. unfold m'. rewrite !lookup_insert_ne; [done|apply Hfresh; [set_solver|done]..]. }
  split.
  - intros p v. unfold installed, UTILS_IS_CALL_COMPLETED, UTILS_GET_CALL_RESULT, USER_BLOGGED_ON, USER_GET_AUTH_TICKET_WEBAPI.
    change (8 * 11) with 88. change (8 * 13) with 104. change (8 * 1) with 8. change (8 * 14) with 112.
    rewrite !elem_of_app. intros [H|[H|H]].
    + rewrite !NoDup_cons, !not_elem_of_cons in Hnd. destruct_and? Hnd. unfold m'.
      rewrite !elem_of_cons in H. destruct H as [[= -> ->]|[[= -> ->]|[[= -> ->]|[[= -> ->]|[[= -> ->]|[]%elem_of_nil]]]]];
        repeat first [rewrite lookup_insert_eq; done|rewrite lookup_insert_ne by congruence].
    + apply list_elem_of_fmap in H as (i & [= -> ->] & Hi%elem_of_seq). rewrite Hr, Hin by lia.
      by rewrite (proj2 (Nat.ltb_lt i 25)) by lia.
    + apply list_elem_of_fmap in H as (i & [= -> ->] & Hi%elem_of_seq). rewrite Hr, Hin by lia.
      by rewrite (proj2 (Nat.ltb_ge i 25)) by lia.
  - intros p Hp. unfold installed in Hp. rewrite !fmap_app, !not_elem_of_app in Hp. destruct Hp as (H5 & Ha & Hb).
    assert (Hne : ∀ i, (i < 32)%nat → p ≠ ours + 8 * Z.of_nat i).
    { intros i Hi ->. destruct (decide (i < 25)%nat).
      - apply Ha. apply list_elem_of_fmap. eexists (_, _). split; [reflexivity|]. apply list_elem_of_fmap.
        exists i. split; [done|apply elem_of_seq; lia].
      - apply Hb. apply list_elem_of_fmap. eexists (_, _). split; [reflexivity|]. apply list_elem_of_fmap.
        exists i. split; [done|apply elem_of_seq; lia]. }
    change (p ∉ [http; uv + 88; uv + 104; uvt + 8; uvt + 112]) in H5.
    rewrite !not_elem_of_cons in H5. destruct_and? H5. rewrite <- (Hout p Hne). unfold m'.
    by rewrite !lookup_insert_ne by congruence.
Qed.

(** The steps of a pass that patch ISteamUtils, before what follows. *)
Lemma utils_run {A} (next : K A) w utils uv is_c get_r :
  uv ≠ 0 → (∀ t, protect_at t = true) → k_words w !! utils = Some uv →
  k_words w !! (uv + 88) = Some is_c → k_words w !! (uv + 104) = Some get_r →
  ∃ t prot, (∀ p, prot p = k_prot w p) ∧
    (let* uv := read_word utils in
     let* is_c := read_word (uv + 8 * UTILS_IS_CALL_COMPLETED) in
     let* get_r := read_word (uv + 8 * UTILS_GET_CALL_RESULT) in
     modify (λ w, match k_utils w with
                  | Some _ => w
                  | None => k_set_origs (k_orig w) (Some (is_c, get_r)) w
                  end);;
     patch_slot uv UTILS_IS_CALL_COMPLETED HkIsCompleted;;
     patch_slot uv UTILS_GET_CALL_RESULT HkGetResult;;
     next) w =
    next (mkHook t (k_image w) (<[uv + 104 := hook_addr HkGetResult]> (<[uv + 88 := hook_addr HkIsCompleted]> (k_words w))) prot
      (k_orig w) (Some (default (is_c, get_r) (k_utils w))) (k_started w) (k_iat_hooked w) (k_patched w)
      (k_sys_version w) (k_spawned w)).
Proof.
  intros Hn Hp Hu Hc Hg. rewrite (hook_bind _ _ _ _ _ (read_run _ _ _ Hu)).
  rewrite (hook_bind _ _ _ _ _ (read_run (uv + 8 * UTILS_IS_CALL_COMPLETED) _ _ Hc)).
  rewrite (hook_bind _ _ _ _ _ (read_run (uv + 8 * UTILS_GET_CALL_RESULT) _ _ Hg)).
  set (w1 := k_set_origs (k_orig w) (Some (default (is_c, get_r) (k_utils w))) w).
  rewrite (hook_bind _ _ _ tt w1) by (unfold modify, w1; destruct w as [? ? ? ? ? []]; done).
  destruct (patch_slot_ok uv UTILS_IS_CALL_COMPLETED HkIsCompleted w1 is_c Hn Hp Hc) as (p1 & Hp1 & H1).
  rewrite (hook_bind _ _ _ _ _ H1). set (w2 := k_set_prot p1 _).
  assert (Hg2 : k_words w2 !! (uv + 8 * UTILS_GET_CALL_RESULT) = Some get_r).
  { unfold w2. cbn [k_words k_set_prot k_set_words k_set_time]. rewrite lookup_insert_ne; [done|].
    unfold UTILS_IS_CALL_COMPLETED, UTILS_GET_CALL_RESULT. lia. }
  destruct (patch_slot_ok uv UTILS_GET_CALL_RESULT HkGetResult w2 get_r Hn Hp Hg2) as (p2 & Hp2 & H2).
  rewrite (hook_bind _ _ _ _ _ H2). eexists _, p2. split; [|done]. intros p. by rewrite Hp2.
Qed.

(** Makes one observation. *)
Ltac seen := match goal with |- context [mbind (observe ?f) ?k ?w] =>
  change (mbind (observe f) k w) with (k (f (k_time w)) (k_set_time (S (k_time w)) w)); cbv beta end.

(** The steps of a pass up to the new vtable. *)
Lemma ready_run w http utils user uv uvt ours ver :
  Ready w http utils user uv uvt ours ver →
  ∃ t m u users,
    (∀ i, (i < 32)%nat → m !! (ours + 8 * Z.of_nat i) = Some (if (i <? 25)%nat then hook_addr (HkVTable i) else 0)) ∧
    (∀ p, (∀ i, (i < 32)%nat → p ≠ ours + 8 * Z.of_nat i) → m !! p = k_words w !! p) ∧
    try_patch w =
      (write_word http ours;;
       let* uv := read_word utils in
       let* is_c := read_word (uv + 8 * UTILS_IS_CALL_COMPLETED) in
       let* get_r := read_word (uv + 8 * UTILS_GET_CALL_RESULT) in
       modify (λ w, match k_utils w with
                    | Some _ => w
                    | None => k_set_origs (k_orig w) (Some (is_c, get_r)) w
                    end);;
       patch_slot uv UTILS_IS_CALL_COMPLETED HkIsCompleted;;
       patch_slot uv UTILS_GET_CALL_RESULT HkGetResult;;
       patch_user (u :: users) USER_VERSIONS;;
       hook_winhttp_modules;;
       mret true) (k_set_words m (k_set_time t w)).
Proof.
  intros R. unfold try_patch, GetModuleHandleA, GetProcAddress.
  assert (Hproc : ∀ t m n, n ∈ ["SteamAPI_Init"; "SteamInternal_FindOrCreateUserInterface"; "SteamAPI_GetHSteamUser"]%string →
    (proc_at t m n =? 0) = false) by (intros; apply Z.eqb_neq; by apply R).
  assert (Hz : ∀ p, p ∈ [http; utils; user; uv; uvt; ours] → (p =? 0) = false)
    by apply (ready_neq0 w http utils user uv uvt ours ver R).
  seen. rewrite (proj2 (Z.eqb_neq _ 0) (y_steam _ _ _ _ _ _ _ _ R _)).
  do 3 seen. rewrite !Hproc by set_solver. cbn [orb].
  seen. erewrite hook_bind by apply (find_http_utils_run w http utils user uv uvt ours ver R).
  cbv beta iota. rewrite !Hz by set_solver. cbn [orb].
  match goal with |- context [mbind http_vtable _ ?v] => set (w1 := v) end.
  destruct (vtable_run w1 ours) as (m & Hv & Hin & Hout);
    [apply R|apply Z.eqb_neq, Hz; set_solver|]. rewrite (hook_bind _ _ _ _ _ Hv).
  eexists _, m, _, _. split; [exact Hin|]. split; [exact Hout|]. reflexivity.
Qed.

(** From [w] to [w'] the words of [installed] were replaced and nothing else of Steam's; the functions
    that stood in the slots are kept, unless some were kept before. *)
Record Installed (w w' : Hook) (http uv uvt ours : Z) : Prop := {
  i_words : ∀ p v, (p, v) ∈ installed http uv uvt ours → k_words w' !! p = Some v;
  i_rest : ∀ p, p ∉ (installed http uv uvt ours).*1 → k_words w' !! p = k_words w !! p;
  i_prot : ∀ p, k_prot w' p = k_prot w p;
  i_utils : k_utils w = None → ∃ is_c get_r, k_utils w' = Some (is_c, get_r) ∧
    k_words w !! (uv + 8 * UTILS_IS_CALL_COMPLETED) = Some is_c ∧ k_words w !! (uv + 8 * UTILS_GET_CALL_RESULT) = Some get_r;
  i_web : ∃ a, k_words w !! (uvt + 8 * USER_GET_AUTH_TICKET_WEBAPI) = Some a ∧ k_orig w' OrWebApi = keep_web a (k_orig w) OrWebApi;
}.

Lemma try_patch_run w http utils user uv uvt ours ver :
  Ready w http utils user uv uvt ours ver → ∃ w', try_patch w = Some (true, w') ∧ Installed w w' http uv uvt ours.
Proof.
  intros R. destruct (ready_run _ _ _ _ _ _ _ _ R) as (t & m & u & users & Hin & Hout & ->).
  pose proof (y_distinct _ _ _ _ _ _ _ _ R) as Hnd. pose proof (y_fresh _ _ _ _ _ _ _ _ R) as Hfr.
  pose proof (y_slots _ _ _ _ _ _ _ _ R) as Hs. rewrite !Forall_cons in Hs.
  destruct Hs as (Hh & [is_c Hc] & [get_r Hg] & [b Hl] & [a Ha] & _).
  pose proof (y_some _ _ _ _ _ _ _ _ R) as Hz. rewrite !Forall_cons in Hz. destruct_and? Hz.
  assert (Hk : Forall (λ p, m !! p = k_words w !! p) [http; utils; user; uv + 88; uv + 104; uvt + 8; uvt + 112]).
  { apply Forall_forall. intros p Hp. apply Hout. intros i. by apply Hfr. }
  rewrite !Forall_cons in Hk. destruct Hk as (K1 & K2 & K3 & K4 & K5 & K6 & K7 & _).
  pose proof Hnd as Hnd'. rewrite !NoDup_cons, !not_elem_of_cons in Hnd'. destruct_and? Hnd'.
  assert (Hwr : is_Some (k_words (k_set_words m (k_set_time t w)) !! http)) by (cbn; by rewrite K1).
  rewrite (hook_bind _ _ _ _ _ (write_run http ours _ Hwr)). set (w1 := k_set_words _ _).
  edestruct (utils_run (patch_user (u :: users) USER_VERSIONS;; hook_winhttp_modules;; mret true) w1 utils uv is_c get_r)
    as (t1 & p1 & Hp1 & ->); [done|apply R|unfold w1; cbn; rewrite ?lookup_insert_ne by congruence..|].
  { rewrite K2. apply R. } { by rewrite K4. } { by rewrite K5. }
  match goal with |- context [(mbind (patch_user _ _) _) ?v] => set (w2 := v) end.
  destruct (patch_user_run _ _ _ _ _ _ _ _ R u users USER_VERSIONS a w2 (y_ver _ _ _ _ _ _ _ _ R)) as (t2 & p2 & Hp2 & Hu2);
    [done|unfold w2, w1; cbn; rewrite ?lookup_insert_ne by congruence..|].
  { rewrite K3. apply R. } { by rewrite K6. } { by rewrite K7. }
  rewrite (hook_bind _ _ _ _ _ Hu2). match goal with |- context [(mbind hook_winhttp_modules _) ?v] => set (w3 := v) end.
  pose proof (winhttp_modules_beside w3) as Hb. unfold wp in Hb.
  destruct (hook_winhttp_modules w3) as [[? w4]|] eqn:Hm; [|done]. rewrite (hook_bind _ _ _ _ _ Hm).
  destruct Hb as [Ew Ep Eu Eo _ _ _ _]. exists w4. split; [done|].
  edestruct (installed_words (k_words w) m http uv uvt ours) as [I1 I2]; [|intros p i Hp; apply Hfr|exact Hin|exact Hout|].
  { eapply sublist_NoDup; [exact Hnd|]. repeat constructor. }
  { rewrite !elem_of_cons in *. tauto. }
  split; rewrite ?Ew, ?Ep, ?Eu, ?Eo; [exact I1|exact I2|intros p; cbn; rewrite Hp2; apply Hp1|..].
  - intros E. exists is_c, get_r. cbn. by rewrite E.
  - exists a. done.
Qed.

(** [glances m]: [m] only makes observations. *)
Definition glances {A} (m : K A) : Prop := ∀ w x w', m w = Some (x, w') → w' = k_set_time (k_time w') w.

Lemma glances_ret {A} (x : A) : glances (mret x).
Proof. intros w y w' [= _ <-]. by destruct w. Qed.

Lemma glances_observe {A} (f : nat → A) : glances (observe f).
Proof. by intros w y w' [= _ <-]. Qed.

Lemma glances_bind {A B} (m : K A) (f : A → K B) : glances m → (∀ x, glances (f x)) → glances (mbind m f).
Proof.
  intros Hm Hf w y w'. unfold mbind. destruct (m w) as [[x w1]|] eqn:E; [|done]. intros H%Hf.
  apply Hm in E. by rewrite H, E.
Qed.

Lemma glances_if {A} (b : bool) (m n : K A) : glances m → glances n → glances (if b then m else n).
Proof. by destruct b. Qed.

Lemma find_glances users : ∀ a b, glances (find_http_utils users a b).
Proof.
  induction users as [|u users IH]; intros a b; cbn [find_http_utils]; [apply glances_ret|].
  repeat first [apply glances_observe|apply glances_ret|apply glances_if|apply IH|apply glances_bind; [|intros ?]].
Qed.

(** [never_false m]: where [m] answers, it answers true. *)
Definition never_false (m : K bool) : Prop := ∀ w b w', m w = Some (b, w') → b = true.

Lemma never_false_bind {A} (m : K A) f : (∀ x, never_false (f x)) → never_false (mbind m f).
Proof. intros Hf w b w'. unfold mbind. destruct (m w) as [[x w1]|]; [|done]. apply Hf. Qed.

(** A pass that fails has read and written nothing but the time: until both interfaces are there,
    Steam's objects, the pages, the originals and the images are as they were. *)
Theorem try_patch_waits w w' : try_patch w = Some (false, w') → w' = k_set_time (k_time w') w.
Proof.
  unfold try_patch, GetModuleHandleA, GetProcAddress. seen. destruct (_ =? 0); [by intros [= <-]|].
  do 3 seen. destruct (_ || _); [by intros [= <-]|]. seen. unfold mbind at 1.
  destruct (find_http_utils _ _ _ _) as [[[http utils] v]|] eqn:E; [|done]. apply find_glances in E.
  destruct (_ || _); [intros [= <-]; by rewrite E|].
  intros H. exfalso. revert H. enough (Hn : ∀ m, never_false m → m v = Some (false, w') → False).
  { apply Hn. repeat (apply never_false_bind; intros ?). by intros ? ? ? [= <- _]. }
  intros m Hm Hf. by apply Hm in Hf.
Qed.

(** ** The patch thread *)

Lemma ready_moves w w' http utils user uv uvt ours ver :
  k_words w' = k_words w → Ready w http utils user uv uvt ours ver → Ready w' http utils user uv uvt ours ver.
Proof. intros E []. by split; rewrite ?E. Qed.

Lemma installed_moves w0 w w' w2 http uv uvt ours :
  k_words w = k_words w0 → k_prot w = k_prot w0 → k_utils w = k_utils w0 → k_orig w OrWebApi = k_orig w0 OrWebApi →
  k_words w2 = k_words w' → k_prot w2 = k_prot w' → k_utils w2 = k_utils w' → k_orig w2 OrWebApi = k_orig w' OrWebApi →
  Installed w w' http uv uvt ours → Installed w0 w2 http uv uvt ours.
Proof.
  intros E1 E2 E3 E4 F1 F2 F3 F4 [H1 H2 H3 H4 (a & Ha & Ho)]. split; rewrite ?F1, ?F2, ?F3, ?F4, <- ?E1, <- ?E2, <- ?E3; try done.
  exists a. split; [done|]. rewrite Ho. unfold keep_web. rewrite <- E4.
  destruct (a =? 0); [done|]. destruct (k_orig w OrWebApi) eqn:E; [by rewrite <- E4|by rewrite !fn_lookup_insert].
Qed.

(** A computation that is [beside] runs, and what follows starts where it ends. *)
Lemma beside_then {A B} (m : K A) (f : K B) w (Q : B → Hook → Prop) :
  beside m → (∀ w1, aside w w1 → wp f Q w1) → wp (m;; f) Q w.
Proof. intros Hm Hf. rewrite wp_bind. eapply wp_mono; [apply Hm|]. intros ? w1 H. by apply Hf. Qed.

(** With Steam ready the thread's first pass succeeds. *)
Lemma patch_loop_run n w http utils user uv uvt ours ver :
  Ready w http utils user uv uvt ours ver → k_patched w = false →
  wp (patch_loop (S n)) (λ _ w', k_patched w' = true ∧ Installed w w' http uv uvt ours) w.
Proof.
  intros R Hp. cbn [patch_loop]. rewrite wp_bind, wp_gets, Hp. apply beside_then; [apply winhttp_modules_beside|].
  intros w1 A. destruct (try_patch_run w1 _ _ _ _ _ _ _ (ready_moves w w1 _ _ _ _ _ _ _ (a_words _ _ A) R)) as (w2 & E & I).
  rewrite wp_bind. unfold wp at 1. rewrite E. split; [done|]. destruct A.
  by eapply installed_moves; [..|exact I].
Qed.

(** Without Steam all passes are made. *)
Lemma patch_loop_idle n : (∀ t, module_at t (Some "steam_api64.dll"%string) = 0) → beside (patch_loop n).
Proof.
  intros Hs. induction n as [|n IH]; cbn [patch_loop]; [apply beside_ret|].
  apply beside_bind; [apply beside_gets|]. intros []; [apply beside_ret|].
  apply beside_bind; [apply winhttp_modules_beside|]. intros _ w. rewrite wp_bind.
  unfold try_patch, GetModuleHandleA, observe, mbind. unfold wp at 1. rewrite Hs.
  eapply wp_mono; [apply IH|]. intros x w' H. cbn in *. eapply transitivity; [|exact H]. by split.
Qed.

Lemma on_load_run w : k_started w = false →
  wp on_load (λ _ w', k_started w' = true ∧ k_spawned w' = S (k_spawned w) ∧ k_patched w' = k_patched w ∧
    k_words w' = k_words w ∧ k_prot w' = k_prot w ∧ k_utils w' = k_utils w ∧ k_orig w' OrWebApi = k_orig w OrWebApi) w.
Proof.
  intros Hs. unfold on_load. rewrite wp_bind, wp_gets, wp_bind. unfold wp at 1, modify. rewrite Hs.
  rewrite wp_bind. unfold wp at 1, observe. rewrite wp_bind. unfold wp at 1, modify.
  apply beside_then; [apply steam_iat_beside|]. intros w1 A1.
  apply beside_then; [apply playfab_iat_beside|]. intros w2 A2.
  apply beside_then; [apply winhttp_modules_beside|]. intros w3 A3.
  pose proof (transitivity A1 (transitivity A2 A3)) as [E1 E2 E3 E4 E5 E6 [_ E7] _].
  unfold wp, modify. cbn in *. rewrite E5, E7. by split_and!.
Qed.

(** ** What the development states of it *)


(** Where Steam never loads the thread gives up after its passes, with Steam's
    objects, pages and originals untouched and nothing marked as patched. *)
Theorem patch_thread_gives_up w :
  (∀ t, module_at t (Some "steam_api64.dll"%string) = 0) →
  ∃ w', patch_thread w = Some (tt, w') ∧ aside w w'.
Proof.
  intros Hs. assert (H : beside patch_thread).
  { unfold patch_thread. apply beside_bind; [apply steam_iat_beside|]. intros _.
    apply beside_bind; [apply playfab_iat_beside|]. intros _. apply beside_bind; [apply winhttp_modules_beside|]. intros _.
    by apply patch_loop_idle. }
  specialize (H w). unfold wp in H. destruct (patch_thread w) as [[[] w']|]; [|done]. by exists w'.
Qed.

(** A function of version.dll answers what the system's answers to the same arguments, and 0 without it. *)
Lemma forward_run name args w :
  ∃ w', w' = k_set_time (k_time w') w ∧
    forward name args w = Some (let h := default 0 (k_sys_version w) in
      let p := if h =? 0 then 0 else proc_at (k_time w) h name in
      if p =? 0 then 0 else call_version p args, w').
Proof.
  unfold forward, sys_proc, GetProcAddress, observe, mbind, gets, mret.
  destruct (_ =? 0); [exists w; by destruct w|]. exists (k_set_time (S (k_time w)) w). split; [done|].
  by destruct (_ =? 0).
Qed.
End hook.

(** ** A Steam that is up *)

Section demo.
Variables (ok : bool) (ver : string).

#[local] Instance demo_loader : Loader := {
  module_at _ name := match name with Some n => if decide (n = "steam_api64.dll"%string) then 0x7000 else 0 | None => 0 end;
  proc_at _ _ _ := 0x7100;
  huser_at _ := 1;
  find_at _ _ n :=
    if decide (n = "STEAMHTTP_INTERFACE_VERSION003"%string) then 0x100
    else if decide (n = "SteamUtils010"%string) then 0x200
    else if decide (n = ver) then 0x300 else 0;
  protect_at _ := ok;
  alloc_at _ := 0x8000;
  sys_version_at _ := 0x9000;
  call_version p args := Z.of_nat (length args);
  hook_addr h := match h with HkVTable i => 0xa000 + Z.of_nat i | HkIsCompleted => 0xb000 | HkGetResult => 0xb001
                 | HkLoggedOn => 0xb002 | HkWebApi => 0xb003 | _ => 0xb004 end
}.

Definition demo_words : gmap Z Z := list_to_map
  [(0x100, 0x400); (0x200, 0x500); (0x300, 0x600); (0x558, 0xc0); (0x568, 0xc1); (0x608, 0xc2); (0x670, 0xc3)].

Definition demo_hook : Hook := hook_init (λ _ _, x00) demo_words (λ _, 2).
End demo.

Lemma demo_steam_ready ver : ver ∈ USER_VERSIONS → Ready (L := demo_loader true ver) demo_hook 0x100 0x200 0x300 0x500 0x600 0x8000 ver.
Proof.
  intros Hv. split; try done.
  - intros t u v H. unfold find_at, demo_loader. unfold USER_VERSIONS in H.
    assert (v ≠ "STEAMHTTP_INTERFACE_VERSION003"%string) by set_solver.
    assert (v ≠ "SteamUtils010"%string) by set_solver. by rewrite !decide_False by done.
  - by repeat constructor.
  - by repeat (constructor; [by eexists|]).
  - vm_compute. by repeat (constructor; [set_solver|]); constructor.
  - intros p i Hp Hi ->. unfold USER_VERSIONS in *. rewrite !elem_of_cons, elem_of_nil in Hp. lia.
Qed.


Lemma patch_thread_gives_up_witness : ∃ w', patch_thread (L := {| module_at _ _ := 0; proc_at _ _ _ := 0; huser_at _ := 0;
    find_at _ _ _ := 0; protect_at _ := true; alloc_at _ := 0; sys_version_at _ := 0; call_version _ _ := 0; hook_addr _ := 0 |})
  demo_hook = Some (tt, w') ∧ aside demo_hook w'.
Proof. apply patch_thread_gives_up. intros t. reflexivity. Defined.

Lemma try_patch_waits_witness : ∃ w', try_patch (L := demo_loader true "SteamUser023") (hook_init (λ _ _, x00) ∅ (λ _, 2)) = None ∧
  try_patch (L := {| module_at _ _ := 1; proc_at _ _ _ := 1; huser_at _ := 0;
    find_at _ _ _ := 0; protect_at _ := true; alloc_at _ := 0; sys_version_at _ := 0; call_version _ _ := 0; hook_addr _ := 0 |})
  demo_hook = Some (false, w') ∧ w' = k_set_time (k_time w') demo_hook.
Proof.
  eexists. split; [vm_compute; reflexivity|]. split; [vm_compute; reflexivity|].
  apply (try_patch_waits (L := {| module_at _ _ := 1; proc_at _ _ _ := 1; huser_at _ := 0;
    find_at _ _ _ := 0; protect_at _ := true; alloc_at _ := 0; sys_version_at _ := 0; call_version _ _ := 0; hook_addr _ := 0 |})).
  vm_compute. reflexivity.
Defined.

(** The results of [patch_slot] are ignored: with every [VirtualProtect] refused a pass reports
    success, ISteamUtils and ISteamUser as they were, and the thread makes no other pass. *)
Theorem refused_slots_reported_patched :
  let L := demo_loader false "SteamUser023" in
  ∃ w1 w2, on_load demo_hook = Some (tt, w1) ∧ patch_thread w1 = Some (tt, w2) ∧ k_patched w2 = true ∧
    k_words w2 !! (0x500 + 8 * UTILS_IS_CALL_COMPLETED) = Some 0xc0 ∧ k_words w2 !! (0x600 + 8 * USER_BLOGGED_ON) = Some 0xc2.
Proof. eexists _, _. split; [vm_compute; reflexivity|]. split; [vm_compute; reflexivity|]. by vm_compute. Qed.
