(* ===== verification/Probe.v ===== *)
(** * The Party shim's diagnostics: logging gates and guarded reads of the game

    What [party-shim/src/lib.rs] keeps for its log: the throttled lines, the pass
    gates, the counters per thread, the table of event-bus values; and how it reads the game's
    memory: [readable] asks the system whether a range lies in one committed,
    readable region, and a read outside mapped memory has no result.

    The memory belongs to the running game: its content is a parameter that may
    differ from one read to the next.  Which addresses are mapped does not
    change while a probe runs.  The log file itself is not modelled: [log_line]
    keeps the texts. *)

From stdpp Require Import functions.
From S2P Require Import Prelude RustStr Comp.

#[local] Open Scope Z_scope.
#[local] Open Scope comp_scope.

(** ** The state *)

(** The atomics of the diagnostics; flags are 0 and 1. *)
Inductive Static :=
  | LAST_PROBE_PASS_MS | PROBES_RUN | PROBES_SKIPPED
  | THREAD_TIDS (i : nat) | THREAD_COUNTS (i : nat)
  | THREAD_DISTINCT | THREAD_TOTAL_CALLS | THREAD_OVERFLOW
  | LEDGER_HB_MS | LEDGER_HB_SKIPPED
  | IDLE_ANY_TX | IDLE_ANY_RX | IDLE_ACT_TX | IDLE_ACT_RX | IDLE_HB_TX | IDLE_HB_RX
  | BIG_SEND_DONE | JOINPUB_LOGGED
  | GUEST_SUB5_SENT | HOST_SNAPSHOT | SNAPSHOT_MS | SUB7_SENT | SUB7_RECV
  | XPORT_TID | TRANSPORT_UP | XPORT_WAKEUPS | XPORT_JOBS | XPORT_RX | XPORT_TX
  | BROKER_JOBS | BROKER_UP | BROKER_Q_DEPTH
  | LAST_ID_MASK | LAST_PROBE_KEY | IS_HOST | NATIVE_CONNECT
  | MESH_TRIGGER_TICKS | MESH_TRIGGER_KEY | MESH_EXPORTS
  | MODE3_GATE_KEY | MODE3_GATE_AT
  | SOLO_TID | SOLO_KEY | SOLO_AT | SOLO_PASSES | SOLO_EMITTED.
#[export] Instance Static_eq_dec : EqDecision Static.
Proof. solve_decision. Defined.

Definition static_init (s : Static) : Z :=
  match s with
  | LAST_ID_MASK | LAST_PROBE_KEY | MESH_TRIGGER_KEY | MODE3_GATE_KEY | SOLO_KEY => U64 - 1
  | _ => 0
  end.

Record EventBusSlot := mkEventBusSlot { value : Z; count : Z }.
Record EventBusTable := mkEventBusTable {
  slots : list EventBusSlot;
  distinct : Z;
  last : option Z;
  seen : Z;
  missing : Z;
  overflow : Z
}.
Definition EVENTBUS_SLOTS : nat := 16.
Definition eventbus_table : EventBusTable :=
  mkEventBusTable (replicate EVENTBUS_SLOTS (mkEventBusSlot 0 0)) 0 None 0 0 0.

(** [RelCounts]: what became of the packets of one delivery mode. *)
Record RelCounts := mkRelCounts {
  rc_sent : Z; rc_retransmitted : Z; rc_acked : Z; rc_dup_dropped : Z; rc_ooo_dropped : Z;
  rc_ooo_queued : Z; rc_evicted : Z
}.

(** [MsgStats]: messages each way, by opcode, and the time of the last rollup. *)
Record MsgStats := mkMsgStats {
  ms_send : Z;
  ms_recv : Z;
  ms_sent_ops : gmap Z Z;
  ms_recv_ops : gmap Z Z;
  ms_rollup : Z
}.

(** [p_reads] counts the reads of the outside; [p_log] is what [log_line] was given, first to last;
    [p_throttle] is the map of [throttle_map]; [p_probe_log_at] is [LAST_PROBE_LOG_AT];
    [p_send_options] and [p_payload_seen] are the [SEEN] of [log_send_options_once] and
    [should_log_payload]; [p_rel_stats] is [REL_STATS], [p_msg_stats] the [STATS] of
    [bump_msg_stats]. *)
Record Probes := mkProbes {
  p_reads : nat;
  p_log : list string;
  p_static : Static → Z;
  p_throttle : gmap string (Z * Z);
  p_bus : EventBusTable;
  p_probe_log_at : option Z;
  p_send_options : list Z;
  p_payload_seen : gmap string Z;
  p_rel_stats : list RelCounts;
  p_msg_stats : option MsgStats
}.

Definition probes_init : Probes :=
  mkProbes 0 [] static_init ∅ eventbus_table None [] ∅ (replicate 4 (mkRelCounts 0 0 0 0 0 0 0)) None.

Definition p_set_reads (k : nat) (w : Probes) : Probes :=
  mkProbes k (p_log w) (p_static w) (p_throttle w) (p_bus w) (p_probe_log_at w) (p_send_options w) (p_payload_seen w) (p_rel_stats w) (p_msg_stats w).
Definition p_set_log (l : list string) (w : Probes) : Probes :=
  mkProbes (p_reads w) l (p_static w) (p_throttle w) (p_bus w) (p_probe_log_at w) (p_send_options w) (p_payload_seen w) (p_rel_stats w) (p_msg_stats w).
Definition p_set_static (f : Static → Z) (w : Probes) : Probes :=
  mkProbes (p_reads w) (p_log w) f (p_throttle w) (p_bus w) (p_probe_log_at w) (p_send_options w) (p_payload_seen w) (p_rel_stats w) (p_msg_stats w).
Definition p_set_throttle (m : gmap string (Z * Z)) (w : Probes) : Probes :=
  mkProbes (p_reads w) (p_log w) (p_static w) m (p_bus w) (p_probe_log_at w) (p_send_options w) (p_payload_seen w) (p_rel_stats w) (p_msg_stats w).
Definition p_set_bus (t : EventBusTable) (w : Probes) : Probes :=
  mkProbes (p_reads w) (p_log w) (p_static w) (p_throttle w) t (p_probe_log_at w) (p_send_options w) (p_payload_seen w) (p_rel_stats w) (p_msg_stats w).
Definition p_set_probe_log_at (t : option Z) (w : Probes) : Probes :=
  mkProbes (p_reads w) (p_log w) (p_static w) (p_throttle w) (p_bus w) t (p_send_options w) (p_payload_seen w) (p_rel_stats w) (p_msg_stats w).
Definition p_set_send_options (l : list Z) (w : Probes) : Probes :=
  mkProbes (p_reads w) (p_log w) (p_static w) (p_throttle w) (p_bus w) (p_probe_log_at w) l (p_payload_seen w) (p_rel_stats w) (p_msg_stats w).
Definition p_set_payload_seen (m : gmap string Z) (w : Probes) : Probes :=
  mkProbes (p_reads w) (p_log w) (p_static w) (p_throttle w) (p_bus w) (p_probe_log_at w) (p_send_options w) m (p_rel_stats w) (p_msg_stats w).
Definition p_set_rel_stats (l : list RelCounts) (w : Probes) : Probes :=
  mkProbes (p_reads w) (p_log w) (p_static w) (p_throttle w) (p_bus w) (p_probe_log_at w) (p_send_options w) (p_payload_seen w) l (p_msg_stats w).
Definition p_set_msg_stats (s : option MsgStats) (w : Probes) : Probes :=
  mkProbes (p_reads w) (p_log w) (p_static w) (p_throttle w) (p_bus w) (p_probe_log_at w) (p_send_options w) (p_payload_seen w) (p_rel_stats w) s.

Abbreviation M := (comp Probes).

(** ** The outside *)

(** [MEMORY_BASIC_INFORMATION], the fields that are read. *)
Record MemInfo := mkMemInfo { mi_base : Z; mi_region_size : Z; mi_state : Z; mi_protect : Z }.

Definition MEM_COMMIT : Z := 4096.
Definition PAGE_GUARD : Z := 256.
Definition page_has_read (protect : Z) : bool :=
  if negb (Z.land protect PAGE_GUARD =? 0) then false
  else bool_decide (Z.land protect 255 ∈ [2; 4; 8; 32; 64; 128]).

(** The base of the executable's image ([GetModuleHandleA] of null); [VirtualQuery]; the addresses
    the process can read; the byte at an address at the n-th read of the outside; the clocks
    ([now_ms] in milliseconds, [Instant::now] in nanoseconds); the calling thread; the configuration
    ([debug_enabled], [log_hex_all]). *)
Class Game := {
  exe_module : Z;
  vquery : Z → option MemInfo;
  mapped : Z → bool;
  byte_at : nat → Z → byte;
  now_at : nat → Z;
  inst_at : nat → Z;
  thread_id : Z;
  debug_enabled : bool;
  log_hex_all : bool
}.

(** What the documentation of [VirtualQuery] promises: it describes a range of addresses, and the
    pages of a committed region whose protection allows reading can be read. *)
Class GameOk `{Game} : Prop := {
  vquery_base p i : vquery p = Some i → 0 <= mi_base i;
  vquery_mapped p i a :
    vquery p = Some i → mi_state i = MEM_COMMIT → page_has_read (mi_protect i) = true →
    mi_base i <= a < mi_base i + mi_region_size i → mapped a = true
}.

(** Addresses wrap: the release build does not check [+] on [usize]. *)
Definition wadd (a b : Z) : Z := (a + b) mod U64.
Infix "⊞" := wadd (at level 50, left associativity) : rust_scope.
#[local] Open Scope rust_scope.

(** [{:#x}] and [{:#0w+2x}]. *)
Fixpoint drop_zeros (l : list byte) : list byte :=
  match l with
  | b :: l' => if byte_eqb b x30 && (0 <? length l')%nat then drop_zeros l' else l
  | [] => []
  end.
Definition fmt_hex (z : Z) : string := "0x" +:+ bstr (drop_zeros (hex_fixed 16 z)).
Definition fmt_hex_w (w : nat) (z : Z) : string :=
  let ds := drop_zeros (hex_fixed 16 z) in
  "0x" +:+ bstr (replicate (w - length ds) x30 ++ ds).

Section probe.
Context `{G : Game}.

Definition observe {A} (f : nat → A) : M A := λ w,
  Some (f (p_reads w), p_set_reads (S (p_reads w)) w).
Definition now_ms : M Z := observe now_at.
Definition instant_now : M Z := observe inst_at.

Definition readable (p n : Z) : bool :=
  if (p =? 0) || (n =? 0) || (U64 <=? p + n) then false
  else match vquery p with
  | None => false
  | Some info =>
      if negb (mi_state info =? MEM_COMMIT) || negb (page_has_read (mi_protect info)) then false
      else (mi_base info <=? p) && (p + n <=? saturating_add64 (mi_base info) (mi_region_size info))
  end.

(** [n] bytes at [p], which have to be mapped. *)
Definition span (p : Z) (n : nat) : list Z := (λ i, p ⊞ Z.of_nat i) <$> seq 0 n.
Definition read_bytes (p : Z) (n : nat) : M (list byte) :=
  if forallb mapped (span p n) then observe (λ k, byte_at k <$> span p n) else undef.

(** [ptr::read_unaligned] of an unsigned integer of [n] bytes. *)
Definition peek (n : nat) (p : Z) : M Z := let* l := read_bytes p n in mret (from_le l).
Definition peek_i32 (p : Z) : M Z := let* v := peek 4 p in mret (as_i32 v).
End probe.

(** ** Logging *)

Section log.
Context `{G : Game}.

Definition log_line (msg : string) : M unit := modify (λ w, p_set_log (p_log w ++ [msg]) w).
Definition debug_log (msg : string) : M unit := when debug_enabled (log_line msg).

Definition NANOS : Z := 1000000000.
Definition elapsed (t now : Z) : Z := saturating_sub now t.

(** [log_throttled_lazy]; [log_throttled] is the same with the text built beforehand. *)
Definition log_throttled_lazy (key : string) (f : Z → M string) : M unit :=
  let* now := instant_now in
  let* m := gets p_throttle in
  let '(at0, n) := default (now, 0) (m !! key) in
  let* later := instant_now in
  if NANOS <=? elapsed at0 later then
    let* again := instant_now in
    modify (λ w, p_set_throttle (<[key := (again, 0)]> (p_throttle w)) w);;
    let* msg := f n in
    if 0 <? n then log_line (msg +:+ " [+" +:+ fmt_dec n +:+ " more in the previous second]")
    else log_line msg
  else modify (λ w, p_set_throttle (<[key := (at0, (n + 1) mod U32)]> (p_throttle w)) w).
Definition log_throttled (key msg : string) : M unit := log_throttled_lazy key (λ _, mret msg).
Definition debug_throttled (key msg : string) : M unit := when debug_enabled (log_throttled key msg).
Definition debug_throttled_lazy (key : string) (f : Z → M string) : M unit :=
  when debug_enabled (log_throttled_lazy key f).

(** *** Atomics *)

Definition load (s : Static) : M Z := gets (λ w, p_static w s).
Definition store (s : Static) (v : Z) : M unit := modify (λ w, p_set_static (<[s := v]> (p_static w)) w).
Definition swap (s : Static) (v : Z) : M Z := let* old := load s in store s v;; mret old.
Definition fetch_add64 (s : Static) (v : Z) : M Z :=
  let* old := load s in store s ((old + v) mod U64);; mret old.
Definition fetch_add32 (s : Static) (v : Z) : M Z :=
  let* old := load s in store s ((old + v) mod U32);; mret old.

(** *** Gates *)

Definition PROBE_PASS_MS : Z := 200.
Definition probe_tick_due (now : Z) : M bool :=
  let* last := load LAST_PROBE_PASS_MS in
  if negb (last =? 0) && ((now - last) mod U64 <? PROBE_PASS_MS)
  then fetch_add64 PROBES_SKIPPED 1;; mret false
  else store LAST_PROBE_PASS_MS now;; fetch_add64 PROBES_RUN 1;; mret true.

Definition LEDGER_HEARTBEAT_MS : Z := 30000.
Definition DEBUG_HEARTBEAT_MS : Z := 5000.
Definition ledger_heartbeat_ms : Z := if debug_enabled then DEBUG_HEARTBEAT_MS else LEDGER_HEARTBEAT_MS.
Definition ledger_hb_due (now : Z) : M bool :=
  let* last := load LEDGER_HB_MS in
  if negb (last =? 0) && ((now - last) mod U64 <? ledger_heartbeat_ms)
  then fetch_add64 LEDGER_HB_SKIPPED 1;; mret false
  else store LEDGER_HB_MS now;; mret true.

Definition should_log_payload (key : string) : M bool :=
  if log_hex_all then mret true else
  let* m := gets p_payload_seen in
  let n := (default 0 (m !! key) + 1) mod U32 in
  modify (λ w, p_set_payload_seen (<[key := n]> (p_payload_seen w)) w);;
  mret ((n <=? 16) || (n =? 50) || (n =? 100) || (n mod 250 =? 0)).

(** Last time each class of messages crossed the wire. *)
Definition idle_note (dir : string) (op sub : Z) : M unit :=
  let* now := now_ms in
  if bool_decide (dir = "send") then
    store IDLE_ANY_TX now;;
    if (op =? 2) && (sub =? 40) then store IDLE_ACT_TX now
    else if (op =? 2) && (sub =? 65) then store IDLE_HB_TX now
    else mret tt
  else
    store IDLE_ANY_RX now;;
    if op =? 9 then store IDLE_ACT_RX now
    else if (op =? 2) && (sub =? 65) then store IDLE_HB_RX now
    else mret tt.

(** *** Threads *)

Definition THREAD_SLOTS : nat := 8.

(** The scan of the slots: the slot of the thread, or the first free one. *)
Fixpoint thread_slot (n i : nat) (tid : Z) (empty : option nat) : M (nat + option nat) :=
  match n with
  | O => mret (inr empty)
  | S n =>
      let* t := load (THREAD_TIDS i) in
      if t =? tid then mret (inl i)
      else thread_slot n (S i) tid (if (t =? 0) && bool_decide (empty = None) then Some i else empty)
  end.

(** [note_party_thread] after the worker threads are started and the event bus is read; the slot
    found free is still free when it is taken. *)
Definition note_thread : M Z :=
  fetch_add64 THREAD_TOTAL_CALLS 1;;
  let* s := thread_slot THREAD_SLOTS 0 thread_id None in
  match s with
  | inl i => fetch_add64 (THREAD_COUNTS i) 1;; mret thread_id
  | inr (Some i) =>
      store (THREAD_TIDS i) thread_id;;
      store (THREAD_COUNTS i) 1;;
      let* d := fetch_add32 THREAD_DISTINCT 1 in
      let* calls := load THREAD_TOTAL_CALLS in
      debug_log ("party_thread new tid=" +:+ fmt_hex_w 8 thread_id +:+ " distinct=" +:+ fmt_dec (d + 1)
        +:+ " calls_total=" +:+ fmt_dec calls +:+ " — first Party export call on this thread");;
      mret thread_id
  | inr None => store THREAD_OVERFLOW 1;; mret thread_id
  end.

Fixpoint thread_parts (n i : nat) : M (list string) :=
  match n with
  | O => mret []
  | S n =>
      let* t := load (THREAD_TIDS i) in
      let* c := load (THREAD_COUNTS i) in
      let* l := thread_parts n (S i) in
      mret (if t =? 0 then l else (fmt_hex t +:+ ":" +:+ fmt_dec c) :: l)
  end.
Definition thread_probe_note : M string :=
  let* parts := thread_parts THREAD_SLOTS 0 in
  let* o := load THREAD_OVERFLOW in
  let* d := load THREAD_DISTINCT in
  mret ("threads=" +:+ fmt_dec d +:+ " now=" +:+ fmt_hex thread_id +:+ " ["
    +:+ join " " (parts ++ if o =? 0 then [] else ["overflow"]) +:+ "]").
End log.

(** ** The event bus *)

Section eventbus.
Context `{G : Game}.
#[local] Open Scope rust_scope.

Definition EVENTBUS_OBJ_RVA : Z := 0x7c233c0.
Definition EVENTBUS_CODE_OFF : Z := 0x108.

Definition eventbus_dword : M (option Z) :=
  let base := exe_module in
  if (base =? 0) || negb (readable (base ⊞ EVENTBUS_OBJ_RVA) 8) then mret None else
  let* p := peek 8 (base ⊞ EVENTBUS_OBJ_RVA) in
  if (p =? 0) || negb (readable (p ⊞ EVENTBUS_CODE_OFF) 4) then mret None else
  let* v := peek 4 (p ⊞ EVENTBUS_CODE_OFF) in
  mret (Some v).

Definition slot_find (v : Z) (t : EventBusTable) : option nat :=
  position (λ s, value s =? v) (take (Z.to_nat (distinct t)) (slots t)).

(** One reading entered in the table; whether the value is new, and its count. *)
Definition bus_enter (v : Z) (t : EventBusTable) : bool * Z * EventBusTable :=
  match slot_find v t with
  | Some i =>
      let c := (count (default (mkEventBusSlot 0 0) (slots t !! i)) + 1) mod U64 in
      (false, c,
        mkEventBusTable (<[i := mkEventBusSlot v c]> (slots t)) (distinct t) (Some v)
          ((seen t + 1) mod U64) (missing t) (overflow t))
  | None =>
      if distinct t <? Z.of_nat EVENTBUS_SLOTS then
        (true, 1,
          mkEventBusTable (<[Z.to_nat (distinct t) := mkEventBusSlot v 1]> (slots t)) (distinct t + 1)
            (Some v) ((seen t + 1) mod U64) (missing t) (overflow t))
      else
        (false, 0,
          mkEventBusTable (slots t) (distinct t) (Some v) ((seen t + 1) mod U64) (missing t)
            ((overflow t + 1) mod U64))
  end.

Definition bus_text (v : Z) (prev : option Z) (first : bool) (c : Z) (t : EventBusTable) : string :=
  "solo_eventbus v=" +:+ fmt_hex_w 8 v
    +:+ " prev=" +:+ match prev with Some p => fmt_hex_w 8 p | None => "ro" end
    +:+ " count=" +:+ fmt_dec c +:+ " distinct=" +:+ fmt_dec (distinct t)
    +:+ " seen=" +:+ fmt_dec (seen t) +:+ " first=" +:+ (if first then "1" else "0")
    +:+ " missing=" +:+ fmt_dec (missing t) +:+ " overflow=" +:+ fmt_dec (overflow t).

Definition note_eventbus : M unit :=
  let* r := eventbus_dword in
  let* t := gets p_bus in
  match r with
  | None =>
      modify (p_set_bus (mkEventBusTable (slots t) (distinct t) (last t) (seen t)
        ((missing t + 1) mod U64) (overflow t)))
  | Some v =>
      let '(first, c, t') := bus_enter v t in
      modify (p_set_bus t');;
      if bool_decide (last t = Some v) then mret tt
      else log_line (bus_text v (last t) first c t')
  end.

(** [note_party_thread], the worker threads started. *)
Definition note_party_thread : M Z := note_eventbus;; note_thread.
End eventbus.
