(* ===== verification/ProbeGame.v ===== *)
(** * The Party shim's probes of the game's objects

    The probes of [party-shim/src/lib.rs] that read the session, the member
    list, the ready list, the overlay and the quest manager, each as the code
    writes it: which range it asks [readable] about and which bytes it then
    reads.  The texts of the log lines are built as the code builds them. *)

From S2P Require Import Prelude RustStr Comp Probe.

#[local] Open Scope Z_scope.
#[local] Open Scope comp_scope.
#[local] Open Scope rust_scope.

Definition OVERLAY_GLOBAL_RVA : Z := 0x79f3c58.
Definition LOOKUP_ID4_RVA : Z := 0x7034c60.
Definition LOOKUP_ID8_RVA : Z := 0x7034d40.
Definition SESSION_GLOBAL_RVA : Z := 0x7c52cd0.
Definition MEMBER_LIST_GLOBAL_RVA : Z := 0x7c52ce0.
Definition SEND_GLOBAL_RVA : Z := 0x7c52cd8.
Definition READY_LIST_GLOBAL_RVA : Z := 0x71afb30.
Definition QUEST_MGR_GLOBAL_RVA : Z := 0x7c48628.
Definition READY_STRIDE : Z := 0x180.
Definition MEMBER_STRIDE : Z := 0x20.

Section game.
Context `{G : Game}.

(** [if readable(p, n) { read(p) } else { other }]. *)
Definition peek_or (n : nat) (p other : Z) : M Z :=
  if readable p (Z.of_nat n) then peek n p else mret other.
Definition i32_or (p other : Z) : M Z := if readable p 4 then peek_i32 p else mret other.
(** The same behind a pointer that has to be non-null. *)
Definition via (ptr : Z) (m : M Z) (other : Z) : M Z := if ptr =? 0 then mret other else m.

(** ** Overlay and lookup ids *)

Definition overlay_object : M Z :=
  let base := exe_module in
  if base =? 0 then mret 0 else
  let* slot := peek_or 8 (base ⊞ OVERLAY_GLOBAL_RVA) 0 in
  if (slot =? 0) || negb (readable (slot ⊞ 0x18) 8) then mret 0 else peek 8 (slot ⊞ 0x18).

(** One of the two loops: the bit of each readable non-zero id. *)
Fixpoint id_bits (p : Z) (bit : Z) (n : nat) (acc : Z * Z) : M (Z * Z) :=
  match n with
  | O => mret acc
  | S n =>
      let* v := peek_or 8 p 0 in
      id_bits (p ⊞ 0x18) (bit + 1) n
        (if v =? 0 then acc else (Z.lor acc.1 (Z.shiftl 1 bit), acc.2 + 1))
  end.

Definition id_table_note (base : Z) : M string :=
  let* a := id_bits (base ⊞ LOOKUP_ID4_RVA) 0 4 (0, 0) in
  let* (mask, filled) := id_bits (base ⊞ LOOKUP_ID8_RVA) 4 8 a in
  let* old := swap LAST_ID_MASK mask in
  when (negb (old =? mask))
    (debug_log ("lookup_ids filled=" +:+ fmt_dec filled +:+ "/12 mask=" +:+ fmt_hex_w 4 mask));;
  mret (" ids=" +:+ fmt_dec filled +:+ "/12").

Definition append_overlay_note (base : Z) (note : string) : M string :=
  if negb (readable (base ⊞ OVERLAY_GLOBAL_RVA) 8) then mret (note +:+ " overlay unreadable") else
  let* slot := peek 8 (base ⊞ OVERLAY_GLOBAL_RVA) in
  let* after := peek_or 8 (base ⊞ OVERLAY_GLOBAL_RVA ⊞ 0x18) 0 in
  let* obj := overlay_object in
  let note := note +:+ " overlay_slot=" +:+ fmt_hex slot +:+ " overlay_after=" +:+ fmt_hex after
    +:+ " overlay_obj=" +:+ fmt_hex obj in
  let* ids := id_table_note base in
  let note := note +:+ ids in
  if negb (readable (base ⊞ QUEST_MGR_GLOBAL_RVA) 8) then mret note else
  let* mgr := peek 8 (base ⊞ QUEST_MGR_GLOBAL_RVA) in
  if (mgr =? 0) || negb (readable (mgr ⊞ 0x6c814) 6) then mret note else
  let* latch := peek 4 (mgr ⊞ 0x6c814) in
  let* b18 := peek 2 (mgr ⊞ 0x6c818) in
  mret (note +:+ " 6c814=" +:+ fmt_dec latch +:+ " 6c818=" +:+ fmt_hex b18).

(** ** The connect gate *)

Definition log_connect_gate_inputs : M unit :=
  let base := exe_module in
  if (base =? 0) || negb (readable (base ⊞ SEND_GLOBAL_RVA) 8)
  then log_line "connect-gate inputs: send global unreadable" else
  let* send := peek 8 (base ⊞ SEND_GLOBAL_RVA) in
  if send =? 0 then log_line "connect-gate inputs: DAT_147c52cd8=null" else
  let* p18 := peek_or 8 (send ⊞ 0x18) 0 in
  let* inner := via p18 (peek_or 8 (p18 ⊞ 0x38) 0) 0 in
  let* party := peek_or 8 (send ⊞ 0x38) 0 in
  let* b0 := via party (peek_or 1 (party ⊞ 0xa0) 0) 0 in
  let* inv := via party (peek_or 8 (party ⊞ 0x218) 0) 0 in
  debug_log ("connect-gate inputs send=" +:+ fmt_hex send +:+ " +18=" +:+ fmt_hex p18
    +:+ " [+18]+38=" +:+ fmt_hex inner +:+ " party+38=" +:+ fmt_hex party
    +:+ " desc0=" +:+ fmt_dec b0 +:+ " inv=" +:+ fmt_dec inv).

Definition connect_gate_party_invitation : M (Z * Z) :=
  let base := exe_module in
  if (base =? 0) || negb (readable (base ⊞ SEND_GLOBAL_RVA) 8) then mret (0, 0) else
  let* send := peek 8 (base ⊞ SEND_GLOBAL_RVA) in
  if (send =? 0) || negb (readable (send ⊞ 0x38) 8) then mret (0, 0) else
  let* party := peek 8 (send ⊞ 0x38) in
  if (party =? 0) || negb (readable (party ⊞ 0x218) 8) then mret (party, 0) else
  let* inv := peek 8 (party ⊞ 0x218) in
  mret (party, inv).

(** ** Strings and the member list *)

Definition read_std_string (obj : Z) : M string :=
  if negb (readable (obj ⊞ 0x18) 8) || negb (readable (obj ⊞ 0x10) 8) then mret EmptyString else
  let* cap := peek 8 (obj ⊞ 0x18) in
  let* len := peek 8 (obj ⊞ 0x10) in
  if (len =? 0) || (64 <? len) then mret EmptyString else
  if (15 <? cap) && negb (readable obj 8) then mret EmptyString else
  let* p := if 15 <? cap then peek 8 obj else mret obj in
  if (p =? 0) || negb (readable p len) then mret EmptyString else
  let* sl := read_bytes p (Z.to_nat len) in
  mret (from_utf8_lossy sl).

Definition member_list_container : M (option Z) :=
  let base := exe_module in
  if (base =? 0) || negb (readable (base ⊞ MEMBER_LIST_GLOBAL_RVA) 8) then mret None else
  let* members := peek 8 (base ⊞ MEMBER_LIST_GLOBAL_RVA) in
  if (members =? 0) || negb (readable (members ⊞ 0x50) 24) then mret None else
  mret (Some members).

(** A vector whose bounds have the shape the walks accept. *)
Definition vec_shape (begin end_ stride : Z) : bool :=
  negb (begin =? 0) && (begin <=? end_) && ((end_ - begin) mod stride =? 0) && (end_ - begin <=? stride * 16).

(** [work] of an entry: two pointers away. *)
Definition entry_work (e : Z) : M Z :=
  let* inner := peek_or 8 (e ⊞ 0x18) 0 in
  via inner (peek_or 8 (inner ⊞ 0x18) 0) 0.

(** [while e < end { body; e += stride }]; out of fuel has no result. *)
Fixpoint walk {A} (fuel : nat) (stride e end_ : Z) (body : Z → A → M (A * bool)) (a : A) : M A :=
  if negb (e <? end_) then mret a else
  match fuel with
  | O => undef
  | S fuel =>
      let* (a, stop) := body e a in
      if stop then mret a else walk fuel stride (e ⊞ stride) end_ body a
  end.
Definition WALK : nat := 17.

Definition member_list_has_entity (eid : string) : M bool :=
  let* c := member_list_container in
  match c with
  | None => mret false
  | Some members =>
      let* begin := peek 8 (members ⊞ 0x50) in
      let* end_ := peek 8 (members ⊞ 0x58) in
      if negb (vec_shape begin end_ MEMBER_STRIDE) then mret false else
      if negb (readable begin (end_ - begin)) then mret false else
      walk WALK MEMBER_STRIDE begin end_ (λ e _,
        let* flagobj := entry_work e in
        if flagobj =? 0 then mret (false, false) else
        let* s := read_std_string (flagobj ⊞ 0x38) in
        mret (bool_decide (s = eid), bool_decide (s = eid))) false
  end.

Record MemberSlot := mkMemberSlot {
  id : Z; flag70 : Z; unique : Z; a0 : Z; rank : Z; eid : string
}.

Definition member_slot (e : Z) : M MemberSlot :=
  let* work := entry_work e in
  let* flag70 := via work (peek_or 1 (work ⊞ 0x70) 255) 255 in
  let* id := via work (i32_or (work ⊞ 0x68) (-1)) (-1) in
  let* unique := via work (i32_or (work ⊞ 8) (-1)) (-1) in
  let* a0 := via work (i32_or (work ⊞ 0xa0) (-1)) (-1) in
  let* rank := via work (i32_or (work ⊞ 0x6c) (-1)) (-1) in
  let* eid := if work =? 0 then mret EmptyString else read_std_string (work ⊞ 0x38) in
  mret (mkMemberSlot id flag70 unique a0 rank eid).

Definition collect_member_slots : M (list MemberSlot) :=
  let* c := member_list_container in
  match c with
  | None => mret []
  | Some members =>
      let* begin := peek 8 (members ⊞ 0x50) in
      let* end_ := peek 8 (members ⊞ 0x58) in
      if negb (vec_shape begin end_ MEMBER_STRIDE) then mret [] else
      if negb (readable begin (end_ - begin)) then mret [] else
      walk WALK MEMBER_STRIDE begin end_ (λ e out,
        let* s := member_slot e in mret (out ++ [s], false)) []
  end.

(** ** The ready list *)

(** The rows of the list as text. *)
Definition ready_rows (begin end_ : Z) : M (list string) :=
  walk WALK READY_STRIDE begin end_ (λ e ids,
    let* id := peek_i32 e in
    let* st := peek_i32 (e ⊞ 4) in
    let* fl10 := peek 1 (e ⊞ 0x10) in
    let* skip := peek 1 (e ⊞ 0x40) in
    mret (ids ++ [fmt_dec id +:+ ":" +:+ fmt_dec st +:+ ":t" +:+ fmt_dec fl10 +:+ ":s" +:+ fmt_dec skip],
      false)) [].

Definition ready_list_note : M string :=
  let base := exe_module in
  if (base =? 0) || negb (readable (base ⊞ READY_LIST_GLOBAL_RVA) 8) then mret " ready=unreadable"%string else
  let* obj := peek 8 (base ⊞ READY_LIST_GLOBAL_RVA) in
  if obj =? 0 then mret " ready=null"%string else
  if negb (readable (obj ⊞ 0x50) 24) then mret (" ready=" +:+ fmt_hex obj +:+ " +50 unreadable") else
  let* flag := peek 1 (obj ⊞ 0x50) in
  let* begin := peek 8 (obj ⊞ 0x58) in
  let* end_ := peek 8 (obj ⊞ 0x60) in
  let fl := " ready=" +:+ fmt_hex obj +:+ " fl=" +:+ fmt_dec flag in
  if begin =? 0 then mret (fl +:+ " n=0") else
  if negb (vec_shape begin end_ READY_STRIDE)
  then mret (fl +:+ " range_bad " +:+ fmt_hex begin +:+ ".." +:+ fmt_hex end_) else
  if negb (readable begin (end_ - begin)) then mret (fl +:+ " vec unreadable") else
  let* ids := ready_rows begin end_ in
  mret (fl +:+ " n=" +:+ fmt_dec ((end_ - begin) / READY_STRIDE) +:+ " [" +:+ join "; " ids +:+ "]").

Definition queue_rows_note : M string :=
  let base := exe_module in
  if (base =? 0) || negb (readable (base ⊞ READY_LIST_GLOBAL_RVA) 8) then mret "queue=?"%string else
  let* obj := peek 8 (base ⊞ READY_LIST_GLOBAL_RVA) in
  if (obj =? 0) || negb (readable (obj ⊞ 0x60) 16) then mret "queue=?"%string else
  let* flag := peek 1 (obj ⊞ 0x50) in
  let* begin := peek 8 (obj ⊞ 0x58) in
  let* end_ := peek 8 (obj ⊞ 0x60) in
  let q := "queue=" +:+ fmt_hex obj in
  if negb (vec_shape begin end_ READY_STRIDE)
  then mret (q +:+ " badrange fl=" +:+ fmt_dec flag +:+ " begin=" +:+ fmt_hex begin +:+ " end=" +:+ fmt_hex end_)
  else if negb (readable begin (end_ - begin)) then mret (q +:+ " unreadable") else
  let* ids := ready_rows begin end_ in
  mret (q +:+ " fl=" +:+ fmt_dec flag +:+ " [" +:+ join "; " ids +:+ "]").

Definition work_rows_note : M string :=
  let* slots := collect_member_slots in
  match slots with
  | [] => mret "rows=0"%string
  | _ =>
      mret ("rows=[" +:+ join "; " ((λ s, "id=" +:+ fmt_dec (id s) +:+ " +8=" +:+ fmt_dec (unique s)
        +:+ " +70=" +:+ fmt_dec (flag70 s) +:+ " +a0=" +:+ fmt_dec (a0 s)) <$> slots) +:+ "]")
  end.

(** ** The quest manager *)

Definition QUEST_GUARD_OFFS : list (Z * string) :=
  [(0x1c530, "1c530"); (0x6c814, "6c814"); (0x6c818, "6c818"); (0x6c838, "6c838");
   (0x6ccf4, "6ccf4"); (0x6ccfc, "6ccfc"); (0x1c108, "1c108"); (0x1beb8, "1beb8");
   (0x6c7fc, "6c7fc"); (0x6cd08, "6cd08")]%string.

(** Each field, relative to the global and through the pointer it holds. *)
Fixpoint quest_fields (base g : Z) (l : list (Z * string)) (s : string) : M string :=
  match l with
  | [] => mret s
  | (off, name) :: l =>
      let* d := peek_or 4 (base ⊞ QUEST_MGR_GLOBAL_RVA ⊞ off) (U32 - 1) in
      let* v := via g (peek_or 4 (g ⊞ off) (U32 - 1)) (U32 - 1) in
      quest_fields base g l (s +:+ " " +:+ name +:+ "=d" +:+ fmt_dec d +:+ "/v" +:+ fmt_dec v)
  end.

Definition quest_guard_note : M unit :=
  let base := exe_module in
  if (base =? 0) || negb (readable (base ⊞ QUEST_MGR_GLOBAL_RVA) 8) then mret tt else
  let* g := peek 8 (base ⊞ QUEST_MGR_GLOBAL_RVA) in
  let* s := quest_fields base g QUEST_GUARD_OFFS ("quest_guard g=" +:+ fmt_hex g) in
  let* s :=
    if negb (readable (base ⊞ SESSION_GLOBAL_RVA) 8) then mret s else
    let* sess := peek 8 (base ⊞ SESSION_GLOBAL_RVA) in
    if (sess =? 0) || negb (readable (sess ⊞ 4) 8) then mret s else
    let* s4 := peek 4 (sess ⊞ 4) in
    let* s4ac := peek 4 (sess ⊞ 0x4ac) in
    mret (s +:+ " session+4=" +:+ fmt_dec s4 +:+ " +4ac=" +:+ fmt_dec s4ac) in
  debug_throttled "quest_guard" s.

Definition QUEST_SYNC_RVAS : list (Z * string) := [(0x7bcd6c8, "cont"); (0x7bcd6e8, "ctrl")]%string.

Fixpoint quest_sync_parts (base : Z) (l : list (Z * string)) (s : string) : M string :=
  match l with
  | [] => mret s
  | (rva, name) :: l =>
      if negb (readable (base ⊞ rva) 8)
      then quest_sync_parts base l (s +:+ " " +:+ name +:+ "=unreadable") else
      let* p := peek 8 (base ⊞ rva) in
      let s := s +:+ " " +:+ name +:+ "=" +:+ fmt_hex p in
      let* s :=
        if negb (readable (base ⊞ rva) 16) then mret s else
        let* a := peek 4 (base ⊞ rva) in
        let* b := peek 4 (base ⊞ rva ⊞ 4) in
        mret (s +:+ " (" +:+ name +:+ "d=" +:+ fmt_dec a +:+ "/" +:+ fmt_dec b +:+ ")") in
      let* s :=
        if (p =? 0) || negb (readable p 16) then mret s else
        let* a := peek 4 p in
        let* b := peek 4 (p ⊞ 4) in
        let* c := peek 4 (p ⊞ 8) in
        mret (s +:+ " (" +:+ name +:+ "v=" +:+ fmt_dec a +:+ "/" +:+ fmt_dec b +:+ "/" +:+ fmt_dec c +:+ ")") in
      quest_sync_parts base l s
  end.

Definition quest_sync_note : M unit :=
  let base := exe_module in
  if base =? 0 then mret tt else
  let* s := quest_sync_parts base QUEST_SYNC_RVAS "quest_sync"%string in
  debug_throttled "quest_sync" s.

(** The offsets of base and count of the buckets, in the order they are tested. *)
Definition QUEST_BUCKETS : list (Z * Z * Z) := [(0x70, 0x80, 4); (0x50, 0x60, 3); (0x30, 0x40, 2); (0x10, 0x20, 1)].

Fixpoint quest_buckets (p : Z) (l : list (Z * Z * Z)) (s : string) (picked : bool) : M (string * bool) :=
  match l with
  | [] => mret (s, picked)
  | (boff, coff, n) :: l =>
      if negb (readable (p ⊞ coff) 4) then mret (s, picked) else
      let* count := peek 4 (p ⊞ coff) in
      if count =? 0 then quest_buckets p l s picked else
      let* bptr := peek 8 (p ⊞ boff) in
      let tag := (if picked then "" else "(tested)")%string in
      let s := s +:+ " b" +:+ fmt_dec n +:+ "=" +:+ fmt_dec count +:+ tag in
      if (bptr =? 0) || negb (readable bptr (count * 20)) then quest_buckets p l (s +:+ " bad_base") true else
      let rec := bptr ⊞ ((count - 1) * 20) in
      let* kind := peek 4 (rec ⊞ 0xc) in
      let* flag := peek 1 (rec ⊞ 0x12) in
      let* code := peek 4 (rec ⊞ 0) in
      quest_buckets p l (s +:+ " last[c" +:+ fmt_hex code +:+ " kind" +:+ fmt_dec kind +:+ " 12:"
        +:+ fmt_dec flag +:+ "]") true
  end.

Definition quest_array_note : M unit :=
  let base := exe_module in
  if (base =? 0) || negb (readable (base ⊞ 0x7c47850) 8) then mret tt else
  let* p := peek 8 (base ⊞ 0x7c47850) in
  if p =? 0 then debug_throttled "quest_array" "quest_array p=0" else
  let* (s, picked) := quest_buckets p QUEST_BUCKETS ("quest_array p=" +:+ fmt_hex p) false in
  debug_throttled "quest_array" (if picked then s else s +:+ " all_buckets_empty").

Definition quest_action_note : M unit :=
  let base := exe_module in
  if (base =? 0) || negb (readable (base ⊞ EVENTBUS_OBJ_RVA) 8) then mret tt else
  let* p := peek 8 (base ⊞ EVENTBUS_OBJ_RVA) in
  if p =? 0 then debug_throttled "quest_action" "quest_action p=0" else
  if negb (readable (p ⊞ 0x108) 8) then mret tt else
  let* code := peek 4 (p ⊞ 0x108) in
  let* done := peek 1 (p ⊞ 0x1d4) in
  log_throttled "quest_action" ("quest_action code=" +:+ fmt_hex code +:+ " done=" +:+ fmt_dec done).
End game.

(** ** The session, and the lines logged on a change *)

Definition FNV_BASIS : Z := 0xcbf29ce484222325.
Definition FNV_PRIME : Z := 0x100000001b3.
Definition fnv_step (h : Z) (b : byte) : Z := (Z.lxor h (bz b) * FNV_PRIME) mod U64.
Definition fnv1a (s : string) : Z := fold_left fnv_step (sbytes s) FNV_BASIS.

Definition EXPORT_NAMES : list (Z * string) :=
  [(1, "Deserialize"); (2, "Connect"); (4, "CreateNewNetwork"); (8, "StartProcessing");
   (16, "Authenticate"); (32, "CreateEndpoint"); (64, "LeaveNetwork"); (128, "Cleanup")]%string.
Definition EXP_START_PROCESSING : Z := Z.shiftl 1 3.

Section session.
Context `{G : Game}.

Definition note_export (bit : Z) : M unit :=
  let* m := load MESH_EXPORTS in store MESH_EXPORTS (Z.lor m bit).

Definition export_trace : M string :=
  let* m := load MESH_EXPORTS in
  let v := (filter (λ x, Z.land m x.1 ≠ 0) EXPORT_NAMES).*2 in
  mret (match v with [] => "-"%string | _ => join "," v end).

(** [session+0x3c0] and what is logged with it. *)
Definition session_fields (session : Z) : M string :=
  let* p3c0 := peek 8 (session ⊞ 0x3c0) in
  let* p480 := peek_or 8 (session ⊞ 0x480) 0 in
  let* task := peek_or 8 (session ⊞ 0xb8) 0 in
  let* p4a0 := peek_or 8 (session ⊞ 0x4a0) 0 in
  let* b4a0 := via p4a0 (peek_or 1 p4a0 0) 0 in
  let* mode0 := peek 4 session in
  let* b4ac := peek_or 1 (session ⊞ 0x4ac) 255 in
  let* p28 := peek_or 8 (session ⊞ 0x28) 0 in
  let* native := load NATIVE_CONNECT in
  mret (" +3c0=" +:+ fmt_hex p3c0 +:+ " +480=" +:+ fmt_hex p480 +:+ " +4a0=" +:+ fmt_hex p4a0
    +:+ "/" +:+ fmt_dec b4a0 +:+ " +b8=" +:+ fmt_hex task +:+ " mode0=" +:+ fmt_dec mode0
    +:+ " +4ac=" +:+ fmt_dec b4ac +:+ " +28=" +:+ fmt_hex p28
    +:+ " native=" +:+ (if native =? 0 then "false" else "true")).

Definition session_note (base : Z) : M string :=
  if negb (readable (base ⊞ SESSION_GLOBAL_RVA) 8) then mret "unreadable"%string else
  let* session := peek 8 (base ⊞ SESSION_GLOBAL_RVA) in
  if session =? 0 then mret "session=null"%string else
  if negb (readable (session ⊞ 4) 4)
  then mret ("session=" +:+ fmt_hex session +:+ " +4 unreadable") else
  let* state := peek_i32 (session ⊞ 4) in
  let note := "session+4=" +:+ fmt_dec state in
  if negb (readable (session ⊞ 0x3c0) 8) then mret note else
  let* fields := session_fields session in
  mret (note +:+ fields).

Definition slot_text (s : MemberSlot) : string :=
  "id=" +:+ fmt_dec (id s) +:+ " +70=" +:+ fmt_dec (flag70 s) +:+ " +8=" +:+ fmt_dec (unique s)
    +:+ " +6c=" +:+ fmt_dec (rank s) +:+ " +a0=" +:+ fmt_dec (a0 s)
    +:+ (if bool_decide (eid s = EmptyString) then EmptyString else " eid=" +:+ eid s).

Definition members_note (base : Z) : M string :=
  let* slots := collect_member_slots in
  match slots with
  | [] =>
      if negb (readable (base ⊞ MEMBER_LIST_GLOBAL_RVA) 8) then mret " member_global unreadable"%string else
      let* members := peek 8 (base ⊞ MEMBER_LIST_GLOBAL_RVA) in
      mret (if members =? 0 then " members=null"%string else " members=0"%string)
  | _ =>
      mret (" members=" +:+ fmt_dec (Z.of_nat (length slots)) +:+ " with+70="
        +:+ fmt_dec (Z.of_nat (length (filter (λ s, flag70 s = 1) slots)))
        +:+ " [" +:+ join "; " (slot_text <$> slots) +:+ "]")
  end.

Definition send_note (base : Z) : M string :=
  if negb (readable (base ⊞ SEND_GLOBAL_RVA) 8) then mret EmptyString else
  let* holder := peek 8 (base ⊞ SEND_GLOBAL_RVA) in
  if holder =? 0 then mret " send=null"%string else
  if negb (readable (holder ⊞ 0x38) 8) then mret " send+38 unreadable"%string else
  let* obj := peek 8 (holder ⊞ 0x38) in
  mret (if obj =? 0 then " send+38=0"%string else " send+38=" +:+ fmt_hex obj).

(** The ten-second clock of the line; the first pass starts it. *)
Definition probe_log_due : M bool :=
  let* g := gets p_probe_log_at in
  let* t := match g with
    | Some t => mret t
    | None => let* t := instant_now in modify (p_set_probe_log_at (Some t));; mret t
    end in
  let* now := instant_now in
  if 10 * NANOS <=? elapsed t now then
    let* again := instant_now in
    modify (p_set_probe_log_at (Some again));; mret true
  else mret false.

(** The note the line is made of. *)
Definition probe_note (base : Z) : M string :=
  let* note := session_note base in
  let* members := members_note base in
  let* ready := ready_list_note in
  let* send := send_note base in
  append_overlay_note base (note +:+ members +:+ ready +:+ send).

Definition probe_session : M unit :=
  let base := exe_module in
  if base =? 0 then mret tt else
  let* host := load IS_HOST in
  let* note := probe_note base in
  let key := fnv1a note in
  let* old := swap LAST_PROBE_KEY key in
  let* due := probe_log_due in
  if negb (old =? key) || due then
    let* threads := thread_probe_note in
    debug_log ("probe_session " +:+ (if host =? 0 then "guest"%string else "host"%string) +:+ ": " +:+ note
      +:+ " " +:+ threads)
  else mret tt.

Definition session_modes (base : Z) : M (Z * Z * Z) :=
  let none := (U32 - 1, U32 - 1, 0) in
  if (base =? 0) || negb (readable (base ⊞ SESSION_GLOBAL_RVA) 8) then mret none else
  let* session := peek 8 (base ⊞ SESSION_GLOBAL_RVA) in
  if (session =? 0) || negb (readable session 0x30) then mret none else
  let* mode0 := peek 4 session in
  let* state4 := peek 4 (session ⊞ 4) in
  let* p28 := peek 8 (session ⊞ 0x28) in
  mret (mode0, state4, p28).

Definition mesh_trigger_timeline : M unit :=
  let* ticks := load MESH_TRIGGER_TICKS in
  if ticks =? 0 then mret tt else
  store MESH_TRIGGER_TICKS (ticks - 1);;
  note_export EXP_START_PROCESSING;;
  let* (modes, p28) := session_modes exe_module in
  let* (party, invitation) := connect_gate_party_invitation in
  let* rows := work_rows_note in
  let* queue := queue_rows_note in
  let* trace := export_trace in
  let note := "mesh-start timeline[" +:+ fmt_dec ticks +:+ "] mode0=" +:+ fmt_dec modes.1
    +:+ " +4=" +:+ fmt_dec modes.2 +:+ " +28=" +:+ fmt_hex p28 +:+ " party=" +:+ fmt_hex party
    +:+ " inv=" +:+ fmt_dec invitation +:+ " " +:+ rows +:+ " " +:+ queue
    +:+ " exports=[" +:+ trace +:+ "]" in
  let key := fnv1a note in
  let* old := swap MESH_TRIGGER_KEY key in
  if negb (old =? key) || (ticks mod 8 =? 0) then debug_log note else mret tt.
End session.
