(* ===== verification/ProbeAsync.v ===== *)
(** * The Party shim's probes of asynchronous operations

    The rest of the probes of [party-shim/src/lib.rs]: the state of the one
    asynchronous operation a quest start waits for, the mode-3 and matching
    gates, and the sampler thread, whose lines appear on a change of what they
    read or on a heartbeat. *)

From S2P Require Import Prelude RustStr Comp Probe ProbeGame.

#[local] Open Scope Z_scope.
#[local] Open Scope comp_scope.
#[local] Open Scope rust_scope.

Definition ASYNC_MGR_GLOBAL_RVA : Z := 0x7c22728.
Definition ASYNC_QUEUE_BEGIN_RVA : Z := 0x71afbf0.
Definition ASYNC_QUEUE_END_RVA : Z := 0x71afbf8.
Definition ASYNC_OP_HASH : Z := 0xA596AF73.
Definition ASYNC_QUEUE_STRIDE : Z := 0x30.
Definition ASYNC_VA_STRIDE : Z := 0x20.
Definition ASYNC_VB_STRIDE : Z := 0x48.
Definition ASYNC_M1_NODE_MAX : nat := 8.
Definition ASYNC_QUEUE_SCAN_MAX : Z := 192.
Definition ASYNC_VA_SCAN_MAX : Z := 64.
Definition ASYNC_VB_SCAN_MAX : Z := 32.

(** [usize::MAX], the sentinel of a size that cannot be read. *)
Definition UMAX : Z := U64 - 1.

(** [M1Read]: present, length of the name, truncated. *)
Record M1 := mkM1 { m1_present : bool; m1_len : Z; m1_trunc : bool }.
(** [QueueRead]: hits, total, mode of the first hit, truncated. *)
Record Queue := mkQueue { q_hits : Z; q_total : Z; q_mode : option Z; q_trunc : bool }.

Record VecA := mkVecA {
  va_total : Z; va_scanned : Z; va_read : Z; va2 : Z; va_task : option (Z * Z); va_task_ro : bool
}.
Record VecB := mkVecB { vb_total : Z; vb_scanned : Z; vb1h : Z; vb1 : Z; vb2 : Z; vb3 : Z }.

Record AsyncState := mkAsyncState {
  mgr : option Z;
  m1 : option M1;
  q : option Queue;
  va : VecA;
  vb : VecB
}.

Definition va_none : VecA := mkVecA UMAX 0 0 0 None false.
Definition vb_none : VecB := mkVecB UMAX 0 0 0 0 0.

Section async.
Context `{G : Game}.

Definition rd (n : nat) (p : Z) : M (option Z) :=
  if readable p (Z.of_nat n) then let* v := peek n p in mret (Some v) else mret None.
Definition rd8 : Z → M (option Z) := rd 1.
Definition rd32 : Z → M (option Z) := rd 4.
Definition rdptr : Z → M (option Z) := rd 8.

(** [match p { Some(p) if p != 0 => m(p), _ => None }]. *)
Definition through (p : option Z) (m : Z → M (option Z)) : M (option Z) :=
  match p with
  | Some p => if p =? 0 then mret None else m p
  | None => mret None
  end.

(** ** The snapshot *)

Definition M1_NONE : M1 := mkM1 false UMAX false.

Fixpoint m1_walk (fuel : nat) (mgr sentinel hash node : Z) : M (option M1) :=
  if (node =? 0) || (node =? sentinel) || (node =? mgr ⊞ 8)
  then mret (Some (mkM1 false UMAX (bool_decide (fuel = O)))) else
  match fuel with
  | O => mret (Some (mkM1 false UMAX true))
  | S fuel =>
      if negb (readable (node ⊞ 0x10) 4) then mret None else
      let* h := peek 4 (node ⊞ 0x10) in
      if h =? hash then
        let* len := peek_or 8 (node ⊞ 0x28) UMAX in
        mret (Some (mkM1 true len false))
      else
        if negb (readable node 8) then mret None else
        let* node := peek 8 node in
        m1_walk fuel mgr sentinel hash node
  end.

Definition m1_read (mgr hash : Z) : M (option M1) :=
  if negb (readable (mgr ⊞ 0x18) 8 && readable (mgr ⊞ 0x30) 4) then mret None else
  let* buckets := peek 8 (mgr ⊞ 0x18) in
  let* mask := peek 4 (mgr ⊞ 0x30) in
  if buckets =? 0 then mret (Some M1_NONE) else
  let bp := buckets ⊞ (Z.land mask hash * 8) mod U64 in
  if negb (readable bp 8) then mret (Some M1_NONE) else
  let* sentinel := peek_or 8 (mgr ⊞ 8) 0 in
  let* node := peek 8 bp in
  m1_walk ASYNC_M1_NODE_MAX mgr sentinel hash node.

(** [for i in 0..scan { body(begin + i * stride) }]. *)
Fixpoint scan {A} (n : nat) (p stride : Z) (body : Z → A → M A) (a : A) : M A :=
  match n with
  | O => mret a
  | S n => let* a := body p a in scan n (p ⊞ stride) stride body a
  end.

Definition boot_queue_read (base hash : Z) : M (option Queue) :=
  if negb (readable (base ⊞ ASYNC_QUEUE_BEGIN_RVA) 8) || negb (readable (base ⊞ ASYNC_QUEUE_END_RVA) 8)
  then mret None else
  let* qbeg := peek 8 (base ⊞ ASYNC_QUEUE_BEGIN_RVA) in
  let* qend := peek 8 (base ⊞ ASYNC_QUEUE_END_RVA) in
  if (qbeg =? 0) || (qend <? qbeg) then mret None else
  let total := (qend - qbeg) / ASYNC_QUEUE_STRIDE in
  let n := Z.min total ASYNC_QUEUE_SCAN_MAX in
  if n =? 0 then mret (Some (mkQueue 0 0 None false)) else
  if negb (readable qbeg (n * ASYNC_QUEUE_STRIDE)) then mret None else
  let* (hits, mode) := scan (Z.to_nat n) qbeg ASYNC_QUEUE_STRIDE (λ e acc,
    let* m := peek 4 e in
    let* h := peek 4 (e ⊞ 4) in
    mret (if h =? hash
          then (acc.1 + 1, match acc.2 with None => Some m | mode => mode end)
          else acc)) (0, None) in
  mret (Some (mkQueue hits total mode (n <? total))).

(** One element of vector A. *)
Definition va_step (el : Z) (v : VecA) : M VecA :=
  let* task := peek 8 (el ⊞ 0x18) in
  if task =? 0 then mret v else
  if negb (readable (task ⊞ 0x110) 0x3c)
  then mret (mkVecA (va_total v) (va_scanned v) (va_read v) (va2 v) (va_task v) true) else
  let* state := peek 4 (task ⊞ 0x110) in
  let n2 := if state =? 2 then va2 v + 1 else va2 v in
  let* hash := peek 4 (task ⊞ 0x148) in
  let* t :=
    match va_task v with
    | None =>
        if hash =? ASYNC_OP_HASH
        then let* res := peek 4 (task ⊞ 0x140) in mret (Some (state, res))
        else mret None
    | t => mret t
    end in
  mret (mkVecA (va_total v) (va_scanned v) (va_read v + 1) n2 t (va_task_ro v)).

Definition read_va (mgr : Z) : M VecA :=
  if negb (readable (mgr ⊞ 0x40) 16) then mret va_none else
  let* abeg := peek 8 (mgr ⊞ 0x40) in
  let* aend := peek 8 (mgr ⊞ 0x48) in
  if (abeg =? 0) || (aend <? abeg) then mret va_none else
  let total := (aend - abeg) / ASYNC_VA_STRIDE in
  let n := Z.min total ASYNC_VA_SCAN_MAX in
  if n =? 0 then mret (mkVecA 0 0 0 0 None false) else
  if negb (readable abeg (n * ASYNC_VA_STRIDE)) then mret va_none else
  scan (Z.to_nat n) abeg ASYNC_VA_STRIDE va_step (mkVecA total n 0 0 None false).

Definition vb_step (e : Z) (v : VecB) : M VecB :=
  let* s := peek 4 e in
  let* hash := peek 4 (e ⊞ 4) in
  mret (
    if s =? 1 then
      mkVecB (vb_total v) (vb_scanned v) (if hash =? ASYNC_OP_HASH then vb1h v + 1 else vb1h v)
        (vb1 v + 1) (vb2 v) (vb3 v)
    else if s =? 2 then mkVecB (vb_total v) (vb_scanned v) (vb1h v) (vb1 v) (vb2 v + 1) (vb3 v)
    else if s =? 3 then mkVecB (vb_total v) (vb_scanned v) (vb1h v) (vb1 v) (vb2 v) (vb3 v + 1)
    else v).

Definition read_vb (mgr : Z) : M VecB :=
  if negb (readable (mgr ⊞ 0xd8) 16) then mret vb_none else
  let* bbeg := peek 8 (mgr ⊞ 0xd8) in
  let* bend := peek 8 (mgr ⊞ 0xe0) in
  if (bbeg =? 0) || (bend <? bbeg) then mret vb_none else
  let total := (bend - bbeg) / ASYNC_VB_STRIDE in
  let n := Z.min total ASYNC_VB_SCAN_MAX in
  if n =? 0 then mret (mkVecB 0 0 0 0 0 0) else
  if negb (readable bbeg (n * ASYNC_VB_STRIDE)) then mret vb_none else
  scan (Z.to_nat n) bbeg ASYNC_VB_STRIDE vb_step (mkVecB total n 0 0 0 0).

Definition read_async_state : M AsyncState :=
  let base := exe_module in
  if (base =? 0) || negb (readable (base ⊞ ASYNC_MGR_GLOBAL_RVA) 8)
  then mret (mkAsyncState None None None va_none vb_none) else
  let* mgr := peek 8 (base ⊞ ASYNC_MGR_GLOBAL_RVA) in
  if mgr =? 0 then mret (mkAsyncState (Some mgr) None None va_none vb_none) else
  let* m1 := m1_read mgr ASYNC_OP_HASH in
  let* q := boot_queue_read base ASYNC_OP_HASH in
  let* va := read_va mgr in
  let* vb := read_vb mgr in
  mret (mkAsyncState (Some mgr) m1 q va vb).

Definition async_verdict (st : AsyncState) : string :=
  if (va_total (va st) =? UMAX) || (vb_total (vb st) =? UMAX) then "ro" else
  match va_task (va st) with
  | Some (state, _) => if state =? 2 then "completed" else if state =? 1 then "loading" else "-"
  | None =>
      if match q st with Some q => 0 <? q_hits q | None => false end then "queued"
      else if match m1 st with Some m => m1_present m | None => false end then "registered"
      else if 0 <? vb1h (vb st) then "waited"
      else if match m1 st with Some m => negb (m1_present m) | None => false end && (vb1h (vb st) =? 0)
      then "none" else "-"
  end.

(** ** Lines on a change or a heartbeat *)

Definition s32 (v : option Z) : string := match v with Some x => fmt_dec x | None => "ro" end.
Definition s8 : option Z → string := s32.
Definition sbool (v : option bool) : string :=
  match v with Some true => "true" | Some false => "false" | None => "ro" end.
Definition sptr (v : option Z) : string := match v with Some x => fmt_hex x | None => "ro" end.

Definition mix (h : Z) (v : option Z) : Z := (Z.lxor h (default UMAX v) * FNV_PRIME) mod U64.
Definition mix_all (l : list (option Z)) : Z := fold_left mix l FNV_BASIS.

(** The gate both lines share: the key of the last pass, the time of the last line. Gives whether
    the heartbeat was due, when the line is to be emitted. *)
Definition change_gate (key_at time_at : Static) (hb : Z) (key now : Z) : M (option bool) :=
  let* old := swap key_at key in
  let* last := load time_at in
  let due := (last =? 0) || (hb <=? (now - last) mod U64) in
  if (old =? key) && negb due then mret None
  else store time_at now;; mret (Some due).

(** *** The mode-3 and matching gates *)

Definition RM_GLOBAL_RVA : Z := 0x7ab2bb8.
Definition RM_ARM3_OFF : Z := 3 * 4 + 0x4e4.
Definition RM_DONE3_OFF : Z := 3 + 0x3e0.
Definition RM_SKIP3_OFF : Z := 3 + 0x938.
Definition RM_JOBS_A_OFF : Z := 0xdd0.
Definition RM_JOBS_B_OFF : Z := 0xdd4.
Definition QM_GLOBAL_RVA : Z := 0x7c48628.
Definition QM_SEL_OFF : Z := 0x6cce8.
Definition QM_OBS0_OFF : Z := 0x6c820.
Definition QM_OBS1_OFF : Z := 0x6c824.
Definition QM_EXP0_OFF : Z := 0x6c828.
Definition QM_EXP1_OFF : Z := 0x6c82c.
Definition ISCONNECT_SESSION_OFF : Z := 0x158.
Definition ISCONNECT_FLAG_OFF : Z := 0x60.
Definition MODE3_GATE_HB_MS : Z := 5000.

(** The five fields of the matching setting, and whether they allow it. *)
Record QmGate := mkQmGate {
  qm_sel : option Z; qm_obs0 : option Z; qm_obs1 : option Z; qm_exp0 : option Z; qm_exp1 : option Z
}.

Definition read_qm_gate (qm : option Z) : M QmGate :=
  let* sel := through qm (λ p, rd8 (p ⊞ QM_SEL_OFF)) in
  let* obs0 := through qm (λ p, rd32 (p ⊞ QM_OBS0_OFF)) in
  let* obs1 := through qm (λ p, rd32 (p ⊞ QM_OBS1_OFF)) in
  let* exp0 := through qm (λ p, rd32 (p ⊞ QM_EXP0_OFF)) in
  let* exp1 := through qm (λ p, rd32 (p ⊞ QM_EXP1_OFF)) in
  mret (mkQmGate sel obs0 obs1 exp0 exp1).

Definition canmatch (g : QmGate) : option bool :=
  s ← qm_sel g; o0 ← qm_obs0 g; o1 ← qm_obs1 g; e0 ← qm_exp0 g; e1 ← qm_exp1 g;
  Some (if negb (s =? 0) then e1 =? o1 else e0 =? o0).

Record Mode3 := mkMode3 {
  m3_rm : option Z; m3_arm3 : option Z; m3_done3 : option Z; m3_skip3 : option Z;
  m3_jobs_a : option Z; m3_jobs_b : option Z;
  m3_qm : option Z; m3_gate : QmGate;
  m3_sess : option Z; m3_net : option Z; m3_online_raw : option Z
}.

Definition read_mode3 (base : Z) : M Mode3 :=
  let* rm := rdptr (base ⊞ RM_GLOBAL_RVA) in
  let* arm3 := through rm (λ p, rd32 (p ⊞ RM_ARM3_OFF)) in
  let* done3 := through rm (λ p, rd8 (p ⊞ RM_DONE3_OFF)) in
  let* skip3 := through rm (λ p, rd8 (p ⊞ RM_SKIP3_OFF)) in
  let* jobs_a := through rm (λ p, rd32 (p ⊞ RM_JOBS_A_OFF)) in
  let* jobs_b := through rm (λ p, rd32 (p ⊞ RM_JOBS_B_OFF)) in
  let* qm := rdptr (base ⊞ QM_GLOBAL_RVA) in
  let* gate := read_qm_gate qm in
  let* sess := rdptr (base ⊞ SESSION_GLOBAL_RVA) in
  let* net := through sess (λ s, rdptr (s ⊞ ISCONNECT_SESSION_OFF)) in
  let* online := match net with
    | Some n => if n =? 0 then mret (Some 0) else rd8 (n ⊞ ISCONNECT_FLAG_OFF)
    | None => mret None
    end in
  mret (mkMode3 rm arm3 done3 skip3 jobs_a jobs_b qm gate sess net online).

Definition online (r : Mode3) : option bool := (λ b, negb (Z.land b 1 =? 0)) <$> m3_online_raw r.

Definition mode3_key (r : Mode3) : Z :=
  let g := m3_gate r in
  mix_all [m3_rm r; m3_arm3 r; m3_done3 r; m3_skip3 r; m3_jobs_a r; m3_jobs_b r; m3_qm r;
    qm_sel g; qm_obs0 g; qm_obs1 g; qm_exp0 g; qm_exp1 g; m3_sess r; m3_net r; m3_online_raw r].

Definition mode3_text (r : Mode3) : string :=
  let g := m3_gate r in
  "mode3gate rm=" +:+ sptr (m3_rm r) +:+ " arm3=" +:+ s32 (m3_arm3 r) +:+ " done3=" +:+ s8 (m3_done3 r)
    +:+ " skip3=" +:+ s8 (m3_skip3 r) +:+ " jobs=" +:+ s32 (m3_jobs_a r) +:+ "/" +:+ s32 (m3_jobs_b r)
    +:+ " qm=" +:+ sptr (m3_qm r) +:+ " sel=" +:+ s8 (qm_sel g) +:+ " obs=" +:+ s32 (qm_obs0 g)
    +:+ "/" +:+ s32 (qm_obs1 g) +:+ " exp=" +:+ s32 (qm_exp0 g) +:+ "/" +:+ s32 (qm_exp1 g)
    +:+ " canmatch=" +:+ sbool (canmatch g) +:+ " online=" +:+ sbool (online r)
    +:+ " sess=" +:+ sptr (m3_sess r) +:+ " net=" +:+ sptr (m3_net r).

Definition mode3_gate_note : M unit :=
  let base := exe_module in
  if base =? 0 then mret tt else
  let* r := read_mode3 base in
  let* now := now_ms in
  let* emit := change_gate MODE3_GATE_KEY MODE3_GATE_AT MODE3_GATE_HB_MS (mode3_key r) now in
  match emit with None => mret tt | Some _ => debug_log (mode3_text r) end.

(** *** The sampler thread *)

Definition SOLO_HEARTBEAT_MS : Z := 5000.
Definition SOLO_PHASE_GLOBAL_RVA : Z := 0x7c52d20.
Definition SOLO_JOINLOBBY_GLOBAL_RVA : Z := 0x71b43d8.
Definition SOLO_JOINLOBBY_OBJ_OFF : Z := 0x20.
Definition SOLO_JOINLOBBY_GATE_OFF : Z := 0x1dc.
Definition SOLO_QUEST_OFFS : list (Z * string) :=
  [(0x1c530, "q1c530"); (0x6c814, "q6c814"); (0x6c838, "q6c838"); (0x6ccf4, "q6ccf4");
   (0x6ccfc, "q6ccfc"); (0x1c108, "q1c108"); (0x1beb8, "q1beb8"); (0x6c7fc, "q6c7fc")]%string.
Definition SOLO_MATCH_OFF : Z := 0x6cd08.
Definition SOLO_MATCH_RESULT_OFF : Z := 0x50.

Record Solo := mkSolo {
  so_phase : option Z; so_jl : option Z; so_jl_obj : option Z; so_jl_gate : option Z;
  so_qm : option Z; so_gate : QmGate;
  so_arm3 : option Z; so_done3 : option Z; so_skip3 : option Z;
  so_quest : list (option Z); so_mat : option Z; so_m50 : option Z;
  so_async : AsyncState
}.

Fixpoint read_quest (qm : option Z) (l : list (Z * string)) : M (list (option Z)) :=
  match l with
  | [] => mret []
  | (off, _) :: l =>
      let* v := through qm (λ p, rd32 (p ⊞ off)) in
      let* vs := read_quest qm l in
      mret (v :: vs)
  end.

Definition read_solo (base : Z) : M Solo :=
  let* flow := rdptr (base ⊞ SOLO_PHASE_GLOBAL_RVA) in
  let* phase := through flow (λ p, rd32 (p ⊞ 0x34)) in
  let* jl := rdptr (base ⊞ SOLO_JOINLOBBY_GLOBAL_RVA) in
  let* jl_obj := through jl (λ j, rdptr (j ⊞ SOLO_JOINLOBBY_OBJ_OFF)) in
  let* jl_gate := through jl_obj (λ l, rd8 (l ⊞ SOLO_JOINLOBBY_GATE_OFF)) in
  let* qm := rdptr (base ⊞ QM_GLOBAL_RVA) in
  let* gate := read_qm_gate qm in
  let* rm := rdptr (base ⊞ RM_GLOBAL_RVA) in
  let* arm3 := through rm (λ p, rd32 (p ⊞ RM_ARM3_OFF)) in
  let* done3 := through rm (λ p, rd8 (p ⊞ RM_DONE3_OFF)) in
  let* skip3 := through rm (λ p, rd8 (p ⊞ RM_SKIP3_OFF)) in
  let* quest := read_quest qm SOLO_QUEST_OFFS in
  let* mat := through qm (λ p, rdptr (p ⊞ SOLO_MATCH_OFF)) in
  let* m50 := through mat (λ p, rd32 (p ⊞ SOLO_MATCH_RESULT_OFF)) in
  let* st := read_async_state in
  mret (mkSolo phase jl jl_obj jl_gate qm gate arm3 done3 skip3 quest mat m50 st).

Definition m1_key (m : M1) : Z :=
  Z.lor (Z.lor (Z.b2z (m1_present m)) (Z.shiftl (m1_len m) 1 mod U64)) (Z.shiftl (Z.b2z (m1_trunc m)) 33).
Definition q_key (q : Queue) : Z := Z.lor (q_hits q) (Z.shiftl (q_total q) 32 mod U64).

Definition solo_key (r : Solo) : Z :=
  let g := so_gate r in
  let st := so_async r in
  mix_all ([so_phase r; so_jl r; so_jl_obj r; so_jl_gate r;
    qm_sel g; qm_obs0 g; qm_obs1 g; qm_exp0 g; qm_exp1 g; Z.b2z <$> canmatch g;
    so_arm3 r; so_done3 r; so_skip3 r; so_qm r; so_mat r; so_m50 r] ++ so_quest r ++
    [mgr st; m1_key <$> m1 st; q_key <$> q st; q st ≫= q_mode; (λ q, Z.b2z (q_trunc q)) <$> q st]).

Definition solo_text (r : Solo) (now tid passes emitted : Z) (hb : bool) : string :=
  let g := so_gate r in
  let st := so_async r in
  "solo t=" +:+ fmt_dec now +:+ " tid=" +:+ fmt_hex tid +:+ " pass=" +:+ fmt_dec passes
    +:+ " hb=" +:+ (if hb then "1" else "0") +:+ " upd_phase=" +:+ s32 (so_phase r)
    +:+ " jl_gate=" +:+ s8 (so_jl_gate r) +:+ " qmsel=" +:+ s8 (qm_sel g)
    +:+ " qm_obs=" +:+ s32 (qm_obs0 g) +:+ "/" +:+ s32 (qm_obs1 g)
    +:+ " qm_exp=" +:+ s32 (qm_exp0 g) +:+ "/" +:+ s32 (qm_exp1 g)
    +:+ " canmatch=" +:+ sbool (canmatch g) +:+ " arm3=" +:+ s32 (so_arm3 r)
    +:+ " done3=" +:+ s8 (so_done3 r) +:+ " skip3=" +:+ s8 (so_skip3 r)
    +:+ " m1=" +:+ match m1 st with None => "ro" | Some m => if m1_present m then "1" else "0" end
    +:+ match m1 st with
        | Some (mkM1 true len _) => if Z.eqb len UMAX then " nm_len=?" else " nm_len=" +:+ fmt_dec len
        | _ => EmptyString
        end
    +:+ " q=" +:+ match q st with
        | None => "ro"
        | Some q =>
            fmt_dec (q_hits q) +:+ "/" +:+ fmt_dec (q_total q)
              +:+ match q_mode q with Some m => "/m" +:+ fmt_dec m | None => EmptyString end
              +:+ (if q_trunc q then "/trunc" else EmptyString)
        end
    +:+ " qmode=" +:+ s32 (q st ≫= q_mode) +:+ " v=" +:+ async_verdict st
    +:+ " mat=" +:+ sptr (so_mat r) +:+ " m50=" +:+ s32 (so_m50 r)
    +:+ String.concat EmptyString
          (zip_with (λ x v, " " +:+ x.2 +:+ "=" +:+ s32 v) SOLO_QUEST_OFFS (so_quest r))
    +:+ " emit=" +:+ fmt_dec emitted.

Definition solo_sample_note : M unit :=
  let base := exe_module in
  if base =? 0 then mret tt else
  fetch_add64 SOLO_PASSES 1;;
  let* r := read_solo base in
  let* now := now_ms in
  let* emit := change_gate SOLO_KEY SOLO_AT SOLO_HEARTBEAT_MS (solo_key r) now in
  match emit with
  | None => mret tt
  | Some hb =>
      fetch_add64 SOLO_EMITTED 1;;
      let* tid := load SOLO_TID in
      let* passes := load SOLO_PASSES in
      let* emitted := load SOLO_EMITTED in
      debug_log (solo_text r now tid passes emitted hb)
  end.

(** *** The asynchronous operation *)

Definition asyncload_text (st : AsyncState) : string :=
  let h := "asyncload h=" +:+ fmt_hex_w 8 ASYNC_OP_HASH in
  match mgr st with
  | None => h +:+ " mgr=global_ro"
  | Some p =>
      if Z.eqb p 0 then h +:+ " mgr=0x0" else
      h +:+ " mgr=" +:+ fmt_hex p
        +:+ match m1 st with Some (mkM1 false _ true) => " m1trunc=1" | _ => EmptyString end
        +:+ match m1 st with
            | None => " m1=ro"
            | Some (mkM1 false _ _) => " m1=0"
            | Some (mkM1 true len _) => if Z.eqb len UMAX then " m1=1 nm_len=?" else " m1=1 nm_len=" +:+ fmt_dec len
            end
        +:+ match q st with
            | None => " q=ro"
            | Some q =>
                " q=" +:+ fmt_dec (q_hits q) +:+ "/" +:+ fmt_dec (q_total q)
                  +:+ match q_mode q with Some m => " qmode=" +:+ fmt_dec m | None => EmptyString end
                  +:+ (if q_trunc q then " qtrunc=1" else EmptyString)
            end
        +:+ (if Z.eqb (va_total (va st)) UMAX then " va=ro" else
            " va=" +:+ fmt_dec (va_scanned (va st)) +:+ "/" +:+ fmt_dec (va_total (va st))
              +:+ " va2=" +:+ fmt_dec (va2 (va st)) +:+ "/" +:+ fmt_dec (va_read (va st))
              +:+ match va_task (va st) with
                  | Some (state, res) => " vatask=" +:+ fmt_dec state +:+ "/" +:+ fmt_dec res
                  | None => " vatask=absent"
                  end
              +:+ (if va_task_ro (va st) then " vatask_ro=1" else EmptyString)
              +:+ (if Z.ltb (va_scanned (va st)) (va_total (va st)) then " vatrunc=1" else EmptyString))
        +:+ (if Z.eqb (vb_total (vb st)) UMAX then " vb=ro" else
            " vb1h=" +:+ fmt_dec (vb1h (vb st)) +:+ " vb1=" +:+ fmt_dec (vb1 (vb st))
              +:+ " vb2=" +:+ fmt_dec (vb2 (vb st)) +:+ " vb3=" +:+ fmt_dec (vb3 (vb st))
              +:+ " vb=" +:+ fmt_dec (vb_scanned (vb st)) +:+ "/" +:+ fmt_dec (vb_total (vb st))
              +:+ (if Z.ltb (vb_scanned (vb st)) (vb_total (vb st)) then " vbtrunc=1" else EmptyString))
        +:+ " v=" +:+ async_verdict st
  end.

Definition asyncload_note : M unit :=
  debug_throttled_lazy "asyncload" (λ _, let* st := read_async_state in mret (asyncload_text st)).

(** ** One pass of the tick *)

Definition probe_pass (now : Z) : M unit :=
  if negb debug_enabled then mret tt else
  let* due := probe_tick_due now in
  if negb due then mret tt else
  probe_session;; quest_guard_note;; quest_sync_note;; quest_array_note;; quest_action_note;;
  asyncload_note;; mode3_gate_note;;
  let* rows := work_rows_note in
  debug_throttled "rows" rows;;
  let* ready := queue_rows_note in
  debug_throttled "ready" ready.
End async.
