(* ===== verification/ProbeSafe.v ===== *)
(** * The guarded probes read mapped memory only

    A probe is correct for any content of the memory, which may change between
    any two reads: [ok m Q] says that [m] returns from every state, with a
    result that has [Q].  The rules follow the reads: what [readable] accepted is
    [live], and every later read has to lie inside something live. *)

From S2P Require Import Prelude RustStr Comp Probe ProbeGame ProbeAsync.

#[local] Open Scope Z_scope.
#[local] Open Scope comp_scope.
#[local] Open Scope rust_scope.

Definition ok {A} (m : M A) (Q : A → Prop) : Prop := ∀ w, wp m (λ x _, Q x) w.
Abbreviation safe m := (ok m (λ _, True)).

Section safe.
Context `{GOK : GameOk}.

(** A range without wrap-around whose addresses are mapped. *)
Definition live (p n : Z) : Prop := 0 < p ∧ p + n < U64 ∧ ∀ a, p <= a < p + n → mapped a = true.

Lemma readable_live p n : readable p n = true → live p n.
Proof.
  unfold readable. destruct ((p =? 0) || (n =? 0) || (U64 <=? p + n)) eqn:Hz; [done|].
  destruct (vquery p) as [i|] eqn:Hq; [|done].
  destruct (negb (mi_state i =? MEM_COMMIT) || negb (page_has_read (mi_protect i))) eqn:Hs; [done|].
  bool_props. intros Hb. bool_props. pose proof (vquery_base p i Hq) as Hbase.
  unfold saturating_add64 in *. split; [lia|]. split; [lia|]. intros a Ha.
  eapply (vquery_mapped p i); [done|done|done|lia].
Qed.

Lemma live_sub p n p' n' : live p n → p <= p' → p' + n' <= p + n → live p' n'.
Proof. intros (? & ? & Hm) ? ?. split; [lia|]. split; [lia|]. intros a ?. apply Hm. lia. Qed.

Lemma wadd_live p n off : live p n → 0 <= off → off <= n → p ⊞ off = p + off.
Proof. intros (? & ? & _) ? ?. unfold wadd. apply Z.mod_small. ulia. Qed.

(** ** Rules *)

Lemma pok_ret {A} (x : A) (Q : A → Prop) : Q x → ok (mret x) Q.
Proof. intros ? w. done. Qed.

Lemma pok_bind {A B} (m : M A) (f : A → M B) (P : A → Prop) (Q : B → Prop) :
  ok m P → (∀ x, P x → ok (f x) Q) → ok (mbind m f) Q.
Proof. intros Hm Hf w. apply wp_bind. eapply wp_mono; [apply Hm|]. intros x w' Hx. by apply Hf. Qed.

Lemma ok_mono {A} (m : M A) (P Q : A → Prop) : ok m P → (∀ x, P x → Q x) → ok m Q.
Proof. intros Hm HQ w. eapply wp_mono; [apply Hm|]. auto. Qed.

Lemma ok_safe {A} (m : M A) (P : A → Prop) : ok m P → safe m.
Proof. intros Hm. by eapply ok_mono. Qed.

Lemma safe_gets {A} (f : Probes → A) : safe (gets f).
Proof. intros w. done. Qed.
Lemma safe_modify (f : Probes → Probes) : safe (modify f).
Proof. intros w. done. Qed.
Lemma safe_observe {A} (f : nat → A) : safe (observe f).
Proof. intros w. done. Qed.

Lemma ok_read_bytes p n : live p (Z.of_nat n) → ok (read_bytes p n) (λ l, length l = n).
Proof.
  intros Hl w. unfold read_bytes, span.
  rewrite (proj2 (forallb_forall _ _)).
  - unfold wp, observe. by rewrite length_fmap, length_fmap, length_seq.
  - intros a Ha. apply list_elem_of_In, list_elem_of_fmap in Ha as (i & -> & Hi%elem_of_seq).
    rewrite (wadd_live p (Z.of_nat n)) by (done || lia). apply Hl. lia.
Qed.

Lemma ok_peek n p : live p (Z.of_nat n) → ok (peek n p) (λ v, 0 <= v < 256 ^ Z.of_nat n).
Proof.
  intros Hl. eapply pok_bind; [by apply ok_read_bytes|]. intros l Hn. apply pok_ret.
  rewrite <- Hn. apply from_le_range.
Qed.

Lemma ok_peek_in n p m off :
  live p m → 0 <= off → off + Z.of_nat n <= m → ok (peek n (p ⊞ off)) (λ v, 0 <= v < 256 ^ Z.of_nat n).
Proof.
  intros Hl Ho Hm. rewrite (wadd_live p m) by (done || lia). apply ok_peek.
  eapply live_sub; [done|lia|lia].
Qed.

Lemma wadd_shift p a n b : live (p ⊞ a) n → a <= b → b <= a + n → p ⊞ b = (p ⊞ a) ⊞ (b - a).
Proof.
  unfold wadd. intros (? & ? & _) ? ?. rewrite Z.add_mod_idemp_l by ulia. f_equal. lia.
Qed.
Lemma ok_peek_shift n p m a b :
  live (p ⊞ a) m → a <= b → b + Z.of_nat n <= a + m → ok (peek n (p ⊞ b)) (λ v, 0 <= v < 256 ^ Z.of_nat n).
Proof. intros Hl ? ?. rewrite (wadd_shift p a m) by (done || lia). eapply ok_peek_in; [done|lia|lia]. Qed.

Lemma ok_peek_or n p other : 0 <= other → ok (peek_or n p other) (λ v, 0 <= v).
Proof.
  intros ?. unfold peek_or. destruct (readable p (Z.of_nat n)) eqn:Hr; [|by apply pok_ret].
  eapply ok_mono; [apply ok_peek, readable_live, Hr|]. simpl. lia.
Qed.

Lemma safe_peek_or n p other : safe (peek_or n p other).
Proof.
  unfold peek_or. destruct (readable p (Z.of_nat n)) eqn:Hr; [|by apply pok_ret].
  eapply ok_mono; [apply ok_peek, readable_live, Hr|done].
Qed.

Lemma safe_peek_i32 p m off : live p m → 0 <= off → off + 4 <= m → safe (peek_i32 (p ⊞ off)).
Proof.
  intros. eapply pok_bind; [eapply ok_peek_in; done|]. intros v _. by apply pok_ret.
Qed.
Lemma safe_peek_i32_0 p : live p 4 → safe (peek_i32 p).
Proof. intros. eapply pok_bind; [by apply ok_peek|]. intros v _. by apply pok_ret. Qed.

Lemma safe_i32_or p other : safe (i32_or p other).
Proof.
  unfold i32_or. destruct (readable p 4) eqn:Hr; [|by apply pok_ret].
  apply safe_peek_i32_0, readable_live, Hr.
Qed.

Lemma ok_via (p : Z) (m : M Z) other (Q : Z → Prop) : ok m Q → Q other → ok (via p m other) Q.
Proof. unfold via. destruct (p =? 0); [intros _ ?; by apply pok_ret|done]. Qed.

Lemma ok_via_peek (p : Z) n a other d : 0 <= other → 0 <= d → ok (via p (peek_or n a other) d) (λ v, 0 <= v).
Proof. intros. apply ok_via; [by apply ok_peek_or|done]. Qed.
Lemma safe_via (p : Z) m d : safe m → safe (via p m d).
Proof. intros. by apply ok_via. Qed.
Lemma safe_via_i32 (p : Z) a other d : safe (via p (i32_or a other) d).
Proof. apply ok_via; [apply safe_i32_or|done]. Qed.

Lemma ok_rd n p : ok (rd n p) (λ v, True).
Proof.
  unfold rd. destruct (readable p (Z.of_nat n)) eqn:Hr; [|by apply pok_ret].
  eapply pok_bind; [apply ok_peek, readable_live, Hr|]. intros v _. by apply pok_ret.
Qed.
Lemma safe_through p (m : Z → M (option Z)) : (∀ p, safe (m p)) → safe (through p m).
Proof. intros Hm. unfold through. destruct p as [p|]; [destruct (p =? 0)|]; [by apply pok_ret|apply Hm|by apply pok_ret]. Qed.
Lemma safe_swap s v : safe (swap s v).
Proof. intros w. done. Qed.
Lemma safe_store s v : safe (store s v).
Proof. apply safe_modify. Qed.
Lemma safe_load s : safe (load s).
Proof. apply safe_gets. Qed.
Lemma safe_fetch64 s v : safe (fetch_add64 s v).
Proof. intros w. done. Qed.
Lemma safe_fetch32 s v : safe (fetch_add32 s v).
Proof. intros w. done. Qed.
Lemma safe_instant : safe instant_now.
Proof. apply safe_observe. Qed.
Lemma safe_now : safe now_ms.
Proof. apply safe_observe. Qed.
Lemma safe_when b (m : M unit) : safe m → safe (when b m).
Proof. destruct b; [done|]. intros _. by apply pok_ret. Qed.
Lemma safe_log_line s : safe (log_line s).
Proof. apply safe_modify. Qed.
Lemma safe_debug_log s : safe (debug_log s).
Proof. apply safe_when, safe_log_line. Qed.
End safe.

Create HintDb probes discriminated.
#[export] Hint Resolve safe_gets safe_modify safe_observe safe_peek_or safe_i32_or safe_via_i32 safe_via ok_rd
  safe_swap safe_store safe_load safe_fetch64 safe_fetch32 safe_instant safe_now safe_log_line
  safe_debug_log safe_when safe_through : probes.
#[export] Hint Extern 5 (ok (mret _) _) => apply pok_ret : probes.

(** Ranges accepted by a test just made become live. *)
Ltac lives :=
  bool_props;
  repeat match goal with
  | H : readable ?p ?n = true |- _ => apply readable_live in H
  | H : negb (readable ?p ?n) = false |- _ => apply negb_false_iff, readable_live in H
  end.

(** A read inside something live. *)
Ltac peek_live :=
  match goal with
  | H : live ?p ?n |- ok (peek ?k (?p ⊞ ?o)) _ => apply (ok_peek_in k p n o H); lia
  | H : live ?p ?n |- ok (peek ?k ?p) _ => apply (ok_peek k p); eapply (live_sub p n); [exact H|lia|lia]
  | H : live (?p ⊞ ?a) ?n |- ok (peek ?k (?p ⊞ ?a)) _ => apply (ok_peek k (p ⊞ a)); exact H
  | H : live (?p ⊞ ?a) ?n |- ok (peek ?k (?p ⊞ ?b)) _ => apply (ok_peek_shift k p n a b H); lia
  | H : live ?p ?n |- ok (peek_i32 (?p ⊞ ?o)) _ => apply (safe_peek_i32 p n o H); lia
  | H : live ?p ?n |- ok (peek_i32 ?p) _ => apply safe_peek_i32_0; eapply (live_sub p n); [exact H|lia|lia]
  end.

(** [probe]: follow the code. *)
Ltac probe_step :=
  match goal with
  | |- ok (mret _) _ => apply pok_ret
  | |- ok (let '(_, _) := ?x in _) _ => destruct x
  | |- ok (if ?b then _ else _) _ => destruct b eqn:?; lives
  | |- ok (match ?x with _ => _ end) _ => destruct x
  | |- ok (mbind _ _) _ =>
      eapply pok_bind;
      [first [peek_live | apply ok_peek_or; lia | apply ok_via_peek; lia | solve [eauto with probes]]
      | intros; cbv beta in *]
  | |- ok (peek_or _ _ _) _ => eapply ok_mono; [apply ok_peek_or; lia|]
  | |- ok (peek _ _) _ => eapply ok_mono; [peek_live|simpl; lia]
  | |- ok _ _ => solve [eauto with probes]
  | |- True => exact I
  end.
Ltac probe :=
  repeat first [probe_step
    | match goal with
      | |- ok (mbind _ _) _ => eapply (pok_bind _ _ (λ _, True)); [solve [probe]|intros]
      end].

Section game.
Context `{GOK : GameOk}.

(** ** Logging *)

Lemma safe_log_throttled_lazy key f : (∀ n, safe (f n)) → safe (log_throttled_lazy key f).
Proof. intros Hf. unfold log_throttled_lazy. probe. Qed.
Lemma safe_debug_throttled key s : safe (debug_throttled key s).
Proof. apply safe_when, safe_log_throttled_lazy. intros. by apply pok_ret. Qed.
Lemma safe_log_throttled key s : safe (log_throttled key s).
Proof. apply safe_log_throttled_lazy. intros. by apply pok_ret. Qed.
#[local] Hint Resolve safe_debug_throttled safe_log_throttled : probes.

Lemma safe_thread_slot n i tid e : safe (thread_slot n i tid e).
Proof. revert i e. induction n as [|n IH]; intros i e; cbn [thread_slot]; probe. Qed.
#[local] Hint Resolve safe_thread_slot : probes.
Lemma safe_note_thread : safe note_thread.
Proof. unfold note_thread. probe. Qed.

Lemma safe_thread_parts n i : safe (thread_parts n i).
Proof. revert i. induction n as [|n IH]; intros i; cbn [thread_parts]; probe. Qed.
#[local] Hint Resolve safe_thread_parts : probes.
Lemma safe_thread_probe_note : safe thread_probe_note.
Proof. unfold thread_probe_note. probe. Qed.

(** ** The probes of [Probe] and [ProbeGame] *)

Lemma safe_eventbus_dword : safe eventbus_dword.
Proof. unfold eventbus_dword. probe. Qed.
#[local] Hint Resolve safe_eventbus_dword safe_note_thread safe_thread_probe_note : probes.
Lemma safe_note_eventbus : safe note_eventbus.
Proof. unfold note_eventbus. probe. Qed.
#[local] Hint Resolve safe_note_eventbus : probes.
Lemma safe_note_party_thread : safe note_party_thread.
Proof. unfold note_party_thread. probe. Qed.

Lemma ok_overlay_object : safe overlay_object.
Proof. unfold overlay_object. probe. Qed.

Lemma safe_id_bits p bit n acc : safe (id_bits p bit n acc).
Proof. revert p bit acc. induction n as [|n IH]; intros p bit acc; cbn [id_bits]; probe. Qed.
#[local] Hint Resolve ok_overlay_object safe_id_bits : probes.
Lemma safe_id_table_note base : safe (id_table_note base).
Proof. unfold id_table_note. probe. Qed.
#[local] Hint Resolve safe_id_table_note : probes.
Lemma safe_append_overlay_note base note : safe (append_overlay_note base note).
Proof. unfold append_overlay_note. probe. Qed.

Lemma safe_log_connect_gate_inputs : safe log_connect_gate_inputs.
Proof. unfold log_connect_gate_inputs. probe. Qed.
Lemma safe_connect_gate_party_invitation : safe connect_gate_party_invitation.
Proof. unfold connect_gate_party_invitation. probe. Qed.

Lemma safe_read_std_string obj : safe (read_std_string obj).
Proof.
  unfold read_std_string. probe. destruct (15 <? x) eqn:?; cbn [andb] in *; lives; probe.
  all: eapply pok_bind; [apply ok_read_bytes; rewrite Z2Nat.id by lia; eassumption|intros; by apply pok_ret].
Qed.

Lemma ok_walk {A} fuel stride e end_ (body : Z → A → M (A * bool)) (a : A) (Q : A → Prop) :
  0 < stride → e <= end_ → live e (end_ - e) → (end_ - e) mod stride = 0 → end_ - e <= stride * Z.of_nat fuel →
  (∀ e a, live e stride → Q a → ok (body e a) (λ r, Q r.1)) → Q a → ok (walk fuel stride e end_ body a) Q.
Proof.
  intros Hs He Hl Hm Hf Hb. revert e a He Hl Hm Hf.
  induction fuel as [|fuel IH]; intros e a He Hl Hm Hf Ha; cbn [walk];
    destruct (e <? end_) eqn:Hlt; bool_props; simpl; try (by apply pok_ret); [lia|].
  apply Z.mod_divide in Hm as [k Hk]; [|lia].
  rewrite Nat2Z.inj_succ, Z.mul_succ_r in Hf.
  assert (stride <= end_ - e) by (clear Hf; destruct (Z.le_gt_cases k 0); nia).
  eapply pok_bind; [apply Hb; [eapply live_sub; [done|lia|lia]|done]|].
  intros [a' stop] Ha'. destruct stop; [by apply pok_ret|].
  rewrite (wadd_live e (end_ - e)) by (done || lia). apply IH; [lia| | |lia|done].
  - eapply live_sub; [done|lia|lia].
  - apply Z.mod_divide; [lia|]. exists (k - 1). lia.
Qed.

Lemma vec_shape_walk {A} begin end_ stride (body : Z → A → M (A * bool)) (a : A) (Q : A → Prop) :
  0 < stride → vec_shape begin end_ stride = true → live begin (end_ - begin) →
  (∀ e a, live e stride → Q a → ok (body e a) (λ r, Q r.1)) → Q a →
  ok (walk WALK stride begin end_ body a) Q.
Proof. unfold vec_shape, WALK. intros Hs Hv Hr Hb Ha. bool_props. apply ok_walk; done || lia. Qed.

Lemma ok_member_list_container :
  ok member_list_container (λ c, ∀ m, c = Some m → live (m ⊞ 0x50) 24).
Proof. unfold member_list_container. probe; try done. by intros ? [= <-]. Qed.

#[local] Hint Resolve safe_read_std_string safe_append_overlay_note safe_connect_gate_party_invitation : probes.

Lemma ok_entry_work e : ok (entry_work e) (λ v, 0 <= v).
Proof. unfold entry_work. probe. apply ok_via_peek; lia. Qed.
#[local] Hint Resolve ok_entry_work : probes.

Lemma safe_member_slot e : safe (member_slot e).
Proof. unfold member_slot. probe. Qed.
#[local] Hint Resolve safe_member_slot : probes.

(** The three walks start the same way. *)
Lemma member_walk_safe {A} (no : A) (k : Z → Z → M A) :
  (∀ b e, vec_shape b e MEMBER_STRIDE = true → live b (e - b) → safe (k b e)) →
  safe (let* c := member_list_container in
        match c with
        | None => mret no
        | Some members =>
            let* begin := peek 8 (members ⊞ 0x50) in
            let* end_ := peek 8 (members ⊞ 0x58) in
            if negb (vec_shape begin end_ MEMBER_STRIDE) then mret no else
            if negb (readable begin (end_ - begin)) then mret no else k begin end_
        end).
Proof.
  intros Hk. eapply pok_bind; [apply ok_member_list_container|]. intros [m|] Hm; [|by apply pok_ret].
  specialize (Hm m eq_refl). eapply pok_bind; [peek_live|]. intros b _.
  eapply pok_bind; [peek_live|]. intros e _.
  destruct (vec_shape b e MEMBER_STRIDE) eqn:Hv; simpl; [|by apply pok_ret].
  destruct (readable b (e - b)) eqn:Hr; simpl; [|by apply pok_ret]. by apply Hk, readable_live.
Qed.

Lemma safe_member_list_has_entity name : safe (member_list_has_entity name).
Proof.
  apply (member_walk_safe false). intros b e Hv Hr. apply vec_shape_walk; try done.
  intros e' a _ _. probe.
Qed.
Lemma safe_collect_member_slots : safe collect_member_slots.
Proof.
  apply (member_walk_safe []). intros b e Hv Hr. apply vec_shape_walk; try done.
  intros e' a _ _. probe.
Qed.
#[local] Hint Resolve safe_collect_member_slots : probes.
Lemma safe_work_rows_note : safe work_rows_note.
Proof. unfold work_rows_note. probe. Qed.

Lemma safe_ready_rows b e :
  vec_shape b e READY_STRIDE = true → live b (e - b) → safe (ready_rows b e).
Proof.
  intros Hv Hr. unfold ready_rows. apply vec_shape_walk; try done. intros e' ids Hl _.
  unfold READY_STRIDE in Hl. probe.
Qed.
#[local] Hint Resolve safe_ready_rows : probes.
Lemma safe_ready_list_note : safe ready_list_note.
Proof. unfold ready_list_note. probe. Qed.
#[local] Hint Resolve safe_ready_list_note safe_work_rows_note : probes.

Lemma safe_quest_sync_parts base l s : safe (quest_sync_parts base l s).
Proof. revert s. induction l as [|[rva name] l IH]; intros s; cbn [quest_sync_parts]; probe. Qed.
#[local] Hint Resolve safe_quest_sync_parts : probes.
Lemma safe_quest_sync_note : safe quest_sync_note.
Proof. unfold quest_sync_note. probe. Qed.

Lemma safe_session_modes base : safe (session_modes base).
Proof. unfold session_modes. probe. Qed.
End game.

(** ** The probes of [ProbeAsync] *)

(** What the counts of the two vectors and of the queue can be. *)
Definition va_wf (v : VecA) : Prop :=
  0 <= va2 v <= va_read v ∧ va_read v <= va_scanned v <= ASYNC_VA_SCAN_MAX ∧
  (va_total v ≠ UMAX → va_scanned v = Z.min (va_total v) ASYNC_VA_SCAN_MAX).
Definition vb_wf (v : VecB) : Prop :=
  0 <= vb1h v <= vb1 v ∧ 0 <= vb2 v ∧ 0 <= vb3 v ∧
  vb1 v + vb2 v + vb3 v <= vb_scanned v <= ASYNC_VB_SCAN_MAX ∧
  (vb_total v ≠ UMAX → vb_scanned v = Z.min (vb_total v) ASYNC_VB_SCAN_MAX).
Definition queue_wf (q : Queue) : Prop :=
  0 <= q_hits q <= Z.min (q_total q) ASYNC_QUEUE_SCAN_MAX ∧ (q_hits q = 0 ↔ q_mode q = None) ∧
  q_trunc q = (ASYNC_QUEUE_SCAN_MAX <? q_total q).
Definition m1_wf (m : M1) : Prop := m1_present m = true → m1_trunc m = false.
Definition async_wf (st : AsyncState) : Prop :=
  (∀ m, m1 st = Some m → m1_wf m) ∧ (∀ q', q st = Some q' → queue_wf q') ∧ va_wf (va st) ∧ vb_wf (vb st).

Ltac done_wf :=
  unfold va_wf, vb_wf, ASYNC_VA_SCAN_MAX, ASYNC_VB_SCAN_MAX, ASYNC_VA_STRIDE, ASYNC_VB_STRIDE in *;
  simpl; repeat split; try lia; intros; done || lia.

Section async.
Context `{GOK : GameOk}.

Lemma ok_m1_walk fuel mgr sentinel hash node :
  ok (m1_walk fuel mgr sentinel hash node) (λ r, ∀ m, r = Some m → m1_wf m).
Proof.
  revert node. induction fuel as [|fuel IH]; intros node; cbn [m1_walk]; probe; try (by intros ? [= <-]).
  all: try (by intros ? [= <-]); first [done | apply IH].
Qed.

Lemma ok_m1_read mgr hash : ok (m1_read mgr hash) (λ r, ∀ m, r = Some m → m1_wf m).
Proof.
  unfold m1_read. destruct (readable (mgr ⊞ 0x18) 8) eqn:H1; [|by apply pok_ret].
  destruct (readable (mgr ⊞ 0x30) 4) eqn:H2; [|by apply pok_ret]. cbn [andb negb]. lives.
  probe; try (by intros ? [= <-]). apply ok_m1_walk.
Qed.

Lemma ok_scan {A} n p stride (body : Z → A → M A) (Q : Z → A → Prop) i a :
  0 < stride → live p (Z.of_nat n * stride) →
  (∀ i e a, live e stride → Q i a → ok (body e a) (Q (i + 1))) → Q i a →
  ok (scan n p stride body a) (Q (i + Z.of_nat n)).
Proof.
  intros Hs Hl Hb. revert i p a Hl. induction n as [|n IH]; intros i p a Hl Ha; cbn [scan].
  - rewrite Z.add_0_r. by apply pok_ret.
  - rewrite Nat2Z.inj_succ, Z.mul_succ_l in Hl.
    eapply pok_bind; [apply Hb; [eapply live_sub; [exact Hl|lia|lia]|exact Ha]|]. intros a' Ha'.
    rewrite (wadd_live p (Z.of_nat n * stride + stride)) by (done || lia).
    replace (i + Z.of_nat (S n)) with (i + 1 + Z.of_nat n) by lia.
    apply IH; [|done]. eapply live_sub; [exact Hl|lia|lia].
Qed.

(** A scan of at most [cap] of the elements between two bounds. *)
Lemma scan_bounds b e stride cap :
  0 < stride → b <= e → 0 < cap → 0 <= (e - b) / stride ∧
  Z.of_nat (Z.to_nat (Z.min ((e - b) / stride) cap)) = Z.min ((e - b) / stride) cap.
Proof.
  intros. assert (0 <= (e - b) / stride) by (apply Z.div_pos; lia). split; [done|].
  apply Z2Nat.id. lia.
Qed.

Lemma ok_boot_queue_read base hash : ok (boot_queue_read base hash) (λ r, ∀ q', r = Some q' → queue_wf q').
Proof.
  unfold boot_queue_read. probe; try done.
  - intros ? [= <-]. unfold queue_wf, ASYNC_QUEUE_STRIDE, ASYNC_QUEUE_SCAN_MAX in *. simpl. split; [lia|done].
  - match goal with H : ?b <= ?e |- context [(?e - ?b) / _] =>
      destruct (scan_bounds b e ASYNC_QUEUE_STRIDE ASYNC_QUEUE_SCAN_MAX) as [Ht Hn]; [done|done|done|] end.
    eapply pok_bind.
    + eapply (ok_scan _ _ _ _ (λ i a, 0 <= a.1 <= i ∧ (a.1 = 0 ↔ a.2 = None)) 0); [done| | |simpl; split; [lia|done]].
      * by rewrite Hn.
      * intros i e [h m] Hl [Hh Hm]. unfold ASYNC_QUEUE_STRIDE in Hl. simpl in *. probe. case_if; simpl.
        -- split; [lia|]. destruct m; (split; [lia|done]).
        -- split; [lia|tauto].
    + intros [h m] [Hh Hm]. rewrite Hn in Hh. apply pok_ret. intros ? [= <-]. unfold queue_wf. simpl in *.
      split; [lia|]. split; [done|].
      apply eq_bool_prop_intro. rewrite !Is_true_true, !Z.ltb_lt. lia.
Qed.

Lemma ok_va_step el v i :
  live el ASYNC_VA_STRIDE → 0 <= va2 v <= va_read v → va_read v <= i →
  ok (va_step el v) (λ v', (0 <= va2 v' <= va_read v' ∧ va_read v' <= i + 1) ∧
    va_total v' = va_total v ∧ va_scanned v' = va_scanned v).
Proof.
  intros Hl H2 Hr. unfold ASYNC_VA_STRIDE in Hl. unfold va_step. probe; simpl.
  all: try case_if; repeat split; lia.
Qed.

Lemma ok_read_va mgr : ok (read_va mgr) va_wf.
Proof.
  assert (va_wf va_none) as Hno by done_wf.
  unfold read_va. probe; try done.
  - match goal with H : ?b <= ?e |- context [(?e - ?b) / _] =>
      destruct (scan_bounds b e ASYNC_VA_STRIDE ASYNC_VA_SCAN_MAX) as [Ht Hn]; [done|done|done|];
      set (total := (e - b) / ASYNC_VA_STRIDE) in * end.
    eapply ok_mono.
    + eapply (ok_scan _ _ _ _ (λ i v, (0 <= va2 v <= va_read v ∧ va_read v <= i) ∧
        va_total v = total ∧ va_scanned v = Z.min total ASYNC_VA_SCAN_MAX) 0); [done|by rewrite Hn| |simpl; repeat split; lia].
      intros i e v Hl ([Hv2 Hvr] & Ht' & Hs'). eapply ok_mono; [by apply (ok_va_step e v i)|].
      intros v' (? & -> & ->). done.
    + rewrite Hn. intros v ([Hv2 Hvr] & Ht' & Hs'). unfold va_wf. rewrite Ht', Hs'. done_wf.
Qed.

Lemma ok_vb_step el v i :
  live el ASYNC_VB_STRIDE → 0 <= vb1h v <= vb1 v ∧ 0 <= vb2 v ∧ 0 <= vb3 v → vb1 v + vb2 v + vb3 v <= i →
  ok (vb_step el v) (λ v', ((0 <= vb1h v' <= vb1 v' ∧ 0 <= vb2 v' ∧ 0 <= vb3 v') ∧
    vb1 v' + vb2 v' + vb3 v' <= i + 1) ∧ vb_total v' = vb_total v ∧ vb_scanned v' = vb_scanned v).
Proof.
  intros Hl H2 Hr. unfold ASYNC_VB_STRIDE in Hl. unfold vb_step. probe.
  repeat case_if; simpl; repeat split; lia.
Qed.

Lemma ok_read_vb mgr : ok (read_vb mgr) vb_wf.
Proof.
  assert (vb_wf vb_none) as Hno by done_wf.
  unfold read_vb. probe; try done.
  - match goal with H : ?b <= ?e |- context [(?e - ?b) / _] =>
      destruct (scan_bounds b e ASYNC_VB_STRIDE ASYNC_VB_SCAN_MAX) as [Ht Hn]; [done|done|done|];
      set (total := (e - b) / ASYNC_VB_STRIDE) in * end.
    eapply ok_mono.
    + eapply (ok_scan _ _ _ _ (λ i v, ((0 <= vb1h v <= vb1 v ∧ 0 <= vb2 v ∧ 0 <= vb3 v) ∧
        vb1 v + vb2 v + vb3 v <= i) ∧ vb_total v = total ∧ vb_scanned v = Z.min total ASYNC_VB_SCAN_MAX) 0);
        [done|by rewrite Hn| |simpl; repeat split; lia].
      intros i e v Hl ([Hv2 Hvr] & Ht' & Hs'). eapply ok_mono; [by apply (ok_vb_step e v i)|].
      intros v' (? & -> & ->). done.
    + rewrite Hn. intros v ([Hv2 Hvr] & Ht' & Hs'). unfold vb_wf. rewrite Ht', Hs'. done_wf.
Qed.

Lemma ok_read_async_state : ok read_async_state async_wf.
Proof.
  assert (∀ p, async_wf (mkAsyncState p None None va_none vb_none)) as Hno by done_wf.
  unfold read_async_state. probe; try done.
  eapply pok_bind; [apply ok_m1_read|]. intros m Hm. eapply pok_bind; [apply ok_boot_queue_read|]. intros q' Hq.
  eapply pok_bind; [apply ok_read_va|]. intros a Ha. eapply pok_bind; [apply ok_read_vb|]. intros b Hb.
  by apply pok_ret.
Qed.
#[local] Hint Resolve ok_read_async_state : probes.

Lemma safe_asyncload_note : safe asyncload_note.
Proof.
  apply safe_when, safe_log_throttled_lazy. intros n. eapply pok_bind; [apply ok_read_async_state|].
  intros. by apply pok_ret.
Qed.

Lemma safe_change_gate a b hb k now : safe (change_gate a b hb k now).
Proof. unfold change_gate. probe. Qed.
Lemma safe_read_qm_gate qm : safe (read_qm_gate qm).
Proof. unfold read_qm_gate, rd8, rd32. probe. Qed.
#[local] Hint Resolve safe_change_gate safe_read_qm_gate : probes.
Lemma safe_read_mode3 base : safe (read_mode3 base).
Proof. unfold read_mode3, rd8, rd32, rdptr. probe. Qed.
#[local] Hint Resolve safe_read_mode3 : probes.
Lemma safe_mode3_gate_note : safe mode3_gate_note.
Proof. unfold mode3_gate_note. probe. Qed.

Lemma safe_read_quest qm l : safe (read_quest qm l).
Proof. induction l as [|[off name] l IH]; cbn [read_quest]; unfold rd32; probe. Qed.
#[local] Hint Resolve safe_read_quest : probes.
Lemma ok_read_solo base : ok (read_solo base) (λ r, async_wf (so_async r)).
Proof.
  unfold read_solo, rd8, rd32, rdptr. probe. done.
Qed.
Lemma safe_solo_sample_note : safe solo_sample_note.
Proof.
  unfold solo_sample_note. probe. eapply pok_bind; [apply ok_read_solo|]. intros r _. probe.
Qed.
End async.

(** ** The probes that read more than they tested *)

Section whole.
Context `{GOK : GameOk}.

(** The pointer a global of the executable holds at the n-th read. *)
Definition held (rva : Z) (k : nat) : Z := from_le (byte_at k <$> span (exe_module ⊞ rva) 8).

(** The objects behind the globals are mapped beyond the ranges the probes test: each test covers
    the reads that follow it. *)
Record WholeObjects : Prop := {
  whole_ready k : live (held READY_LIST_GLOBAL_RVA k ⊞ 0x60) 16 → live (held READY_LIST_GLOBAL_RVA k ⊞ 0x50) 0x20;
  whole_session k : live (held SESSION_GLOBAL_RVA k ⊞ 4) 4 → live (held SESSION_GLOBAL_RVA k) 4;
  whole_session_end k : live (held SESSION_GLOBAL_RVA k ⊞ 4) 8 → live (held SESSION_GLOBAL_RVA k ⊞ 0x4ac) 4;
  whole_buckets k : Forall (λ b : Z * Z * Z,
    live (held 0x7c47850 k ⊞ b.1.2) 4 → live (held 0x7c47850 k ⊞ b.1.1) 8) QUEST_BUCKETS;
  whole_action k : live (held EVENTBUS_OBJ_RVA k ⊞ 0x108) 8 → live (held EVENTBUS_OBJ_RVA k ⊞ 0x1d4) 1
}.
Context (Hw : WholeObjects).

Lemma ok_peek_held rva : live (exe_module ⊞ rva) 8 → ok (peek 8 (exe_module ⊞ rva)) (λ v, ∃ k, v = held rva k).
Proof.
  intros Hl w. pose proof (ok_read_bytes (exe_module ⊞ rva) 8 Hl w) as Hr.
  unfold peek. apply wp_bind. unfold read_bytes, held in *. unfold wp in *.
  destruct (forallb mapped (span (exe_module ⊞ rva) 8)); [|done]. simpl. eauto.
Qed.

Ltac global :=
  match goal with
  | H : live (exe_module ⊞ ?rva) 8 |- ok (mbind (peek 8 (exe_module ⊞ ?rva)) _) _ =>
      let k := fresh "k" in
      eapply pok_bind; [exact (ok_peek_held rva H)|intros ? [k ->]]
  end.

#[local] Hint Resolve safe_ready_rows safe_thread_probe_note safe_collect_member_slots safe_work_rows_note
  safe_ready_list_note safe_append_overlay_note safe_connect_gate_party_invitation safe_session_modes
  safe_debug_throttled safe_log_throttled : probes.

Lemma safe_queue_rows_note : safe queue_rows_note.
Proof.
  unfold queue_rows_note. probe_step; [probe|]. global. probe_step; [probe|].
  match goal with H : live _ 16 |- _ => apply (whole_ready Hw) in H end. probe.
Qed.
#[local] Hint Resolve safe_queue_rows_note : probes.

Lemma safe_session_fields session : live session 4 → live (session ⊞ 0x3c0) 8 → safe (session_fields session).
Proof. intros. unfold session_fields. probe. Qed.

Lemma safe_session_note : safe (session_note exe_module).
Proof.
  unfold session_note. probe_step; [probe|]. global. do 2 (probe_step; [probe|]).
  eapply pok_bind; [apply safe_peek_i32_0; eassumption|]. intros ? _. probe_step; [probe|].
  eapply pok_bind; [apply safe_session_fields; [by apply whole_session|done]|]. intros. by apply pok_ret.
Qed.

Lemma safe_members_note base : safe (members_note base).
Proof. unfold members_note. probe. Qed.
Lemma safe_send_note base : safe (send_note base).
Proof. unfold send_note. probe. Qed.
Lemma safe_probe_log_due : safe probe_log_due.
Proof. unfold probe_log_due. probe. Qed.
#[local] Hint Resolve safe_members_note safe_send_note safe_probe_log_due safe_session_note : probes.
Lemma safe_probe_note : safe (probe_note exe_module).
Proof. unfold probe_note. probe. Qed.
#[local] Hint Resolve safe_probe_note : probes.
Lemma safe_probe_session : safe probe_session.
Proof. unfold probe_session. probe. Qed.

Lemma safe_quest_fields base g l s : safe (quest_fields base g l s).
Proof. revert s. induction l as [|[off name] l IH]; intros s; cbn [quest_fields]; probe. Qed.
#[local] Hint Resolve safe_quest_fields : probes.
Lemma safe_quest_guard_note : safe quest_guard_note.
Proof.
  unfold quest_guard_note. probe_step; [probe|]. global. probe.
  eapply (pok_bind _ _ (λ _, True)); [|intros; probe]. probe_step; [probe|]. global. probe_step; [probe|].
  eapply pok_bind; [peek_live|]. intros ? _.
  eapply pok_bind; [apply ok_peek; by apply whole_session_end|]. intros ? _. by apply pok_ret.
Qed.

Lemma safe_quest_buckets p l s picked :
  Forall (λ b : Z * Z * Z, live (p ⊞ b.1.2) 4 → live (p ⊞ b.1.1) 8) l → safe (quest_buckets p l s picked).
Proof.
  intros Hl. revert s picked. induction Hl as [|[[boff coff] n] l Hb _ IH]; intros s picked; cbn [quest_buckets]; [probe|].
  probe_step; [probe|]. eapply pok_bind; [peek_live|]. intros count Hc. cbv beta in Hc. probe_step; [apply IH|].
  eapply pok_bind; [apply ok_peek, Hb; eassumption|]. intros bptr _. probe_step; [apply IH|].
  match goal with H : live bptr _ |- _ => rename H into Hlive end.
  rewrite (wadd_live bptr (count * 20)) by (done || lia).
  assert (live (bptr + (count - 1) * 20) 20) as Hrec by (eapply live_sub; [exact Hlive|lia|lia]).
  set (rec := bptr + (count - 1) * 20) in *. probe; apply IH.
Qed.

Lemma safe_quest_array_note : safe quest_array_note.
Proof.
  unfold quest_array_note. probe_step; [probe|]. global. probe_step; [probe|].
  eapply pok_bind; [apply safe_quest_buckets, whole_buckets; exact Hw|]. intros [s picked] _. probe.
Qed.

Lemma safe_quest_action_note : safe quest_action_note.
Proof.
  unfold quest_action_note. probe_step; [probe|]. global. do 2 (probe_step; [probe|]).
  eapply pok_bind; [peek_live|]. intros ? _.
  eapply pok_bind; [apply ok_peek; by apply whole_action|]. intros ? _. probe.
Qed.

Lemma safe_mesh_trigger_timeline : safe mesh_trigger_timeline.
Proof. unfold mesh_trigger_timeline, note_export, export_trace. probe. Qed.

#[local] Hint Resolve safe_probe_session safe_quest_guard_note safe_quest_sync_note safe_quest_array_note
  safe_quest_action_note safe_asyncload_note safe_mode3_gate_note : probes.
Lemma safe_probe_pass now : safe (probe_pass now).
Proof. unfold probe_pass, probe_tick_due. probe. Qed.
End whole.

(** ** A memory to run the probes on *)

Section demo.
(** Committed read-write regions (base, size), and what they hold; zero elsewhere. *)
Context (regions : list (Z * Z)) (contents : list (Z * list byte)).

Definition inside (a : Z) (r : Z * Z) : bool := (r.1 <=? a) && (a <? r.1 + r.2).
Definition demo : Game := {|
  exe_module := 0x140000000;
  vquery p := (λ r, mkMemInfo r.1 r.2 MEM_COMMIT 4) <$> List.find (inside p) regions;
  mapped a := existsb (inside a) regions;
  byte_at _ a :=
    match List.find (λ c, inside a (c.1, Z.of_nat (length c.2))) contents with
    | Some c => default x00 (c.2 !! Z.to_nat (a - c.1))
    | None => x00
    end;
  now_at _ := 1700000000000;
  inst_at k := Z.of_nat k;
  thread_id := 7;
  debug_enabled := true;
  log_hex_all := false
|}.

Lemma demo_ok : Forall (λ r, 0 <= r.1) regions → GameOk (H := demo).
Proof.
  intros Hr. split; cbn [vquery mapped demo].
  - intros p i (r & [Hin _]%List.find_some & ->)%fmap_Some. cbn.
    rewrite Forall_forall in Hr. apply Hr. by apply list_elem_of_In.
  - intros p i a (r & [Hin _]%List.find_some & ->)%fmap_Some _ _ Ha. cbn in Ha.
    apply existsb_exists. exists r. split; [done|]. unfold inside.
    apply andb_true_iff. split; [apply Z.leb_le|apply Z.ltb_lt]; lia.
Qed.

Lemma demo_live p n r :
  r ∈ regions → 0 < p → r.1 <= p → p + n <= r.1 + r.2 → r.1 + r.2 < U64 → live (H := demo) p n.
Proof.
  intros Hin ? ? ? ?. split; [done|]. split; [lia|]. intros a Ha. apply existsb_exists.
  exists r. split; [by apply list_elem_of_In|]. unfold inside. apply andb_true_iff.
  split; [apply Z.leb_le|apply Z.ltb_lt]; lia.
Qed.
End demo.

(** The image of the executable, and one page of the heap. *)
Definition EXE : Z * Z := (0x140000000, 0x8000000).
Definition HEAP : Z * Z := (0x20000000, 0x1000).
Definition at_rva (rva v : Z) : Z * list byte := (0x140000000 + rva, to_le 8 v).
Definition small (contents : list (Z * list byte)) : Game := demo [EXE; HEAP] contents.

Lemma small_ok contents : GameOk (H := small contents).
Proof. apply demo_ok. repeat constructor; done. Qed.
