(* ===== verification/PayloadLog.v ===== *)
(** * The Party shim's message log

    What [party-shim/src/lib.rs] counts and logs of the messages it sends and
    receives: the counters per opcode with their rollup line, the sampled hex
    lines, the identity line of a joining player, the one-time lines about send
    options.  The payload comes from the game or the network: an index out of
    its range would be a panic. *)

From stdpp Require Import sorting functions.
From S2P Require Import Prelude RustStr Comp Probe.
From S2P Require Reliable Wire.

#[local] Open Scope Z_scope.
#[local] Open Scope comp_scope.

(** [.iter().copied().take_while(|b| *b != 0).take(n)]. *)
Fixpoint take_text (n : nat) (l : list byte) : list byte :=
  match n, l with
  | S n, b :: l => if bz b =? 0 then [] else b :: take_text n l
  | _, _ => []
  end.
Definition is_graphic (b : byte) : bool := byte_in 33 126 b.

(** [&payload[off..]]; beyond the end it panics. *)
Definition tail_from (off : Z) (l : list byte) : M (list byte) :=
  if off <=? Z.of_nat (length l) then mret (drop (Z.to_nat off) l) else undef.

Definition opt_dec (v : option Z) : string := match v with Some v => fmt_dec v | None => "?" end.

Section payload.
Context `{G : Game}.

(** ** Counters *)

Definition rel_bump (mode : nat) (f : RelCounts → RelCounts) : M unit :=
  let* l := gets p_rel_stats in
  match l !! mode with
  | Some c => modify (p_set_rel_stats (<[mode := f c]> l))
  | None => undef
  end.

Definition rel_any (c : RelCounts) : bool :=
  negb (Z.lor (rc_sent c) (Z.lor (rc_retransmitted c) (Z.lor (rc_acked c) (Z.lor (rc_dup_dropped c)
    (Z.lor (rc_ooo_dropped c) (Z.lor (rc_ooo_queued c) (rc_evicted c)))))) =? 0).

Fixpoint rel_parts (i : nat) (l : list RelCounts) : M (list string) :=
  match l with
  | [] => mret []
  | c :: l =>
      if negb (rel_any c) then rel_parts (S i) l else
      match Reliable.mode_name (Z.of_nat i) with
      | None => undef
      | Some name =>
          let* r := rel_parts (S i) l in
          mret ((name +:+ "(sent=" +:+ fmt_dec (rc_sent c) +:+ " retransmitted=" +:+ fmt_dec (rc_retransmitted c)
            +:+ " acked=" +:+ fmt_dec (rc_acked c) +:+ " dup-dropped=" +:+ fmt_dec (rc_dup_dropped c)
            +:+ " out-of-order-dropped=" +:+ fmt_dec (rc_ooo_dropped c)
            +:+ " out-of-order-queued=" +:+ fmt_dec (rc_ooo_queued c)
            +:+ " evicted=" +:+ fmt_dec (rc_evicted c) +:+ ")") :: r)
      end
  end.

Definition reliable_stats_note : M string :=
  let* l := gets p_rel_stats in
  let* parts := rel_parts 0 l in
  mret (match parts with [] => "reliable=none"%string | _ => "reliable " +:+ join " " parts end).

Definition fmt_bool (v : Z) : string := if v =? 0 then "false"%string else "true"%string.

Definition transport_stats_note : M string :=
  let* tid := load XPORT_TID in
  let* up := load TRANSPORT_UP in
  let* wakeups := load XPORT_WAKEUPS in
  let* jobs := load XPORT_JOBS in
  let* rx := load XPORT_RX in
  let* tx := load XPORT_TX in
  mret (" transport[tid=" +:+ fmt_hex_w 8 tid +:+ " up=" +:+ fmt_bool up +:+ " wakeups=" +:+ fmt_dec wakeups
    +:+ " jobs=" +:+ fmt_dec jobs +:+ " datagrams_rx=" +:+ fmt_dec rx +:+ " datagrams_tx=" +:+ fmt_dec tx
    +:+ "]").

Definition broker_stats_note : M string :=
  let* jobs := load BROKER_JOBS in
  let* up := load BROKER_UP in
  let* q := load BROKER_Q_DEPTH in
  mret (" broker[jobs=" +:+ fmt_dec jobs +:+ " up=" +:+ fmt_bool up +:+ " queue=" +:+ fmt_dec q +:+ "]").

Definition bump (op : Z) (m : gmap Z Z) : gmap Z Z := <[op := (default 0 (m !! op) + 1) mod U64]> m.

Definition by_key (a b : Z * Z) : Prop := a.1 <= b.1.
#[export] Instance by_key_dec : RelDecision by_key.
Proof. intros a b. unfold by_key. apply _. Defined.
Definition fmt_ops (m : gmap Z Z) : string :=
  join "," ((λ x, fmt_dec x.1 +:+ ":" +:+ fmt_dec x.2) <$> merge_sort by_key (map_to_list m)).

(** The counters after one message, before the rollup. *)
Definition ms_bump (dir : string) (op : Z) (s : MsgStats) : MsgStats :=
  if bool_decide (dir = "send"%string)
  then mkMsgStats ((ms_send s + 1) mod U64) (ms_recv s) (bump op (ms_sent_ops s)) (ms_recv_ops s) (ms_rollup s)
  else mkMsgStats (ms_send s) ((ms_recv s + 1) mod U64) (ms_sent_ops s) (bump op (ms_recv_ops s)) (ms_rollup s).

Definition rollup_due (s : MsgStats) (now : Z) : bool :=
  if debug_enabled
  then (5 * NANOS <=? elapsed (ms_rollup s) now) || (((ms_send s + ms_recv s) mod U64) mod 50 =? 0)
  else 30 * NANOS <=? elapsed (ms_rollup s) now.

Definition bump_msg_stats (dir : string) (opcode : Z) : M unit :=
  let* o := gets p_msg_stats in
  let* s := match o with
    | Some s => mret s
    | None => let* t := instant_now in mret (mkMsgStats 0 0 ∅ ∅ t)
    end in
  let s := ms_bump dir opcode s in
  modify (p_set_msg_stats (Some s));;
  let* now := instant_now in
  if negb (rollup_due s now) then mret tt else
  let* again := instant_now in
  let s := mkMsgStats (ms_send s) (ms_recv s) (ms_sent_ops s) (ms_recv_ops s) again in
  modify (p_set_msg_stats (Some s));;
  let* reliable := reliable_stats_note in
  let* run := load PROBES_RUN in
  let* skipped := load PROBES_SKIPPED in
  let* transport := transport_stats_note in
  let* broker := broker_stats_note in
  debug_log ("msg_stats send=" +:+ fmt_dec (ms_send s) +:+ " recv=" +:+ fmt_dec (ms_recv s)
    +:+ " send_ops=" +:+ fmt_ops (ms_sent_ops s) +:+ " recv_ops=" +:+ fmt_ops (ms_recv_ops s)
    +:+ " " +:+ reliable +:+ " probes_run=" +:+ fmt_dec run +:+ " probes_skipped=" +:+ fmt_dec skipped
    +:+ transport +:+ broker).

(** ** One-time lines *)

Definition log_send_options_once (options : Z) : M unit :=
  let* seen := gets p_send_options in
  if bool_decide (options ∈ seen) then mret tt else
  modify (p_set_send_options (seen ++ [options]));;
  let mode := Reliable.mode_index options in
  match Reliable.mode_name mode with
  | None => undef
  | Some name =>
      debug_log ("send options word " +:+ fmt_hex_w 8 options +:+ " decoded: " +:+ Reliable.decode_options options
        +:+ " (mode=" +:+ name +:+ ", "
        +:+ (if Reliable.guaranteed options then "guaranteed: pending+retransmit+ack enabled"
             else "best-effort: no retransmit") +:+ "), first use of this value")
  end.

Definition log_big_send_once (len options : Z) : M unit :=
  let* done := swap BIG_SEND_DONE 1 in
  if negb (done =? 0) then mret tt else
  debug_log ("send payload len=" +:+ fmt_dec len +:+ " > 1400 options=" +:+ fmt_hex_w 8 options
    +:+ ": Party documents fragmentation/reassembly but shim sends one datagram per message").

(** ** Payloads *)

Definition note_snapshot : M unit :=
  store HOST_SNAPSHOT 1;;
  let* now := now_ms in
  let* at0 := load SNAPSHOT_MS in
  if at0 =? 0 then store SNAPSHOT_MS now else mret tt.

Definition opcode3_entity (payload : list byte) : M string :=
  if Z.of_nat (length payload) <=? 0x22 then mret EmptyString else
  let* raw := tail_from 0x22 payload in
  let s := take_text 32 raw in
  mret (match s with
        | [] => " ent@+22=empty"%string
        | _ => if forallb is_graphic s then " ent@+22=" +:+ from_utf8_lossy s
               else " ent@+22hex=[" +:+ Wire.hex_preview raw 16 +:+ "]"
        end).

Definition log_join_publish (dir extra : string) (payload : list byte) : M unit :=
  let op := default 0 (Wire.u32le payload 0) in
  let sub := default 0 (Wire.u32le payload 4) in
  let len := Z.of_nat (length payload) in
  if negb (((op =? 3) && (sub =? 7)) || ((op =? 2) && (600 <=? len))) then mret tt else
  let* n := fetch_add64 JOINPUB_LOGGED 1 in
  if 128 <=? n then
    when (n =? 128) (debug_log "joinpub backstop hit (128 join-publish lines); further joinpub suppressed")
  else
  let* name :=
    if len <=? 0x2da then mret ("n/a(len=" +:+ fmt_dec len +:+ ")") else
    let* rest := tail_from 0x2da payload in
    let raw := take_text 0x28 rest in
    mret (match raw with
          | [] => "empty"%string
          | _ => if forallb (λ b, is_graphic b || (bz b =? 32)) raw then from_utf8_lossy raw
                 else "hex=[" +:+ Wire.hex_preview rest 0x28 +:+ "]"
          end) in
  debug_log ("joinpub " +:+ dir +:+ " len=" +:+ fmt_dec len +:+ " sub=" +:+ fmt_dec sub
    +:+ " w+00=" +:+ opt_dec (Wire.u32le payload 0) +:+ " w+10=" +:+ opt_dec (Wire.u32le payload 0x10)
    +:+ " name@+2DA=" +:+ name +:+ " " +:+ extra
    +:+ " hex=[" +:+ Wire.hex_preview payload (Z.to_nat (Z.min len 1024)) +:+ "]").

(** The decoded quest fields of a hex line. *)
Definition quest_text (op sub : Z) (payload : list byte) : string :=
  if (op =? 2) && (sub =? 0x5a) then
    " ord@+10=" +:+ opt_dec (Wire.u32le payload 0x10) +:+ " quest@+14=" +:+ opt_dec (Wire.u32le payload 0x14)
  else if (op =? 3) && (sub =? 0xc) then
    " members@+38=[" +:+ join "," ((λ i, opt_dec (Wire.u32le payload (0x38 + i * 4))) <$> seq 0 4) +:+ "]"
  else if (op =? 3) && (sub =? 0xe) then
    " ord@+2B4=" +:+ opt_dec (Wire.u32le payload 0x2b4) +:+ " flag@+30C=" +:+ opt_dec (bz <$> payload !! 0x30c%nat)
  else EmptyString.

Definition log_payload (dir extra : string) (payload : list byte) : M unit :=
  let op := default 0 (Wire.u32le payload 0) in
  let sub := default 0 (Wire.u32le payload 4) in
  let len := Z.of_nat (length payload) in
  let send := bool_decide (dir = "send"%string) in
  idle_note dir op sub;;
  when (send && (op =? 3) && (sub =? 5)) (store GUEST_SUB5_SENT 1);;
  when (send && Wire.is_chara_snapshot op len) note_snapshot;;
  when ((op =? 3) && (sub =? 7)) (if send then store SUB7_SENT 1 else store SUB7_RECV 1);;
  bump_msg_stats dir op;;
  if negb debug_enabled && negb log_hex_all then mret tt else
  let sub_tag :=
    if send && ((op =? 2) || (op =? 3))
    then match Wire.u32le payload 4 with Some s => " sub=" +:+ fmt_dec s | None => EmptyString end
    else EmptyString in
  debug_log (dir +:+ " opcode=" +:+ fmt_dec op +:+ " len=" +:+ fmt_dec len +:+ sub_tag +:+ " " +:+ extra);;
  let* should := should_log_payload (dir +:+ ":" +:+ fmt_dec op +:+ ":" +:+ fmt_dec sub +:+ ":" +:+ fmt_dec len) in
  if negb should then mret tt else
  let is_quest_sync := ((op =? 2) && (sub =? 0x5a)) || ((op =? 3) && ((0xc <=? sub) && (sub <=? 0xe))) in
  let nhex := Z.min len (if is_quest_sync then 1024 else 72) in
  let* ent := if op =? 3 then opcode3_entity payload else mret EmptyString in
  debug_log (dir +:+ "_hex opcode=" +:+ fmt_dec op +:+ " len=" +:+ fmt_dec len +:+ " " +:+ extra +:+ " "
    +:+ Wire.payload_hints payload +:+ ent +:+ quest_text op sub payload
    +:+ " hex=[" +:+ Wire.hex_preview payload (Z.to_nat nhex) +:+ "]");;
  log_join_publish dir extra payload.

(** [note_send_diag], with the number of remotes of the network and the entity of the endpoint. *)
Definition note_send_diag (remotes target_count : Z) (ent : string) (payload : list byte) (options : Z) : M unit :=
  let len := Z.of_nat (length payload) in
  when (target_count =? 4)
    (debug_log ("WATCH_4 send target_count=4 remotes=" +:+ fmt_dec remotes +:+ " len=" +:+ fmt_dec len));;
  log_payload "send" ("targets=" +:+ fmt_dec target_count +:+ " remotes=" +:+ fmt_dec remotes +:+ " from=" +:+ ent)
    payload;;
  log_send_options_once options;;
  if 1400 <? len then log_big_send_once len options else mret tt.
End payload.

(** ** No payload makes the log panic *)

Section total.
Context `{G : Game}.

(** The counters per delivery mode are an array of four. *)
Definition four_modes (w : Probes) : Prop := length (p_rel_stats w) = 4%nat.
Definition total {A} (m : M A) : Prop := ∀ w, four_modes w → wp m (λ _ w', four_modes w') w.

Lemma total_ret {A} (x : A) : total (mret x).
Proof. intros w Hw. exact Hw. Qed.
Lemma total_bind {A B} (m : M A) (f : A → M B) : total m → (∀ x, total (f x)) → total (mbind m f).
Proof.
  intros Hm Hf w Hw. apply wp_bind. eapply wp_mono; [by apply Hm|]. intros x w' Hw'. by apply Hf.
Qed.
Lemma total_gets {A} (f : Probes → A) : total (gets f).
Proof. intros w Hw. exact Hw. Qed.
Lemma total_modify f : (∀ w, p_rel_stats (f w) = p_rel_stats w) → total (modify f).
Proof. intros Hf w Hw. unfold four_modes, wp, modify in *. by rewrite Hf. Qed.
Lemma total_observe {A} (f : nat → A) : total (observe f).
Proof. intros w Hw. exact Hw. Qed.
Lemma total_tail_from off l : off <= Z.of_nat (length l) → total (tail_from off l).
Proof. intros. unfold tail_from. rewrite (proj2 (Z.leb_le _ _)) by done. apply total_ret. Qed.
End total.

Ltac total_step :=
  match goal with
  | |- total (mret _) => apply total_ret
  | |- total (gets _) => apply total_gets
  | |- total (modify _) => apply total_modify; by intros []
  | |- total (observe _) => apply total_observe
  | |- total (mbind _ _) => apply total_bind; [|intros]
  | |- total (tail_from _ _) => apply total_tail_from; bool_props; lia
  | |- total (if ?b then _ else _) => destruct b eqn:?
  | |- total (match ?x with _ => _ end) => destruct x eqn:?
  | |- total (when ?b _) => unfold when
  | |- total (load _) => unfold load
  | |- total (store _ _) => unfold store
  | |- total (swap _ _) => unfold swap
  | |- total (fetch_add64 _ _) => unfold fetch_add64
  | |- total now_ms => unfold now_ms
  | |- total instant_now => unfold instant_now
  | |- total (debug_log _) => unfold debug_log
  | |- total (log_line _) => unfold log_line
  | H : context [total _] |- _ => apply H
  end.
Ltac total_tac := repeat total_step.

Section totals.
Context `{G : Game}.

Lemma total_rel_parts i l : (i + length l ≤ 4)%nat → total (rel_parts i l).
Proof.
  revert i. induction l as [|c l IH]; intros i Hl; cbn [rel_parts length] in *; [total_tac|].
  destruct (negb (rel_any c)); [apply IH; lia|].
  destruct (Reliable.mode_name (Z.of_nat i)) eqn:Hn.
  - apply total_bind; [apply IH; lia|]. intros. total_tac.
  - unfold Reliable.mode_name in Hn. rewrite Nat2Z.id in Hn. apply lookup_ge_None in Hn. cbn in Hn. lia.
Qed.

Lemma total_reliable_stats_note : total reliable_stats_note.
Proof.
  intros w Hw. unfold reliable_stats_note. apply wp_bind. unfold wp at 1, gets. apply wp_bind.
  eapply wp_mono; [apply total_rel_parts; [unfold four_modes in Hw; lia|done]|]. intros l w' Hw'. done.
Qed.

Lemma total_bump_msg_stats dir op : total (bump_msg_stats dir op).
Proof.
  unfold bump_msg_stats, transport_stats_note, broker_stats_note.
  pose proof total_reliable_stats_note. total_tac.
Qed.

Lemma total_log_payload dir extra payload : total (log_payload dir extra payload).
Proof.
  unfold log_payload, idle_note, note_snapshot, should_log_payload, opcode3_entity, log_join_publish.
  pose proof (total_bump_msg_stats dir). total_tac.
Qed.

Lemma total_log_send_options_once options : total (log_send_options_once options).
Proof.
  unfold log_send_options_once, Reliable.mode_index. total_tac; try done.
  destruct (Reliable.guaranteed options), (Reliable.sequential options); done.
Qed.

(** logging a message never panics, whatever its bytes and however short it is: the tags, the
    entity, the quest fields and the identity of a joining player are only taken where the payload
    has them, and the names of the delivery modes are only looked up for the four modes. *)
Theorem send_diag_total remotes target_count ent payload options w :
  four_modes w → ∃ w', note_send_diag remotes target_count ent payload options w = Some (tt, w') ∧ four_modes w'.
Proof.
  intros Hw. assert (total (note_send_diag remotes target_count ent payload options)) as Ht.
  { unfold note_send_diag, log_big_send_once. pose proof total_log_payload. pose proof total_log_send_options_once.
    total_tac. }
  specialize (Ht w Hw). unfold wp in Ht. destruct (note_send_diag _ _ _ _ _ w) as [[[] w']|]; [|done]. by exists w'.
Qed.
End totals.

Lemma send_diag_total_witness :
  ∃ w', note_send_diag (G := {| exe_module := 0; vquery _ := None; mapped _ := false; byte_at _ _ := x00;
      now_at _ := 1; inst_at _ := 0; thread_id := 7; debug_enabled := true; log_hex_all := true |})
    3 4 "e" (to_le 4 3) 3 probes_init = Some (tt, w') ∧ four_modes w'.
Proof. by apply send_diag_total. Defined.
