(* ===== verification/ProbeEmit.v ===== *)
(** * When the diagnostic lines appear

    Reading the game changes nothing but the count of reads, so the lines that
    are logged on a change follow from the readings; the event-bus table accounts
    for every call; a throttled line is delayed, not lost. *)

From stdpp Require Import functions.
From S2P Require Import Prelude RustStr Comp Probe ProbeGame ProbeAsync ProbeSafe.

#[local] Open Scope Z_scope.
#[local] Open Scope comp_scope.
#[local] Open Scope rust_scope.

Section quiet.
Context `{G : Game}.

(** [m] only reads. *)
Definition quiet {A} (m : M A) : Prop :=
  ∀ w x w', m w = Some (x, w') → ∃ k, w' = p_set_reads k w.

Lemma p_set_reads_id w : p_set_reads (p_reads w) w = w.
Proof. by destruct w. Qed.

Lemma peek_only_ret {A} (x : A) : quiet (mret x).
Proof. intros w y w' [= _ <-]. exists (p_reads w). by rewrite p_set_reads_id. Qed.
Lemma quiet_undef {A} : quiet (@undef Probes A).
Proof. by intros w y w'. Qed.
Lemma peek_only_bind {A B} (m : M A) (f : A → M B) : quiet m → (∀ x, quiet (f x)) → quiet (mbind m f).
Proof.
  intros Hm Hf w y w' H. unfold mbind in H. destruct (m w) as [[x w1]|] eqn:Hw; [|done].
  destruct (Hm _ _ _ Hw) as [k ->]. destruct (Hf _ _ _ _ H) as [k' ->]. by exists k'.
Qed.
Lemma quiet_read_bytes p n : quiet (read_bytes p n).
Proof.
  intros w y w'. unfold read_bytes, observe. destruct (forallb _ _); [|done]. intros [= _ <-]. eauto.
Qed.
Lemma quiet_peek n p : quiet (peek n p).
Proof. apply peek_only_bind; [apply quiet_read_bytes|]. intros. apply peek_only_ret. Qed.
Lemma quiet_peek_or n p o : quiet (peek_or n p o).
Proof. unfold peek_or. destruct (readable _ _); [apply quiet_peek|apply peek_only_ret]. Qed.
Lemma quiet_rd n p : quiet (rd n p).
Proof.
  unfold rd. destruct (readable _ _); [|apply peek_only_ret].
  apply peek_only_bind; [apply quiet_peek|]. intros. apply peek_only_ret.
Qed.
Lemma quiet_through p (m : Z → M (option Z)) : (∀ p, quiet (m p)) → quiet (through p m).
Proof. intros Hm. unfold through. destruct p as [p|]; [destruct (p =? 0)|]; auto using peek_only_ret. Qed.
Lemma quiet_scan {A} n p stride (body : Z → A → M A) a : (∀ e a, quiet (body e a)) → quiet (scan n p stride body a).
Proof.
  intros Hb. revert p a. induction n as [|n IH]; intros p a; cbn [scan]; [apply peek_only_ret|].
  apply peek_only_bind; auto.
Qed.
End quiet.

Ltac quiet_step :=
  match goal with
  | |- quiet (mret _) => apply peek_only_ret
  | |- quiet undef => apply quiet_undef
  | |- quiet (peek _ _) => apply quiet_peek
  | |- quiet (peek_or _ _ _) => apply quiet_peek_or
  | |- quiet (rd _ _) => apply quiet_rd
  | |- quiet (through _ _) => apply quiet_through; intros
  | |- quiet (scan _ _ _ _ _) => apply quiet_scan; intros
  | |- quiet (mbind _ _) => apply peek_only_bind; [|intros]
  | |- quiet (if ?b then _ else _) => destruct b
  | |- quiet (match ?x with _ => _ end) => destruct x
  | H : context [quiet _] |- _ => apply H
  end.
Ltac quiet_tac := unfold rd8, rd32, rdptr in *; repeat quiet_step.

Section emit.
Context `{G : Game}.

Lemma quiet_m1_walk fuel mgr s hash node : quiet (m1_walk fuel mgr s hash node).
Proof. revert node. induction fuel as [|fuel IH]; intros node; cbn [m1_walk]; quiet_tac. Qed.
Lemma quiet_m1_read mgr hash : quiet (m1_read mgr hash).
Proof. unfold m1_read. quiet_tac. apply quiet_m1_walk. Qed.
Lemma quiet_boot_queue_read base hash : quiet (boot_queue_read base hash).
Proof. unfold boot_queue_read. quiet_tac. Qed.
Lemma quiet_read_va mgr : quiet (read_va mgr).
Proof. unfold read_va, va_step. quiet_tac. Qed.
Lemma quiet_read_vb mgr : quiet (read_vb mgr).
Proof. unfold read_vb, vb_step. quiet_tac. Qed.
Lemma quiet_read_async_state : quiet read_async_state.
Proof.
  unfold read_async_state. quiet_tac;
    auto using quiet_m1_read, quiet_boot_queue_read, quiet_read_va, quiet_read_vb.
Qed.
Lemma quiet_read_mode3 base : quiet (read_mode3 base).
Proof. unfold read_mode3, read_qm_gate. quiet_tac. Qed.
Lemma quiet_read_quest qm l : quiet (read_quest qm l).
Proof. induction l as [|[off name] l IH]; cbn [read_quest]; quiet_tac. Qed.
Lemma quiet_read_solo base : quiet (read_solo base).
Proof. unfold read_solo, read_qm_gate. quiet_tac; auto using quiet_read_quest, quiet_read_async_state. Qed.
Lemma quiet_eventbus_dword : quiet eventbus_dword.
Proof. unfold eventbus_dword. quiet_tac. Qed.

(** One pass of a line that is logged on a change of the key or on a heartbeat. *)
Definition emission (key_at time_at : Static) (hb key now : Z) (text : string) (w w' : Probes) : Prop :=
  let changed := p_static w key_at ≠ key in
  let due := p_static w time_at = 0 ∨ hb <= (now - p_static w time_at) mod U64 in
  p_static w' key_at = key ∧
  (changed ∨ due → p_static w' time_at = now ∧ p_log w' = p_log w ++ [text]) ∧
  (¬ (changed ∨ due) → p_static w' time_at = p_static w time_at ∧ p_log w' = p_log w).

Lemma change_gate_spec key_at time_at hb key now w :
  key_at ≠ time_at →
  let due := (p_static w time_at =? 0) || (hb <=? (now - p_static w time_at) mod U64) in
  change_gate key_at time_at hb key now w =
  if (p_static w key_at =? key) && negb due then Some (None, p_set_static (<[key_at := key]> (p_static w)) w)
  else Some (Some due, p_set_static (<[time_at := now]> (<[key_at := key]> (p_static w))) w).
Proof.
  intros Hne due. unfold change_gate, swap, load, store, gets, modify, mbind, mret. cbn.
  rewrite fn_lookup_insert_ne by done. fold due. by destruct (_ && _).
Qed.

Lemma wp_Some {A} (m : M A) (Q : A → Probes → Prop) w x w' : m w = Some (x, w') → Q x w' → wp m Q w.
Proof. intros Hm HQ. unfold wp. by rewrite Hm. Qed.

(** The gate followed by the line. *)
Lemma gate_emits key_at time_at hb key now (text : bool → string) (finish : bool → M unit) w w0 :
  key_at ≠ time_at → p_static w0 key_at = p_static w key_at → p_static w0 time_at = p_static w time_at →
  p_log w0 = p_log w →
  (∀ b, let w1 := p_set_static (<[time_at := now]> (<[key_at := key]> (p_static w0))) w0 in
    wp (finish b) (λ _ w', p_static w' key_at = key ∧ p_static w' time_at = now ∧
      p_log w' = p_log w ++ [text b]) w1) →
  wp (let* emit := change_gate key_at time_at hb key now in
      match emit with None => mret tt | Some b => finish b end)
    (λ _ w', ∃ b, emission key_at time_at hb key now (text b) w w') w0.
Proof.
  intros Hne Hk Ht Hl Hf. apply wp_bind. unfold wp at 1. rewrite change_gate_spec by done. cbn zeta.
  rewrite Hk, Ht. set (due := (p_static w time_at =? 0) || (hb <=? (now - p_static w time_at) mod U64)).
  assert (due = true ↔ p_static w time_at = 0 ∨ hb <= (now - p_static w time_at) mod U64) as Hdue.
  { unfold due. by rewrite orb_true_iff, Z.eqb_eq, Z.leb_le. }
  destruct ((p_static w key_at =? key) && negb due) eqn:Hc; bool_props.
  - eapply wp_Some; [done|]. exists false. split; [cbn; apply fn_lookup_insert|].
    cbn. rewrite fn_lookup_insert_ne by done.
    split; [|by rewrite Ht, Hl]. intros [?|Hd]; [done|]. apply Hdue in Hd. congruence.
  - eapply wp_mono; [apply (Hf due)|]. intros [] w' (H1 & H2 & H3). exists due.
    split; [done|]. split; [done|]. intros [].
    apply andb_false_iff in Hc as [Hc|Hc]; bool_props; [by left|]. right. by apply Hdue.
Qed.

Lemma fetch_add64_run s v w :
  fetch_add64 s v w = Some (p_static w s, p_set_static (<[s := (p_static w s + v) mod U64]> (p_static w)) w).
Proof. reflexivity. Qed.
Lemma load_run s w : load s w = Some (p_static w s, w).
Proof. reflexivity. Qed.
Lemma now_ms_run w : now_ms w = Some (now_at (p_reads w), p_set_reads (S (p_reads w)) w).
Proof. reflexivity. Qed.

(** The end of [solo_sample_note]. *)
Lemma solo_line_run r now hb w :
  debug_enabled = true →
  wp (fetch_add64 SOLO_EMITTED 1;;
      let* tid := load SOLO_TID in
      let* passes := load SOLO_PASSES in
      let* emitted := load SOLO_EMITTED in
      debug_log (solo_text r now tid passes emitted hb))
    (λ _ w', p_static w' SOLO_KEY = p_static w SOLO_KEY ∧ p_static w' SOLO_AT = p_static w SOLO_AT ∧
      p_log w' = p_log w ++ [solo_text r now (p_static w SOLO_TID) (p_static w SOLO_PASSES)
        ((p_static w SOLO_EMITTED + 1) mod U64) hb]) w.
Proof.
  intros Hd. apply wp_bind. eapply wp_Some; [apply fetch_add64_run|].
  do 3 (apply wp_bind; eapply wp_Some; [apply load_run|]).
  unfold debug_log. rewrite Hd. unfold when, log_line, modify, wp. cbn [p_static p_set_static p_log p_set_log].
  rewrite fn_lookup_insert, !fn_lookup_insert_ne by done. auto.
Qed.

Lemma wp_debug_log s w : debug_enabled = true → wp (debug_log s) (λ _ w', w' = p_set_log (p_log w ++ [s]) w) w.
Proof. intros Hd. unfold debug_log. rewrite Hd. reflexivity. Qed.

(** with the verbose log on, each pass of the matching gate and of the sampler logs its line
    exactly when the readings of that pass have another key than those of the pass before or the
    last line is at least five seconds old; the line shows the readings of that very pass. *)
Theorem change_lines `{!GameOk} (Hexe : exe_module ≠ 0) (Hdbg : debug_enabled = true) w :
  wp mode3_gate_note (λ _ w', ∃ r w1 k, read_mode3 exe_module w = Some (r, w1) ∧
    emission MODE3_GATE_KEY MODE3_GATE_AT 5000 (mode3_key r) (now_at k) (mode3_text r) w w') w ∧
  wp solo_sample_note (λ _ w', ∃ r w1 k hb,
    let passes := (p_static w SOLO_PASSES + 1) mod U64 in
    read_solo exe_module (p_set_static (<[SOLO_PASSES := passes]> (p_static w)) w) = Some (r, w1) ∧
    emission SOLO_KEY SOLO_AT 5000 (solo_key r) (now_at k)
      (solo_text r (now_at k) (p_static w SOLO_TID) passes ((p_static w SOLO_EMITTED + 1) mod U64) hb) w w') w.
Proof.
  split.
  - unfold mode3_gate_note. rewrite (proj2 (Z.eqb_neq exe_module 0)) by done. apply wp_bind.
    pose proof (safe_read_mode3 exe_module w) as Hs. unfold wp in Hs. unfold wp at 1.
    destruct (read_mode3 exe_module w) as [[r w1]|] eqn:Hr; [|done].
    destruct (quiet_read_mode3 _ _ _ _ Hr) as [k ->]. apply wp_bind. eapply wp_Some; [done|].
    eapply wp_mono; [eapply (gate_emits _ _ _ _ _ (λ _, mode3_text r) _ w)|]; try done.
    + intros b w1. eapply wp_mono; [by apply wp_debug_log|]. intros [] w' ->. unfold w1. cbn.
      rewrite fn_lookup_insert_ne, !fn_lookup_insert by done. done.
    + intros [] w' [b He]. by exists r, (p_set_reads k w), k.
  - unfold solo_sample_note. rewrite (proj2 (Z.eqb_neq exe_module 0)) by done. apply wp_bind.
    eapply wp_Some; [apply fetch_add64_run|]. set (w0 := p_set_static _ w). apply wp_bind.
    pose proof (ok_read_solo exe_module w0) as Hs. unfold wp in Hs. unfold wp at 1.
    destruct (read_solo exe_module w0) as [[r w1]|] eqn:Hr; [|done].
    destruct (quiet_read_solo _ _ _ _ Hr) as [k ->]. apply wp_bind. eapply wp_Some; [apply now_ms_run|].
    eapply wp_mono; [eapply (gate_emits _ _ _ _ _ (λ b, solo_text r (now_at k) (p_static w SOLO_TID)
      ((p_static w SOLO_PASSES + 1) mod U64) ((p_static w SOLO_EMITTED + 1) mod U64) b) _ w); [done| | |done|]|].
    + unfold w0. cbn [p_static p_set_static p_set_reads]. by rewrite fn_lookup_insert_ne.
    + unfold w0. cbn [p_static p_set_static p_set_reads]. by rewrite fn_lookup_insert_ne.
    + intros b w1. eapply wp_mono; [by apply solo_line_run|]. intros [] w' (-> & -> & ->). unfold w1, w0.
      cbn [p_static p_set_static p_log p_set_reads].
      repeat first [rewrite fn_lookup_insert | rewrite fn_lookup_insert_ne by done]. auto.
    + intros [] w' [b He]. by exists r, (p_set_reads k w0), k, b.
Qed.
End emit.

Lemma change_lines_witness :
  wp (mode3_gate_note (G := small [])) (λ _ w', ∃ t, p_log w' = [t]) probes_init.
Proof.
  destruct (change_lines (H := small_ok []) ltac:(done) ltac:(done) probes_init) as [Hm _].
  eapply wp_mono; [exact Hm|]. intros [] w' (r & w1 & k & _ & _ & He & _).
  eexists. apply He. right. by left.
Defined.

(** ** The event bus *)

Section bus.
Context `{G : Game}.

Definition bus_values (t : EventBusTable) : list Z := value <$> take (Z.to_nat (distinct t)) (slots t).
Definition counted (t : EventBusTable) : Z :=
  foldr Z.add 0 (count <$> take (Z.to_nat (distinct t)) (slots t)).

(** After [n] calls, with the values announced as new in the log. *)
Record bus_ok (n : Z) (log : list string) (t : EventBusTable) : Prop := {
  bus_slots : length (slots t) = EVENTBUS_SLOTS;
  bus_distinct : 0 <= distinct t <= Z.of_nat EVENTBUS_SLOTS;
  bus_nodup : NoDup (bus_values t);
  bus_seen : counted t + overflow t = seen t;
  bus_calls : seen t + missing t = n;
  bus_pos : 0 <= overflow t ∧ 0 <= missing t ∧ Forall (λ s, 0 < count s) (take (Z.to_nat (distinct t)) (slots t));
  bus_full : 0 < overflow t → distinct t = Z.of_nat EVENTBUS_SLOTS;
  bus_last v : last t = Some v → v ∈ bus_values t ∨ 0 < overflow t;
  bus_logged v : v ∈ bus_values t → ∃ prev t', bus_text v prev true 1 t' ∈ log
}.

Lemma bus_ok_init : bus_ok 0 [] eventbus_table.
Proof.
  split; try done; try (cbn; lia).
  - apply NoDup_nil_2.
  - by intros v ?%elem_of_nil.
Qed.

Lemma sum_insert (l : list EventBusSlot) i s s' :
  l !! i = Some s →
  foldr Z.add 0 (count <$> <[i := s']> l) = foldr Z.add 0 (count <$> l) - count s + count s'.
Proof.
  revert i. induction l as [|x l IH]; intros [|i] Hi; try done.
  - injection Hi as ->. cbn. lia.
  - change (<[S i := s']> (x :: l)) with (x :: <[i := s']> l). rewrite !fmap_cons. cbn [foldr].
    rewrite (IH i Hi). lia.
Qed.
Lemma sum_snoc (l : list EventBusSlot) s :
  foldr Z.add 0 (count <$> l ++ [s]) = foldr Z.add 0 (count <$> l) + count s.
Proof. induction l as [|x l IH]; cbn in *; lia. Qed.

(** Taking the slots in use, after a slot is updated or the next one filled. *)
Lemma take_insert_in {A} (l : list A) n i x : (i < n)%nat → take n (<[i := x]> l) = <[i := x]> (take n l).
Proof. intros. by rewrite take_insert_lt. Qed.
Lemma take_insert_next {A} (l : list A) n x : (n < length l)%nat → take (S n) (<[n := x]> l) = take n l ++ [x].
Proof.
  intros. rewrite (take_S_r _ _ x) by (apply list_lookup_insert_eq; lia). by rewrite take_insert_ge by lia.
Qed.

Lemma slot_find_Some v t i :
  slot_find v t = Some i →
  ∃ s, take (Z.to_nat (distinct t)) (slots t) !! i = Some s ∧ value s = v ∧ slots t !! i = Some s ∧
    (i < Z.to_nat (distinct t))%nat.
Proof.
  intros (s & Hs & Hv & _)%position_Some. bool_props. exists s. split; [done|]. split; [done|].
  apply lookup_take_Some in Hs as [? ?]. done.
Qed.
Lemma slot_find_None v t : slot_find v t = None → v ∉ bus_values t.
Proof.
  intros Hn%position_None [s [-> Hin]]%list_elem_of_fmap. rewrite Forall_forall in Hn.
  specialize (Hn _ Hin). bool_props. done.
Qed.

Lemma bus_enter_ok n log v t :
  bus_ok n log t → n + 1 < U64 →
  let '(first, c, t') := bus_enter v t in
  bus_ok (n + 1) (if bool_decide (last t = Some v) then log else log ++ [bus_text v (last t) first c t']) t'.
Proof.
  intros [Hlen Hd Hnd Hseen Hcalls (Ho & Hm & Hpos) Hfull Hlast Hlog] Hn. unfold bus_enter.
  assert (0 <= counted t) as Hc0.
  { unfold counted. clear -Hpos. induction Hpos; cbn; lia. }
  assert ((seen t + 1) mod U64 = seen t + 1) as Hs1 by (apply Z.mod_small; lia).
  assert (∀ l l', (∀ v, v ∈ bus_values t → ∃ prev t', bus_text v prev true 1 t' ∈ l) →
    ∀ v, v ∈ bus_values t → ∃ prev t', bus_text v prev true 1 t' ∈ l ++ l') as Happ.
  { intros l l' Hl x Hx. destruct (Hl x Hx) as (p & t' & ?). exists p, t'. apply elem_of_app. by left. }
  destruct (slot_find v t) as [i|] eqn:Hf.
  - apply slot_find_Some in Hf as (s & Hts & Hv & Hs & Hi).
    assert (0 < count s <= counted t) as Hcs.
    { split; [by eapply (Forall_lookup_1 _ _ _ _ Hpos Hts)|].
      unfold counted. clear -Hpos Hts. revert i Hts. induction Hpos as [|x l Hx Hl IH]; intros [|i] Hi; try done; cbn in *.
      - injection Hi as ->. assert (0 <= foldr Z.add 0 (count <$> l)) by (clear -Hl; induction Hl; cbn; lia). lia.
      - specialize (IH i Hi). lia. }
    rewrite Hs. cbn [default from_option]. rewrite (Z.mod_small (count s + 1)) by lia. rewrite Hs1.
    assert (bus_values (mkEventBusTable (<[i:=mkEventBusSlot v (count s + 1)]> (slots t)) (distinct t)
      (Some v) (seen t + 1) (missing t) (overflow t)) = bus_values t) as Hvals.
    { unfold bus_values. cbn. rewrite take_insert_in by done. rewrite list_fmap_insert. cbn.
      apply list_insert_id. by rewrite list_lookup_fmap, Hts, <- Hv. }
    split; cbn [slots distinct last seen missing overflow]; try done; try lia.
    + by rewrite length_insert.
    + by rewrite Hvals.
    + unfold counted in *. cbn. rewrite take_insert_in, (sum_insert _ _ _ _ Hts) by done. cbn. lia.
    + split; [done|]. split; [done|]. rewrite take_insert_in by done. apply Forall_insert; [done|cbn; lia].
    + intros x [= <-]. left. rewrite Hvals. apply list_elem_of_fmap. exists s. split; [done|].
      by eapply list_elem_of_lookup_2.
    + rewrite Hvals. case_bool_decide; [done|]. by apply Happ.
  - pose proof (slot_find_None _ _ Hf) as Hv. rewrite Hs1.
    destruct (distinct t <? Z.of_nat EVENTBUS_SLOTS) eqn:Hlt; bool_props.
    + assert (last t ≠ Some v) as Hl.
      { intros Hl. destruct (Hlast v Hl) as [?|?]; [done|]. rewrite Hfull in Hlt by done. lia. }
      rewrite bool_decide_eq_false_2 by done.
      assert (Z.to_nat (distinct t + 1) = S (Z.to_nat (distinct t))) as HS by lia.
      assert (take (S (Z.to_nat (distinct t))) (<[Z.to_nat (distinct t):=mkEventBusSlot v 1]> (slots t)) =
        take (Z.to_nat (distinct t)) (slots t) ++ [mkEventBusSlot v 1]) as Htake.
      { apply take_insert_next. rewrite Hlen. lia. }
      assert (∀ l a b c, bus_values (mkEventBusTable (<[Z.to_nat (distinct t):=mkEventBusSlot v 1]> (slots t))
        (distinct t + 1) l a b c) = bus_values t ++ [v]) as Hvals.
      { intros. unfold bus_values. cbn [slots distinct]. rewrite HS, Htake, fmap_app. done. }
      split; cbn [slots distinct last seen missing overflow]; try done; try lia.
      * by rewrite length_insert.
      * rewrite Hvals. apply NoDup_app. split; [done|]. split; [|apply NoDup_singleton].
        intros x Hx ->%list_elem_of_singleton. done.
      * unfold counted in *. cbn [slots distinct]. rewrite HS, Htake, sum_snoc. cbn. lia.
      * split; [done|]. split; [done|]. rewrite HS, Htake. apply Forall_app. split; [done|]. by constructor.
      * intros x [= <-]. left. rewrite Hvals. apply elem_of_app. right. by apply list_elem_of_singleton.
      * intros x. rewrite Hvals. intros [Hx| ->%list_elem_of_singleton]%elem_of_app; [by apply Happ|].
        eexists _, _. apply elem_of_app. right. apply list_elem_of_singleton. reflexivity.
    + assert ((overflow t + 1) mod U64 = overflow t + 1) as -> by (apply Z.mod_small; lia).
      split; cbn [slots distinct last seen missing overflow]; try done; try lia.
      * unfold counted in *. cbn. lia.
      * split; [lia|]. by split.
      * case_bool_decide; [done|]. by apply Happ.
Qed.

Lemma bus_missing n log t :
  bus_ok n log t → n + 1 < U64 →
  bus_ok (n + 1) log (mkEventBusTable (slots t) (distinct t) (last t) (seen t) ((missing t + 1) mod U64) (overflow t)).
Proof.
  intros [Hlen Hd Hnd Hseen Hcalls (Ho & Hm & Hpos) Hfull Hlast Hlog] Hn.
  assert (0 <= counted t) as Hc0.
  { unfold counted. clear -Hpos. induction Hpos; cbn; lia. }
  rewrite Z.mod_small by lia. split; try done; cbn; try lia. split; [done|]. split; [lia|done].
Qed.

Lemma note_eventbus_ok `{!GameOk} n w :
  bus_ok n (p_log w) (p_bus w) → n + 1 < U64 →
  wp note_eventbus (λ _ w', bus_ok (n + 1) (p_log w') (p_bus w')) w.
Proof.
  intros Hb Hn. unfold note_eventbus. apply wp_bind.
  pose proof (safe_eventbus_dword w) as Hs. unfold wp in Hs. unfold wp at 1.
  destruct (eventbus_dword w) as [[r w1]|] eqn:Hr; [|done].
  destruct (quiet_eventbus_dword _ _ _ Hr) as [k ->]. apply wp_bind. eapply wp_Some; [done|].
  cbn [p_bus p_set_reads]. destruct r as [v|].
  - pose proof (bus_enter_ok n (p_log w) v (p_bus w) Hb Hn) as He.
    destruct (bus_enter v (p_bus w)) as [[first c] t']. apply wp_bind. eapply wp_Some; [done|].
    by destruct (bool_decide (last (p_bus w) = Some v)).
  - eapply wp_Some; [done|]. by apply bus_missing.
Qed.

(** [n] calls into the exports. *)
Fixpoint calls (n : nat) : M unit := match n with O => mret tt | S n => calls n;; note_eventbus end.

(** the event-bus table accounts for every call: after any number of calls (below 2^64), the
    calls are those that read a code and those that could not; the codes read are those counted in
    the sixteen slots and those that found the table full; the slots hold distinct codes, and each
    was announced in the log as new, however short it was on the bus between two calls. *)
Theorem eventbus_accounts `{!GameOk} n :
  Z.of_nat n < U64 → wp (calls n) (λ _ w, bus_ok (Z.of_nat n) (p_log w) (p_bus w)) probes_init.
Proof.
  induction n as [|n IH]; intros Hn; [exact bus_ok_init|]. cbn [calls]. apply wp_bind.
  eapply wp_mono; [apply IH; lia|]. intros x w Hw. cbv beta in Hw. clear x.
  replace (Z.of_nat (S n)) with (Z.of_nat n + 1) by lia. apply note_eventbus_ok; [done|lia].
Qed.
End bus.

Lemma eventbus_accounts_witness :
  wp (calls (G := small [at_rva EVENTBUS_OBJ_RVA 0x20000000; (0x20000108, to_le 4 7)]) 3)
    (λ _ w, seen (p_bus w) + missing (p_bus w) = 3) probes_init.
Proof.
  eapply wp_mono.
  - exact (eventbus_accounts (H := small_ok [at_rva EVENTBUS_OBJ_RVA 0x20000000; (0x20000108, to_le 4 7)]) 3
      ltac:(done)).
  - intros [] w Hw. apply (bus_calls _ _ _ Hw).
Defined.

(** ** What the key of the sampler's line leaves out *)

(** Two readings that differ only in the task's result: the verdict the line prints differs, the
    key does not. *)
Definition solo_reading (task : option (Z * Z)) : Solo :=
  mkSolo None None None None None (mkQmGate None None None None None) None None None [] None None
    (mkAsyncState (Some 8) (Some (mkM1 false 0 false)) None (mkVecA 1 1 1 0 task false) (mkVecB 0 0 0 0 0 0)).

Theorem solo_verdict_not_keyed :
  solo_key (solo_reading (Some (1, 0))) = solo_key (solo_reading (Some (2, 0))) ∧
  async_verdict (so_async (solo_reading (Some (1, 0)))) ≠ async_verdict (so_async (solo_reading (Some (2, 0)))).
Proof. split; [reflexivity|done]. Qed.

(** An unreadable field and a pointer of all ones have the same part in the key. *)
Theorem unreadable_not_distinct h : mix h None = mix h (Some UMAX).
Proof. reflexivity. Qed.
