(* ===== verification/ProbeProps.v ===== *)
(** * What the probes of the game guarantee

    No guarded probe leaves mapped memory, and the walk of the member list finds
    the names it holds; the probes that read beyond what they validated, with
    the condition under which they return. *)

From S2P Require Import Prelude RustStr Comp Probe ProbeGame ProbeAsync ProbeSafe.

#[local] Open Scope Z_scope.
#[local] Open Scope comp_scope.
#[local] Open Scope rust_scope.

(** A computation for its effect. *)
Definition run {A} (m : M A) : M unit := m;; mret tt.

Section props.
Context `{G : Game}.

(** The probes whose every read is covered by a test of the same range. *)
Definition guarded_probes : list (M unit) :=
  [run note_party_thread; run overlay_object; log_connect_gate_inputs; run connect_gate_party_invitation;
   run member_list_container; run collect_member_slots; run ready_list_note; run work_rows_note;
   quest_sync_note; run (session_modes exe_module); run read_async_state; asyncload_note; mode3_gate_note;
   solo_sample_note; run (append_overlay_note exe_module EmptyString)].

(** C28: whatever the game's memory holds, and however it changes from one read to the next, the
    guarded probes, the search of the member list and the reading of a string return: none of
    them reads an address that is not mapped. *)
Theorem guarded_probes_never_fault `{!GameOk} :
  Forall (λ m : M unit, ∀ w, is_Some (m w)) guarded_probes ∧
  (∀ name w, is_Some (member_list_has_entity name w)) ∧ (∀ obj w, is_Some (read_std_string obj w)).
Proof.
  assert (∀ A (m : M A), safe m → ∀ w, is_Some (m w)) as Hs.
  { intros A m Hm w. specialize (Hm w). unfold wp in Hm. destruct (m w) as [[x w']|]; by eauto. }
  assert (∀ A (m : M A), safe m → safe (run m)) as Hr.
  { intros A m Hm. eapply pok_bind; [exact Hm|]. intros x _. by apply pok_ret. }
  split; [|split; intros; apply Hs; [apply safe_member_list_has_entity|apply safe_read_std_string]].
  unfold guarded_probes.
  repeat match goal with |- Forall _ (_ :: _) => constructor; [apply Hs; try apply Hr|] end; [..|constructor];
    eauto using ok_safe, safe_note_party_thread, ok_overlay_object, safe_log_connect_gate_inputs,
      safe_connect_gate_party_invitation, ok_member_list_container, safe_collect_member_slots,
      safe_ready_list_note, safe_work_rows_note, safe_quest_sync_note, safe_session_modes,
      ok_read_async_state, safe_asyncload_note, safe_mode3_gate_note, safe_solo_sample_note,
      safe_append_overlay_note.
Qed.

(** where each object the globals point at is mapped beyond the range that is tested (the ready
    list from +0x50, the session from +0 and at +0x4ac, the bucket bases before the counts, the
    action's flag), the pass of a tick and the mesh-start timeline return, whatever else the
    memory holds; without that they can fault. *)
Theorem probe_pass_returns `{!GameOk} (Hw : WholeObjects) now w :
  is_Some (probe_pass now w) ∧ is_Some (mesh_trigger_timeline w).
Proof.
  pose proof (safe_probe_pass Hw now w) as H1. pose proof (safe_mesh_trigger_timeline Hw w) as H2.
  unfold wp in *. split; [destruct (probe_pass now w) as [[]|]|destruct (mesh_trigger_timeline w) as [[]|]]; by eauto.
Qed.

End props.

(** ** The member list *)

Section members.
Context `{GOK : GameOk}.

(** The memory holds [v] at [p], for all the probe can see. *)
Definition holds (n : nat) (p v : Z) : Prop :=
  readable p (Z.of_nat n) = true ∧ ∀ k, from_le (byte_at k <$> span p n) = v.
Definition holds_bytes (p : Z) (l : list byte) : Prop :=
  readable p (Z.of_nat (length l)) = true ∧ ∀ k, byte_at k <$> span p (length l) = l.

(** A [std::string]: up to 15 bytes inside the object, more behind a pointer. *)
Definition std_string (obj : Z) (s : string) : Prop :=
  ∃ cap l p, holds 8 (obj ⊞ 0x18) cap ∧ holds 8 (obj ⊞ 0x10) (Z.of_nat (length l)) ∧
    0 < Z.of_nat (length l) <= 64 ∧ (if 15 <? cap then holds 8 obj p else p = obj) ∧ p ≠ 0 ∧
    holds_bytes p l ∧ from_utf8_lossy l = s.

Definition member_entry (e : Z) (name : string) : Prop :=
  ∃ inner work, holds 8 (e ⊞ 0x18) inner ∧ inner ≠ 0 ∧ holds 8 (inner ⊞ 0x18) work ∧ work ≠ 0 ∧
    std_string (work ⊞ 0x38) name.

(** The global points to a container of entries with these names. *)
Definition member_list (names : list string) : Prop :=
  ∃ members begin, exe_module ≠ 0 ∧ holds 8 (exe_module ⊞ MEMBER_LIST_GLOBAL_RVA) members ∧ members ≠ 0 ∧
    readable (members ⊞ 0x50) 24 = true ∧ holds 8 (members ⊞ 0x50) begin ∧
    holds 8 (members ⊞ 0x58) (begin + MEMBER_STRIDE * Z.of_nat (length names)) ∧ begin ≠ 0 ∧
    (0 < length names ≤ 16)%nat ∧ readable begin (MEMBER_STRIDE * Z.of_nat (length names)) = true ∧
    ∀ i name, names !! i = Some name → member_entry (begin + MEMBER_STRIDE * Z.of_nat i) name.

Lemma holds_readable p v : holds 8 p v → readable p 8 = true.
Proof. by intros [? _]. Qed.
Lemma ok_peek_holds n p v : holds n p v → ok (peek n p) (λ x, x = v).
Proof.
  intros [Hr Hv] w. apply readable_live in Hr. pose proof (ok_read_bytes p n Hr w) as Hb.
  unfold peek. apply wp_bind. unfold read_bytes, wp in *. destruct (forallb mapped (span p n)); [|done].
  simpl. apply Hv.
Qed.
Lemma ok_peek_or_holds n p v o : holds n p v → ok (peek_or n p o) (λ x, x = v).
Proof. intros Hh. unfold peek_or. rewrite (proj1 Hh). by apply ok_peek_holds. Qed.
Lemma ok_bytes_holds p l : holds_bytes p l → ok (read_bytes p (length l)) (λ x, x = l).
Proof.
  intros [Hr Hv] w. apply readable_live in Hr. pose proof (ok_read_bytes p _ Hr w) as Hb.
  unfold read_bytes, wp in *. destruct (forallb mapped (span p (length l))); [|done]. apply Hv.
Qed.
Lemma ok_bind_eq {A B} (m : M A) (v : A) (f : A → M B) (Q : B → Prop) :
  ok m (λ x, x = v) → ok (f v) Q → ok (mbind m f) Q.
Proof. intros Hm Hf. eapply pok_bind; [exact Hm|]. by intros ? ->. Qed.

Lemma read_std_string_spec obj s : std_string obj s → ok (read_std_string obj) (λ x, x = s).
Proof.
  intros (cap & l & p & Hc & Hn & Hl & Hp & Hp0 & Hb & <-). unfold read_std_string.
  rewrite (holds_readable _ _ Hc), (holds_readable _ _ Hn). cbn [negb orb]. do 2 (eapply ok_bind_eq; [by apply ok_peek_holds|]).
  destruct (_ || _) eqn:Hz; [apply orb_true_iff in Hz as [Hz|Hz]; bool_props; lia|].
  assert (ok (if 15 <? cap then peek 8 obj else mret obj) (λ x, x = p)) as Hread.
  { destruct (15 <? cap); [by apply ok_peek_holds|]. by apply pok_ret. }
  assert ((15 <? cap) && negb (readable obj 8) = false) as ->.
  { destruct (15 <? cap); [|done]. by rewrite (holds_readable _ _ Hp). }
  eapply ok_bind_eq; [exact Hread|]. rewrite (proj2 (Z.eqb_neq p 0)) by done. rewrite (proj1 Hb).
  cbn [negb orb]. rewrite Nat2Z.id. eapply ok_bind_eq; [by apply ok_bytes_holds|]. by apply pok_ret.
Qed.

Lemma entry_work_spec e inner work :
  holds 8 (e ⊞ 0x18) inner → inner ≠ 0 → holds 8 (inner ⊞ 0x18) work → ok (entry_work e) (λ x, x = work).
Proof.
  intros H1 H2 H3. unfold entry_work. eapply ok_bind_eq; [by apply ok_peek_or_holds|].
  unfold via. rewrite (proj2 (Z.eqb_neq inner 0)) by done. by apply ok_peek_or_holds.
Qed.

(** The walk visits the entries one after another. *)
Lemma walk_entries {A} (names : list string) fuel begin end_ (body : Z → A → M (A * bool))
    (P : A → list string → Prop) (a : A) (Q : A → Prop) :
  live begin (end_ - begin) → end_ = begin + MEMBER_STRIDE * Z.of_nat (length names) → (length names ≤ fuel)%nat →
  (∀ i name, names !! i = Some name → member_entry (begin + MEMBER_STRIDE * Z.of_nat i) name) →
  (∀ e name names a, member_entry e name → P a (name :: names) →
    ok (body e a) (λ r, if r.2 then Q r.1 else P r.1 names)) →
  (∀ a, P a [] → Q a) → P a names → ok (walk fuel MEMBER_STRIDE begin end_ body a) Q.
Proof.
  intros Hl He Hf Hn Hb HQ Ha. revert fuel begin a Hl He Hf Hn Ha.
  induction names as [|name names IH]; intros fuel begin a Hl He Hf Hn Ha; cbn [length] in He, Hf.
  - replace (end_) with begin by (unfold MEMBER_STRIDE in He; lia).
    destruct fuel; cbn [walk]; rewrite Z.ltb_irrefl; apply pok_ret; by apply HQ.
  - unfold MEMBER_STRIDE in *. destruct fuel as [|fuel]; [lia|]. cbn [walk].
    rewrite (proj2 (Z.ltb_lt begin end_)) by lia. cbn [negb].
    pose proof (Hn 0%nat name eq_refl) as Hname. rewrite Z.mul_0_r, Z.add_0_r in Hname.
    eapply pok_bind; [by eapply Hb|]. intros [a' [|]] Hr; cbn in Hr; [by apply pok_ret|].
    rewrite (wadd_live begin (end_ - begin)) by (done || lia).
    apply IH; [eapply live_sub; [done|lia|lia]|lia|lia| |done].
    intros i x Hx. replace (begin + 32 + 32 * Z.of_nat i) with (begin + 32 * Z.of_nat (S i)) by lia. by apply Hn.
Qed.

Lemma member_walk_spec {A} names (no : A) (body : Z → A → M (A * bool)) (P : A → list string → Prop) (a : A) (Q : A → Prop) :
  member_list names →
  (∀ e name names a, member_entry e name → P a (name :: names) →
    ok (body e a) (λ r, if r.2 then Q r.1 else P r.1 names)) →
  (∀ a, P a [] → Q a) → P a names →
  ok (let* c := member_list_container in
      match c with
      | None => mret no
      | Some members =>
          let* begin := peek 8 (members ⊞ 0x50) in
          let* end_ := peek 8 (members ⊞ 0x58) in
          if negb (vec_shape begin end_ MEMBER_STRIDE) then mret no else
          if negb (readable begin (end_ - begin)) then mret no else
          walk WALK MEMBER_STRIDE begin end_ body a
      end) Q.
Proof.
  intros (members & begin & He & Hg & Hm & H24 & Hbeg & Hend & Hb0 & Hlen & Hr & Hn) Hb HQ Ha.
  eapply (ok_bind_eq _ (Some members)).
  { unfold member_list_container. rewrite (proj2 (Z.eqb_neq exe_module 0)) by done. rewrite (holds_readable _ _ Hg).
    cbn [negb orb]. eapply ok_bind_eq; [by apply ok_peek_holds|].
    rewrite (proj2 (Z.eqb_neq members 0)) by done. rewrite H24. by apply pok_ret. }
  do 2 (eapply ok_bind_eq; [by apply ok_peek_holds|]).
  assert (vec_shape begin (begin + MEMBER_STRIDE * Z.of_nat (length names)) MEMBER_STRIDE = true) as ->.
  { unfold vec_shape. rewrite (proj2 (Z.eqb_neq begin 0)) by done. cbn [negb andb].
    replace (begin + MEMBER_STRIDE * Z.of_nat (length names) - begin)
      with (Z.of_nat (length names) * MEMBER_STRIDE) by lia. rewrite Z.mod_mul by done.
    unfold MEMBER_STRIDE. repeat (apply andb_true_iff; split); try apply Z.leb_le; try done; lia. }
  replace (begin + MEMBER_STRIDE * Z.of_nat (length names) - begin)
    with (MEMBER_STRIDE * Z.of_nat (length names)) by lia. rewrite Hr. cbn [negb].
  apply (walk_entries names _ _ _ _ P); try done; [|unfold WALK; lia].
  replace (begin + MEMBER_STRIDE * Z.of_nat (length names) - begin)
    with (MEMBER_STRIDE * Z.of_nat (length names)) by lia. by apply readable_live.
Qed.

(** on a member list laid out as the game lays it out (a container with one to sixteen
    entries, each two pointers away from an object with its name as a [std::string]), the search
    answers whether the name is one of the entries', and the collected slots carry the names of all
    entries in their order. *)
Theorem member_list_search (names : list string) (Hl : member_list names) name w :
  wp (member_list_has_entity name) (λ b _, b = bool_decide (name ∈ names)) w ∧
  wp collect_member_slots (λ slots _, eid <$> slots = names) w.
Proof.
  split.
  - revert w. change (ok (member_list_has_entity name) (λ b, b = bool_decide (name ∈ names))).
    unfold member_list_has_entity.
    apply (member_walk_spec names false _ (λ b l, b = false ∧ (name ∈ l ↔ name ∈ names))); [done| | |done].
    + intros e n l a (inner & work & H1 & H2 & H3 & H4 & H5) [-> Hiff].
      eapply ok_bind_eq; [by eapply entry_work_spec|]. rewrite (proj2 (Z.eqb_neq work 0)) by done.
      eapply ok_bind_eq; [by apply read_std_string_spec|]. apply pok_ret. cbn.
      rewrite elem_of_cons in Hiff. destruct (decide (n = name)) as [->|Hd].
      * rewrite (bool_decide_eq_true_2 (name = name)) by done. symmetry. apply bool_decide_eq_true, Hiff. by left.
      * rewrite (bool_decide_eq_false_2 (n = name)) by done. split; [done|]. rewrite <- Hiff.
        split; [by right|]. by intros [->|?].
    + intros b [-> Hiff]. symmetry. apply bool_decide_eq_false. rewrite <- Hiff. apply not_elem_of_nil.
  - revert w. change (ok collect_member_slots (λ slots, eid <$> slots = names)). unfold collect_member_slots.
    apply (member_walk_spec names [] _ (λ out l, (eid <$> out) ++ l = names)); [done| | |done].
    + intros e n l a (inner & work & H1 & H2 & H3 & H4 & H5) Ha.
      eapply (pok_bind _ _ (λ s, eid s = n)).
      * unfold member_slot. eapply ok_bind_eq; [by eapply entry_work_spec|].
        do 5 (eapply pok_bind; [eauto with probes|intros ? _]). rewrite (proj2 (Z.eqb_neq work 0)) by done.
        eapply ok_bind_eq; [by apply read_std_string_spec|]. by apply pok_ret.
      * intros s Hs. apply pok_ret. cbn. rewrite fmap_app, <- app_assoc. cbn. by rewrite Hs.
    + intros out Ho. by rewrite app_nil_r in Ho.
Qed.
End members.

(** ** Reads beyond what was validated *)

(** The quest guard validates eight bytes at +4 of the session and reads +0x4ac. *)
Theorem quest_guard_over_read :
  quest_guard_note (G := small [at_rva QUEST_MGR_GLOBAL_RVA 0; at_rva SESSION_GLOBAL_RVA 0x20000ff0])
    probes_init = None.
Proof. vm_compute. reflexivity. Qed.

(** The quest array validates a count and reads the base before it. *)
Theorem quest_array_over_read :
  quest_array_note (G := small [at_rva 0x7c47850 (0x20000000 - 0x80); (0x20000000, to_le 8 1)])
    probes_init = None.
Proof. vm_compute. reflexivity. Qed.

(** The quest action validates eight bytes at +0x108 and reads +0x1d4. *)
Theorem quest_action_over_read :
  quest_action_note (G := small [at_rva EVENTBUS_OBJ_RVA 0x20000ef0]) probes_init = None.
Proof. vm_compute. reflexivity. Qed.

(** The queue rows validate +0x60 and read +0x50 and +0x58. *)
Theorem queue_rows_over_read :
  queue_rows_note (G := small [at_rva READY_LIST_GLOBAL_RVA (0x20000000 - 0x60)]) probes_init = None.
Proof. vm_compute. reflexivity. Qed.

(** The session probe validates +4 and +0x3c0 and reads +0. *)
Theorem probe_session_over_read :
  probe_session (G := small [at_rva SESSION_GLOBAL_RVA (0x20000000 - 4)]) probes_init = None.
Proof. vm_compute. reflexivity. Qed.

Lemma guarded_probes_never_fault_witness :
  is_Some (member_list_has_entity (G := small [at_rva MEMBER_LIST_GLOBAL_RVA 0x20000ff8]) "a" probes_init).
Proof.
  destruct (guarded_probes_never_fault (H := small_ok [at_rva MEMBER_LIST_GLOBAL_RVA 0x20000ff8])) as (_ & Hm & _).
  apply Hm.
Defined.

(** A session, a ready list, buckets and an action on the heap. *)
Definition whole_contents : list (Z * list byte) :=
  [at_rva SESSION_GLOBAL_RVA 0x20000000; at_rva READY_LIST_GLOBAL_RVA 0x20000600;
   at_rva 0x7c47850 0x20000700; at_rva EVENTBUS_OBJ_RVA 0x20000800; (0x20000004, to_le 4 3)].

Lemma whole_small : WholeObjects (H := small whole_contents).
Proof.
  split; intros k; [| | |unfold QUEST_BUCKETS; repeat (apply List.Forall_cons; [|]); [..|apply List.Forall_nil]|]; intros _;
    match goal with |- live ?p ?n => let v := eval vm_compute in p in replace p with v by (vm_compute; reflexivity) end;
    eapply (demo_live _ _ _ _ HEAP); vm_compute; try done; right; left.
Qed.

Lemma probe_pass_returns_witness :
  WholeObjects (H := small whole_contents) ∧ is_Some (probe_pass (G := small whole_contents) 5000 probes_init).
Proof.
  split; [apply whole_small|].
  exact (proj1 (probe_pass_returns (H := small_ok whole_contents) whole_small 5000 probes_init)).
Defined.

(** Two members, one name inside its object and one behind a pointer. *)
Definition long_name : string := "entity-with-a-long-name".
Definition members_game : Game := small
  [at_rva MEMBER_LIST_GLOBAL_RVA 0x20000010; (0x20000060, to_le 8 0x20000100); (0x20000068, to_le 8 0x20000140);
   (0x20000118, to_le 8 0x20000200); (0x20000218, to_le 8 0x20000300);
   (0x20000138, to_le 8 0x20000220); (0x20000238, to_le 8 0x20000400);
   (0x20000338, sbytes "alice"); (0x20000348, to_le 8 5); (0x20000350, to_le 8 15);
   (0x20000438, to_le 8 0x20000500); (0x20000448, to_le 8 23); (0x20000450, to_le 8 31);
   (0x20000500, sbytes long_name)].

Ltac holds_tac := split; [vm_compute; reflexivity|intros ?; vm_compute; reflexivity].

Lemma members_game_list : member_list (H := members_game) ["alice"; long_name]%string.
Proof.
  assert (std_string (H := members_game) 0x20000338 "alice") as H1.
  { exists 15, (sbytes "alice"), 0x20000338. repeat split; try done; holds_tac. }
  assert (std_string (H := members_game) 0x20000438 long_name) as H2.
  { exists 31, (sbytes long_name), 0x20000500.
    split; [holds_tac|]. split; [holds_tac|]. split; [done|]. split; [cbn; holds_tac|].
    split; [done|]. split; [holds_tac|]. vm_compute. reflexivity. }
  exists 0x20000010, 0x20000100. split; [done|]. split; [holds_tac|]. split; [done|]. split; [vm_compute; reflexivity|].
  split; [holds_tac|]. split; [holds_tac|]. split; [done|]. split; [simpl; lia|]. split; [vm_compute; reflexivity|].
  intros [|[|i]] name Hn; [injection Hn as <-|injection Hn as <-|done].
  - exists 0x20000200, 0x20000300. split; [holds_tac|]. split; [done|]. split; [holds_tac|]. by split.
  - exists 0x20000220, 0x20000400. split; [holds_tac|]. split; [done|]. split; [holds_tac|]. by split.
Qed.

Lemma member_list_search_witness :
  wp (member_list_has_entity (G := members_game) long_name) (λ b _, b = true) probes_init.
Proof.
  exact (proj1 (member_list_search (GOK := small_ok _) _ members_game_list long_name probes_init)).
Defined.
